(* ===== verification/_CoqProject ===== *)
-Q . S2P
Prelude.v
Time.v
Config.v
Source.v
Tonic.v
Rpc.v
Entry.v
Lru.v
World.v
Metrics.v
SubjectMap.v
Gate.v
Fetch.v
Admit.v
Closure.v
Invariant.v
EntryMethods.v
MapMethods.v
Create.v
GateMethods.v
AccessMethods.v
FetchMethods.v
AdmitMethods.v
Frame.v
Authorship.v
Claims.v
Guards.v
Watcher.v
WatcherMethods.v
Accounts.v
System.v
Demo.v
Contract.v
Progress.v
Program.v
Tasks.v
Provenance.v
Authority.v
Typed.v
Settlement.v
Stream.v
StreamMethods.v
StreamContract.v
Layer.v
LayerContract.v
Heard.v
Server.v
Facade.v
HttpMiddleware.v
