(* ===== verification/Prelude.v ===== *)
(** * policy-gate: a verification development

    The crate [policy-gate] (Rust, [src/src/]) answers one question for a server:
    may this subject start, and go on with, its work?  It keeps decisions of a
    remote authority in a cache, keeps the cache honest with a watch stream, hands
    out handles that later decisions revoke, and enforces them on requests and on
    streaming bodies.  This library models that code as executable functions and
    proves what makes it correct.

    ** How the parts interact

    - [PolicyGate] (gate.rs) is a handle on one shared [GateState].  Clients call
      it from any task: cached reads, admissions, refreshes.
    - [GateState] keeps a [SubjectMap] (a bounded, idle-evicted map from subjects
      to entries) and a published snapshot of it that cached reads use without
      its lock.
    - An [Entry] is one verdict cell: an atomic snapshot (a packed word, a payload,
      a refresh time) and the lookup that is in flight for it.  An [Admission] is a
      reference to an entry, so what happens to the entry happens to every handle.
    - A [PendingFetch] is a shared future that asks the authority and publishes the
      answer into its entry.
    - [DecisionWatcher] (watcher.rs) is the only task that opens the watch; it
      connects and disconnects the gate, applies changes and runs refreshes.
    - [PolicyGateMiddleware] (layer.rs, grpc.rs) admits requests and renders
      rejections; [EnforcedBody] (stream.rs) rechecks the handle on every frame.
    - [TonicDecisionSource] (tonic_source.rs, policy_proto.rs) is the authority
      seen through gRPC.

    ** The model

    A method is a function [M W A := W → option (A * W)] from the shared state to
    its result and the new state; [None] is a panic.  [World.World] is the shared
    state: what [Arc<GateState>], the entries, the fetches and the clock hold
    between two atomic actions.  [Arc]s are identities in two heaps, [arc_swap]
    cells, atomics and mutex-protected values are fields.  Async functions are
    machines over explicit control points, one step per segment between two
    awaits; everything the outside world decides in such a step (answers of the
    source, acceptance by a channel, the order in which [select!] polls, random
    numbers) is an argument, the clock is an arbitrary sequence of instants.

    Methods that hold the map's lock, and the operations of an entry, are atomic.
    For the entry operations this is justified by [Entry.cas_loop_linearizable]:
    the compare-and-swap loops, run against any stores of other threads, behave as
    one atomic step between two of them.  The three critical sections of a
    republication are separate steps of [System.gate_step].  The lru crate is an
    interface with laws ([Lru.LruCache], [Lru.LruCacheOk]) and a list implementation
    that satisfies them.

    ** Files and what they correspond to

    - [Prelude]: the monad, its judgements [always] and [total], [u64] arithmetic.
    - [Time] (time.rs): [Duration], [Instant], [TimeDriver] with [sleep], [timeout]
      and [timeout_at] one poll at a time, and [TokioTimeDriver].
    - [Config] (lib.rs): [PolicyGateConfig], its builder and [build].
    - [Source] (lib.rs, gate.rs): decisions, results, changes and source errors.
    - [Tonic] (tonic_source.rs, policy_proto.rs): decoding, classification, calls.
    - [Entry] (gate.rs): the packed word, deadlines, the compare-and-swap loops.
    - [Lru]: the cache interface; [World]: the shared state, entry and handle
      methods; [SubjectMap], [Gate], [Fetch], [Admit] (gate.rs): the map, the gate's
      methods, the shared lookup, the admission loop.
    - [Invariant]: the invariant [wf], the guarantee [evolves] and the judgement
      [run_from] (total correctness); [EntryMethods], [MapMethods], [Create],
      [GateMethods], [AccessMethods], [FetchMethods], [AdmitMethods]: one lemma per
      method, by composition.
    - [Frame]: what clients leave alone.
    - [Watcher], [WatcherMethods] (watcher.rs): health and the watch loop.
    - [System]: [gate_step], any interleaving of methods and segments, and
      [reachable].  [Demo]: a concrete deployment the witnesses run on.
    - [Contract]: what the gate promises its callers.  [Progress]: an admission that
      runs undisturbed.  [Program]: clients and the one watcher.
    - [Stream], [StreamMethods], [StreamContract] (stream.rs): enforced bodies.
    - [Layer], [LayerContract] (layer.rs, grpc.rs): the middleware.
    - [Rpc] (policy_proto.rs, tonic_source.rs): the generated client and server,
      the channel of the source.  [Metrics] (metrics.rs): the sinks of the crate.
    - [Authorship]: who may write a verdict, method by method.  [Provenance]: the
      gate beside the history of what the authority said ([told]).  [Authority]:
      the program beside that history ([broadcast]).  [Typed]: what the state in
      a packed word says of the other fields, and machine widths.
    - [Facade] (gate.rs, layer.rs): [PolicyGate] and the construction of the layer.
      [HttpMiddleware] (examples/http_middleware.rs): the example service.
    - [Closure]: a relation between worlds that every plain method keeps
      ([Closure.Routine]), proved once by composition; [Frame], [Authorship] and
      [Claims] are instances.  [Claims]: which lookup an entry waits for, and what
      a step may do to the claims of refreshes.  [Guards]: who is left holding a
      claim when a call suspends.  [Accounts]: the same for the watch loop, its
      queue and the lookups it drives.
    - [Tasks]: the running program as a list of suspended calls, the handles handed
      out, the watch loop and the lookups; a scheduler runs it on examples.
    - [Heard]: the methods of the middleware and of the bodies beside the history.
      [Server]: requests, bodies, clients and the watch in any order, and what a
      step lets out; the composition of all the parts above.
    - [Settlement]: how a refresh moves between its owners, the steps that count as
      attending to it, and fair infinite runs of [Tasks].
    ** What the theorems show

    - Safety of the cache, in every reachable world: a disconnect is final for
      every handle handed out before; a watch decision is in force at once and no
      lookup in flight overwrites it; admissions and cached reads return only
      listed entries with an unexpired verdict; a handle that left the map is stale
      for good; refreshes are single-flight and replace only what they started
      from; a rebuild that straddles a change of the connection is dropped, whatever
      runs between ([Contract]).
    - No method panics in a reachable world, and the admission loop ends at its
      deadline whatever others do ([Contract]).  An undisturbed admission that is
      answered in time delivers the source's verdict in five steps ([Progress]).
    - The entry: linearizability of its loops, round trip of the word, finality of
      expiry, bounds of freshness ([Entry]); a published decision is usable exactly
      as long as its TTL and its cap allow ([Contract]).
    - The watcher: the connection follows the watch, every control point moves on and
      the end of the stream ends the watch, backoff and jitter stay within bounds,
      dropping it fails closed.  Health is honest: the outage that it reports runs
      from the first loss after a stable watch (a ghost of the run says which
      reading of the clock that was) until a watch is stable again ([Program]).
    - Requests reach the service only under a handle seen allowed; bodies pass
      frames only under an allowed handle or during a readmission, and are cut or
      end once
      ([LayerContract], [StreamContract]).
    - Configurations are accepted exactly when they obey the rules, and messages of
      the authority exactly when they echo the scope and are understood ([Config],
      [Tonic]).
    - End to end ([Server]): a request reaches the inner service, and a frame of
      a live body its peer, only while the authority states that the subject is
      allowed; the one exception is a body whose handle went stale and that is
      being readmitted.
    - Nothing is admitted or denied but on the authority's word: whatever a handle
      reports was stated by the source of the handle's subject, as the last change
      of the watch or as the answer to a lookup that started after that change and
      after the watch last opened or closed; the program refines the machine that
      runs the gate beside that history ([Authority]).
    - In every reachable world only verdicts carry data: the packed words, payloads
      and refresh times are those of a tagged union of the four states, and every
      verdict expires unless the freshness is unlimited ([Typed]).
    - The public wrapper: what [refresh] promises, and that the middleware's
      synchronous shortcut is the cached read it replaces ([Facade]); the example
      service serves nobody without its token ([HttpMiddleware]).
    - The generated client over the generated server answers as the authority it
      serves would in process ([Rpc]); a shared sink counts what the sink it
      shares counts ([Metrics]).
    - The running program, with no premise on what clients hold ([Tasks]): its
      references are always good, so every run is one of [Program]; no suspended
      call, handle, new call or step of the watcher can panic; every claim of a
      refresh is with exactly one owner that will answer it or give it up; the
      source is called at most once per subject and [max_subjects] times in all.
    - In a fair infinite run of it every claimed refresh is settled, once and for all:
      answered, given up or retired ([Settlement]).  Fair means that, as long as the
      refresh is claimed, its owner will attend to it again: a caller is dropped or
      polled past its queue deadline, the watcher receives from the queue, is given
      an answer or reaches the lookup's deadline, or retires a lost connection.
    - Construction panics for no configuration that [build] accepted, provided its
      refresh queue is one that a channel of tokio can have, which [build] does not
      check ([Facade.construction_total], [Facade.oversized_queue_panics]); and the
      default configuration is accepted ([Config]); the service whose readiness
      the middleware polled is the one a call uses ([Facade]).
    ** Bounds and fuel

    - [SubjectMap.evict_loop] gets the number of slots as fuel; every iteration
      pops one.
    - [Gate.apply_change_loop] gets fuel 1: it runs under the map's lock between
      the load and the exchange, and [Contract.methods_never_panic] shows that the
      fuel suffices.
    - [Entry.cas_loop] takes the stores other threads land; it retries at most once
      per store.
    - [Stream.enforce] takes one environment per iteration of the loop;
      [StreamContract.stream_poll_returns] says how many are enough.

    ** Not modelled

    - Tokio, tonic, prost, hyper, axum, the lru crate and the caller's source,
      policy, bodies and metrics sink are interfaces or arguments.
    - The generation token of a fetch and the fetch are one identity.
    - [Debug] implementations, the derived [Clone]s, tracing output, memory orderings
      weaker than sequential consistency, the dropping of an [Arc]'s last reference.
    - The gRPC transport is synchronous: a service answers a request at once, and
      that messages within the size limits arrive as sent is a law of the
      interface [Rpc.TonicGrpcOk].  What [connect], [with_origin] and
      [with_interceptor] of the generated code call in tonic is a parameter.
    - The sizes asserted of [Entry] and [Admission].  What [TokioTimeDriver] and
      [AxumBodyAdapter] call in tokio and axum is a parameter ([Time.Tokio]).
    - The source is a function of the lookup: a lookup calls it once
      ([Authority]); what it answers may keep the lookup waiting or panic.
    - The router and the listener in [main] of the example, and the tests.
    - In [Server] the inner service is an outcome and the bodies it answers with
      are arbitrary; a body is polled with the handle its request was forwarded
      with, in any order with the rest.
    - Failing allocations: a buffer ([watch_source]'s [Vec::with_capacity]) or a map too
      large for the memory.  The [expect] on the sends to the connectivity channel,
      which fail only without a receiver, and the gate holds one.
    - Stores of other threads inside one segment of a method: between the load and the
      exchange of [apply_change]'s loop, and between the claim of a refresh and its
      second look at the entry.  A segment is one step here; for the loops of the entry
      [Entry.cas_loop_linearizable] covers such stores.
*)

From stdpp Require Export base tactics option list numbers gmap strings.
From Stdlib Require Export ZArith Lia.

#[export] Set Default Goal Selector "!".
#[global] Open Scope Z_scope.

(** ** The state-and-panic monad

    A method of the program takes the shared state, may panic ([None]) and
    otherwise returns its result and the new state. *)

Definition M (W A : Type) : Type := W → option (A * W).

#[export] Instance M_ret W : MRet (M W) := λ A a w, Some (a, w).
#[export] Instance M_bind W : MBind (M W) :=
  λ A B k m w, match m w with Some (a, w') => k a w' | None => None end.

Definition panic {W A} : M W A := λ _, None.
Definition gets {W A} (f : W → A) : M W A := λ w, Some (f w, w).
Definition modify {W} (f : W → W) : M W unit := λ w, Some (tt, f w).

(** [expect o] is [Option::expect]: it panics on [None]. *)
Definition expect {W A} (o : option A) : M W A := λ w,
  match o with Some a => Some (a, w) | None => None end.

(** ** Total and partial judgements about monadic methods

    [always R m]: every run of [m] that does not panic relates the state before
    to the state after by [R].  [total P m Q]: from a state satisfying [P], [m]
    does not panic and establishes [Q]. *)

Definition always {W A} (R : W → W → Prop) (m : M W A) : Prop :=
  ∀ w a w', m w = Some (a, w') → R w w'.

Definition total {W A} (P : W → Prop) (m : M W A) (Q : W → A → W → Prop) : Prop :=
  ∀ w, P w → ∃ a w', m w = Some (a, w') ∧ Q w a w'.

Section monad.
Context {W : Type}.

Lemma run_ret {A} (a : A) (w : W) : (mret a : M W A) w = Some (a, w).
Proof. done. Qed.

Lemma run_bind {A B} (m : M W A) (k : A → M W B) w b w2 :
  (m ≫= k) w = Some (b, w2) ↔
  ∃ a w1, m w = Some (a, w1) ∧ k a w1 = Some (b, w2).
Proof.
  unfold mbind, M_bind. destruct (m w) as [[a w1]|].
  - split; [eauto|]. intros (a' & w1' & [= <- <-] & H). exact H.
  - split; [done|]. intros (a' & w1' & [=] & _).
Qed.

Lemma run_bind_step {A B} (m : M W A) (k : A → M W B) w a w1 :
  m w = Some (a, w1) → (m ≫= k) w = k a w1.
Proof. unfold mbind, M_bind. by intros ->. Qed.

Lemma always_ret {A} (R : W → W → Prop) `{!Reflexive R} (a : A) :
  always R (mret a : M W A).
Proof. intros w a' w' [= <- <-]. reflexivity. Qed.

Lemma always_panic {A} (R : W → W → Prop) : always R (panic : M W A).
Proof. intros w a w' [=]. Qed.

Lemma always_gets {A} (R : W → W → Prop) `{!Reflexive R} (f : W → A) :
  always R (gets f).
Proof. intros w a w' [= <- <-]. reflexivity. Qed.

Lemma always_expect {A} (R : W → W → Prop) `{!Reflexive R} (o : option A) :
  always R (expect o).
Proof. intros w a w'. unfold expect. destruct o; [|done]. intros [= <- <-]. reflexivity. Qed.

Lemma always_bind {A B} (R : W → W → Prop) `{!Transitive R}
    (m : M W A) (k : A → M W B) :
  always R m → (∀ a, always R (k a)) → always R (m ≫= k).
Proof.
  intros Hm Hk w b w2 (a & w1 & H1 & H2)%run_bind.
  etransitivity; [eapply Hm|eapply Hk]; eauto.
Qed.
End monad.

Create HintDb gate discriminated.
#[export] Hint Resolve always_ret always_panic always_gets always_expect : gate.

(** [inv_run H] takes apart a successful run of a monadic method. *)
Ltac inv_run_step H :=
  first
    [ apply run_bind in H;
      let a := fresh "a" in let w := fresh "w" in let H1 := fresh "Hrun" in
      destruct H as (a & w & H1 & H)
    | injection H as ?; subst
    | discriminate H ].

(** ** Machine-width unsigned integers *)

Definition u64_max : Z := 2 ^ 64 - 1.

Definition u64_wrap (x : Z) : Z := x mod 2 ^ 64.

Definition u64_try_from (x : Z) : option Z :=
  if (0 <=? x) && (x <=? u64_max) then Some x else None.

Definition u64_checked_add (a b : Z) : option Z := u64_try_from (a + b).
Definition u64_saturating_add (a b : Z) : Z := Z.min u64_max (a + b).
Definition u64_saturating_sub (a b : Z) : Z := Z.max 0 (a - b).
Definition u64_div_ceil (a b : Z) : Z := if a mod b =? 0 then a / b else a / b + 1.

Definition u64_range (x : Z) : Prop := 0 ≤ x ≤ u64_max.

Lemma u64_max_val : u64_max = 18446744073709551615.
Proof. reflexivity. Qed.

Lemma u64_try_from_Some x y : u64_try_from x = Some y ↔ x = y ∧ u64_range x.
Proof.
  unfold u64_try_from, u64_range.
  destruct (Z.leb_spec 0 x), (Z.leb_spec x u64_max); simpl;
    (split; [intros [=]; lia| intros [??]; first [lia|congruence]]).
Qed.

Lemma u64_try_from_None x : 0 ≤ x → u64_try_from x = None ↔ u64_max < x.
Proof.
  intros Hx. unfold u64_try_from.
  destruct (Z.leb_spec 0 x), (Z.leb_spec x u64_max); simpl; try lia;
    (split; [done || lia | done || lia]).
Qed.

Lemma u64_wrap_small x : u64_range x → u64_wrap x = x.
Proof. unfold u64_range, u64_wrap, u64_max. intros. apply Z.mod_small. lia. Qed.

Lemma u64_wrap_add_l a b : u64_wrap (u64_wrap a + b) = u64_wrap (a + b).
Proof. unfold u64_wrap. by rewrite Z.add_mod_idemp_l. Qed.

(** A counter is back where it was after [2 ^ 64] increments at the earliest. *)
Lemma u64_wrap_moves a d : 0 < d ≤ u64_max → a ≠ u64_wrap (a + d).
Proof.
  unfold u64_wrap, u64_max. intros Hd Ha. pose proof (Z.div_mod (a + d) (2 ^ 64) ltac:(lia)).
  assert (d = 2 ^ 64 * ((a + d) / 2 ^ 64)) by lia. nia.
Qed.

Lemma u64_div_ceil_two_bounds a :
  0 ≤ a → a ≤ 2 * u64_div_ceil a 2 ≤ a + 1.
Proof.
  intros Ha. unfold u64_div_ceil.
  pose proof (Z.div_mod a 2). pose proof (Z.mod_pos_bound a 2).
  destruct (Z.eqb_spec (a mod 2) 0); lia.
Qed.

#[global] Opaque u64_max.

(** ** Lists *)

Lemma snoc_cases {A} (l : list A) : l = [] ∨ ∃ l' x, l = l' ++ [x].
Proof.
  destruct (last l) as [x|] eqn:E.
  - apply last_Some in E as [l' ->]. eauto.
  - apply last_None in E. auto.
Qed.

(** [list_remove x l] is [l] without the first occurrence of [x]. *)
Fixpoint list_remove {A} `{EqDecision A} (x : A) (l : list A) : option (list A) :=
  match l with
  | [] => None
  | y :: l =>
      if decide (x = y) then Some l
      else match list_remove x l with Some l => Some (y :: l) | None => None end
  end.

Lemma list_remove_Permutation {A} `{EqDecision A} (x : A) l l' :
  list_remove x l = Some l' → l ≡ₚ x :: l'.
Proof.
  revert l'. induction l as [|y l IH]; intros l'; simpl; [done|].
  case_decide as Hx; [intros [= ->]; by subst|].
  destruct (list_remove x l) as [k|]; [|done]. intros [= <-].
  rewrite (IH k eq_refl). constructor.
Qed.

Lemma list_remove_elem_of {A} `{EqDecision A} (x : A) l :
  x ∈ l → ∃ l', list_remove x l = Some l'.
Proof.
  induction l as [|y l IH]; [by intros ?%elem_of_nil|]. intros Hin. simpl.
  case_decide as Hy; [by eexists|]. destruct IH as [l' ->]; [|by eexists].
  apply elem_of_cons in Hin as [->|?]; done.
Qed.

(** ** Results *)

Inductive result (A E : Type) : Type := Ok (a : A) | Err (e : E).
Arguments Ok {A E} a.
Arguments Err {A E} e.

Definition result_map {A B E} (f : A → B) (r : result A E) : result B E :=
  match r with Ok a => Ok (f a) | Err e => Err e end.

Definition result_map_err {A E F} (f : E → F) (r : result A E) : result A F :=
  match r with Ok a => Ok a | Err e => Err (f e) end.

(** The [?] operator. *)
Definition and_then {A B E} (r : result A E) (k : A → result B E) : result B E :=
  match r with Ok a => k a | Err e => Err e end.

Declare Scope result_scope.
Notation "x ←? r ; k" := (and_then r (λ x, k))
  (at level 20, r at level 100, k at level 200, only parsing) : result_scope.
Open Scope result_scope.

Lemma and_then_ok {A B E} (r : result A E) (k : A → result B E) b :
  and_then r k = Ok b ↔ ∃ a, r = Ok a ∧ k a = Ok b.
Proof.
  destruct r as [a|e]; simpl; split; [eauto|by intros (? & [= ->] & ?)|done|by intros (? & [=] & _)].
Qed.

Lemma and_then_err {A B E} (r : result A E) (k : A → result B E) e :
  and_then r k = Err e ↔ r = Err e ∨ ∃ a, r = Ok a ∧ k a = Err e.
Proof.
  destruct r as [a|e']; simpl; split.
  - eauto.
  - by intros [[=]|(? & [= ->] & ?)].
  - intros [= ->]. by left.
  - by intros [[= ->]|(? & [=] & _)].
Qed.

Definition is_ok {A E} (r : result A E) : bool :=
  match r with Ok _ => true | Err _ => false end.

(** ** Polling *)

Module Poll.
Inductive t (A : Type) : Type := Ready (a : A) | Pending.
Arguments Ready {A} a.
Arguments Pending {A}.

Definition map {A B} (f : A → B) (p : t A) : t B :=
  match p with Ready a => Ready (f a) | Pending => Pending end.
End Poll.
