(* ===== verification/Time.v ===== *)
(** * Time: [core::time::Duration], [std::time::Instant] and [src/time.rs]

    Durations and instants are counted in nanoseconds.  [Instant] is the Unix
    representation of the standard library: signed 64-bit seconds plus
    nanoseconds, so [checked_add] fails above [Instant.MAX].  The clock and the
    sleeps themselves belong to the [TimeDriver] trait and are parameters; the
    provided methods of the trait ([sleep], [timeout], [timeout_at]) are
    modelled one poll at a time. *)

From S2P Require Export Prelude.

Module Duration.
Definition NANOS_PER_SEC : Z := 1000000000.
Definition NANOS_PER_MILLI : Z := 1000000.
Definition MAX : Z := (2 ^ 64 - 1) * NANOS_PER_SEC + 999999999.
Definition ZERO : Z := 0.
Definition from_secs (s : Z) : Z := s * NANOS_PER_SEC.
Definition from_millis (ms : Z) : Z := ms * NANOS_PER_MILLI.
Definition is_zero (d : Z) : bool := d =? 0.
Definition as_nanos (d : Z) : Z := d.
Definition as_millis (d : Z) : Z := d / NANOS_PER_MILLI.
Definition saturating_mul (d k : Z) : Z := Z.min MAX (d * k).
Definition range (d : Z) : Prop := 0 ≤ d ≤ MAX.
End Duration.

Module Instant.
Definition MAX : Z := (2 ^ 63 - 1) * Duration.NANOS_PER_SEC + 999999999.
Definition checked_add (i d : Z) : option Z :=
  if i + d <=? MAX then Some (i + d) else None.
Definition saturating_duration_since (later earlier : Z) : Z :=
  Z.max 0 (later - earlier).

Lemma checked_add_Some i d j :
  checked_add i d = Some j ↔ j = i + d ∧ i + d ≤ MAX.
Proof.
  unfold checked_add. destruct (Z.leb_spec (i + d) MAX).
  - split; [intros [= <-]; auto | intros [-> _]; done].
  - split; [done | intros [_ ?]; lia].
Qed.

Lemma checked_add_None i d : checked_add i d = None ↔ MAX < i + d.
Proof.
  unfold checked_add. destruct (Z.leb_spec (i + d) MAX); split; done || lia.
Qed.
End Instant.

#[global] Opaque Duration.MAX Instant.MAX.

Lemma duration_max_gt_u64 : u64_max < Duration.MAX.
Proof. vm_compute. done. Qed.

(** ** [trait TimeDriver]

    [sleep_until deadline now] is the poll of the driver's sleep future at the
    clock reading [now].  The law is the documented contract "waits until
    [deadline] according to the same clock". *)

Module TimeoutElapsed.
Inductive t : Set := TimeoutElapsed.
Definition fmt (_ : t) : string := "deadline elapsed".
End TimeoutElapsed.

Class TimeDriver : Type := {
  sleep_until : Z → Z → Poll.t unit;
}.


Class TimeDriverOk `{TimeDriver} : Prop := {
  sleep_until_ready deadline now :
    sleep_until deadline now = Poll.Ready tt ↔ deadline ≤ now;
}.

Section time_driver.
Context `{TimeDriver}.

(** The deadline is computed when the method is called, before the first
    poll; [None] means it is not representable and the wait never ends. *)
Definition sleep_deadline (called_at duration : Z) : option Z :=
  Instant.checked_add called_at duration.

Definition sleep_poll (deadline : option Z) (now : Z) : Poll.t unit :=
  match deadline with
  | Some deadline => sleep_until deadline now
  | None => Poll.Pending
  end.

Definition timeout_at_poll {A} (first_poll : bool) (deadline now : Z)
    (future : Poll.t A) : Poll.t (result A TimeoutElapsed.t) :=
  if first_poll && (deadline <=? now) then
    Poll.Ready (Err TimeoutElapsed.TimeoutElapsed)
  else
    match sleep_until deadline now with
    | Poll.Ready _ => Poll.Ready (Err TimeoutElapsed.TimeoutElapsed)
    | Poll.Pending =>
        match future with
        | Poll.Ready output => Poll.Ready (Ok output)
        | Poll.Pending => Poll.Pending
        end
    end.

Definition timeout_poll {A} (first_poll : bool) (deadline : option Z) (now : Z)
    (future : Poll.t A) : Poll.t (result A TimeoutElapsed.t) :=
  match deadline with
  | Some deadline => timeout_at_poll first_poll deadline now future
  | None => Poll.map Ok future
  end.

Context `{!TimeDriverOk}.

Lemma sleep_until_pending deadline now :
  now < deadline → sleep_until deadline now = Poll.Pending.
Proof.
  intros Hlt. destruct (sleep_until deadline now) as [[]|] eqn:E; [|done].
  apply sleep_until_ready in E. lia.
Qed.

(** The closed form of a bounded wait: the timeout wins from the deadline on,
    whatever the inner future says. *)
Lemma timeout_at_poll_eq {A} first deadline now (future : Poll.t A) :
  timeout_at_poll first deadline now future =
  if deadline <=? now then Poll.Ready (Err TimeoutElapsed.TimeoutElapsed)
  else Poll.map Ok future.
Proof.
  unfold timeout_at_poll. destruct (Z.leb_spec deadline now) as [Hle|Hlt].
  - apply sleep_until_ready in Hle. rewrite Hle. by destruct first.
  - rewrite andb_false_r, sleep_until_pending by done. by destruct future.
Qed.
End time_driver.

(** ** [TokioTimeDriver]

    What the driver calls in tokio: the instants its clock returns, read after read,
    the poll of its sleep at one of them, the polls of [task::yield_now], and the
    conversions between its instants and those of the standard library. *)

Record Tokio (I : Type) : Type := mkTokio {
  tk_now : nat → I;
  tk_sleep_until : I → I → Poll.t unit;
  tk_yield_now : nat → Poll.t unit;
  tk_into_std : I → Z;
  tk_from_std : Z → I;
}.
Arguments mkTokio {I}.
Arguments tk_now {I}.
Arguments tk_sleep_until {I}.
Arguments tk_yield_now {I}.
Arguments tk_into_std {I}.
Arguments tk_from_std {I}.

(** What is documented of them: the conversions are inverse to each other, and a
    sleep is over once tokio's clock reaches its deadline. *)
Record TokioOk {I} (tokio : Tokio I) : Prop := {
  tk_into_from deadline : tk_into_std tokio (tk_from_std tokio deadline) = deadline;
  tk_from_into now : tk_from_std tokio (tk_into_std tokio now) = now;
  tk_sleep_ready deadline now :
    tk_sleep_until tokio deadline now = Poll.Ready tt ↔
    tk_into_std tokio deadline ≤ tk_into_std tokio now;
}.

(** The zero-sized driver, and its three associated functions.  The reading at which
    a sleep is polled is given as [tokio_now] returns it. *)
Inductive TokioTimeDriver : Set := TokioTimeDriver_.

Section tokio.
Context {I : Type} (tokio : Tokio I).

Definition tokio_now (k : nat) : Z := tk_into_std tokio (tk_now tokio k).

Definition tokio_sleep_until (deadline now : Z) : Poll.t unit :=
  tk_sleep_until tokio (tk_from_std tokio deadline) (tk_from_std tokio now).

Definition tokio_yield_now (k : nat) : Poll.t unit := tk_yield_now tokio k.

Definition tokio_driver : TimeDriver := {| sleep_until := tokio_sleep_until |}.

(** Its sleeps keep the clock that [now] reads. *)
Lemma tokio_driver_ok : TokioOk tokio → TimeDriverOk (H := tokio_driver).
Proof.
  intros [Hif Hfi Hs]. split. intros deadline now. simpl. unfold tokio_sleep_until.
  rewrite Hs. by rewrite !Hif.
Qed.

Lemma tokio_sleep_over deadline k :
  TokioOk tokio →
  tk_sleep_until tokio (tk_from_std tokio deadline) (tk_now tokio k) = Poll.Ready tt ↔
  deadline ≤ tokio_now k.
Proof. intros [Hif Hfi Hs]. rewrite Hs. by rewrite Hif. Qed.
End tokio.
