(* ===== verification/Config.v ===== *)
(** * Config: [PolicyGateConfig] and its validating builder ([src/lib.rs])

    Durations are nanoseconds, capacities are [usize] values; both are [Z].
    [build] reads the process clock once; the reading is its argument [now]. *)

From S2P Require Export Time.

(** ** Defaults *)

Definition DEFAULT_UNARY_TIMEOUT : Z := Duration.from_secs 2.
Definition DEFAULT_ADMISSION_TIMEOUT : Z := Duration.from_secs 10.
Definition DEFAULT_INITIAL_ADMISSION_RETRY_DELAY : Z := Duration.from_millis 100.
Definition DEFAULT_MAX_ADMISSION_RETRY_DELAY : Z := Duration.from_secs 1.
Definition DEFAULT_PERMANENT_FAILURE_COOLDOWN : Z := Duration.from_secs 1.
Definition DEFAULT_SNAPSHOT_REPUBLISH_INTERVAL : Z := Duration.from_millis 10.
Definition DEFAULT_INITIAL_RECONNECT_DELAY : Z := Duration.from_millis 100.
Definition DEFAULT_MAX_RECONNECT_DELAY : Z := Duration.from_secs 5.
Definition DEFAULT_WATCH_EVENTS_PER_YIELD : Z := 64.
Definition DEFAULT_MAX_SUBJECTS : Z := 65536.
Definition DEFAULT_SUBJECT_TTL : Z := Duration.from_secs 3600.
Definition DEFAULT_DECISION_FRESHNESS_TTL : Z := Duration.MAX.
Definition DEFAULT_REFRESH_BEFORE_EXPIRY : Z := Duration.ZERO.
Definition DEFAULT_REFRESH_ENQUEUE_TIMEOUT : Z := Duration.from_millis 100.
Definition DEFAULT_REFRESH_QUEUE_CAPACITY : Z := 1024.

(** ** The configuration and its builder

    The accessors of [impl PolicyGateConfig] are the projections. *)

Record PolicyGateConfig : Type := mkConfig {
  unary_timeout : Z;
  admission_timeout : Z;
  initial_admission_retry_delay : Z;
  max_admission_retry_delay : Z;
  permanent_failure_cooldown : Z;
  snapshot_republish_interval : Z;
  initial_reconnect_delay : Z;
  max_reconnect_delay : Z;
  watch_events_per_yield : Z;
  max_subjects : Z;
  subject_ttl : Z;
  decision_freshness_ttl : Z;
  refresh_before_expiry : Z;
  refresh_enqueue_timeout : Z;
  refresh_queue_capacity : Z;
}.

Record PolicyGateConfigBuilder : Type := mkBuilder { candidate : PolicyGateConfig }.

Definition builder : PolicyGateConfigBuilder :=
  mkBuilder {|
    unary_timeout := DEFAULT_UNARY_TIMEOUT;
    admission_timeout := DEFAULT_ADMISSION_TIMEOUT;
    initial_admission_retry_delay := DEFAULT_INITIAL_ADMISSION_RETRY_DELAY;
    max_admission_retry_delay := DEFAULT_MAX_ADMISSION_RETRY_DELAY;
    permanent_failure_cooldown := DEFAULT_PERMANENT_FAILURE_COOLDOWN;
    snapshot_republish_interval := DEFAULT_SNAPSHOT_REPUBLISH_INTERVAL;
    initial_reconnect_delay := DEFAULT_INITIAL_RECONNECT_DELAY;
    max_reconnect_delay := DEFAULT_MAX_RECONNECT_DELAY;
    watch_events_per_yield := DEFAULT_WATCH_EVENTS_PER_YIELD;
    max_subjects := DEFAULT_MAX_SUBJECTS;
    subject_ttl := DEFAULT_SUBJECT_TTL;
    decision_freshness_ttl := DEFAULT_DECISION_FRESHNESS_TTL;
    refresh_before_expiry := DEFAULT_REFRESH_BEFORE_EXPIRY;
    refresh_enqueue_timeout := DEFAULT_REFRESH_ENQUEUE_TIMEOUT;
    refresh_queue_capacity := DEFAULT_REFRESH_QUEUE_CAPACITY
  |}.

(** Each setter replaces its own field of the candidate. *)
Module Builder.
Definition unary_timeout (v : Z) (b : PolicyGateConfigBuilder) : PolicyGateConfigBuilder :=
  let c := candidate b in
  mkBuilder (mkConfig v c.(Config.admission_timeout) c.(Config.initial_admission_retry_delay) 
    c.(Config.max_admission_retry_delay) c.(Config.permanent_failure_cooldown) 
    c.(Config.snapshot_republish_interval) c.(Config.initial_reconnect_delay) 
    c.(Config.max_reconnect_delay) c.(Config.watch_events_per_yield) 
    c.(Config.max_subjects) c.(Config.subject_ttl) c.(Config.decision_freshness_ttl) 
    c.(Config.refresh_before_expiry) c.(Config.refresh_enqueue_timeout) 
    c.(Config.refresh_queue_capacity)).

Definition admission_timeout (v : Z) (b : PolicyGateConfigBuilder) : PolicyGateConfigBuilder :=
  let c := candidate b in
  mkBuilder (mkConfig c.(Config.unary_timeout) v c.(Config.initial_admission_retry_delay) 
    c.(Config.max_admission_retry_delay) c.(Config.permanent_failure_cooldown) 
    c.(Config.snapshot_republish_interval) c.(Config.initial_reconnect_delay) 
    c.(Config.max_reconnect_delay) c.(Config.watch_events_per_yield) 
    c.(Config.max_subjects) c.(Config.subject_ttl) c.(Config.decision_freshness_ttl) 
    c.(Config.refresh_before_expiry) c.(Config.refresh_enqueue_timeout) 
    c.(Config.refresh_queue_capacity)).

Definition initial_admission_retry_delay (v : Z) (b : PolicyGateConfigBuilder) : PolicyGateConfigBuilder :=
  let c := candidate b in
  mkBuilder (mkConfig c.(Config.unary_timeout) c.(Config.admission_timeout) v 
    c.(Config.max_admission_retry_delay) c.(Config.permanent_failure_cooldown) 
    c.(Config.snapshot_republish_interval) c.(Config.initial_reconnect_delay) 
    c.(Config.max_reconnect_delay) c.(Config.watch_events_per_yield) 
    c.(Config.max_subjects) c.(Config.subject_ttl) c.(Config.decision_freshness_ttl) 
    c.(Config.refresh_before_expiry) c.(Config.refresh_enqueue_timeout) 
    c.(Config.refresh_queue_capacity)).

Definition max_admission_retry_delay (v : Z) (b : PolicyGateConfigBuilder) : PolicyGateConfigBuilder :=
  let c := candidate b in
  mkBuilder (mkConfig c.(Config.unary_timeout) c.(Config.admission_timeout) 
    c.(Config.initial_admission_retry_delay) v c.(Config.permanent_failure_cooldown) 
    c.(Config.snapshot_republish_interval) c.(Config.initial_reconnect_delay) 
    c.(Config.max_reconnect_delay) c.(Config.watch_events_per_yield) 
    c.(Config.max_subjects) c.(Config.subject_ttl) c.(Config.decision_freshness_ttl) 
    c.(Config.refresh_before_expiry) c.(Config.refresh_enqueue_timeout) 
    c.(Config.refresh_queue_capacity)).

Definition permanent_failure_cooldown (v : Z) (b : PolicyGateConfigBuilder) : PolicyGateConfigBuilder :=
  let c := candidate b in
  mkBuilder (mkConfig c.(Config.unary_timeout) c.(Config.admission_timeout) 
    c.(Config.initial_admission_retry_delay) c.(Config.max_admission_retry_delay) v 
    c.(Config.snapshot_republish_interval) c.(Config.initial_reconnect_delay) 
    c.(Config.max_reconnect_delay) c.(Config.watch_events_per_yield) 
    c.(Config.max_subjects) c.(Config.subject_ttl) c.(Config.decision_freshness_ttl) 
    c.(Config.refresh_before_expiry) c.(Config.refresh_enqueue_timeout) 
    c.(Config.refresh_queue_capacity)).

Definition snapshot_republish_interval (v : Z) (b : PolicyGateConfigBuilder) : PolicyGateConfigBuilder :=
  let c := candidate b in
  mkBuilder (mkConfig c.(Config.unary_timeout) c.(Config.admission_timeout) 
    c.(Config.initial_admission_retry_delay) c.(Config.max_admission_retry_delay) 
    c.(Config.permanent_failure_cooldown) v c.(Config.initial_reconnect_delay) 
    c.(Config.max_reconnect_delay) c.(Config.watch_events_per_yield) 
    c.(Config.max_subjects) c.(Config.subject_ttl) c.(Config.decision_freshness_ttl) 
    c.(Config.refresh_before_expiry) c.(Config.refresh_enqueue_timeout) 
    c.(Config.refresh_queue_capacity)).

Definition initial_reconnect_delay (v : Z) (b : PolicyGateConfigBuilder) : PolicyGateConfigBuilder :=
  let c := candidate b in
  mkBuilder (mkConfig c.(Config.unary_timeout) c.(Config.admission_timeout) 
    c.(Config.initial_admission_retry_delay) c.(Config.max_admission_retry_delay) 
    c.(Config.permanent_failure_cooldown) c.(Config.snapshot_republish_interval) v 
    c.(Config.max_reconnect_delay) c.(Config.watch_events_per_yield) 
    c.(Config.max_subjects) c.(Config.subject_ttl) c.(Config.decision_freshness_ttl) 
    c.(Config.refresh_before_expiry) c.(Config.refresh_enqueue_timeout) 
    c.(Config.refresh_queue_capacity)).

Definition max_reconnect_delay (v : Z) (b : PolicyGateConfigBuilder) : PolicyGateConfigBuilder :=
  let c := candidate b in
  mkBuilder (mkConfig c.(Config.unary_timeout) c.(Config.admission_timeout) 
    c.(Config.initial_admission_retry_delay) c.(Config.max_admission_retry_delay) 
    c.(Config.permanent_failure_cooldown) c.(Config.snapshot_republish_interval) 
    c.(Config.initial_reconnect_delay) v c.(Config.watch_events_per_yield) 
    c.(Config.max_subjects) c.(Config.subject_ttl) c.(Config.decision_freshness_ttl) 
    c.(Config.refresh_before_expiry) c.(Config.refresh_enqueue_timeout) 
    c.(Config.refresh_queue_capacity)).

Definition watch_events_per_yield (v : Z) (b : PolicyGateConfigBuilder) : PolicyGateConfigBuilder :=
  let c := candidate b in
  mkBuilder (mkConfig c.(Config.unary_timeout) c.(Config.admission_timeout) 
    c.(Config.initial_admission_retry_delay) c.(Config.max_admission_retry_delay) 
    c.(Config.permanent_failure_cooldown) c.(Config.snapshot_republish_interval) 
    c.(Config.initial_reconnect_delay) c.(Config.max_reconnect_delay) v 
    c.(Config.max_subjects) c.(Config.subject_ttl) c.(Config.decision_freshness_ttl) 
    c.(Config.refresh_before_expiry) c.(Config.refresh_enqueue_timeout) 
    c.(Config.refresh_queue_capacity)).

Definition max_subjects (v : Z) (b : PolicyGateConfigBuilder) : PolicyGateConfigBuilder :=
  let c := candidate b in
  mkBuilder (mkConfig c.(Config.unary_timeout) c.(Config.admission_timeout) 
    c.(Config.initial_admission_retry_delay) c.(Config.max_admission_retry_delay) 
    c.(Config.permanent_failure_cooldown) c.(Config.snapshot_republish_interval) 
    c.(Config.initial_reconnect_delay) c.(Config.max_reconnect_delay) 
    c.(Config.watch_events_per_yield) v c.(Config.subject_ttl) 
    c.(Config.decision_freshness_ttl) c.(Config.refresh_before_expiry) 
    c.(Config.refresh_enqueue_timeout) c.(Config.refresh_queue_capacity)).

Definition subject_ttl (v : Z) (b : PolicyGateConfigBuilder) : PolicyGateConfigBuilder :=
  let c := candidate b in
  mkBuilder (mkConfig c.(Config.unary_timeout) c.(Config.admission_timeout) 
    c.(Config.initial_admission_retry_delay) c.(Config.max_admission_retry_delay) 
    c.(Config.permanent_failure_cooldown) c.(Config.snapshot_republish_interval) 
    c.(Config.initial_reconnect_delay) c.(Config.max_reconnect_delay) 
    c.(Config.watch_events_per_yield) c.(Config.max_subjects) v 
    c.(Config.decision_freshness_ttl) c.(Config.refresh_before_expiry) 
    c.(Config.refresh_enqueue_timeout) c.(Config.refresh_queue_capacity)).

Definition decision_freshness_ttl (v : Z) (b : PolicyGateConfigBuilder) : PolicyGateConfigBuilder :=
  let c := candidate b in
  mkBuilder (mkConfig c.(Config.unary_timeout) c.(Config.admission_timeout) 
    c.(Config.initial_admission_retry_delay) c.(Config.max_admission_retry_delay) 
    c.(Config.permanent_failure_cooldown) c.(Config.snapshot_republish_interval) 
    c.(Config.initial_reconnect_delay) c.(Config.max_reconnect_delay) 
    c.(Config.watch_events_per_yield) c.(Config.max_subjects) c.(Config.subject_ttl) v 
    c.(Config.refresh_before_expiry) c.(Config.refresh_enqueue_timeout) 
    c.(Config.refresh_queue_capacity)).

Definition refresh_before_expiry (v : Z) (b : PolicyGateConfigBuilder) : PolicyGateConfigBuilder :=
  let c := candidate b in
  mkBuilder (mkConfig c.(Config.unary_timeout) c.(Config.admission_timeout) 
    c.(Config.initial_admission_retry_delay) c.(Config.max_admission_retry_delay) 
    c.(Config.permanent_failure_cooldown) c.(Config.snapshot_republish_interval) 
    c.(Config.initial_reconnect_delay) c.(Config.max_reconnect_delay) 
    c.(Config.watch_events_per_yield) c.(Config.max_subjects) c.(Config.subject_ttl) 
    c.(Config.decision_freshness_ttl) v c.(Config.refresh_enqueue_timeout) 
    c.(Config.refresh_queue_capacity)).

Definition refresh_enqueue_timeout (v : Z) (b : PolicyGateConfigBuilder) : PolicyGateConfigBuilder :=
  let c := candidate b in
  mkBuilder (mkConfig c.(Config.unary_timeout) c.(Config.admission_timeout) 
    c.(Config.initial_admission_retry_delay) c.(Config.max_admission_retry_delay) 
    c.(Config.permanent_failure_cooldown) c.(Config.snapshot_republish_interval) 
    c.(Config.initial_reconnect_delay) c.(Config.max_reconnect_delay) 
    c.(Config.watch_events_per_yield) c.(Config.max_subjects) c.(Config.subject_ttl) 
    c.(Config.decision_freshness_ttl) c.(Config.refresh_before_expiry) v 
    c.(Config.refresh_queue_capacity)).

Definition refresh_queue_capacity (v : Z) (b : PolicyGateConfigBuilder) : PolicyGateConfigBuilder :=
  let c := candidate b in
  mkBuilder (mkConfig c.(Config.unary_timeout) c.(Config.admission_timeout) 
    c.(Config.initial_admission_retry_delay) c.(Config.max_admission_retry_delay) 
    c.(Config.permanent_failure_cooldown) c.(Config.snapshot_republish_interval) 
    c.(Config.initial_reconnect_delay) c.(Config.max_reconnect_delay) 
    c.(Config.watch_events_per_yield) c.(Config.max_subjects) c.(Config.subject_ttl) 
    c.(Config.decision_freshness_ttl) c.(Config.refresh_before_expiry) 
    c.(Config.refresh_enqueue_timeout) v).

End Builder.

(** ** [ConfigError] *)

Module ConfigError.
Inductive t : Type :=
| UnaryExceedsAdmission
| InitialAdmissionRetryDelayZero
| InitialRetryExceedsMaximum
| InitialReconnectDelayZero
| InitialReconnectExceedsMaximum
| WatchEventsPerYieldZero
| AdmissionDeadlineOverflow
| DurationOverflow (name : string)
| MaxSubjectsZero
| RefreshQueueCapacityZero
| RefreshEnqueueTimeoutZero
| DecisionFreshnessTtlZero
| RefreshRequiresFiniteDecisionFreshnessTtl
| RefreshWindowNotLessThanDecisionFreshnessTtl.

Definition fmt (e : t) : string :=
  match e with
  | UnaryExceedsAdmission => "unary timeout must not exceed admission timeout"
  | InitialAdmissionRetryDelayZero =>
      "initial admission retry delay must be greater than zero"
  | InitialRetryExceedsMaximum =>
      "initial admission retry delay must not exceed its maximum"
  | InitialReconnectDelayZero => "initial reconnect delay must be greater than zero"
  | InitialReconnectExceedsMaximum =>
      "initial reconnect delay must not exceed its maximum"
  | WatchEventsPerYieldZero => "watch events per yield must be greater than zero"
  | AdmissionDeadlineOverflow =>
      "admission timeout is too large to represent as an Instant deadline"
  | DurationOverflow name =>
      name +:+ " is too large to represent as an Instant deadline"
  | MaxSubjectsZero => "maximum subject count must be greater than zero"
  | RefreshQueueCapacityZero => "refresh queue capacity must be greater than zero"
  | RefreshEnqueueTimeoutZero => "refresh enqueue timeout must be greater than zero"
  | DecisionFreshnessTtlZero => "decision freshness TTL must be greater than zero"
  | RefreshRequiresFiniteDecisionFreshnessTtl =>
      "decision refresh requires a finite decision freshness TTL"
  | RefreshWindowNotLessThanDecisionFreshnessTtl =>
      "decision refresh window must be less than decision freshness TTL"
  end.
End ConfigError.

(** ** [PolicyGateConfigBuilder::build]

    The array the source loops over, and the loop: the first duration that does
    not fit an [Instant] deadline is reported by its name. *)

Definition named_durations (c : PolicyGateConfig) : list (string * Z) :=
  [("initial admission retry delay", c.(initial_admission_retry_delay));
   ("maximum admission retry delay", c.(max_admission_retry_delay));
   ("permanent failure cooldown", c.(permanent_failure_cooldown));
   ("snapshot republish interval", c.(snapshot_republish_interval));
   ("initial reconnect delay", c.(initial_reconnect_delay));
   ("maximum reconnect delay", c.(max_reconnect_delay));
   ("refresh enqueue timeout", c.(refresh_enqueue_timeout))].

Definition overflows (now d : Z) : bool :=
  match Instant.checked_add now d with Some _ => false | None => true end.

Fixpoint first_overflow (now : Z) (l : list (string * Z)) : option string :=
  match l with
  | [] => None
  | (name, d) :: l => if overflows now d then Some name else first_overflow now l
  end.

Definition build (now : Z) (b : PolicyGateConfigBuilder) :
    result PolicyGateConfig ConfigError.t :=
  let c := candidate b in
  if c.(admission_timeout) <? c.(unary_timeout) then
    Err ConfigError.UnaryExceedsAdmission
  else if Duration.is_zero c.(initial_admission_retry_delay) then
    Err ConfigError.InitialAdmissionRetryDelayZero
  else if c.(max_admission_retry_delay) <? c.(initial_admission_retry_delay) then
    Err ConfigError.InitialRetryExceedsMaximum
  else if Duration.is_zero c.(initial_reconnect_delay) then
    Err ConfigError.InitialReconnectDelayZero
  else if c.(max_reconnect_delay) <? c.(initial_reconnect_delay) then
    Err ConfigError.InitialReconnectExceedsMaximum
  else if c.(watch_events_per_yield) =? 0 then
    Err ConfigError.WatchEventsPerYieldZero
  else if overflows now c.(admission_timeout) then
    Err ConfigError.AdmissionDeadlineOverflow
  else
    match first_overflow now (named_durations c) with
    | Some name => Err (ConfigError.DurationOverflow name)
    | None =>
        if c.(max_subjects) =? 0 then Err ConfigError.MaxSubjectsZero
        else if c.(refresh_queue_capacity) =? 0 then
          Err ConfigError.RefreshQueueCapacityZero
        else if Duration.is_zero c.(refresh_enqueue_timeout) then
          Err ConfigError.RefreshEnqueueTimeoutZero
        else if Duration.is_zero c.(decision_freshness_ttl) then
          Err ConfigError.DecisionFreshnessTtlZero
        else if negb (Duration.is_zero c.(refresh_before_expiry))
                && (c.(decision_freshness_ttl) =? Duration.MAX) then
          Err ConfigError.RefreshRequiresFiniteDecisionFreshnessTtl
        else if c.(decision_freshness_ttl) <=? c.(refresh_before_expiry) then
          Err ConfigError.RefreshWindowNotLessThanDecisionFreshnessTtl
        else if negb (c.(decision_freshness_ttl) =? DEFAULT_DECISION_FRESHNESS_TTL)
                && overflows now c.(decision_freshness_ttl) then
          Err (ConfigError.DurationOverflow "decision freshness TTL")
        else Ok c
    end.

(** ** What a configuration promises to the runtime *)

(** Values that the Rust types can hold. *)
Definition config_typed (c : PolicyGateConfig) : Prop :=
  Forall Duration.range
    [c.(unary_timeout); c.(admission_timeout); c.(initial_admission_retry_delay);
     c.(max_admission_retry_delay); c.(permanent_failure_cooldown);
     c.(snapshot_republish_interval); c.(initial_reconnect_delay);
     c.(max_reconnect_delay); c.(subject_ttl); c.(decision_freshness_ttl);
     c.(refresh_before_expiry); c.(refresh_enqueue_timeout)] ∧
  Forall u64_range
    [c.(watch_events_per_yield); c.(max_subjects); c.(refresh_queue_capacity)].

(** The cross-field rules, stated independently of the order of the checks and of the
    array that [build] loops over: every duration that the runtime adds to a clock
    reading is listed. *)
Record config_valid (now : Z) (c : PolicyGateConfig) : Prop := {
  cv_unary : c.(unary_timeout) ≤ c.(admission_timeout);
  cv_retry : 0 < c.(initial_admission_retry_delay) ≤ c.(max_admission_retry_delay);
  cv_reconnect : 0 < c.(initial_reconnect_delay) ≤ c.(max_reconnect_delay);
  cv_yield : 0 < c.(watch_events_per_yield);
  cv_admission : now + c.(admission_timeout) ≤ Instant.MAX;
  cv_durations : Forall (λ d, now + d ≤ Instant.MAX)
    [c.(initial_admission_retry_delay); c.(max_admission_retry_delay);
     c.(permanent_failure_cooldown); c.(snapshot_republish_interval);
     c.(initial_reconnect_delay); c.(max_reconnect_delay); c.(refresh_enqueue_timeout)];
  cv_subjects : 0 < c.(max_subjects);
  cv_queue : 0 < c.(refresh_queue_capacity);
  cv_enqueue : 0 < c.(refresh_enqueue_timeout);
  cv_ttl : 0 < c.(decision_freshness_ttl);
  cv_window : c.(refresh_before_expiry) < c.(decision_freshness_ttl);
  cv_finite : c.(decision_freshness_ttl) = Duration.MAX →
              c.(refresh_before_expiry) = 0;
  cv_freshness : c.(decision_freshness_ttl) ≠ Duration.MAX →
                 now + c.(decision_freshness_ttl) ≤ Instant.MAX;
}.

(** What each reported error says about the candidate. *)
Definition violates (now : Z) (c : PolicyGateConfig) (e : ConfigError.t) : Prop :=
  match e with
  | ConfigError.UnaryExceedsAdmission => c.(admission_timeout) < c.(unary_timeout)
  | ConfigError.InitialAdmissionRetryDelayZero => c.(initial_admission_retry_delay) = 0
  | ConfigError.InitialRetryExceedsMaximum =>
      c.(max_admission_retry_delay) < c.(initial_admission_retry_delay)
  | ConfigError.InitialReconnectDelayZero => c.(initial_reconnect_delay) = 0
  | ConfigError.InitialReconnectExceedsMaximum =>
      c.(max_reconnect_delay) < c.(initial_reconnect_delay)
  | ConfigError.WatchEventsPerYieldZero => c.(watch_events_per_yield) = 0
  | ConfigError.AdmissionDeadlineOverflow => Instant.MAX < now + c.(admission_timeout)
  | ConfigError.DurationOverflow name =>
      ∃ d, Instant.MAX < now + d ∧
        ((name, d) ∈
           [("initial admission retry delay", c.(initial_admission_retry_delay));
            ("maximum admission retry delay", c.(max_admission_retry_delay));
            ("permanent failure cooldown", c.(permanent_failure_cooldown));
            ("snapshot republish interval", c.(snapshot_republish_interval));
            ("initial reconnect delay", c.(initial_reconnect_delay));
            ("maximum reconnect delay", c.(max_reconnect_delay));
            ("refresh enqueue timeout", c.(refresh_enqueue_timeout))] ∨
         name = "decision freshness TTL" ∧ d = c.(decision_freshness_ttl) ∧
         d ≠ Duration.MAX)
  | ConfigError.MaxSubjectsZero => c.(max_subjects) = 0
  | ConfigError.RefreshQueueCapacityZero => c.(refresh_queue_capacity) = 0
  | ConfigError.RefreshEnqueueTimeoutZero => c.(refresh_enqueue_timeout) = 0
  | ConfigError.DecisionFreshnessTtlZero => c.(decision_freshness_ttl) = 0
  | ConfigError.RefreshRequiresFiniteDecisionFreshnessTtl =>
      c.(refresh_before_expiry) ≠ 0 ∧ c.(decision_freshness_ttl) = Duration.MAX
  | ConfigError.RefreshWindowNotLessThanDecisionFreshnessTtl =>
      c.(decision_freshness_ttl) ≤ c.(refresh_before_expiry)
  end.

(** ** Facts *)

Section facts.
Implicit Types (c : PolicyGateConfig) (now d : Z).

Lemma overflows_true now d : overflows now d = true ↔ Instant.MAX < now + d.
Proof.
  unfold overflows. rewrite <-Instant.checked_add_None.
  by destruct (Instant.checked_add now d).
Qed.

Lemma overflows_false now d : overflows now d = false ↔ now + d ≤ Instant.MAX.
Proof.
  rewrite <-not_true_iff_false, overflows_true. lia.
Qed.

Lemma first_overflow_None now l :
  first_overflow now l = None ↔ Forall (λ d, now + d ≤ Instant.MAX) l.*2.
Proof.
  induction l as [|[name d] l IH]; simpl; [by split|].
  rewrite Forall_cons, <-IH. simpl. rewrite <-overflows_false.
  destruct (overflows now d); [by split; [|intros []]|tauto].
Qed.

Lemma first_overflow_Some now l name :
  first_overflow now l = Some name →
  ∃ d, (name, d) ∈ l ∧ Instant.MAX < now + d.
Proof.
  induction l as [|[name' d] l IH]; simpl; [done|].
  destruct (overflows now d) eqn:E.
  - intros [= <-]. exists d. split; [left|by apply overflows_true].
  - intros (d' & Hin & Hd)%IH. exists d'. split; [by right|done].
Qed.

Lemma is_zero_true d : Duration.is_zero d = true ↔ d = 0.
Proof. apply Z.eqb_eq. Qed.

Lemma is_zero_false d : Duration.is_zero d = false ↔ d ≠ 0.
Proof. apply Z.eqb_neq. Qed.
End facts.

Create Rewrite HintDb config.
#[export] Hint Rewrite Z.ltb_lt Z.ltb_ge Z.leb_le Z.leb_gt Z.eqb_eq Z.eqb_neq
  is_zero_true is_zero_false overflows_true overflows_false first_overflow_None
  andb_true_iff andb_false_iff negb_true_iff negb_false_iff : config.

(** Splits [build] along its early returns, keeping every test as a fact. *)
Ltac split_checks :=
  let test b := (let E := fresh "Hcheck" in destruct b eqn:E) in
  let array n l := (let E := fresh "Hover" in destruct (first_overflow n l) eqn:E) in
  repeat lazymatch goal with
    | |- (if ?b then _ else _) = _ → _ => test b
    | |- (if ?b then _ else _) = _ => test b
    | |- (match first_overflow ?n ?l with _ => _ end) = _ → _ => array n l
    | |- (match first_overflow ?n ?l with _ => _ end) = _ => array n l
    end.

Lemma typed_nonneg c :
  config_typed c →
  0 ≤ c.(initial_admission_retry_delay) ∧ 0 ≤ c.(initial_reconnect_delay) ∧
  0 ≤ c.(watch_events_per_yield) ∧ 0 ≤ c.(max_subjects) ∧
  0 ≤ c.(refresh_queue_capacity) ∧ 0 ≤ c.(refresh_enqueue_timeout) ∧
  0 ≤ c.(decision_freshness_ttl) ∧ 0 ≤ c.(refresh_before_expiry).
Proof.
  intros [Hd Hn]. repeat (apply Forall_cons in Hd as [[? ?] Hd]).
  repeat (apply Forall_cons in Hn as [[? ?] Hn]). repeat split; done.
Qed.

Lemma build_valid now b c :
  config_typed (candidate b) → build now b = Ok c →
  c = candidate b ∧ config_valid now c.
Proof.
  intros Ht. pose proof (typed_nonneg _ Ht). unfold build. split_checks; try done.
  all: intros [= <-]; split; [done|].
  all: autorewrite with config in *; constructor; try lia; try done.
  all: unfold DEFAULT_DECISION_FRESHNESS_TTL in *; intuition lia.
Qed.

Lemma build_complete now b :
  config_valid now (candidate b) → build now b = Ok (candidate b).
Proof.
  intros []. unfold build. split_checks; try done; exfalso.
  all: apply (first_overflow_None _ (named_durations _)) in cv_durations0; try congruence.
  all: autorewrite with config in *; unfold DEFAULT_DECISION_FRESHNESS_TTL in *.
  all: intuition lia.
Qed.

(** "The default configuration is valid", unless the clock nears the end of time. *)
Lemma default_valid now :
  now + DEFAULT_ADMISSION_TIMEOUT ≤ Instant.MAX → config_valid now (candidate builder).
Proof.
  intros Hnow.
  assert (Hle : ∀ d, bool_decide (d ≤ DEFAULT_ADMISSION_TIMEOUT) = true → now + d ≤ Instant.MAX).
  { intros d Hd%bool_decide_eq_true. lia. }
  split.
  5: by apply Hle.
  5: repeat constructor; apply Hle; reflexivity.
  all: try (apply (bool_decide_eq_true _); reflexivity).
  all: try (split; apply (bool_decide_eq_true _); reflexivity).
  all: by try intros [].
Qed.

(** C40. [build] accepts exactly the candidates that satisfy every cross-field
    rule the runtime relies on, and returns them unchanged. *)
Theorem build_ok_iff now b c :
  config_typed (candidate b) →
  build now b = Ok c ↔ c = candidate b ∧ config_valid now c.
Proof.
  intros Ht. split; [by apply build_valid|]. intros [-> Hv]. by apply build_complete.
Qed.

(** Every error [build] reports names a rule the candidate really violates. *)
Theorem build_error_sound now b e :
  build now b = Err e → violates now (candidate b) e.
Proof.
  unfold build. split_checks; try done; intros [= <-]; simpl.
  all: autorewrite with config in *; try done.
  - apply first_overflow_Some in Hover as (d & Hin & Hd). eauto.
  - match goal with H : _ ∧ Instant.MAX < _ |- _ => destruct H as [Hfin Hov] end.
    exists (candidate b).(decision_freshness_ttl).
    split; [exact Hov|]. right. by repeat split.
Qed.

(** The default candidate, and a clock reading (ten days of uptime). *)
Definition uptime_sample : Z := Duration.from_secs 864000.

Lemma default_typed : config_typed (candidate builder).
Proof.
  split; repeat constructor; vm_compute; discriminate.
Qed.

Lemma build_ok_iff_witness :
  config_typed (candidate builder) ∧
  (build uptime_sample builder = Ok (candidate builder) ↔
   candidate builder = candidate builder ∧
   config_valid uptime_sample (candidate builder)).
Proof.
  split; [exact default_typed|].
  apply (build_ok_iff uptime_sample builder (candidate builder)). exact default_typed.
Defined.

Definition bad_builder : PolicyGateConfigBuilder :=
  Builder.max_reconnect_delay Duration.MAX builder.

Lemma build_error_sound_witness :
  build uptime_sample bad_builder =
    Err (ConfigError.DurationOverflow "maximum reconnect delay") ∧
  violates uptime_sample (candidate bad_builder)
    (ConfigError.DurationOverflow "maximum reconnect delay").
Proof.
  split; [vm_compute; reflexivity|].
  apply (build_error_sound uptime_sample bad_builder). vm_compute. reflexivity.
Defined.
