(* ===== verification/Source.v ===== *)
(** * Source: decisions, changes and failures of a decision source

    The data exchanged with a [DecisionSource] ([src/lib.rs], [src/gate.rs]).
    The source itself is a trait implemented by the caller: its answers are
    arguments of the definitions that use them. *)

From S2P Require Export Time.

Module Decision.
Inductive t : Set := Allowed | Denied.
#[global] Instance eq_dec : EqDecision t.
Proof. solve_decision. Defined.
End Decision.

(** [P] is the application payload. *)
Record DecisionResult (P : Type) : Type := mkDecisionResult {
  decision : Decision.t;
  payload : option P;
  valid_until : option Z;
}.
Arguments mkDecisionResult {P}.
Arguments decision {P}.
Arguments payload {P}.
Arguments valid_until {P}.

Record DecisionChange (T : Type) : Type := mkDecisionChange {
  change_subject : T;
  change_decision : option Decision.t;
}.
Arguments mkDecisionChange {T}.
Arguments change_subject {T}.
Arguments change_decision {T}.

Module DecisionSourceErrorKind.
Inductive t : Set := Transient | Permanent | Wire.
#[global] Instance eq_dec : EqDecision t.
Proof. solve_decision. Defined.
End DecisionSourceErrorKind.

Record DecisionSourceError : Type := mkSourceError {
  kind : DecisionSourceErrorKind.t;
  message : string;
}.

(** [Display]. *)
Definition source_error_fmt (error : DecisionSourceError) : string := message error.

Definition is_permanent_status (error : DecisionSourceError) : bool :=
  match kind error with
  | DecisionSourceErrorKind.Permanent | DecisionSourceErrorKind.Wire => true
  | DecisionSourceErrorKind.Transient => false
  end.

Definition is_wire (error : DecisionSourceError) : bool :=
  bool_decide (kind error = DecisionSourceErrorKind.Wire).

(** The default [DecisionSource::get_subject_decision_result]: a binary answer
    carries neither payload nor validity cap. *)
Definition get_subject_decision_result {P}
    (answer : result (option Decision.t) DecisionSourceError) :
    result (option (DecisionResult P)) DecisionSourceError :=
  result_map (option_map (λ d, mkDecisionResult d None None)) answer.

(** What one lookup in flight can look like to the gate when it is polled. *)
Module Answer.
Inductive t (P : Type) : Type :=
| Ready (r : result (option (DecisionResult P)) DecisionSourceError)
| Panicked
| Waiting.
Arguments Ready {P}.
Arguments Panicked {P}.
Arguments Waiting {P}.
End Answer.
