(* ===== verification/Tonic.v ===== *)
(** * Tonic: the gRPC decision source ([src/tonic_source.rs], [src/policy_proto.rs])

    What the adapter does with the messages of the policy authority.  The
    generated messages are records; [tonic::Status] and the client stub are
    parameters, as are the [Display] and [FromStr] of the subject type. *)

From S2P Require Export Source.

(** ** Messages ([policy_proto]) *)

Module Proto.
Record GetSubjectDecisionRequest : Type := mkRequest {
  req_subject_id : string;
  req_scope : string;
}.

Record GetSubjectDecisionResponse : Type := mkResponse {
  rsp_decision : Z;
  rsp_scope : string;
  rsp_payload : string;
}.

Record SubjectDecisionChange : Type := mkChange {
  chg_subject_id : string;
  chg_decision : Z;
  chg_scope : string;
}.

(** The enum with its [i32] values. *)
Inductive Decision : Set := Unspecified | Allowed | Denied.

Definition to_i32 (d : Decision) : Z :=
  match d with Unspecified => 0 | Allowed => 1 | Denied => 2 end.

(** [TryFrom<i32>], as [#[repr(i32)]] and the values above determine it. *)
Definition try_from (n : Z) : option Decision :=
  match n with 0 => Some Unspecified | 1 => Some Allowed | 2 => Some Denied | _ => None end.
End Proto.

(** The codes [source_error] names; [Other] is any other code. *)
Module Code.
Inductive t : Type :=
| NotFound | InvalidArgument | PermissionDenied | Unauthenticated | Unimplemented | DataLoss
| Other (code : Z).
End Code.

Class TonicStatus : Type := {
  Status : Type;
  status_code : Status → Code.t;
  status_to_string : Status → string;
}.

(** ** Configuration *)

Record TonicDecisionSourceConfig : Type := mkTonicConfig {
  endpoint : string;
  scope : string;
  connect_timeout : Z;
}.

Definition tonic_config_new (endpoint_ scope_ : string) : TonicDecisionSourceConfig :=
  mkTonicConfig endpoint_ scope_ (Duration.from_secs 2).

Definition with_connect_timeout (timeout : Z) (c : TonicDecisionSourceConfig) :
    TonicDecisionSourceConfig :=
  mkTonicConfig (endpoint c) (scope c) timeout.

Definition config_error_fmt (e : string) : string :=
  "invalid policy authority endpoint: " +:+ e.

(** ** Decoding *)

Definition wire (msg : string) : DecisionSourceError :=
  mkSourceError DecisionSourceErrorKind.Wire msg.

Definition validate_scope_echo (expected actual : string) : result unit DecisionSourceError :=
  if bool_decide (actual = expected) then Ok tt
  else Err (wire "decision source returned a mismatched scope").

Definition decode_decision (state : Z) : result (option Decision.t) DecisionSourceError :=
  match Proto.try_from state with
  | Some Proto.Unspecified => Ok None
  | Some Proto.Allowed => Ok (Some Decision.Allowed)
  | Some Proto.Denied => Ok (Some Decision.Denied)
  | None => Err (wire "decision source returned an unknown decision")
  end.

Definition decode_response (response : Proto.GetSubjectDecisionResponse) (scope_ : string) :
    result (option Decision.t) DecisionSourceError :=
  _ ←? validate_scope_echo scope_ (Proto.rsp_scope response);
  decode_decision (Proto.rsp_decision response).

(** [!payload.is_empty()]. *)
Definition payload_of (response : Proto.GetSubjectDecisionResponse) : option string :=
  if bool_decide (Proto.rsp_payload response = EmptyString) then None
  else Some (Proto.rsp_payload response).

Section tonic.
Context {T : Type} (to_string : T → string) (parse : string → option T) `{TonicStatus}.

Definition decode_change (change : Proto.SubjectDecisionChange) (scope_ : string) :
    result (DecisionChange T) DecisionSourceError :=
  _ ←? validate_scope_echo scope_ (Proto.chg_scope change);
  subject ←? match parse (Proto.chg_subject_id change) with
            | Some subject => Ok subject
            | None => Err (wire "decision source returned an invalid subject identifier")
            end;
  d ←? decode_decision (Proto.chg_decision change);
  Ok (mkDecisionChange subject d).

Definition source_error (status : Status) : DecisionSourceError :=
  mkSourceError
    match status_code status with
    | Code.NotFound | Code.InvalidArgument | Code.PermissionDenied | Code.Unauthenticated
    | Code.Unimplemented | Code.DataLoss => DecisionSourceErrorKind.Permanent
    | Code.Other _ => DecisionSourceErrorKind.Transient
    end
    (status_to_string status).

(** ** Calls

    [client] is the answer of the stub to one request. *)

Definition subject_request (scope_ subject_id : string) : Proto.GetSubjectDecisionRequest :=
  Proto.mkRequest subject_id scope_.

Definition get_subject_decision
    (client : Proto.GetSubjectDecisionRequest → result Proto.GetSubjectDecisionResponse Status)
    (scope_ : string) (subject : T) : result (option Decision.t) DecisionSourceError :=
  response ←? result_map_err source_error (client (subject_request scope_ (to_string subject)));
  decode_response response scope_.

(** [S: Display + ?Sized]: the subject is given as its rendering. *)
Definition get_subject_decision_with_payload
    (client : Proto.GetSubjectDecisionRequest → result Proto.GetSubjectDecisionResponse Status)
    (scope_ subject_id : string) :
    result (option (DecisionResult string)) DecisionSourceError :=
  response ←? result_map_err source_error (client (subject_request scope_ subject_id));
  d ←? decode_response response scope_;
  Ok (option_map (λ d, mkDecisionResult d (payload_of response) None) d).

(** [TonicDecisionStream::poll_next] over one poll of the gRPC stream. *)
Definition change_stream_poll (scope_ : string)
    (inner : Poll.t (option (result Proto.SubjectDecisionChange Status))) :
    Poll.t (option (result (DecisionChange T) DecisionSourceError)) :=
  Poll.map (option_map (λ r,
    change ←? result_map_err source_error r;
    decode_change change scope_)) inner.

(** [TonicDecisionStream]: the gRPC stream and the scope its changes must echo. *)
Record TonicDecisionStream (S : Type) : Type := mkStream {
  stream_inner : S;
  stream_scope : string;
}.
#[global] Arguments mkStream {S}.
#[global] Arguments stream_inner {S}.
#[global] Arguments stream_scope {S}.

Definition watch_subject_decisions {S : Type} (client : string → result S Status)
    (scope_ : string) : result (TonicDecisionStream S) DecisionSourceError :=
  inner ←? result_map_err source_error (client scope_);
  Ok (mkStream inner scope_).

(** [Stream::poll_next]; the gRPC stream is advanced in place. *)
Definition poll_next {S : Type}
    (inner_poll : S → Poll.t (option (result Proto.SubjectDecisionChange Status)) * S)
    (this : TonicDecisionStream S) :
    Poll.t (option (result (DecisionChange T) DecisionSourceError)) * TonicDecisionStream S :=
  let '(r, inner) := inner_poll (stream_inner this) in
  (change_stream_poll (stream_scope this) r, mkStream inner (stream_scope this)).

(** ** What is accepted and how failures are classified *)

(** What an authority sends for a decision. *)
Definition encode_decision (d : option Decision.t) : Z :=
  Proto.to_i32 match d with
               | None => Proto.Unspecified
               | Some Decision.Allowed => Proto.Allowed
               | Some Decision.Denied => Proto.Denied
               end.

Lemma try_from_to_i32 n d : Proto.try_from n = Some d ↔ n = Proto.to_i32 d.
Proof.
  split; [|intros ->; by destruct d]. unfold Proto.try_from.
  destruct n as [|[p|[p|p|]|]|p]; intros [= <-]; done.
Qed.

Lemma decode_decision_ok n d : decode_decision n = Ok d ↔ n = encode_decision d.
Proof.
  unfold decode_decision, encode_decision. split.
  - destruct (Proto.try_from n) as [[]|] eqn:E; intros [= <-]; by apply try_from_to_i32 in E.
  - intros ->. by destruct d as [[]|].
Qed.

Lemma decode_decision_wire n e : decode_decision n = Err e → kind e = DecisionSourceErrorKind.Wire.
Proof. unfold decode_decision. by destruct (Proto.try_from n) as [[]|]; intros [= <-]. Qed.

Lemma scope_ok expected actual : validate_scope_echo expected actual = Ok tt ↔ actual = expected.
Proof. unfold validate_scope_echo. by case_bool_decide. Qed.

Lemma scope_wire expected actual e :
  validate_scope_echo expected actual = Err e → kind e = DecisionSourceErrorKind.Wire.
Proof. unfold validate_scope_echo. case_bool_decide; [done|]. by intros [= <-]. Qed.

(** A response is accepted exactly when it echoes the scope and carries a
    known decision; what is not accepted is reported as a wire failure. *)
Theorem response_accepted_iff response scope_ :
  (∀ d, decode_response response scope_ = Ok d ↔
     Proto.rsp_scope response = scope_ ∧ Proto.rsp_decision response = encode_decision d) ∧
  (∀ e, decode_response response scope_ = Err e → kind e = DecisionSourceErrorKind.Wire).
Proof.
  split.
  - intros d. unfold decode_response. rewrite and_then_ok. split.
    + intros ([] & Hs & Hd). by apply scope_ok in Hs; apply decode_decision_ok in Hd.
    + intros [Hs Hd]. exists tt. by rewrite scope_ok, decode_decision_ok.
  - intros e [He|(? & _ & He)]%and_then_err; [by eapply scope_wire|by eapply decode_decision_wire].
Qed.

(** C38. A change of the watch is accepted exactly when it echoes the scope, names a
    subject that parses and carries a known decision, and it is then that subject
    with that decision; anything else is a wire failure.  A change the authority
    renders faithfully is read back unchanged. *)
Theorem change_accepted_iff change scope_ :
  (∀ c, decode_change change scope_ = Ok c ↔
     Proto.chg_scope change = scope_ ∧ parse (Proto.chg_subject_id change) = Some (change_subject c) ∧
     Proto.chg_decision change = encode_decision (change_decision c)) ∧
  (∀ e, decode_change change scope_ = Err e → kind e = DecisionSourceErrorKind.Wire) ∧
  (∀ s d, parse (to_string s) = Some s →
     decode_change (Proto.mkChange (to_string s) (encode_decision d) scope_) scope_ =
       Ok (mkDecisionChange s d)).
Proof.
  assert (Hok : ∀ change c, decode_change change scope_ = Ok c ↔
    Proto.chg_scope change = scope_ ∧ parse (Proto.chg_subject_id change) = Some (change_subject c) ∧
    Proto.chg_decision change = encode_decision (change_decision c)).
  { intros ch c. unfold decode_change. rewrite and_then_ok. split.
    - intros ([] & Hs & (s & Hp & (d & Hd & [= <-])%and_then_ok)%and_then_ok).
      apply scope_ok in Hs. apply decode_decision_ok in Hd.
      destruct (parse _); [|done]. by injection Hp as ->.
    - intros (Hs & Hp & Hd). exists tt. rewrite scope_ok. split; [done|].
      rewrite Hp. simpl. apply decode_decision_ok in Hd. rewrite Hd. by destruct c. }
  split_and!; [done| |].
  - intros e [He|(? & _ & [He|(? & _ & [He|(? & _ & [=])]%and_then_err)]%and_then_err)]%and_then_err.
    + by eapply scope_wire.
    + destruct (parse _); [done|]. by injection He as <-.
    + by eapply decode_decision_wire.
  - intros s d Hp. by apply Hok.
Qed.

(** The two unary calls agree: with the same answer from the authority they
    report the same decision or the same error, the payload is the non-empty
    string of the response, and no validity cap is ever set. *)
Theorem payload_call_agrees client scope_ subject :
  match get_subject_decision client scope_ subject,
        get_subject_decision_with_payload client scope_ (to_string subject) with
  | Ok d, Ok r =>
      option_map decision r = d ∧
      ∀ x, r = Some x → valid_until x = None ∧
        ∃ response, client (subject_request scope_ (to_string subject)) = Ok response ∧
          (payload x = None ↔ Proto.rsp_payload response = EmptyString) ∧
          (∀ p, payload x = Some p → p = Proto.rsp_payload response)
  | Err e, Err e' => e = e'
  | _, _ => False
  end.
Proof.
  unfold get_subject_decision, get_subject_decision_with_payload.
  destruct (client _) as [response|status] eqn:Hc; simpl; [|done].
  destruct (decode_response response scope_) as [d|e]; simpl; [|done].
  split; [by destruct d|]. intros x Hx. destruct d as [d|]; [|done]. injection Hx as <-. simpl.
  split; [done|]. exists response. split; [done|]. unfold payload_of.
  case_bool_decide as Hp; [by rewrite Hp|]. split; [done|]. by intros p [= <-].
Qed.

(** Failures are classified once and for all: a call or a stream item fails
    transiently only for a gRPC status outside the six permanent codes, and a
    protocol violation is never retried. *)
Theorem tonic_errors_classified client scope_ subject e inner item :
  (get_subject_decision client scope_ subject = Err e →
     (∃ status, client (subject_request scope_ (to_string subject)) = Err status ∧
        e = source_error status) ∨ kind e = DecisionSourceErrorKind.Wire) ∧
  (change_stream_poll scope_ inner = Poll.Ready (Some (Err item)) →
     (∃ status, inner = Poll.Ready (Some (Err status)) ∧ item = source_error status) ∨
     kind item = DecisionSourceErrorKind.Wire) ∧
  (∀ status, is_permanent_status (source_error status) = true ↔
     ∀ n, status_code status ≠ Code.Other n).
Proof.
  split_and!.
  - unfold get_subject_decision. destruct (client _) as [response|status]; simpl.
    + intros [He|(? & _ & He)]%and_then_err; right; [by eapply scope_wire|by eapply decode_decision_wire].
    + intros [= <-]. left. by exists status.
  - unfold change_stream_poll. destruct inner as [[[change|status]|]|]; simpl; try done.
    + intros [= He]. right. by eapply change_accepted_iff.
    + intros [= <-]. left. by exists status.
  - intros status. unfold is_permanent_status, source_error. simpl.
    destruct (status_code status); split; try done. intros Hn. by destruct (Hn code).
Qed.
End tonic.
