(* ===== verification/Rpc.v ===== *)
(** * Rpc: the generated client and server ([src/policy_proto.rs]) and their use

    The stubs that [tonic-prost-build] generated are part of the crate; what they
    call in [tonic] is the interface [TonicGrpc].  The generated client over the
    generated server reaches the authority it serves, so a remote lookup is the
    lookup itself ([src/tonic_source.rs] on top), and any other path is answered
    with a status that the source classifies as permanent. *)

From S2P Require Export Tonic.

(** ** The enum's names *)

Definition as_str_name (d : Proto.Decision) : string :=
  match d with
  | Proto.Unspecified => "DECISION_UNSPECIFIED"
  | Proto.Allowed => "DECISION_ALLOWED"
  | Proto.Denied => "DECISION_DENIED"
  end.

Definition from_str_name (value : string) : option Proto.Decision :=
  if bool_decide (value = "DECISION_UNSPECIFIED") then Some Proto.Unspecified
  else if bool_decide (value = "DECISION_ALLOWED") then Some Proto.Allowed
  else if bool_decide (value = "DECISION_DENIED") then Some Proto.Denied
  else None.

(** A name is accepted exactly when it is the name of the value. *)
Lemma from_str_name_iff value d : from_str_name value = Some d ↔ value = as_str_name d.
Proof.
  unfold from_str_name. split.
  - repeat case_bool_decide; intros [= <-]; done.
  - intros ->. by destruct d.
Qed.

(** ** What the stubs call in [tonic] *)

Record WatchSubjectDecisionsRequest : Type := mkWatchRequest {
  watch_scope : string;
}.

Record GrpcMethod : Type := mkMethod {
  method_service : string;
  method_name : string;
}.

Class TonicGrpc `{TonicStatus} : Type := {
  CompressionEncoding : Type;
  EnabledCompressionEncodings : Type;
  no_encodings : EnabledCompressionEncodings;
  enable : EnabledCompressionEncodings → CompressionEncoding → EnabledCompressionEncodings;
  (** [http] *)
  HttpRequest : Type;
  HttpResponse : Type;
  uri_path : HttpRequest → string;
  empty_response : list (string * string) → HttpResponse;
  (** [tonic::Status] *)
  status_unknown : string → Status;
  (** A stream of changes. *)
  Changes : Type;
  (** [tonic::client::Grpc]: its settings, and a call over a service. *)
  ClientGrpc : Type;
  grpc_new : ClientGrpc;
  grpc_send_compressed : ClientGrpc → CompressionEncoding → ClientGrpc;
  grpc_accept_compressed : ClientGrpc → CompressionEncoding → ClientGrpc;
  grpc_max_decoding : ClientGrpc → Z → ClientGrpc;
  grpc_max_encoding : ClientGrpc → Z → ClientGrpc;
  grpc_unary : ClientGrpc → (HttpRequest → HttpResponse) → GrpcMethod → string →
    Proto.GetSubjectDecisionRequest → result Proto.GetSubjectDecisionResponse Status;
  grpc_server_streaming : ClientGrpc → (HttpRequest → HttpResponse) → GrpcMethod → string →
    WatchSubjectDecisionsRequest → result Changes Status;
  (** [tonic::server::Grpc] with its compression and size limits. *)
  serve_unary : EnabledCompressionEncodings → EnabledCompressionEncodings → option Z → option Z →
    (Proto.GetSubjectDecisionRequest → result Proto.GetSubjectDecisionResponse Status) →
    HttpRequest → HttpResponse;
  serve_streaming : EnabledCompressionEncodings → EnabledCompressionEncodings → option Z → option Z →
    (WatchSubjectDecisionsRequest → result Changes Status) → HttpRequest → HttpResponse;
}.

Section rpc.
Context `{TonicGrpc}.

(** A tower service: whether it is ready, and its answer. *)
Record Service : Type := mkService {
  service_ready : result unit string;
  service_call : HttpRequest → HttpResponse;
}.

Definition SERVICE_NAME : string := "aspect.policy.gate.v1.PolicyAuthority".

(** ** The client *)

Record PolicyAuthorityClient : Type := mkClient {
  client_service : Service;
  client_grpc : ClientGrpc;
}.

Definition client_new (inner : Service) : PolicyAuthorityClient := mkClient inner grpc_new.

Definition client_map (g : ClientGrpc → ClientGrpc) (c : PolicyAuthorityClient) :
    PolicyAuthorityClient := mkClient (client_service c) (g (client_grpc c)).
Definition client_send_compressed (e : CompressionEncoding) := client_map (λ g, grpc_send_compressed g e).
Definition client_accept_compressed (e : CompressionEncoding) :=
  client_map (λ g, grpc_accept_compressed g e).
Definition client_max_decoding_message_size (limit : Z) := client_map (λ g, grpc_max_decoding g limit).
Definition client_max_encoding_message_size (limit : Z) := client_map (λ g, grpc_max_encoding g limit).

(** [self.inner.ready().await.map_err(..)]. *)
Definition client_ready (c : PolicyAuthorityClient) : result unit Status :=
  result_map_err (λ e, status_unknown ("Service was not ready: " +:+ e)) (service_ready (client_service c)).

Definition client_get_subject_decision (c : PolicyAuthorityClient)
    (request : Proto.GetSubjectDecisionRequest) : result Proto.GetSubjectDecisionResponse Status :=
  _ ←? client_ready c;
  grpc_unary (client_grpc c) (service_call (client_service c))
    (mkMethod "aspect.policy.gate.v1.PolicyAuthority" "GetSubjectDecision")
    "/aspect.policy.gate.v1.PolicyAuthority/GetSubjectDecision" request.

Definition client_watch_subject_decisions (c : PolicyAuthorityClient)
    (request : WatchSubjectDecisionsRequest) : result Changes Status :=
  _ ←? client_ready c;
  grpc_server_streaming (client_grpc c) (service_call (client_service c))
    (mkMethod "aspect.policy.gate.v1.PolicyAuthority" "WatchSubjectDecisions")
    "/aspect.policy.gate.v1.PolicyAuthority/WatchSubjectDecisions" request.

(** ** The server *)

(** [trait PolicyAuthority]. *)
Record PolicyAuthority : Type := mkAuthority {
  authority_get : Proto.GetSubjectDecisionRequest → result Proto.GetSubjectDecisionResponse Status;
  authority_watch : WatchSubjectDecisionsRequest → result Changes Status;
}.

Record PolicyAuthorityServer : Type := mkServer {
  server_inner : PolicyAuthority;
  accept_compression_encodings : EnabledCompressionEncodings;
  send_compression_encodings : EnabledCompressionEncodings;
  max_decoding_message_size : option Z;
  max_encoding_message_size : option Z;
}.

Definition server_from_arc (inner : PolicyAuthority) : PolicyAuthorityServer :=
  mkServer inner no_encodings no_encodings None None.
Definition server_new (inner : PolicyAuthority) : PolicyAuthorityServer := server_from_arc inner.

Definition server_accept_compressed (e : CompressionEncoding) (s : PolicyAuthorityServer) :=
  mkServer (server_inner s) (enable (accept_compression_encodings s) e) (send_compression_encodings s)
    (max_decoding_message_size s) (max_encoding_message_size s).
Definition server_send_compressed (e : CompressionEncoding) (s : PolicyAuthorityServer) :=
  mkServer (server_inner s) (accept_compression_encodings s) (enable (send_compression_encodings s) e)
    (max_decoding_message_size s) (max_encoding_message_size s).
Definition server_max_decoding_message_size (limit : Z) (s : PolicyAuthorityServer) :=
  mkServer (server_inner s) (accept_compression_encodings s) (send_compression_encodings s)
    (Some limit) (max_encoding_message_size s).
Definition server_max_encoding_message_size (limit : Z) (s : PolicyAuthorityServer) :=
  mkServer (server_inner s) (accept_compression_encodings s) (send_compression_encodings s)
    (max_decoding_message_size s) (Some limit).

(** [tonic::Code::Unimplemented as i32]. *)
Definition UNIMPLEMENTED_HEADERS : list (string * string) :=
  [("grpc-status", "12"); ("content-type", "application/grpc")].

Definition server_call (s : PolicyAuthorityServer) (req : HttpRequest) : HttpResponse :=
  if bool_decide (uri_path req = "/aspect.policy.gate.v1.PolicyAuthority/GetSubjectDecision") then
    serve_unary (accept_compression_encodings s) (send_compression_encodings s)
      (max_decoding_message_size s) (max_encoding_message_size s) (authority_get (server_inner s)) req
  else if bool_decide (uri_path req = "/aspect.policy.gate.v1.PolicyAuthority/WatchSubjectDecisions") then
    serve_streaming (accept_compression_encodings s) (send_compression_encodings s)
      (max_decoding_message_size s) (max_encoding_message_size s) (authority_watch (server_inner s)) req
  else empty_response UNIMPLEMENTED_HEADERS.

(** [poll_ready] is always ready. *)
Definition server_service (s : PolicyAuthorityServer) : Service := mkService (Ok tt) (server_call s).
End rpc.

(** ** What the stubs rely on

    A call sends one request for its path and reads one response.  With default
    settings, a message within the size limits arrives as it was sent, and so
    does the answer; of an error status the code arrives. *)

Definition same_outcome {A B} `{TonicStatus} (same : A → B → Prop) (r : result A Status)
    (r' : result B Status) : Prop :=
  match r, r' with
  | Ok a, Ok b => same a b
  | Err e, Err e' => status_code e = status_code e'
  | _, _ => False
  end.

Class TonicGrpcOk `{TonicGrpc} : Type := {
  unary_request : GrpcMethod → string → Proto.GetSubjectDecisionRequest → HttpRequest;
  watch_request : GrpcMethod → string → WatchSubjectDecisionsRequest → HttpRequest;
  read_unary : HttpResponse → result Proto.GetSubjectDecisionResponse Status;
  read_watch : HttpResponse → result Changes Status;
  (** The stream as it arrives at the other end. *)
  relayed : Changes → Changes → Prop;
  fits : Proto.GetSubjectDecisionRequest → Proto.GetSubjectDecisionResponse → Prop;
  fits_watch : WatchSubjectDecisionsRequest → Prop;
  unary_sends call m p r : grpc_unary grpc_new call m p r = read_unary (call (unary_request m p r));
  watch_sends call m p r :
    grpc_server_streaming grpc_new call m p r = read_watch (call (watch_request m p r));
  unary_path m p r : uri_path (unary_request m p r) = p;
  watch_path m p r : uri_path (watch_request m p r) = p;
  unary_arrives h m p r :
    (∀ x, h r = Ok x → fits r x) →
    same_outcome eq (read_unary (serve_unary no_encodings no_encodings None None h (unary_request m p r)))
      (h r);
  watch_arrives h m p r :
    fits_watch r →
    same_outcome (λ c c', relayed c' c)
      (read_watch (serve_streaming no_encodings no_encodings None None h (watch_request m p r))) (h r);
  status_header headers :
    ("grpc-status", "12") ∈ headers → ∃ e, status_code e = Code.Unimplemented ∧
      read_unary (empty_response headers) = Err e ∧ read_watch (empty_response headers) = Err e;
  unknown_code msg : status_code (status_unknown msg) = Code.Other 2;
}.

Section rpc_contract.
Context `{TonicGrpc, !TonicGrpcOk}.
Context {T : Type} (to_string : T → string).
Implicit Types (authority : PolicyAuthority).

(** The same answer, or a failure of the same kind. *)
Definition same_answer {A B} (same : A → B → Prop) (r : result A DecisionSourceError)
    (r' : result B DecisionSourceError) : Prop :=
  match r, r' with
  | Ok a, Ok b => same a b
  | Err e, Err e' => kind e = kind e'
  | _, _ => False
  end.

Lemma source_error_kind e e' : status_code e = status_code e' → kind (source_error e) = kind (source_error e').
Proof. intros He. unfold source_error. simpl. by rewrite He. Qed.

Lemma same_answer_bind {A B} (r r' : result A Status) (k : A → result B DecisionSourceError) :
  same_outcome eq r r' →
  same_answer eq (x ←? result_map_err source_error r; k x) (x ←? result_map_err source_error r'; k x).
Proof.
  destruct r as [a|e], r' as [a'|e']; simpl; try done.
  - intros ->. unfold same_answer. by destruct (k a').
  - apply source_error_kind.
Qed.

Lemma unary_reaches authority r :
  (∀ x, authority_get authority r = Ok x → fits r x) →
  same_outcome eq (client_get_subject_decision (client_new (server_service (server_new authority))) r)
    (authority_get authority r).
Proof.
  intros Hfit. unfold client_get_subject_decision. simpl. rewrite unary_sends. unfold server_call.
  rewrite unary_path, bool_decide_true by done. by apply unary_arrives.
Qed.

Lemma watch_reaches authority r :
  fits_watch r →
  same_outcome (λ c c', relayed c' c)
    (client_watch_subject_decisions (client_new (server_service (server_new authority))) r)
    (authority_watch authority r).
Proof.
  intros Hfit. unfold client_watch_subject_decisions. simpl. rewrite watch_sends. unfold server_call.
  rewrite watch_path, bool_decide_false, bool_decide_true by done. by apply watch_arrives.
Qed.

(** C39. A remote authority is the authority.  The generated client over the
    generated server, each as constructed, answers every lookup of the source as
    the authority it serves would in the same process: the same decision and
    payload, or a failure of the same kind; and it opens the stream of changes
    that the authority opens. *)
Theorem remote_is_local authority scope_ subject :
  let request := subject_request scope_ (to_string subject) in
  let client := client_new (server_service (server_new authority)) in
  (∀ x, authority_get authority request = Ok x → fits request x) →
  fits_watch (mkWatchRequest scope_) →
  same_answer eq
    (get_subject_decision to_string (client_get_subject_decision client) scope_ subject)
    (get_subject_decision to_string (authority_get authority) scope_ subject) ∧
  same_answer eq
    (get_subject_decision_with_payload (client_get_subject_decision client) scope_ (to_string subject))
    (get_subject_decision_with_payload (authority_get authority) scope_ (to_string subject)) ∧
  same_answer (λ c c', relayed (stream_inner c') (stream_inner c) ∧ stream_scope c = stream_scope c')
    (watch_subject_decisions (λ s, client_watch_subject_decisions client (mkWatchRequest s)) scope_)
    (watch_subject_decisions (λ s, authority_watch authority (mkWatchRequest s)) scope_).
Proof.
  intros request client Hfit Hwatch. split; [|split].
  - by apply same_answer_bind, unary_reaches.
  - by apply same_answer_bind, unary_reaches.
  - pose proof (watch_reaches authority _ Hwatch) as Hw. unfold watch_subject_decisions. fold client in Hw.
    destruct (client_watch_subject_decisions _ _), (authority_watch _ _); simpl in *; try done.
    by apply source_error_kind.
Qed.

(** A service that is not ready fails transiently, whatever was asked; a server
    answers a path it does not serve with a status the source never retries. *)
Theorem stub_failures_classified client authority scope_ subject msg req :
  (service_ready (client_service client) = Err msg →
     ∃ e, get_subject_decision to_string (client_get_subject_decision client) scope_ subject = Err e ∧
       is_permanent_status e = false) ∧
  (uri_path req ≠ "/aspect.policy.gate.v1.PolicyAuthority/GetSubjectDecision" →
   uri_path req ≠ "/aspect.policy.gate.v1.PolicyAuthority/WatchSubjectDecisions" →
     ∃ e, read_unary (server_call (server_new authority) req) = Err e ∧
       is_permanent_status (source_error e) = true).
Proof.
  split.
  - intros Hr. unfold get_subject_decision, client_get_subject_decision, client_ready. rewrite Hr. simpl.
    eexists. split; [reflexivity|]. unfold source_error, is_permanent_status. simpl. by rewrite unknown_code.
  - intros Hg Hw. unfold server_call. rewrite !bool_decide_false by done.
    destruct (status_header UNIMPLEMENTED_HEADERS) as (e & He & Hu & _); [left|].
    exists e. split; [done|]. unfold source_error, is_permanent_status. simpl. by rewrite He.
Qed.
End rpc_contract.

(** ** The source over a channel *)

(** [tonic::transport::Endpoint]: its settings, and the channel that connects on
    first use. *)
Class TonicEndpoint `{TonicGrpc} : Type := {
  Endpoint : Type;
  from_shared : string → result Endpoint string;
  http2_keep_alive_interval : Z → Endpoint → Endpoint;
  keep_alive_timeout : Z → Endpoint → Endpoint;
  keep_alive_while_idle : bool → Endpoint → Endpoint;
  tcp_keepalive : option Z → Endpoint → Endpoint;
  endpoint_connect_timeout : Z → Endpoint → Endpoint;
  endpoint_connect_lazy : Endpoint → Service;
}.

Section source.
Context `{TonicGrpc, !TonicEndpoint}.

(** *** Other constructors of the stubs *)

(** [connect]: [endpoint_new] converts the destination, [endpoint_connect] opens
    the channel. *)
Definition client_connect {D E : Type} (endpoint_new : D → result Endpoint E)
    (endpoint_connect : Endpoint → result Service E) (dst : D) : result PolicyAuthorityClient E :=
  e ←? endpoint_new dst;
  conn ←? endpoint_connect e;
  Ok (client_new conn).

Definition client_with_origin {Uri : Type} (grpc_with_origin : Uri → ClientGrpc)
    (inner : Service) (origin : Uri) : PolicyAuthorityClient :=
  mkClient inner (grpc_with_origin origin).

(** [intercepted] is [InterceptedService::new]. *)
Definition client_with_interceptor {F : Type} (intercepted : Service → F → Service)
    (inner : Service) (interceptor : F) : PolicyAuthorityClient :=
  client_new (intercepted inner interceptor).

Definition server_with_interceptor {F : Type} (intercepted : Service → F → Service)
    (inner : PolicyAuthority) (interceptor : F) : Service :=
  intercepted (server_service (server_new inner)) interceptor.

(** *** The source *)

Record TonicDecisionSource : Type := mkSource {
  source_client : PolicyAuthorityClient;
  source_scope : string;
}.

Definition from_channel (channel : Service) (scope_ : string) : TonicDecisionSource :=
  mkSource (client_new channel) scope_.

(** The error carries the rendering of tonic's. *)
Definition connect_lazy (c : TonicDecisionSourceConfig) : result TonicDecisionSource string :=
  e ←? from_shared (endpoint c);
  let e := http2_keep_alive_interval (Duration.from_secs 10) e in
  let e := keep_alive_timeout (Duration.from_secs 5) e in
  let e := keep_alive_while_idle true e in
  let e := tcp_keepalive (Some (Duration.from_secs 30)) e in
  let e := endpoint_connect_timeout (connect_timeout c) e in
  Ok (from_channel (endpoint_connect_lazy e) (scope c)).

(** It fails exactly when the endpoint is not a URI; otherwise the source is
    bound to the scope and to the channel of that endpoint, with its timeouts. *)
Lemma connect_lazy_ok c src :
  connect_lazy c = Ok src ↔ ∃ e, from_shared (endpoint c) = Ok e ∧
    src = mkSource (client_new (endpoint_connect_lazy (endpoint_connect_timeout (connect_timeout c)
      (tcp_keepalive (Some (30 * Duration.from_secs 1)) (keep_alive_while_idle true
        (keep_alive_timeout (5 * Duration.from_secs 1)
          (http2_keep_alive_interval (10 * Duration.from_secs 1) e))))))) (scope c).
Proof.
  unfold connect_lazy. rewrite and_then_ok. split.
  - intros (e & He & [= <-]). by exists e.
  - intros (e & He & ->). by exists e.
Qed.
End source.

(** ** The theorems on a concrete transport *)

#[local] Instance demo_status : TonicStatus := {
  Status := Code.t;
  status_code e := e;
  status_to_string _ := "status";
}.

(** Messages travel as they are. *)
Inductive DemoWire : Type :=
| WireGet (path : string) (r : Proto.GetSubjectDecisionRequest)
| WireWatch (path : string) (r : WatchSubjectDecisionsRequest).
Inductive DemoReply : Type :=
| ReplyGet (r : result Proto.GetSubjectDecisionResponse Code.t)
| ReplyWatch (r : result nat Code.t)
| ReplyHeaders.

Definition demo_read_unary (r : DemoReply) : result Proto.GetSubjectDecisionResponse Code.t :=
  match r with ReplyGet r => r | _ => Err Code.Unimplemented end.
Definition demo_read_watch (r : DemoReply) : result nat Code.t :=
  match r with ReplyWatch r => r | _ => Err Code.Unimplemented end.

#[local] Instance demo_grpc : TonicGrpc := {
  CompressionEncoding := unit;
  EnabledCompressionEncodings := unit;
  no_encodings := tt;
  enable _ _ := tt;
  HttpRequest := DemoWire;
  HttpResponse := DemoReply;
  uri_path r := match r with WireGet p _ | WireWatch p _ => p end;
  empty_response _ := ReplyHeaders;
  status_unknown _ := Code.Other 2;
  Changes := nat;
  ClientGrpc := unit;
  grpc_new := tt;
  grpc_send_compressed _ _ := tt;
  grpc_accept_compressed _ _ := tt;
  grpc_max_decoding _ _ := tt;
  grpc_max_encoding _ _ := tt;
  grpc_unary _ call _ p r := demo_read_unary (call (WireGet p r));
  grpc_server_streaming _ call _ p r := demo_read_watch (call (WireWatch p r));
  serve_unary _ _ _ _ h r := match r with WireGet _ r => ReplyGet (h r) | _ => ReplyHeaders end;
  serve_streaming _ _ _ _ h r := match r with WireWatch _ r => ReplyWatch (h r) | _ => ReplyHeaders end;
}.

#[local] Instance demo_grpc_ok : TonicGrpcOk.
Proof.
  refine {|
    unary_request _ p r := WireGet p r : HttpRequest;
    watch_request _ p r := WireWatch p r : HttpRequest;
    read_unary := demo_read_unary;
    read_watch := demo_read_watch;
    relayed := eq;
    fits _ _ := True;
    fits_watch _ := True;
  |}; try done.
  - intros h m p r _. simpl. by destruct (h r).
  - intros h m p r _. simpl. by destruct (h r).
  - intros headers _. by exists Code.Unimplemented.
Defined.

(** An authority that allows whom it knows, in the scope it is asked for. *)
Definition demo_authority : PolicyAuthority := mkAuthority
  (λ r, if bool_decide (Proto.req_subject_id r = "alice")
        then Ok (Proto.mkResponse 1 (Proto.req_scope r) "gold") else Err Code.PermissionDenied)
  (λ _, Ok 7%nat).

Lemma remote_is_local_witness :
  same_answer eq
    (get_subject_decision id
      (client_get_subject_decision (client_new (server_service (server_new demo_authority)))) "prod" "alice")
    (Ok (Some Decision.Allowed) : result (option Decision.t) DecisionSourceError).
Proof.
  refine (proj1 (remote_is_local id demo_authority "prod" "alice" _ _)).
  - done.
  - done.
Defined.
