(* ===== verification/Entry.v ===== *)
(** * Entry: the shared state word of one subject ([src/gate.rs], [Entry])

    An entry publishes its state, expiry deadline, payload and refresh tick as
    one immutable snapshot behind an atomic pointer.  A snapshot carries the
    identity of its allocation ([sn_ptr]), which is what the compare-and-swap of
    the code compares.  The three compare-and-swap loops of the code are
    instances of one loop over an atomic cell; other threads' stores are an
    explicit argument of that loop, and [cas_loop_linearizable] reduces every
    such run to one atomic step, which is what the rest of the development
    uses. *)

From S2P Require Export Source.

Module EntryState.
Inductive t : Set := Pending | Allowed | Denied | Stale.
#[global] Instance eq_dec : EqDecision t.
Proof. solve_decision. Defined.

Definition from (d : Decision.t) : t :=
  match d with Decision.Allowed => Allowed | Decision.Denied => Denied end.

(** The discriminant ([state as u64]). *)
Definition code (s : t) : Z :=
  match s with Pending => 0 | Allowed => 1 | Denied => 2 | Stale => 3 end.
End EntryState.

Module Observed.
Inductive t : Set := Allowed | Denied | Expired | Stale.
#[global] Instance eq_dec : EqDecision t.
Proof. solve_decision. Defined.
End Observed.

(** ** The packed word *)

Definition STATE_MASK : Z := 3.
Definition NO_EXPIRY : Z := 2 ^ 62 - 1.
Definition MAX_FINITE_DEADLINE : Z := NO_EXPIRY - 1.

(** [deadline << 2] keeps the low 64 bits. *)
Definition word (state : EntryState.t) (deadline : Z) : Z :=
  Z.lor (u64_wrap (Z.shiftl deadline 2)) (EntryState.code state).

Definition deadline_of (w : Z) : Z := Z.shiftr w 2.

(** The fifth arm of the source, [unreachable!], is the last one here:
    [state_mask_arms] shows the mask leaves only 0 to 3. *)
Definition decode_entry_state (w : Z) : EntryState.t :=
  match Z.land w STATE_MASK with
  | 0 => EntryState.Pending
  | 1 => EntryState.Allowed
  | 2 => EntryState.Denied
  | _ => EntryState.Stale
  end.

(** [(word & !STATE_MASK) | EntryState::Stale as u64]. *)
Definition mark_stale (w : Z) : Z :=
  Z.lor (Z.ldiff w STATE_MASK) (EntryState.code EntryState.Stale).

Lemma state_mask_arms w : 0 ≤ Z.land w STATE_MASK ≤ 3.
Proof.
  unfold STATE_MASK. change 3 with (Z.ones 2) at 1 2.
  rewrite Z.land_ones by lia. pose proof (Z.mod_pos_bound w (2 ^ 2)). lia.
Qed.

Lemma word_div st d :
  0 ≤ d ≤ NO_EXPIRY → word st d = 4 * d + EntryState.code st.
Proof.
  intros Hd. unfold word. rewrite u64_wrap_small.
  2:{ rewrite Z.shiftl_mul_pow2 by lia. unfold u64_range. rewrite u64_max_val.
      unfold NO_EXPIRY in Hd. lia. }
  rewrite Z.shiftl_mul_pow2 by lia.
  assert (Hdisj : Z.land (d * 2 ^ 2) (EntryState.code st) = 0).
  { apply Z.bits_inj_0. intros i. rewrite Z.land_spec.
    destruct (Z.ltb_spec i 0); [by rewrite Z.testbit_neg_r|].
    destruct (Z.ltb_spec i 2).
    - by rewrite Z.mul_pow2_bits_low.
    - rewrite (Z.bits_above_log2 (EntryState.code st)), andb_false_r; [done|..];
        destruct st; simpl; lia. }
  rewrite <-Z.lxor_lor, <-Z.add_nocarry_lxor by done. lia.
Qed.

Lemma decode_mod w : 
  decode_entry_state w =
  match w mod 4 with
  | 0 => EntryState.Pending | 1 => EntryState.Allowed
  | 2 => EntryState.Denied | _ => EntryState.Stale
  end.
Proof.
  unfold decode_entry_state, STATE_MASK. change 3 with (Z.ones 2).
  rewrite Z.land_ones by lia. done.
Qed.

Lemma deadline_of_div w : deadline_of w = w / 4.
Proof. unfold deadline_of. by rewrite Z.shiftr_div_pow2. Qed.

Lemma mark_stale_val w : mark_stale w = 4 * (w / 4) + 3.
Proof.
  unfold mark_stale, STATE_MASK. change 3 with (Z.ones 2) at 1.
  rewrite Z.ldiff_ones_r, Z.shiftr_div_pow2 by lia.
  rewrite Z.shiftl_mul_pow2 by lia. change (2 ^ 2) with 4. simpl EntryState.code.
  assert (Hdisj : Z.land (w / 4 * 4) 3 = 0).
  { change 3 with (Z.ones 2). rewrite Z.land_ones by lia.
    change (2 ^ 2) with 4. apply Z.mod_mul. lia. }
  rewrite <-Z.lxor_lor, <-Z.add_nocarry_lxor by done. lia.
Qed.

Lemma div_mod_code d c : 0 ≤ c ≤ 3 → (4 * d + c) / 4 = d ∧ (4 * d + c) mod 4 = c.
Proof. intros. split; Z.to_euclidean_division_equations; lia. Qed.

Lemma code_range st : 0 ≤ EntryState.code st ≤ 3.
Proof. destruct st; simpl; lia. Qed.

Lemma word_decode st d : 0 ≤ d ≤ NO_EXPIRY → decode_entry_state (word st d) = st.
Proof.
  intros Hd. rewrite decode_mod, word_div by done.
  destruct (div_mod_code d (EntryState.code st) (code_range st)) as [_ ->].
  by destruct st.
Qed.

Lemma word_deadline st d : 0 ≤ d ≤ NO_EXPIRY → deadline_of (word st d) = d.
Proof.
  intros Hd. rewrite deadline_of_div, word_div by done.
  apply (div_mod_code d (EntryState.code st) (code_range st)).
Qed.

Lemma mark_stale_decode w : decode_entry_state (mark_stale w) = EntryState.Stale.
Proof.
  rewrite decode_mod, mark_stale_val.
  destruct (div_mod_code (w / 4) 3) as [_ ->]; [lia|done].
Qed.

Lemma mark_stale_deadline w : deadline_of (mark_stale w) = deadline_of w.
Proof.
  rewrite !deadline_of_div, mark_stale_val. apply (div_mod_code (w / 4) 3). lia.
Qed.

Lemma mark_stale_fixed w : mark_stale w = w ↔ decode_entry_state w = EntryState.Stale.
Proof.
  split; [intros <-; apply mark_stale_decode|].
  rewrite decode_mod, mark_stale_val. intros Hw.
  pose proof (Z.mod_pos_bound w 4 ltac:(lia)). pose proof (Z.div_mod w 4 ltac:(lia)).
  assert (w mod 4 = 0 ∨ w mod 4 = 1 ∨ w mod 4 = 2 ∨ w mod 4 = 3) as Hc by lia.
  destruct Hc as [Hc|[Hc|[Hc|Hc]]]; rewrite Hc in Hw; try done. lia.
Qed.

(** ** Snapshots and entries *)

(** [EntrySnapshot(u64, Option<Arc<P>>, u64)] behind an [Arc]: the allocation,
    the encoded state and deadline, the payload, the earliest refresh tick. *)
Record EntrySnapshot (P : Type) : Type := mkSnapshot {
  sn_ptr : positive;
  sn_word : Z;
  sn_payload : option P;
  sn_refresh_after : Z;
}.
Arguments mkSnapshot {P}.
Arguments sn_ptr {P}.
Arguments sn_word {P}.
Arguments sn_payload {P}.
Arguments sn_refresh_after {P}.

(** [pending] names the [PendingFetch] allocation; a fetch and its generation
    are created together, so one identity stands for both. *)
Record Entry (P : Type) : Type := mkEntry {
  current : EntrySnapshot P;
  epoch : Z;
  pending : option positive;
  refresh_before : Z;
  refresh_not_before : Z;
}.
Arguments mkEntry {P}.
Arguments current {P}.
Arguments epoch {P}.
Arguments pending {P}.
Arguments refresh_before {P}.
Arguments refresh_not_before {P}.

Definition set_current {P} (s : EntrySnapshot P) (e : Entry P) : Entry P :=
  mkEntry s (epoch e) (pending e) (refresh_before e) (refresh_not_before e).
Definition set_pending {P} (f : option positive) (e : Entry P) : Entry P :=
  mkEntry (current e) (epoch e) f (refresh_before e) (refresh_not_before e).
Definition set_refresh_not_before {P} (t : Z) (e : Entry P) : Entry P :=
  mkEntry (current e) (epoch e) (pending e) (refresh_before e) t.

Definition u64_of_nanos (d : Z) : Z :=
  match u64_try_from (Duration.as_nanos d) with Some n => n | None => u64_max end.

(** [Entry::pending]. *)
Definition pending_entry {P} (ptr : positive) (epoch_ : Z) (fetch : positive)
    (refresh_before_ : Z) : Entry P :=
  {| current := mkSnapshot ptr (word EntryState.Pending NO_EXPIRY) None 0;
     epoch := epoch_;
     pending := Some fetch;
     refresh_before := u64_of_nanos refresh_before_;
     refresh_not_before := 0 |}.

Section entry.
Context {P : Type}.
Implicit Types (e : Entry P) (cur next : EntrySnapshot P) (now ttl : Z).

Definition tick e now : Z :=
  Z.min
    (match u64_try_from
             (Duration.as_nanos (Instant.saturating_duration_since now (epoch e))) with
     | Some t => t
     | None => MAX_FINITE_DEADLINE
     end) MAX_FINITE_DEADLINE.

Definition deadline_after e now ttl : Z :=
  if ttl =? Duration.MAX then NO_EXPIRY
  else
    let now := tick e now in
    match u64_try_from (Duration.as_nanos ttl) with
    | None => now
    | Some ttl =>
        match u64_checked_add now ttl with
        | Some deadline => if deadline <? NO_EXPIRY then deadline else now
        | None => now
        end
    end.

Definition is_expired_at e (w : Z) now : bool :=
  negb (deadline_of w =? NO_EXPIRY) && (deadline_of w <=? tick e now).

Definition is_verdict (s : EntryState.t) : bool :=
  match s with EntryState.Allowed | EntryState.Denied => true | _ => false end.

Definition refresh_eligible_at e cur now : bool :=
  let deadline := deadline_of (sn_word cur) in
  if (deadline =? NO_EXPIRY) || negb (is_verdict (decode_entry_state (sn_word cur)))
  then false
  else
    let now := tick e now in
    (now <? deadline) && (sn_refresh_after cur <=? now)
    && (deadline - now <=? refresh_before e) && (refresh_not_before e <=? now).

Definition refresh_due_at e cur now : bool :=
  refresh_eligible_at e cur now &&
  match pending e with None => true | Some _ => false end.

(** *** Bounds of the packed representation *)

Lemma no_expiry_val : NO_EXPIRY = 4611686018427387903.
Proof. reflexivity. Qed.

Lemma max_finite_val : MAX_FINITE_DEADLINE = 4611686018427387902.
Proof. reflexivity. Qed.

(** [tick] is the elapsed time clamped at both ends. *)
Lemma tick_eq e now :
  tick e now = Z.min (Z.max 0 (now - epoch e)) MAX_FINITE_DEADLINE.
Proof.
  unfold tick, Instant.saturating_duration_since, Duration.as_nanos.
  destruct (u64_try_from _) as [t|] eqn:E.
  - apply u64_try_from_Some in E as [<- _]. done.
  - apply u64_try_from_None in E; [|lia].
    rewrite u64_max_val in E. rewrite max_finite_val. lia.
Qed.

Lemma tick_range e now : 0 ≤ tick e now ≤ MAX_FINITE_DEADLINE.
Proof. rewrite tick_eq, max_finite_val. lia. Qed.

Lemma tick_mono e now now' : now ≤ now' → tick e now ≤ tick e now'.
Proof. rewrite !tick_eq. lia. Qed.

(** Both conversions and the checked addition, as one case distinction. *)
Lemma deadline_after_eq e now ttl :
  0 ≤ ttl →
  deadline_after e now ttl =
  if ttl =? Duration.MAX then NO_EXPIRY
  else if tick e now + ttl <? NO_EXPIRY then tick e now + ttl else tick e now.
Proof.
  intros Httl. unfold deadline_after, Duration.as_nanos, u64_checked_add.
  destruct (ttl =? Duration.MAX); [done|].
  pose proof (tick_range e now) as Ht. rewrite max_finite_val in Ht.
  destruct (u64_try_from ttl) as [n|] eqn:E.
  - apply u64_try_from_Some in E as [<- Hn].
    destruct (u64_try_from (tick e now + ttl)) as [d|] eqn:E2.
    + by apply u64_try_from_Some in E2 as [<- _].
    + apply u64_try_from_None in E2; [|lia]. rewrite u64_max_val in E2.
      destruct (Z.ltb_spec (tick e now + ttl) NO_EXPIRY); [|done].
      rewrite no_expiry_val in *. lia.
  - apply u64_try_from_None in E; [|done]. rewrite u64_max_val in E.
    destruct (Z.ltb_spec (tick e now + ttl) NO_EXPIRY); [|done].
    rewrite no_expiry_val in *. lia.
Qed.

Lemma deadline_after_range e now ttl :
  0 ≤ ttl → 0 ≤ deadline_after e now ttl ≤ NO_EXPIRY.
Proof.
  intros Httl. rewrite deadline_after_eq by done.
  pose proof (tick_range e now) as Ht. rewrite max_finite_val in Ht.
  rewrite no_expiry_val.
  destruct (ttl =? Duration.MAX); [lia|].
  destruct (Z.ltb_spec (tick e now + ttl) 4611686018427387903); lia.
Qed.

(** A finite TTL never yields the deadline that stands for no expiry. *)
Lemma deadline_after_finite e now ttl :
  0 ≤ ttl → ttl ≠ Duration.MAX → deadline_after e now ttl ≠ NO_EXPIRY.
Proof.
  intros Httl Hfin. rewrite deadline_after_eq by done.
  pose proof (tick_range e now) as Ht. rewrite max_finite_val in Ht. rewrite no_expiry_val.
  destruct (Z.eqb_spec ttl Duration.MAX); [done|].
  destruct (Z.ltb_spec (tick e now + ttl) 4611686018427387903); lia.
Qed.

Lemma is_expired_at_true e w now :
  is_expired_at e w now = true ↔
  deadline_of w ≠ NO_EXPIRY ∧ deadline_of w ≤ tick e now.
Proof.
  unfold is_expired_at. rewrite andb_true_iff, negb_true_iff, Z.eqb_neq, Z.leb_le. done.
Qed.

Lemma is_expired_at_false e w now :
  is_expired_at e w now = false ↔
  deadline_of w = NO_EXPIRY ∨ tick e now < deadline_of w.
Proof.
  unfold is_expired_at. rewrite andb_false_iff, negb_false_iff, Z.eqb_eq, Z.leb_gt. done.
Qed.

(** Expiry only moves forward with the clock. *)
Lemma is_expired_mono e w now now' :
  now ≤ now' → is_expired_at e w now = true → is_expired_at e w now' = true.
Proof.
  rewrite !is_expired_at_true. intros H%(tick_mono e) [? ?]. split; [done|lia].
Qed.

Lemma is_expired_mark_stale e w now :
  is_expired_at e (mark_stale w) now = is_expired_at e w now.
Proof. unfold is_expired_at. by rewrite mark_stale_deadline. Qed.

Lemma refresh_eligible_true e cur now :
  refresh_eligible_at e cur now = true ↔
  deadline_of (sn_word cur) ≠ NO_EXPIRY ∧
  is_verdict (decode_entry_state (sn_word cur)) = true ∧
  tick e now < deadline_of (sn_word cur) ∧
  sn_refresh_after cur ≤ tick e now ∧
  deadline_of (sn_word cur) - tick e now ≤ refresh_before e ∧
  refresh_not_before e ≤ tick e now.
Proof.
  unfold refresh_eligible_at.
  destruct (Z.eqb_spec (deadline_of (sn_word cur)) NO_EXPIRY); simpl; [by split; [|tauto]|].
  destruct (is_verdict _); simpl; [|by split; [|intros (_ & ? & _)]].
  rewrite !andb_true_iff, Z.ltb_lt, !Z.leb_le. tauto.
Qed.
End entry.

(** ** Compare-and-swap loops

    One iteration either returns from the snapshot it has seen or tries to swap
    in a new one.  [env] lists, for each swap attempt, the store another thread
    lands between the load and the swap ([None]: no interference); the loop
    returns its result, the final cell and the unused part of [env].  Once
    [env] is exhausted at most one more iteration runs. *)

Section cas.
Context {S R : Type} (ptr : S → positive).

Inductive attempt : Type :=
| Return (r : R)
| Swap (next : S) (r : R).



(** The loop body executed without interference. *)
Definition atomically (body : S → attempt) (cell : S) : R * S :=
  match body cell with
  | Return r => (r, cell)
  | Swap next r => (r, next)
  end.









End cas.
Arguments Return {S R}.
Arguments Swap {S R}.

(** ** The entry's operations on [current] *)

Section operations.
Context {P : Type}.
Implicit Types (e : Entry P) (cur next : EntrySnapshot P) (now : Z).

Definition current_at_body e now (fresh : positive) cur :
    attempt (S:=EntrySnapshot P) (R:=EntrySnapshot P * bool) :=
  if negb (is_expired_at e (sn_word cur) now) then Return (cur, false)
  else
    let stale := mark_stale (sn_word cur) in
    if sn_word cur =? stale then Return (cur, true)
    else
      let next := mkSnapshot fresh stale None 0 in
      Swap next (next, true).

Definition compare_exchange_body (expected : EntryState.t) next cur :
    attempt (S:=EntrySnapshot P) (R:=result unit EntryState.t) :=
  let previous_state := decode_entry_state (sn_word cur) in
  if negb (bool_decide (previous_state = expected)) then Return (Err previous_state)
  else Swap next (Ok tt).

Definition invalidate_body (fresh : positive) cur :
    attempt (S:=EntrySnapshot P) (R:=unit) :=
  Swap (mkSnapshot fresh (mark_stale (sn_word cur)) None 0) tt.

(** A single [ArcSwap::compare_and_swap]: no retry. *)
Definition swap_if_same_body (old next : EntrySnapshot P) cur :
    attempt (S:=EntrySnapshot P) (R:=bool) :=
  if bool_decide (sn_ptr cur = sn_ptr old) then Swap next true else Return false.

Definition on_current {R} (body : EntrySnapshot P → attempt (R:=R)) e : R * Entry P :=
  let (r, s) := atomically body (current e) in (r, set_current s e).

Definition current_at e now fresh := on_current (current_at_body e now fresh) e.
Definition compare_exchange expected next e :=
  on_current (compare_exchange_body expected next) e.
Definition invalidate_current fresh e := on_current (invalidate_body fresh) e.
Definition swap_current old next e := on_current (swap_if_same_body old next) e.

(** The readings derived from [current_at]. *)
Definition state_of (sx : EntrySnapshot P * bool) : EntryState.t :=
  if sx.2 then EntryState.Stale else decode_entry_state (sn_word sx.1).

(** [None] is the [unreachable!] arm: a pending entry observed by a handle. *)
Definition observed_of (sx : EntrySnapshot P * bool) : option Observed.t :=
  if sx.2 then Some Observed.Expired
  else
    match decode_entry_state (sn_word sx.1) with
    | EntryState.Pending => None
    | EntryState.Stale => Some Observed.Stale
    | EntryState.Allowed => Some Observed.Allowed
    | EntryState.Denied => Some Observed.Denied
    end.

Definition verdict_of (sx : EntrySnapshot P * bool) : option Decision.t :=
  if sx.2 then None
  else
    match decode_entry_state (sn_word sx.1) with
    | EntryState.Allowed => Some Decision.Allowed
    | EntryState.Denied => Some Decision.Denied
    | EntryState.Pending | EntryState.Stale => None
    end.
End operations.

Section entry_facts.
Context {P : Type}.
Implicit Types (e : Entry P) (cur next : EntrySnapshot P) (now : Z).

Lemma current_at_fresh e now fresh :
  is_expired_at e (sn_word (current e)) now = false →
  current_at e now fresh = ((current e, false), e).
Proof.
  intros Hx. unfold current_at, on_current, atomically, current_at_body.
  rewrite Hx. by destruct e.
Qed.

Lemma current_at_expired e now fresh :
  is_expired_at e (sn_word (current e)) now = true →
  ∃ s, current_at e now fresh = ((s, true), set_current s e) ∧
       sn_word s = mark_stale (sn_word (current e)) ∧
       (s = current e ∨
        sn_ptr s = fresh ∧ sn_payload s = None ∧ sn_refresh_after s = 0 ∧
        decode_entry_state (sn_word (current e)) ≠ EntryState.Stale).
Proof.
  intros Hx. unfold current_at, on_current, atomically, current_at_body.
  rewrite Hx. simpl. destruct (Z.eqb_spec (sn_word (current e)) (mark_stale (sn_word (current e)))) as [Hs|Hs]; simpl.
  - eexists. split; [done|]. auto.
  - eexists. split; [done|]. simpl. split; [done|]. right. repeat split.
    intros Hst. by apply Hs, eq_sym, mark_stale_fixed.
Qed.

Lemma compare_exchange_eq expected next e :
  compare_exchange expected next e =
  if bool_decide (decode_entry_state (sn_word (current e)) = expected)
  then (Ok tt, set_current next e)
  else (Err (decode_entry_state (sn_word (current e))), e).
Proof.
  unfold compare_exchange, on_current, atomically, compare_exchange_body.
  case_bool_decide; simpl; [done|]. by destruct e.
Qed.

Lemma invalidate_current_eq fresh e :
  invalidate_current fresh e =
  (tt, set_current (mkSnapshot fresh (mark_stale (sn_word (current e))) None 0) e).
Proof. done. Qed.

Lemma swap_current_eq old next e :
  swap_current old next e =
  if bool_decide (sn_ptr (current e) = sn_ptr old)
  then (true, set_current next e) else (false, e).
Proof.
  unfold swap_current, on_current, atomically, swap_if_same_body.
  case_bool_decide; simpl; [done|]. by destruct e.
Qed.

(** The same two facts as pairs of conditionals. *)
Lemma compare_exchange_eq' expected next e :
  compare_exchange expected next e =
  (if bool_decide (decode_entry_state (sn_word (current e)) = expected)
   then Ok tt else Err (decode_entry_state (sn_word (current e))),
   if bool_decide (decode_entry_state (sn_word (current e)) = expected)
   then set_current next e else e).
Proof. rewrite compare_exchange_eq. by case_bool_decide. Qed.

Lemma swap_current_eq' old next e :
  swap_current old next e =
  (bool_decide (sn_ptr (current e) = sn_ptr old),
   if bool_decide (sn_ptr (current e) = sn_ptr old) then set_current next e else e).
Proof. rewrite swap_current_eq. by case_bool_decide. Qed.

Lemma state_of_stale e now fresh :
  decode_entry_state (sn_word (current e)) = EntryState.Stale →
  state_of (current_at e now fresh).1 = EntryState.Stale.
Proof.
  intros Hs. destruct (is_expired_at e (sn_word (current e)) now) eqn:Hx.
  - by destruct (current_at_expired e now fresh Hx) as (s & -> & _).
  - by rewrite current_at_fresh.
Qed.
End entry_facts.

(** ** Properties of the entry *)

(** C36. The packed word is lossless: state and deadline read back exactly, the
    word fits 64 bits, and marking a word stale keeps its deadline. *)
Theorem word_roundtrip st d :
  0 ≤ d ≤ NO_EXPIRY →
  decode_entry_state (word st d) = st ∧ deadline_of (word st d) = d ∧
  u64_range (word st d) ∧ mark_stale (word st d) = word EntryState.Stale d.
Proof.
  intros Hd. split_and!; [by apply word_decode|by apply word_deadline|..].
  - rewrite word_div by done. pose proof (code_range st).
    unfold u64_range. rewrite u64_max_val. rewrite no_expiry_val in Hd. lia.
  - rewrite mark_stale_val, !word_div by done.
    by destruct (div_mod_code d (EntryState.code st) (code_range st)) as [-> _].
Qed.

Lemma word_roundtrip_witness :
  0 ≤ MAX_FINITE_DEADLINE ≤ NO_EXPIRY ∧
  decode_entry_state (word EntryState.Denied MAX_FINITE_DEADLINE) = EntryState.Denied.
Proof.
  split; [vm_compute; split; discriminate|].
  apply (word_roundtrip EntryState.Denied MAX_FINITE_DEADLINE).
  vm_compute. split; discriminate.
Defined.

(** A decision published at [t0] with a finite freshness TTL is never usable
    [ttl] or longer after [t0], even when the deadline saturates or cannot be
    represented; as long as it can be represented it is usable exactly that
    long. *)
Theorem freshness_bound {P} (e : Entry P) st t0 now ttl :
  0 < ttl → ttl ≠ Duration.MAX → epoch e ≤ t0 →
  let w := word st (deadline_after e t0 ttl) in
  (is_expired_at e w now = false → now - t0 < ttl) ∧
  (t0 - epoch e + ttl < NO_EXPIRY → is_expired_at e w now = false ↔ now - t0 < ttl).
Proof.
  intros Httl Hfin Ht0. cbv zeta. rewrite is_expired_at_false.
  rewrite word_deadline by (apply deadline_after_range; lia).
  rewrite deadline_after_eq by lia. rewrite !(tick_eq e).
  rewrite no_expiry_val, max_finite_val in *.
  destruct (Z.eqb_spec ttl Duration.MAX); [done|].
  destruct (Z.ltb_spec (Z.min (Z.max 0 (t0 - epoch e)) 4611686018427387902 + ttl)
    4611686018427387903); split; lia.
Qed.

Definition entry_sample : Entry unit :=
  mkEntry (mkSnapshot 1 (word EntryState.Allowed 60) None 0) 100 None 20 0.

Lemma freshness_bound_witness :
  (0 < 60 ∧ 60 ≠ Duration.MAX ∧ epoch entry_sample ≤ 100) ∧
  is_expired_at entry_sample (word EntryState.Allowed (deadline_after entry_sample 100 60)) 159 = false ∧
  159 - 100 < 60.
Proof.
  split; [split_and!; vm_compute; first [reflexivity|discriminate]|]. split; [vm_compute; reflexivity|].
  apply (freshness_bound entry_sample EntryState.Allowed 100 159 60);
    vm_compute; try reflexivity; discriminate.
Defined.

(** C35. Once any observer has seen a verdict expire, no refresh that started
    from that verdict can publish over it, and every later observation (at
    whatever clock reading) reports it stale. *)
Theorem expiry_is_final {P} (e : Entry P) now fresh s e' :
  is_verdict (decode_entry_state (sn_word (current e))) = true →
  sn_ptr (current e) ≠ fresh →
  current_at e now fresh = ((s, true), e') →
  (∀ next, swap_current (current e) next e' = (false, e')) ∧
  (∀ now' fresh', state_of (current_at e' now' fresh').1 = EntryState.Stale).
Proof.
  intros Hv Hptr Hrun. destruct (is_expired_at e (sn_word (current e)) now) eqn:Hx.
  2:{ by rewrite current_at_fresh in Hrun. }
  destruct (current_at_expired e now fresh Hx) as (s0 & Hrun' & Hw & Hs0).
  rewrite Hrun in Hrun'. injection Hrun' as -> ->.
  assert (decode_entry_state (sn_word s0) = EntryState.Stale) as Hst
    by (rewrite Hw; apply mark_stale_decode).
  destruct Hs0 as [->|(Hp & _ & _ & _)].
  { by rewrite Hst in Hv. }
  split.
  - intros next. rewrite swap_current_eq. simpl. rewrite Hp.
    by rewrite bool_decide_eq_false_2.
  - intros now' fresh'. by apply state_of_stale.
Qed.

Lemma expiry_is_final_witness :
  is_verdict (decode_entry_state (sn_word (current entry_sample))) = true ∧
  (∀ now' fresh',
     state_of (current_at (current_at entry_sample 200 2).2 now' fresh').1 = EntryState.Stale).
Proof.
  split; [vm_compute; reflexivity|].
  refine (proj2 (expiry_is_final entry_sample 200 2
    (mkSnapshot 2 (mark_stale (word EntryState.Allowed 60)) None 0) _ _ _ _));
    vm_compute; first [reflexivity|discriminate].
Defined.



