(* ===== verification/Lru.v ===== *)
(** * Lru: the interface of the [lru] crate's [LruCache]

    The cache is a third-party container.  [LruCache] lists the operations the
    program calls and [LruCacheOk] their documented behaviour, phrased over the
    crate's own iteration order (most recently used first).  [ListLru] is an
    instance, used to evaluate concrete runs and to show that the laws can be
    met. *)

From S2P Require Export Prelude.

(** ** Association lists *)

Section assoc.
Context {K V : Type} `{EqDecision K}.
Implicit Types (k : K) (v : V) (l : list (K * V)).

Fixpoint assoc k l : option V :=
  match l with
  | [] => None
  | (k', v) :: l => if decide (k = k') then Some v else assoc k l
  end.

Fixpoint assoc_del k l : list (K * V) :=
  match l with
  | [] => []
  | (k', v) :: l => if decide (k = k') then assoc_del k l else (k', v) :: assoc_del k l
  end.

Lemma assoc_Some_elem k v l : assoc k l = Some v → (k, v) ∈ l.
Proof.
  induction l as [|[k' v'] l IH]; simpl; [done|].
  case_decide as Hk; [intros [= ->]; subst; left|intros ?; right; auto].
Qed.

Lemma assoc_elem_Some k v l : NoDup l.*1 → (k, v) ∈ l → assoc k l = Some v.
Proof.
  induction l as [|[k' v'] l IH]; simpl; [by intros _ ?%not_elem_of_nil|].
  intros [Hk' Hnd]%NoDup_cons [[= <- <-]|Hin]%elem_of_cons.
  - by rewrite decide_True.
  - rewrite decide_False; [auto|]. intros ->. apply Hk', list_elem_of_fmap.
    by exists (k', v).
Qed.

Lemma assoc_None_iff k l : assoc k l = None ↔ k ∉ l.*1.
Proof.
  induction l as [|[k' v'] l IH]; simpl; [split; [by intros _ ?%not_elem_of_nil|done]|].
  rewrite not_elem_of_cons, <-IH. case_decide; [by split; [|intros []]|tauto].
Qed.

Lemma elem_of_assoc_del k kv l : kv ∈ assoc_del k l ↔ kv ∈ l ∧ kv.1 ≠ k.
Proof.
  induction l as [|[k' v'] l IH]; simpl.
  - split; [by intros ?%not_elem_of_nil|by intros [?%not_elem_of_nil _]].
  - case_decide as Hk; rewrite ?elem_of_cons, IH.
    + subst. split; [tauto|]. by intros [[->|?] ?].
    + split; [intros [->|[? ?]]; simpl; auto|]. intros [[->|?] ?]; auto.
Qed.

Lemma assoc_del_sub k kv l : kv ∈ assoc_del k l → kv ∈ l.
Proof. by intros [? _]%elem_of_assoc_del. Qed.

Lemma assoc_del_sublist k l : assoc_del k l `sublist_of` l.
Proof.
  induction l as [|[k' v'] l IH]; simpl; [done|].
  case_decide; by constructor.
Qed.

Lemma assoc_del_absent k l : assoc k l = None → assoc_del k l = l.
Proof.
  induction l as [|[k' v'] l IH]; simpl; [done|].
  case_decide; [done|]. intros ?. by rewrite IH.
Qed.

Lemma NoDup_assoc_del k l : NoDup l.*1 → NoDup (assoc_del k l).*1.
Proof.
  induction l as [|[k' v'] l IH]; simpl; [done|].
  intros [Hk' Hnd]%NoDup_cons. case_decide; [auto|]. simpl.
  apply NoDup_cons. split; [|auto].
  intros ([k2 v2] & Heq & Hin)%list_elem_of_fmap. simpl in Heq; subst k2.
  apply assoc_del_sub in Hin. apply Hk', list_elem_of_fmap. by exists (k', v2).
Qed.

Lemma assoc_del_notin k l : k ∉ (assoc_del k l).*1.
Proof.
  intros ([k2 v2] & Heq & Hin)%list_elem_of_fmap. simpl in Heq; subst k2.
  by apply elem_of_assoc_del in Hin as [_ ?].
Qed.

Lemma assoc_assoc_del k k' l :
  assoc k (assoc_del k' l) = if decide (k = k') then None else assoc k l.
Proof.
  induction l as [|[k2 v2] l IH]; simpl; [by case_decide|].
  destruct (decide (k' = k2)) as [->|Hne]; simpl; rewrite IH;
    repeat case_decide; congruence.
Qed.

Lemma length_assoc_del k l : (length (assoc_del k l) ≤ length l)%nat.
Proof. induction l as [|[k' v'] l IH]; simpl; [done|]. case_decide; simpl; lia. Qed.

Lemma length_assoc_del_lt k v l :
  assoc k l = Some v → (length (assoc_del k l) < length l)%nat.
Proof.
  induction l as [|[k' v'] l IH]; simpl; [done|].
  case_decide; simpl; [|intros ?%IH; lia].
  intros _. pose proof (length_assoc_del k l). lia.
Qed.
End assoc.

(** ** The interface *)

Class LruCache (K V C : Type) : Type := {
  lru_new : Z → C;
  lru_cap : C → Z;
  lru_iter : C → list (K * V);
  lru_peek : K → C → option V;
  (** [get_mut]: the value and the write-back of a new one; promotes the key. *)
  lru_get_mut : K → C → option (V * (V → C));
  lru_push : K → V → C → option (K * V) * C;
  lru_pop : K → C → option V * C;
  lru_pop_lru : C → option (K * V) * C;
  lru_peek_lru : C → option (K * V);
  lru_clear : C → C;
  (** Values the crate can produce. *)
  lru_wf : C → Prop;
}.

Class LruCacheOk (K V C : Type) `{EqDecision K, !LruCache K V C} : Prop := {
  lru_new_ok n : 0 < n →
    lru_wf (lru_new n) ∧ lru_iter (lru_new n) = [] ∧ lru_cap (lru_new n) = n;
  lru_keys c : lru_wf c → NoDup (lru_iter c).*1;
  lru_bounded c : lru_wf c → Z.of_nat (length (lru_iter c)) ≤ lru_cap c;
  lru_peek_ok k c : lru_wf c → lru_peek k c = assoc k (lru_iter c);
  lru_get_mut_none k c :
    lru_wf c → assoc k (lru_iter c) = None → lru_get_mut k c = None;
  lru_get_mut_some k c v :
    lru_wf c → assoc k (lru_iter c) = Some v →
    ∃ put, lru_get_mut k c = Some (v, put) ∧ ∀ v',
      lru_wf (put v') ∧ lru_cap (put v') = lru_cap c ∧
      lru_iter (put v') = (k, v') :: assoc_del k (lru_iter c);
  (** Pushing an absent key: the least recently used pair makes room. *)
  lru_push_room k v c :
    lru_wf c → assoc k (lru_iter c) = None →
    Z.of_nat (length (lru_iter c)) < lru_cap c →
    ∃ c', lru_push k v c = (None, c') ∧ lru_wf c' ∧ lru_cap c' = lru_cap c ∧
      lru_iter c' = (k, v) :: lru_iter c;
  lru_push_full k v c l x :
    lru_wf c → assoc k (lru_iter c) = None → lru_iter c = l ++ [x] →
    Z.of_nat (length (lru_iter c)) = lru_cap c →
    ∃ c', lru_push k v c = (Some x, c') ∧ lru_wf c' ∧ lru_cap c' = lru_cap c ∧
      lru_iter c' = (k, v) :: l;
  lru_pop_ok k c : lru_wf c →
    ∃ c', lru_pop k c = (assoc k (lru_iter c), c') ∧ lru_wf c' ∧
      lru_cap c' = lru_cap c ∧ lru_iter c' = assoc_del k (lru_iter c);
  lru_pop_lru_none c :
    lru_wf c → lru_iter c = [] → lru_peek_lru c = None;
  lru_pop_lru_some c l x : lru_wf c → lru_iter c = l ++ [x] →
    lru_peek_lru c = Some x ∧
    ∃ c', lru_pop_lru c = (Some x, c') ∧ lru_wf c' ∧ lru_cap c' = lru_cap c ∧
      lru_iter c' = l;
  lru_clear_ok c : lru_wf c →
    lru_wf (lru_clear c) ∧ lru_iter (lru_clear c) = [] ∧
    lru_cap (lru_clear c) = lru_cap c;
  lru_positive c : lru_wf c → 0 < lru_cap c;
}.

(** ** A list implementation *)

Record ListLru (K V : Type) : Type := mkListLru {
  ll_cap : Z;
  ll_items : list (K * V);
}.
Arguments mkListLru {K V}.
Arguments ll_cap {K V}.
Arguments ll_items {K V}.

Section list_lru.
Context {K V : Type} `{EqDecision K}.

Definition ll_split_last (l : list (K * V)) : option (list (K * V) * (K * V)) :=
  match last l with Some x => Some (take (length l - 1) l, x) | None => None end.

#[export] Instance list_lru : LruCache K V (ListLru K V) := {
  lru_new n := mkListLru n [];
  lru_cap := ll_cap;
  lru_iter := ll_items;
  lru_peek k c := assoc k (ll_items c);
  lru_get_mut k c :=
    match assoc k (ll_items c) with
    | Some v => Some (v, λ v', mkListLru (ll_cap c) ((k, v') :: assoc_del k (ll_items c)))
    | None => None
    end;
  lru_push k v c :=
    match assoc k (ll_items c) with
    | Some old => (Some (k, old), mkListLru (ll_cap c) ((k, v) :: assoc_del k (ll_items c)))
    | None =>
        if Z.of_nat (length (ll_items c)) <? ll_cap c then
          (None, mkListLru (ll_cap c) ((k, v) :: ll_items c))
        else
          match ll_split_last (ll_items c) with
          | Some (l, x) => (Some x, mkListLru (ll_cap c) ((k, v) :: l))
          | None => (None, mkListLru (ll_cap c) [(k, v)])
          end
    end;
  lru_pop k c := (assoc k (ll_items c), mkListLru (ll_cap c) (assoc_del k (ll_items c)));
  lru_pop_lru c :=
    match ll_split_last (ll_items c) with
    | Some (l, x) => (Some x, mkListLru (ll_cap c) l)
    | None => (None, c)
    end;
  lru_peek_lru c := last (ll_items c);
  lru_clear c := mkListLru (ll_cap c) [];
  lru_wf c := NoDup (ll_items c).*1 ∧ 0 < ll_cap c ∧
              Z.of_nat (length (ll_items c)) ≤ ll_cap c;
}.

Lemma ll_split_last_snoc l x : ll_split_last (l ++ [x]) = Some (l, x).
Proof.
  unfold ll_split_last. rewrite last_snoc, length_app. simpl.
  rewrite Nat.add_sub. by rewrite take_app_length.
Qed.

#[export] Instance list_lru_ok : LruCacheOk K V (ListLru K V).
Proof.
  split; simpl.
  - intros n Hn. split_and!; try done; [apply NoDup_nil_2|lia].
  - by intros c (? & ? & ?).
  - by intros c (? & ? & ?).
  - done.
  - by intros k c _ ->.
  - intros k c v (Hnd & Hc & Hb) Hk. rewrite Hk. eexists. split; [done|].
    intros v'. simpl. pose proof (length_assoc_del_lt _ _ _ Hk).
    split_and!; try done; [|lia]. apply NoDup_cons.
    split; [apply assoc_del_notin|by apply NoDup_assoc_del].
  - intros k v c (Hnd & Hc & Hb) Hk Hlt. rewrite Hk. rewrite (proj2 (Z.ltb_lt _ _)) by done.
    eexists. split; [done|]. simpl. split_and!; try done; [|lia].
    apply NoDup_cons. split; [by apply assoc_None_iff|done].
  - intros k v c l x (Hnd & Hc & Hb) Hk Hl Hlen. rewrite Hk.
    rewrite (proj2 (Z.ltb_ge _ _)) by lia. rewrite Hl, ll_split_last_snoc.
    eexists. split; [done|]. simpl. rewrite Hl in *. rewrite length_app in *. simpl in *.
    rewrite fmap_app in Hnd. apply NoDup_app in Hnd as (Hnd & _ & _).
    split_and!; try done; [|lia]. apply NoDup_cons. split; [|done].
    intros Hin. apply assoc_None_iff in Hk. apply Hk. rewrite fmap_app.
    apply elem_of_app. by left.
  - intros k c (Hnd & Hc & Hb). eexists. split; [done|]. simpl.
    pose proof (length_assoc_del k (ll_items c)).
    split_and!; try done; [by apply NoDup_assoc_del|lia].
  - by intros c _ ->.
  - intros c l x (Hnd & Hc & Hb) Hl. rewrite Hl, last_snoc, ll_split_last_snoc.
    split; [done|]. eexists. split; [done|]. simpl. rewrite Hl in *.
    rewrite length_app in *. simpl in *. rewrite fmap_app in Hnd.
    apply NoDup_app in Hnd as (Hnd & _ & _). split_and!; try done. lia.
  - intros c (_ & ? & _). split_and!; try done; [apply NoDup_nil_2|lia].
  - by intros c (_ & ? & _).
Qed.
End list_lru.
