(* ===== verification/World.v ===== *)
(** * World: the state shared by gate, watcher, fetches and handles

    [World] is what [Arc<GateState>], the entries, the fetches in flight and the
    clock hold between two atomic actions.  [Arc]s are identities: entries and
    fetches live in heaps indexed by allocation, and a handle is the identity of
    its entry.  [arc_swap] cells, atomics and mutex-protected values are fields
    read and written by the operations below; the subject map is the interface
    [LruCache].  The clock of the [TimeDriver] is a parameter: the sequence of
    instants its successive [now()] calls return. *)

From S2P Require Export Config Entry Lru.

Module AdmissionState.
Inductive t : Set := Allowed | Denied | Stale.
#[global] Instance eq_dec : EqDecision t.
Proof. solve_decision. Defined.
End AdmissionState.

(** Events of [trait PolicyGateMetrics]. *)
Module Metric.
Inductive t : Set :=
| denial | unavailable_rejection | snapshot_miss | map_hit | stream_cutoff
| snapshot_republish | unary_call | unary_failure | admission_retry
| admission_timeout | set_watch_connected (connected : bool) | watch_disconnect
| watch_open_failure | watch_event | wire_failure | missing_subject_rejection.
#[global] Instance eq_dec : EqDecision t.
Proof. solve_decision. Defined.
End Metric.

Definition FetchResult : Type := result unit DecisionSourceError.

(** Where the future of a [PendingFetch] stands.  [Done] is what every clone of
    the shared future returns from then on. *)
Module FetchPhase.
Inductive t : Type :=
| Start
| Delay (deadline : option Z)
| Lookup (first_poll : bool) (deadline : option Z)
| Done (r : result FetchResult unit).
End FetchPhase.

(** [PendingFetch] with the state of its future; [pf_aborted] is the flag of its
    [AbortHandle]. *)
Record PendingFetch (T P : Type) : Type := mkFetch {
  pf_entry : positive;
  pf_subject : T;
  pf_delay : option Z;
  pf_refresh_from : option (EntrySnapshot P);
  pf_aborted : bool;
  pf_phase : FetchPhase.t;
}.
Arguments mkFetch {T P}.
Arguments pf_entry {T P}.
Arguments pf_subject {T P}.
Arguments pf_delay {T P}.
Arguments pf_refresh_from {T P}.
Arguments pf_aborted {T P}.
Arguments pf_phase {T P}.

Definition pf_abort {T P} (f : PendingFetch T P) : PendingFetch T P :=
  mkFetch (pf_entry f) (pf_subject f) (pf_delay f) (pf_refresh_from f) true (pf_phase f).
Definition pf_set_phase {T P} (ph : FetchPhase.t) (f : PendingFetch T P) : PendingFetch T P :=
  mkFetch (pf_entry f) (pf_subject f) (pf_delay f) (pf_refresh_from f) (pf_aborted f) ph.

Record SubjectSlot : Type := mkSlot {
  slot_entry : positive;
  last_touched : Z;
}.

Record PublishState : Type := mkPublish {
  generation : Z;
  next_allowed : Z;
}.

(** [T] is the subject type, [P] the payload type, [C] the cache container. *)
Record World (T P C : Type) `{Countable T} : Type := mkWorld {
  w_config : PolicyGateConfig;
  w_connected : bool;
  w_sender_alive : bool;
  w_disconnected_since : option Z;
  w_subjects : C;
  w_activity_epoch : Z;
  w_snapshot : gmap T positive;
  w_publish : PublishState;
  w_shape_dirty : bool;
  w_refresh_queue : list positive;
  w_refresh_open : bool;
  w_entries : gmap positive (Entry P);
  w_fetches : gmap positive (PendingFetch T P);
  w_next : positive;
  w_clock : nat → Z;
  w_reads : nat;
  w_metrics : list Metric.t;
}.
Arguments mkWorld {T P C _ _}.
Arguments w_config {T P C _ _}.
Arguments w_connected {T P C _ _}.
Arguments w_sender_alive {T P C _ _}.
Arguments w_disconnected_since {T P C _ _}.
Arguments w_subjects {T P C _ _}.
Arguments w_activity_epoch {T P C _ _}.
Arguments w_snapshot {T P C _ _}.
Arguments w_publish {T P C _ _}.
Arguments w_shape_dirty {T P C _ _}.
Arguments w_refresh_queue {T P C _ _}.
Arguments w_refresh_open {T P C _ _}.
Arguments w_entries {T P C _ _}.
Arguments w_fetches {T P C _ _}.
Arguments w_next {T P C _ _}.
Arguments w_clock {T P C _ _}.
Arguments w_reads {T P C _ _}.
Arguments w_metrics {T P C _ _}.

Section world.
Context {T P C : Type} `{Countable T}.
Implicit Types (w : World T P C) (e f : positive).

Definition set_connected (v : bool) w : World T P C :=
  mkWorld (w_config w) v (w_sender_alive w) (w_disconnected_since w)
    (w_subjects w) (w_activity_epoch w) (w_snapshot w) (w_publish w)
    (w_shape_dirty w) (w_refresh_queue w) (w_refresh_open w) (w_entries w)
    (w_fetches w) (w_next w) (w_clock w) (w_reads w) (w_metrics w).
Definition set_sender_alive (v : bool) w : World T P C :=
  mkWorld (w_config w) (w_connected w) v (w_disconnected_since w) (w_subjects w)
    (w_activity_epoch w) (w_snapshot w) (w_publish w) (w_shape_dirty w)
    (w_refresh_queue w) (w_refresh_open w) (w_entries w) (w_fetches w)
    (w_next w) (w_clock w) (w_reads w) (w_metrics w).
Definition set_disconnected_since (v : option Z) w : World T P C :=
  mkWorld (w_config w) (w_connected w) (w_sender_alive w) v (w_subjects w)
    (w_activity_epoch w) (w_snapshot w) (w_publish w) (w_shape_dirty w)
    (w_refresh_queue w) (w_refresh_open w) (w_entries w) (w_fetches w)
    (w_next w) (w_clock w) (w_reads w) (w_metrics w).
Definition set_subjects (v : C) w : World T P C :=
  mkWorld (w_config w) (w_connected w) (w_sender_alive w)
    (w_disconnected_since w) v (w_activity_epoch w) (w_snapshot w) (w_publish w)
    (w_shape_dirty w) (w_refresh_queue w) (w_refresh_open w) (w_entries w)
    (w_fetches w) (w_next w) (w_clock w) (w_reads w) (w_metrics w).
Definition set_snapshot (v : gmap T positive) w : World T P C :=
  mkWorld (w_config w) (w_connected w) (w_sender_alive w)
    (w_disconnected_since w) (w_subjects w) (w_activity_epoch w) v (w_publish w)
    (w_shape_dirty w) (w_refresh_queue w) (w_refresh_open w) (w_entries w)
    (w_fetches w) (w_next w) (w_clock w) (w_reads w) (w_metrics w).
Definition set_publish (v : PublishState) w : World T P C :=
  mkWorld (w_config w) (w_connected w) (w_sender_alive w)
    (w_disconnected_since w) (w_subjects w) (w_activity_epoch w) (w_snapshot w)
    v (w_shape_dirty w) (w_refresh_queue w) (w_refresh_open w) (w_entries w)
    (w_fetches w) (w_next w) (w_clock w) (w_reads w) (w_metrics w).
Definition set_shape_dirty (v : bool) w : World T P C :=
  mkWorld (w_config w) (w_connected w) (w_sender_alive w)
    (w_disconnected_since w) (w_subjects w) (w_activity_epoch w) (w_snapshot w)
    (w_publish w) v (w_refresh_queue w) (w_refresh_open w) (w_entries w)
    (w_fetches w) (w_next w) (w_clock w) (w_reads w) (w_metrics w).
Definition set_refresh_queue (v : list positive) w : World T P C :=
  mkWorld (w_config w) (w_connected w) (w_sender_alive w)
    (w_disconnected_since w) (w_subjects w) (w_activity_epoch w) (w_snapshot w)
    (w_publish w) (w_shape_dirty w) v (w_refresh_open w) (w_entries w)
    (w_fetches w) (w_next w) (w_clock w) (w_reads w) (w_metrics w).
Definition set_refresh_open (v : bool) w : World T P C :=
  mkWorld (w_config w) (w_connected w) (w_sender_alive w)
    (w_disconnected_since w) (w_subjects w) (w_activity_epoch w) (w_snapshot w)
    (w_publish w) (w_shape_dirty w) (w_refresh_queue w) v (w_entries w)
    (w_fetches w) (w_next w) (w_clock w) (w_reads w) (w_metrics w).
Definition set_entries (v : gmap positive (Entry P)) w : World T P C :=
  mkWorld (w_config w) (w_connected w) (w_sender_alive w)
    (w_disconnected_since w) (w_subjects w) (w_activity_epoch w) (w_snapshot w)
    (w_publish w) (w_shape_dirty w) (w_refresh_queue w) (w_refresh_open w) v
    (w_fetches w) (w_next w) (w_clock w) (w_reads w) (w_metrics w).
Definition set_fetches (v : gmap positive (PendingFetch T P)) w : World T P C :=
  mkWorld (w_config w) (w_connected w) (w_sender_alive w)
    (w_disconnected_since w) (w_subjects w) (w_activity_epoch w) (w_snapshot w)
    (w_publish w) (w_shape_dirty w) (w_refresh_queue w) (w_refresh_open w)
    (w_entries w) v (w_next w) (w_clock w) (w_reads w) (w_metrics w).
Definition set_next (v : positive) w : World T P C :=
  mkWorld (w_config w) (w_connected w) (w_sender_alive w)
    (w_disconnected_since w) (w_subjects w) (w_activity_epoch w) (w_snapshot w)
    (w_publish w) (w_shape_dirty w) (w_refresh_queue w) (w_refresh_open w)
    (w_entries w) (w_fetches w) v (w_clock w) (w_reads w) (w_metrics w).
Definition set_reads (v : nat) w : World T P C :=
  mkWorld (w_config w) (w_connected w) (w_sender_alive w)
    (w_disconnected_since w) (w_subjects w) (w_activity_epoch w) (w_snapshot w)
    (w_publish w) (w_shape_dirty w) (w_refresh_queue w) (w_refresh_open w)
    (w_entries w) (w_fetches w) (w_next w) (w_clock w) v (w_metrics w).
Definition set_metrics (v : list Metric.t) w : World T P C :=
  mkWorld (w_config w) (w_connected w) (w_sender_alive w)
    (w_disconnected_since w) (w_subjects w) (w_activity_epoch w) (w_snapshot w)
    (w_publish w) (w_shape_dirty w) (w_refresh_queue w) (w_refresh_open w)
    (w_entries w) (w_fetches w) (w_next w) (w_clock w) (w_reads w) v.

(** ** Primitive actions *)

Definition D_now : M (World T P C) Z := λ w,
  Some (w_clock w (w_reads w), set_reads (S (w_reads w)) w).

Definition alloc : M (World T P C) positive := λ w,
  Some (w_next w, set_next (Pos.succ (w_next w)) w).

Definition emit (m : Metric.t) : M (World T P C) unit :=
  modify (λ w, set_metrics (w_metrics w ++ [m]) w).

(** An [Arc] never dangles: a missing allocation is a panic here, and
    [Invariant] shows that it does not happen. *)
Definition load_entry e : M (World T P C) (Entry P) := λ w,
  expect (w_entries w !! e) w.

Definition with_entry {A} e (op : Entry P → A * Entry P) : M (World T P C) A := λ w,
  match w_entries w !! e with
  | Some en => let (a, en') := op en in Some (a, set_entries (<[e := en']> (w_entries w)) w)
  | None => None
  end.

Definition with_fetch {A} f (op : PendingFetch T P → A * PendingFetch T P) :
    M (World T P C) A := λ w,
  match w_fetches w !! f with
  | Some pf => let (a, pf') := op pf in Some (a, set_fetches (<[f := pf']> (w_fetches w)) w)
  | None => None
  end.

(** ** [PendingFetch] *)

Definition pending_fetch_abort f : M (World T P C) unit :=
  with_fetch f (λ pf, (tt, pf_abort pf)).

(** ** [Entry] methods on the shared heap *)

Definition entry_current_at e (now : Z) : M (World T P C) (EntrySnapshot P * bool) :=
  fresh ← alloc;
  with_entry e (λ en, current_at en now fresh).

Definition entry_state_at e (now : Z) : M (World T P C) EntryState.t :=
  sx ← entry_current_at e now;
  mret (state_of sx).

(** The [unreachable!] arm of the source panics. *)
Definition entry_observed_at e (now : Z) : M (World T P C) Observed.t :=
  sx ← entry_current_at e now;
  expect (observed_of sx).

Definition entry_verdict_at e (now : Z) : M (World T P C) (option Decision.t) :=
  sx ← entry_current_at e now;
  mret (verdict_of sx).

Definition entry_compare_exchange e (expected : EntryState.t) (next : EntrySnapshot P) :
    M (World T P C) (result unit EntryState.t) :=
  with_entry e (compare_exchange expected next).

Definition entry_swap_current e (old next : EntrySnapshot P) : M (World T P C) bool :=
  with_entry e (swap_current old next).

Definition entry_pending_operation e : M (World T P C) (option positive) :=
  en ← load_entry e;
  mret (pending en).

Definition entry_pending_generation e (generation_ : positive) :
    M (World T P C) (option positive) :=
  p ← entry_pending_operation e;
  mret (match p with
        | Some f => if bool_decide (f = generation_) then Some f else None
        | None => None
        end).

Definition entry_pending_is e f : M (World T P C) bool :=
  p ← entry_pending_operation e;
  mret (bool_decide (p = Some f)).

(** [compare_and_swap] on [pending]: the claim of a free slot, and the
    replacement of the caller's own generation. *)
Definition entry_claim_pending e f : M (World T P C) bool :=
  with_entry e (λ en,
    match pending en with
    | None => (true, set_pending (Some f) en)
    | Some _ => (false, en)
    end).

Definition entry_replace_pending e (generation_ : positive) (replacement : option positive) :
    M (World T P C) bool :=
  cur ← entry_pending_generation e generation_;
  match cur with
  | None => mret false
  | Some cur =>
      with_entry e (λ en,
        if bool_decide (pending en = Some cur)
        then (true, set_pending replacement en)
        else (false, en))
  end.

Definition entry_abort_pending e : M (World T P C) unit :=
  p ← with_entry e (λ en, (pending en, set_pending None en));
  match p with
  | Some f => pending_fetch_abort f
  | None => mret tt
  end.

Definition entry_invalidate e : M (World T P C) unit :=
  fresh ← alloc;
  _ ← with_entry e (invalidate_current fresh);
  entry_abort_pending e.

(** [Entry::admission]: a handle is the identity of its entry. *)
Definition entry_admission e : M (World T P C) (option positive) :=
  now ← D_now;
  verdict ← entry_verdict_at e now;
  mret (match verdict with Some _ => Some e | None => None end).

(** ** [Admission] methods *)

Definition admission_observe e : M (World T P C) Observed.t :=
  now ← D_now;
  entry_observed_at e now.

Definition admission_state e : M (World T P C) AdmissionState.t :=
  o ← admission_observe e;
  mret (match o with
        | Observed.Allowed => AdmissionState.Allowed
        | Observed.Denied => AdmissionState.Denied
        | Observed.Expired | Observed.Stale => AdmissionState.Stale
        end).

Definition admission_is_allowed e : M (World T P C) bool :=
  s ← admission_state e;
  mret (bool_decide (s = AdmissionState.Allowed)).

Definition admission_check e : M (World T P C) (AdmissionState.t * bool) :=
  now ← D_now;
  sx ← entry_current_at e now;
  let (current_, expired) := sx : EntrySnapshot P * bool in
  if expired then mret (AdmissionState.Stale, false)
  else
    s ← expect (match decode_entry_state (sn_word current_) with
                | EntryState.Allowed => Some AdmissionState.Allowed
                | EntryState.Denied => Some AdmissionState.Denied
                | EntryState.Stale => Some AdmissionState.Stale
                | EntryState.Pending => None
                end);
    en ← load_entry e;
    mret (s, refresh_due_at en current_ now).

Definition admission_payload e : M (World T P C) (option P) :=
  now ← D_now;
  sx ← entry_current_at e now;
  let (current_, expired) := sx : EntrySnapshot P * bool in
  mret (if negb expired
           && bool_decide (decode_entry_state (sn_word current_) = EntryState.Allowed)
        then sn_payload current_ else None).

Definition admission_invalidate e : M (World T P C) unit := entry_invalidate e.
End world.
