(* ===== verification/Metrics.v ===== *)
(** * Metrics: sinks of the gate's events ([src/metrics.rs])

    The model of the gate records its calls of [PolicyGateMetrics] as a list; here
    is what the two implementations of the crate make of that list. *)

From S2P Require Export World.

Section metrics.
Context {St : Type}.

(** The trait, over the state that an implementation keeps. *)
Record PolicyGateMetrics : Type := mkMetrics {
  m_denial : St → St;
  m_unavailable_rejection : St → St;
  m_snapshot_miss : St → St;
  m_map_hit : St → St;
  m_stream_cutoff : St → St;
  m_snapshot_republish : St → St;
  m_unary_call : St → St;
  m_unary_failure : St → St;
  m_admission_retry : St → St;
  m_admission_timeout : St → St;
  m_set_watch_connected : bool → St → St;
  m_watch_disconnect : St → St;
  m_watch_open_failure : St → St;
  m_watch_event : St → St;
  m_wire_failure : St → St;
  m_missing_subject_rejection : St → St;
}.

(** The provided methods do nothing, and [NoopPolicyGateMetrics] provides none. *)
Definition NoopPolicyGateMetrics : PolicyGateMetrics :=
  mkMetrics id id id id id id id id id id (λ _, id) id id id id id.

(** [impl PolicyGateMetrics for Arc<M>]. *)
Definition arc_metrics (m : PolicyGateMetrics) : PolicyGateMetrics := {|
  m_denial := m_denial m;
  m_unavailable_rejection := m_unavailable_rejection m;
  m_snapshot_miss := m_snapshot_miss m;
  m_map_hit := m_map_hit m;
  m_stream_cutoff := m_stream_cutoff m;
  m_snapshot_republish := m_snapshot_republish m;
  m_unary_call := m_unary_call m;
  m_unary_failure := m_unary_failure m;
  m_admission_retry := m_admission_retry m;
  m_admission_timeout := m_admission_timeout m;
  m_set_watch_connected := m_set_watch_connected m;
  m_watch_disconnect := m_watch_disconnect m;
  m_watch_open_failure := m_watch_open_failure m;
  m_watch_event := m_watch_event m;
  m_wire_failure := m_wire_failure m;
  m_missing_subject_rejection := m_missing_subject_rejection m;
|}.

(** The call that an event stands for. *)
Definition report (m : PolicyGateMetrics) (event : Metric.t) : St → St :=
  match event with
  | Metric.denial => m_denial m
  | Metric.unavailable_rejection => m_unavailable_rejection m
  | Metric.snapshot_miss => m_snapshot_miss m
  | Metric.map_hit => m_map_hit m
  | Metric.stream_cutoff => m_stream_cutoff m
  | Metric.snapshot_republish => m_snapshot_republish m
  | Metric.unary_call => m_unary_call m
  | Metric.unary_failure => m_unary_failure m
  | Metric.admission_retry => m_admission_retry m
  | Metric.admission_timeout => m_admission_timeout m
  | Metric.set_watch_connected b => m_set_watch_connected m b
  | Metric.watch_disconnect => m_watch_disconnect m
  | Metric.watch_open_failure => m_watch_open_failure m
  | Metric.watch_event => m_watch_event m
  | Metric.wire_failure => m_wire_failure m
  | Metric.missing_subject_rejection => m_missing_subject_rejection m
  end.

Definition reports (m : PolicyGateMetrics) (events : list Metric.t) (st : St) : St :=
  fold_left (λ st event, report m event st) events st.

(** A shared sink ends in the state of the sink it shares, event by event; the
    no-op sink stays as it is. *)
Lemma sinks_agree m events st :
  reports (arc_metrics m) events st = reports m events st ∧
  reports NoopPolicyGateMetrics events st = st.
Proof.
  revert st. induction events as [|event events IH]; intros st; simpl; [done|].
  destruct (IH (report m event st)) as [<- _]. destruct (IH st) as [_ Hn].
  split; [by destruct event|]. by destruct event.
Qed.
End metrics.
Arguments PolicyGateMetrics : clear implicits.

(** A method of the gate that only emits adds its calls to those made before. *)
Lemma emit_reports {T P C St : Type} `{Countable T} (m : PolicyGateMetrics St) event
    (w w' : World T P C) u st :
  emit event w = Some (u, w') → reports m (w_metrics w') st = report m event (reports m (w_metrics w) st).
Proof.
  intros [= <- <-]. unfold reports. simpl. by rewrite fold_left_app.
Qed.
