(* ===== verification/SubjectMap.v ===== *)
(** * SubjectMap: the bounded, TTL-evicted subject map ([src/gate.rs])

    Each method runs under the map's mutex, so it is one atomic action.  Entries
    that leave the map are invalidated by the method that removes them. *)

From S2P Require Export World.

Section subject_map.
Context {T P C : Type} `{Countable T, !LruCache T SubjectSlot C}.
Abbreviation G := (M (World T P C)).
Implicit Types (subject : T) (entry : positive) (now : Z).

(** The cache of [SubjectMap::new], whose other fields are fields of the world; [None] is
    the panic of the [expect] for a capacity of zero. *)
Definition subject_map_new (max_subjects_ : Z) : option C :=
  if max_subjects_ =? 0 then None else Some (lru_new max_subjects_).

(** [SubjectSlot::touch]. *)
Definition slot_touch (tick_ : Z) (slot : SubjectSlot) : SubjectSlot :=
  mkSlot (slot_entry slot) (Z.max (last_touched slot) tick_).

(** [SubjectMap::tick]. *)
Definition map_tick_at (activity_epoch now : Z) : Z :=
  u64_of_nanos (Instant.saturating_duration_since now activity_epoch).

Definition map_tick now : G Z :=
  gets (λ w, map_tick_at (w_activity_epoch w) now).

Definition put_subjects (c : C) : G unit := modify (set_subjects c).

Definition mark_shape_dirty : G unit := modify (set_shape_dirty true).

(** The eviction test on the least recently used slot. *)
Definition slot_expired (subject_ttl_ now : Z) (slot : SubjectSlot) : bool :=
  u64_of_nanos subject_ttl_ <? u64_saturating_sub now (last_touched slot).

(** [SubjectMap::evict].  Every iteration pops one slot, so the number of slots
    bounds the loop. *)
Fixpoint evict_loop (fuel : nat) (now : Z) : G unit :=
  match fuel with
  | O => mret tt
  | S fuel =>
      entries ← gets w_subjects;
      ttl ← gets (λ w, subject_ttl (w_config w));
      match lru_peek_lru entries with
      | Some (_, slot) =>
          if slot_expired ttl now slot then
            let (popped, entries) := lru_pop_lru entries in
            match popped with
            | None => mret tt
            | Some (_, slot) =>
                _ ← put_subjects entries;
                _ ← entry_invalidate (slot_entry slot);
                _ ← mark_shape_dirty;
                evict_loop fuel now
            end
          else mret tt
      | None => mret tt
      end
  end.

Definition evict (now : Z) : G unit :=
  entries ← gets w_subjects;
  evict_loop (length (lru_iter entries)) now.

(** [entries.push] and the invalidation of the slot it displaces. *)
Definition map_push subject (slot : SubjectSlot) : G unit :=
  entries ← gets w_subjects;
  let (evicted, entries) := lru_push subject slot entries in
  _ ← put_subjects entries;
  match evicted with
  | Some (_, slot) =>
      _ ← entry_invalidate (slot_entry slot);
      mark_shape_dirty
  | None => mret tt
  end.

(** The flag of the result is the one the only caller's closure sets when it
    runs. *)
Definition get_or_insert_with subject now (create : G positive) : G (positive * bool) :=
  tick_ ← map_tick now;
  entries ← gets w_subjects;
  match lru_get_mut subject entries with
  | Some (slot, put) =>
      _ ← put_subjects (put (slot_touch tick_ slot));
      _ ← evict tick_;
      mret (slot_entry slot, false)
  | None =>
      _ ← evict tick_;
      entry ← create;
      _ ← map_push subject (mkSlot entry tick_);
      _ ← evict tick_;
      mret (entry, true)
  end.

Definition map_touch subject entry now : G bool :=
  tick_ ← map_tick now;
  entries ← gets w_subjects;
  let matched :=
    match lru_peek subject entries with
    | Some slot => bool_decide (slot_entry slot = entry)
    | None => false
    end in
  _ ← (if matched then
         '(slot, put) ← expect (lru_get_mut subject entries);
         put_subjects (put (slot_touch tick_ slot))
       else mret tt);
  _ ← evict tick_;
  mret matched.

Definition map_update subject now (update : positive → G unit) : G unit :=
  tick_ ← map_tick now;
  _ ← evict tick_;
  entries ← gets w_subjects;
  match lru_peek subject entries with
  | Some slot => update (slot_entry slot)
  | None => mret tt
  end.

(** [pop] followed by the invalidation of the popped slot. *)
Definition pop_and_invalidate subject : G bool :=
  entries ← gets w_subjects;
  let (popped, entries) := lru_pop subject entries in
  _ ← put_subjects entries;
  match popped with
  | Some slot =>
      _ ← entry_invalidate (slot_entry slot);
      mret true
  | None => mret false
  end.

Definition map_remove subject now : G bool :=
  tick_ ← map_tick now;
  _ ← evict tick_;
  pop_and_invalidate subject.

Definition map_remove_if subject now (predicate : positive → G bool) : G bool :=
  tick_ ← map_tick now;
  _ ← evict tick_;
  entries ← gets w_subjects;
  found ← match lru_peek subject entries with
          | Some slot => predicate (slot_entry slot)
          | None => mret false
          end;
  if found : bool then pop_and_invalidate subject else mret false.

(** [SubjectMap::for_each], collecting what the visitor of the only caller
    inserts. *)
Definition map_copy : G (gmap T positive) :=
  gets (λ w, list_to_map ((λ kv, (kv.1, slot_entry kv.2)) <$> lru_iter (w_subjects w))).

Fixpoint invalidate_all (slots : list (T * SubjectSlot)) : G unit :=
  match slots with
  | [] => mret tt
  | (_, slot) :: slots =>
      _ ← entry_invalidate (slot_entry slot);
      invalidate_all slots
  end.

Definition map_clear : G unit :=
  entries ← gets w_subjects;
  _ ← invalidate_all (lru_iter entries);
  put_subjects (lru_clear entries).
End subject_map.
