(* ===== verification/Gate.v ===== *)
(** * Gate: [GateState] and the fetches it starts ([src/gate.rs])

    Synchronous methods are one atomic action or a sequence of them.  The async
    methods are split at their awaits: [access_begin] runs
    [admission_on_access] up to its only await and [access_poll] resumes it;
    [fetch_poll] is one poll of the shared future of a [PendingFetch]. *)

From S2P Require Export SubjectMap.

(** How [admission_on_access] leaves its synchronous part: finished, or holding
    the claim of [fetch] on [entry] while it waits for queue capacity. *)
Module Access.
Inductive t : Type :=
| Done (admission : option positive)
| Enqueue (entry fetch : positive) (queue_deadline : Z).
End Access.

Section gate.
Context {T P C : Type} `{Countable T, !LruCache T SubjectSlot C, TimeDriver}.
Abbreviation G := (M (World T P C)).
Implicit Types (subject : T) (entry fetch : positive) (now : Z).

(** [GateState::new] with [SubjectMap::new] and the connectivity channel of
    [PolicyGate::new_with_metrics_and_time_driver]: nothing is known, nothing is
    connected, and the outage starts now. *)
Definition gate_new (config : PolicyGateConfig) (clock : nat → Z) : World T P C :=
  let now := clock O in
  mkWorld config false true (Some now) (lru_new (max_subjects config)) now ∅
    (mkPublish 0 now) false [] true ∅ ∅ 1 clock 1 [].

(** Where the constructor panics: a tokio channel has no capacity zero and none above
    [Semaphore::MAX_PERMITS], documented as [usize::MAX >> 3], and the subject map has
    no capacity zero. *)
Definition MAX_PERMITS : Z := Z.shiftr u64_max 3.

Definition refresh_channel_new (capacity : Z) : option (list positive) :=
  if (capacity =? 0) || (MAX_PERMITS <? capacity) then None else Some [].

Definition gate_state_new (config : PolicyGateConfig) (clock : nat → Z) : option (World T P C) :=
  match refresh_channel_new (refresh_queue_capacity config) with
  | None => None
  | Some _ =>
      match subject_map_new (T:=T) (C:=C) (max_subjects config) with
      | None => None
      | Some _ => Some (gate_new config clock)
      end
  end.

(** ** Snapshots of decisions *)

(** [decision_snapshot] with the clock reading and the allocation as arguments;
    the sum is a plain [u64] addition. *)
Definition decision_snapshot_at (freshness_ttl : Z) (ptr : positive) (en : Entry P)
    (now : Z) (r : DecisionResult P) : EntrySnapshot P :=
  let configured := deadline_after en now freshness_ttl in
  let deadline :=
    match valid_until r with
    | Some cap => Z.min configured (tick en cap)
    | None => configured
    end in
  let remaining := u64_saturating_sub deadline (tick en now) in
  let refresh_after :=
    if remaining <=? refresh_before en
    then u64_wrap (tick en now + u64_div_ceil remaining 2)
    else 0 in
  mkSnapshot ptr (word (EntryState.from (decision r)) deadline)
    (if bool_decide (decision r = Decision.Allowed) then payload r else None)
    refresh_after.

Definition decision_snapshot entry (r : DecisionResult P) : G (EntrySnapshot P) :=
  now ← D_now;
  en ← load_entry entry;
  ttl ← gets (λ w, decision_freshness_ttl (w_config w));
  ptr ← alloc;
  mret (decision_snapshot_at ttl ptr en now r).

(** ** Connectivity *)

Definition publish_empty (after_publish : G unit) : G unit :=
  p ← gets w_publish;
  _ ← modify (set_publish (mkPublish (u64_wrap (generation p + 1)) (next_allowed p)));
  _ ← modify (set_snapshot ∅);
  after_publish.

Definition mark_disconnected : G unit :=
  since ← gets w_disconnected_since;
  match since with
  | None => now ← D_now; modify (set_disconnected_since (Some now))
  | Some _ => mret tt
  end.

(** The [expect] on the two sends to the connectivity channel cannot fail: they fail
    when no receiver is left, and the gate that runs them holds one. *)
Definition watch_connected : G unit :=
  _ ← publish_empty (mret tt);
  _ ← map_clear;
  _ ← modify (set_connected true);
  emit (Metric.set_watch_connected true).

Definition watch_stable : G unit := modify (set_disconnected_since None).

Definition watch_disconnected : G unit :=
  _ ← publish_empty (
    _ ← modify (set_connected false);
    _ ← emit (Metric.set_watch_connected false);
    mark_disconnected);
  map_clear.

(** ** Snapshot publication

    The three critical sections of [republish_if_due]. *)

Definition republish_claim : G (option Z) :=
  dirty ← gets w_shape_dirty;
  if negb dirty then mret None
  else
    p ← gets w_publish;
    now ← D_now;
    if now <? next_allowed p then mret None
    else
      interval ← gets (λ w, snapshot_republish_interval (w_config w));
      next ← expect (Instant.checked_add now interval);
      _ ← modify (set_publish (mkPublish (generation p) next));
      mret (Some (generation p)).

Definition republish_copy : G (gmap T positive) :=
  _ ← modify (set_shape_dirty false);
  map_copy.

Definition republish_store (claimed : Z) (entries : gmap T positive) : G unit :=
  p ← gets w_publish;
  connected ← gets w_connected;
  if (generation p =? claimed) && connected then
    _ ← modify (set_snapshot entries);
    emit Metric.snapshot_republish
  else mret tt.

Definition republish_if_due : G unit :=
  claimed ← republish_claim;
  match claimed with
  | None => mret tt
  | Some claimed =>
      entries ← republish_copy;
      republish_store claimed entries
  end.

(** ** Watch changes *)

(** The loop of [apply_change].  [fuel] bounds the retries; without another
    thread's store between the load and the exchange the first one succeeds. *)
Fixpoint apply_change_loop (fuel : nat) entry (d : Decision.t) : G unit :=
  match fuel with
  | O => panic
  | S fuel =>
      en ← load_entry entry;
      let cur := decode_entry_state (sn_word (current en)) in
      next ← decision_snapshot entry (mkDecisionResult d None None);
      r ← entry_compare_exchange entry cur next;
      match r with
      | Ok _ => entry_abort_pending entry
      | Err _ => apply_change_loop fuel entry d
      end
  end.

Definition apply_change (change : DecisionChange T) : G unit :=
  match change_decision change with
  | Some d =>
      now ← D_now;
      _ ← map_update (change_subject change) now (λ entry, apply_change_loop 1 entry d);
      republish_if_due
  | None =>
      now ← D_now;
      removed ← map_remove (change_subject change) now;
      _ ← (if removed : bool then mark_shape_dirty else mret tt);
      republish_if_due
  end.

(** ** Starting fetches and refreshes *)

Definition new_fetch_after entry subject (delay : option Z)
    (refresh_from : option (EntrySnapshot P)) : G positive :=
  f ← alloc;
  _ ← modify (λ w, set_fetches
        (<[f := mkFetch entry subject delay refresh_from false FetchPhase.Start]>
           (w_fetches w)) w);
  mret f.

(** The closure [admit] passes to [get_or_insert_with]: [Arc::new_cyclic] hands
    the fetch a weak reference to the entry being built. *)
Definition create_pending_entry subject now : G positive :=
  entry ← alloc;
  fetch ← new_fetch_after entry subject None None;
  ptr ← alloc;
  refresh ← gets (λ w, refresh_before_expiry (w_config w));
  _ ← modify (λ w, set_entries
        (<[entry := pending_entry ptr now fetch refresh]> (w_entries w)) w);
  mret entry.

(** Drop of a [PendingEnqueueGuard] that was not marked queued. *)
Definition release_claim entry fetch : G unit :=
  _ ← entry_replace_pending entry fetch None;
  mret tt.

(** The guard itself, while [admission_on_access] holds it. *)
Record PendingEnqueueGuard : Type := mkGuard {
  guard_entry : positive;
  guard_generation : positive;
  guard_queued : bool;
}.

Definition mark_queued (guard : PendingEnqueueGuard) : PendingEnqueueGuard :=
  mkGuard (guard_entry guard) (guard_generation guard) true.

Definition guard_drop (guard : PendingEnqueueGuard) : G unit :=
  if guard_queued guard then mret tt
  else release_claim (guard_entry guard) (guard_generation guard).

Definition access_begin subject entry (admission_deadline : option Z) : G Access.t :=
  admission ← entry_admission entry;
  match admission with
  | None => mret (Access.Done None)
  | Some admission =>
      cfg ← gets w_config;
      if Duration.is_zero (refresh_before_expiry cfg)
      then mret (Access.Done (Some admission))
      else
        en ← load_entry entry;
        let cur := current en in
        access_time ← D_now;
        en ← load_entry entry;
        if refresh_due_at en cur access_time then
          let queue_deadline :=
            match Instant.checked_add access_time (refresh_enqueue_timeout cfg) with
            | Some deadline =>
                Some (match admission_deadline with
                      | Some outer => Z.min deadline outer
                      | None => deadline
                      end)
            | None => admission_deadline
            end in
          match queue_deadline with
          | None => mret (Access.Done (Some admission))
          | Some queue_deadline =>
              refresh ← new_fetch_after entry subject None (Some cur);
              claimed ← entry_claim_pending entry refresh;
              if claimed : bool then
                en ← load_entry entry;
                valid ← (if bool_decide (sn_ptr (current en) = sn_ptr cur) then
                           now ← D_now;
                           mret (refresh_eligible_at en cur now)
                         else mret false);
                if valid : bool then mret (Access.Enqueue entry refresh queue_deadline)
                else
                  r ← entry_admission entry;
                  _ ← release_claim entry refresh;
                  mret (Access.Done r)
              else mret (Access.Done (Some admission))
          end
        else mret (Access.Done (Some admission))
  end.

(** One poll of [timeout_at(queue_deadline, refresh_tx.send(..))].  [send] is
    what the bounded channel answers: no capacity yet, accepted, or closed. *)
Definition access_poll (first_poll : bool) entry fetch (queue_deadline : Z)
    (send : Poll.t (result unit unit)) : G (Poll.t (option positive)) :=
  now ← D_now;
  match timeout_at_poll first_poll queue_deadline now send with
  | Poll.Pending => mret Poll.Pending
  | Poll.Ready (Ok (Ok _)) =>
      _ ← modify (λ w, set_refresh_queue (w_refresh_queue w ++ [fetch]) w);
      r ← entry_admission entry;
      mret (Poll.Ready r)
  | Poll.Ready _ =>
      r ← entry_admission entry;
      _ ← release_claim entry fetch;
      mret (Poll.Ready r)
  end.

(** The future is dropped while it waits: the guard releases the claim. *)
Definition access_cancel entry fetch : G unit := release_claim entry fetch.

(** The same poll in terms of the guard: it is marked if the queue took the refresh, and
    dropped after the handle was read; and the drop of the future is its drop. *)
Lemma access_poll_guard first_poll entry fetch queue_deadline send w :
  access_poll first_poll entry fetch queue_deadline send w =
  (now ← D_now;
   let guard := mkGuard entry fetch false in
   match timeout_at_poll first_poll queue_deadline now send with
   | Poll.Pending => mret Poll.Pending
   | Poll.Ready sent =>
       guard ← (match sent with
                | Ok (Ok _) =>
                    _ ← modify (λ w, set_refresh_queue (w_refresh_queue w ++ [fetch]) w);
                    mret (mark_queued guard)
                | _ => mret guard
                end);
       r ← entry_admission entry;
       _ ← guard_drop guard;
       mret (Poll.Ready r)
   end) w.
Proof.
  unfold access_poll, mbind, M_bind. simpl.
  by destruct (timeout_at_poll _ _ _ _) as [[[u|u]|u]|].
Qed.

Lemma access_cancel_guard entry fetch : access_cancel entry fetch = guard_drop (mkGuard entry fetch false).
Proof. done. Qed.

(** ** Cached reads *)

(** [check] up to the await of [admission_on_access]. *)
Definition check_begin subject : G Access.t :=
  snapshot ← gets w_snapshot;
  match snapshot !! subject with
  | None => mret (Access.Done None)
  | Some entry =>
      now ← D_now;
      verdict ← entry_verdict_at entry now;
      match verdict with
      | None => mret (Access.Done None)
      | Some _ =>
          now ← D_now;
          _ ← map_touch subject entry now;
          access_begin subject entry None
      end
  end.

Definition check_without_refresh subject : G (option positive) :=
  snapshot ← gets w_snapshot;
  match snapshot !! subject with
  | None => mret None
  | Some entry =>
      now ← D_now;
      verdict ← entry_verdict_at entry now;
      match verdict with
      | None => mret None
      | Some _ =>
          now ← D_now;
          _ ← map_touch subject entry now;
          entry_admission entry
      end
  end.

Definition refresh_entry_begin subject entry : G Access.t :=
  now ← D_now;
  touched ← map_touch subject entry now;
  if touched : bool then access_begin subject entry None else mret (Access.Done None).
End gate.
