(* ===== verification/Fetch.v ===== *)
(** * Fetch: the shared lookup of a [PendingFetch] ([src/gate.rs])

    [fetch_poll] is one poll of the future built by [new_fetch_after]: cooldown
    sleep, bounded lookup, validation, publication through
    [apply_fetch_result], metrics.  The source's behaviour in that poll and
    whether the weak references still upgrade are arguments. *)

From S2P Require Export Gate.

Definition transient (msg : string) : DecisionSourceError :=
  mkSourceError DecisionSourceErrorKind.Transient msg.

Section fetch.
Context {T P C : Type} `{Countable T, !LruCache T SubjectSlot C, TimeDriver}.
Abbreviation G := (M (World T P C)).
Implicit Types (subject : T) (entry fetch : positive) (now : Z).

Definition forget {A} (r : result A DecisionSourceError) : FetchResult :=
  result_map (λ _, tt) r.

(** The refresh arm: publish over the snapshot the refresh started from, or
    start the failure cooldown; in both cases give up the claim. *)
Definition apply_refresh_result entry fetch now (cur : EntrySnapshot P)
    (r : result (EntrySnapshot P) DecisionSourceError) : G FetchResult :=
  en ← load_entry entry;
  _ ← match r with
      | Ok snapshot =>
          if negb (is_expired_at en (sn_word cur) now) then
            _ ← entry_swap_current entry cur snapshot;
            mret tt
          else mret tt
      | Err _ =>
          cooldown ← gets (λ w, u64_of_nanos (permanent_failure_cooldown (w_config w)));
          now ← D_now;
          with_entry entry (λ en,
            (tt, set_refresh_not_before (u64_saturating_add (tick en now) cooldown) en))
      end;
  _ ← entry_replace_pending entry fetch None;
  mret (forget r).

Definition apply_permanent_failure subject entry fetch : G unit :=
  now ← D_now;
  st ← entry_state_at entry now;
  if bool_decide (st = EntryState.Pending) then
    cooldown ← gets (λ w, permanent_failure_cooldown (w_config w));
    retry ← new_fetch_after entry subject (Some cooldown) None;
    _ ← entry_replace_pending entry fetch (Some retry);
    mret tt
  else mret tt.

(** The predicate [remove_if] runs under the map lock. *)
Definition take_stale entry fetch (current_ : positive) : G bool :=
  if negb (bool_decide (current_ = entry)) then mret false
  else
    g ← entry_pending_generation current_ fetch;
    match g with
    | None => mret false
    | Some _ =>
        ptr ← alloc;
        r ← entry_compare_exchange entry EntryState.Pending
              (mkSnapshot ptr (word EntryState.Stale NO_EXPIRY) None 0);
        mret (is_ok r)
    end.

Definition apply_transient_failure subject entry fetch : G unit :=
  now ← D_now;
  removed ← map_remove_if subject now (take_stale entry fetch);
  _ ← (if removed : bool then mark_shape_dirty else mret tt);
  republish_if_due.

Definition apply_fetch_result subject entry fetch
    (refresh_from : option (EntrySnapshot P))
    (r : result (DecisionResult P) DecisionSourceError) : G FetchResult :=
  g ← entry_pending_generation entry fetch;
  match g with
  | None => mret (forget r)
  | Some _ =>
      r ← match r with
          | Ok d => snapshot ← decision_snapshot entry d; mret (Ok snapshot)
          | Err e => mret (Err e)
          end;
      now ← D_now;
      en ← load_entry entry;
      let r : result (EntrySnapshot P) DecisionSourceError :=
        match r with
        | Ok snapshot =>
            if is_expired_at en (sn_word snapshot) now
            then Err (transient "decision expired before publication")
            else Ok snapshot
        | Err e => Err e
        end in
      match refresh_from with
      | Some cur => apply_refresh_result entry fetch now cur r
      | None =>
          match r with
          | Ok snapshot =>
              x ← entry_compare_exchange entry EntryState.Pending snapshot;
              _ ← (if is_ok x then entry_replace_pending entry fetch None
                   else mret false);
              mret (forget r)
          | Err e =>
              _ ← (if is_permanent_status e
                   then apply_permanent_failure subject entry fetch
                   else apply_transient_failure subject entry fetch);
              mret (forget r)
          end
      end
  end.

(** ** Polling the future *)

(** What the caught lookup yields: [None] is a panic. *)
Definition answer_poll (answer : Answer.t P) :
    Poll.t (option (result (option (DecisionResult P)) DecisionSourceError)) :=
  match answer with
  | Answer.Ready r => Poll.Ready (Some r)
  | Answer.Panicked => Poll.Ready None
  | Answer.Waiting => Poll.Pending
  end.

Definition lookup_result
    (r : result (option (result (option (DecisionResult P)) DecisionSourceError))
           TimeoutElapsed.t) : G (result (DecisionResult P) DecisionSourceError) :=
  match r with
  | Err _ => mret (Err (transient "subject state lookup timed out"))
  | Ok None => mret (Err (transient "decision source panicked"))
  | Ok (Some (Err e)) => mret (Err e)
  | Ok (Some (Ok None)) =>
      mret (Err (transient "decision source holds no decision for the subject"))
  | Ok (Some (Ok (Some d))) =>
      match valid_until d with
      | None => mret (Ok d)
      | Some deadline =>
          now ← D_now;
          mret (if deadline <=? now
                then Err (transient "decision source returned an expired decision")
                else Ok d)
      end
  end.

Definition fetch_set_phase fetch (ph : FetchPhase.t) : G unit :=
  with_fetch fetch (λ pf, (tt, pf_set_phase ph pf)).

Definition fetch_finish fetch (pf : PendingFetch T P) (alive : bool)
    (r : result (DecisionResult P) DecisionSourceError) :
    G (Poll.t (result FetchResult unit)) :=
  final ← (if alive
           then apply_fetch_result (pf_subject pf) (pf_entry pf) fetch
                  (pf_refresh_from pf) r
           else mret (forget r));
  _ ← match final with
      | Err e => if is_wire e then emit Metric.wire_failure else mret tt
      | Ok _ => mret tt
      end;
  _ ← (if is_ok final then mret tt else emit Metric.unary_failure);
  _ ← fetch_set_phase fetch (FetchPhase.Done (Ok final));
  mret (Poll.Ready (Ok final)).

Definition fetch_poll_lookup fetch (pf : PendingFetch T P) (first_poll : bool)
    (deadline : option Z) (answer : Answer.t P) (alive : bool) :
    G (Poll.t (result FetchResult unit)) :=
  now ← D_now;
  match timeout_poll first_poll deadline now (answer_poll answer) with
  | Poll.Pending =>
      _ ← fetch_set_phase fetch (FetchPhase.Lookup false deadline);
      mret Poll.Pending
  | Poll.Ready r =>
      r ← lookup_result r;
      fetch_finish fetch pf alive r
  end.

Definition fetch_begin_lookup fetch (pf : PendingFetch T P) (answer : Answer.t P)
    (alive : bool) : G (Poll.t (result FetchResult unit)) :=
  _ ← emit Metric.unary_call;
  now ← D_now;
  unary ← gets (λ w, unary_timeout (w_config w));
  fetch_poll_lookup fetch pf true (Instant.checked_add now unary) answer alive.

Definition fetch_poll_delay fetch (pf : PendingFetch T P) (deadline : option Z)
    (answer : Answer.t P) (alive : bool) : G (Poll.t (result FetchResult unit)) :=
  now ← D_now;
  match sleep_poll deadline now with
  | Poll.Pending =>
      _ ← fetch_set_phase fetch (FetchPhase.Delay deadline);
      mret Poll.Pending
  | Poll.Ready _ => fetch_begin_lookup fetch pf answer alive
  end.

(** One poll of [Abortable<..>], behind [Shared]: the first result is kept. *)
Definition fetch_poll fetch (answer : Answer.t P) (alive : bool) :
    G (Poll.t (result FetchResult unit)) :=
  pf ← (λ w, expect (w_fetches w !! fetch) w : option (PendingFetch T P * World T P C));
  match pf_phase pf with
  | FetchPhase.Done r => mret (Poll.Ready r)
  | ph =>
      if pf_aborted pf then
        _ ← fetch_set_phase fetch (FetchPhase.Done (Err tt));
        mret (Poll.Ready (Err tt))
      else
        match ph with
        | FetchPhase.Start =>
            match pf_delay pf with
            | None => fetch_begin_lookup fetch pf answer alive
            | Some delay =>
                now ← D_now;
                fetch_poll_delay fetch pf (sleep_deadline now delay) answer alive
            end
        | FetchPhase.Delay deadline => fetch_poll_delay fetch pf deadline answer alive
        | FetchPhase.Lookup first_poll deadline =>
            fetch_poll_lookup fetch pf first_poll deadline answer alive
        | FetchPhase.Done r => mret (Poll.Ready r)
        end
  end.
End fetch.
