(* ===== verification/Admit.v ===== *)
(** * Admit: resolving a verdict within the admission budget ([src/gate.rs], [admit])

    [admit] is one async function with a retry loop.  Its control points are the
    constructors of [AdmitPc.t]; [admit_step] runs from one control point to the
    next.  What the outside world decides while the future is polled (the
    lookup's answer, whether the connection flag changed, which branch of
    [select!] is looked at first, what the refresh channel answers) is the
    argument [AdmitEnv]. *)

From S2P Require Export Fetch.

Module AdmitPc.
Inductive t : Type :=
| Connect (first_poll : bool)
| Insert
| Access (first_poll : bool) (entry fetch : positive) (queue_deadline : Z) (timed_out : bool)
| Wait (first_poll : bool) (entry fetch : positive)
| Settle (entry : positive) (r : FetchResult)
| Backoff (first_poll : bool) (wake : option Z)
| Return (admission : option positive).
End AdmitPc.

Record AdmitState : Type := mkAdmit {
  ad_deadline : Z;
  ad_retry_delay : Z;
  ad_pc : AdmitPc.t;
}.

(** What the outside world answers within one step: the source, to the lookup that
    the step polls (by its identity); the connection channel, and whether
    [select!] looks at it before the lookup; the refresh queue. *)
Record AdmitEnv (P : Type) : Type := mkEnv {
  env_answer : positive → Answer.t P;
  env_changed : bool;
  env_changed_first : bool;
  env_send : Poll.t (result unit unit);
}.
Arguments mkEnv {P}.
Arguments env_answer {P}.
Arguments env_changed {P}.
Arguments env_changed_first {P}.
Arguments env_send {P}.

Definition goto (pc : AdmitPc.t) (st : AdmitState) : AdmitState :=
  mkAdmit (ad_deadline st) (ad_retry_delay st) pc.

(** [retry_delay.saturating_mul(2).min(max)]. *)
Definition next_retry_delay (max_delay : Z) (st : AdmitState) : AdmitState :=
  mkAdmit (ad_deadline st)
    (Z.min (Duration.saturating_mul (ad_retry_delay st) 2) max_delay) (ad_pc st).

Section admission_loop.
Context {T P C : Type} `{Countable T, !LruCache T SubjectSlot C, TimeDriver}.
Abbreviation G := (M (World T P C)).
Implicit Types (subject : T) (entry fetch : positive) (st : AdmitState) (env : AdmitEnv P).

(** [D::timeout_at] around a future with effects: the inner future is not
    polled once the deadline has passed. *)
Definition timeout_at_step {A} (first_poll : bool) (deadline : Z) (future : G (Poll.t A)) :
    G (Poll.t (result A TimeoutElapsed.t)) :=
  now ← D_now;
  match timeout_at_poll first_poll deadline now (Poll.Ready tt) with
  | Poll.Ready (Err e) => mret (Poll.Ready (Err e))
  | Poll.Ready (Ok _) => r ← future; mret (Poll.map Ok r)
  | Poll.Pending => mret Poll.Pending
  end.

Definition admission_timed_out st : G AdmitState :=
  _ ← emit Metric.admission_timeout;
  mret (goto (AdmitPc.Return None) st).

Definition admit_begin : G AdmitState :=
  now ← D_now;
  cfg ← gets w_config;
  match Instant.checked_add now (admission_timeout cfg) with
  | None => admission_timed_out (mkAdmit now (initial_admission_retry_delay cfg) AdmitPc.Insert)
  | Some deadline =>
      mret (mkAdmit deadline (initial_admission_retry_delay cfg) (AdmitPc.Connect true))
  end.

(** One poll of [connected_or_closed]. *)
Definition connected_or_closed : G (Poll.t bool) :=
  connected ← gets w_connected;
  alive ← gets w_sender_alive;
  mret (if connected : bool then Poll.Ready true
        else if alive : bool then Poll.Pending else Poll.Ready false).

Definition admit_connect (first_poll : bool) st : G AdmitState :=
  r ← timeout_at_step first_poll (ad_deadline st) connected_or_closed;
  match r with
  | Poll.Pending => mret (goto (AdmitPc.Connect false) st)
  | Poll.Ready (Ok true) => mret (goto AdmitPc.Insert st)
  | Poll.Ready (Ok false) => mret (goto (AdmitPc.Return None) st)
  | Poll.Ready (Err _) => admission_timed_out st
  end.

(** Where [admission_on_access(subject, entry, Some(deadline))] leads. *)
Definition after_access (timed_out : bool) (r : Access.t) st : G AdmitState :=
  match r with
  | Access.Done (Some admission) => mret (goto (AdmitPc.Return (Some admission)) st)
  | Access.Done None =>
      if timed_out then admission_timed_out st else mret (goto (AdmitPc.Connect true) st)
  | Access.Enqueue entry fetch queue_deadline =>
      mret (goto (AdmitPc.Access true entry fetch queue_deadline timed_out) st)
  end.

Definition mark_dirty_if (b : bool) : G unit := if b then mark_shape_dirty else mret tt.

(** The entry of the subject, created if needed, with the snapshot's drift
    noted. *)
Definition admit_entry subject : G positive :=
  now ← D_now;
  x ← get_or_insert_with subject now (create_pending_entry subject now);
  let (entry, inserted) := x : positive * bool in
  snapshot ← gets w_snapshot;
  _ ← mark_dirty_if (inserted || bool_decide (snapshot !! subject = None));
  _ ← republish_if_due;
  mret entry.

Definition admit_forget subject entry (now : Z) : G unit :=
  removed ← map_remove_if subject now (λ current_, mret (bool_decide (current_ = entry)));
  mark_dirty_if removed.

Definition admit_forget_stale subject entry : G unit :=
  now ← D_now;
  removed ← map_remove_if subject now (λ current_,
    if negb (bool_decide (current_ = entry)) then mret false
    else
      now ← D_now;
      s ← entry_state_at current_ now;
      mret (bool_decide (s = EntryState.Stale)));
  _ ← mark_dirty_if removed;
  republish_if_due.

(** The joinable lookup of a pending entry, revalidated after it was read. *)
Definition admit_join entry : G (option positive) :=
  p ← entry_pending_operation entry;
  match p with
  | None => mret None
  | Some fetch =>
      now ← D_now;
      s ← entry_state_at entry now;
      if negb (bool_decide (s = EntryState.Pending)) then mret None
      else
        same ← entry_pending_is entry fetch;
        mret (if same : bool then Some fetch else None)
  end.

Definition admit_insert subject st : G AdmitState :=
  entry ← admit_entry subject;
  now ← D_now;
  if ad_deadline st <=? now then admission_timed_out st
  else
    connected ← gets w_connected;
    if negb connected then
      _ ← admit_forget subject entry now;
      mret (goto (AdmitPc.Connect true) st)
    else
      now ← D_now;
      s ← entry_state_at entry now;
      match s with
      | EntryState.Allowed | EntryState.Denied =>
          _ ← emit Metric.map_hit;
          r ← access_begin subject entry (Some (ad_deadline st));
          after_access false r st
      | EntryState.Pending =>
          joined ← admit_join entry;
          mret (goto (match joined with
                      | Some fetch => AdmitPc.Wait true entry fetch
                      | None => AdmitPc.Connect true
                      end) st)
      | EntryState.Stale =>
          _ ← admit_forget_stale subject entry;
          mret (goto (AdmitPc.Connect true) st)
      end.

(** The [select!] of the lookup and the connection change. *)
Definition select_fetch fetch env : G (Poll.t (option (result FetchResult unit))) :=
  if env_changed env && env_changed_first env then mret (Poll.Ready None)
  else
    r ← fetch_poll fetch (env_answer env fetch) true;
    mret (match r with
          | Poll.Ready x => Poll.Ready (Some x)
          | Poll.Pending => if env_changed env then Poll.Ready None else Poll.Pending
          end).

Definition admit_wait (first_poll : bool) subject entry fetch env st : G AdmitState :=
  r ← timeout_at_step first_poll (ad_deadline st) (select_fetch fetch env);
  match r with
  | Poll.Pending => mret (goto (AdmitPc.Wait false entry fetch) st)
  | Poll.Ready (Ok (Some (Ok r))) => mret (goto (AdmitPc.Settle entry r) st)
  | Poll.Ready (Ok _) => mret (goto (AdmitPc.Connect true) st)
  | Poll.Ready (Err _) =>
      r ← access_begin subject entry (Some (ad_deadline st));
      after_access true r st
  end.

(** The unary attempt failed: back off, unless the failure is permanent. *)
Definition admit_failed (r : FetchResult) st : G AdmitState :=
  if match r with Err e => is_permanent_status e | Ok _ => false end
  then mret (goto (AdmitPc.Return None) st)
  else
    _ ← emit Metric.admission_retry;
    now ← D_now;
    mret (goto (AdmitPc.Backoff true (sleep_deadline now (ad_retry_delay st))) st).

Definition admit_settle subject entry (r : FetchResult) st : G AdmitState :=
  connected ← gets w_connected;
  if negb connected then mret (goto (AdmitPc.Connect true) st)
  else
    now ← D_now;
    s ← entry_state_at entry now;
    match s with
    | EntryState.Allowed | EntryState.Denied =>
        x ← access_begin subject entry (Some (ad_deadline st));
        after_access false x st
    | EntryState.Pending | EntryState.Stale =>
        if is_ok r then mret (goto (AdmitPc.Connect true) st) else admit_failed r st
    end.

Definition admit_backoff (first_poll : bool) (wake : option Z) st : G AdmitState :=
  r ← timeout_at_step first_poll (ad_deadline st)
        (now ← D_now; mret (sleep_poll wake now));
  match r with
  | Poll.Pending => mret (goto (AdmitPc.Backoff false wake) st)
  | Poll.Ready (Err _) => admission_timed_out st
  | Poll.Ready (Ok _) =>
      max_delay ← gets (λ w, max_admission_retry_delay (w_config w));
      mret (goto (AdmitPc.Connect true) (next_retry_delay max_delay st))
  end.

Definition admit_access (first_poll : bool) entry fetch (queue_deadline : Z)
    (timed_out : bool) env st : G AdmitState :=
  r ← access_poll first_poll entry fetch queue_deadline (env_send env);
  match r with
  | Poll.Pending => mret (goto (AdmitPc.Access false entry fetch queue_deadline timed_out) st)
  | Poll.Ready a => after_access timed_out (Access.Done a) st
  end.

Definition admit_step subject env st : G AdmitState :=
  match ad_pc st with
  | AdmitPc.Connect first_poll => admit_connect first_poll st
  | AdmitPc.Insert => admit_insert subject st
  | AdmitPc.Access first_poll entry fetch q timed_out =>
      admit_access first_poll entry fetch q timed_out env st
  | AdmitPc.Wait first_poll entry fetch => admit_wait first_poll subject entry fetch env st
  | AdmitPc.Settle entry r => admit_settle subject entry r st
  | AdmitPc.Backoff first_poll wake => admit_backoff first_poll wake st
  | AdmitPc.Return _ => mret st
  end.

(** [admit] resumed [n] times, with the same answers each time. *)
Fixpoint admit_steps (n : nat) subject env st : G AdmitState :=
  match n with
  | O => mret st
  | S n => st ← admit_step subject env st; admit_steps n subject env st
  end.

Definition admit_alone (n : nat) subject env : G AdmitState :=
  st ← admit_begin; admit_steps n subject env st.

(** The future is dropped: only the claim of a refresh is given up. *)
Definition admit_cancel st : G unit :=
  match ad_pc st with
  | AdmitPc.Access _ entry fetch _ _ => access_cancel entry fetch
  | _ => mret tt
  end.

(** The control points at which a poll of the future returns [Poll::Pending]. *)
Definition suspended (pc : AdmitPc.t) : bool :=
  match pc with
  | AdmitPc.Connect false | AdmitPc.Wait false _ _ | AdmitPc.Backoff false _
  | AdmitPc.Access false _ _ _ _ => true
  | _ => false
  end.
End admission_loop.
