(* ===== verification/Closure.v ===== *)
(** * Closure: relations the gate's routines respect

    [Routine R] is what a relation between worlds has to tolerate so that every
    method that neither starts, claims nor polls a lookup stays inside it: the
    bookkeeping around the entries, an observer that retires an expired snapshot,
    and the invalidation of an entry.  The closure of the methods follows once,
    from their structure, for every such relation; the analyses that come later
    ([Frame], [Authorship], [Claims]) are its instances. *)

From S2P Require Export Admit.

(** A change of the listing, the publication or the clock only. *)
Record plain_change {T P C : Type} `{Countable T} (w w' : World T P C) : Prop := {
  pl_config : w_config w' = w_config w;
  pl_connected : w_connected w' = w_connected w;
  pl_sender : w_sender_alive w' = w_sender_alive w;
  pl_since : w_disconnected_since w' = w_disconnected_since w;
  pl_queue : w_refresh_queue w' = w_refresh_queue w;
  pl_open : w_refresh_open w' = w_refresh_open w;
  pl_entries : w_entries w' = w_entries w;
  pl_fetches : w_fetches w' = w_fetches w;
  pl_next : (w_next w ≤ w_next w')%positive;
  pl_generation : generation (w_publish w') = generation (w_publish w);
}.

Class Routine {T P C : Type} `{Countable T} (R : World T P C → World T P C → Prop) : Prop := {
  ro_preorder :: PreOrder R;
  ro_plain w w' : plain_change w w' → R w w';
  ro_current_at e now : always R (entry_current_at e now);
  ro_invalidate e : always R (entry_invalidate e);
}.

Create HintDb closed discriminated.
#[export] Hint Resolve always_panic ro_current_at ro_invalidate : closed.
#[export] Hint Extern 1 (always _ (mret _)) => (apply always_ret; apply _) : closed.
#[export] Hint Extern 1 (always _ (gets _)) => (apply always_gets; apply _) : closed.
#[export] Hint Extern 1 (always _ (expect _)) => (apply always_expect; apply _) : closed.

(** Follow the structure of the method. *)
Ltac closed :=
  intros; cbv zeta;
  repeat first
    [ progress intros
    | solve [eauto with closed nocore]
    | apply always_bind; [apply _|..]
    | progress cbn iota beta zeta
    | case_match ].

Section closure.
Context {T P C : Type} `{Countable T, !LruCache T SubjectSlot C, TimeDriver}.
Context (R : World T P C → World T P C → Prop) `{!Routine R}.
Implicit Types (w : World T P C) (e f : positive) (s : T) (st : AdmitState) (env : AdmitEnv P).
Abbreviation closed m := (always R m).

(** ** The primitives *)

Lemma closed_modify (g : World T P C → World T P C) :
  (∀ w, plain_change w (g w)) → closed (modify g).
Proof. intros Hg w u w' [= _ <-]. by apply ro_plain. Qed.

Lemma closed_read {A} (g : World T P C → option A) : closed (λ w, expect (g w) w).
Proof. intros w a w'. unfold expect. destruct (g w); [|done]. intros [= _ <-]. reflexivity. Qed.
Lemma closed_load e : closed (load_entry e).
Proof. apply closed_read. Qed.
Lemma closed_now : closed D_now.
Proof. intros w a w' [= _ <-]. apply ro_plain. by split. Qed.
Lemma closed_alloc : closed alloc.
Proof. intros w a w' [= _ <-]. apply ro_plain. split; simpl; try done. lia. Qed.
Lemma closed_emit m : closed (emit m).
Proof. apply closed_modify. by intros w; split. Qed.
Lemma closed_put c : closed (put_subjects c).
Proof. apply closed_modify. by intros w; split. Qed.
Lemma closed_dirty : closed mark_shape_dirty.
Proof. apply closed_modify. by intros w; split. Qed.
Lemma closed_clean : closed (modify (set_shape_dirty false)).
Proof. apply closed_modify. by intros w; split. Qed.
Lemma closed_snapshot m : closed (modify (set_snapshot m)).
Proof. apply closed_modify. by intros w; split. Qed.
Hint Resolve closed_load closed_now closed_alloc closed_emit closed_put closed_dirty closed_clean
  closed_snapshot : closed.

(** ** Entries and handles *)

Lemma closed_state_at e now : closed (entry_state_at e now).
Proof. unfold entry_state_at. closed. Qed.
Lemma closed_observed_at e now : closed (entry_observed_at e now).
Proof. unfold entry_observed_at. closed. Qed.
Lemma closed_verdict_at e now : closed (entry_verdict_at e now).
Proof. unfold entry_verdict_at. closed. Qed.
Lemma closed_pending_operation e : closed (entry_pending_operation e).
Proof. unfold entry_pending_operation. closed. Qed.
Hint Resolve closed_state_at closed_observed_at closed_verdict_at closed_pending_operation : closed.
Lemma closed_pending_generation e f : closed (entry_pending_generation e f).
Proof. unfold entry_pending_generation. closed. Qed.
Lemma closed_pending_is e f : closed (entry_pending_is e f).
Proof. unfold entry_pending_is. closed. Qed.
Lemma closed_admission e : closed (entry_admission e).
Proof. unfold entry_admission. closed. Qed.
Lemma closed_admission_state e : closed (admission_state e).
Proof. unfold admission_state, admission_observe. closed. Qed.
Lemma closed_admission_check e : closed (admission_check e).
Proof. unfold admission_check. closed. Qed.
Lemma closed_payload e : closed (admission_payload e).
Proof. unfold admission_payload. closed. Qed.
Hint Resolve closed_pending_generation closed_pending_is closed_admission : closed.

(** ** The subject map *)

Lemma closed_tick now : closed (map_tick now).
Proof. unfold map_tick. closed. Qed.
Lemma closed_evict_loop fuel now : closed (evict_loop fuel now).
Proof. induction fuel as [|fuel IH]; simpl; closed. Qed.
Hint Resolve closed_tick closed_evict_loop : closed.
Lemma closed_evict now : closed (evict now).
Proof. unfold evict. closed. Qed.
Lemma closed_push s slot : closed (map_push s slot).
Proof. unfold map_push. closed. Qed.
Hint Resolve closed_evict closed_push : closed.
Lemma closed_get_or_insert s now create :
  closed create → closed (get_or_insert_with s now create).
Proof. unfold get_or_insert_with. closed. Qed.
Lemma closed_touch s e now : closed (map_touch s e now).
Proof. unfold map_touch. closed. Qed.
Lemma closed_update s now u : (∀ e, closed (u e)) → closed (map_update s now u).
Proof. unfold map_update. closed. Qed.
Lemma closed_pop s : closed (pop_and_invalidate s).
Proof. unfold pop_and_invalidate. closed. Qed.
Hint Resolve closed_touch closed_get_or_insert closed_pop : closed.
Lemma closed_remove s now : closed (map_remove s now).
Proof. unfold map_remove. closed. Qed.
Lemma closed_remove_if s now p : (∀ e, closed (p e)) → closed (map_remove_if s now p).
Proof. unfold map_remove_if. closed. Qed.
Lemma closed_invalidate_all l : closed (invalidate_all l).
Proof. induction l as [|[k slot] l IH]; simpl; closed. Qed.
Hint Resolve closed_remove_if closed_invalidate_all : closed.
Lemma closed_clear : closed map_clear.
Proof. unfold map_clear. closed. Qed.
Lemma closed_copy : closed map_copy.
Proof. unfold map_copy. closed. Qed.

(** ** Gate and admission *)

Lemma closed_decision_snapshot e r : closed (decision_snapshot e r).
Proof. unfold decision_snapshot. closed. Qed.
Lemma closed_republish_claim : closed republish_claim.
Proof.
  intros w r w' Hrun. unfold republish_claim, gets, modify, expect, D_now, mbind, M_bind in Hrun.
  simpl in Hrun. destruct (w_shape_dirty w); simpl in Hrun; [|injection Hrun as _ <-; reflexivity].
  apply ro_plain. destruct (_ <? _); [by injection Hrun as _ <-|].
  destruct (Instant.checked_add _ _); [|done]. by injection Hrun as _ <-.
Qed.
Lemma closed_republish_copy : closed republish_copy.
Proof. unfold republish_copy, map_copy. closed. Qed.
Lemma closed_republish_store g m : closed (republish_store g m).
Proof. unfold republish_store. closed. Qed.
Hint Resolve closed_republish_claim closed_republish_copy closed_republish_store : closed.
Lemma closed_republish : closed republish_if_due.
Proof. unfold republish_if_due. closed. Qed.
Lemma closed_check_without_refresh s : closed (check_without_refresh s).
Proof. unfold check_without_refresh. closed. Qed.
Lemma closed_lookup_result r : closed (lookup_result r).
Proof. unfold lookup_result. closed. Qed.
Hint Resolve closed_republish : closed.

Lemma closed_timeout_at {A} first d (m : M (World T P C) (Poll.t A)) :
  closed m → closed (timeout_at_step first d m).
Proof. unfold timeout_at_step. closed. Qed.
Lemma closed_timed_out st : closed (admission_timed_out st).
Proof. unfold admission_timed_out. closed. Qed.
Hint Resolve closed_timeout_at closed_timed_out : closed.
Lemma closed_admit_begin : closed admit_begin.
Proof. unfold admit_begin. closed. Qed.
Lemma closed_after_access b r st : closed (after_access b r st).
Proof. unfold after_access. closed. Qed.
Lemma closed_admit_connect b st : closed (admit_connect b st).
Proof. unfold admit_connect, connected_or_closed. closed. Qed.
Lemma closed_dirty_if b : closed (mark_dirty_if b).
Proof. unfold mark_dirty_if. closed. Qed.
Hint Resolve closed_dirty_if : closed.
Lemma closed_admit_entry s :
  (∀ now, closed (create_pending_entry s now)) → closed (admit_entry s).
Proof. intros Hc. unfold admit_entry. closed. Qed.
Lemma closed_admit_forget s e now : closed (admit_forget s e now).
Proof. unfold admit_forget. closed. Qed.
Lemma closed_admit_forget_stale s e : closed (admit_forget_stale s e).
Proof.
  unfold admit_forget_stale. apply always_bind; [apply _|closed|]. intros now.
  apply always_bind; [apply _|apply closed_remove_if; closed|closed].
Qed.
Lemma closed_admit_join e : closed (admit_join e).
Proof. unfold admit_join. closed. Qed.
Lemma closed_admit_failed r st : closed (admit_failed r st).
Proof. unfold admit_failed. closed. Qed.
Lemma closed_admit_backoff b wake st : closed (admit_backoff b wake st).
Proof. unfold admit_backoff. closed. Qed.
End closure.

#[export] Hint Resolve closed_read closed_load closed_now closed_alloc closed_emit closed_put closed_dirty
  closed_clean closed_snapshot closed_state_at closed_observed_at closed_verdict_at
  closed_pending_operation closed_pending_generation closed_pending_is closed_admission
  closed_admission_state closed_admission_check closed_payload closed_tick closed_evict_loop
  closed_evict closed_push closed_get_or_insert closed_touch closed_update closed_pop
  closed_remove closed_remove_if closed_invalidate_all closed_clear closed_copy
  closed_decision_snapshot closed_republish_claim closed_republish_copy closed_republish_store
  closed_republish closed_check_without_refresh closed_lookup_result closed_timeout_at
  closed_timed_out closed_admit_begin closed_after_access closed_admit_connect closed_dirty_if
  closed_admit_entry closed_admit_forget closed_admit_forget_stale closed_admit_join
  closed_admit_failed closed_admit_backoff : closed.
#[export] Hint Extern 1 (Routine _) => apply _ : closed.
