(* ===== verification/Invariant.v ===== *)
(** * Invariant: well-formed worlds and how they evolve

    [wf] is the invariant of the shared state and [evolves] the guarantee every
    atomic action gives to everybody else.  [run_ok w m Q] is total correctness:
    started in [w], the method does not panic, re-establishes [wf], evolves the
    world and ends in [Q].  The sections below prove it for the primitive state
    changes; the methods follow by composition. *)

From S2P Require Export Fetch.

Section invariant.
Context {T P C : Type} `{Countable T, !LruCache T SubjectSlot C}.
Implicit Types (w : World T P C) (e f : positive) (s : T) (en : Entry P).

(** ** Reading the subject map *)

Definition slots w : list (T * SubjectSlot) := lru_iter (w_subjects w).

Definition slot_id (kv : T * SubjectSlot) : positive := slot_entry kv.2.

Definition listed w e : Prop := e ∈ slot_id <$> slots w.

Definition listed_as w s e : Prop := ∃ slot, (s, slot) ∈ slots w ∧ slot_entry slot = e.

#[export] Instance listed_dec w e : Decision (listed w e).
Proof. unfold listed. apply _. Defined.

(** The entry is listed under [s] or nowhere. *)
Definition tracked w s e : Prop :=
  is_Some (w_entries w !! e) ∧ ∀ s', listed_as w s' e → s' = s.

(** The entry has left the map for good. *)
Definition dead w e : Prop := is_Some (w_entries w !! e) ∧ ¬ listed w e.

Definition entry_decode en : EntryState.t := decode_entry_state (sn_word (current en)).

Definition state_is w e (st : EntryState.t) : Prop :=
  ∃ en, w_entries w !! e = Some en ∧ entry_decode en = st.

(** An entry that has left the pending state; it never returns to it. *)
Definition settled w e : Prop :=
  ∃ en, w_entries w !! e = Some en ∧ entry_decode en ≠ EntryState.Pending.

(** An entry nobody can find: stale, with no lookup in flight. *)
Definition retired en : Prop := entry_decode en = EntryState.Stale ∧ pending en = None.

Definition is_retired w e : Prop := ∃ en, w_entries w !! e = Some en ∧ retired en.

(** ** The invariant *)

Definition expires w (sn : EntrySnapshot P) : Prop :=
  decision_freshness_ttl (w_config w) ≠ Duration.MAX → deadline_of (sn_word sn) ≠ NO_EXPIRY.

(** What the state of a snapshot says about its other fields: only a verdict has a
    refresh time, only an allowing one a payload, only a pending entry waits without
    a deadline, and under a finite freshness TTL every verdict expires. *)
Definition fields_fit w (sn : EntrySnapshot P) : Prop :=
  match decode_entry_state (sn_word sn) with
  | EntryState.Pending =>
      sn_payload sn = None ∧ sn_refresh_after sn = 0 ∧ deadline_of (sn_word sn) = NO_EXPIRY
  | EntryState.Stale => sn_payload sn = None ∧ sn_refresh_after sn = 0
  | EntryState.Denied => sn_payload sn = None ∧ expires w sn
  | EntryState.Allowed => expires w sn
  end.

Definition snapshot_ok w (sn : EntrySnapshot P) : Prop :=
  u64_range (sn_word sn) ∧ 0 ≤ sn_refresh_after sn ≤ NO_EXPIRY ∧ fields_fit w sn.

Lemma snapshot_ok_config w w' sn :
  w_config w' = w_config w → snapshot_ok w sn → snapshot_ok w' sn.
Proof. unfold snapshot_ok, fields_fit, expires. by intros ->. Qed.

Definition refresh_source w (e : positive) (cur : EntrySnapshot P) : Prop :=
  is_verdict (decode_entry_state (sn_word cur)) = true ∧
  (sn_ptr cur < w_next w)%positive ∧ settled w e ∧
  ∀ en, w_entries w !! e = Some en → sn_ptr (current en) = sn_ptr cur → current en = cur.

Record entry_ok w e en : Prop := {
  eo_alloc : (e < w_next w)%positive;
  eo_ptr : (sn_ptr (current en) < w_next w)%positive;
  eo_snapshot : snapshot_ok w (current en);
  eo_refresh_before : 0 ≤ refresh_before en;
  eo_pending f : pending en = Some f →
    ∃ pf, w_fetches w !! f = Some pf ∧ pf_entry pf = e;
}.

Record fetch_ok w f (pf : PendingFetch T P) : Prop := {
  fo_alloc : (f < w_next w)%positive;
  fo_tracked : tracked w (pf_subject pf) (pf_entry pf);
  fo_refresh cur : pf_refresh_from pf = Some cur → refresh_source w (pf_entry pf) cur;
}.

Record wf w : Prop := {
  wf_config : config_typed (w_config w);
  wf_clock n : w_clock w n + snapshot_republish_interval (w_config w) ≤ Instant.MAX;
  wf_lru : lru_wf (w_subjects w);
  wf_cap : lru_cap (w_subjects w) = max_subjects (w_config w);
  wf_nodup : NoDup (slot_id <$> slots w);
  wf_listed e : listed w e → is_Some (w_entries w !! e);
  wf_unlisted e en :
    w_entries w !! e = Some en → ¬ listed w e → retired en;
  wf_entry e en : w_entries w !! e = Some en → entry_ok w e en;
  wf_fetch f pf : w_fetches w !! f = Some pf → fetch_ok w f pf;
  wf_snapshot s e : w_snapshot w !! s = Some e → tracked w s e;
  wf_offline : w_connected w = false → w_snapshot w = ∅;
}.

(** ** What an action guarantees *)

Record entry_evolves (n : positive) en en' : Prop := {
  ee_epoch : epoch en' = epoch en;
  ee_refresh_before : refresh_before en' = refresh_before en;
  ee_current : current en' = current en ∨ (n ≤ sn_ptr (current en'))%positive;
  ee_settled : entry_decode en ≠ EntryState.Pending → entry_decode en' ≠ EntryState.Pending;
}.

Record fetch_evolves (pf pf' : PendingFetch T P) : Prop := {
  fe_entry : pf_entry pf' = pf_entry pf;
  fe_subject : pf_subject pf' = pf_subject pf;
  fe_refresh : pf_refresh_from pf' = pf_refresh_from pf;
}.

Record evolves w w' : Prop := {
  ev_config : w_config w' = w_config w;
  ev_clock : w_clock w' = w_clock w;
  ev_activity : w_activity_epoch w' = w_activity_epoch w;
  ev_reads : (w_reads w ≤ w_reads w')%nat;
  ev_next : (w_next w ≤ w_next w')%positive;
  ev_entries e en : w_entries w !! e = Some en →
    ∃ en', w_entries w' !! e = Some en' ∧ entry_evolves (w_next w) en en';
  ev_fetches f pf : w_fetches w !! f = Some pf →
    ∃ pf', w_fetches w' !! f = Some pf' ∧ fetch_evolves pf pf';
  ev_listed s e : is_Some (w_entries w !! e) → listed_as w' s e → listed_as w s e;
}.

#[export] Instance entry_evolves_refl n : Reflexive (entry_evolves n).
Proof. intros en. split; auto. Qed.

Lemma entry_evolves_trans n n' en en' en'' :
  (n ≤ n')%positive →
  entry_evolves n en en' → entry_evolves n' en' en'' → entry_evolves n en en''.
Proof.
  intros Hn [E1 R1 C1 S1] [E2 R2 C2 S2]. split; [congruence|congruence| |auto].
  destruct C2 as [->|?]; [done|]. right. lia.
Qed.

#[export] Instance fetch_evolves_preorder : PreOrder fetch_evolves.
Proof.
  split; [by intros pf; split|].
  intros pf1 pf2 pf3 [] []. split; congruence.
Qed.

#[export] Instance evolves_preorder : PreOrder evolves.
Proof.
  split.
  - intros w. split; try done.
    + intros e en He. exists en. by split.
    + intros f pf Hf. exists pf. by split.
  - intros w1 w2 w3 E1 E2. split.
    + by rewrite (ev_config _ _ E2), (ev_config _ _ E1).
    + by rewrite (ev_clock _ _ E2), (ev_clock _ _ E1).
    + by rewrite (ev_activity _ _ E2), (ev_activity _ _ E1).
    + etransitivity; [apply (ev_reads _ _ E1)|apply (ev_reads _ _ E2)].
    + etransitivity; [apply (ev_next _ _ E1)|apply (ev_next _ _ E2)].
    + intros e en He. destruct (ev_entries _ _ E1 _ _ He) as (en1 & He1 & Ee1).
      destruct (ev_entries _ _ E2 _ _ He1) as (en2 & He2 & Ee2).
      exists en2. split; [done|]. eapply entry_evolves_trans; [|done|done].
      apply (ev_next _ _ E1).
    + intros f pf Hf. destruct (ev_fetches _ _ E1 _ _ Hf) as (pf1 & Hf1 & Ef1).
      destruct (ev_fetches _ _ E2 _ _ Hf1) as (pf2 & Hf2 & Ef2).
      exists pf2. split; [done|]. by etransitivity.
    + intros s e [en He] Hl. apply (ev_listed _ _ E1); [eauto|].
      destruct (ev_entries _ _ E1 _ _ He) as (en1 & He1 & _).
      apply (ev_listed _ _ E2); eauto.
Qed.

Lemma ev_exists w w' e :
  evolves w w' → is_Some (w_entries w !! e) → is_Some (w_entries w' !! e).
Proof. intros Ev [en (en' & He' & _)%(ev_entries _ _ Ev)]. eauto. Qed.

Lemma listed_iff w e : listed w e ↔ ∃ s, listed_as w s e.
Proof.
  unfold listed, listed_as. rewrite list_elem_of_fmap. split.
  - intros ([s slot] & -> & Hin). exists s, slot. by split.
  - intros (s & slot & Hin & <-). exists (s, slot). by split.
Qed.

(** ** Facts that survive every evolution *)

Lemma tracked_stable w w' s e : evolves w w' → tracked w s e → tracked w' s e.
Proof.
  intros Ev [He Hs]. split; [by eapply ev_exists|].
  intros s' Hl. eapply Hs, ev_listed; eauto.
Qed.

Lemma dead_stable w w' e : evolves w w' → dead w e → dead w' e.
Proof.
  intros Ev [He Hl]. split; [by eapply ev_exists|].
  intros (s & Hs)%listed_iff. apply Hl, listed_iff. exists s.
  by eapply ev_listed.
Qed.

Lemma dead_stale w e : wf w → dead w e → state_is w e EntryState.Stale.
Proof. intros Hwf [[en He] Hl]. exists en. split; [done|]. by eapply (wf_unlisted _ Hwf). Qed.

Lemma settled_stable w w' e : evolves w w' → settled w e → settled w' e.
Proof.
  intros Ev (en & He & Hs). destruct (ev_entries _ _ Ev _ _ He) as (en' & He' & Ee).
  exists en'. split; [done|]. by apply (ee_settled _ _ _ Ee).
Qed.

(** The entry's cell no longer holds the snapshot allocated at [ptr]. *)
Definition moved_past w e (ptr : positive) : Prop :=
  (ptr < w_next w)%positive ∧
  ∃ en, w_entries w !! e = Some en ∧ sn_ptr (current en) ≠ ptr.

Lemma moved_past_stable w w' e ptr :
  evolves w w' → moved_past w e ptr → moved_past w' e ptr.
Proof.
  intros Ev [Hp (en & He & Hne)]. pose proof (ev_next _ _ Ev).
  destruct (ev_entries _ _ Ev _ _ He) as (en' & He' & Ee). split; [lia|].
  exists en'. split; [done|]. destruct (ee_current _ _ _ Ee) as [->|?]; [done|lia].
Qed.

Lemma refresh_source_stable w w' e cur :
  is_Some (w_entries w !! e) → evolves w w' →
  refresh_source w e cur → refresh_source w' e cur.
Proof.
  intros [en He] Ev (Hv & Hp & Hs & Hc). pose proof (ev_next _ _ Ev).
  destruct (ev_entries _ _ Ev _ _ He) as (en' & He' & Ee).
  split; [done|]. split; [lia|]. split; [by apply (settled_stable w)|]. intros en'' He'' Hptr. simplify_eq.
  destruct (ee_current _ _ _ Ee) as [Heq|?]; [|lia]. rewrite Heq in *. by apply Hc.
Qed.

(** ** Total correctness

    [run_from w0 w m Q] measures the evolution from an earlier world [w0], the
    one in which the running method started: a snapshot allocated after [w0] is
    new to everybody else when the method publishes it. *)

Definition run_from {A} w0 w (m : M (World T P C) A) (Q : A → World T P C → Prop) : Prop :=
  ∃ a w', m w = Some (a, w') ∧ wf w' ∧ evolves w0 w' ∧ Q a w'.

Definition run_ok {A} w (m : M (World T P C) A) (Q : A → World T P C → Prop) : Prop :=
  run_from w w m Q.

Lemma run_from_ret {A} w0 w (a : A) (Q : A → World T P C → Prop) :
  wf w → evolves w0 w → Q a w → run_from w0 w (mret a) Q.
Proof. intros Hwf Ev HQ. exists a, w. by split_and!. Qed.

Lemma run_from_bind {A B} w0 w (m : M (World T P C) A) (k : A → M (World T P C) B) Q1 Q2 :
  run_from w0 w m Q1 →
  (∀ a w1, wf w1 → evolves w0 w1 → Q1 a w1 → run_from w0 w1 (k a) Q2) →
  run_from w0 w (m ≫= k) Q2.
Proof.
  intros (a & w1 & Hrun & Hwf & Ev & H1) Hk.
  destruct (Hk a w1 Hwf Ev H1) as (b & w2 & Hrun2 & Hwf2 & Ev2 & H2).
  exists b, w2. rewrite (run_bind_step _ _ _ _ _ Hrun). by split_and!.
Qed.

Lemma run_from_weaken {A} w0 w (m : M (World T P C) A) (Q1 Q2 : A → World T P C → Prop) :
  run_from w0 w m Q1 → (∀ a w', wf w' → evolves w0 w' → Q1 a w' → Q2 a w') →
  run_from w0 w m Q2.
Proof. intros (a & w' & Hrun & Hwf & Ev & H1) HQ. exists a, w'. split_and!; auto. Qed.

(** A method proved from its own start also evolves every earlier world. *)
Lemma run_ok_from {A} w0 w (m : M (World T P C) A) (Q1 Q2 : A → World T P C → Prop) :
  run_ok w m Q1 → evolves w0 w → (∀ a w', wf w' → evolves w w' → Q1 a w' → Q2 a w') →
  run_from w0 w m Q2.
Proof.
  intros (a & w' & Hrun & Hwf & Ev & H1) Ev0 HQ. exists a, w'.
  split_and!; auto. by etransitivity.
Qed.

Lemma run_ok_bind {A B} w (m : M (World T P C) A) (k : A → M (World T P C) B) Q1 Q2 :
  run_ok w m Q1 →
  (∀ a w1, wf w1 → evolves w w1 → Q1 a w1 → run_ok w1 (k a) Q2) →
  run_ok w (m ≫= k) Q2.
Proof.
  intros Hm Hk. eapply run_from_bind; [exact Hm|].
  intros a w1 Hwf Ev H1. eapply run_ok_from; [by eapply Hk|done|auto].
Qed.

Lemma run_from_run {A} w0 w (m : M (World T P C) A) Q a w' :
  run_from w0 w m Q → m w = Some (a, w') → wf w' ∧ evolves w0 w' ∧ Q a w'.
Proof. intros (a1 & w1 & Hrun & ?) Hrun'. rewrite Hrun in Hrun'. by simplify_eq. Qed.

(** ** Primitive state changes

    *** Bookkeeping: nothing that an invariant reads *)

Record same_core w w' : Prop := {
  sc_config : w_config w' = w_config w;
  sc_connected : w_connected w' = w_connected w;
  sc_subjects : w_subjects w' = w_subjects w;
  sc_activity : w_activity_epoch w' = w_activity_epoch w;
  sc_snapshot : w_snapshot w' = w_snapshot w;
  sc_publish : w_publish w' = w_publish w;
  sc_since : w_disconnected_since w' = w_disconnected_since w;
  sc_entries : w_entries w' = w_entries w;
  sc_fetches : w_fetches w' = w_fetches w;
  sc_clock : w_clock w' = w_clock w;
  sc_reads : (w_reads w ≤ w_reads w')%nat;
  sc_next : (w_next w ≤ w_next w')%positive;
}.

Lemma entry_ok_mono w w' e en :
  w_config w' = w_config w → (w_next w ≤ w_next w')%positive → w_fetches w' = w_fetches w →
  entry_ok w e en → entry_ok w' e en.
Proof.
  intros Hc Hn Hf []. split; rewrite ?Hf; try done; [lia|lia|by eapply snapshot_ok_config].
Qed.

Lemma same_core_listed_as w w' s e : same_core w w' → listed_as w' s e ↔ listed_as w s e.
Proof. intros Hc. unfold listed_as, slots. by rewrite (sc_subjects _ _ Hc). Qed.

Lemma same_core_tracked w w' s e : same_core w w' → tracked w s e → tracked w' s e.
Proof.
  intros Hc [He Hs]. split; [by rewrite (sc_entries _ _ Hc)|].
  intros s' Hl. apply Hs. by apply (same_core_listed_as _ _ _ _ Hc).
Qed.

Lemma evolves_same_core w w' : same_core w w' → evolves w w'.
Proof.
  intros Hc. split; try apply Hc.
  - intros e en He. exists en. by rewrite (sc_entries _ _ Hc).
  - intros f pf Hf. exists pf. by rewrite (sc_fetches _ _ Hc).
  - intros s e _ Hl. by apply (same_core_listed_as _ _ _ _ Hc).
Qed.

Lemma wf_same_core w w' : same_core w w' → wf w → wf w'.
Proof.
  intros Hc Hwf. pose proof (evolves_same_core _ _ Hc) as Ev. destruct Hc, Hwf. split.
  - by rewrite sc_config0.
  - intros n. rewrite sc_clock0, sc_config0. done.
  - by rewrite sc_subjects0.
  - by rewrite sc_subjects0, sc_config0.
  - unfold slots. by rewrite sc_subjects0.
  - intros e. unfold listed, slots. rewrite sc_subjects0, sc_entries0. apply wf_listed0.
  - intros e en. unfold listed, slots. rewrite sc_subjects0, sc_entries0. apply wf_unlisted0.
  - intros e en. rewrite sc_entries0. intros He%wf_entry0. by eapply entry_ok_mono.
  - intros f pf. rewrite sc_fetches0. intros [Ha Ht Hr]%wf_fetch0. split.
    + lia.
    + by eapply tracked_stable.
    + intros cur Hcur. eapply refresh_source_stable; [apply Ht|done|auto].
  - intros s e. rewrite sc_snapshot0. intros Ht%wf_snapshot0. by eapply tracked_stable.
  - by rewrite sc_connected0, sc_snapshot0.
Qed.

Lemma run_core {A} w (m : M (World T P C) A) a w' (Q : A → World T P C → Prop) :
  m w = Some (a, w') → same_core w w' → wf w → Q a w' → run_ok w m Q.
Proof.
  intros Hrun Hc Hwf HQ. exists a, w'. split_and!; try done.
  - by eapply wf_same_core.
  - by apply evolves_same_core.
Qed.

Lemma D_now_ok w : wf w → run_ok w D_now (λ t w',
  t = w_clock w (w_reads w) ∧ same_core w w' ∧ w_reads w' = S (w_reads w)).
Proof.
  intros Hwf.
  assert (same_core w (set_reads (S (w_reads w)) w)) by (split; simpl; try done; lia).
  by eapply run_core.
Qed.

Lemma gets_ok {A} w (g : World T P C → A) :
  wf w → run_ok w (gets g) (λ a w', a = g w ∧ w' = w).
Proof. intros Hwf. by eapply (run_core w (gets g) (g w) w). Qed.

Lemma emit_ok w m : wf w → run_ok w (emit m) (λ _ w', same_core w w').
Proof. intros Hwf. eapply run_core; [done| |done|]; by split. Qed.

Lemma modify_core_ok w (g : World T P C → World T P C) :
  same_core w (g w) → wf w → run_ok w (modify g) (λ _ w', w' = g w).
Proof. intros Hc Hwf. by eapply run_core. Qed.

(** An allocation that nothing refers to yet. *)
Definition unused w (ptr : positive) : Prop :=
  (ptr < w_next w)%positive ∧
  (∀ f pf cur, w_fetches w !! f = Some pf → pf_refresh_from pf = Some cur →
     sn_ptr cur ≠ ptr).

Lemma unused_same_core w w' ptr : same_core w w' → unused w ptr → unused w' ptr.
Proof.
  intros Hc [Hp Hf]. pose proof (sc_next _ _ Hc). split; [lia|].
  intros f pf cur. rewrite (sc_fetches _ _ Hc). apply Hf.
Qed.

Lemma alloc_ok w : wf w → run_ok w alloc (λ p w',
  p = w_next w ∧ same_core w w' ∧ unused w' p ∧ w_next w' = Pos.succ (w_next w)).
Proof.
  intros Hwf.
  assert (same_core w (set_next (Pos.succ (w_next w)) w)) by (split; simpl; try done; lia).
  eapply run_core; [done|done|done|]. split_and!; try done.
  split; [simpl; lia|]. simpl. intros f pf cur Hf Hcur Heq.
  pose proof (fo_refresh _ _ _ (wf_fetch _ Hwf _ _ Hf) _ Hcur) as (_ & Hlt & _). lia.
Qed.

Lemma load_entry_ok w e en :
  wf w → w_entries w !! e = Some en →
  run_ok w (load_entry e) (λ en' w', en' = en ∧ w' = w).
Proof.
  intros Hwf He. apply (run_core w (load_entry e) en w); [|by split|done|done].
  unfold load_entry, expect. by rewrite He.
Qed.
(** *** Updating one entry *)

Lemma listed_as_set_entries w m s e :
  listed_as (set_entries m w) s e ↔ listed_as w s e.
Proof. done. Qed.

Lemma evolves_set_entry w0 w e en en' :
  evolves w0 w → w_entries w !! e = Some en →
  epoch en' = epoch en → refresh_before en' = refresh_before en →
  (current en' = current en ∨ (w_next w0 ≤ sn_ptr (current en'))%positive) →
  (entry_decode en ≠ EntryState.Pending → entry_decode en' ≠ EntryState.Pending) →
  evolves w0 (set_entries (<[e := en']> (w_entries w)) w).
Proof.
  intros Ev He Hep Hrb Hcur Hset. destruct Ev as [? ? ? ? ? Ee ? ?].
  split; try done. intros e0 en0 (en1 & He1 & E1)%Ee. simpl.
  destruct (decide (e0 = e)) as [->|Hne].
  - simplify_eq. exists en'. rewrite lookup_insert_eq. split; [done|].
    destruct E1 as [? ? C1 S1]. split; [congruence|congruence| |auto].
    destruct Hcur as [->|]; auto.
  - exists en1. by rewrite lookup_insert_ne.
Qed.

Lemma exists_insert {A} (m : gmap positive A) e x e0 :
  is_Some (m !! e0) → is_Some (<[e := x]> m !! e0).
Proof. rewrite lookup_insert_is_Some. destruct (decide (e = e0)); auto. Qed.

Lemma tracked_set_entry w e en' s e0 :
  tracked w s e0 → tracked (set_entries (<[e := en']> (w_entries w)) w) s e0.
Proof. intros [He Hs]. split; [by apply exists_insert|done]. Qed.

Lemma wf_set_entry w e en en' :
  wf w → w_entries w !! e = Some en →
  refresh_before en' = refresh_before en →
  (current en' = current en ∨
   unused w (sn_ptr (current en')) ∧ snapshot_ok w (current en')) →
  (∀ f, pending en' = Some f → ∃ pf, w_fetches w !! f = Some pf ∧ pf_entry pf = e) →
  (¬ listed w e → retired en') →
  (entry_decode en ≠ EntryState.Pending → entry_decode en' ≠ EntryState.Pending) →
  wf (set_entries (<[e := en']> (w_entries w)) w).
Proof.
  intros Hwf He Hrb Hcur Hpend Hun Hset. destruct Hwf. split; try done; simpl.
  - intros e0 Hl. apply exists_insert, wf_listed0, Hl.
  - intros e0 en0 [[-> <-]|[Hne He0]]%lookup_insert_Some; [exact Hun|].
    by eapply wf_unlisted0.
  - intros e0 en0 [[-> <-]|[Hne He0]]%lookup_insert_Some.
    + destruct (wf_entry0 _ _ He). split; try done; [..|by rewrite Hrb].
      * destruct Hcur as [->|[[? _] _]]; done.
      * destruct Hcur as [->|[_ ?]]; done.
    + destruct (wf_entry0 _ _ He0). by split.
  - intros f pf Hf. destruct (wf_fetch0 _ _ Hf) as [Ha Ht Hr]. split; [done|..].
    + by apply tracked_set_entry.
    + intros cur Hfrom. destruct (Hr _ Hfrom) as (Hv & Hp & (en1 & He1 & Hs1) & Hc).
      split; [done|]. split; [done|]. split.
      { unfold settled. simpl. destruct (decide (pf_entry pf = e)) as [Heq|Hne].
        - exists en'. rewrite Heq, lookup_insert_eq. split; [done|]. apply Hset. congruence.
        - exists en1. by rewrite lookup_insert_ne. }
      simpl. intros en0 [[Heq0 <-]|[Hne He0]]%lookup_insert_Some Hptr; [|by apply Hc].
      destruct Hcur as [Heq|[[_ Hun'] _]].
      { rewrite Heq in *. apply Hc; [by rewrite <-Heq0|done]. }
      exfalso. by eapply Hun'.
  - intros s e0 Hs. by apply tracked_set_entry, wf_snapshot0.
Qed.

(** *** Fetches *)

Lemma wf_insert_fetch w w' f pf :
  wf w → same_core w w' →
  (f < w_next w')%positive → w_fetches w !! f = None ∨ (∃ pf0, w_fetches w !! f = Some pf0 ∧ fetch_evolves pf0 pf) →
  tracked w (pf_subject pf) (pf_entry pf) →
  (∀ cur, pf_refresh_from pf = Some cur → refresh_source w (pf_entry pf) cur) →
  wf (set_fetches (<[f := pf]> (w_fetches w')) w') ∧
  evolves w (set_fetches (<[f := pf]> (w_fetches w')) w').
Proof.
  intros Hwf Hc Hf Hold Ht Hr.
  pose proof (wf_same_core _ _ Hc Hwf) as Hwf'.
  pose proof (evolves_same_core _ _ Hc) as Ev.
  assert (evolves w' (set_fetches (<[f := pf]> (w_fetches w')) w')) as Ev'.
  { split; try done.
    - intros e en He. by exists en.
    - intros f0 pf0 Hf0. simpl. destruct (decide (f0 = f)) as [->|].
      + exists pf. rewrite lookup_insert_eq. split; [done|].
        rewrite (sc_fetches _ _ Hc) in Hf0. destruct Hold as [?|(pf1 & ? & ?)]; by simplify_eq.
      + exists pf0. by rewrite lookup_insert_ne. }
  pose proof (transitivity Ev Ev') as Ev2.
  split; [|done]. destruct Hwf'. split; try done; simpl.
  - intros e en He. destruct (wf_entry0 _ _ He). split; try done.
    intros f0 (pf0 & Hf0 & Hpf0)%eo_pending0. simpl.
    destruct (decide (f0 = f)) as [->|]; [|exists pf0; by rewrite lookup_insert_ne].
    exists pf. rewrite lookup_insert_eq. split; [done|].
    rewrite (sc_fetches _ _ Hc) in Hf0.
    destruct Hold as [?|(pf1 & ? & [])]; simplify_eq. congruence.
  - intros f0 pf0 [[<- <-]|[Hne Hf0]]%lookup_insert_Some.
    + split; [done|by eapply (tracked_stable w)|].
      intros cur Hcur. eapply (refresh_source_stable w); [apply Ht|done|auto].
    + destruct (wf_fetch0 _ _ Hf0) as [Ha [Hex Hl] Hr0]. by split.
Qed.

(** *** The slots of the subject map *)

(** Replacing the container by one that lists the same entries under the same
    subjects, or drops slots whose entries are already stale. *)
Lemma wf_set_subjects w c :
  wf w → lru_wf c → lru_cap c = lru_cap (w_subjects w) →
  NoDup (slot_id <$> lru_iter c) →
  (∀ s slot, (s, slot) ∈ lru_iter c → listed_as w s (slot_entry slot)) →
  (∀ e, listed w e → e ∈ (slot_id <$> lru_iter c) ∨ is_retired w e) →
  wf (set_subjects c w) ∧ evolves w (set_subjects c w).
Proof.
  intros Hwf Hc Hcap Hnd Hsub Hdrop.
  assert (Hl : ∀ s e, listed_as (set_subjects c w) s e → listed_as w s e).
  { intros s e (slot & Hin & <-). by apply Hsub. }
  assert (evolves w (set_subjects c w)) as Ev.
  { split; try done.
    - intros e en He. by exists en.
    - intros f pf Hf. by exists pf.
    - auto. }
  split; [|done]. destruct Hwf. split; try done.
  - simpl. congruence.
  - intros e (s & Hs)%listed_iff. apply wf_listed0, listed_iff. exists s. auto.
  - intros e en He Hun. destruct (decide (listed w e)) as [Hin|Hin].
    + destruct (Hdrop _ Hin) as [?|(en' & He' & Hst)]; [done|]. by simplify_eq/=.
    + by eapply wf_unlisted0.
  - intros e en He. destruct (wf_entry0 _ _ He). by split.
  - intros f pf Hf. destruct (wf_fetch0 _ _ Hf) as [Ha Ht Hr]. split; [done|..|done].
    by eapply tracked_stable.
  - intros s e Hs. eapply tracked_stable; [done|]. by apply wf_snapshot0.
Qed.

(** *** The published snapshot *)

Lemma wf_set_snapshot w m :
  wf w → (∀ s e, m !! s = Some e → tracked w s e) →
  (w_connected w = false → m = ∅) →
  wf (set_snapshot m w) ∧ evolves w (set_snapshot m w).
Proof.
  intros Hwf Hm Hoff. split.
  - destruct Hwf. split; try done.
    + intros e en He. destruct (wf_entry0 _ _ He). by split.
    + intros f pf Hf. destruct (wf_fetch0 _ _ Hf). by split.
  - split; try done; [intros e en He; by exists en|intros f pf Hf; by exists pf].
Qed.

(** Fields outside the invariant that other components read. *)
Lemma wf_set_publish w p : wf w → wf (set_publish p w) ∧ evolves w (set_publish p w).
Proof.
  intros Hwf. split.
  - destruct Hwf. split; try done.
    + intros e en He. destruct (wf_entry0 _ _ He). by split.
    + intros f pf Hf. destruct (wf_fetch0 _ _ Hf). by split.
  - split; try done; [intros e en He; by exists en|intros f pf Hf; by exists pf].
Qed.

Lemma wf_set_disconnected_since w v :
  wf w → wf (set_disconnected_since v w) ∧ evolves w (set_disconnected_since v w).
Proof.
  intros Hwf. split.
  - destruct Hwf. split; try done.
    + intros e en He. destruct (wf_entry0 _ _ He). by split.
    + intros f pf Hf. destruct (wf_fetch0 _ _ Hf). by split.
  - split; try done; [intros e en He; by exists en|intros f pf Hf; by exists pf].
Qed.

Lemma wf_set_connected w b :
  wf w → (b = false → w_snapshot w = ∅) →
  wf (set_connected b w) ∧ evolves w (set_connected b w).
Proof.
  intros Hwf Hb. split.
  - destruct Hwf. split; try done.
    + intros e en He. destruct (wf_entry0 _ _ He). by split.
    + intros f pf Hf. destruct (wf_fetch0 _ _ Hf). by split.
  - split; try done; [intros e en He; by exists en|intros f pf Hf; by exists pf].
Qed.
End invariant.
