(* ===== verification/EntryMethods.v ===== *)
(** * EntryMethods: entry operations on the shared heap keep the invariant

    Every method of [Entry] and [Admission], with the exact change it makes. *)

From S2P Require Export Invariant.

Section entry_methods.
Context {T P C : Type} `{Countable T, !LruCache T SubjectSlot C}.
Implicit Types (w : World T P C) (e f : positive) (s : T) (en : Entry P).

(** Everything but the two heaps and the bookkeeping is untouched. *)
Record env_same w w' : Prop := {
  es_config : w_config w' = w_config w;
  es_connected : w_connected w' = w_connected w;
  es_subjects : w_subjects w' = w_subjects w;
  es_snapshot : w_snapshot w' = w_snapshot w;
  es_clock : w_clock w' = w_clock w;
  es_publish : w_publish w' = w_publish w;
  es_since : w_disconnected_since w' = w_disconnected_since w;
}.

#[export] Instance env_same_preorder : PreOrder env_same.
Proof.
  split; [by intros w; split|].
  intros w1 w2 w3 [] []. split; congruence.
Qed.

Lemma env_same_listed_as w w' s e : env_same w w' → listed_as w' s e ↔ listed_as w s e.
Proof. intros Hs. unfold listed_as, slots. by rewrite (es_subjects _ _ Hs). Qed.

Lemma env_same_listed w w' e : env_same w w' → listed w' e ↔ listed w e.
Proof. intros Hs. unfold listed, slots. by rewrite (es_subjects _ _ Hs). Qed.

(** ** Updating one entry through its own operation *)

Lemma with_entry_from {A} w0 w e en (op : Entry P → A * Entry P) a en'
    (Q : A → World T P C → Prop) :
  wf w → evolves w0 w → w_entries w !! e = Some en → op en = (a, en') →
  epoch en' = epoch en → refresh_before en' = refresh_before en →
  (current en' = current en ∨
   (w_next w0 ≤ sn_ptr (current en'))%positive ∧
   unused w (sn_ptr (current en')) ∧ snapshot_ok w (current en')) →
  (∀ f, pending en' = Some f → ∃ pf, w_fetches w !! f = Some pf ∧ pf_entry pf = e) →
  (¬ listed w e → retired en') →
  (entry_decode en ≠ EntryState.Pending → entry_decode en' ≠ EntryState.Pending) →
  Q a (set_entries (<[e := en']> (w_entries w)) w) →
  run_from w0 w (with_entry e op) Q.
Proof.
  intros Hwf Ev He Hop Hep Hrb Hcur Hpend Hun Hset HQ.
  exists a, (set_entries (<[e := en']> (w_entries w)) w). split_and!; [..|done].
  - unfold with_entry. by rewrite He, Hop.
  - eapply wf_set_entry; try done. destruct Hcur as [?|(_ & ? & ?)]; auto.
  - eapply evolves_set_entry; try done. destruct Hcur as [?|(? & _ & _)]; auto.
Qed.

Lemma own_pending w e en f :
  wf w → w_entries w !! e = Some en → pending en = Some f →
  ∃ pf, w_fetches w !! f = Some pf ∧ pf_entry pf = e.
Proof. intros Hwf He. apply (eo_pending _ _ _ (wf_entry _ Hwf _ _ He)). Qed.

Lemma stale_unlisted w e en :
  wf w → w_entries w !! e = Some en → ¬ listed w e → entry_decode en = EntryState.Stale.
Proof. intros Hwf He. by apply (wf_unlisted _ Hwf). Qed.

Lemma retired_unlisted w e en :
  wf w → w_entries w !! e = Some en → ¬ listed w e → retired en.
Proof. intros Hwf He. by apply (wf_unlisted _ Hwf). Qed.

(** Only listed entries have a lookup. *)
Lemma pending_listed w e en f :
  wf w → w_entries w !! e = Some en → pending en = Some f → listed w e.
Proof.
  intros Hwf He Hp. destruct (decide (listed w e)) as [|Hn]; [done|].
  destruct (retired_unlisted _ _ _ Hwf He Hn). congruence.
Qed.

Lemma current_ok w e en : wf w → w_entries w !! e = Some en → snapshot_ok w (current en).
Proof. intros Hwf He. apply (eo_snapshot _ _ _ (wf_entry _ Hwf _ _ He)). Qed.

Lemma snapshot_ok_stale w (sn : EntrySnapshot P) ptr :
  snapshot_ok w sn → snapshot_ok w (mkSnapshot ptr (mark_stale (sn_word sn)) None 0).
Proof.
  intros (Hw & _). split; [|split]; simpl.
  - red in Hw. red. rewrite mark_stale_val. rewrite u64_max_val in *.
    Z.to_euclidean_division_equations; lia.
  - rewrite no_expiry_val. lia.
  - unfold fields_fit. simpl. by rewrite mark_stale_decode.
Qed.

(** ** [current_at] and the readings derived from it *)

Definition read_post w e en now (sx : EntrySnapshot P * bool) w' : Prop :=
  env_same w w' ∧ w_fetches w' = w_fetches w ∧
  ∃ en', w_entries w' = <[e := en']> (w_entries w) ∧
    (is_expired_at en (sn_word (current en)) now = false ∧
     sx = (current en, false) ∧ en' = en ∨
     is_expired_at en (sn_word (current en)) now = true ∧
     sx.2 = true ∧ en' = set_current sx.1 en ∧ entry_decode en' = EntryState.Stale).

Lemma entry_current_at_from w0 w e en now :
  wf w → evolves w0 w → w_entries w !! e = Some en →
  run_from w0 w (entry_current_at e now) (read_post w e en now).
Proof.
  intros Hwf Ev He. eapply run_from_bind.
  { eapply run_ok_from; [by apply alloc_ok|done|]. by intros a w1 _ _ Hp; apply Hp. }
  intros ptr w1 Hwf1 Ev1 (-> & Hc & Hun & _).
  assert (w_entries w1 !! e = Some en) as He1 by by rewrite (sc_entries _ _ Hc).
  assert (env_same w w1) as Hs by (destruct Hc; by split).
  destruct (is_expired_at en (sn_word (current en)) now) eqn:Hx.
  - destruct (current_at_expired en now (w_next w) Hx) as (sn & Hrun & Hw & Hsn).
    assert (decode_entry_state (sn_word sn) = EntryState.Stale) as Hst
      by (rewrite Hw; apply mark_stale_decode).
    eapply with_entry_from; [done|done|done|exact Hrun|done|done|..].
    + destruct Hsn as [->|(Hp & Hpay & Hra & _)]; [by left|]. right. simpl.
      rewrite Hp. split; [apply Ev|]. split; [done|].
      destruct sn as [ptr wd pay ra]; simpl in *. subst.
      by apply snapshot_ok_stale, (current_ok w1 e).
    + intros f. by apply (own_pending w1 e en).
    + intros Hn. split; [done|]. by apply (retired_unlisted w1 e en).
    + intros _. unfold entry_decode. simpl. by rewrite Hst.
    + split; [by destruct Hs|]. split; [apply Hc|]. simpl.
      exists (set_current sn en). rewrite (sc_entries _ _ Hc). split; [done|].
      right. by split_and!.
  - eapply with_entry_from; [done|done|done|by apply current_at_fresh|done|done| | | | |].
    + by left.
    + intros f. by apply (own_pending w1 e en).
    + by apply (retired_unlisted w1).
    + done.
    + split; [by destruct Hs|]. split; [apply Hc|]. simpl. exists en.
      rewrite (sc_entries _ _ Hc). split; [done|]. left. by split_and!.
Qed.

(** A reading [g] of what [current_at] returned. *)
Lemma read_from {A} w0 w e en now (g : EntrySnapshot P * bool → A) :
  wf w → evolves w0 w → w_entries w !! e = Some en →
  run_from w0 w (sx ← entry_current_at e now; mret (g sx))
    (λ a w', ∃ sx, read_post w e en now sx w' ∧ a = g sx).
Proof.
  intros Hwf Ev He. eapply run_from_bind; [by apply entry_current_at_from|].
  intros sx w1 Hwf1 Ev1 Hp. apply run_from_ret; eauto.
Qed.

Lemma entry_state_at_from w0 w e en now :
  wf w → evolves w0 w → w_entries w !! e = Some en →
  run_from w0 w (entry_state_at e now)
    (λ st w', ∃ sx, read_post w e en now sx w' ∧ st = state_of sx).
Proof. apply read_from. Qed.

Lemma entry_verdict_at_from w0 w e en now :
  wf w → evolves w0 w → w_entries w !! e = Some en →
  run_from w0 w (entry_verdict_at e now)
    (λ v w', ∃ sx, read_post w e en now sx w' ∧ v = verdict_of sx).
Proof. apply read_from. Qed.

(** A settled entry is never read as pending. *)
Lemma read_post_observed w e en now sx w' :
  read_post w e en now sx w' → entry_decode en ≠ EntryState.Pending →
  ∃ o, observed_of sx = Some o.
Proof.
  intros (_ & _ & en' & _ & [(_ & -> & _)|(_ & Hx & _)]) Hset; unfold observed_of.
  - simpl. unfold entry_decode in Hset.
    destruct (decode_entry_state (sn_word (current en))); by eauto.
  - rewrite Hx. eauto.
Qed.

Lemma entry_observed_at_from w0 w e en now :
  wf w → evolves w0 w → w_entries w !! e = Some en →
  entry_decode en ≠ EntryState.Pending →
  run_from w0 w (entry_observed_at e now)
    (λ o w', ∃ sx, read_post w e en now sx w' ∧ observed_of sx = Some o).
Proof.
  intros Hwf Ev He Hset. eapply run_from_bind; [by apply entry_current_at_from|].
  intros sx w1 Hwf1 Ev1 Hp. destruct (read_post_observed _ _ _ _ _ _ Hp Hset) as [o Ho].
  exists o, w1. rewrite Ho. split_and!; eauto.
Qed.

(** ** Stores *)

Lemma entry_compare_exchange_from w0 w e en expected next :
  wf w → evolves w0 w → w_entries w !! e = Some en →
  (w_next w0 ≤ sn_ptr next)%positive → unused w (sn_ptr next) → snapshot_ok w next →
  decode_entry_state (sn_word next) ≠ EntryState.Pending →
  (listed w e ∨ expected ≠ EntryState.Stale) →
  run_from w0 w (entry_compare_exchange e expected next)
    (λ r w', w' = set_entries (<[e :=
        if bool_decide (entry_decode en = expected) then set_current next en else en]>
        (w_entries w)) w ∧
      r = if bool_decide (entry_decode en = expected) then Ok tt else Err (entry_decode en)).
Proof.
  intros Hwf Ev He Hnew Hun Hok Hset Hl.
  eapply with_entry_from; [done|done|done|apply compare_exchange_eq'|..].
  all: case_bool_decide as Hst; simpl; try done; try (by auto).
  all: try (intros f; by apply (own_pending w e en)).
  - intros Hnl. exfalso. destruct Hl as [?|Hne]; [done|].
    apply Hne. rewrite <-Hst. by apply (stale_unlisted w e).
  - by apply (retired_unlisted w).
  - unfold entry_decode. by rewrite bool_decide_eq_true_2.
  - unfold entry_decode. by rewrite bool_decide_eq_false_2.
Qed.

Lemma entry_swap_current_from w0 w e en old next :
  wf w → evolves w0 w → w_entries w !! e = Some en →
  (w_next w0 ≤ sn_ptr next)%positive → unused w (sn_ptr next) → snapshot_ok w next →
  decode_entry_state (sn_word next) ≠ EntryState.Pending →
  refresh_source w e old →
  run_from w0 w (entry_swap_current e old next)
    (λ r w', w' = set_entries (<[e :=
        if bool_decide (sn_ptr (current en) = sn_ptr old) then set_current next en else en]>
        (w_entries w)) w ∧
      r = bool_decide (sn_ptr (current en) = sn_ptr old)).
Proof.
  intros Hwf Ev He Hnew Hun Hok Hset (Hv & Hp & _ & Hsame).
  eapply with_entry_from; [done|done|done|apply swap_current_eq'|..].
  all: case_bool_decide as Hst; simpl; try done; try (by auto).
  all: try (intros f; by apply (own_pending w e en)).
  - intros Hnl. exfalso. pose proof (stale_unlisted _ _ _ Hwf He Hnl) as Hs.
    unfold entry_decode in Hs. rewrite (Hsame _ He Hst) in Hs. by rewrite Hs in Hv.
  - by apply (retired_unlisted w).
Qed.

(** ** The pending slot *)

(** What the slot of [e] may hold. *)
Definition owned_by w e (p : option positive) : Prop :=
  ∀ f, p = Some f → listed w e ∧ ∃ pf, w_fetches w !! f = Some pf ∧ pf_entry pf = e.

Lemma set_pending_from {A} w0 w e en (a : A) (op : Entry P → A * Entry P) p
    (Q : A → World T P C → Prop) :
  wf w → evolves w0 w → w_entries w !! e = Some en →
  op en = (a, set_pending p en) →
  owned_by w e p →
  Q a (set_entries (<[e := set_pending p en]> (w_entries w)) w) →
  run_from w0 w (with_entry e op) Q.
Proof.
  intros Hwf Ev He Hop Hp HQ.
  eapply with_entry_from; [done|done|done|exact Hop|done|done|by left| | |done|done].
  - intros f Hf. by apply Hp.
  - intros Hn. split; [by apply (stale_unlisted w e en)|]. simpl.
    destruct p as [f|]; [|done]. by destruct (Hp f eq_refl).
Qed.

Lemma entry_claim_pending_from w0 w e en f pf :
  wf w → evolves w0 w → w_entries w !! e = Some en →
  w_fetches w !! f = Some pf → pf_entry pf = e → listed w e →
  run_from w0 w (entry_claim_pending e f)
    (λ r w', w' = set_entries (<[e :=
        match pending en with None => set_pending (Some f) en | Some _ => en end]>
        (w_entries w)) w ∧
      r = match pending en with None => true | Some _ => false end).
Proof.
  intros Hwf Ev He Hf Hpf Hl. destruct (pending en) as [g|] eqn:Hp.
  - eapply (set_pending_from _ _ _ en false _ (Some g)); try done.
    + rewrite Hp. by destruct en; simpl in *; subst.
    + intros f' [= <-]. split; [done|]. by eapply own_pending.
    + split; [|done]. by destruct en; simpl in *; subst.
  - eapply (set_pending_from _ _ _ en true _ (Some f)); try done.
    + by rewrite Hp.
    + intros f' [= <-]. eauto.
Qed.

Lemma entry_pending_generation_from w0 w e en g :
  wf w → evolves w0 w → w_entries w !! e = Some en →
  run_from w0 w (entry_pending_generation e g)
    (λ r w', w' = w ∧ r = if bool_decide (pending en = Some g) then Some g else None).
Proof.
  intros Hwf Ev He.
  exists (if bool_decide (pending en = Some g) then Some g else None), w.
  split_and!; try done. unfold entry_pending_generation, entry_pending_operation, load_entry.
  unfold mbind, M_bind, mret, M_ret, expect. rewrite He.
  destruct (pending en) as [f|]; [|done].
  destruct (decide (f = g)) as [->|Hne].
  - by rewrite !bool_decide_eq_true_2.
  - rewrite !bool_decide_eq_false_2; [done|congruence|done].
Qed.

Lemma entry_replace_pending_from w0 w e en g p :
  wf w → evolves w0 w → w_entries w !! e = Some en → owned_by w e p →
  run_from w0 w (entry_replace_pending e g p)
    (λ r w', w' = (if bool_decide (pending en = Some g)
                   then set_entries (<[e := set_pending p en]> (w_entries w)) w else w) ∧
      r = bool_decide (pending en = Some g)).
Proof.
  intros Hwf Ev He Hp.
  eapply run_from_bind; [by apply entry_pending_generation_from|].
  intros r w1 Hwf1 Ev1 [-> ->]. case_bool_decide as Hg.
  - eapply (set_pending_from _ _ _ en true _ p); try done.
    by rewrite bool_decide_eq_true_2.
  - by apply run_from_ret.
Qed.

(** *** Aborting and invalidating *)

Definition fetch_aborted w f : Prop :=
  ∃ pf, w_fetches w !! f = Some pf ∧ pf_aborted pf = true.

Lemma pending_fetch_abort_from w0 w f pf :
  wf w → evolves w0 w → w_fetches w !! f = Some pf →
  run_from w0 w (pending_fetch_abort f)
    (λ _ w', w' = set_fetches (<[f := pf_abort pf]> (w_fetches w)) w).
Proof.
  intros Hwf Ev Hf. destruct (wf_fetch _ Hwf _ _ Hf) as [Ha Ht Hr].
  exists tt, (set_fetches (<[f := pf_abort pf]> (w_fetches w)) w).
  assert (wf (set_fetches (<[f := pf_abort pf]> (w_fetches w)) w) ∧
          evolves w (set_fetches (<[f := pf_abort pf]> (w_fetches w)) w)) as [? ?].
  { apply wf_insert_fetch; try done. right. exists pf. by split. }
  split_and!; [|done|by etransitivity|done].
  unfold pending_fetch_abort, with_fetch. by rewrite Hf.
Qed.

(** [abort_pending] empties the slot and aborts what it held. *)
Definition abort_post w e en w' : Prop :=
  env_same w w' ∧ w_entries w' = <[e := set_pending None en]> (w_entries w) ∧
  (∀ f, pending en = Some f → fetch_aborted w' f) ∧
  (∀ f, pending en ≠ Some f → w_fetches w' !! f = w_fetches w !! f).

Lemma entry_abort_pending_from w0 w e en :
  wf w → evolves w0 w → w_entries w !! e = Some en →
  run_from w0 w (entry_abort_pending e) (λ _ w', abort_post w e en w').
Proof.
  intros Hwf Ev He. eapply run_from_bind.
  { eapply (set_pending_from _ _ _ en (pending en) _ None
      (λ a w', a = pending en ∧
         w' = set_entries (<[e := set_pending None en]> (w_entries w)) w)); try done. }
  intros p w1 Hwf1 Ev1 [-> ->]. destruct (pending en) as [f|] eqn:Hp.
  - destruct (own_pending _ _ _ _ Hwf He Hp) as (pf & Hf & Hpf).
    eapply run_from_weaken; [by eapply pending_fetch_abort_from|].
    simpl. intros _ w' _ _ ->. split; [done|]. split; [done|]. simpl. split.
    + intros f' Hf'. rewrite Hp in Hf'. simplify_eq.
      exists (pf_abort pf). simpl. by rewrite lookup_insert_eq.
    + intros f' Hne. rewrite lookup_insert_ne; [done|congruence].
  - apply run_from_ret; [done|done|]. split; [done|]. split; [done|].
    split; [intros f' Hf'; congruence|done].
Qed.

(** The lookups of other entries are left alone. *)
Definition others_fetches w e w' : Prop :=
  ∀ f pf, w_fetches w !! f = Some pf → pf_entry pf ≠ e → w_fetches w' !! f = Some pf.

(** [invalidate]: stale, without payload, with no lookup left running. *)
Definition invalidate_post w e w' : Prop :=
  env_same w w' ∧ is_retired w' e ∧
  (∃ en', w_entries w' = <[e := en']> (w_entries w) ∧ pending en' = None ∧
     sn_payload (current en') = None) ∧
  (∀ en f, w_entries w !! e = Some en → pending en = Some f → fetch_aborted w' f) ∧
  others_fetches w e w'.

Lemma entry_invalidate_from w0 w e :
  wf w → evolves w0 w → is_Some (w_entries w !! e) →
  run_from w0 w (entry_invalidate e) (λ _ w', invalidate_post w e w').
Proof.
  intros Hwf Ev [en He]. eapply run_from_bind.
  { eapply run_ok_from; [by apply alloc_ok|done|]. by intros a w1 _ _ Hp; apply Hp. }
  intros ptr w1 Hwf1 Ev1 (-> & Hc & Hun & _).
  assert (w_entries w1 !! e = Some en) as He1 by by rewrite (sc_entries _ _ Hc).
  pose (en1 := set_current (mkSnapshot (w_next w) (mark_stale (sn_word (current en))) None 0) en).
  assert (entry_decode en1 = EntryState.Stale) as Hst by apply mark_stale_decode.
  eapply run_from_bind.
  { eapply (with_entry_from _ _ _ en _ tt en1
      (λ _ w', w' = set_entries (<[e := en1]> (w_entries w1)) w1)); try done.
    - right. simpl. split; [apply Ev|]. split; [done|].
      by apply snapshot_ok_stale, (current_ok w1 e).
    - intros f. by apply (own_pending w1 e en).
    - intros Hn. split; [exact Hst|]. by apply (retired_unlisted w1 e en).
    - by rewrite Hst. }
  intros _ w2 Hwf2 Ev2 ->.
  eapply run_from_weaken; [apply (entry_abort_pending_from _ _ _ en1); try done|].
  { simpl. by rewrite lookup_insert_eq. }
  intros _ w' Hwf' Ev' (Hs & He' & Hab & Hother). split.
  { destruct Hs, Hc. simpl in *. split; congruence. }
  assert (w_entries w' = <[e := set_pending None en1]> (w_entries w)) as Heq.
  { rewrite He'. simpl. by rewrite (sc_entries _ _ Hc), insert_insert_eq. }
  split_and!.
  - exists (set_pending None en1). split; [by rewrite Heq, lookup_insert_eq|done].
  - eexists. split; [exact Heq|]. done.
  - intros en0 f He0 Hp. simplify_eq. by apply Hab.
  - intros f pf Hf Hne. rewrite Hother; [simpl; by rewrite (sc_fetches _ _ Hc)|].
    intros Hp. destruct (own_pending _ _ _ _ Hwf He Hp) as (pf' & ? & ?). by simplify_eq.
Qed.

Lemma entry_admission_from w0 w e en :
  wf w → evolves w0 w → w_entries w !! e = Some en →
  run_from w0 w (entry_admission e)
    (λ r w', ∃ sx, read_post w e en (w_clock w (w_reads w)) sx w' ∧
       r = match verdict_of sx with Some _ => Some e | None => None end).
Proof.
  intros Hwf Ev He. eapply run_from_bind.
  { eapply run_ok_from; [by apply D_now_ok|done|]. intros a w1 _ _ Hp; exact Hp. }
  intros now w1 Hwf1 Ev1 (-> & Hc & Hreads).
  assert (w_entries w1 !! e = Some en) as He1 by by rewrite (sc_entries _ _ Hc).
  eapply run_from_bind; [by apply entry_verdict_at_from|].
  intros v w2 Hwf2 Ev2 (sx & (Hs & Hf & en' & He' & Hsx) & ->).
  apply run_from_ret; [done|done|]. exists sx. split; [|done].
  split; [destruct Hs, Hc; split; congruence|].
  rewrite (sc_entries _ _ Hc), (sc_fetches _ _ Hc) in *. split; [done|]. eauto.
Qed.

(** A verdict is only read from a listed entry. *)
Lemma verdict_listed w e en now sx w' d :
  wf w → w_entries w !! e = Some en → read_post w e en now sx w' →
  verdict_of sx = Some d →
  listed w e ∧ entry_decode en = EntryState.from d ∧
  is_expired_at en (sn_word (current en)) now = false.
Proof.
  intros Hwf He (_ & _ & en' & _ & [(Hx & -> & _)|(_ & Hx & _)]) Hv.
  - unfold verdict_of in Hv; simpl in Hv. unfold entry_decode.
    destruct (decode_entry_state (sn_word (current en))) eqn:Hd; simplify_eq;
      (split; [|done]); destruct (decide (listed w e)) as [?|Hn]; try done;
      pose proof (stale_unlisted _ _ _ Hwf He Hn) as Hs; unfold entry_decode in Hs;
      by rewrite Hd in Hs.
  - unfold verdict_of in Hv. by rewrite Hx in Hv.
Qed.
End entry_methods.
