(* ===== verification/MapMethods.v ===== *)
(** * MapMethods: the subject map keeps the invariant

    Total correctness of every [SubjectMap] method: which slots stay, which
    leave, and that whatever leaves is invalidated. *)

From S2P Require Export EntryMethods.

Section map_methods.
Context {T P C : Type} `{Countable T, !LruCache T SubjectSlot C, !LruCacheOk T SubjectSlot C}.
Implicit Types (w : World T P C) (e f : positive) (s : T) (en : Entry P) (c : C).

Lemma run_from_assoc {A B D} w0 w (m : M (World T P C) A) (k1 : A → M (World T P C) B)
    (k2 : B → M (World T P C) D) Q :
  run_from w0 w ((m ≫= k1) ≫= k2) Q → run_from w0 w (m ≫= λ a, k1 a ≫= k2) Q.
Proof.
  unfold run_from, mbind, M_bind. destruct (m w) as [[a w1]|]; done.
Qed.

(** What map methods leave alone. *)
Record shared_same w w' : Prop := {
  ss_config : w_config w' = w_config w;
  ss_connected : w_connected w' = w_connected w;
  ss_snapshot : w_snapshot w' = w_snapshot w;
  ss_clock : w_clock w' = w_clock w;
  ss_publish : w_publish w' = w_publish w;
  ss_since : w_disconnected_since w' = w_disconnected_since w;
  ss_cap : lru_cap (w_subjects w') = lru_cap (w_subjects w);
}.

#[export] Instance shared_same_preorder : PreOrder shared_same.
Proof.
  split; [by intros w; split|]. intros w1 w2 w3 [] []. split; congruence.
Qed.

Lemma env_shared_same w w' : env_same w w' → shared_same w w'.
Proof. intros []. split; congruence. Qed.

Lemma core_shared_same w w' : same_core w w' → shared_same w w'.
Proof. intros []. split; congruence. Qed.

Lemma core_slots w w' : same_core w w' → slots w' = slots w.
Proof. intros Hc. unfold slots. by rewrite (sc_subjects _ _ Hc). Qed.

(** ** Slots and their entries *)

Lemma slots_nodup_keys w : wf w → NoDup (slots w).*1.
Proof. intros Hwf. apply lru_keys, wf_lru, Hwf. Qed.

Lemma listed_elem w kv : kv ∈ slots w → listed w (slot_id kv).
Proof. intros Hin. apply list_elem_of_fmap. eauto. Qed.

Lemma slot_of_entry w s s' slot slot' :
  wf w → (s, slot) ∈ slots w → (s', slot') ∈ slots w →
  slot_entry slot = slot_entry slot' → (s, slot) = (s', slot').
Proof.
  intros Hwf H1 H2 Heq. pose proof (wf_nodup _ Hwf) as Hnd.
  apply list_elem_of_lookup in H1 as [i Hi]. apply list_elem_of_lookup in H2 as [j Hj].
  assert (i = j) as ->; [|congruence].
  eapply (NoDup_lookup _ _ _ (slot_entry slot) Hnd); rewrite list_lookup_fmap.
  - by rewrite Hi.
  - rewrite Hj. simpl. by rewrite Heq.
Qed.

Lemma listed_as_unique w s s' e :
  wf w → listed_as w s e → listed_as w s' e → s = s'.
Proof.
  intros Hwf (sl & H1 & <-) (sl' & H2 & Heq).
  by pose proof (slot_of_entry _ _ _ _ _ Hwf H1 H2 (eq_sym Heq)) as [= -> _].
Qed.

Lemma peek_listed w s slot :
  wf w → lru_peek s (w_subjects w) = Some slot ↔ (s, slot) ∈ slots w.
Proof.
  intros Hwf. rewrite lru_peek_ok by apply Hwf. split.
  - apply assoc_Some_elem.
  - apply assoc_elem_Some, slots_nodup_keys, Hwf.
Qed.

Lemma listed_as_same_key w s e e' :
  wf w → listed_as w s e → listed_as w s e' → e = e'.
Proof.
  intros Hwf (sl & H1 & <-) (sl' & H2 & <-).
  apply peek_listed in H1, H2; try done. congruence.
Qed.

(** ** Dropping a slot *)

Lemma entry_invalidate_commute c e w :
  entry_invalidate e (set_subjects c w) =
  match entry_invalidate e w with
  | Some (a, w') => Some (a, set_subjects c w')
  | None => None
  end.
Proof.
  unfold entry_invalidate, entry_abort_pending, pending_fetch_abort, with_entry,
    with_fetch, alloc, mbind, M_bind, mret, M_ret; simpl.
  destruct (w_entries w !! e) as [en|]; simpl; [|done].
  rewrite lookup_insert_eq; simpl. destruct (pending en) as [f|]; [|done]; simpl.
  by destruct (w_fetches w !! f).
Qed.

Definition drop_post w e c w' : Prop :=
  w_subjects w' = c ∧ w_config w' = w_config w ∧ w_connected w' = w_connected w ∧
  w_snapshot w' = w_snapshot w ∧ w_clock w' = w_clock w ∧ w_publish w' = w_publish w ∧
  w_disconnected_since w' = w_disconnected_since w ∧ dead w' e ∧
  (∀ e', e' ≠ e → w_entries w' !! e' = w_entries w !! e') ∧
  (∀ en f, w_entries w !! e = Some en → pending en = Some f → fetch_aborted w' f) ∧
  others_fetches w e w'.

Lemma drop_slot_from w0 w c s slot :
  wf w → evolves w0 w → lru_wf c → lru_cap c = lru_cap (w_subjects w) →
  (s, slot) ∈ slots w →
  NoDup (slot_id <$> lru_iter c) →
  (∀ kv, kv ∈ lru_iter c → kv ∈ slots w ∧ slot_id kv ≠ slot_entry slot) →
  (∀ kv, kv ∈ slots w → kv ∈ lru_iter c ∨ slot_id kv = slot_entry slot) →
  run_from w0 w (_ ← put_subjects c; entry_invalidate (slot_entry slot))
    (λ _ w', drop_post w (slot_entry slot) c w').
Proof.
  intros Hwf Ev Hc Hcap Hin Hnd Hsub Hcov.
  destruct (entry_invalidate_from w0 w (slot_entry slot)) as
    ([] & w1 & Hrun & Hwf1 & Ev1 & Hs & Hst & (en1 & Hen1 & _) & Hab & Hoth); [done..| |].
  { apply (wf_listed _ Hwf). by apply (listed_elem w (s, slot)). }
  assert (slots w1 = slots w) as Hsl by (unfold slots; by rewrite (es_subjects _ _ Hs)).
  destruct (wf_set_subjects w1 c) as [Hwf2 Ev2]; [done|done| |done|..].
  { by rewrite (es_subjects _ _ Hs). }
  { intros s' slot' Hin'. exists slot'. rewrite Hsl. split; [|done]. by apply Hsub. }
  { intros e He. unfold listed in He. rewrite Hsl in He.
    apply list_elem_of_fmap in He as (kv & -> & Hkv).
    destruct (Hcov _ Hkv) as [?|Heq].
    - left. apply list_elem_of_fmap. eauto.
    - right. by rewrite Heq. }
  exists tt, (set_subjects c w1). split_and!; [|done|by etransitivity|].
  - change ((_ ← put_subjects c; entry_invalidate (slot_entry slot)) w)
      with (entry_invalidate (P:=P) (slot_entry slot) (set_subjects c w)).
    by rewrite entry_invalidate_commute, Hrun.
  - destruct Hs. split_and!; try done.
    + split; [|intros Hl].
      { simpl. rewrite Hen1. rewrite lookup_insert_eq. eauto. }
      apply list_elem_of_fmap in Hl as (kv & Heq & Hkv).
      by destruct (Hsub _ Hkv) as [_ ?].
    + intros e' Hne. simpl. rewrite Hen1. by rewrite lookup_insert_ne.
Qed.

(** ** Eviction *)

Definition expired_now w now (kv : T * SubjectSlot) : bool :=
  slot_expired (subject_ttl (w_config w)) now kv.2.

(** The least recently used slots leave, as long as they are expired. *)
Definition evict_post w now w' : Prop :=
  shared_same w w' ∧
  ∃ gone, slots w = slots w' ++ gone ∧
    Forall (λ kv, expired_now w now kv = true) gone ∧
    Forall (λ kv, dead w' (slot_id kv)) gone ∧
    (∀ l kv, slots w' = l ++ [kv] → expired_now w now kv = false) ∧
    (∀ kv, kv ∈ slots w' → w_entries w' !! slot_id kv = w_entries w !! slot_id kv ∧
       ∀ f pf, w_fetches w !! f = Some pf → pf_entry pf = slot_id kv →
         w_fetches w' !! f = Some pf).

Lemma evict_post_nil w now :
  (∀ l kv, slots w = l ++ [kv] → expired_now w now kv = false) → evict_post w now w.
Proof.
  intros Hl. split; [done|]. exists []. rewrite app_nil_r. split_and!; auto.
Qed.

Lemma slots_snoc_nodup w l kv :
  wf w → slots w = l ++ [kv] →
  NoDup (slot_id <$> l) ∧ ∀ kv', kv' ∈ l → slot_id kv' ≠ slot_id kv.
Proof.
  intros Hwf Hl. pose proof (wf_nodup _ Hwf) as Hnd. rewrite Hl, fmap_app in Hnd.
  apply NoDup_app in Hnd as (Hnd & Hdis & _). split; [done|].
  intros kv' Hin Heq. apply (Hdis (slot_id kv')).
  - apply list_elem_of_fmap. eauto.
  - simpl. rewrite Heq. left.
Qed.

(** The eviction of the last slot, and what the loop did after it. *)
Lemma evict_post_snoc w w2 w' now l s slot c :
  wf w → slots w = l ++ [(s, slot)] → lru_iter c = l → lru_cap c = lru_cap (w_subjects w) →
  expired_now w now (s, slot) = true →
  drop_post w (slot_entry slot) c w2 → evolves (set_shape_dirty true w2) w' →
  evict_post (set_shape_dirty true w2) now w' → evict_post w now w'.
Proof.
  intros Hwf Hl Hit Hcap Hx (Hsub & Hcfg & Hconn & Hsn & Hclk & Hpub & Hsince & Hdead & Hkeep & _ & Hoth) Ev'
    (Hs & gone & Hg & Hgx & Hgd & Hlast & Hsame).
  destruct (slots_snoc_nodup _ _ _ Hwf Hl) as [_ Hne].
  assert (Hsl2 : slots w2 = l) by (unfold slots; by rewrite Hsub).
  change (slots (set_shape_dirty true w2)) with (slots w2) in Hg. rewrite Hsl2 in Hg.
  unfold expired_now in *. simpl in *. rewrite Hcfg in *.
  split; [destruct Hs; simpl in *; split; congruence|].
  exists (gone ++ [(s, slot)]). rewrite Hl, Hg, <-app_assoc. split; [done|].
  split; [apply Forall_app; split; [done|by repeat constructor]|].
  split.
  { apply Forall_app. split; [done|]. constructor; [|constructor].
    by eapply (dead_stable _ _ _ Ev'). }
  split; [done|]. intros kv Hkv. destruct (Hsame kv Hkv) as [He Hf].
  assert (slot_id kv ≠ slot_id (s, slot)) as Hnk
    by (apply (Hne kv); rewrite Hg; apply elem_of_app; by left).
  split; [rewrite He; by apply Hkeep|]. intros f pf Hpf Hpe. apply Hf; [|done].
  apply Hoth; [done|]. by rewrite Hpe.
Qed.

Lemma evict_loop_from fuel w0 w now :
  wf w → evolves w0 w → (length (slots w) ≤ fuel)%nat →
  run_from w0 w (evict_loop fuel now) (λ _ w', evict_post w now w').
Proof.
  revert w0 w. induction fuel as [|fuel IH]; intros w0 w Hwf Ev Hlen.
  { apply run_from_ret; [done|done|]. apply evict_post_nil. intros l kv Hl.
    rewrite Hl, length_app in Hlen. simpl in Hlen. lia. }
  simpl. eapply run_from_bind; [eapply run_ok_from; [by apply gets_ok|done|eauto]|].
  intros c w1 Hwf1 Ev1 [-> ->].
  eapply run_from_bind; [eapply run_ok_from; [by apply gets_ok|done|eauto]|].
  intros ttl w1 _ _ [-> ->].
  destruct (snoc_cases (slots w)) as [Hnil|(l & [s slot] & Hl)].
  { rewrite lru_pop_lru_none; [|apply Hwf|done].
    apply run_from_ret; [done|done|]. apply evict_post_nil. intros l kv Hl.
    rewrite Hnil in Hl. by destruct l. }
  destruct (lru_pop_lru_some (w_subjects w) l (s, slot)) as (Hpeek & c & Hpop & Hc & Hcap & Hit);
    [apply Hwf|done|].
  rewrite Hpeek. destruct (slot_expired _ now slot) eqn:Hx.
  2:{ apply run_from_ret; [done|done|]. apply evict_post_nil. intros l' kv Hl'.
      rewrite Hl in Hl'. apply app_inj_tail in Hl' as [_ <-]. exact Hx. }
  rewrite Hpop. destruct (slots_snoc_nodup _ _ _ Hwf Hl) as [Hnd Hne].
  assert (Hin : ∀ kv, kv ∈ slots w ↔ kv ∈ l ∨ kv = (s, slot)).
  { intros kv. rewrite Hl, elem_of_app, list_elem_of_singleton. done. }
  apply run_from_assoc. eapply run_from_bind.
  { apply (drop_slot_from _ _ c s slot); try done.
    - rewrite Hin. by right.
    - by rewrite Hit.
    - intros kv. rewrite Hit, Hin. intros Hkv. split; [by left|]. by apply (Hne kv).
    - intros kv. rewrite Hit, Hin. intros [?| ->]; auto. }
  intros u w2 Hwf2 Ev2 Hdrop.
  assert (Hsl2 : slots w2 = l) by (unfold slots; by rewrite (proj1 Hdrop)).
  eapply run_from_bind.
  { eapply run_ok_from; [apply modify_core_ok; [|done]|done|eauto]. by split. }
  intros _ w3 Hwf3 Ev3 ->.
  eapply run_ok_from; [apply IH; [done|reflexivity|]|done|].
  { change (slots _) with (slots w2). rewrite Hsl2.
    rewrite Hl, length_app in Hlen. simpl in Hlen. lia. }
  intros u' w' _ Ev' Hpost.
  exact (evict_post_snoc w w2 w' now l s slot c Hwf Hl Hit Hcap Hx Hdrop Ev' Hpost).
Qed.

Lemma evict_from w0 w now :
  wf w → evolves w0 w → run_from w0 w (evict now) (λ _ w', evict_post w now w').
Proof.
  intros Hwf Ev. eapply run_from_bind.
  { eapply run_ok_from; [by apply gets_ok|done|eauto]. }
  intros c w1 _ _ [-> ->]. by apply evict_loop_from.
Qed.

(** What eviction cannot take: a slot that is not expired. *)
Lemma evict_keeps w now w' kv :
  evict_post w now w' → kv ∈ slots w → expired_now w now kv = false → kv ∈ slots w'.
Proof.
  intros (_ & gone & Hg & Hx & _) Hin Hkv. rewrite Hg in Hin.
  apply elem_of_app in Hin as [?|Hin]; [done|].
  rewrite Forall_forall in Hx. apply Hx in Hin. congruence.
Qed.

Lemma evict_subset w now w' kv : evict_post w now w' → kv ∈ slots w' → kv ∈ slots w.
Proof. intros (_ & gone & -> & _) Hin. apply elem_of_app. by left. Qed.

(** ** Promotion of a slot *)

Lemma promote_from w0 w c s slot t :
  wf w → evolves w0 w → lru_wf c → lru_cap c = lru_cap (w_subjects w) →
  (s, slot) ∈ slots w →
  lru_iter c = (s, mkSlot (slot_entry slot) t) :: assoc_del s (slots w) →
  run_from w0 w (put_subjects c) (λ _ w', w' = set_subjects c w).
Proof.
  intros Hwf Ev Hc Hcap Hin Hit.
  assert (Hdel : ∀ kv, kv ∈ slots w → kv = (s, slot) ∨ kv ∈ assoc_del s (slots w)).
  { intros [s' slot'] Hkv. destruct (decide (s' = s)) as [->|Hne].
    - left. apply peek_listed in Hkv, Hin; try done. congruence.
    - right. by apply elem_of_assoc_del. }
  destruct (wf_set_subjects w c) as [Hwf' Ev']; [done|done|done|..].
  - rewrite Hit. simpl. apply NoDup_cons. split.
    + intros ([s' slot'] & Heq & Hkv)%list_elem_of_fmap.
      apply elem_of_assoc_del in Hkv as [Hkv Hne].
      pose proof (slot_of_entry _ _ _ _ _ Hwf Hin Hkv Heq) as [= -> _]. done.
    + eapply sublist_NoDup; [apply (wf_nodup _ Hwf)|].
      apply fmap_sublist, assoc_del_sublist.
  - intros s' slot'. rewrite Hit, elem_of_cons. intros [[= -> ->]|Hkv]; simpl.
    + by exists slot.
    + exists slot'. split; [by eapply assoc_del_sub|done].
  - intros e He. left. apply list_elem_of_fmap in He as (kv & -> & Hkv).
    rewrite Hit. simpl. destruct (Hdel _ Hkv) as [->|Hd]; [left|right].
    apply list_elem_of_fmap. eauto.
  - exists tt, (set_subjects c w). split_and!; try done. by etransitivity.
Qed.

(** Reads that change nothing, ahead of a continuation. *)
Lemma run_gets {A B} w0 w (g : World T P C → A) (k : A → M (World T P C) B) Q :
  run_from w0 w (k (g w)) Q → run_from w0 w (gets g ≫= k) Q.
Proof. intros Hk. exact Hk. Qed.

Lemma run_step {A B} w0 w w1 (m : M (World T P C) A) a (k : A → M (World T P C) B) Q :
  m w = Some (a, w1) → run_from w0 w1 (k a) Q → run_from w0 w (m ≫= k) Q.
Proof.
  intros Hrun (b & w' & Hk & Hrest). exists b, w'.
  by rewrite (run_bind_step _ _ _ _ _ Hrun).
Qed.

Lemma run_pure {A B} w0 w (a : A) (k : A → M (World T P C) B) Q :
  run_from w0 w (k a) Q → run_from w0 w (mret a ≫= k) Q.
Proof. intros Hk. exact Hk. Qed.

Lemma fresh_not_expired w s t slot :
  config_typed (w_config w) → t ≤ last_touched slot → expired_now w t (s, slot) = false.
Proof.
  intros Ht Hle. unfold expired_now, slot_expired, u64_saturating_sub. simpl.
  apply Z.ltb_ge. unfold u64_of_nanos, Duration.as_nanos.
  destruct (u64_try_from _) as [n|] eqn:E; rewrite ?u64_max_val; [|lia].
  apply u64_try_from_Some in E as [<- [? _]]. lia.
Qed.

(** [get_mut] and the write-back of the touched slot. *)
Lemma touch_slot_from w0 w s slot t :
  wf w → evolves w0 w → (s, slot) ∈ slots w →
  ∃ put, lru_get_mut s (w_subjects w) = Some (slot, put) ∧
    run_from w0 w (put_subjects (put (slot_touch t slot)))
      (λ _ w', shared_same w w' ∧
         slots w' = (s, slot_touch t slot) :: assoc_del s (slots w) ∧
         w_entries w' = w_entries w).
Proof.
  intros Hwf Ev Hin.
  destruct (lru_get_mut_some s (w_subjects w) slot) as (put & Hget & Hput).
  { apply Hwf. }
  { rewrite <-lru_peek_ok by apply Hwf. by apply peek_listed. }
  exists put. split; [done|]. destruct (Hput (slot_touch t slot)) as (Hc & Hcap & Hit).
  eapply run_from_weaken; [by eapply (promote_from w0 w _ s slot)|].
  intros _ w' _ _ ->. split; [by split|done].
Qed.

Definition touch_post w s e (r : bool) w' : Prop :=
  shared_same w w' ∧
  (r = true ↔ listed_as w s e) ∧
  (r = true → listed_as w' s e).

(** A matching slot is as fresh as the call; the entries that stay listed are as
    they were. *)
Definition touch_kept w s e now (r : bool) w' : Prop :=
  (r = true → ∃ slot, (s, slot) ∈ slots w' ∧ slot_entry slot = e ∧
     map_tick_at (w_activity_epoch w) now ≤ last_touched slot) ∧
  ∀ e', listed w' e' → w_entries w' !! e' = w_entries w !! e'.

Lemma evict_kept w now w' e :
  evict_post w now w' → listed w' e → w_entries w' !! e = w_entries w !! e.
Proof.
  intros (_ & gone & _ & _ & _ & _ & Hkept) (kv & -> & Hin)%list_elem_of_fmap. by apply (Hkept kv).
Qed.

Lemma map_touch_full w0 w s e now :
  wf w → evolves w0 w →
  run_from w0 w (map_touch s e now) (λ r w', touch_post w s e r w' ∧ touch_kept w s e now r w').
Proof.
  intros Hwf Ev. unfold map_touch, map_tick, touch_kept. apply run_gets, run_gets.
  set (t := map_tick_at _ now).
  assert (Hno : ∀ r : bool, r = false → ¬ listed_as w s e →
    run_from w0 w (_ ← mret tt; _ ← evict t; mret r)
      (λ r w', touch_post w s e r w' ∧ touch_kept w s e now r w')).
  { intros r -> Hn. eapply run_from_bind; [by apply run_from_ret with (Q := λ _ w', w' = w)|].
    intros _ w1 _ _ ->. eapply run_from_bind; [by apply evict_from|].
    intros x w2 Hwf2 Ev2 Hev. apply run_from_ret; [done|done|].
    split; [by split; [apply Hev|split]|]. split; [done|]. intros e' Hl. exact (evict_kept w t w2 e' Hev Hl). }
  destruct (lru_peek s (w_subjects w)) as [slot|] eqn:Hp.
  2:{ apply Hno; [done|]. intros (slot & Hin & _).
      apply peek_listed in Hin; [|done]. congruence. }
  pose proof (proj1 (peek_listed _ _ _ Hwf) Hp) as Hin. case_bool_decide as He.
  2:{ apply Hno; [done|]. intros (slot' & Hin' & <-).
      apply peek_listed in Hin'; [|done]. congruence. }
  destruct (touch_slot_from w0 w s slot t) as (put & Hget & Hput); [done..|].
  rewrite Hget. eapply run_from_bind; [exact Hput|].
  intros _ w1 Hwf1 Ev1 (Hs & Hsl & Hen). eapply run_from_bind; [by apply evict_from|].
  intros u w2 Hwf2 Ev2 Hev. apply run_from_ret; [done|done|].
  assert (Hin2 : (s, slot_touch t slot) ∈ slots w2).
  { eapply evict_keeps; [exact Hev|rewrite Hsl; left|].
    apply fresh_not_expired; [apply Hwf1|simpl; lia]. }
  split; [split_and!|split].
  - transitivity w1; [done|apply Hev].
  - split; [|done]. intros _. by exists slot.
  - intros _. by exists (slot_touch t slot).
  - intros _. exists (slot_touch t slot). split; [done|]. split; [done|]. simpl. lia.
  - intros e' Hl. rewrite <-Hen. exact (evict_kept w1 t w2 e' Hev Hl).
Qed.

Lemma map_touch_from w0 w s e now :
  wf w → evolves w0 w → run_from w0 w (map_touch s e now) (touch_post w s e).
Proof.
  intros Hwf Ev. eapply run_from_weaken; [by apply map_touch_full|]. by intros r w' _ _ [Hp _].
Qed.

(** ** Removal *)

Lemma pop_and_invalidate_from w0 w s :
  wf w → evolves w0 w →
  run_from w0 w (pop_and_invalidate s)
    (λ r w', shared_same w w' ∧
       (r = true ↔ ∃ e, listed_as w s e) ∧
       (∀ e, listed_as w s e → dead w' e) ∧
       (∀ s' e, s' ≠ s → listed_as w s' e → listed_as w' s' e)).
Proof.
  intros Hwf Ev. unfold pop_and_invalidate. apply run_gets.
  destruct (lru_pop_ok s (w_subjects w)) as (c & Hpop & Hc & Hcap & Hit); [apply Hwf|].
  rewrite Hpop. destruct (assoc s _) as [slot|] eqn:Ha.
  - pose proof (assoc_Some_elem _ _ _ Ha) as Hin.
    apply run_from_assoc. eapply run_from_bind.
    { apply (drop_slot_from _ _ c s slot); try done.
      - rewrite Hit. eapply sublist_NoDup; [apply (wf_nodup _ Hwf)|].
        apply fmap_sublist, assoc_del_sublist.
      - intros [s' slot']. rewrite Hit. intros [Hkv Hne]%elem_of_assoc_del.
        split; [done|]. intros Heq.
        by pose proof (slot_of_entry _ _ _ _ _ Hwf Hkv Hin Heq) as [= -> _].
      - intros [s' slot'] Hkv. destruct (decide (s' = s)) as [->|].
        + right. apply peek_listed in Hkv; [|done]. rewrite lru_peek_ok in Hkv by apply Hwf.
          unfold slot_id. simpl. congruence.
        + left. rewrite Hit. by apply elem_of_assoc_del. }
    intros _ w2 Hwf2 Ev2 (Hsub & Hcfg & Hconn & Hsn & Hclk & Hpub & Hsince & Hdead & Hkeep & _).
    apply run_from_ret; [done|done|]. split_and!.
    + split; try done. congruence.
    + split; [|done]. intros _. exists (slot_entry slot). by exists slot.
    + intros e Hl. by rewrite (listed_as_same_key w s e (slot_entry slot));
        [| |done|exists slot].
    + intros s' e Hne (slot' & Hkv & <-). exists slot'. split; [|done].
      unfold slots. rewrite Hsub, Hit. by apply elem_of_assoc_del.
  - apply (run_from_bind _ _ _ _ (λ _ w', w' = set_subjects c w)).
    { destruct (wf_set_subjects w c) as [Hwf1 Ev1]; [done|done|done|..].
      - rewrite Hit. eapply sublist_NoDup; [apply (wf_nodup _ Hwf)|].
        apply fmap_sublist, assoc_del_sublist.
      - intros s' slot' Hkv. exists slot'. split; [|done]. rewrite Hit in Hkv.
        by apply assoc_del_sub in Hkv.
      - intros e He. left. by rewrite Hit, assoc_del_absent.
      - exists tt, (set_subjects c w).
        split_and!; try done. by etransitivity. }
    intros _ w2 Hwf2 Ev2 ->. apply run_from_ret; [done|done|].
    assert (Hno : ∀ e, ¬ listed_as w s e).
    { intros e (slot & Hin & _). apply peek_listed in Hin; [|done].
      rewrite lru_peek_ok in Hin by apply Hwf. congruence. }
    split_and!.
    + by split.
    + split; [done|]. intros [e He]. by apply Hno in He.
    + intros e He. by apply Hno in He.
    + intros s' e _ (slot' & Hkv & <-). exists slot'. split; [|done].
      unfold slots. simpl. by rewrite Hit, assoc_del_absent.
Qed.

(** ** Methods that evict first *)

Lemma evict_fate w now w' e :
  wf w' → evolves w w' → evict_post w now w' → listed w e → listed w' e ∨ dead w' e.
Proof.
  intros Hwf' Ev (_ & gone & Hg & _ & Hdead & _) Hl.
  apply list_elem_of_fmap in Hl as (kv & -> & Hkv). rewrite Hg in Hkv.
  apply elem_of_app in Hkv as [Hkv|Hkv].
  - left. by apply listed_elem.
  - right. rewrite Forall_forall in Hdead. by apply Hdead.
Qed.

Lemma evict_fate_as w now w' s e :
  wf w → wf w' → evolves w w' → evict_post w now w' → listed_as w s e →
  listed_as w' s e ∨ dead w' e.
Proof.
  intros Hwf Hwf' Ev Hev Hl.
  destruct (evict_fate _ _ _ e Hwf' Ev Hev) as [(s' & Hs')%listed_iff|?]; [|left|by right].
  { apply listed_iff. eauto. }
  assert (s' = s) as ->; [|done].
  eapply (listed_as_unique w); [done| |done]. destruct Hs' as (slot & Hin & <-).
  exists slot. split; [|done]. by eapply evict_subset.
Qed.

(** Eviction ahead of [k]: what was listed is still listed or dead. *)
Lemma evict_then {A} w0 w now s (k : M (World T P C) A) Q :
  wf w → evolves w0 w →
  (∀ w1, wf w1 → evolves w0 w1 → evolves w w1 → shared_same w w1 →
     (∀ e, listed_as w1 s e → listed_as w s e) →
     (∀ e, listed_as w s e → listed_as w1 s e ∨ dead w1 e) →
     (∀ e, listed_as w1 s e → w_entries w1 !! e = w_entries w !! e) →
     run_from w0 w1 k Q) →
  run_from w0 w (_ ← evict now; k) Q.
Proof.
  intros Hwf Ev Hk.
  destruct (evict_from w w now Hwf) as (u & w1 & Hrun & Hwf1 & Ev1 & Hev); [done|].
  assert (evolves w0 w1) as Ev01 by by etransitivity.
  destruct (Hk w1) as (a & w2 & Hrun2 & Hw2); try done.
  - apply Hev.
  - intros e (slot & Hin & <-). exists slot. split; [by eapply evict_subset|done].
  - intros e. by apply (evict_fate_as _ now).
  - intros e (slot & Hin & <-). destruct Hev as (_ & gone & _ & _ & _ & _ & Hsame).
    apply (Hsame _ Hin).
  - exists a, w2. split; [|done]. by rewrite (run_bind_step _ _ _ _ _ Hrun).
Qed.

(** [remove]: the subject is gone and what it named is dead. *)
Lemma map_remove_from w0 w s now :
  wf w → evolves w0 w →
  run_from w0 w (map_remove s now)
    (λ r w', shared_same w w' ∧ ∀ e, listed_as w s e → dead w' e).
Proof.
  intros Hwf Ev. unfold map_remove, map_tick. apply run_gets.
  apply (evict_then _ _ _ s); [done|done|].
  intros w1 Hwf1 Ev01 Ev1 Hs Hback Hfate Hsame.
  destruct (pop_and_invalidate_from w1 w1 s) as (r & w2 & Hrun & Hwf2 & Ev2 & Hs2 & _ & Hd & _);
    [done|done|].
  exists r, w2. split; [done|]. split; [done|]. split; [by transitivity w1|].
  split; [by transitivity w1|].
  intros e [Hl|Hl]%Hfate; [by apply Hd|by apply (dead_stable w1)].
Qed.

(** [remove_if]: [ok] is what the predicate establishes when it accepts an
    entry, [no] when it rejects it. *)
Lemma map_remove_if_from w0 w s now pred (ok : positive → Prop)
    (no : positive → World T P C → Prop) :
  wf w → evolves w0 w →
  (∀ w1 e, wf w1 → evolves w0 w1 → evolves w w1 → listed_as w1 s e →
     w_entries w1 !! e = w_entries w !! e →
     run_ok w1 (pred e) (λ (r : bool) w2,
       shared_same w1 w2 ∧ slots w2 = slots w1 ∧ if r then ok e else no e w2)) →
  run_from w0 w (map_remove_if s now pred) (λ (r : bool) w',
    shared_same w w' ∧
    if r then ∃ e, listed_as w s e ∧ ok e ∧ dead w' e
    else ∀ e, listed_as w s e → dead w' e ∨ no e w').
Proof.
  intros Hwf Ev Hpred. unfold map_remove_if, map_tick. apply run_gets.
  apply (evict_then _ _ _ s); [done|done|].
  intros w1 Hwf1 Ev01 Ev1 Hs Hback Hfate Hsame. apply run_gets.
  destruct (lru_peek s (w_subjects w1)) as [slot|] eqn:Hp.
  2:{ apply run_from_ret; [done|done|]. split; [done|].
      intros e [(slot & Hin & _)|?]%Hfate; [|by left].
      apply peek_listed in Hin; [|done]. congruence. }
  apply peek_listed in Hp; [|done].
  assert (listed_as w1 s (slot_entry slot)) as Hl1 by by exists slot.
  eapply run_from_bind.
  { eapply run_ok_from; [by apply Hpred; auto|done|].
    intros r w2 _ Ev2 Hr. exact (conj Ev2 Hr). }
  intros r w2 Hwf2 Ev02 (Ev2 & Hs2 & Hsl & Hr).
  assert (evolves w w2) as Evw2 by by etransitivity.
  assert (∀ e, listed_as w2 s e ↔ listed_as w1 s e) as Hiff
    by (intros e; unfold listed_as; by rewrite Hsl).
  destruct r.
  - destruct (pop_and_invalidate_from w2 w2 s) as (r & w3 & Hrun & Hwf3 & Ev3 & Hs3 & Hr3 & Hd & _);
      [done|done|].
    assert (r = true) as -> by (apply Hr3; exists (slot_entry slot); by apply Hiff).
    exists true, w3. split; [done|]. split; [done|]. split; [by transitivity w2|]. split.
    + transitivity w1; [done|]. by transitivity w2.
    + exists (slot_entry slot). split; [by apply Hback|]. split; [done|].
      by apply Hd, Hiff.
  - apply run_from_ret; [done|done|]. split; [by transitivity w1|].
    intros e [Hl|?]%Hfate; [|left; by apply (dead_stable w1)].
    right. by rewrite (listed_as_same_key w1 s e (slot_entry slot)).
Qed.

(** [update]: [Q] of the updated entry, if the subject is known. *)
Lemma map_update_from w0 w s now upd (Q : positive → World T P C → Prop) :
  wf w → evolves w0 w →
  (∀ w1 e, wf w1 → evolves w0 w1 → evolves w w1 → shared_same w w1 →
     listed_as w1 s e → w_entries w1 !! e = w_entries w !! e →
     run_ok w1 (upd e) (λ _ w2, shared_same w1 w2 ∧ Q e w2)) →
  run_from w0 w (map_update s now upd) (λ _ w',
    shared_same w w' ∧ ∀ e, listed_as w s e → dead w' e ∨ Q e w').
Proof.
  intros Hwf Ev Hupd. unfold map_update, map_tick. apply run_gets.
  apply (evict_then _ _ _ s); [done|done|].
  intros w1 Hwf1 Ev01 Ev1 Hs Hback Hfate Hsame. apply run_gets.
  destruct (lru_peek s (w_subjects w1)) as [slot|] eqn:Hp.
  2:{ apply run_from_ret; [done|done|]. split; [done|].
      intros e [(slot & Hin & _)|?]%Hfate; [|by left].
      apply peek_listed in Hin; [|done]. congruence. }
  apply peek_listed in Hp; [|done].
  assert (listed_as w1 s (slot_entry slot)) as Hl1 by by exists slot.
  eapply run_ok_from; [by apply Hupd; auto|done|].
  intros u w2 Hwf2 Ev2 (Hs2 & HQ). split; [by transitivity w1|].
  intros e [Hl|?]%Hfate; [|left; by apply (dead_stable w1)].
  right. by rewrite (listed_as_same_key w1 s e (slot_entry slot)).
Qed.

(** ** Clearing *)

Lemma invalidate_all_from w0 w l :
  wf w → evolves w0 w → (∀ kv, kv ∈ l → is_Some (w_entries w !! slot_id kv)) →
  run_from w0 w (invalidate_all l) (λ _ w', env_same w w' ∧
    ∀ e, is_retired w e ∨ e ∈ slot_id <$> l → is_retired w' e).
Proof.
  revert w0 w. induction l as [|[s slot] l IH]; intros w0 w Hwf Ev Hl.
  { apply run_from_ret; [done|done|]. split; [done|].
    intros e [?|[]%not_elem_of_nil]; done. }
  eapply run_from_bind.
  { apply (entry_invalidate_from w0 w); [done|done|]. apply (Hl (s, slot)). left. }
  intros u w1 Hwf1 Ev1 (Hs & Hst & (en1 & Hen1 & _) & _).
  eapply run_from_weaken.
  { apply IH; [done|done|]. intros kv Hkv. rewrite Hen1.
    apply exists_insert, Hl. by right. }
  intros u' w2 _ _ [Hs2 Hst2]. split; [by transitivity w1|].
  intros e He. apply Hst2. destruct (decide (e = slot_entry slot)) as [->|Hne]; [by left|].
  destruct He as [(en & He & Hd)|He].
  - left. exists en. by rewrite Hen1, lookup_insert_ne.
  - right. simpl in He. apply elem_of_cons in He as [?|?]; done.
Qed.

Lemma map_clear_from w0 w :
  wf w → evolves w0 w →
  run_from w0 w map_clear (λ _ w', shared_same w w' ∧ slots w' = [] ∧
    ∀ e, listed w e → dead w' e).
Proof.
  intros Hwf Ev. unfold map_clear. apply run_gets.
  destruct (lru_clear_ok (w_subjects w)) as (Hc & Hit & Hcap); [apply Hwf|].
  eapply run_from_bind.
  { apply (invalidate_all_from w0 w (slots w)); [done|done|].
    intros kv Hkv. by apply (wf_listed _ Hwf), listed_elem. }
  intros u w1 Hwf1 Ev1 [Hs Hst].
  destruct (wf_set_subjects w1 (lru_clear (w_subjects w))) as [Hwf2 Ev2];
    [done|done|by rewrite Hcap, (es_subjects _ _ Hs)|..].
  { rewrite Hit. apply NoDup_nil_2. }
  { intros s slot. by rewrite Hit, elem_of_nil. }
  { intros e He%(env_same_listed _ _ _ Hs). right. apply Hst. by right. }
  exists tt, (set_subjects (lru_clear (w_subjects w)) w1).
  split; [done|]. split; [done|]. split; [by transitivity w1|]. split_and!.
  - destruct Hs. by split.
  - exact Hit.
  - intros e He. split.
    + destruct (Hst e) as (en & Hen & _); [by right|]. simpl. eauto.
    + intros Hin. unfold listed, slots in Hin. simpl in Hin. rewrite Hit in Hin.
      by apply elem_of_nil in Hin.
Qed.
End map_methods.
