(* ===== verification/Create.v ===== *)
(** * Create: listing the pending entry of a new subject

    [get_or_insert_with] builds an entry, pushes it into the map and may
    displace the least recently used slot: one critical section, proved total
    and invariant-preserving here, with the entry it returns. *)

From S2P Require Export MapMethods.

Section create.
Context {T P C : Type} `{Countable T, !LruCache T SubjectSlot C, !LruCacheOk T SubjectSlot C}.
Implicit Types (w : World T P C) (e f : positive) (s : T) (en : Entry P) (c : C).

(** ** Creating the pending entry of a new subject

    Between the creation and the push the new entry is pending and unlisted, so
    the two are proved together. *)

(** The world with a new entry and its first fetch, both unlisted. *)
Definition with_pending w e f en pf : World T P C :=
  set_entries (<[e := en]> (w_entries w)) (set_fetches (<[f := pf]> (w_fetches w)) w).

Lemma fresh_entry w e : wf w → (w_next w ≤ e)%positive → w_entries w !! e = None.
Proof.
  intros Hwf Hle. destruct (w_entries w !! e) as [en|] eqn:He; [|done].
  pose proof (eo_alloc _ _ _ (wf_entry _ Hwf _ _ He)). lia.
Qed.

Lemma fresh_fetch w f : wf w → (w_next w ≤ f)%positive → w_fetches w !! f = None.
Proof.
  intros Hwf Hle. destruct (w_fetches w !! f) as [pf|] eqn:Hf; [|done].
  pose proof (fo_alloc _ _ _ (wf_fetch _ Hwf _ _ Hf)). lia.
Qed.

(** Adding an entry that is still marked stale. *)
Lemma wf_with_pending w w1 e f en s :
  wf w → same_core w w1 →
  (w_next w ≤ e)%positive → (e < w_next w1)%positive →
  (w_next w ≤ f)%positive → (f < w_next w1)%positive →
  entry_ok w1 e en → retired en →
  wf (with_pending w1 e f en (mkFetch e s None None false FetchPhase.Start)) ∧
  evolves w (with_pending w1 e f en (mkFetch e s None None false FetchPhase.Start)).
Proof.
  intros Hwf Hc He He1 Hf Hf1 Hok Hret.
  pose proof (wf_same_core _ _ Hc Hwf) as Hwf1.
  pose proof (evolves_same_core _ _ Hc) as Ev1.
  assert (Hne : w_entries w1 !! e = None)
    by (rewrite (sc_entries _ _ Hc); by apply fresh_entry).
  assert (Hnf : w_fetches w1 !! f = None)
    by (rewrite (sc_fetches _ _ Hc); by apply fresh_fetch).
  assert (evolves w1 (with_pending w1 e f en
    (mkFetch e s None None false FetchPhase.Start))) as Ev2.
  { split; try done.
    - intros e0 en0 He0. exists en0. simpl. rewrite lookup_insert_ne by congruence. by split.
    - intros f0 pf0 Hf0. exists pf0. simpl. rewrite lookup_insert_ne by congruence. by split. }
  assert (¬ listed w1 e) as Hnl.
  { intros Hl%(wf_listed _ Hwf1). rewrite Hne in Hl. by destruct Hl. }
  split; [|by etransitivity].
  destruct Hwf1 as [? ? ? ? ? Hlist Hunl Hent Hfet Hsn ?]. split; try done; simpl.
  - intros e0 He0%Hlist. by apply exists_insert.
  - intros e0 en0 [[<- <-]|[? He0]]%lookup_insert_Some; [done|]. by apply Hunl.
  - intros e0 en0 [[<- <-]|[? He0]]%lookup_insert_Some.
    + destruct Hok as [? ? ? ? _]. split; try done. simpl.
      destruct Hret as [_ ->]. done.
    + destruct (Hent _ _ He0) as [? ? ? ? Hp]. split; try done. simpl.
      intros f0 (pf0 & Hf0 & ?)%Hp. exists pf0. rewrite lookup_insert_ne by congruence. done.
  - intros f0 pf0 [[<- <-]|[? Hf0]]%lookup_insert_Some.
    + split; [done| |done]. simpl. split; simpl; [rewrite lookup_insert_eq; eauto|].
      intros s' Hl. exfalso. apply Hnl, listed_iff. by exists s'.
    + destruct (Hfet _ _ Hf0) as [? [Hex ?] Hr]. split; [done|..].
      * split; [by apply exists_insert|done].
      * intros cur (Hv & Hp & (en1 & He1' & Hs1) & Hcur)%Hr. split; [done|]. split; [done|].
        split; [exists en1; simpl; by rewrite lookup_insert_ne by congruence|].
        simpl. intros en0. rewrite lookup_insert_ne; [apply Hcur|].
        intros Heq. rewrite <-Heq, Hne in Hex. by destruct Hex.
  - intros s0 e0 [Hex ?]%Hsn. split; [by apply exists_insert|done].
Qed.

(** Listing an entry that is stale and unlisted so far, and giving it its
    pending state in the same step. *)
Lemma wf_list_entry w0 w c e en en' s slot :
  wf w → evolves w0 w → w_entries w0 !! e = None →
  w_entries w !! e = Some en → ¬ listed w e → (∀ e', ¬ listed_as w s e') →
  lru_wf c → lru_cap c = lru_cap (w_subjects w) →
  lru_iter c = (s, slot) :: slots w → slot_entry slot = e →
  (∀ s' , (∃ f pf, w_fetches w !! f = Some pf ∧ pf_entry pf = e ∧ pf_subject pf = s') ∨
          w_snapshot w !! s' = Some e → s' = s) →
  (∀ f, pending en' = Some f → ∃ pf, w_fetches w !! f = Some pf ∧ pf_entry pf = e) →
  refresh_before en' = refresh_before en →
  sn_ptr (current en') = sn_ptr (current en) →
  snapshot_ok w (current en') →
  (∀ f pf, w_fetches w !! f = Some pf → pf_entry pf = e → pf_refresh_from pf = None) →
  let w' := set_subjects c (set_entries (<[e := en']> (w_entries w)) w) in
  wf w' ∧ evolves w0 w'.
Proof.
  intros Hwf Ev Hnew He Hnl Hns Hc Hcap Hit <- Hown Hpend Hrb Hptr Hsn Hnoref w'.
  assert (Hla : ∀ s0 e0, listed_as w' s0 e0 →
    (s0 = s ∧ e0 = slot_entry slot) ∨ listed_as w s0 e0).
  { intros s0 e0 (slot0 & Hin & <-). unfold slots in Hin. simpl in Hin. rewrite Hit in Hin.
    apply elem_of_cons in Hin as [[= -> ->]|Hin]; [by left|right; by exists slot0]. }
  assert (Htr : ∀ s0 e0, tracked w s0 e0 → (e0 = slot_entry slot → s0 = s) → tracked w' s0 e0).
  { intros s0 e0 [Hex Hl] Heq. split; [by apply exists_insert|].
    intros s1 [[-> ->]|Hl1]%Hla; [symmetry; by apply Heq|by apply Hl]. }
  split.
  2:{ destruct Ev as [? ? ? ? ? Ee Ef El]. split; try done.
      - intros e0 en0 He0. simpl. rewrite lookup_insert_ne by congruence. by apply Ee.
      - intros s0 e0 Hex [[-> ->]|Hl]%Hla; [|by apply El].
        rewrite Hnew in Hex. by destruct Hex. }
  destruct Hwf as [? ? ? ? Hnd Hlist Hunl Hent Hfet Hsnap ?]. split; try done.
  - simpl. congruence.
  - unfold slots. simpl. rewrite Hit. simpl. apply NoDup_cons. by split.
  - intros e0 (s0 & [[-> ->]|Hl]%Hla)%listed_iff; simpl.
    + rewrite lookup_insert_eq. eauto.
    + apply exists_insert, Hlist, listed_iff. eauto.
  - intros e0 en0 He0 Hun. simpl in He0.
    assert (Hun' : e0 ≠ slot_entry slot ∧ ¬ listed w e0).
    { unfold listed, slots in Hun. simpl in Hun. rewrite Hit in Hun. simpl in Hun.
      by apply not_elem_of_cons in Hun. }
    destruct Hun' as [Hne Hun']. rewrite lookup_insert_ne in He0 by done. by eapply Hunl.
  - intros e0 en0. simpl. intros [[<- <-]|[? He0]]%lookup_insert_Some.
    + destruct (Hent _ _ He). split; simpl; rewrite ?Hptr, ?Hrb; done.
    + destruct (Hent _ _ He0). by split.
  - intros f pf Hf. destruct (Hfet _ _ Hf) as [Ha Ht Hr]. split; [done|..].
    + apply Htr; [done|]. intros Heq. apply Hown. left. eauto.
    + intros cur Hcur. assert (Hne : pf_entry pf ≠ slot_entry slot).
      { intros Heq. by rewrite (Hnoref _ _ Hf Heq) in Hcur. }
      destruct (Hr _ Hcur) as (? & ? & (en1 & He1 & Hs1) & Hsame). split; [done|]. split; [done|].
      split; [exists en1; simpl; by rewrite lookup_insert_ne by congruence|].
      simpl. intros en0 [[Heq _]|[? He0]]%lookup_insert_Some; [|by apply Hsame].
      by destruct Hne.
  - intros s0 e0 Hs0. apply Htr; [by apply Hsnap|]. intros ->. apply Hown. by right.
Qed.

Lemma entry_invalidate_insert e e' (v : Entry P) w :
  e ≠ e' →
  entry_invalidate e (set_entries (<[e' := v]> (w_entries w)) w) =
  match entry_invalidate e w with
  | Some (a, w') => Some (a, set_entries (<[e' := v]> (w_entries w')) w')
  | None => None
  end.
Proof.
  intros Hne. unfold entry_invalidate, entry_abort_pending, pending_fetch_abort, with_entry,
    with_fetch, alloc, mbind, M_bind, mret, M_ret; simpl.
  rewrite lookup_insert_ne by done.
  destruct (w_entries w !! e) as [en|]; simpl; [|done].
  rewrite !lookup_insert_eq; simpl. unfold set_entries; simpl.
  rewrite !insert_insert_eq.
  destruct (pending en) as [f|]; simpl.
  - destruct (w_fetches w !! f); simpl; [|done].
    by rewrite (insert_insert_ne _ e e').
  - by rewrite (insert_insert_ne _ e e').
Qed.

Lemma entry_invalidate_fetches e w a w' f pf' :
  entry_invalidate e w = Some (a, w') → w_fetches w' !! f = Some pf' →
  ∃ pf, w_fetches w !! f = Some pf ∧ fetch_evolves pf pf'.
Proof.
  unfold entry_invalidate, entry_abort_pending, pending_fetch_abort, with_entry,
    with_fetch, alloc, mbind, M_bind, mret, M_ret; simpl.
  destruct (w_entries w !! e) as [en|]; simpl; [|done].
  rewrite lookup_insert_eq; simpl. destruct (pending en) as [f0|]; simpl.
  2:{ intros [= <- <-] Hf. by exists pf'. }
  destruct (w_fetches w !! f0) as [pf0|] eqn:Hf0; simpl; [|done].
  intros [= <- <-]. simpl. intros [[<- <-]|[? Hf]]%lookup_insert_Some; [|by exists pf'].
  exists pf0. split; [done|]. by split.
Qed.

(** The entry and fetch [create_pending_entry] allocates. *)
Definition created_entry w now : Entry P :=
  pending_entry (Pos.succ (Pos.succ (w_next w))) now (Pos.succ (w_next w))
    (refresh_before_expiry (w_config w)).
Definition created_fetch w s : PendingFetch T P :=
  mkFetch (w_next w) s None None false FetchPhase.Start.
Definition created w s now : World T P C :=
  with_pending (set_next (Pos.succ (Pos.succ (Pos.succ (w_next w)))) w)
    (w_next w) (Pos.succ (w_next w)) (created_entry w now) (created_fetch w s).

Lemma create_pending_entry_run w s now :
  create_pending_entry s now w = Some (w_next w, created w s now).
Proof. reflexivity. Qed.

Definition stale_twin (en : Entry P) : Entry P :=
  set_pending None
    (set_current (mkSnapshot (sn_ptr (current en)) (mark_stale (sn_word (current en))) None 0) en).

Lemma created_wf w s now :
  wf w →
  let n := Pos.succ (Pos.succ (Pos.succ (w_next w))) in
  let w' := with_pending (set_next n w) (w_next w) (Pos.succ (w_next w))
              (stale_twin (created_entry w now)) (created_fetch w s) in
  wf w' ∧ evolves w w'.
Proof.
  intros Hwf n w'. apply wf_with_pending; simpl; try lia; try done.
  - split; simpl; try done; lia.
  - split; simpl; try lia; try done.
    unfold u64_of_nanos. destruct (u64_try_from _) eqn:E; [|rewrite u64_max_val; lia].
      by apply u64_try_from_Some in E as [<- [? _]].
Qed.

Lemma created_unlisted w e : wf w → w_entries w !! e = None → ¬ listed w e.
Proof. intros Hwf He Hl. destruct (wf_listed _ Hwf _ Hl). congruence. Qed.

Definition push_post w s t e w' : Prop :=
  shared_same w w' ∧
  (∃ l, slots w' = (s, mkSlot e t) :: l ∧ l `prefix_of` slots w) ∧
  (∀ e', listed w e' → listed w' e' ∨ dead w' e').

(** The entry of the subject being pushed, in a world where it is still marked
    stale: pushing it and giving it its pending word. *)
Lemma finish_push w0 w w2 c s now t :
  wf w → evolves w0 w → wf w2 → evolves w w2 →
  w_entries w2 !! w_next w = Some (stale_twin (created_entry w now)) →
  w_fetches w2 !! Pos.succ (w_next w) = Some (created_fetch w s) →
  (∀ f pf, w_fetches w2 !! f = Some pf → pf_entry pf = w_next w →
     fetch_evolves (created_fetch w s) pf) →
  w_snapshot w2 = w_snapshot w →
  (∀ e, listed w2 e → listed w e) →
  (∀ e, ¬ listed_as w s e) →
  lru_wf c → lru_cap c = lru_cap (w_subjects w2) →
  lru_iter c = (s, mkSlot (w_next w) t) :: slots w2 →
  let w' := set_subjects c
    (set_entries (<[w_next w := created_entry w now]> (w_entries w2)) w2) in
  wf w' ∧ evolves w0 w'.
Proof.
  intros Hwf Ev Hwf2 Ev2 He Hnew Hf Hsn Hl Hs Hc Hcap Hit w'.
  assert (Hnone : w_entries w !! w_next w = None) by (by apply fresh_entry).
  eapply (wf_list_entry w0 w2 c _ (stale_twin (created_entry w now)) _ s); try done.
  - by transitivity w.
  - destruct (w_entries w0 !! w_next w) as [en|] eqn:He0; [|done].
    destruct (ev_entries _ _ Ev _ _ He0) as (? & ? & _). congruence.
  - intros ?%Hl. by apply (created_unlisted w (w_next w)).
  - intros e Hl2. assert (listed w e) as Hle by (apply Hl, listed_iff; eauto).
    apply (Hs e). eapply (ev_listed _ _ Ev2); [|done]. by apply wf_listed.
  - intros s' [(f & pf & Hpf & Hpe & <-)|Hs'].
    + apply (fe_subject _ _ (Hf _ _ Hpf Hpe)).
    + rewrite Hsn in Hs'. destruct (wf_snapshot _ Hwf _ _ Hs') as [[? ?] _]. congruence.
  - intros f [= <-]. eauto.
  - intros f pf Hpf Hpe. apply (fe_refresh _ _ (Hf _ _ Hpf Hpe)).
Qed.

Lemma created_fetches w s now f pf :
  wf w → w_fetches (created w s now) !! f = Some pf → pf_entry pf = w_next w →
  pf = created_fetch w s.
Proof.
  intros Hwf. simpl. intros [[_ <-]|[_ Hf]]%lookup_insert_Some; [done|]. intros Hpe.
  destruct (fo_tracked _ _ _ (wf_fetch _ Hwf _ _ Hf)) as [[en He] _].
  rewrite Hpe, fresh_entry in He; done.
Qed.

Definition pushed w s now w' : Prop :=
  w_entries w' !! w_next w = Some (created_entry w now) ∧
  w_fetches w' !! Pos.succ (w_next w) = Some (created_fetch w s).

(** The container has room: nothing leaves. *)
Lemma push_room_from w0 w s now t :
  wf w → evolves w0 w → (∀ e, ¬ listed_as w s e) →
  Z.of_nat (length (slots w)) < lru_cap (w_subjects w) →
  run_from w0 (created w s now) (map_push s (mkSlot (w_next w) t)) (λ _ w',
    push_post w s t (w_next w) w' ∧ pushed w s now w').
Proof.
  intros Hwf Ev Hs Hroom.
  assert (Ha : assoc s (slots w) = None).
  { destruct (assoc s (slots w)) as [slot|] eqn:Ha; [|done].
    apply assoc_Some_elem in Ha. destruct (Hs (slot_entry slot)). by exists slot. }
  destruct (lru_push_room s (mkSlot (w_next w) t) (w_subjects w)) as (c & Hpush & Hc & Hcap & Hit);
    [apply Hwf|done|done|].
  destruct (created_wf w s now Hwf) as [HwfF EvF].
  destruct (finish_push w0 w _ c s now t Hwf Ev HwfF EvF) as [Hwf' Ev']; try done.
  { simpl. by rewrite lookup_insert_eq. }
  { simpl. by rewrite lookup_insert_eq. }
  { intros f pf Hf Hpe. by rewrite (created_fetches w s now f pf). }
  exists tt, (set_subjects c (created w s now)).
  assert (Heq : set_subjects c (set_entries (<[w_next w := created_entry w now]>
    (w_entries (with_pending (set_next (Pos.succ (Pos.succ (Pos.succ (w_next w)))) w)
       (w_next w) (Pos.succ (w_next w)) (stale_twin (created_entry w now)) (created_fetch w s))))
    (with_pending (set_next (Pos.succ (Pos.succ (Pos.succ (w_next w)))) w)
       (w_next w) (Pos.succ (w_next w)) (stale_twin (created_entry w now)) (created_fetch w s)))
    = set_subjects c (created w s now)).
  { unfold created, with_pending, set_subjects, set_entries. simpl.
    by rewrite insert_insert_eq. }
  rewrite Heq in *. split.
  { unfold map_push, gets, mbind, M_bind. simpl. by rewrite Hpush. }
  split; [done|]. split; [done|]. split; [split; [by split|split]|].
  - exists (slots w). split; [exact Hit|done].
  - intros e Hl. left. unfold listed, slots. simpl. rewrite Hit. by right.
  - split; simpl; by rewrite lookup_insert_eq.
Qed.

(** The container is full: the least recently used slot [x] is displaced.  The
    invalidation of [x] is first run in the world where the new entry is still
    marked stale and [x]'s slot is gone from the old container. *)
Lemma displaced_wf w s now sx x l :
  wf w → slots w = l ++ [(sx, x)] →
  ∃ cl w2, lru_iter cl = l ∧ lru_cap cl = lru_cap (w_subjects w) ∧
    entry_invalidate (slot_entry x) (created w s now) =
      Some (tt, set_entries (<[w_next w := created_entry w now]> (w_entries w2)) w2) ∧
    wf (set_subjects cl w2) ∧ evolves w (set_subjects cl w2) ∧
    w_entries w2 !! w_next w = Some (stale_twin (created_entry w now)) ∧
    (∀ f pf, w_fetches w2 !! f = Some pf → pf_entry pf = w_next w →
       fetch_evolves (created_fetch w s) pf) ∧
    env_same w w2 ∧ dead (set_subjects cl w2) (slot_entry x) ∧
    w_fetches w2 !! Pos.succ (w_next w) = Some (created_fetch w s).
Proof.
  intros Hwf Hl.
  destruct (lru_pop_lru_some (w_subjects w) l (sx, x)) as (_ & cl & _ & Hcl & Hclcap & Hclit);
    [apply Hwf|done|].
  destruct (created_wf w s now Hwf) as [HwfF EvF]. set (wF := with_pending _ _ _ _ _) in *.
  destruct (slots_snoc_nodup _ _ _ Hwf Hl) as [Hnd Hne].
  assert (Hin : ∀ kv, kv ∈ slots wF ↔ kv ∈ l ∨ kv = (sx, x)).
  { intros kv. change (slots wF) with (slots w).
    rewrite Hl, elem_of_app, list_elem_of_singleton. done. }
  assert (slot_entry x ≠ w_next w) as Hxn.
  { intros Heq. apply (created_unlisted w (w_next w) Hwf (fresh_entry _ _ Hwf (Pos.le_refl _))).
    rewrite <-Heq. apply (listed_elem w (sx, x)). rewrite Hl. apply elem_of_app. right. left. }
  destruct (drop_slot_from wF wF cl sx x) as (u & w2 & Hrun & Hwf2 & Ev2 & Hdrop); try done.
  { rewrite Hin. by right. }
  { by rewrite Hclit. }
  { intros kv. rewrite Hclit, Hin. intros Hkv. split; [by left|]. by apply (Hne kv). }
  { intros kv. rewrite Hclit, Hin. intros [?| ->]; auto. }
  change ((_ ← put_subjects cl; entry_invalidate (slot_entry x)) wF)
    with (entry_invalidate (P:=P) (slot_entry x) (set_subjects cl wF)) in Hrun.
  rewrite entry_invalidate_commute in Hrun.
  destruct (entry_invalidate (slot_entry x) wF) as [[[] w2']|] eqn:Hinv; [|done].
  injection Hrun as _ <-. destruct Hdrop as (_ & Hcfg & Hconn & Hsn & Hclk & Hpub & Hsince & Hdead & _ & _ & Hoth).
  exists cl, w2'. split_and!; try done.
  - replace (created w s now)
      with (set_entries (<[w_next w := created_entry w now]> (w_entries wF)) wF).
    2:{ subst wF. unfold created, with_pending, set_entries. simpl. by rewrite insert_insert_eq. }
    by rewrite entry_invalidate_insert, Hinv.
  - by transitivity wF.
  - pose proof (entry_invalidate_insert (slot_entry x) (w_next w)
      (stale_twin (created_entry w now)) wF Hxn) as Hcomm.
    replace (set_entries _ wF) with wF in Hcomm.
    2:{ subst wF. unfold with_pending, set_entries. simpl. by rewrite insert_insert_eq. }
    rewrite Hinv in Hcomm. injection Hcomm as ->. simpl. by rewrite lookup_insert_eq.
  - intros f pf Hf Hpe.
    destruct (entry_invalidate_fetches _ _ _ _ _ _ Hinv Hf) as (pf0 & Hf0 & Hfe).
    assert (pf0 = created_fetch w s) as ->; [|done].
    apply (created_fetches w s now f); [done|exact Hf0|]. rewrite <-Hpe. symmetry. apply Hfe.
  - destruct (entry_invalidate_from wF wF (slot_entry x)) as (u' & w3 & Hrun3 & _ & _ & Hs3 & _);
      [done|done| |].
    { apply (wf_listed _ HwfF), (listed_elem wF (sx, x)), Hin. by right. }
    rewrite Hinv in Hrun3. assert (w3 = w2') as -> by congruence. destruct Hs3. by split.
  - apply (Hoth _ (created_fetch w s)); [simpl; by rewrite lookup_insert_eq|done].
Qed.

Lemma push_full_from w0 w s now t l sx x :
  wf w → evolves w0 w → (∀ e, ¬ listed_as w s e) → slots w = l ++ [(sx, x)] →
  Z.of_nat (length (slots w)) = lru_cap (w_subjects w) →
  run_from w0 (created w s now) (map_push s (mkSlot (w_next w) t)) (λ _ w',
    push_post w s t (w_next w) w' ∧ pushed w s now w').
Proof.
  intros Hwf Ev Hs Hl Hfull.
  assert (Ha : assoc s (slots w) = None).
  { destruct (assoc s (slots w)) as [slot|] eqn:Ha; [|done].
    apply assoc_Some_elem in Ha. destruct (Hs (slot_entry slot)). by exists slot. }
  destruct (lru_push_full s (mkSlot (w_next w) t) (w_subjects w) l (sx, x))
    as (c & Hpush & Hc & Hcap & Hit); [apply Hwf|done|done|done|].
  destruct (displaced_wf w s now sx x l Hwf Hl)
    as (cl & w2 & Hclit & Hclcap & Hinv & Hwf2 & Ev2 & He & Hf & Henv & Hdead & Hfnew).
  assert (Hsub : ∀ e, e ∈ slot_id <$> l → listed w e).
  { intros e He'. unfold listed. rewrite Hl, fmap_app. apply elem_of_app. by left. }
  destruct (finish_push w0 w (set_subjects cl w2) c s now t Hwf Ev Hwf2 Ev2) as [Hwf' Ev'];
    try done.
  { apply Henv. }
  { intros e He'. apply Hsub. unfold listed, slots in He'. simpl in He'. by rewrite Hclit in He'. }
  { simpl. congruence. }
  { unfold slots. simpl. by rewrite Hit, Hclit. }
  set (w' := set_subjects c (set_entries (<[w_next w := created_entry w now]> (w_entries w2)) w2)).
  change (set_subjects c _) with w' in Hwf', Ev'.
  assert (same_core w' (set_shape_dirty true w')) as Hcore by by split.
  exists tt, (set_shape_dirty true w'). split.
  { unfold map_push, gets, mbind, M_bind. simpl. rewrite Hpush. simpl.
    by rewrite entry_invalidate_commute, Hinv. }
  split; [by eapply wf_same_core|]. split; [transitivity w'; [done|by apply evolves_same_core]|].
  split; [|split; [simpl; by rewrite lookup_insert_eq|exact Hfnew]]. split.
  { destruct Henv. by split. }
  split.
  { exists l. split; [exact Hit|]. rewrite Hl. by apply prefix_app_r. }
  intros e Hle. unfold listed in Hle. rewrite Hl, fmap_app in Hle.
  apply elem_of_app in Hle as [Hle|Hle].
  - left. unfold listed, slots. simpl. rewrite Hit. by right.
  - right. apply list_elem_of_singleton in Hle as ->. simpl.
    destruct Hdead as [Hex Hnl]. split; [simpl; by apply exists_insert|].
    unfold listed, slots in Hnl |- *. simpl in Hnl |- *. rewrite Hit. simpl.
    rewrite Hclit in Hnl.
    apply not_elem_of_cons. split; [|done]. intros Heq.
    apply (created_unlisted w (w_next w) Hwf (fresh_entry _ _ Hwf (Pos.le_refl _))).
    change (slot_entry x = w_next w) in Heq. rewrite <-Heq.
    apply (listed_elem w (sx, x)). rewrite Hl. apply elem_of_app. right. left.
Qed.

Lemma push_from w0 w s now t :
  wf w → evolves w0 w → (∀ e, ¬ listed_as w s e) →
  run_from w0 (created w s now) (map_push s (mkSlot (w_next w) t)) (λ _ w',
    push_post w s t (w_next w) w' ∧ pushed w s now w').
Proof.
  intros Hwf Ev Hs. pose proof (lru_bounded _ (wf_lru _ Hwf)) as Hb.
  destruct (decide (Z.of_nat (length (slots w)) = lru_cap (w_subjects w))) as [Hfull|Hroom].
  - destruct (snoc_cases (slots w)) as [Hnil|(l & [sx x] & Hl)].
    + pose proof (lru_positive _ (wf_lru _ Hwf)). rewrite Hnil in Hfull. simpl in Hfull. lia.
    + by eapply push_full_from.
  - apply push_room_from; try done. unfold slots in *. lia.
Qed.

(** The entry is as created at [now], with its first lookup not yet polled. *)
Definition awaited w s now e : Prop :=
  ∃ ptr f, w_entries w !! e =
      Some (pending_entry ptr now f (refresh_before_expiry (w_config w))) ∧
    w_fetches w !! f = Some (mkFetch e s None None false FetchPhase.Start).

(** [get_or_insert_with], as [admit] calls it: the entry returned is the one
    the subject names afterwards; when it was created it is new to everybody. *)
Definition admitted w s now (x : positive * bool) w' : Prop :=
  shared_same w w' ∧ listed_as w' s x.1 ∧
  (if x.2 then w_entries w !! x.1 = None ∧ awaited w' s now x.1 ∧
               ∀ e', ¬ listed_as w s e'
   else listed_as w s x.1).

Lemma get_or_insert_with_from w0 w s now :
  wf w → evolves w0 w →
  run_from w0 w (get_or_insert_with s now (create_pending_entry s now)) (admitted w s now).
Proof.
  intros Hwf Ev. unfold get_or_insert_with, map_tick. apply run_gets, run_gets.
  set (t := map_tick_at _ now).
  destruct (assoc s (lru_iter (w_subjects w))) as [slot|] eqn:Ha.
  - pose proof (assoc_Some_elem _ _ _ Ha) as Hin.
    destruct (touch_slot_from w0 w s slot t) as (put & Hget & Hput); [done..|].
    rewrite Hget. eapply run_from_bind; [exact Hput|].
    intros u w1 Hwf1 Ev1 (Hs & Hsl & _). eapply run_from_bind; [by apply evict_from|].
    intros u' w2 Hwf2 Ev2 Hev. apply run_from_ret; [done|done|]. split; [|split].
    + transitivity w1; [done|apply Hev].
    + exists (slot_touch t slot). split; [|done].
      eapply evict_keeps; [exact Hev|rewrite Hsl; left|].
      apply fresh_not_expired; [apply Hwf1|simpl; lia].
    + by exists slot.
  - rewrite lru_get_mut_none by (done || apply Hwf).
    assert (Hs : ∀ e, ¬ listed_as w s e).
    { intros e (slot & Hin & _). apply assoc_elem_Some in Hin; [|by apply slots_nodup_keys].
      unfold slots in Hin. congruence. }
    apply (evict_then _ _ _ s); [done|done|].
    intros w1 Hwf1 Ev01 Ev1 Hsh Hback _ _.
    destruct (push_from w0 w1 s now t) as (u & w2 & Hrun & Hwf2 & Ev2 & (Hs2 & Hsl & Hfate) & He & Hf);
      [done|done|by intros e ?%Hback; eapply Hs|].
    destruct Hsl as (l & Hsl & _).
    destruct (evict_from w0 w2 t Hwf2 Ev2) as (u' & w3 & Hrun3 & Hwf3 & Ev3 & Hev).
    exists (w_next w1, true), w3. split.
    { rewrite (run_bind_step _ _ _ _ _ (create_pending_entry_run w1 s now)).
      rewrite (run_bind_step _ _ _ _ _ Hrun). by rewrite (run_bind_step _ _ _ _ _ Hrun3). }
    split; [done|]. split; [done|]. split; [|split].
    + transitivity w1; [done|]. transitivity w2; [done|apply Hev].
    + exists (mkSlot (w_next w1) t). split; [|done].
      eapply evict_keeps; [exact Hev|rewrite Hsl; left|].
      apply fresh_not_expired; [apply Hwf2|simpl; lia].
    + split; [|split; [|done]].
      * apply fresh_entry; [done|apply (ev_next _ _ Ev1)].
      * assert (Hkv : (s, mkSlot (w_next w1) t) ∈ slots w3).
        { eapply evict_keeps; [exact Hev|rewrite Hsl; left|].
          apply fresh_not_expired; [apply Hwf2|simpl; lia]. }
        destruct Hev as (Hs3 & gone & _ & _ & _ & _ & Hsame).
        destruct (Hsame _ Hkv) as [He3 Hf3]. eexists _, _.
        split; [|exact (Hf3 _ _ Hf eq_refl)].
        change (slot_id _) with (w_next w1) in He3. simpl. rewrite He3, He. unfold created_entry.
        by rewrite (ss_config _ _ Hs3), (ss_config _ _ Hs2).
Qed.
End create.
