(* ===== verification/GateMethods.v ===== *)
(** * GateMethods: the methods of [GateState] keep the invariant

    Total correctness of every synchronous method and of every segment of the
    async ones between two awaits, by composition of the entry and map lemmas. *)

From S2P Require Export Create.

Section steps.
Context {T P C : Type} `{Countable T, !LruCache T SubjectSlot C}.
Implicit Types (w : World T P C) (e f : positive) (en : Entry P).

(** ** Composing with primitive actions *)

Lemma now_then {A} w0 w (k : Z → M (World T P C) A) Q :
  wf w → evolves w0 w →
  (∀ w1, wf w1 → evolves w0 w1 → same_core w w1 →
     run_from w0 w1 (k (w_clock w (w_reads w))) Q) →
  run_from w0 w (D_now ≫= k) Q.
Proof.
  intros Hwf Ev Hk. eapply run_from_bind.
  { eapply run_ok_from; [by apply D_now_ok|done|]. intros a w1 _ _ Hp. exact Hp. }
  intros a w1 Hwf1 Ev1 (-> & Hc & _). by apply Hk.
Qed.

Lemma load_then {A} w0 w e en (k : Entry P → M (World T P C) A) Q :
  w_entries w !! e = Some en → run_from w0 w (k en) Q →
  run_from w0 w (load_entry e ≫= k) Q.
Proof.
  intros He (a & w' & Hrun & Hrest). exists a, w'. split; [|done].
  unfold load_entry, expect, mbind, M_bind. by rewrite He.
Qed.

Lemma alloc_then {A} w0 w (k : positive → M (World T P C) A) Q :
  wf w → evolves w0 w →
  (∀ w1, wf w1 → evolves w0 w1 → same_core w w1 → unused w1 (w_next w) →
     run_from w0 w1 (k (w_next w)) Q) →
  run_from w0 w (alloc ≫= k) Q.
Proof.
  intros Hwf Ev Hk. eapply run_from_bind.
  { eapply run_ok_from; [by apply alloc_ok|done|]. intros a w1 _ _ Hp. exact Hp. }
  intros a w1 Hwf1 Ev1 (-> & Hc & Hun & _). by apply Hk.
Qed.

Lemma core_then {A} w0 w (g : World T P C → World T P C) (k : M (World T P C) A) Q :
  wf w → evolves w0 w → same_core w (g w) →
  (wf (g w) → evolves w0 (g w) → run_from w0 (g w) k Q) →
  run_from w0 w (_ ← modify g; k) Q.
Proof.
  intros Hwf Ev Hc Hk.
  destruct Hk as (a & w' & Hrun & Hrest).
  - by eapply wf_same_core.
  - transitivity w; [done|by apply evolves_same_core].
  - by exists a, w'.
Qed.

Lemma core_last w0 w (g : World T P C → World T P C) (Q : unit → World T P C → Prop) :
  wf w → evolves w0 w → same_core w (g w) → Q tt (g w) →
  run_from w0 w (modify g) Q.
Proof.
  intros Hwf Ev Hc HQ. exists tt, (g w). split; [done|]. split; [by eapply wf_same_core|].
  split; [|done]. transitivity w; [done|by apply evolves_same_core].
Qed.

(** A method whose result is ignored before the next one runs. *)
Lemma then_from {A B} w0 w (m : M (World T P C) A) (k : M (World T P C) B) Q1 Q2 :
  run_from w0 w m Q1 →
  (∀ a w1, wf w1 → evolves w0 w1 → Q1 a w1 → run_from w0 w1 k Q2) →
  run_from w0 w (_ ← m; k) Q2.
Proof. intros Hm Hk. eapply run_from_bind; [exact Hm|]. intros a w1. apply Hk. Qed.
End steps.

Section gate_methods.
Context {T P C : Type} `{Countable T, !LruCache T SubjectSlot C, !LruCacheOk T SubjectSlot C, TimeDriver}.
Implicit Types (w : World T P C) (e f : positive) (s : T) (en : Entry P).

(** ** Snapshots of decisions *)

Lemma decision_deadline_range ttl en now (r : DecisionResult P) :
  0 ≤ ttl →
  0 ≤ deadline_of (sn_word (decision_snapshot_at ttl 1 en now r)) ≤ NO_EXPIRY ∧
  deadline_of (sn_word (decision_snapshot_at ttl 1 en now r)) =
    match valid_until r with
    | Some cap => Z.min (deadline_after en now ttl) (tick en cap)
    | None => deadline_after en now ttl
    end.
Proof.
  intros Httl. pose proof (deadline_after_range en now ttl Httl) as Hd. simpl.
  assert (Hr : 0 ≤ match valid_until r with
    | Some cap => Z.min (deadline_after en now ttl) (tick en cap)
    | None => deadline_after en now ttl
    end ≤ NO_EXPIRY).
  { destruct (valid_until r) as [cap|]; [|done]. pose proof (tick_range en cap). lia. }
  by rewrite word_deadline.
Qed.

Lemma refresh_after_range ttl ptr en now (r : DecisionResult P) :
  0 ≤ ttl → 0 ≤ sn_refresh_after (decision_snapshot_at ttl ptr en now r) ≤ NO_EXPIRY.
Proof.
  intros Httl. destruct (decision_deadline_range ttl en now r Httl) as [Hr Heq].
  rewrite Heq in Hr. simpl. pose proof (tick_range en now) as Ht.
  pose proof no_expiry_val as Hne. pose proof max_finite_val as Hmf.
  destruct (_ <=? refresh_before en); [|lia]. unfold u64_saturating_sub.
  set (d := match valid_until r with Some _ => _ | None => _ end) in *.
  pose proof (u64_div_ceil_two_bounds (Z.max 0 (d - tick en now)) ltac:(lia)).
  rewrite u64_wrap_small; [lia|]. unfold u64_range. rewrite u64_max_val. lia.
Qed.

Lemma from_is_verdict d : EntryState.from d ≠ EntryState.Pending.
Proof. by destruct d. Qed.

Definition freshness_ttl w : Z := decision_freshness_ttl (w_config w).

Lemma decision_snapshot_ok w ptr en now (r : DecisionResult P) :
  0 ≤ freshness_ttl w →
  snapshot_ok w (decision_snapshot_at (freshness_ttl w) ptr en now r) ∧
  decode_entry_state (sn_word (decision_snapshot_at (freshness_ttl w) ptr en now r))
    = EntryState.from (decision r).
Proof.
  intros Httl. destruct (decision_deadline_range (freshness_ttl w) en now r Httl) as [Hr Heq].
  assert (Hexp : expires w (decision_snapshot_at (freshness_ttl w) ptr en now r)).
  { intros Hfin. change (deadline_of (sn_word (decision_snapshot_at (freshness_ttl w) 1 en now r))
      ≠ NO_EXPIRY). rewrite Heq. pose proof (deadline_after_finite en now _ Httl Hfin) as Hne.
    pose proof (deadline_after_range en now _ Httl). destruct (valid_until r); lia. }
  rewrite Heq in Hr. split.
  2:{ simpl. by rewrite word_decode. }
  split; [|split; [by apply refresh_after_range|]].
  - simpl. rewrite word_div by done. pose proof (code_range (EntryState.from (decision r))).
    red. rewrite u64_max_val. rewrite no_expiry_val in Hr. lia.
  - unfold fields_fit. simpl. rewrite word_decode by done. by destruct (decision r).
Qed.

Lemma decision_snapshot_from w0 w e en (r : DecisionResult P) :
  wf w → evolves w0 w → w_entries w !! e = Some en →
  run_from w0 w (decision_snapshot e r) (λ sn w', same_core w w' ∧
    (w_next w0 ≤ sn_ptr sn)%positive ∧ unused w' (sn_ptr sn) ∧
    sn = decision_snapshot_at (freshness_ttl w) (sn_ptr sn) en (w_clock w (w_reads w)) r ∧
    snapshot_ok w' sn ∧ decode_entry_state (sn_word sn) = EntryState.from (decision r)).
Proof.
  intros Hwf Ev He. unfold decision_snapshot.
  apply now_then; [done|done|]. intros w1 Hwf1 Ev1 Hc1.
  apply (load_then _ _ _ en); [by rewrite (sc_entries _ _ Hc1)|]. apply run_gets.
  apply alloc_then; [done|done|]. intros w2 Hwf2 Ev2 Hc2 Hun.
  apply run_from_ret; [done|done|].
  assert (freshness_ttl w1 = freshness_ttl w) as Hcfg
    by (unfold freshness_ttl; by rewrite (sc_config _ _ Hc1)).
  change (decision_freshness_ttl (w_config w1)) with (freshness_ttl w1). rewrite Hcfg.
  assert (0 ≤ freshness_ttl w) as Httl by (unfold freshness_ttl; by apply (typed_nonneg _ (wf_config _ Hwf))).
  destruct (decision_snapshot_ok w (w_next w1) en (w_clock w (w_reads w)) r Httl).
  split_and!; try done.
  - destruct Hc1, Hc2. split; try congruence; [lia|lia].
  - simpl. apply Ev1.
  - eapply snapshot_ok_config; [|done]. destruct Hc1, Hc2. congruence.
Qed.

(** ** Connectivity *)

Definition emptied w : World T P C :=
  set_snapshot ∅ (set_publish
    (mkPublish (u64_wrap (generation (w_publish w) + 1)) (next_allowed (w_publish w))) w).

Lemma publish_empty_then w0 w after Q :
  wf w → evolves w0 w →
  (wf (emptied w) → evolves w (emptied w) → evolves w0 (emptied w) →
   run_from w0 (emptied w) after Q) →
  run_from w0 w (publish_empty after) Q.
Proof.
  intros Hwf Ev Hk.
  destruct (wf_set_publish w (mkPublish (u64_wrap (generation (w_publish w) + 1))
    (next_allowed (w_publish w))) Hwf) as [Hwf1 Ev1].
  destruct (wf_set_snapshot _ ∅ Hwf1) as [Hwf2 Ev2]; [|done|].
  { intros s e. by rewrite lookup_empty. }
  destruct Hk as (a & w' & Hrun & Hrest).
  - done.
  - by etransitivity.
  - etransitivity; [exact Ev|]. by etransitivity.
  - by exists a, w'.
Qed.

Lemma mark_disconnected_from w0 w :
  wf w → evolves w0 w →
  run_from w0 w mark_disconnected (λ _ w',
    w_connected w' = w_connected w ∧ w_snapshot w' = w_snapshot w ∧
    w_publish w' = w_publish w ∧ evolves w w' ∧ slots w' = slots w ∧
    w_disconnected_since w' =
      Some (default (w_clock w (w_reads w)) (w_disconnected_since w))).
Proof.
  intros Hwf Ev. unfold mark_disconnected. apply run_gets.
  destruct (w_disconnected_since w) as [t|] eqn:Ht.
  - by apply run_from_ret.
  - apply now_then; [done|done|]. intros w1 Hwf1 Ev1 Hc.
    destruct (wf_set_disconnected_since w1 (Some (w_clock w (w_reads w))) Hwf1) as [Hwf2 Ev2].
    eexists tt, _. split; [done|]. split; [exact Hwf2|]. split; [by transitivity w1|].
    split; [apply Hc|]. split; [apply Hc|]. split; [apply Hc|]. split.
    + transitivity w1; [by apply evolves_same_core|done].
    + split; [exact (core_slots _ _ Hc)|done].
Qed.

(** [watch_disconnected]: offline, nothing published, nothing listed, every
    entry that existed dead, the start of the outage kept. *)
Definition offline_post w w' : Prop :=
  w_connected w' = false ∧ w_snapshot w' = ∅ ∧ slots w' = [] ∧
  w_publish w' = w_publish (emptied w) ∧
  w_disconnected_since w' = Some (default (w_clock w (w_reads w)) (w_disconnected_since w)) ∧
  ∀ e, is_Some (w_entries w !! e) → dead w' e.

Lemma clear_all w w1 e :
  evolves w w1 → ∀ w', evolves w1 w' → slots w' = [] →
  is_Some (w_entries w !! e) → dead w' e.
Proof.
  intros Ev w' Ev' Hsl He. split; [by eapply ev_exists, ev_exists|].
  unfold listed. rewrite Hsl. apply not_elem_of_nil.
Qed.

Lemma watch_disconnected_from w0 w :
  wf w → evolves w0 w → run_from w0 w watch_disconnected (λ _ w', offline_post w w').
Proof.
  intros Hwf Ev. unfold watch_disconnected.
  eapply (then_from _ _ _ _ (λ _ w1, w_connected w1 = false ∧ w_snapshot w1 = ∅ ∧
    w_publish w1 = w_publish (emptied w) ∧ evolves w w1 ∧
    w_disconnected_since w1 = Some (default (w_clock w (w_reads w)) (w_disconnected_since w)))).
  { apply publish_empty_then; [done|done|]. intros Hwf1 Ev01 Ev1.
    destruct (wf_set_connected (emptied w) false Hwf1) as [Hwf2 Ev2]; [done|].
    set (w2 := set_connected false (emptied w)) in *.
    assert (evolves w0 w2) as Ev02 by by transitivity (emptied w).
    eapply run_from_weaken.
    { eapply (core_then w0 w2); [done|done|by split|]. intros Hwf3 Ev3.
      by apply mark_disconnected_from. }
    simpl. intros u w3 _ _ (Hcn & Hsn & Hp & Ev3 & _ & Hd). split_and!; try done.
    transitivity (emptied w); [done|]. transitivity w2; [done|].
    refine (transitivity (evolves_same_core _ _ _) Ev3). by split. }
  intros u w1 Hwf1 Ev1 (Hcn & Hsn & Hp & Evw & Hd).
  destruct (map_clear_from w1 w1 Hwf1) as (u' & w2 & Hrun & Hwf2 & Ev2 & Hs & Hsl & _); [done|].
  exists u', w2. split; [done|]. split; [done|]. split; [by transitivity w1|].
  destruct Hs as [? Hcn2 Hsn2 ? ? Hp2 Hd2]. split_and!; try congruence.
  intros e. by apply (clear_all w w1).
Qed.

(** [watch_connected]: nothing from the old connection is listed or published. *)
Definition online_post w w' : Prop :=
  w_connected w' = true ∧ w_snapshot w' = ∅ ∧ slots w' = [] ∧
  w_publish w' = w_publish (emptied w) ∧
  w_disconnected_since w' = w_disconnected_since w ∧
  ∀ e, is_Some (w_entries w !! e) → dead w' e.

Lemma watch_connected_from w0 w :
  wf w → evolves w0 w → run_from w0 w watch_connected (λ _ w', online_post w w').
Proof.
  intros Hwf Ev. unfold watch_connected.
  eapply (then_from _ _ _ _ (λ _ w1, w1 = emptied w ∧ evolves w w1)).
  { apply publish_empty_then; [done|done|]. intros Hwf1 Ev01 Ev1. by apply run_from_ret. }
  intros u w1 Hwf1 Ev1 (-> & Evw).
  destruct (map_clear_from _ _ Hwf1 (reflexivity _)) as (u' & w2 & Hrun & Hwf2 & Ev2 & Hs & Hsl & _).
  destruct (wf_set_connected w2 true Hwf2) as [Hwf3 Ev3]; [done|].
  set (w3 := set_connected true w2) in *.
  assert (same_core w3 (set_metrics (w_metrics w3 ++ [Metric.set_watch_connected true]) w3))
    as Hc by by split.
  eexists tt, _. rewrite (run_bind_step _ _ _ _ _ Hrun). split; [done|].
  split; [by eapply wf_same_core|]. split.
  { transitivity (emptied w); [done|]. transitivity w2; [done|]. transitivity w3; [done|].
    by apply evolves_same_core. }
  destruct Hs as [? ? Hsn2 ? ? Hp2 Hd2]. split_and!; try done.
  intros e. apply (clear_all w (emptied w)); [done|done..| |done].
  transitivity w2; [done|]. transitivity w3; [done|]. by apply evolves_same_core.
Qed.

Lemma watch_stable_from w0 w :
  wf w → evolves w0 w →
  run_from w0 w watch_stable (λ _ w', w' = set_disconnected_since None w).
Proof.
  intros Hwf Ev. destruct (wf_set_disconnected_since w None Hwf) as [Hwf' Ev'].
  eexists tt, _. split; [done|]. split; [done|]. split; [by transitivity w|done].
Qed.

(** ** Snapshot publication *)

Definition claim_post w (r : option Z) w' : Prop :=
  evolves w w' ∧ w_entries w' = w_entries w ∧ w_fetches w' = w_fetches w ∧
  w_subjects w' = w_subjects w ∧ w_connected w' = w_connected w ∧
  w_config w' = w_config w ∧ w_clock w' = w_clock w ∧
  w_snapshot w' = w_snapshot w ∧ generation (w_publish w') = generation (w_publish w) ∧
  ∀ g, r = Some g → g = generation (w_publish w).

Lemma claim_post_core w w1 r : same_core w w1 → r = None → claim_post w r w1.
Proof.
  intros Hc ->. split; [by apply evolves_same_core|]. split_and!; try apply Hc; [|done].
  by rewrite (sc_publish _ _ Hc).
Qed.

Lemma republish_claim_from w0 w :
  wf w → evolves w0 w → run_from w0 w republish_claim (claim_post w).
Proof.
  intros Hwf Ev. unfold republish_claim. apply run_gets.
  destruct (w_shape_dirty w); simpl; [|by apply run_from_ret, claim_post_core; [..|by split|]].
  apply run_gets, now_then; [done|done|]. intros w1 Hwf1 Ev1 Hc.
  destruct (_ <? _); [by apply run_from_ret, claim_post_core|]. apply run_gets.
  pose proof (wf_clock _ Hwf1 (w_reads w)) as Hclk.
  rewrite (sc_clock _ _ Hc) in Hclk. unfold Instant.checked_add.
  rewrite (proj2 (Z.leb_le _ _) Hclk).
  destruct (wf_set_publish w1 (mkPublish (generation (w_publish w))
    (w_clock w (w_reads w) + snapshot_republish_interval (w_config w1))) Hwf1) as [Hwf2 Ev2].
  eexists _, _. split; [done|]. split; [exact Hwf2|]. split; [by transitivity w1|].
  split.
  { transitivity w1; [by apply evolves_same_core|done]. }
  split_and!; try apply Hc; [done|]. by intros g [= <-].
Qed.

Lemma listed_tracked w s e : wf w → listed_as w s e → tracked w s e.
Proof.
  intros Hwf Hl. split.
  - apply (wf_listed _ Hwf), listed_iff. eauto.
  - intros s' Hl'. by eapply listed_as_unique.
Qed.

(** The copy names exactly what the map lists. *)
Definition copy_of w (m : gmap T positive) : Prop :=
  ∀ s e, m !! s = Some e ↔ listed_as w s e.

Lemma map_copy_ok w : wf w →
  copy_of w (list_to_map ((λ kv, (kv.1, slot_entry kv.2)) <$> slots w)).
Proof.
  intros Hwf s e.
  assert (NoDup ((λ kv : T * SubjectSlot, (kv.1, slot_entry kv.2)) <$> slots w).*1) as Hnd.
  { rewrite <-list_fmap_compose. apply (slots_nodup_keys _ Hwf). }
  rewrite <-elem_of_list_to_map by done. rewrite list_elem_of_fmap. split.
  - intros ([s' slot] & [= -> ->] & Hin). by exists slot.
  - intros (slot & Hin & <-). by exists (s, slot).
Qed.

Lemma republish_copy_from w0 w :
  wf w → evolves w0 w →
  run_from w0 w republish_copy (λ m w', same_core w w' ∧ copy_of w m).
Proof.
  intros Hwf Ev. eapply core_then; [done|done|by split|]. intros Hwf1 Ev1.
  eexists _, _. split; [done|]. split; [done|]. split; [done|]. split; [by split|].
  by apply (map_copy_ok w).
Qed.

Definition store_post w claimed m w' : Prop :=
  evolves w w' ∧ w_entries w' = w_entries w ∧ w_fetches w' = w_fetches w ∧
  w_subjects w' = w_subjects w ∧ w_connected w' = w_connected w ∧
  w_config w' = w_config w ∧ w_clock w' = w_clock w ∧ w_publish w' = w_publish w ∧
  w_snapshot w' =
    if (generation (w_publish w) =? claimed) && w_connected w then m else w_snapshot w.

Lemma republish_store_from w0 w claimed m :
  wf w → evolves w0 w → (∀ s e, m !! s = Some e → tracked w s e) →
  run_from w0 w (republish_store claimed m) (λ _ w', store_post w claimed m w').
Proof.
  intros Hwf Ev Hm. unfold republish_store. apply run_gets, run_gets.
  destruct (_ && _) eqn:Hgo.
  - apply andb_true_iff in Hgo as [Hg Hcn].
    destruct (wf_set_snapshot w m Hwf Hm) as [Hwf1 Ev1]; [by rewrite Hcn|].
    eexists tt, _. split; [done|].
    assert (same_core (set_snapshot m w)
      (set_metrics (w_metrics w ++ [Metric.snapshot_republish]) (set_snapshot m w))) as Hc
      by by split.
    split; [by eapply wf_same_core|].
    assert (evolves w (set_metrics (w_metrics w ++ [Metric.snapshot_republish])
      (set_snapshot m w))) as Ev2
      by (transitivity (set_snapshot m w); [done|by apply evolves_same_core]).
    split; [by transitivity w|]. split; [done|]. split_and!; try done.
    by rewrite Hg, Hcn.
  - apply run_from_ret; [done|done|]. split_and!; try done. by rewrite Hgo.
Qed.

(** [republish_if_due] changes no entry and no listing; it publishes the
    current listing or nothing. *)
Definition republished w w' : Prop :=
  evolves w w' ∧ w_entries w' = w_entries w ∧ w_fetches w' = w_fetches w ∧
  w_subjects w' = w_subjects w ∧ w_connected w' = w_connected w ∧
  w_config w' = w_config w ∧ w_clock w' = w_clock w ∧
  generation (w_publish w') = generation (w_publish w) ∧
  (w_snapshot w' = w_snapshot w ∨ w_connected w = true ∧ copy_of w (w_snapshot w')).

Lemma republish_if_due_from w0 w :
  wf w → evolves w0 w → run_from w0 w republish_if_due (λ _ w', republished w w').
Proof.
  intros Hwf Ev. eapply run_from_bind; [by apply republish_claim_from|].
  intros r w1 Hwf1 Ev1 (Evw & He & Hf & Hs & Hcn & Hcf & Hck & Hsn & Hg & Hr).
  destruct r as [g|].
  2:{ apply run_from_ret; [done|done|]. split_and!; auto. }
  eapply run_from_bind; [by apply republish_copy_from|].
  intros m w2 Hwf2 Ev2 [Hc Hm].
  eapply run_from_weaken.
  { apply (republish_store_from w0 w2 g m); [done|done|].
    intros s e Hse. eapply tracked_stable; [by apply evolves_same_core|].
    by apply listed_tracked, Hm. }
  intros u w3 _ _ (Ev3 & He3 & Hf3 & Hs3 & Hcn3 & Hcf3 & Hck3 & Hp3 & Hsn3).
  destruct Hc as [Ccf Ccn Cs Ca Csn Cp Csi Ce Cf Cck Crd Cnx].
  assert (evolves w1 w2) as Ev12 by (apply evolves_same_core; by split).
  split; [transitivity w1; [done|]; by transitivity w2|].
  split_and!; try congruence.
  rewrite Hsn3. destruct (_ && _) eqn:Hgo; [|left; congruence].
  apply andb_true_iff in Hgo as [_ Hon]. right. split; [congruence|].
  intros s e. rewrite (Hm s e). unfold listed_as, slots. by rewrite Hs.
Qed.

(** ** Watch changes *)

(** The verdict is in place without payload, and no lookup is left. *)
Definition changed w (d : Decision.t) e w' : Prop :=
  (∃ en, w_entries w' !! e = Some en ∧ entry_decode en = EntryState.from d ∧
     sn_payload (current en) = None ∧ pending en = None) ∧
  (∀ en f, w_entries w !! e = Some en → pending en = Some f → fetch_aborted w' f).

Lemma apply_change_loop_ok w s e d :
  wf w → listed_as w s e →
  run_ok w (apply_change_loop 1 e d) (λ _ w', shared_same w w' ∧ changed w d e w').
Proof.
  intros Hwf Hl. assert (listed w e) as Hle by (apply listed_iff; eauto).
  destruct (wf_listed _ Hwf _ Hle) as [en He].
  apply (load_then _ _ _ en); [done|].
  eapply run_from_bind; [by apply (decision_snapshot_from w w e en)|].
  intros sn w1 Hwf1 Ev1 (Hc & Hnew & Hun & Hsn & Hok & Hst).
  assert (w_entries w1 !! e = Some en) as He1 by by rewrite (sc_entries _ _ Hc).
  assert (listed w1 e) as Hl1 by (unfold listed; by rewrite (core_slots _ _ Hc)).
  eapply run_from_bind.
  { apply (entry_compare_exchange_from w w1 e en); try done; [|by left].
    rewrite Hst. apply from_is_verdict. }
  intros r w2 Hwf2 Ev2 [-> ->]. unfold entry_decode in *.
  rewrite bool_decide_eq_true_2 in * by done. eapply run_from_weaken.
  { apply (entry_abort_pending_from w _ e (set_current sn en)); [done|done|].
    simpl. by rewrite lookup_insert_eq. }
  simpl. intros u w3 _ _ (Hs & He3 & Hab & _). simpl in *. split.
  { destruct Hs, Hc. split; simpl in *; congruence. }
  split.
  - exists (set_pending None (set_current sn en)). rewrite He3, lookup_insert_eq.
    split_and!; try done. simpl. rewrite Hsn. simpl.
    by case_bool_decide.
  - intros en0 f He0. simplify_eq. apply Hab.
Qed.

(** What [apply_change] does to the entry its subject names. *)
Definition change_post w (c : DecisionChange T) w' : Prop :=
  w_connected w' = w_connected w ∧
  ∀ e, listed_as w (change_subject c) e →
    dead w' e ∨
    match change_decision c with
    | Some d => ∃ en, w_entries w' !! e = Some en ∧ entry_decode en = EntryState.from d ∧
                  sn_payload (current en) = None ∧ pending en = None
    | None => False
    end.

Lemma dead_republished w w' e : republished w w' → dead w e → dead w' e.
Proof. intros Hr. apply dead_stable, Hr. Qed.

Lemma apply_change_from w0 w c :
  wf w → evolves w0 w → run_from w0 w (apply_change c) (λ _ w', change_post w c w').
Proof.
  intros Hwf Ev. unfold apply_change, change_post.
  destruct c as [s [d|]]; simpl; (apply now_then; [done|done|]); intros w1 Hwf1 Ev1 Hc;
    (assert (∀ e, listed_as w s e → listed_as w1 s e) as Hla
       by (intros e; by apply (same_core_listed_as w w1 s e))).
  - eapply then_from.
    { apply (map_update_from w0 w1 s _ _ (λ e w', ∃ en, w_entries w' !! e = Some en ∧
        entry_decode en = EntryState.from d ∧ sn_payload (current en) = None ∧
        pending en = None)); [done|done|].
      intros w2 e Hwf2 Ev2 _ _ Hl2 _. eapply run_from_weaken; [by eapply apply_change_loop_ok|].
      intros u w3 _ _ [? [? _]]. by split. }
    intros u w2 Hwf2 Ev2 [Hs Hfate]. eapply run_from_weaken; [by apply republish_if_due_from|].
    intros u' w3 _ _ Hr. split.
    { destruct Hr as (_ & _ & _ & _ & -> & _). rewrite (ss_connected _ _ Hs). apply Hc. }
    intros e Hl%Hla. destruct (Hfate e Hl) as [Hd|(en & He & ?)].
    + left. by apply (dead_republished w2 w3 e Hr).
    + right. exists en. destruct Hr as (_ & -> & _). by split.
  - eapply run_from_bind; [by apply map_remove_from|].
    intros removed w2 Hwf2 Ev2 [Hs Hfate].
    eapply (then_from _ _ _ _ (λ _ w', same_core w2 w')).
    { destruct removed; [apply core_last|apply run_from_ret]; first [done|by split]. }
    intros u w3 Hwf3 Ev3 Hc3. eapply run_from_weaken; [by apply republish_if_due_from|].
    intros u' w4 _ _ Hr. split.
    { destruct Hr as (_ & _ & _ & _ & -> & _).
      rewrite (sc_connected _ _ Hc3), (ss_connected _ _ Hs). apply Hc. }
    intros e Hl%Hla. left. apply (dead_republished w3 w4 e Hr).
    apply (dead_stable w2); [by apply evolves_same_core|]. by apply Hfate.
Qed.
End gate_methods.
