(* ===== verification/AccessMethods.v ===== *)
(** * AccessMethods: handles, cached reads and the claim of a refresh

    What a returned handle is worth, and what [admission_on_access] does to the
    entry's pending slot before, during and after its only await. *)

From S2P Require Export GateMethods.

Section access.
Context {T P C : Type} `{Countable T, !LruCache T SubjectSlot C, !LruCacheOk T SubjectSlot C, TimeDriver}.
Implicit Types (w : World T P C) (e f : positive) (s : T) (en : Entry P).

(** A handle names an entry of [s], or of nobody any more, that has left the
    pending state for good. *)
Definition handle w s e : Prop := tracked w s e ∧ settled w e.

Lemma handle_stable w w' s e : evolves w w' → handle w s e → handle w' s e.
Proof. intros Ev [? ?]. split; [by eapply tracked_stable|by eapply settled_stable]. Qed.

Lemma verdict_settled d : EntryState.from d ≠ EntryState.Pending.
Proof. by destruct d. Qed.

(** An unexpired verdict listed under [s], at the clock reading taken next. *)
Definition vouched w s e : Prop :=
  ∃ en, w_entries w !! e = Some en ∧ listed_as w s e ∧
    (∃ d, entry_decode en = EntryState.from d) ∧
    is_expired_at en (sn_word (current en)) (w_clock w (w_reads w)) = false.

(** A handle returned by a method that ran from [w] to [w']: at some moment in
    between the entry was vouched for. *)
Definition granted w s e w' : Prop :=
  handle w' s e ∧ ∃ wm, evolves w wm ∧ evolves wm w' ∧ vouched wm s e.

Lemma granted_weaken w0 w w' w'' s e :
  evolves w0 w → granted w s e w' → evolves w' w'' → granted w0 s e w''.
Proof.
  intros Ev0 [Hh (wm & E1 & E2 & Hv)] Ev. split; [by apply (handle_stable w')|].
  exists wm. split_and!; [by transitivity w|by transitivity w'|done].
Qed.

(** ** Reading a verdict *)

(** The entry was listed and read as a verdict that is not expired; the read
    changed nothing. *)
Definition verdict_read w e en now w' : Prop :=
  env_same w w' ∧ w_entries w' = w_entries w ∧ w_fetches w' = w_fetches w ∧
  listed w e ∧ (∃ d, entry_decode en = EntryState.from d) ∧
  is_expired_at en (sn_word (current en)) now = false.

Lemma read_verdict w e en now sx w' d :
  wf w → w_entries w !! e = Some en → read_post w e en now sx w' →
  verdict_of sx = Some d → verdict_read w e en now w'.
Proof.
  intros Hwf He Hr Hv. destruct (verdict_listed _ _ _ _ _ _ _ Hwf He Hr Hv) as (Hl & Hd & Hx).
  destruct Hr as (Hs & Hf & en' & He' & [(_ & _ & ->)|(Hx' & _)]); [|congruence].
  split_and!; try done; [|by exists d]. by rewrite He', insert_id.
Qed.

Lemma settled_verdict w e en d :
  w_entries w !! e = Some en → entry_decode en = EntryState.from d → settled w e.
Proof. intros He Hd. exists en. split; [done|]. rewrite Hd. apply verdict_settled. Qed.

(** [Entry::admission] from any world. *)
Lemma admission_from w0 w s e :
  wf w → evolves w0 w → tracked w s e →
  run_from w0 w (entry_admission e) (λ r w', evolves w w' ∧
    match r with
    | Some a => a = e ∧ granted w s e w' ∧
        ∃ en, w_entries w !! e = Some en ∧ verdict_read w e en (w_clock w (w_reads w)) w'
    | None => True
    end).
Proof.
  intros Hwf Ev Ht. destruct (proj1 Ht) as [en He].
  eapply run_ok_from; [by apply (entry_admission_from w w e en)|done|].
  intros r w' Hwf' Ev' (sx & Hr & ->). split; [done|].
  destruct (verdict_of sx) as [d|] eqn:Hv; [|done]. split; [done|].
  pose proof (read_verdict _ _ _ _ _ _ _ Hwf He Hr Hv) as Hrd. split; [|by exists en].
  destruct Hrd as (_ & Hen & _ & Hl & [d' Hd] & Hx). split.
  - split; [by eapply tracked_stable|]. apply (settled_verdict _ _ en d'); [by rewrite Hen|done].
  - exists w. split; [done|]. split; [done|]. exists en. split_and!; [done| |by exists d'|done].
    apply listed_iff in Hl as [s' Hs']. by rewrite <-(proj2 Ht _ Hs').
Qed.

(** ** New fetches *)

Definition new_fetch_post w pf f w' : Prop :=
  evolves w w' ∧ env_same w w' ∧ w_entries w' = w_entries w ∧ f = w_next w ∧
  w_fetches w' = <[f := pf]> (w_fetches w).

Lemma new_fetch_after_from w0 w e s delay from :
  wf w → evolves w0 w → tracked w s e →
  (∀ cur, from = Some cur → refresh_source w e cur) →
  run_from w0 w (new_fetch_after e s delay from)
    (new_fetch_post w (mkFetch e s delay from false FetchPhase.Start)).
Proof.
  intros Hwf Ev Ht Hr. unfold new_fetch_after.
  assert (same_core w (set_next (Pos.succ (w_next w)) w)) as Hc by (split; simpl; try done; lia).
  destruct (wf_insert_fetch w _ (w_next w) (mkFetch e s delay from false FetchPhase.Start) Hwf Hc)
    as [Hwf' Ev']; [simpl; lia|left; by apply fresh_fetch|done|done|].
  eexists (w_next w), _. split; [done|]. split; [exact Hwf'|]. split; [by transitivity w|].
  split; [exact Ev'|]. by split.
Qed.

(** ** Giving a claim up *)

Lemma release_claim_from w0 w e f :
  wf w → evolves w0 w → is_Some (w_entries w !! e) →
  run_from w0 w (release_claim e f) (λ _ w', evolves w w' ∧ env_same w w' ∧
    w_fetches w' = w_fetches w ∧
    ∀ en, w_entries w !! e = Some en →
      w_entries w' = <[e := if bool_decide (pending en = Some f)
                            then set_pending None en else en]> (w_entries w)).
Proof.
  intros Hwf Ev [en He]. unfold release_claim.
  destruct (entry_replace_pending_from w w e en f None Hwf (reflexivity _) He)
    as (r & w1 & Hrun & Hwf1 & Ev1 & -> & ->); [done|].
  eexists tt, _. rewrite (run_bind_step _ _ _ _ _ Hrun). split; [done|]. split; [done|].
  split; [by transitivity w|]. split; [done|].
  split; [by case_bool_decide|]. split; [by case_bool_decide|].
  intros en0 He0. simplify_eq. case_bool_decide; [done|]. by rewrite insert_id.
Qed.

(** ** [admission_on_access] *)

(** The claim of the refresh [f] on [e]: the entry's only pending fetch, which
    started from the snapshot the entry holds. *)
Definition claimed w s e f : Prop :=
  ∃ en, w_entries w !! e = Some en ∧ pending en = Some f ∧
    w_fetches w !! f =
      Some (mkFetch e s None (Some (current en)) false FetchPhase.Start).

Definition access_post w s e (limit : option Z) (r : Access.t) w' : Prop :=
  evolves w w' ∧
  match r with
  | Access.Done None => True
  | Access.Done (Some a) => a = e ∧ granted w s e w'
  | Access.Enqueue e' f queue_deadline =>
      e' = e ∧ handle w' s e ∧ (w_next w ≤ f)%positive ∧ claimed w' s e f ∧
      (∃ en, w_entries w !! e = Some en ∧ pending en = None) ∧
      (∀ d, limit = Some d → queue_deadline ≤ d)
  end.

Lemma run_from_evolves {A} w0 w (m : M (World T P C) A) (Q : A → World T P C → Prop) :
  evolves w0 w → run_ok w m (λ a w', Q a w') →
  run_from w0 w m (λ a w', evolves w w' ∧ Q a w').
Proof. intros Ev Hok. eapply run_ok_from; [exact Hok|done|]. by intros a w' _ Ev' HQ. Qed.

(** After the claim: revalidate it, or give it up. *)
Lemma revalidate_from w s e f cur q (limit : option Z) w0 :
  wf w → evolves w0 w → handle w s e → (w_next w0 ≤ f)%positive →
  (∃ en, w_entries w !! e = Some en ∧ pending en = Some f ∧
     (sn_ptr (current en) = sn_ptr cur → current en = cur)) →
  w_fetches w !! f = Some (mkFetch e s None (Some cur) false FetchPhase.Start) →
  (∃ en, w_entries w0 !! e = Some en ∧ pending en = None) →
  (∀ d, limit = Some d → q ≤ d) →
  run_from w0 w
    (en ← load_entry e;
     valid ← (if bool_decide (sn_ptr (current en) = sn_ptr cur) then
                now ← D_now; mret (refresh_eligible_at en cur now)
              else mret false);
     if valid : bool then mret (Access.Enqueue e f q)
     else r ← entry_admission e; _ ← release_claim e f; mret (Access.Done r))
    (access_post w0 s e limit).
Proof.
  intros Hwf Ev Hh Hnew (en & He & Hp & Hsame) Hf Hfree Hq.
  apply (load_then _ _ _ en); [done|].
  assert (Hout : ∀ w1, wf w1 → evolves w0 w1 → handle w1 s e →
    run_from w0 w1 (r ← entry_admission e; _ ← release_claim e f; mret (Access.Done r))
      (access_post w0 s e limit)).
  { intros w1 Hwf1 Ev1 Hh1. eapply run_from_bind; [apply (admission_from w0 w1 s e); try done; apply Hh1|].
    intros r w2 Hwf2 Ev2 [Ev12 Hr]. eapply then_from.
    { apply (release_claim_from w0 w2 e f); [done|done|].
      eapply ev_exists; [exact Ev12|]. apply Hh1. }
    intros u w3 Hwf3 Ev3 (Ev23 & _). apply run_from_ret; [done|done|]. split; [done|].
    destruct r as [a|]; [|done]. destruct Hr as (-> & Hg & _). split; [done|].
    by apply (granted_weaken w0 w1 w2). }
  case_bool_decide as Hptr.
  2:{ apply run_pure. by apply Hout. }
  apply (run_from_bind _ _ _ _ (λ _ w', same_core w w')).
  { apply now_then; [done|done|]. intros w1 Hwf1 Ev1 Hc. by apply run_from_ret. }
  intros v w1 Hwf1 Ev1 Hc.
  assert (handle w1 s e) as Hh1 by (eapply handle_stable; [by apply evolves_same_core|done]).
  destruct v; [|by apply Hout]. apply run_from_ret; [done|done|]. split; [done|].
  split_and!; try done. exists en. rewrite (sc_entries _ _ Hc), (sc_fetches _ _ Hc).
  split_and!; try done. by rewrite (Hsame Hptr).
Qed.

Lemma due_source w e en now :
  wf w → w_entries w !! e = Some en → refresh_due_at en (current en) now = true →
  refresh_source w e (current en) ∧ pending en = None ∧ listed w e.
Proof.
  intros Hwf He [Hel Hp]%andb_true_iff.
  apply refresh_eligible_true in Hel as (_ & Hv & _). split; [|split].
  - split; [done|]. split; [apply (eo_ptr _ _ _ (wf_entry _ Hwf _ _ He))|].
    split; [exists en; split; [done|]; unfold entry_decode; by intros Hst; rewrite Hst in Hv|].
    intros en' He' _. by simplify_eq.
  - by destruct (pending en).
  - destruct (decide (listed w e)) as [|Hn]; [done|].
    destruct (retired_unlisted _ _ _ Hwf He Hn) as [Hst _].
    unfold entry_decode in Hst. by rewrite Hst in Hv.
Qed.

Lemma access_begin_from w0 w s e limit :
  wf w → evolves w0 w → tracked w s e →
  run_from w0 w (access_begin s e limit) (access_post w s e limit).
Proof.
  intros Hwf Ev Ht. eapply run_ok_from; [|exact Ev|by intros a w' _ _ HQ; exact HQ].
  unfold access_begin. eapply run_from_bind; [by apply (admission_from w w s e)|].
  intros r w1 Hwf1 Ev1 [_ Hr]. destruct r as [a|]; [|by apply run_from_ret].
  destruct Hr as (-> & Hg & en & He & (Hs1 & He1 & Hf1 & _)). pose proof (proj1 Hg) as Hh.
  assert (Hdone : ∀ w2, wf w2 → evolves w w2 → evolves w1 w2 →
    run_from w w2 (mret (Access.Done (Some e))) (access_post w s e limit)).
  { intros w2 Hwf2 Ev2 Ev12. apply run_from_ret; [done|done|]. split; [done|].
    split; [done|]. by apply (granted_weaken w w w1). }
  apply run_gets. destruct (Duration.is_zero _); [by apply Hdone|].
  assert (w_entries w1 !! e = Some en) as He1e by by rewrite He1.
  apply (load_then _ _ _ en); [done|].
  apply now_then; [done|done|]. intros w2 Hwf2 Ev2 Hc2.
  assert (w_entries w2 !! e = Some en) as He2e by by rewrite (sc_entries _ _ Hc2).
  assert (evolves w1 w2) as Ev12 by by apply evolves_same_core.
  assert (handle w2 s e) as Hh2 by by apply (handle_stable w1).
  apply (load_then _ _ _ en); [done|].
  destruct (refresh_due_at _ _ _) eqn:Hdue; [|by apply Hdone].
  destruct (due_source _ _ _ _ Hwf2 He2e Hdue) as (Hsrc & Hfree & Hl2).
  set (dl := match Instant.checked_add _ _ with Some _ => _ | None => _ end).
  assert (Hdl : ∀ q, dl = Some q → ∀ d, limit = Some d → q ≤ d).
  { intros q Hq d ->. subst dl. destruct (Instant.checked_add _ _); simplify_eq; lia. }
  destruct dl as [q|]; [|by apply Hdone].
  eapply run_from_bind; [by apply new_fetch_after_from; [..|apply Hh2|intros ? [= <-]]|].
  intros f w3 Hwf3 Ev3 (Ev23 & Hs3 & He3 & -> & Hf3).
  assert (handle w3 s e) as Hh3 by by eapply handle_stable.
  assert (w_entries w3 !! e = Some en) as He3e by by rewrite He3.
  eapply run_from_bind.
  { apply (entry_claim_pending_from w w3 e en (w_next w2)
      (mkFetch e s None (Some (current en)) false FetchPhase.Start)); try done.
    - by rewrite Hf3, lookup_insert_eq.
    - by apply (env_same_listed w2 w3). }
  intros r w4 Hwf4 Ev4 [-> ->]. rewrite Hfree in *.
  apply (revalidate_from _ s e (w_next w2) (current en) q limit w); try done.
  - destruct Hh3 as [Ht3 Hset3]. split; [by apply tracked_set_entry|].
    exists (set_pending (Some (w_next w2)) en). simpl. rewrite lookup_insert_eq.
    split; [done|]. destruct Hset3 as (en3 & ? & ?). by simplify_eq.
  - apply Ev2.
  - exists (set_pending (Some (w_next w2)) en). simpl. by rewrite lookup_insert_eq.
  - simpl. rewrite Hf3. by rewrite lookup_insert_eq.
  - by exists en.
  - by apply Hdl.
Qed.

(** The one await: the request is queued with its claim, or the claim is given
    up; in both cases the handle is the entry's current admission. *)
Definition poll_post w s e f (queued : Prop) (r : Poll.t (option positive)) w' : Prop :=
  evolves w w' ∧
  match r with
  | Poll.Pending => w_entries w' = w_entries w
  | Poll.Ready a => (∀ a', a = Some a' → a' = e ∧ granted w s e w') ∧
      (queued ∨ ∃ en, w_entries w' !! e = Some en ∧ pending en ≠ Some f)
  end.

Lemma give_up_from w w1 s e f queued :
  wf w1 → evolves w w1 → tracked w1 s e →
  run_from w w1 (r ← entry_admission e; _ ← release_claim e f; mret (Poll.Ready r))
    (poll_post w s e f queued).
Proof.
  intros Hwf1 Ev1 Ht1. eapply run_from_bind; [by apply (admission_from w w1 s e)|].
  intros r w2 Hwf2 Ev2 [Ev12 Hr].
  assert (is_Some (w_entries w2 !! e)) as [en2 He2] by (eapply ev_exists; [exact Ev12|apply Ht1]).
  eapply then_from; [apply (release_claim_from w w2 e f); [done|done|by exists en2]|].
  intros u w3 Hwf3 Ev3 (Ev23 & _ & _ & He3). apply run_from_ret; [done|done|].
  split; [done|]. split.
  - intros a ->. destruct Hr as (-> & Hg & _). split; [done|]. by apply (granted_weaken w w1 w2).
  - right. rewrite (He3 _ He2), lookup_insert_eq. eexists. split; [done|].
    by case_bool_decide.
Qed.

Lemma access_poll_from w0 w s e f first q send :
  wf w → evolves w0 w → tracked w s e →
  run_from w0 w (access_poll first e f q send)
    (poll_post w s e f
       (timeout_at_poll first q (w_clock w (w_reads w)) send = Poll.Ready (Ok (Ok tt)))).
Proof.
  intros Hwf Ev Ht. eapply run_ok_from; [|exact Ev|by intros a w' _ _ HQ; exact HQ].
  apply now_then; [done|done|]. intros w1 Hwf1 Ev1 Hc.
  assert (tracked w1 s e) as Ht1 by by eapply tracked_stable.
  destruct (timeout_at_poll first q (w_clock w (w_reads w)) send) as [[[[]|[]]|[]]|].
  - apply core_then; [done|done|by split|]. intros Hwf2 Ev2.
    eapply run_from_bind; [by apply (admission_from w _ s e)|].
    intros r w3 Hwf3 Ev3 [Ev13 Hr]. apply run_from_ret; [done|done|]. split; [done|].
    split; [|by left]. intros a ->. destruct Hr as (-> & Hg & _). split; [done|].
    eapply granted_weaken; [exact Ev2|exact Hg|done].
  - by apply give_up_from.
  - by apply give_up_from.
  - apply run_from_ret; [done|done|]. split; [done|]. apply Hc.
Qed.

(** ** Cached reads *)

(** What a synchronous lookup returns. *)
Definition check_post w s (r : option positive) w' : Prop :=
  evolves w w' ∧ (∀ a, r = Some a → w_snapshot w !! s = Some a ∧ granted w s a w') ∧
  (w_snapshot w !! s = None → r = None).

Lemma map_touch_ok w0 w s e now :
  wf w → evolves w0 w →
  run_from w0 w (map_touch s e now) (λ r w', evolves w w' ∧ touch_post w s e r w').
Proof. intros Hwf Ev. apply run_from_evolves; [done|]. by apply map_touch_from. Qed.

Lemma verdict_then {A} w0 w s e (k : option Decision.t → M (World T P C) A) Q :
  wf w → evolves w0 w → tracked w s e →
  (∀ v w1, wf w1 → evolves w0 w1 → evolves w w1 → tracked w1 s e → run_from w0 w1 (k v) Q) →
  run_from w0 w (now ← D_now; v ← entry_verdict_at e now; k v) Q.
Proof.
  intros Hwf Ev Ht Hk. apply now_then; [done|done|]. intros w1 Hwf1 Ev1 Hc.
  destruct (proj1 Ht) as [en He].
  assert (w_entries w1 !! e = Some en) as He1 by by rewrite (sc_entries _ _ Hc).
  destruct (entry_verdict_at_from w1 w1 e en (w_clock w (w_reads w)))
    as (v & w2 & Hrun & Hwf2 & Ev2 & _); [done|done|done|].
  assert (evolves w w2) as Evw by (transitivity w1; [by apply evolves_same_core|done]).
  destruct (Hk v w2) as (a & w3 & Hrun3 & Hrest); try done.
  { by transitivity w. }
  { by eapply tracked_stable. }
  exists a, w3. split; [|done]. by rewrite (run_bind_step _ _ _ _ _ Hrun).
Qed.

Lemma check_without_refresh_from w0 w s :
  wf w → evolves w0 w → run_from w0 w (check_without_refresh s) (check_post w s).
Proof.
  intros Hwf Ev. eapply run_ok_from; [|exact Ev|by intros a w' _ _ HQ; exact HQ].
  unfold check_without_refresh. apply run_gets.
  destruct (w_snapshot w !! s) as [e|] eqn:Hsn.
  2:{ apply run_from_ret; [done|done|]. split; [done|]. by rewrite Hsn. }
  pose proof (wf_snapshot _ Hwf _ _ Hsn) as Ht.
  apply (verdict_then _ _ s); [done|done|done|]. intros v w1 Hwf1 Ev1 _ Ht1.
  destruct v as [d|].
  2:{ apply run_from_ret; [done|done|]. split; [done|]. by rewrite Hsn. }
  apply now_then; [done|done|]. intros w2 Hwf2 Ev2 Hc2.
  eapply then_from; [by apply map_touch_ok|]. intros r w3 Hwf3 Ev3 [Ev23 _].
  eapply run_from_weaken.
  { apply (admission_from w w3 s e); [done|done|]. by apply (tracked_stable w). }
  intros r' w4 _ Ev4 [_ Hr]. split; [done|]. split; [|by rewrite Hsn].
  intros a ->. destruct Hr as (-> & Hg & _). split; [done|].
  by apply (granted_weaken w w3 w4).
Qed.

(** What the async lookups leave behind when they suspend or return. *)
Definition begin_post w s e (r : Access.t) w' : Prop :=
  match r with
  | Access.Done None => True
  | Access.Done (Some a) => a = e ∧ granted w s e w'
  | Access.Enqueue e' f _ => e' = e ∧ handle w' s e ∧ claimed w' s e f
  end.

Lemma access_begin_post w0 w s e limit r w' :
  evolves w0 w → access_post w s e limit r w' → begin_post w0 s e r w'.
Proof.
  intros Ev [_ Hr]. destruct r as [[a|]|e' f q]; [|done|].
  - destruct Hr as [-> Hg]. split; [done|]. by apply (granted_weaken w0 w w').
  - by destruct Hr as (-> & ? & _ & ? & _).
Qed.

Lemma check_begin_from w0 w s :
  wf w → evolves w0 w →
  run_from w0 w (check_begin s) (λ r w', evolves w w' ∧
    match w_snapshot w !! s with
    | Some e => begin_post w s e r w'
    | None => r = Access.Done None
    end).
Proof.
  intros Hwf Ev. eapply run_ok_from; [|exact Ev|by intros a w' _ _ HQ; exact HQ].
  unfold check_begin. apply run_gets.
  destruct (w_snapshot w !! s) as [e|] eqn:Hsn; [|by apply run_from_ret].
  pose proof (wf_snapshot _ Hwf _ _ Hsn) as Ht.
  apply (verdict_then _ _ s); [done|done|done|]. intros v w1 Hwf1 Ev1 _ Ht1.
  destruct v as [d|]; [|by apply run_from_ret].
  apply now_then; [done|done|]. intros w2 Hwf2 Ev2 Hc2.
  eapply then_from; [by apply map_touch_ok|]. intros r w3 Hwf3 Ev3 [Ev23 _].
  eapply run_from_weaken.
  { apply (access_begin_from w w3 s e None); [done|done|]. by apply (tracked_stable w). }
  intros r' w4 _ Ev4 Hr. split; [done|]. by apply (access_begin_post w w3 _ _ None).
Qed.

Lemma refresh_entry_begin_from w0 w s e :
  wf w → evolves w0 w →
  run_from w0 w (refresh_entry_begin s e) (λ r w', evolves w w' ∧ begin_post w s e r w').
Proof.
  intros Hwf Ev. eapply run_ok_from; [|exact Ev|by intros a w' _ _ HQ; exact HQ].
  apply now_then; [done|done|]. intros w1 Hwf1 Ev1 Hc.
  eapply run_from_bind; [by apply map_touch_ok|].
  intros r w2 Hwf2 Ev2 (Ev12 & _ & Hr & Hr'). destruct r; [|by apply run_from_ret].
  eapply run_from_weaken.
  { apply (access_begin_from w w2 s e None); [done|done|]. by apply listed_tracked, Hr'. }
  intros r' w3 _ Ev3 Ha. split; [done|]. by apply (access_begin_post w w2 _ _ None).
Qed.
End access.
