(* ===== verification/FetchMethods.v ===== *)
(** * FetchMethods: every outcome of a lookup

    What [apply_fetch_result] publishes, retries or removes, that it always
    gives up the claim it ran under, and that polling the shared future never
    panics. *)

From S2P Require Export AccessMethods.

Section fetch_methods.
Context {T P C : Type} `{Countable T, !LruCache T SubjectSlot C, !LruCacheOk T SubjectSlot C, TimeDriver}.
Implicit Types (w : World T P C) (e f : positive) (s : T) (en : Entry P).

(** ** The refresh arm *)

(** A snapshot ready to be stored: new to everybody since [w0]. *)
Definition publishable w0 w (sn : EntrySnapshot P) : Prop :=
  (w_next w0 ≤ sn_ptr sn)%positive ∧ unused w (sn_ptr sn) ∧ snapshot_ok w sn ∧
  decode_entry_state (sn_word sn) ≠ EntryState.Pending.

(** The claim is gone; the snapshot was replaced only if it still was the one
    the refresh started from and had not expired. *)
Definition refresh_post w e f now (cur : EntrySnapshot P)
    (r : result (EntrySnapshot P) DecisionSourceError) w' : Prop :=
  ∀ en, w_entries w !! e = Some en →
    ∃ en', w_entries w' !! e = Some en' ∧ pending en' ≠ Some f ∧
      (current en' = current en ∨
       ∃ sn, r = Ok sn ∧ current en' = sn ∧ sn_ptr (current en) = sn_ptr cur ∧
         is_expired_at en (sn_word cur) now = false).

Lemma drop_claim_from w0 w e f :
  wf w → evolves w0 w → is_Some (w_entries w !! e) →
  run_from w0 w (entry_replace_pending e f None) (λ _ w', evolves w w' ∧
    ∀ en, w_entries w !! e = Some en →
      w_entries w' !! e = Some (if bool_decide (pending en = Some f)
                                then set_pending None en else en)).
Proof.
  intros Hwf Ev [en He]. eapply run_ok_from.
  { by apply (entry_replace_pending_from w w e en f None). }
  { done. }
  intros r w' _ Ev' [-> _]. split; [done|]. intros en0 He0. simplify_eq.
  case_bool_decide; simpl; [by rewrite lookup_insert_eq|done].
Qed.

Lemma publish_refresh_from w0 w e en now cur sn :
  wf w → evolves w0 w → w_entries w !! e = Some en →
  refresh_source w e cur → publishable w0 w sn →
  run_from w0 w
    (if negb (is_expired_at en (sn_word cur) now)
     then _ ← entry_swap_current e cur sn; mret tt else mret tt)
    (λ _ w', w' = set_entries (<[e :=
        if negb (is_expired_at en (sn_word cur) now) &&
           bool_decide (sn_ptr (current en) = sn_ptr cur)
        then set_current sn en else en]> (w_entries w)) w).
Proof.
  intros Hwf Ev He Hsrc (Hnew & Hun & Hok & Hset).
  destruct (is_expired_at _ _ _); simpl.
  - apply run_from_ret; [done|done|]. rewrite insert_id by done. by destruct w.
  - eapply then_from; [by apply (entry_swap_current_from w0 w e en cur sn)|].
    intros r w1 Hwf1 Ev1 [-> _]. by apply run_from_ret.
Qed.

Lemma cool_down_from w0 w e en t :
  wf w → evolves w0 w → w_entries w !! e = Some en →
  run_from w0 w (with_entry e (λ en, (tt, set_refresh_not_before (t en) en)))
    (λ _ w', w' = set_entries (<[e := set_refresh_not_before (t en) en]> (w_entries w)) w).
Proof.
  intros Hwf Ev He. eapply (with_entry_from w0 w e en); try done; [by left|..].
  - intros f. by apply (own_pending w e en).
  - by apply (retired_unlisted w e en).
Qed.

Lemma apply_refresh_result_from w0 w e f now cur r :
  wf w → evolves w0 w → is_Some (w_entries w !! e) → refresh_source w e cur →
  (∀ sn, r = Ok sn → publishable w0 w sn) →
  run_from w0 w (apply_refresh_result e f now cur r)
    (λ r' w', r' = forget r ∧ refresh_post w e f now cur r w').
Proof.
  intros Hwf Ev [en He] Hsrc Hr. unfold apply_refresh_result.
  apply (load_then _ _ _ en); [done|].
  eapply (then_from _ _ _ _ (λ _ w1, ∃ en1, w_entries w1 !! e = Some en1 ∧
    (current en1 = current en ∨
     ∃ sn, r = Ok sn ∧ current en1 = sn ∧ sn_ptr (current en) = sn_ptr cur ∧
       is_expired_at en (sn_word cur) now = false))).
  - destruct r as [sn|err].
    + eapply run_from_weaken; [by eapply publish_refresh_from; [..|apply Hr]|].
      intros u w1 _ _ ->. eexists. simpl. rewrite lookup_insert_eq. split; [done|].
      destruct (is_expired_at _ _ _); simpl; [by left|].
      case_bool_decide; [right; by exists sn|by left].
    + apply run_gets, now_then; [done|done|]. intros w1 Hwf1 Ev1 Hc.
      assert (w_entries w1 !! e = Some en) as He1 by by rewrite (sc_entries _ _ Hc).
      eapply run_from_weaken; [by apply (cool_down_from w0 w1 e en)|].
      intros u w2 _ _ ->. eexists. simpl. rewrite lookup_insert_eq. split; [done|]. by left.
  - intros u w1 Hwf1 Ev1 (en1 & He1 & Hcur).
    eapply then_from; [by apply (drop_claim_from w0 w1 e f)|].
    intros u' w2 Hwf2 Ev2 [Ev12 He2]. apply run_from_ret; [done|done|]. split; [done|].
    intros en0 He0. simplify_eq.
    eexists. split; [by apply He2|]. case_bool_decide; simpl; (split; [done|exact Hcur]).
Qed.

(** ** The other arms *)

Definition cooldown w : Z := permanent_failure_cooldown (w_config w).

(** A permanent failure replaces the caller's own generation by a fetch that
    starts after the cooldown. *)
Definition retry_post w s e f w' : Prop :=
  ∀ en, w_entries w !! e = Some en → entry_decode en = EntryState.Pending →
    pending en = Some f →
    ∃ en' f', w_entries w' !! e = Some en' ∧ current en' = current en ∧
      pending en' = Some f' ∧ f' ≠ f ∧
      w_fetches w' !! f' = Some (mkFetch e s (Some (cooldown w)) None false FetchPhase.Start).

Lemma owned_alloc w e en f :
  wf w → w_entries w !! e = Some en → pending en = Some f → (f < w_next w)%positive.
Proof.
  intros Hwf He Hp. destruct (own_pending _ _ _ _ Hwf He Hp) as (pf & Hf & _).
  apply (fo_alloc _ _ _ (wf_fetch _ Hwf _ _ Hf)).
Qed.

(** A pending entry never expires. *)
Lemma pending_word w e en :
  wf w → w_entries w !! e = Some en → entry_decode en = EntryState.Pending →
  deadline_of (sn_word (current en)) = NO_EXPIRY.
Proof.
  intros Hwf He Hd. destruct (current_ok _ _ _ Hwf He) as (_ & _ & Hfit).
  unfold fields_fit in Hfit. unfold entry_decode in Hd. rewrite Hd in Hfit. apply Hfit.
Qed.

Lemma apply_permanent_failure_from w0 w s e f :
  wf w → evolves w0 w → tracked w s e →
  run_from w0 w (apply_permanent_failure s e f) (λ _ w', retry_post w s e f w').
Proof.
  intros Hwf Ev Ht. destruct (proj1 Ht) as [en He].
  apply now_then; [done|done|]. intros w1 Hwf1 Ev1 Hc.
  assert (w_entries w1 !! e = Some en) as He1 by by rewrite (sc_entries _ _ Hc).
  eapply run_from_bind.
  { eapply run_ok_from; [by apply (entry_state_at_from w1 w1 e en)|done|].
    intros st w2 _ Ev2 Hp. exact (conj Ev2 Hp). }
  intros st w2 Hwf2 Ev2 (Ev12 & sx & (Hs & Hf & en' & He' & Hcase) & ->).
  assert (tracked w2 s e) as Ht2.
  { eapply tracked_stable; [exact Ev12|]. by eapply tracked_stable; [apply evolves_same_core|]. }
  case_bool_decide as Hst.
  2:{ apply run_from_ret; [done|done|]. intros en0 He0 Hd Hp. simplify_eq. exfalso.
      destruct Hcase as [(_ & -> & _)|(Hx & _)].
      - by unfold state_of in Hst; simpl in Hst.
      - apply is_expired_at_true in Hx as [Hne _]. by apply Hne, (pending_word w e). }
  assert (en' = en) as ->.
  { destruct Hcase as [(_ & _ & ->)|(_ & Hx & _)]; [done|].
    unfold state_of in Hst. by rewrite Hx in Hst. }
  apply run_gets.
  eapply run_from_bind; [by apply new_fetch_after_from|].
  intros f' w3 Hwf3 Ev3 (Ev23 & Hs3 & He3 & -> & Hf3).
  assert (w_entries w3 !! e = Some en) as He3e by (by rewrite He3, He', lookup_insert_eq).
  eapply then_from.
  { apply (entry_replace_pending_from w0 w3 e en f (Some (w_next w2))); [done|done|done|].
    intros f' [= <-]. split; [|rewrite Hf3, lookup_insert_eq; by eexists].
    destruct (decide (listed w3 e)) as [|Hn]; [done|].
    destruct (retired_unlisted _ _ _ Hwf3 He3e Hn) as [Hstale _].
    destruct Hcase as [(_ & -> & _)|(_ & Hx & _)].
    - unfold state_of in Hst. simpl in Hst. unfold entry_decode in Hstale. congruence.
    - unfold state_of in Hst. by rewrite Hx in Hst. }
  intros u w4 Hwf4 Ev4 [-> _]. apply run_from_ret; [done|done|].
  intros en0 He0 Hd Hp. simplify_eq. rewrite bool_decide_eq_true_2 by done.
  exists (set_pending (Some (w_next w2)) en), (w_next w2). simpl.
  rewrite lookup_insert_eq, Hf3, lookup_insert_eq. split_and!; try done.
  - assert (w_entries w2 !! e = Some en) as He2 by by rewrite He', lookup_insert_eq.
    pose proof (owned_alloc _ _ _ _ Hwf2 He2 Hp). lia.
  - unfold cooldown. by rewrite (es_config _ _ Hs), (sc_config _ _ Hc).
Qed.

(** The entry waits for [f] and nothing else has settled it. *)
Definition waiting w e f : Prop :=
  ∃ en, w_entries w !! e = Some en ∧ entry_decode en = EntryState.Pending ∧
    pending en = Some f.

Lemma waiting_listed w s e f : wf w → tracked w s e → waiting w e f → listed_as w s e.
Proof.
  intros Hwf [_ Hs] (en & He & Hd & _). destruct (decide (listed w e)) as [Hl|Hl].
  - apply listed_iff in Hl as [s' Hs']. by rewrite <-(Hs _ Hs').
  - by rewrite (stale_unlisted _ _ _ Hwf He Hl) in Hd.
Qed.

Lemma take_stale_ok w s e f e' :
  wf w → listed_as w s e' →
  run_ok w (take_stale e f e') (λ (r : bool) w', shared_same w w' ∧ slots w' = slots w ∧
    if r then e' = e else e' = e → ¬ waiting w e f).
Proof.
  intros Hwf Hl. unfold take_stale. case_bool_decide as Heq; simpl.
  2:{ by apply run_from_ret. }
  subst e'. assert (listed w e) as Hle by (apply listed_iff; eauto).
  destruct (wf_listed _ Hwf _ Hle) as [en He].
  eapply run_from_bind; [by apply (entry_pending_generation_from w w e en f)|].
  intros g w1 Hwf1 Ev1 [-> ->]. case_bool_decide as Hp.
  2:{ apply run_from_ret; [done|done|]. split_and!; try done.
      intros _ (en' & He' & _ & Hp'). congruence. }
  apply alloc_then; [done|done|]. intros w2 Hwf2 Ev2 Hc Hun.
  assert (w_entries w2 !! e = Some en) as He2 by by rewrite (sc_entries _ _ Hc).
  eapply run_from_bind.
  { by apply (entry_compare_exchange_from w w2 e en); try done; right. }
  intros r w3 Hwf3 Ev3 [-> ->]. apply run_from_ret; [done|done|].
  split; [by apply core_shared_same in Hc; destruct Hc; split|].
  split; [exact (core_slots _ _ Hc)|]. case_bool_decide as Hd; simpl; [done|].
  intros _ (en' & He' & Hd' & _). congruence.
Qed.

Lemma apply_transient_failure_from w0 w s e f :
  wf w → evolves w0 w → tracked w s e →
  run_from w0 w (apply_transient_failure s e f) (λ _ w', waiting w e f → dead w' e).
Proof.
  intros Hwf Ev Ht. apply now_then; [done|done|]. intros w1 Hwf1 Ev1 Hc.
  assert (tracked w1 s e) as Ht1 by (by apply (same_core_tracked w)).
  assert (waiting w e f → waiting w1 e f) as Hw1.
  { intros (en & He & ?). exists en. by rewrite (sc_entries _ _ Hc). }
  eapply run_from_bind.
  { apply (map_remove_if_from w0 w1 s _ _ (λ e', e' = e) (λ e' _, e' = e → ¬ waiting w1 e f));
      [done|done|].
    intros w2 e' Hwf2 Ev02 Ev12 Hl2 Hsame. eapply run_from_weaken; [by apply (take_stale_ok w2 s)|].
    intros r w3 _ _ (? & ? & Hr). split_and!; try done. destruct r; [done|].
    intros -> (en & He & Hd). apply Hr; [done|]. exists en. by rewrite Hsame. }
  intros removed w2 Hwf2 Ev2 [Hs Hr].
  eapply (then_from _ _ _ _ (λ _ w', same_core w2 w')).
  { destruct removed; [apply core_last|apply run_from_ret]; first [done|by split]. }
  intros u w3 Hwf3 Ev3 Hc3. eapply run_from_weaken; [by apply republish_if_due_from|].
  intros u' w4 _ _ Hrep Hw. apply (dead_republished w3 w4 e Hrep).
  apply (dead_stable w2); [by apply evolves_same_core|].
  destruct removed; [by destruct Hr as (e' & _ & -> & ?)|].
  destruct (Hr e) as [?|Hno]; [by eapply waiting_listed; auto|done|].
  exfalso. by apply Hno; auto.
Qed.

(** ** [apply_fetch_result] *)

Definition owns w e f : Prop := ∃ en, w_entries w !! e = Some en ∧ pending en = Some f.

(** What a first lookup leaves: the decision published, a delayed retry holding
    the claim, or the entry gone. *)
Definition first_outcome w s e f (r : result (DecisionResult P) DecisionSourceError)
    (r' : FetchResult) w' : Prop :=
  match r' with
  | Ok _ => ∃ d en', r = Ok d ∧ w_entries w' !! e = Some en' ∧
      entry_decode en' = EntryState.from (decision d) ∧ pending en' = None
  | Err err =>
      if is_permanent_status err
      then ∃ en' f', w_entries w' !! e = Some en' ∧ entry_decode en' = EntryState.Pending ∧
        pending en' = Some f' ∧ f' ≠ f ∧
        w_fetches w' !! f' = Some (mkFetch e s (Some (cooldown w)) None false FetchPhase.Start)
      else dead w' e
  end.

(** What a refresh leaves: no claim, and the old snapshot unless it was still
    in place. *)
Definition refresh_outcome w e f (cur : EntrySnapshot P) (r' : FetchResult) w' : Prop :=
  ∀ en, w_entries w !! e = Some en →
    ∃ en', w_entries w' !! e = Some en' ∧ pending en' ≠ Some f ∧
      (current en' = current en ∨ r' = Ok tt ∧ sn_ptr (current en) = sn_ptr cur).

Definition fetch_post w s e f (from : option (EntrySnapshot P))
    (r : result (DecisionResult P) DecisionSourceError) (r' : FetchResult) w' : Prop :=
  (∀ err, r = Err err → r' = Err err) ∧
  (¬ owns w e f → w' = w ∧ r' = forget r) ∧
  match from with
  | None => waiting w e f → first_outcome w s e f r r' w'
  | Some cur => owns w e f → refresh_outcome w e f cur r' w'
  end.

(** The decision as a snapshot that is valid now, or a failure. *)
Lemma prepare_from w e en (r : result (DecisionResult P) DecisionSourceError)
    (k : Z → result (EntrySnapshot P) DecisionSourceError → M (World T P C) FetchResult) Q :
  wf w → w_entries w !! e = Some en →
  (∀ w1 now r1, wf w1 → evolves w w1 → same_core w w1 →
     (∀ sn, r1 = Ok sn → publishable w w1 sn ∧
        ∃ d, r = Ok d ∧ decode_entry_state (sn_word sn) = EntryState.from (decision d)) →
     (∀ err, r = Err err → r1 = Err err) →
     run_from w w1 (k now r1) Q) →
  run_from w w
    (r ← match r with
         | Ok d => snapshot ← decision_snapshot e d; mret (Ok snapshot)
         | Err err => mret (Err err)
         end;
     now ← D_now;
     en ← load_entry e;
     k now (match r with
            | Ok snapshot =>
                if is_expired_at en (sn_word snapshot) now
                then Err (transient "decision expired before publication")
                else Ok snapshot
            | Err err => Err err
            end)) Q.
Proof.
  intros Hwf He Hk. destruct r as [d|err].
  - destruct (decision_snapshot_from w w e en d)
      as (sn & w1 & Hrun & Hwf1 & Ev1 & Hc & Hnew & Hun & _ & Hok & Hst); [done|done|done|].
    apply (run_step _ _ w1 _ (Ok sn)); [by rewrite (run_bind_step _ _ _ _ _ Hrun)|].
    apply now_then; [done|done|]. intros w2 Hwf2 Ev2 Hc2.
    assert (same_core w w2) as Hc02 by (destruct Hc, Hc2; split; try congruence; lia).
    apply (load_then _ _ _ en); [by rewrite (sc_entries _ _ Hc02)|].
    apply Hk; try done. intros sn' Hsn'. destruct (is_expired_at _ _ _); simplify_eq.
    split; [|by exists d]. split_and!; try done.
    + by apply (unused_same_core w1).
    + by apply (snapshot_ok_config w1); [apply (sc_config _ _ Hc2)|].
    + rewrite Hst. apply verdict_settled.
  - apply run_pure, now_then; [done|done|]. intros w1 Hwf1 Ev1 Hc.
    apply (load_then _ _ _ en); [by rewrite (sc_entries _ _ Hc)|].
    apply Hk; try done. by intros err' [= <-].
Qed.

(** The answer to a first lookup is published over the pending entry. *)
Lemma first_published_from w w2 s e en f d sn :
  wf w2 → evolves w w2 → w_entries w !! e = Some en → w_entries w2 !! e = Some en → owns w e f →
  publishable w w2 sn → decode_entry_state (sn_word sn) = EntryState.from (decision d) →
  run_from w w2
    (x ← entry_compare_exchange e EntryState.Pending sn;
     _ ← (if is_ok x then entry_replace_pending e f None else mret false);
     mret (Ok tt))
    (fetch_post w s e f None (Ok d)).
Proof.
  intros Hwf2 Ev2 He He2 Ho (Hnew & Hun & Hok & Hset) Hst.
  assert (pending en = Some f) as Hown by (destruct Ho as (? & ? & ?); by simplify_eq).
  eapply run_from_bind.
  { apply (entry_compare_exchange_from w w2 e en); try done. by right. }
  intros x w3 Hwf3 Ev3 [-> ->].
  eapply (then_from _ _ _ _ (λ _ w', waiting w e f → ∃ en', w_entries w' !! e = Some en' ∧
    entry_decode en' = EntryState.from (decision d) ∧ pending en' = None)).
  - case_bool_decide as Hd; simpl in *.
    + eapply run_from_weaken.
      { apply (drop_claim_from w _ e f); [done|done|]. simpl. rewrite lookup_insert_eq. eauto. }
      intros u w4 _ _ [_ He4] _.
      specialize (He4 (set_current sn en)). simpl in He4. rewrite lookup_insert_eq in He4.
      rewrite (He4 eq_refl), bool_decide_eq_true_2 by done. by eexists.
    + apply run_from_ret; [done|done|]. intros (en' & He' & Hd' & _). by simplify_eq.
  - intros u w4 Hwf4 Ev4 Hw. apply run_from_ret; [done|done|]. split_and!; [done|done|].
    intros (en' & ?)%Hw. by exists d, en'.
Qed.

(** The failure of a first lookup: a delayed retry, or the entry leaves the map. *)
Lemma first_failed_from w w2 s e f r err :
  wf w2 → evolves w w2 → same_core w w2 → tracked w2 s e → owns w e f →
  (∀ err', r = Err err' → err = err') →
  run_from w w2
    (_ ← (if is_permanent_status err
          then apply_permanent_failure s e f else apply_transient_failure s e f);
     mret (Err err))
    (fetch_post w s e f None r).
Proof.
  intros Hwf2 Ev2 Hc Ht2 Ho Herr.
  eapply (then_from _ _ _ _ (λ _ w', waiting w e f → first_outcome w s e f r (Err err) w')).
  - assert (waiting w e f → waiting w2 e f) as Hww.
    { intros (en' & He' & ?). exists en'. by rewrite (sc_entries _ _ Hc). }
    unfold first_outcome. destruct (is_permanent_status err).
    + eapply run_from_weaken; [by apply (apply_permanent_failure_from w w2 s e f)|].
      intros u w3 _ _ Hret (en' & He' & Hd' & Hp')%Hww.
      destruct (Hret en' He' Hd' Hp') as (en3 & f' & He3 & Hcur & Hp3 & Hne & Hf').
      exists en3, f'. unfold entry_decode, cooldown in *.
      rewrite Hcur. rewrite (sc_config _ _ Hc) in Hf'. by split_and!.
    + eapply run_from_weaken; [by apply (apply_transient_failure_from w w2 s e f)|].
      intros u w3 _ _ Hd Hw. by apply Hd, Hww.
  - intros u w4 Hwf4 Ev4 Hw. apply run_from_ret; [done|done|].
    split_and!; [|done|done]. intros err' Hr. by rewrite (Herr err' Hr).
Qed.

Lemma apply_fetch_result_from w0 w s e f from r :
  wf w → evolves w0 w → tracked w s e →
  (∀ cur, from = Some cur → refresh_source w e cur) →
  run_from w0 w (apply_fetch_result s e f from r) (fetch_post w s e f from r).
Proof.
  intros Hwf Ev Ht Hfrom. eapply run_ok_from; [|exact Ev|by intros a w' _ _ HQ; exact HQ].
  destruct (proj1 Ht) as [en He].
  eapply run_from_bind; [by apply (entry_pending_generation_from w w e en f)|].
  intros g w1 Hwf1 Ev1 [-> ->]. case_bool_decide as Hown.
  2:{ apply run_from_ret; [done|done|]. split; [by intros err ->|]. split; [done|].
      destruct from; [intros (en' & He' & Hp')|intros (en' & He' & _ & Hp')]; congruence. }
  apply (prepare_from w e en r (λ now r, match from with
    | Some cur => apply_refresh_result e f now cur r
    | None => match r with
        | Ok snapshot =>
            x ← entry_compare_exchange e EntryState.Pending snapshot;
            _ ← (if is_ok x then entry_replace_pending e f None else mret false);
            mret (forget r)
        | Err err =>
            _ ← (if is_permanent_status err
                 then apply_permanent_failure s e f
                 else apply_transient_failure s e f);
            mret (forget r)
        end
    end)); [done|done|].
  intros w2 now r1 Hwf2 Ev2 Hc Hsn Herr.
  assert (w_entries w2 !! e = Some en) as He2 by by rewrite (sc_entries _ _ Hc).
  assert (tracked w2 s e) as Ht2 by by apply (tracked_stable w).
  assert (owns w e f) as Ho by by exists en.
  destruct from as [cur|].
  - eapply run_from_weaken.
    { apply (apply_refresh_result_from w w2 e f now cur r1); [done|done|apply Ht2|..].
      - apply (refresh_source_stable w); [by exists en|done|by apply Hfrom].
      - intros sn Hr1. by destruct (Hsn sn Hr1). }
    intros r' w3 _ _ [-> Href]. split_and!; [by intros err ->%Herr|done|].
    intros _ en0 He0. simplify_eq. destruct (Href en He2) as (en' & He' & Hp' & Hcur).
    exists en'. split_and!; try done. destruct Hcur as [?|(sn & -> & _ & ? & _)]; [by left|by right].
  - destruct r1 as [sn|err].
    + destruct (Hsn sn eq_refl) as [Hpub (d & -> & Hst)]. by apply (first_published_from w w2 s e en).
    + apply first_failed_from; try done. intros err' Hr. specialize (Herr err' Hr). congruence.
Qed.

(** ** Polling *)

(** What the future of [f] still relies on when it resumes. *)
Definition resumable w f (pf : PendingFetch T P) : Prop :=
  is_Some (w_fetches w !! f) ∧ tracked w (pf_subject pf) (pf_entry pf) ∧
  ∀ cur, pf_refresh_from pf = Some cur → refresh_source w (pf_entry pf) cur.

Lemma resumable_now w f pf : wf w → w_fetches w !! f = Some pf → resumable w f pf.
Proof.
  intros Hwf Hf. destruct (wf_fetch _ Hwf _ _ Hf) as [_ Ht Hr]. split; [by exists pf|done].
Qed.

Lemma resumable_stable w w' f pf : evolves w w' → resumable w f pf → resumable w' f pf.
Proof.
  intros Ev ([pf0 Hf] & Ht & Hr). split; [|split].
  - destruct (ev_fetches _ _ Ev _ _ Hf) as (pf' & ? & _). by exists pf'.
  - by apply (tracked_stable w).
  - intros cur Hcur. apply (refresh_source_stable w); [apply Ht|done|by apply Hr].
Qed.

Definition phase_is w f (ph : FetchPhase.t) : Prop :=
  ∃ pf, w_fetches w !! f = Some pf ∧ pf_phase pf = ph.

Lemma fetch_set_phase_from w0 w f ph :
  wf w → evolves w0 w → is_Some (w_fetches w !! f) →
  run_from w0 w (fetch_set_phase f ph) (λ _ w', evolves w w' ∧ phase_is w' f ph).
Proof.
  intros Hwf Ev [pf Hf]. destruct (wf_fetch _ Hwf _ _ Hf) as [Ha Ht Hr].
  destruct (wf_insert_fetch w w f (pf_set_phase ph pf) Hwf) as [Hwf' Ev']; try done.
  { right. exists pf. by split. }
  eexists tt, _. split; [unfold fetch_set_phase, with_fetch; by rewrite Hf|].
  split; [exact Hwf'|]. split; [by transitivity w|]. split; [done|].
  exists (pf_set_phase ph pf). simpl. by rewrite lookup_insert_eq.
Qed.

Lemma lookup_result_from w0 w r :
  wf w → evolves w0 w →
  run_from w0 w (lookup_result (P:=P) r) (λ r' w', same_core w w' ∧
    ∀ d, r' = Ok d → r = Ok (Some (Ok (Some d))) ∧
      match valid_until d with Some cap => w_clock w (w_reads w) < cap | None => True end).
Proof.
  intros Hwf Ev. unfold lookup_result.
  destruct r as [[[[d|]|err]|]|err]; try by apply run_from_ret.
  destruct (valid_until d) as [cap|] eqn:Hcap.
  - apply now_then; [done|done|]. intros w1 Hwf1 Ev1 Hc. apply run_from_ret; [done|done|].
    split; [done|]. intros d' Hd'. destruct (Z.leb_spec cap (w_clock w (w_reads w))); simplify_eq.
    by rewrite Hcap.
  - apply run_from_ret; [done|done|]. split; [done|]. intros d' [= <-]. by rewrite Hcap.
Qed.

(** The answer is kept: it is what every later poll returns. *)
Definition poll_kept f (r : Poll.t (result FetchResult unit)) w' : Prop :=
  match r with Poll.Ready x => phase_is w' f (FetchPhase.Done x) | Poll.Pending => True end.

Lemma maybe_emit w0 w (b : bool) m :
  wf w → evolves w0 w →
  run_from w0 w (if b then mret tt else emit m) (λ _ w', same_core w w').
Proof. intros Hwf Ev. destruct b; [apply run_from_ret|apply core_last]; first [done|by split]. Qed.

Lemma fetch_finish_from w0 w f pf alive r :
  wf w → evolves w0 w → resumable w f pf →
  run_from w0 w (fetch_finish f pf alive r) (λ r' w', evolves w w' ∧ poll_kept f r' w').
Proof.
  intros Hwf Ev Hres. eapply run_ok_from; [|exact Ev|by intros a w' _ _ HQ; exact HQ].
  unfold fetch_finish. destruct Hres as (Hex & Ht & Hr).
  apply (run_from_bind _ _ _ _ (λ _ _, True)).
  { destruct alive; [|by apply run_from_ret]. eapply run_from_weaken; [by apply apply_fetch_result_from|done]. }
  intros final w1 Hwf1 Ev1 _.
  eapply (then_from _ _ _ _ (λ _ w', same_core w1 w')).
  { destruct final as [|err]; [by apply run_from_ret|].
    destruct (is_wire err); [apply core_last|apply run_from_ret]; first [done|by split]. }
  intros u w2 Hwf2 Ev2 Hc2. eapply then_from; [by apply maybe_emit|].
  intros u' w3 Hwf3 Ev3 Hc3. eapply then_from.
  { apply fetch_set_phase_from; [done|done|]. destruct Hex as [pf0 Hf0].
    destruct (ev_fetches _ _ Ev3 _ _ Hf0) as (pf' & ? & _). by exists pf'. }
  intros u'' w4 Hwf4 Ev4 [_ Hph]. by apply run_from_ret.
Qed.

Lemma fetch_poll_lookup_from w0 w f pf first deadline answer alive :
  wf w → evolves w0 w → resumable w f pf →
  run_from w0 w (fetch_poll_lookup f pf first deadline answer alive)
    (λ r' w', evolves w w' ∧ poll_kept f r' w').
Proof.
  intros Hwf Ev Hres. eapply run_ok_from; [|exact Ev|by intros a w' _ _ HQ; exact HQ].
  apply now_then; [done|done|]. intros w1 Hwf1 Ev1 Hc.
  destruct (timeout_poll _ _ _ _) as [r|].
  - eapply run_from_bind; [by apply lookup_result_from|]. intros r' w2 Hwf2 Ev2 [_ _].
    eapply run_from_weaken.
    { apply (fetch_finish_from w w2); [done|done|]. by apply (resumable_stable w). }
    by intros r'' w3 _ ? [_ ?].
  - eapply then_from.
    { apply (fetch_set_phase_from w w1); [done|done|]. by apply (resumable_stable w w1 f pf). }
    intros u w2 Hwf2 Ev2 _. by apply run_from_ret.
Qed.

Lemma fetch_begin_lookup_from w0 w f pf answer alive :
  wf w → evolves w0 w → resumable w f pf →
  run_from w0 w (fetch_begin_lookup f pf answer alive)
    (λ r' w', evolves w w' ∧ poll_kept f r' w').
Proof.
  intros Hwf Ev Hres. eapply run_ok_from; [|exact Ev|by intros a w' _ _ HQ; exact HQ].
  apply core_then; [done|done|by split|]. intros Hwf1 Ev1.
  apply now_then; [done|done|]. intros w2 Hwf2 Ev2 Hc. apply run_gets.
  eapply run_from_weaken.
  { apply (fetch_poll_lookup_from w w2); [done|done|]. by apply (resumable_stable w). }
  by intros r w3 _ ? [_ ?].
Qed.

Lemma fetch_poll_delay_from w0 w f pf deadline answer alive :
  wf w → evolves w0 w → resumable w f pf →
  run_from w0 w (fetch_poll_delay f pf deadline answer alive)
    (λ r' w', evolves w w' ∧ poll_kept f r' w').
Proof.
  intros Hwf Ev Hres. eapply run_ok_from; [|exact Ev|by intros a w' _ _ HQ; exact HQ].
  apply now_then; [done|done|]. intros w1 Hwf1 Ev1 Hc.
  assert (resumable w1 f pf) as Hres1 by by apply (resumable_stable w).
  destruct (sleep_poll _ _).
  - eapply run_from_weaken; [by apply (fetch_begin_lookup_from w w1)|]. by intros r w3 _ ? [_ ?].
  - eapply then_from; [apply (fetch_set_phase_from w w1); [done|done|apply Hres1]|].
    intros u w2 Hwf2 Ev2 _. by apply run_from_ret.
Qed.

Lemma fetch_poll_from w0 w f answer alive :
  wf w → evolves w0 w → is_Some (w_fetches w !! f) →
  run_from w0 w (fetch_poll f answer alive) (λ r w', evolves w w' ∧ poll_kept f r w').
Proof.
  intros Hwf Ev [pf Hf]. eapply run_ok_from; [|exact Ev|by intros a w' _ _ HQ; exact HQ].
  pose proof (resumable_now _ _ _ Hwf Hf) as Hres.
  apply (run_step _ _ w _ pf); [unfold expect; by rewrite Hf|].
  assert (Hdone : ∀ x, pf_phase pf = FetchPhase.Done x →
    run_from w w (mret (Poll.Ready x)) (λ r w', evolves w w' ∧ poll_kept f r w')).
  { intros x Hx. apply run_from_ret; [done|done|]. split; [done|]. by exists pf. }
  assert (Habort : run_from w w (_ ← fetch_set_phase f (FetchPhase.Done (Err tt));
    mret (Poll.Ready (Err tt))) (λ r w', evolves w w' ∧ poll_kept f r w')).
  { eapply then_from; [by apply fetch_set_phase_from; [..|exists pf]|].
    intros u w1 Hwf1 Ev1 [_ Hph]. by apply run_from_ret. }
  destruct (pf_phase pf) as [|dl|first dl|x] eqn:Hph; [..|by apply Hdone].
  all: destruct (pf_aborted pf); [exact Habort|].
  - destruct (pf_delay pf) as [delay|]; [|by apply fetch_begin_lookup_from].
    apply now_then; [done|done|]. intros w1 Hwf1 Ev1 Hc.
    eapply run_from_weaken.
    { apply (fetch_poll_delay_from w w1); [done|done|]. by apply (resumable_stable w). }
    by intros r w3 _ ? [_ ?].
  - by apply fetch_poll_delay_from.
  - by apply fetch_poll_lookup_from.
Qed.
End fetch_methods.
