(* ===== verification/AdmitMethods.v ===== *)
(** * AdmitMethods: the admission loop is total, fails closed and ends

    Each step of [admit] runs without panicking from any well-formed world, keeps
    the control point's references valid, and returns a handle only for a
    verdict that was vouched for during the step.  From the deadline on every
    step brings the loop nearer to a result. *)

From S2P Require Export Admit FetchMethods.

Section admit_methods.
Context {T P C : Type} `{Countable T, !LruCache T SubjectSlot C, !LruCacheOk T SubjectSlot C, TimeDriver}.
Implicit Types (w : World T P C) (e f : positive) (s : T) (st : AdmitState) (env : AdmitEnv P).

(** ** What a control point refers to *)

Definition pc_ok w s st : Prop :=
  match ad_pc st with
  | AdmitPc.Access _ e f q _ =>
      tracked w s e ∧ q ≤ ad_deadline st ∧ is_Some (w_fetches w !! f)
  | AdmitPc.Wait _ e f => tracked w s e ∧ is_Some (w_fetches w !! f)
  | AdmitPc.Settle e _ => tracked w s e
  | AdmitPc.Connect _ | AdmitPc.Insert | AdmitPc.Backoff _ _ | AdmitPc.Return _ => True
  end.

Lemma pc_ok_stable w w' s st : evolves w w' → pc_ok w s st → pc_ok w' s st.
Proof.
  intros Ev. unfold pc_ok. destruct (ad_pc st) as [?| |? e f q ?|? e f|e ?|? ?|?]; try done.
  - intros (? & ? & [pf Hf]). split; [by apply (tracked_stable w)|]. split; [done|].
    destruct (ev_fetches _ _ Ev _ _ Hf) as (pf' & ? & _). by exists pf'.
  - intros [? [pf Hf]]. split; [by apply (tracked_stable w)|].
    destruct (ev_fetches _ _ Ev _ _ Hf) as (pf' & ? & _). by exists pf'.
  - by apply tracked_stable.
Qed.

(** How far the loop is from a result once the deadline has passed. *)
Definition rank (pc : AdmitPc.t) : nat :=
  match pc with
  | AdmitPc.Return _ => 0
  | AdmitPc.Connect _ | AdmitPc.Insert | AdmitPc.Backoff _ _ => 1
  | AdmitPc.Access _ _ _ _ _ => 2
  | AdmitPc.Wait _ _ _ | AdmitPc.Settle _ _ => 3
  end.

(** Every clock reading from [w] on is at or past [d]. *)
Definition past (d : Z) w : Prop := ∀ n, (w_reads w ≤ n)%nat → d ≤ w_clock w n.

Lemma past_stable d w w' : evolves w w' → past d w → past d w'.
Proof.
  intros Ev Hp n Hn. rewrite (ev_clock _ _ Ev). apply Hp. pose proof (ev_reads _ _ Ev). lia.
Qed.

Lemma past_now d w : past d w → d ≤ w_clock w (w_reads w).
Proof. intros Hp. by apply Hp. Qed.

(** ** The outcome of a step *)

Definition bounded_delay w st : Prop :=
  0 ≤ ad_retry_delay st ≤ max_admission_retry_delay (w_config w).

Record step_post w s st st' w' : Prop := {
  sp_evolves : evolves w w';
  sp_pc : pc_ok w' s st';
  sp_deadline : ad_deadline st' = ad_deadline st;
  sp_grant a : ad_pc st' = AdmitPc.Return (Some a) → granted w s a w';
  sp_delay : bounded_delay w st → bounded_delay w' st';
}.

Lemma delay_goto w w' st pc :
  evolves w w' → bounded_delay w st → bounded_delay w' (goto pc st).
Proof. intros Ev. unfold bounded_delay. by rewrite (ev_config _ _ Ev). Qed.

(** A step to a control point that holds no reference. *)
Definition plain (pc : AdmitPc.t) : Prop :=
  match pc with
  | AdmitPc.Connect _ | AdmitPc.Insert | AdmitPc.Backoff _ _ | AdmitPc.Return None => True
  | _ => False
  end.

Lemma step_plain w w' s st pc : evolves w w' → plain pc → step_post w s st (goto pc st) w'.
Proof.
  intros Ev Hpl. split; try done.
  - unfold pc_ok. simpl. by destruct pc as [| | | | | |[]].
  - intros a. simpl. intros ->. done.
  - by apply delay_goto.
Qed.

Lemma timed_out_from w0 w s st :
  wf w → evolves w0 w →
  run_from w0 w (admission_timed_out st)
    (λ st' w', step_post w0 s st st' w' ∧ ad_pc st' = AdmitPc.Return None).
Proof.
  intros Hwf Ev. apply core_then; [done|done|by split|]. intros Hwf1 Ev1.
  apply run_from_ret; [done|done|]. split; [|done]. by apply step_plain.
Qed.

Lemma after_access_from w0 w s e limit st timed r :
  wf w → evolves w0 w → limit = Some (ad_deadline st) →
  (∃ w1, evolves w0 w1 ∧ access_post w1 s e limit r w) →
  run_from w0 w (after_access timed r st) (λ st' w',
    step_post w0 s st st' w' ∧
    (rank (ad_pc st') ≤ 2)%nat ∧
    (timed = true → r = Access.Done None → ad_pc st' = AdmitPc.Return None)).
Proof.
  intros Hwf Ev -> (w1 & Ev1 & _ & Hr). unfold after_access.
  destruct r as [[a|]|e' f q].
  - apply run_from_ret; [done|done|]. destruct Hr as [-> Hg].
    split; [|split; [simpl; lia|done]]. split; try done.
    + intros a [= <-]. by apply (granted_weaken w0 w1 w).
    + by apply delay_goto.
  - destruct timed.
    + eapply run_from_weaken; [by apply (timed_out_from w0 w s)|].
      intros st' w' _ _ [? Hpc]. rewrite Hpc. split; [done|]. split; [simpl; lia|done].
    + apply run_from_ret; [done|done|]. split; [by apply step_plain|]. split; [simpl; lia|done].
  - apply run_from_ret; [done|done|]. destruct Hr as (-> & Hh & _ & (en & _ & _ & Hf) & _ & Hq).
    split; [|split; [simpl; lia|done]]. split; try done.
    + unfold pc_ok. simpl. split; [apply Hh|]. split; [by apply Hq|by eexists].
    + by apply delay_goto.
Qed.

(** A reading of an entry's state in the middle of a step. *)
Lemma state_then {A} w0 w s e (k : EntryState.t → M (World T P C) A) Q :
  wf w → evolves w0 w → tracked w s e →
  (∀ x w1, wf w1 → evolves w0 w1 → evolves w w1 → tracked w1 s e → run_from w0 w1 (k x) Q) →
  run_from w0 w (now ← D_now; x ← entry_state_at e now; k x) Q.
Proof.
  intros Hwf Ev Ht Hk. apply now_then; [done|done|]. intros w1 Hwf1 Ev1 Hc.
  destruct (proj1 Ht) as [en He].
  assert (w_entries w1 !! e = Some en) as He1 by by rewrite (sc_entries _ _ Hc).
  destruct (entry_state_at_from w1 w1 e en (w_clock w (w_reads w)))
    as (v & w2 & Hrun & Hwf2 & Ev2 & _); [done|done|done|].
  assert (evolves w w2) as Evw by (transitivity w1; [by apply evolves_same_core|done]).
  apply (run_step _ _ w2 _ v); [done|]. apply Hk; [done|by transitivity w|done|].
  by apply (tracked_stable w).
Qed.

(** ** Waiting with a deadline *)

Lemma timeout_step_from {A} w0 w first d (m : M (World T P C) (Poll.t A))
    (Q : Poll.t A → World T P C → Prop) :
  wf w → evolves w0 w →
  (∀ w1, wf w1 → evolves w0 w1 → same_core w w1 → run_from w0 w1 m Q) →
  run_from w0 w (timeout_at_step first d m) (λ r w',
    match r with
    | Poll.Ready (Err _) => same_core w w'
    | Poll.Ready (Ok a) => Q (Poll.Ready a) w'
    | Poll.Pending => same_core w w' ∨ Q Poll.Pending w'
    end).
Proof.
  intros Hwf Ev Hm. apply now_then; [done|done|]. intros w1 Hwf1 Ev1 Hc.
  destruct (timeout_at_poll _ _ _ _) as [[[]|err]|].
  - eapply run_from_bind; [by apply Hm|]. intros r w2 Hwf2 Ev2 HQ.
    apply run_from_ret; [done|done|]. destruct r; simpl; [done|by right].
  - by apply run_from_ret.
  - apply run_from_ret; [done|done|]. by left.
Qed.

(** From the deadline on the inner future is not even polled. *)
Lemma timeout_step_past `{!TimeDriverOk} {A} w first d (m : M (World T P C) (Poll.t A)) :
  d ≤ w_clock w (w_reads w) →
  timeout_at_step first d m w =
    Some (Poll.Ready (Err TimeoutElapsed.TimeoutElapsed), set_reads (S (w_reads w)) w).
Proof.
  intros Hd. unfold timeout_at_step, D_now, mbind, M_bind.
  rewrite timeout_at_poll_eq, (proj2 (Z.leb_le _ _) Hd). done.
Qed.

(** ** The parts of a step *)

Lemma mark_dirty_from w0 w (b : bool) :
  wf w → evolves w0 w → run_from w0 w (mark_dirty_if b) (λ _ w', same_core w w').
Proof. intros Hwf Ev. destruct b; [apply core_last|apply run_from_ret]; first [done|by split]. Qed.

Lemma admit_entry_from w0 w s :
  wf w → evolves w0 w →
  run_from w0 w (admit_entry s) (λ e w', evolves w w' ∧ tracked w' s e).
Proof.
  intros Hwf Ev. apply run_from_evolves; [done|].
  apply now_then; [done|done|]. intros w1 Hwf1 Ev1 Hc.
  eapply run_from_bind; [by apply get_or_insert_with_from|].
  intros [e ins] w2 Hwf2 Ev2 (_ & Hl & _). simpl in Hl.
  pose proof (listed_tracked _ _ _ Hwf2 Hl) as Ht. apply run_gets.
  eapply then_from; [by apply mark_dirty_from|]. intros u w3 Hwf3 Ev3 Hc3.
  eapply then_from; [by apply republish_if_due_from|]. intros u' w4 Hwf4 Ev4 [Ev34 _].
  apply run_from_ret; [done|done|]. apply (tracked_stable w3); [done|].
  by apply (tracked_stable w2); [apply evolves_same_core|].
Qed.

Lemma admit_forget_from w0 w s e now :
  wf w → evolves w0 w → run_from w0 w (admit_forget s e now) (λ _ w', evolves w w').
Proof.
  intros Hwf Ev. eapply run_ok_from; [|exact Ev|by intros a w' _ E _; exact E].
  eapply run_from_bind.
  { apply (map_remove_if_from w w s now _ (λ _, True) (λ _ _, True)); [done|done|].
    intros w1 e' Hwf1 _ _ _ _. apply run_from_ret; [done|done|]. by case_bool_decide. }
  intros removed w1 Hwf1 Ev1 _. eapply run_from_weaken; [by apply mark_dirty_from|].
  intros u w2 _ Ev2 _. exact I.
Qed.

Lemma admit_forget_stale_from w0 w s e :
  wf w → evolves w0 w → run_from w0 w (admit_forget_stale s e) (λ _ w', evolves w w').
Proof.
  intros Hwf Ev. eapply run_ok_from; [|exact Ev|by intros a w' _ E _; exact E].
  apply now_then; [done|done|]. intros w1 Hwf1 Ev1 Hc.
  eapply run_from_bind.
  { apply (map_remove_if_from w w1 s _ _ (λ _, True) (λ _ _, True)); [done|done|].
    intros w2 e' Hwf2 _ _ Hl Hsame. case_bool_decide; simpl; [|by apply run_from_ret].
    apply now_then; [done|done|]. intros w3 Hwf3 Ev3 Hc3.
    destruct (wf_listed _ Hwf2 e') as [en He]; [by apply listed_iff; exists s|].
    eapply run_from_bind; [apply (entry_state_at_from w2 w3 e' en); [done|done|]|].
    { by rewrite (sc_entries _ _ Hc3). }
    intros x w4 Hwf4 Ev4 (sx & (Hs4 & _) & _). apply run_from_ret; [done|done|].
    split; [|split; [|by case_bool_decide]].
    - transitivity w3; [by apply core_shared_same|by apply env_shared_same].
    - unfold slots. rewrite (es_subjects _ _ Hs4). exact (core_slots _ _ Hc3). }
  intros removed w2 Hwf2 Ev2 _. eapply then_from; [by apply mark_dirty_from|].
  intros u w3 Hwf3 Ev3 _. eapply run_from_weaken; [by apply republish_if_due_from|].
  intros u' w4 _ _ _. exact I.
Qed.

Lemma admit_join_from w0 w s e :
  wf w → evolves w0 w → tracked w s e →
  run_from w0 w (admit_join e) (λ r w', evolves w w' ∧
    ∀ f, r = Some f → is_Some (w_fetches w' !! f)).
Proof.
  intros Hwf Ev Ht. apply run_from_evolves; [done|]. unfold admit_join.
  destruct (proj1 Ht) as [en He].
  apply (run_step _ _ w _ (pending en)).
  { unfold entry_pending_operation, load_entry, expect, mbind, M_bind. by rewrite He. }
  destruct (pending en) as [f|] eqn:Hp; [|by apply run_from_ret].
  destruct (own_pending _ _ _ _ Hwf He Hp) as (pf & Hf & _).
  apply (state_then w w s e); [done|done|done|]. intros x w1 Hwf1 Ev1 _ Ht1.
  case_bool_decide; simpl; [|by apply run_from_ret].
  destruct (proj1 Ht1) as [en1 He1].
  apply (run_step _ _ w1 _ (bool_decide (pending en1 = Some f))).
  { unfold entry_pending_is, entry_pending_operation, load_entry, expect, mbind, M_bind.
    by rewrite He1. }
  apply run_from_ret; [done|done|]. case_bool_decide; [|done]. intros f' [= <-].
  destruct (ev_fetches _ _ Ev1 _ _ Hf) as (pf' & ? & _). by exists pf'.
Qed.

(** ** The steps *)

(** With [ends], the step also got below every point that has to be polled
    again before the loop can end. *)
Definition stepped w s st (ends : Prop) st' w' : Prop :=
  step_post w s st st' w' ∧ (ends → (rank (ad_pc st') < rank (ad_pc st))%nat).

Lemma stepped_weaken w s st (ends ends' : Prop) st' w' :
  (ends' → ends) → stepped w s st ends st' w' → stepped w s st ends' st' w'.
Proof. intros Hi [? Hr]. split; [done|]. auto. Qed.

Lemma stepped_plain w0 w s st pc (ends : Prop) :
  wf w → evolves w0 w → plain pc → (ends → (rank pc < rank (ad_pc st))%nat) →
  run_from w0 w (mret (goto pc st)) (stepped w0 s st ends).
Proof.
  intros Hwf Ev Hpl Hr. apply run_from_ret; [done|done|]. split; [by apply step_plain|done].
Qed.

Lemma stepped_timed_out w0 w s st (ends : Prop) :
  wf w → evolves w0 w → (0 < rank (ad_pc st))%nat →
  run_from w0 w (admission_timed_out st) (stepped w0 s st ends).
Proof.
  intros Hwf Ev Hr. eapply run_from_weaken; [by apply (timed_out_from w0 w s)|].
  intros st' w' _ _ [? Hpc]. split; [done|]. rewrite Hpc. simpl. lia.
Qed.

Lemma access_then w0 w s e st timed (ends : Prop) :
  wf w → evolves w0 w → tracked w s e → (ends → rank (ad_pc st) = 3%nat) →
  run_from w0 w (r ← access_begin s e (Some (ad_deadline st)); after_access timed r st)
    (stepped w0 s st ends).
Proof.
  intros Hwf Ev Ht Hr. eapply run_from_bind.
  { eapply run_ok_from; [by apply (access_begin_from w w s e (Some (ad_deadline st)))|done|].
    intros r w1 _ _ Hp. exact Hp. }
  intros r w1 Hwf1 Ev1 Hp. eapply run_from_weaken.
  { eapply (after_access_from w0 w1 s e); [done|done|done|]. by exists w. }
  intros st' w' _ _ (? & Hle & _). split; [done|]. intros ?%Hr. lia.
Qed.

Lemma admit_connect_step w s first st :
  wf w → ad_pc st = AdmitPc.Connect first →
  run_ok w (admit_connect first st) (stepped w s st False).
Proof.
  intros Hwf Hpc. eapply run_from_bind.
  { apply (timeout_step_from w w first _ _ (λ _ w', True)); [done|done|].
    intros w1 Hwf1 Ev1 Hc. unfold connected_or_closed. apply run_gets, run_gets.
    by apply run_from_ret. }
  intros r w1 Hwf1 Ev1 _. destruct r as [[[]|[]]|].
  - by apply stepped_plain.
  - by apply stepped_plain.
  - apply stepped_timed_out; [done|done|]. rewrite Hpc. simpl. lia.
  - by apply stepped_plain.
Qed.

Lemma admit_insert_step w s st :
  wf w → ad_pc st = AdmitPc.Insert → run_ok w (admit_insert s st) (stepped w s st False).
Proof.
  intros Hwf Hpc. eapply run_from_bind; [by apply admit_entry_from|].
  intros e w1 Hwf1 Ev1 [_ Ht1]. apply now_then; [done|done|]. intros w2 Hwf2 Ev2 Hc2.
  assert (tracked w2 s e) as Ht2 by by apply (same_core_tracked w1).
  destruct (_ <=? _).
  { apply stepped_timed_out; [done|done|]. rewrite Hpc. simpl. lia. }
  apply run_gets. destruct (w_connected w2); simpl.
  2:{ eapply then_from; [by apply admit_forget_from|]. intros u w3 Hwf3 Ev3 _.
      by apply stepped_plain. }
  apply (state_then w w2 s e); [done|done|done|]. intros x w3 Hwf3 Ev3 _ Ht3. destruct x.
  - eapply run_from_bind; [by apply (admit_join_from w w3 s e)|].
    intros j w4 Hwf4 Ev4 [Ev34 Hj]. destruct j as [f|]; [|by apply stepped_plain].
    apply run_from_ret; [done|done|]. split; [|done]. split; try done.
    + split; [by apply (tracked_stable w3)|by apply Hj].
    + by apply delay_goto.
  - apply core_then; [done|done|by split|]. intros Hwf4 Ev4. by apply access_then.
  - apply core_then; [done|done|by split|]. intros Hwf4 Ev4. by apply access_then.
  - eapply then_from; [by apply admit_forget_stale_from|]. intros u w4 Hwf4 Ev4 _.
    by apply stepped_plain.
Qed.

Lemma select_fetch_from w0 w f env :
  wf w → evolves w0 w → is_Some (w_fetches w !! f) →
  run_from w0 w (select_fetch f env) (λ _ w', evolves w w').
Proof.
  intros Hwf Ev Hf. unfold select_fetch. destruct (_ && _); [by apply run_from_ret|].
  eapply run_from_bind; [by apply fetch_poll_from|].
  intros r w1 Hwf1 Ev1 [Ev01 _]. by apply run_from_ret.
Qed.

Lemma admit_wait_step w s first e f env st :
  wf w → ad_pc st = AdmitPc.Wait first e f → pc_ok w s st →
  run_ok w (admit_wait first s e f env st) (stepped w s st False).
Proof.
  intros Hwf Hpc Hok. unfold pc_ok in Hok. rewrite Hpc in Hok. destruct Hok as [Ht Hf].
  eapply run_from_bind.
  { apply (timeout_step_from w w first _ _ (λ _ w', True)); [done|done|].
    intros w1 Hwf1 Ev1 Hc. eapply run_from_weaken; [apply (select_fetch_from w w1 f env)|done];
      [done|done|]. by rewrite (sc_fetches _ _ Hc). }
  intros r w1 Hwf1 Ev1 _. assert (tracked w1 s e) as Ht1 by by apply (tracked_stable w).
  destruct r as [[[[r|]|]|[]]|].
  - apply run_from_ret; [done|done|]. split; [|done]. split; try done. by apply delay_goto.
  - by apply stepped_plain.
  - by apply stepped_plain.
  - by apply access_then.
  - apply run_from_ret; [done|done|]. split; [|done]. split; try done.
    + split; [done|]. destruct Hf as [pf Hf].
      destruct (ev_fetches _ _ Ev1 _ _ Hf) as (pf' & ? & _). by exists pf'.
    + by apply delay_goto.
Qed.

Lemma admit_settle_step w s e r st :
  wf w → ad_pc st = AdmitPc.Settle e r → pc_ok w s st →
  run_ok w (admit_settle s e r st) (stepped w s st True).
Proof.
  intros Hwf Hpc Hok. unfold pc_ok in Hok. rewrite Hpc in Hok.
  assert (Hrk : rank (ad_pc st) = 3%nat) by by rewrite Hpc.
  apply run_gets. destruct (w_connected w); simpl.
  2:{ apply stepped_plain; [done|done|done|]. rewrite Hrk. simpl. lia. }
  assert (Hagain : ∀ w1, wf w1 → evolves w w1 → run_from w w1
    (if is_ok r then mret (goto (AdmitPc.Connect true) st) else admit_failed r st)
    (stepped w s st True)).
  { intros w1 Hwf1 Ev1. destruct r as [u|err]; simpl.
    - apply stepped_plain; [done|done|done|]. rewrite Hrk. simpl. lia.
    - unfold admit_failed. destruct (is_permanent_status err).
      + apply stepped_plain; [done|done|done|]. rewrite Hrk. simpl. lia.
      + apply core_then; [done|done|by split|]. intros Hwf2 Ev2.
        apply now_then; [done|done|]. intros w3 Hwf3 Ev3 Hc3.
        apply stepped_plain; [done|done|done|]. rewrite Hrk. simpl. lia. }
  apply (state_then w w s e); [done|done|done|]. intros x w1 Hwf1 Ev1 _ Ht1.
  destruct x; [by apply Hagain|by apply access_then..|by apply Hagain].
Qed.

Lemma admit_backoff_step w s first wake st :
  wf w → ad_pc st = AdmitPc.Backoff first wake →
  run_ok w (admit_backoff first wake st) (stepped w s st False).
Proof.
  intros Hwf Hpc. eapply run_from_bind.
  { apply (timeout_step_from w w first _ _ (λ _ w', True)); [done|done|].
    intros w1 Hwf1 Ev1 Hc. apply now_then; [done|done|]. intros w2 Hwf2 Ev2 Hc2.
    by apply run_from_ret. }
  intros r w1 Hwf1 Ev1 _. destruct r as [[u|[]]|].
  - apply run_gets. apply run_from_ret; [done|done|]. split; [|done]. split; try done.
    unfold bounded_delay. simpl. rewrite (ev_config _ _ Ev1).
    unfold Duration.saturating_mul. intros [? ?].
    assert (0 ≤ Duration.MAX) by (vm_compute; discriminate). lia.
  - apply stepped_timed_out; [done|done|]. rewrite Hpc. simpl. lia.
  - by apply stepped_plain.
Qed.

Lemma admit_access_step w s first e f q timed env st :
  wf w → ad_pc st = AdmitPc.Access first e f q timed → pc_ok w s st →
  run_ok w (admit_access first e f q timed env st) (stepped w s st False).
Proof.
  intros Hwf Hpc Hok. unfold pc_ok in Hok. rewrite Hpc in Hok. destruct Hok as (Ht & Hq & Hf).
  eapply run_from_bind; [by apply (access_poll_from w w s e f)|].
  intros r w1 Hwf1 Ev1 [_ Hr]. destruct r as [a|].
  - eapply run_from_weaken.
    { apply (after_access_from w w1 s e (Some (ad_deadline st))); [done|done|done|].
      exists w. split; [done|]. split; [done|]. destruct a as [a|]; [|done].
      by apply (proj1 Hr). }
    intros st' w' _ _ [? _]. by split.
  - apply run_from_ret; [done|done|]. split; [|done]. split; try done.
    + apply (pc_ok_stable w w1 s (goto (AdmitPc.Access first e f q timed) st) Ev1). by split_and!.
    + by apply delay_goto.
Qed.

Lemma admit_step_ok w s env st :
  wf w → pc_ok w s st →
  run_ok w (admit_step s env st) (λ st' w', wf w' ∧ step_post w s st st' w' ∨
    ∃ a, ad_pc st = AdmitPc.Return a ∧ st' = st ∧ w' = w).
Proof.
  intros Hwf Hok. unfold admit_step.
  assert (Hst : ∀ m (ends : Prop), run_ok w m (stepped w s st ends) →
    run_ok w m (λ st' w', wf w' ∧ step_post w s st st' w' ∨
      ∃ a, ad_pc st = AdmitPc.Return a ∧ st' = st ∧ w' = w)).
  { intros m ends Hm. eapply run_from_weaken; [exact Hm|]. intros st' w' Hwf' _ [? _]. by left. }
  destruct (ad_pc st) as [first| |first e f q timed|first e f|e r|first wake|a] eqn:Hpc.
  - eapply Hst, (admit_connect_step w s); done.
  - eapply Hst, (admit_insert_step w s); done.
  - by eapply Hst, (admit_access_step w s).
  - by eapply Hst, (admit_wait_step w s).
  - by eapply Hst, (admit_settle_step w s).
  - eapply Hst, (admit_backoff_step w s); done.
  - apply run_from_ret; [done|done|]. right. by exists a.
Qed.

Lemma admit_begin_from w0 w :
  wf w → evolves w0 w →
  run_from w0 w admit_begin (λ st w', same_core w w' ∧ (∀ s, pc_ok w' s st) ∧
    (ad_pc st = AdmitPc.Connect true ∨ ad_pc st = AdmitPc.Return None)).
Proof.
  intros Hwf Ev. apply now_then; [done|done|]. intros w1 Hwf1 Ev1 Hc. apply run_gets.
  destruct (Instant.checked_add _ _).
  - apply run_from_ret; [done|done|]. split_and!; [done|done|by left].
  - apply core_then; [done|done|by split|]. intros Hwf2 Ev2. apply run_from_ret; [done|done|].
    split_and!; [|done|by right]. destruct Hc. by split.
Qed.

(** ** The deadline ends the loop *)

Definition closer st st' : Prop := (rank (ad_pc st') < rank (ad_pc st))%nat.

Lemma admission_timed_out_run st w :
  admission_timed_out st w = Some (goto (AdmitPc.Return None) st,
    set_metrics (w_metrics w ++ [Metric.admission_timeout]) w).
Proof. reflexivity. Qed.

Lemma admit_insert_past w s st st' w' :
  wf w → past (ad_deadline st) w → ad_pc st = AdmitPc.Insert →
  admit_insert s st w = Some (st', w') → closer st st'.
Proof.
  intros Hwf Hp Hpc Hrun. apply run_bind in Hrun as (e & w1 & He & Hrun).
  destruct (admit_entry_from w w s Hwf (reflexivity w)) as (e' & w1' & He' & Hwf1 & Ev1 & _).
  rewrite He in He'. simplify_eq. apply run_bind in Hrun as (now & w2 & Hnow & Hrun).
  injection Hnow as <- <-. pose proof (past_now _ _ (past_stable _ _ _ Ev1 Hp)) as Hd.
  rewrite (proj2 (Z.leb_le _ _) Hd) in Hrun. rewrite admission_timed_out_run in Hrun.
  simplify_eq. unfold closer. rewrite Hpc. simpl. lia.
Qed.

Lemma admit_step_past `{!TimeDriverOk} w s env st st' w' :
  wf w → pc_ok w s st → past (ad_deadline st) w → (0 < rank (ad_pc st))%nat →
  admit_step s env st w = Some (st', w') → closer st st'.
Proof.
  intros Hwf Hok Hp Hrk Hrun. pose proof (past_now _ _ Hp) as Hd.
  unfold admit_step in Hrun.
  destruct (ad_pc st) as [first| |first e f q timed|first e f|e r|first wake|a] eqn:Hpc.
  - unfold admit_connect, mbind, M_bind in Hrun.
    rewrite timeout_step_past in Hrun by done. rewrite admission_timed_out_run in Hrun.
    simplify_eq. unfold closer. rewrite Hpc. simpl. lia.
  - by eapply admit_insert_past.
  - unfold pc_ok in Hok. rewrite Hpc in Hok. destruct Hok as (Ht & Hq & Hf).
    unfold admit_access in Hrun. apply run_bind in Hrun as (r & w1 & Hpoll & Hrun).
    assert (∃ a, r = Poll.Ready a) as [a ->].
    { unfold access_poll in Hpoll. apply run_bind in Hpoll as (now & w2 & Hnow & Hpoll).
      injection Hnow as <- <-. rewrite timeout_at_poll_eq in Hpoll.
      rewrite (proj2 (Z.leb_le _ _)) in Hpoll by lia.
      apply run_bind in Hpoll as (a & w3 & _ & Hpoll).
      apply run_bind in Hpoll as (u & w4 & _ & Hpoll). injection Hpoll as <- <-. by exists a. }
    unfold closer. rewrite Hpc. destruct a as [a|], timed; simpl in Hrun;
      rewrite ?admission_timed_out_run in Hrun; injection Hrun as <- <-; simpl; lia.
  - unfold pc_ok in Hok. rewrite Hpc in Hok. destruct Hok as [Ht Hf].
    unfold admit_wait, mbind, M_bind in Hrun. rewrite timeout_step_past in Hrun by done.
    assert (same_core w (set_reads (S (w_reads w)) w)) as Hc by (split; simpl; try done; lia).
    destruct (access_then w (set_reads (S (w_reads w)) w) s e st true True)
      as (st2 & w2 & Hrun2 & _ & _ & _ & Hcl); [by eapply wf_same_core|by apply evolves_same_core|
      by apply (same_core_tracked w)|by rewrite Hpc|].
    unfold mbind, M_bind in Hrun2. rewrite Hrun2 in Hrun. simplify_eq. by apply Hcl.
  - destruct (admit_settle_step w s e r st Hwf Hpc Hok) as (st2 & w2 & Hrun2 & _ & _ & _ & Hcl).
    rewrite Hrun2 in Hrun. simplify_eq. by apply Hcl.
  - unfold admit_backoff, mbind, M_bind in Hrun.
    rewrite timeout_step_past in Hrun by done. rewrite admission_timed_out_run in Hrun.
    simplify_eq. unfold closer. rewrite Hpc. simpl. lia.
  - simpl in Hrk. lia.
Qed.
End admit_methods.
