(* ===== verification/Frame.v ===== *)
(** * Frame: what the gate's clients leave alone

    The connection flag, its sender, the outage clock, the generation of the published
    snapshot and the refresh channel's receiver belong to the watcher: no cached read, admission, lookup or handle
    changes them, and the only thing these add to the refresh queue is a refresh
    that was just claimed.  [frame F] states this, with [F] the fetches that may
    have been queued; the proofs are syntactic. *)

From S2P Require Export AdmitMethods Closure.

Section frame.
Context {T P C : Type} `{Countable T, !LruCache T SubjectSlot C, TimeDriver}.
Implicit Types (w : World T P C) (e f : positive) (s : T) (F : positive → Prop).

Record frame F w w' : Prop := {
  fr_connected : w_connected w' = w_connected w;
  fr_sender : w_sender_alive w' = w_sender_alive w;
  fr_since : w_disconnected_since w' = w_disconnected_since w;
  fr_generation : generation (w_publish w') = generation (w_publish w);
  fr_open : w_refresh_open w' = w_refresh_open w;
  fr_queue f : f ∈ w_refresh_queue w' → f ∈ w_refresh_queue w ∨ F f;
}.

#[export] Instance frame_preorder F : PreOrder (frame F).
Proof.
  split; [by intros w; split; auto|].
  intros w1 w2 w3 [A1 B1 C1 D1 E1 Q1] [A2 B2 C2 D2 E2 Q2]. split; try congruence.
  intros f [?|?]%Q2; auto.
Qed.

Lemma frame_modify F (g : World T P C → World T P C) :
  (∀ w, frame F w (g w)) → always (frame F) (modify g).
Proof. intros Hg w u w' [= <- <-]. apply Hg. Qed.

Lemma frame_with_entry {A} F e (op : Entry P → A * Entry P) :
  always (frame F) (with_entry (T:=T) (C:=C) e op).
Proof.
  intros w a w'. unfold with_entry. destruct (w_entries w !! e) as [en|]; [|done].
  destruct (op en) as [b en']. intros [= <- <-]. split; auto.
Qed.

Lemma frame_with_fetch {A} F f (op : PendingFetch T P → A * PendingFetch T P) :
  always (frame F) (with_fetch (C:=C) f op).
Proof.
  intros w a w'. unfold with_fetch. destruct (w_fetches w !! f) as [pf|]; [|done].
  destruct (op pf) as [b pf']. intros [= <- <-]. split; auto.
Qed.

#[export] Instance frame_routine F : Routine (frame F).
Proof.
  split; [apply _|..].
  - intros w w' []. split; try done. intros f Hf. left. congruence.
  - intros e now. unfold entry_current_at. apply always_bind; [apply _| |].
    + intros w a w' [= _ <-]. split; auto.
    + intros fresh. apply frame_with_entry.
  - intros e. unfold entry_invalidate. apply always_bind; [apply _| |].
    + intros w a w' [= _ <-]. split; auto.
    + intros fresh. apply always_bind; [apply _|apply frame_with_entry|]. intros _.
      unfold entry_abort_pending, pending_fetch_abort.
      apply always_bind; [apply _|apply frame_with_entry|]. intros [f|].
      * apply frame_with_fetch.
      * apply always_ret, _.
Qed.
End frame.

Create HintDb frame discriminated.
#[export] Hint Resolve frame_with_entry frame_with_fetch : frame.
#[export] Hint Extern 2 (always (frame _) (modify _)) =>
  (apply frame_modify; intros ?; split; by auto) : frame.

(** Follow the structure of the method. *)
Ltac frame :=
  intros; cbv zeta;
  repeat first
    [ progress intros
    | solve [eauto with frame closed nocore]
    | apply always_bind; [apply _|..]
    | progress cbn iota beta zeta
    | case_match ].

(** ** Gate, lookups and admission *)

Section gate.
Context {T P C : Type} `{Countable T, !LruCache T SubjectSlot C, TimeDriver}.
Abbreviation G := (M (World T P C)).
Implicit Types (e f : positive) (s : T) (F : positive → Prop).
Abbreviation framed F m := (always (frame F) (m : G _)).

Lemma frame_replace_pending F e f r : framed F (entry_replace_pending e f r).
Proof. unfold entry_replace_pending. frame. Qed.
Lemma frame_claim_pending F e f : framed F (entry_claim_pending e f).
Proof. apply frame_with_entry. Qed.
Lemma frame_abort_pending F e : framed F (entry_abort_pending e).
Proof. unfold entry_abort_pending, pending_fetch_abort. frame. Qed.
Lemma frame_compare_exchange F e st sn : framed F (entry_compare_exchange e st sn).
Proof. apply frame_with_entry. Qed.
Lemma frame_swap_current F e old next : framed F (entry_swap_current e old next).
Proof. apply frame_with_entry. Qed.
Hint Resolve frame_replace_pending frame_claim_pending frame_abort_pending
  frame_compare_exchange frame_swap_current : frame.
Lemma frame_change_loop F fuel e d : framed F (apply_change_loop fuel e d).
Proof. induction fuel as [|fuel IH]; simpl; frame. Qed.
Hint Resolve frame_change_loop : frame.
Lemma frame_apply_change F c : framed F (apply_change c).
Proof. unfold apply_change. frame. Qed.
Lemma frame_new_fetch F e s d r : framed F (new_fetch_after e s d r).
Proof. unfold new_fetch_after. frame. Qed.
Hint Resolve frame_new_fetch : frame.
Lemma frame_create F s now : framed F (create_pending_entry s now).
Proof. unfold create_pending_entry. frame. Qed.
Lemma frame_release F e f : framed F (release_claim e f).
Proof. unfold release_claim. frame. Qed.
Hint Resolve frame_create frame_release : frame.
Lemma frame_access_begin F s e d : framed F (access_begin s e d).
Proof. unfold access_begin. frame. Qed.
Hint Resolve frame_access_begin : frame.

(** The only method that queues anything. *)
Lemma frame_access_poll F first e f q send : F f → framed F (access_poll first e f q send).
Proof.
  intros Hf. unfold access_poll. frame. apply frame_modify. intros w. split; try done.
  simpl. intros f' [?|Hs]%elem_of_app; [by left|].
  apply list_elem_of_singleton in Hs as ->. by right.
Qed.

Lemma frame_check_begin F s : framed F (check_begin s).
Proof. unfold check_begin. frame. Qed.
Lemma frame_refresh_entry F s e : framed F (refresh_entry_begin s e).
Proof. unfold refresh_entry_begin. frame. Qed.

Lemma frame_take_stale F e f c : framed F (take_stale e f c).
Proof. unfold take_stale. frame. Qed.
Hint Resolve frame_take_stale : frame.
Lemma frame_apply_refresh F e f now cur r : framed F (apply_refresh_result e f now cur r).
Proof. unfold apply_refresh_result. frame. Qed.
Lemma frame_permanent F s e f : framed F (apply_permanent_failure s e f).
Proof. unfold apply_permanent_failure. frame. Qed.
Lemma frame_transient F s e f : framed F (apply_transient_failure s e f).
Proof. unfold apply_transient_failure. frame. Qed.
Hint Resolve frame_apply_refresh frame_permanent frame_transient : frame.
Lemma frame_apply_fetch F s e f from r : framed F (apply_fetch_result s e f from r).
Proof. unfold apply_fetch_result. frame. Qed.
Hint Resolve frame_apply_fetch : frame.
Lemma frame_set_phase F f ph : framed F (fetch_set_phase f ph).
Proof. apply frame_with_fetch. Qed.
Hint Resolve frame_set_phase : frame.
Lemma frame_fetch_finish F f pf alive r : framed F (fetch_finish f pf alive r).
Proof. unfold fetch_finish. frame. Qed.
Hint Resolve frame_fetch_finish : frame.
Lemma frame_poll_lookup F f pf first d a alive : framed F (fetch_poll_lookup f pf first d a alive).
Proof. unfold fetch_poll_lookup. frame. Qed.
Hint Resolve frame_poll_lookup : frame.
Lemma frame_begin_lookup F f pf a alive : framed F (fetch_begin_lookup f pf a alive).
Proof. unfold fetch_begin_lookup. frame. Qed.
Hint Resolve frame_begin_lookup : frame.
Lemma frame_poll_delay F f pf d a alive : framed F (fetch_poll_delay f pf d a alive).
Proof. unfold fetch_poll_delay. frame. Qed.
Hint Resolve frame_poll_delay : frame.
Lemma frame_fetch_poll F f a alive : framed F (fetch_poll f a alive).
Proof. unfold fetch_poll. frame. Qed.
End gate.

#[export] Hint Resolve frame_replace_pending frame_abort_pending frame_apply_change frame_create
  frame_release frame_access_begin frame_access_poll frame_check_begin frame_refresh_entry
  frame_fetch_poll : frame.

Section admission_frame.
Context {T P C : Type} `{Countable T, !LruCache T SubjectSlot C, TimeDriver}.
Abbreviation G := (M (World T P C)).
Implicit Types (e f : positive) (s : T) (st : AdmitState) (F : positive → Prop).
Abbreviation framed F m := (always (frame F) (m : G _)).

Lemma frame_admit_insert F s st : framed F (admit_insert s st).
Proof. unfold admit_insert. frame. Qed.
Lemma frame_admit_wait F b s e f env st : framed F (admit_wait b s e f env st).
Proof. unfold admit_wait, select_fetch. frame. Qed.
Lemma frame_admit_settle F s e r st : framed F (admit_settle s e r st).
Proof. unfold admit_settle. frame. Qed.
(** The fetch an admission is waiting to queue. *)
Definition queueing st (f : positive) : Prop :=
  match ad_pc st with AdmitPc.Access _ _ g _ _ => f = g | _ => False end.

Lemma frame_admit_step s env st : framed (queueing st) (admit_step s env st).
Proof.
  unfold admit_step, queueing. destruct (ad_pc st).
  - frame.
  - apply frame_admit_insert.
  - unfold admit_access. apply always_bind; [apply _|by apply frame_access_poll|frame].
  - apply frame_admit_wait.
  - apply frame_admit_settle.
  - frame.
  - frame.
Qed.
End admission_frame.

#[export] Hint Resolve frame_admit_step : frame.
