(* ===== verification/Authorship.v ===== *)
(** * Authorship: who may write a verdict

    [quiet n ok busy] is what a method does to the entries and lookups of the
    heap: a verdict appears in an entry only if [ok] allows it, a claim appears
    only for a lookup allocated since [n], a finished lookup outside [busy] keeps
    its result, the counters stay in the range of their machine type and a refresh
    has no cooldown.  As in [Frame], the proofs follow the structure of the methods. *)

From S2P Require Export Frame.

Section quiet.
Context {T P C : Type} `{Countable T, !LruCache T SubjectSlot C, TimeDriver}.
Implicit Types (w : World T P C) (e f : positive) (s : T) (n : positive).
Implicit Types (ok : positive → EntrySnapshot P → Prop) (busy : positive → Prop).

(** Identities below [w_next] are taken; [n] is an earlier value of it. *)
Record allocated n w : Prop := {
  al_next : (n ≤ w_next w)%positive;
  al_fetch f : is_Some (w_fetches w !! f) → (f < w_next w)%positive;
  al_config : config_typed (w_config w);
}.

(** A refresh calls the source at its first poll: it has no cooldown to sit out. *)
Definition undelayed (pf : PendingFetch T P) : Prop :=
  is_Some (pf_refresh_from pf) →
  pf_delay pf = None ∧ ∀ d, pf_phase pf ≠ FetchPhase.Delay d.

(** What [wf] does not speak of: the machine-width counters, and the refreshes. *)
Record stored_ok w : Prop := {
  st_generation : u64_range (generation (w_publish w));
  st_not_before e en : w_entries w !! e = Some en → u64_range (refresh_not_before en);
  st_undelayed f pf : w_fetches w !! f = Some pf → undelayed pf;
}.

Definition holds_verdict (sn : EntrySnapshot P) : bool :=
  is_verdict (decode_entry_state (sn_word sn)).

Record quiet_change n ok busy w w' : Prop := {
  qc_alloc : allocated n w';
  qc_current e en' : w_entries w' !! e = Some en' → holds_verdict (current en') = true →
    (∃ en, w_entries w !! e = Some en ∧ current en = current en') ∨ ok e (current en');
  qc_pending e en' f : w_entries w' !! e = Some en' → pending en' = Some f →
    (∃ en, w_entries w !! e = Some en ∧ pending en = Some f) ∨ (n ≤ f)%positive;
  qc_done f pf r : ¬ busy f → w_fetches w !! f = Some pf → pf_phase pf = FetchPhase.Done r →
    ∃ pf', w_fetches w' !! f = Some pf' ∧ pf_phase pf' = FetchPhase.Done r;
  qc_stored : stored_ok w → stored_ok w';
}.

Definition quiet n ok busy w w' : Prop := allocated n w → quiet_change n ok busy w w'.

#[export] Instance quiet_preorder n ok busy : PreOrder (quiet n ok busy).
Proof.
  split.
  - intros w Ha. split; [done|..].
    + intros e en He _. left. by exists en.
    + intros e en f He Hp. left. by exists en.
    + intros f pf r _ Hf Hr. by exists pf.
    + done.
  - intros w1 w2 w3 Q12 Q23 Ha. destruct (Q12 Ha) as [A2 C2 P2 D2 K2].
    destruct (Q23 A2) as [A3 C3 P3 D3 K3]. split; [done|..].
    + intros e en3 He Hv. destruct (C3 _ _ He Hv) as [(en2 & He2 & Heq)|?]; [|by right].
      rewrite <-Heq in Hv |- *. by apply C2.
    + intros e en3 f He Hp. destruct (P3 _ _ _ He Hp) as [(en2 & He2 & Hp2)|?]; [|by right].
      by apply (P2 e en2).
    + intros f pf r Hb Hf Hr. destruct (D2 _ _ _ Hb Hf Hr) as (pf2 & Hf2 & Hr2).
      by apply (D3 f pf2).
    + auto.
Qed.

Lemma quiet_weaken n ok ok' busy w w' :
  (∀ e sn, ok e sn → ok' e sn) → quiet n ok busy w w' → quiet n ok' busy w w'.
Proof.
  intros Hok Hq Ha. destruct (Hq Ha) as [A2 C2 P2 D2 K2]. split; try done.
  intros e en' He Hv. destruct (C2 _ _ He Hv); auto.
Qed.

Lemma always_weaken_ok {A} n ok ok' busy (m : M (World T P C) A) :
  (∀ e sn, ok e sn → ok' e sn) → always (quiet n ok busy) m → always (quiet n ok' busy) m.
Proof. intros Hok Hm w a w' Hr. by eapply quiet_weaken, Hm. Qed.

(** A bind whose first part guarantees a fact about its result. *)
Lemma quiet_bind_fact {A B} n ok busy (Q : A → Prop) (m : M (World T P C) A)
    (k : A → M (World T P C) B) :
  always (quiet n ok busy) m →
  (∀ w a w', allocated n w → m w = Some (a, w') → Q a) →
  (∀ a, Q a → always (quiet n ok busy) (k a)) →
  always (quiet n ok busy) (m ≫= k).
Proof.
  intros Hm HQ Hk w b w2 Hrun Ha. apply run_bind in Hrun as (a & w1 & Hr1 & Hr2).
  pose proof (Hm _ _ _ Hr1 Ha) as Hq. pose proof (HQ _ _ _ Ha Hr1) as Hqa.
  refine (transitivity (R:=quiet n ok busy) (Hm _ _ _ Hr1) (Hk a Hqa _ _ _ Hr2) Ha).
Qed.

(** ** Changes of the state *)

Lemma quiet_modify n ok busy (g : World T P C → World T P C) :
  (∀ w, allocated n w → quiet_change n ok busy w (g w)) → always (quiet n ok busy) (modify g).
Proof. intros Hg w u w' [= <- <-]. exact (Hg w). Qed.

(** Nothing but fields of no interest. *)
Lemma quiet_same n ok busy w w' :
  w_config w' = w_config w → w_entries w' = w_entries w → w_fetches w' = w_fetches w →
  (w_next w ≤ w_next w')%positive →
  (u64_range (generation (w_publish w)) → u64_range (generation (w_publish w'))) →
  quiet n ok busy w w'.
Proof.
  intros Hc He Hf Hn Hg [A1 A2 A3]. split; rewrite ?He, ?Hf.
  - split; [lia| |by rewrite Hc]. intros f Hx. rewrite Hf in Hx. specialize (A2 f Hx). lia.
  - intros e en' Hx _. left. by exists en'.
  - intros e en' f Hx Hp. left. by exists en'.
  - intros f pf r _ Hx Hr. by exists pf.
  - intros [Hgen Hr Hp]. split; [by apply Hg|rewrite He; apply Hr|rewrite Hf; apply Hp].
Qed.

(** An entry changes its snapshot as [ok] allows and its claim as [n] allows. *)
Record entry_quiet n ok e (en en' : Entry P) : Prop := {
  eq_current : holds_verdict (current en') = true → current en' = current en ∨ ok e (current en');
  eq_pending f : pending en' = Some f → pending en = Some f ∨ (n ≤ f)%positive;
  eq_not_before : u64_range (refresh_not_before en) → u64_range (refresh_not_before en');
}.

Lemma quiet_with_entry {A} n ok busy e (op : Entry P → A * Entry P) :
  (∀ en, entry_quiet n ok e en (op en).2) →
  always (quiet n ok busy) (with_entry (T:=T) (C:=C) e op).
Proof.
  intros Hop w a w'. unfold with_entry. destruct (w_entries w !! e) as [en|] eqn:He; [|done].
  pose proof (Hop en) as Hen. destruct (op en) as [b en']. simpl in Hen. intros [= <- <-] Ha.
  assert (Hlk : ∀ e0 en0, <[e:=en']> (w_entries w) !! e0 = Some en0 →
    (e0 = e ∧ en0 = en') ∨ w_entries w !! e0 = Some en0).
  { intros e0 en0 [[-> <-]|[_ ?]]%lookup_insert_Some; auto. }
  split; simpl.
  - by destruct Ha.
  - intros e0 en0 [[-> ->]|Hx]%Hlk Hv; [|left; by exists en0].
    destruct (eq_current _ _ _ _ _ Hen Hv) as [Heq|?]; [|by right]. left. by exists en.
  - intros e0 en0 f [[-> ->]|Hx]%Hlk Hp; [|left; by exists en0].
    destruct (eq_pending _ _ _ _ _ Hen _ Hp) as [?|?]; [|by right]. left. by exists en.
  - intros f pf r _ Hf Hr. by exists pf.
  - intros [Hg Hr Hp]. split; [done| |done]. simpl. intros e0 en0 [[-> ->]|Hx]%Hlk; [|by eapply Hr].
    by apply (eq_not_before _ _ _ _ _ Hen), (Hr e).
Qed.

Lemma quiet_with_fetch {A} n ok busy f (op : PendingFetch T P → A * PendingFetch T P) :
  busy f ∨ (∀ pf, pf_phase (op pf).2 = pf_phase pf) → (∀ pf, undelayed pf → undelayed (op pf).2) →
  always (quiet n ok busy) (with_fetch (C:=C) f op).
Proof.
  intros Hop Hpr w a w'. unfold with_fetch. destruct (w_fetches w !! f) as [pf|] eqn:Hf; [|done].
  destruct (op pf) as [b pf'] eqn:Ho. intros [= <- <-] [A1 A2 A3]. split; simpl; try done.
  - split; simpl; try done. intros f0. rewrite lookup_insert_is_Some.
    intros [<-|[_ ?]]; [apply A2; by exists pf|by apply A2].
  - intros e en' He _. left. by exists en'.
  - intros e en' f0 He Hp. left. by exists en'.
  - intros f0 pf0 r Hb Hf0 Hr. destruct (decide (f0 = f)) as [->|Hne].
    + rewrite lookup_insert_eq. exists pf'. split; [done|]. destruct Hop as [?|Hph]; [done|].
      specialize (Hph pf). rewrite Ho in Hph. simpl in Hph. simplify_eq. congruence.
    + rewrite lookup_insert_ne by done. by exists pf0.
  - intros [Hg Hr Hp]. split; [done|done|]. simpl. intros g pfg [[_ <-]|[_ Hx]]%lookup_insert_Some.
    + specialize (Hpr pf). rewrite Ho in Hpr. by eapply Hpr, Hp.
    + by apply (Hp g).
Qed.

Lemma entry_quiet_refl n ok e (en : Entry P) : entry_quiet n ok e en en.
Proof. split; auto. Qed.

(** The snapshot changes, and if to a verdict, to one [ok] allows. *)
Lemma entry_quiet_current n ok e (en : Entry P) sn :
  (holds_verdict sn = true → sn = current en ∨ ok e sn) → entry_quiet n ok e en (set_current sn en).
Proof. intros Hs. split; auto. Qed.

Lemma entry_quiet_pending n ok e (en : Entry P) p :
  (∀ f, p = Some f → pending en = Some f ∨ (n ≤ f)%positive) →
  entry_quiet n ok e en (set_pending p en).
Proof. intros Hp. split; auto. Qed.

Lemma stale_holds (sn : EntrySnapshot P) (x : Z) :
  sn_word sn = mark_stale x → holds_verdict sn = false.
Proof. intros Hw. unfold holds_verdict. by rewrite Hw, mark_stale_decode. Qed.

Lemma quiet_alloc n ok busy : always (quiet n ok busy) (alloc (T:=T) (P:=P) (C:=C)).
Proof. intros w a w' [= <- <-]. apply quiet_same; simpl; try done. lia. Qed.

Lemma quiet_abort_pending n ok busy e :
  always (quiet n ok busy) (entry_abort_pending (T:=T) (P:=P) (C:=C) e).
Proof.
  unfold entry_abort_pending, pending_fetch_abort. apply always_bind; [apply _| |].
  - apply quiet_with_entry. intros en. by apply entry_quiet_pending.
  - intros [f|]; [apply quiet_with_fetch; [by right|done]|apply always_ret, _].
Qed.

#[export] Instance quiet_routine n ok busy : Routine (quiet n ok busy).
Proof.
  split; [apply _|..].
  - intros w w' Hpl. apply quiet_same; try apply Hpl. by rewrite (pl_generation _ _ Hpl).
  - intros e now. unfold entry_current_at. apply always_bind; [apply _|apply quiet_alloc|].
    intros fresh. apply quiet_with_entry. intros en.
    destruct (is_expired_at en (sn_word (current en)) now) eqn:Hx.
    + destruct (current_at_expired en now fresh Hx) as (sn & -> & Hw & _).
      apply entry_quiet_current. by rewrite (stale_holds _ _ Hw).
    + rewrite current_at_fresh by done. apply entry_quiet_refl.
  - intros e. unfold entry_invalidate. apply always_bind; [apply _|apply quiet_alloc|].
    intros fresh. apply always_bind; [apply _| |intros _; apply quiet_abort_pending].
    apply quiet_with_entry. intros en. apply entry_quiet_current.
    by rewrite (stale_holds _ (sn_word (current en))).
Qed.
End quiet.

Create HintDb quiet discriminated.
#[export] Hint Resolve quiet_abort_pending : quiet.
#[export] Hint Extern 2 (always (quiet _ _ _) (modify _)) =>
  (apply quiet_modify; intros ?; apply quiet_same; simpl; (done || lia)) : quiet.

(** Follow the structure of the method. *)
Ltac quiet :=
  intros; cbv zeta;
  repeat first
    [ progress intros
    | solve [eauto with quiet closed nocore]
    | apply always_bind; [apply _|..]
    | progress cbn iota beta zeta
    | case_match ].

(** ** Entries and handles *)

Section entries.
Context {T P C : Type} `{Countable T, !LruCache T SubjectSlot C, TimeDriver}.
Abbreviation G := (M (World T P C)).
Implicit Types (e f : positive) (s : T) (n : positive) (busy : positive → Prop).
Implicit Types (ok : positive → EntrySnapshot P → Prop).
Abbreviation quietly n ok busy m := (always (quiet n ok busy) (m : G _)).

(** The two operations that may write a verdict. *)
Lemma quiet_compare_exchange n ok busy e st sn :
  (holds_verdict sn = true → ok e sn) → quietly n ok busy (entry_compare_exchange e st sn).
Proof.
  intros Hok. apply quiet_with_entry. intros en. rewrite compare_exchange_eq'. simpl.
  case_bool_decide; [|apply entry_quiet_refl]. apply entry_quiet_current. auto.
Qed.
Lemma quiet_swap_current n ok busy e old next :
  (holds_verdict next = true → ok e next) → quietly n ok busy (entry_swap_current e old next).
Proof.
  intros Hok. apply quiet_with_entry. intros en. rewrite swap_current_eq'. simpl.
  case_bool_decide; [|apply entry_quiet_refl]. apply entry_quiet_current. auto.
Qed.

(** The two operations that may write a claim. *)
Lemma quiet_claim_pending n ok busy e f :
  (n ≤ f)%positive → quietly n ok busy (entry_claim_pending e f).
Proof.
  intros Hf. apply quiet_with_entry. intros en. destruct (pending en); simpl; [apply entry_quiet_refl|].
  apply entry_quiet_pending. intros f0 [= <-]. by right.
Qed.
Lemma quiet_replace_pending n ok busy e f p :
  (∀ g, p = Some g → (n ≤ g)%positive) → quietly n ok busy (entry_replace_pending e f p).
Proof.
  intros Hp. unfold entry_replace_pending.
  quiet. apply quiet_with_entry. intros en. case_bool_decide; simpl; [|apply entry_quiet_refl].
  apply entry_quiet_pending. auto.
Qed.
Lemma quiet_release_pending n ok busy e f : quietly n ok busy (entry_replace_pending e f None).
Proof. by apply quiet_replace_pending. Qed.

Lemma quiet_hand_over n ok busy e f g :
  (n ≤ g)%positive → quietly n ok busy (entry_replace_pending e f (Some g)).
Proof. intros Hg. apply quiet_replace_pending. by intros g' [= <-]. Qed.
End entries.

#[export] Hint Resolve quiet_compare_exchange quiet_swap_current quiet_claim_pending
  quiet_hand_over quiet_release_pending : quiet.

(** ** Gate and lookups *)

(** The snapshot carries the decision of [r] and its payload. *)
Definition states {P} (r : DecisionResult P) (sn : EntrySnapshot P) : Prop :=
  decode_entry_state (sn_word sn) = EntryState.from (decision r) ∧
  sn_payload sn = (if bool_decide (decision r = Decision.Allowed) then payload r else None).

Section gate.
Context {T P C : Type} `{Countable T, !LruCache T SubjectSlot C, TimeDriver}.
Abbreviation G := (M (World T P C)).
Implicit Types (w : World T P C) (e f : positive) (s : T) (n : positive) (busy : positive → Prop).
Implicit Types (ok : positive → EntrySnapshot P → Prop).
Abbreviation quietly n ok busy m := (always (quiet n ok busy) (m : G _)).

Lemma decision_snapshot_states ttl ptr (en : Entry P) now (r : DecisionResult P) :
  0 ≤ ttl → states r (decision_snapshot_at ttl ptr en now r).
Proof.
  intros Httl. split; [|done]. simpl. apply word_decode.
  pose proof (deadline_after_range en now ttl Httl) as Hd.
  destruct (valid_until r) as [cap|]; [|done].
  pose proof (tick_range en cap). lia.
Qed.

Lemma decision_snapshot_fact n w e r sn w' :
  allocated n w → decision_snapshot e r w = Some (sn, w') → states r sn.
Proof.
  intros [_ _ Hty] Hrun. unfold decision_snapshot in Hrun.
  apply run_bind in Hrun as (now & w1 & Hnow & Hrun). injection Hnow as <- <-.
  apply run_bind in Hrun as (en & w2 & Hen & Hrun). unfold load_entry, expect in Hen. simpl in Hen.
  destruct (w_entries w !! e) as [en0|]; [|done]. injection Hen as <- <-.
  injection Hrun as <- <-. apply decision_snapshot_states, (typed_nonneg _ Hty).
Qed.

Lemma quiet_bind_snapshot {A} n ok busy e r (k : EntrySnapshot P → G A) :
  (∀ sn, states r sn → quietly n ok busy (k sn)) → quietly n ok busy (decision_snapshot e r ≫= k).
Proof.
  apply quiet_bind_fact; [apply closed_decision_snapshot, _|]. intros w sn w'. apply decision_snapshot_fact.
Qed.

Lemma quiet_new_fetch n ok busy e s d r :
  d = None ∨ r = None → quietly n ok busy (new_fetch_after e s d r).
Proof.
  intros Hdr w f w' [= <- <-] [A1 A2 A3]. split; simpl; try done.
  - split; simpl; [lia| |done]. intros f. rewrite lookup_insert_is_Some.
    intros [<-|[_ Hf]]; [lia|]. specialize (A2 f Hf). lia.
  - intros e0 en0 He _. left. by exists en0.
  - intros e0 en0 f He Hp. left. by exists en0.
  - intros f pf r0 _ Hf Hr. exists pf. split; [|done]. rewrite lookup_insert_ne; [done|].
    intros <-. specialize (A2 (w_next w) ltac:(by exists pf)). lia.
  - intros [Hg Hr Hp]. split; [done|done|]. simpl. intros g pfg [[_ <-]|[_ Hx]]%lookup_insert_Some.
    + intros [cur Hcur]. simpl in *. by destruct Hdr as [->|Hn]; [|congruence].
    + by apply (Hp g).
Qed.

Lemma quiet_bind_new_fetch {A} n ok busy e s d r (k : positive → G A) :
  d = None ∨ r = None → (∀ f, (n ≤ f)%positive → quietly n ok busy (k f)) →
  quietly n ok busy (new_fetch_after e s d r ≫= k).
Proof.
  intros Hdr. apply quiet_bind_fact; [by apply quiet_new_fetch|]. intros w f w' [A1 _ _] [= <- <-]. done.
Qed.
End gate.

(** The structural steps, and the binds that give a fact. *)
Ltac quiet ::=
  intros; cbv zeta;
  repeat first
    [ progress intros
    | solve [eauto 3 with quiet closed nocore]
    | lazymatch goal with
      | |- always _ (decision_snapshot _ _ ≫= _) => apply quiet_bind_snapshot; intros
      | |- always _ (new_fetch_after _ _ _ _ ≫= _) => apply quiet_bind_new_fetch; [by auto|intros]
      end
    | apply always_bind; [apply _|..]
    | progress cbn iota beta zeta
    | case_match ].

Section gate_methods.
Context {T P C : Type} `{Countable T, !LruCache T SubjectSlot C, TimeDriver}.
Abbreviation G := (M (World T P C)).
Implicit Types (w : World T P C) (e f : positive) (s : T) (n : positive) (busy : positive → Prop).
Implicit Types (ok : positive → EntrySnapshot P → Prop).
Abbreviation quietly n ok busy m := (always (quiet n ok busy) (m : G _)).

Lemma quiet_publish n ok busy (g : World T P C → World T P C) :
  (∀ w, w_config (g w) = w_config w ∧ w_entries (g w) = w_entries w ∧
    w_fetches (g w) = w_fetches w ∧ w_next (g w) = w_next w ∧
    (u64_range (generation (w_publish w)) → u64_range (generation (w_publish (g w))))) →
  quietly n ok busy (modify g).
Proof.
  intros Hg. apply quiet_modify. intros w. destruct (Hg w) as (H1 & H2 & H3 & H4 & H5).
  apply quiet_same; try done. rewrite H4. lia.
Qed.

Lemma u64_wrap_range x : u64_range (u64_wrap x).
Proof.
  unfold u64_range, u64_wrap. rewrite u64_max_val.
  pose proof (Z.mod_pos_bound x (2 ^ 64)). lia.
Qed.

Lemma quiet_publish_empty n ok busy m : quietly n ok busy m → quietly n ok busy (publish_empty m).
Proof.
  intros Hm. unfold publish_empty. quiet. apply quiet_publish. intros w. split_and!; try done.
  intros _. apply u64_wrap_range.
Qed.
Hint Resolve quiet_publish_empty : quiet.
Lemma quiet_mark_disconnected n ok busy : quietly n ok busy mark_disconnected.
Proof. unfold mark_disconnected. quiet. Qed.
Hint Resolve quiet_mark_disconnected : quiet.
Lemma quiet_watch_connected n ok busy : quietly n ok busy watch_connected.
Proof. unfold watch_connected. quiet. Qed.
Lemma quiet_watch_stable n ok busy : quietly n ok busy watch_stable.
Proof. unfold watch_stable. quiet. Qed.
Lemma quiet_watch_disconnected n ok busy : quietly n ok busy watch_disconnected.
Proof. unfold watch_disconnected. apply always_bind; [apply _|apply quiet_publish_empty; quiet|quiet]. Qed.

(** What a watch decision may write. *)
Lemma quiet_change_loop n ok busy fuel e d :
  (∀ sn, states (mkDecisionResult d None None) sn → ok e sn) →
  quietly n ok busy (apply_change_loop fuel e d).
Proof. intros Hok. induction fuel as [|fuel IH]; simpl; quiet. Qed.
Lemma quiet_apply_change n ok busy (c : DecisionChange T) :
  (∀ e d sn, change_decision c = Some d → states (mkDecisionResult d None None) sn → ok e sn) →
  quietly n ok busy (apply_change c).
Proof.
  intros Hok. unfold apply_change. destruct (change_decision c) as [d|]; [|quiet].
  pose proof (λ e, quiet_change_loop n ok busy 1 e d (λ sn, Hok e d sn eq_refl)). quiet.
Qed.

Lemma quiet_insert_entry n ok busy e (en0 : Entry P) :
  holds_verdict (current en0) = false → (∀ f, pending en0 = Some f → (n ≤ f)%positive) →
  u64_range (refresh_not_before en0) →
  quietly n ok busy (modify (λ w, set_entries (<[e := en0]> (w_entries w)) w)).
Proof.
  intros Hv Hp Hr. apply quiet_modify. intros w [A1 A2 A3].
  assert (Hlk : ∀ e1 en, <[e:=en0]> (w_entries w) !! e1 = Some en →
    en = en0 ∨ w_entries w !! e1 = Some en).
  { intros e1 en [[_ <-]|[_ ?]]%lookup_insert_Some; auto. }
  split; simpl; try done.
  - intros e1 en [->|He]%Hlk; [by rewrite Hv|left; by exists en].
  - intros e1 en g [->|He]%Hlk Hg; [right; auto|left; by exists en].
  - intros g pf r _ Hf Hd. by exists pf.
  - intros [Hg Hc Hpr]. split; [done| |done]. simpl. intros e1 en [->|He]%Hlk; [done|by eapply Hc].
Qed.
Lemma quiet_create n ok busy s now : quietly n ok busy (create_pending_entry s now).
Proof.
  unfold create_pending_entry. quiet. apply quiet_insert_entry; [done| |].
  - by intros g [= <-].
  - simpl. unfold u64_range. rewrite u64_max_val. lia.
Qed.
Lemma quiet_release n ok busy e f : quietly n ok busy (release_claim e f).
Proof. unfold release_claim. quiet. Qed.
Hint Resolve quiet_create quiet_release : quiet.
Lemma quiet_access_begin n ok busy s e d : quietly n ok busy (access_begin s e d).
Proof. unfold access_begin. quiet. Qed.
Hint Resolve quiet_access_begin : quiet.
Lemma quiet_access_poll n ok busy first e f q send : quietly n ok busy (access_poll first e f q send).
Proof. unfold access_poll. quiet. Qed.
Lemma quiet_check_begin n ok busy s : quietly n ok busy (check_begin s).
Proof. unfold check_begin. quiet. Qed.
Lemma quiet_refresh_entry n ok busy s e : quietly n ok busy (refresh_entry_begin s e).
Proof. unfold refresh_entry_begin. quiet. Qed.

(** *** Publication of an answer *)

Lemma quiet_take_stale n ok busy e f c : quietly n ok busy (take_stale e f c).
Proof. unfold take_stale. quiet. by apply quiet_compare_exchange. Qed.
Hint Resolve quiet_take_stale : quiet.
Lemma u64_of_nanos_range d : u64_range (u64_of_nanos d).
Proof.
  unfold u64_of_nanos. destruct (u64_try_from _) as [x|] eqn:Hx.
  - by apply u64_try_from_Some in Hx as [<- ?].
  - unfold u64_range. rewrite u64_max_val. lia.
Qed.
Lemma quiet_cooldown n ok busy e c now :
  0 ≤ c → quietly n ok busy (with_entry e (λ en : Entry P,
    (tt, set_refresh_not_before (u64_saturating_add (tick en now) c) en))).
Proof.
  intros Hc. apply quiet_with_entry. intros en. split; auto. intros _. simpl.
  unfold u64_saturating_add, u64_range. pose proof (tick_range en now). rewrite u64_max_val. lia.
Qed.
Lemma quiet_apply_refresh n ok busy e f now cur r :
  (∀ sn, r = Ok sn → holds_verdict sn = true → ok e sn) →
  quietly n ok busy (apply_refresh_result e f now cur r).
Proof.
  intros Hok. unfold apply_refresh_result. apply always_bind; [apply _|quiet|]. intros en.
  apply always_bind; [apply _| |quiet]. destruct r as [sn|error].
  - quiet. apply quiet_swap_current. by apply Hok.
  - apply (quiet_bind_fact _ _ _ (λ c, 0 ≤ c)); [by apply always_gets, _| |].
    + intros w c w' _ [= <- <-]. apply u64_of_nanos_range.
    + intros c Hc. quiet. by apply quiet_cooldown.
Qed.
Lemma quiet_permanent n ok busy s e f : quietly n ok busy (apply_permanent_failure s e f).
Proof. unfold apply_permanent_failure. quiet. Qed.
Lemma quiet_transient n ok busy s e f : quietly n ok busy (apply_transient_failure s e f).
Proof. unfold apply_transient_failure. quiet. Qed.
End gate_methods.

#[export] Hint Resolve quiet_publish_empty quiet_mark_disconnected quiet_watch_connected
  quiet_watch_stable quiet_watch_disconnected quiet_create quiet_release quiet_access_begin
  quiet_access_poll quiet_check_begin quiet_refresh_entry quiet_take_stale quiet_permanent
  quiet_transient : quiet.

(** ** One poll of a lookup *)

Section lookups.
Context {T P C : Type} `{Countable T, !LruCache T SubjectSlot C, TimeDriver}.
Abbreviation G := (M (World T P C)).
Implicit Types (w : World T P C) (e f : positive) (s : T) (n : positive).
Implicit Types (pf : PendingFetch T P) (answer : Answer.t P).

(** Nobody writes a verdict. *)
Definition noone (_ : positive) (_ : EntrySnapshot P) : Prop := False.

Lemma quiet_then {A} n busy w0 w (m : G A) a w1 :
  quiet n noone busy w0 w → always (quiet n noone busy) m → m w = Some (a, w1) →
  quiet n noone busy w0 w1.
Proof. intros Hq Hm Hrun. by transitivity w; [|eapply Hm]. Qed.

(** The entry waits for this lookup. *)
Definition awaited w e f : Prop := ∃ en, w_entries w !! e = Some en ∧ pending en = Some f.

(** The lookup was answered with a decision that was still valid. *)
Definition answered w f : Prop :=
  ∃ pf, w_fetches w !! f = Some pf ∧ pf_phase pf = FetchPhase.Done (Ok (Ok tt)).

Definition answer_of answer (r : DecisionResult P) : Prop := answer = Answer.Ready (Ok (Some r)).

Lemma pending_generation_run w e f g w' :
  entry_pending_generation e f w = Some (g, w') →
  w' = w ∧ (is_Some g → awaited w e f).
Proof.
  intros (p & w1 & Hp & Hrun)%run_bind. injection Hrun as <- <-.
  apply run_bind in Hp as (en & w2 & Hen & Hp). injection Hp as <- <-.
  unfold load_entry, expect in Hen. destruct (w_entries w !! e) as [en0|] eqn:He; [|done].
  injection Hen as <- <-. split; [done|]. intros [x Hx]. exists en0. split; [done|].
  destruct (pending en0) as [f0|]; [|done]. case_bool_decide; congruence.
Qed.

(** [apply_fetch_result] after its first test, in three parts. *)
Definition prepare e (r : result (DecisionResult P) DecisionSourceError) :
    G (result (EntrySnapshot P) DecisionSourceError) :=
  match r with
  | Ok d => snapshot ← decision_snapshot e d; mret (Ok snapshot)
  | Err error => mret (Err error)
  end.

Definition still_valid (en : Entry P) now (r : result (EntrySnapshot P) DecisionSourceError) :
    result (EntrySnapshot P) DecisionSourceError :=
  match r with
  | Ok snapshot =>
      if is_expired_at en (sn_word snapshot) now
      then Err (transient "decision expired before publication")
      else Ok snapshot
  | Err error => Err error
  end.

Definition publish s e f (from : option (EntrySnapshot P)) now
    (r : result (EntrySnapshot P) DecisionSourceError) : G FetchResult :=
  match from with
  | Some cur => apply_refresh_result e f now cur r
  | None =>
      match r with
      | Ok snapshot =>
          x ← entry_compare_exchange e EntryState.Pending snapshot;
          _ ← (if is_ok x then entry_replace_pending e f None else mret false);
          mret (forget r)
      | Err error =>
          _ ← (if is_permanent_status error then apply_permanent_failure s e f
               else apply_transient_failure s e f);
          mret (forget r)
      end
  end.

Lemma apply_fetch_parts s e f from r :
  apply_fetch_result s e f from r =
  (g ← entry_pending_generation e f;
   match g with
   | None => mret (forget r)
   | Some _ =>
       r ← prepare e r;
       now ← D_now;
       en ← load_entry e;
       publish s e f from now (still_valid en now r)
   end).
Proof. reflexivity. Qed.

Lemma publish_final s e f from now r w final w' :
  publish s e f from now r w = Some (final, w') → final = forget r.
Proof.
  destruct from as [cur|], r as [sn|error]; simpl; intros Hrun;
    repeat (apply run_bind in Hrun as (? & ? & ? & Hrun)); by injection Hrun as <- _.
Qed.

Lemma quiet_publish_ok n ok busy s e f from now r :
  (∀ sn, r = Ok sn → ok e sn) → always (quiet n ok busy) (publish s e f from now r).
Proof.
  intros Hok. destruct from as [cur|]; [by apply quiet_apply_refresh; auto|].
  destruct r as [sn|error]; simpl; quiet. apply quiet_compare_exchange. auto.
Qed.

Lemma apply_fetch_writes n busy s e f from r w final w' :
  apply_fetch_result s e f from r w = Some (final, w') →
  quiet n (λ e' sn, e' = e ∧ awaited w e f ∧ ∃ d, r = Ok d ∧ states d sn ∧ final = Ok tt) busy w w'.
Proof.
  rewrite apply_fetch_parts. intros (g & w1 & Hg & Hrun)%run_bind.
  apply pending_generation_run in Hg as [-> Hg]. destruct g as [g|]; [|by injection Hrun as _ <-].
  specialize (Hg ltac:(by eexists)).
  apply run_bind in Hrun as (rs & w1 & Hrs & Hrun).
  apply run_bind in Hrun as (now & w2 & Hnow & Hrun).
  apply run_bind in Hrun as (en & w3 & Hen & Hrun). intros Ha.
  assert (Hpre : quiet n noone busy w w1).
  { destruct r as [d|error]; [|by injection Hrs as _ <-]. revert Hrs. simpl.
    apply (always_bind (quiet n noone busy)); [apply closed_decision_snapshot, _|quiet]. }
  assert (Hst : ∀ sn, still_valid en now rs = Ok sn → ∃ d, r = Ok d ∧ states d sn).
  { intros sn Hsn. destruct rs as [sn0|]; [|done]. simpl in Hsn.
    destruct (is_expired_at _ _ _); [done|]. injection Hsn as ->.
    destruct r as [d|error]; [|done]. apply run_bind in Hrs as (sn1 & w4 & Hsn & Hrs).
    injection Hrs as -> _. exists d. split; [done|]. by eapply decision_snapshot_fact. }
  pose proof (publish_final _ _ _ _ _ _ _ _ _ Hrun) as Hfin.
  pose proof (λ ok Hok, quiet_publish_ok n ok busy s e f from now _ Hok _ _ _ Hrun) as Hpub.
  revert Ha. change (quiet n (λ e' sn, e' = e ∧ awaited w e f ∧ ∃ d, r = Ok d ∧ states d sn ∧ final = Ok tt) busy w w').
  transitivity w3.
  - eapply (quiet_weaken _ noone); [done|]. transitivity w1; [done|].
    transitivity w2; [by eapply closed_now; [apply _|]|by eapply closed_load; [apply _|]].
  - apply Hpub. intros sn Hsn. destruct (Hst sn Hsn) as (d & Hd & Hs).
    split; [done|]. split; [done|]. exists d. rewrite Hfin, Hsn. done.
Qed.

(** *** The poll *)

(** [f] is being polled since [w0], where it belonged to [pf]; nothing was
    written yet. *)
Record polling n f pf w0 w : Prop := {
  po_quiet : quiet n noone (eq f) w0 w;
  po_alloc : allocated n w0;
  po_known : (f < n)%positive;
}.

(** What the whole poll writes: the answer, into the entry that waited for it. *)
Definition written f pf answer w0 w' (e : positive) (sn : EntrySnapshot P) : Prop :=
  e = pf_entry pf ∧ awaited w0 e f ∧ ∃ d, answer_of answer d ∧ states d sn ∧ answered w' f.

Lemma polling_run {A} n f pf w0 w (m : G A) a w1 :
  polling n f pf w0 w → always (quiet n noone (eq f)) m → m w = Some (a, w1) →
  polling n f pf w0 w1.
Proof. intros [Hq Ha Hf] Hm Hrun. split; [|done|done]. by eapply quiet_then. Qed.

Lemma polling_awaited n f pf w0 w e : polling n f pf w0 w → awaited w e f → awaited w0 e f.
Proof.
  intros [Hq Ha Hf] (en & He & Hp). destruct (qc_pending _ _ _ _ _ (Hq Ha) _ _ _ He Hp)
    as [(en0 & He0 & Hp0)|?]; [by exists en0|lia].
Qed.

Lemma set_phase_run f ph w u w' :
  fetch_set_phase f ph w = Some (u, w') →
  ∃ pf, w_fetches w' !! f = Some pf ∧ pf_phase pf = ph.
Proof.
  unfold fetch_set_phase, with_fetch. destruct (w_fetches w !! f) as [pf|]; [|done].
  intros [= _ <-]. simpl. rewrite lookup_insert_eq. by eexists.
Qed.

Lemma quiet_set_phase n ok f ph :
  (∀ d, ph ≠ FetchPhase.Delay d) → always (quiet n ok (eq f)) (fetch_set_phase f ph : G unit).
Proof.
  intros Hph. apply quiet_with_fetch; [by left|]. intros pf Hp Hr. split; [by apply Hp|done].
Qed.
Hint Resolve quiet_set_phase : quiet.
Hint Extern 1 (_ ≠ FetchPhase.Delay _) => discriminate : quiet.

(** A lookup with a cooldown to sit out is not a refresh. *)
Lemma undelayed_first pf :
  undelayed pf → is_Some (pf_delay pf) ∨ (∃ d, pf_phase pf = FetchPhase.Delay d) →
  pf_refresh_from pf = None.
Proof.
  unfold undelayed. destruct (pf_refresh_from pf) as [cur|]; [|done]. intros Hp.
  destruct Hp as [Hd Hph]; [done|]. rewrite Hd. intros [[? ?]|[d ?]]; [done|]. by destruct (Hph d).
Qed.

Lemma quiet_set_delay n ok f pf d w u w' :
  w_fetches w !! f = Some pf → (undelayed pf → pf_refresh_from pf = None) →
  fetch_set_phase f (FetchPhase.Delay d) w = Some (u, w') → quiet n ok (eq f) w w'.
Proof.
  intros Hf Hd. unfold fetch_set_phase, with_fetch. rewrite Hf. intros [= _ <-] [A1 A2 A3].
  split; simpl; try done.
  - split; simpl; try done. intros g. rewrite lookup_insert_is_Some.
    intros [<-|[_ ?]]; [apply A2; by exists pf|by apply A2].
  - intros e en He _. left. by exists en.
  - intros e en g He Hp. left. by exists en.
  - intros g pfg r Hb Hg Hr. exists pfg. split; [|done]. by rewrite lookup_insert_ne.
  - intros [Hg Hr Hp]. split; [done|done|]. simpl. intros g pfg [[_ <-]|[_ Hx]]%lookup_insert_Some.
    + intros [cur Hcur]. simpl in *. rewrite Hd in Hcur by (by eapply Hp). done.
    + by apply (Hp g).
Qed.

Lemma finish_writes n f pf answer alive r w0 w p w' :
  polling n f pf w0 w → (∀ d, r = Ok d → answer_of answer d) →
  fetch_finish f pf alive r w = Some (p, w') →
  quiet n (written f pf answer w0 w') (eq f) w0 w'.
Proof.
  intros Hp Hans (final & w1 & Hfin & Hrun)%run_bind.
  apply run_bind in Hrun as (u1 & w2 & Hm1 & Hrun). apply run_bind in Hrun as (u2 & w3 & Hm2 & Hrun).
  apply run_bind in Hrun as (u3 & w4 & Hph & Hrun). injection Hrun as _ <-.
  destruct (set_phase_run _ _ _ _ _ Hph) as (pf' & Hpf & Hd).
  transitivity w; [by eapply quiet_weaken, po_quiet|]. transitivity w1.
  - destruct alive; [|by injection Hfin as _ <-].
    eapply quiet_weaken; [|by eapply apply_fetch_writes]. intros e sn (-> & Haw & d & Hr & Hs & ->).
    split; [done|]. split; [by eapply polling_awaited|]. exists d. split; [auto|]. split; [done|].
    by exists pf'.
  - eapply (quiet_weaken _ noone); [done|]. transitivity w2; [|transitivity w3].
    + refine ((_ : always (quiet n noone (eq f)) _) _ _ _ Hm1). quiet.
    + refine ((_ : always (quiet n noone (eq f)) _) _ _ _ Hm2). quiet.
    + by eapply quiet_set_phase; [|exact Hph].
Qed.

Lemma lookup_result_ok (r : result (option (result (option (DecisionResult P)) DecisionSourceError))
    TimeoutElapsed.t) w d w' :
  lookup_result r w = Some (Ok d, w') → r = Ok (Some (Ok (Some d))).
Proof.
  unfold lookup_result. destruct r as [[[[d0|]|error]|]|]; try by intros [= ].
  destruct (valid_until d0) as [cap|]; [|by intros [= ->]].
  intros (now & w1 & _ & Hrun)%run_bind. injection Hrun as Hd _.
  destruct (cap <=? now); [done|]. by injection Hd as ->.
Qed.

Lemma timeout_ready {A} first deadline now (p : Poll.t A) a :
  timeout_poll first deadline now p = Poll.Ready (Ok a) → p = Poll.Ready a.
Proof.
  unfold timeout_poll, timeout_at_poll. destruct deadline as [d|]; [|by destruct p; intros [= ->]].
  repeat case_match; by intros [= ->].
Qed.

Lemma poll_lookup_writes n f pf first deadline answer alive w0 w p w' :
  polling n f pf w0 w → fetch_poll_lookup f pf first deadline answer alive w = Some (p, w') →
  quiet n (written f pf answer w0 w') (eq f) w0 w'.
Proof.
  intros Hp (now & w1 & Hnow & Hrun)%run_bind.
  pose proof (polling_run _ _ _ _ _ _ _ _ Hp (closed_now _) Hnow) as Hp1.
  destruct (timeout_poll _ _ _ _) as [r|] eqn:Ht.
  - apply run_bind in Hrun as (r' & w2 & Hr & Hrun).
    assert (Hq : always (quiet n noone (eq f)) (lookup_result r : G _)).
    { unfold lookup_result. quiet. }
    eapply finish_writes; [by eapply (polling_run n f pf w0 w1)| |exact Hrun].
    intros d ->. apply lookup_result_ok in Hr as ->. apply timeout_ready in Ht.
    destruct answer; simpl in Ht; try done. by injection Ht as ->.
  - eapply (quiet_weaken _ noone); [done|]. transitivity w1; [apply Hp1|].
    refine ((_ : always (quiet n noone (eq f)) _) _ _ _ Hrun). quiet.
Qed.

Lemma begin_lookup_writes n f pf answer alive w0 w p w' :
  polling n f pf w0 w → fetch_begin_lookup f pf answer alive w = Some (p, w') →
  quiet n (written f pf answer w0 w') (eq f) w0 w'.
Proof.
  intros Hp (u & w1 & Hu & Hrun)%run_bind.
  pose proof (polling_run _ _ _ _ _ _ _ _ Hp (closed_emit _ _) Hu) as Hp1.
  apply run_bind in Hrun as (now & w2 & Hnow & Hrun).
  pose proof (polling_run _ _ _ _ _ _ _ _ Hp1 (closed_now _) Hnow) as Hp2.
  apply run_bind in Hrun as (limit & w3 & Hl & Hrun). injection Hl as <- <-.
  by eapply poll_lookup_writes.
Qed.

Lemma poll_delay_writes n f pf deadline answer alive w0 w p w' :
  polling n f pf w0 w → w_fetches w !! f = Some pf → (undelayed pf → pf_refresh_from pf = None) →
  fetch_poll_delay f pf deadline answer alive w = Some (p, w') →
  quiet n (written f pf answer w0 w') (eq f) w0 w'.
Proof.
  intros Hp Hf Hd (now & w1 & Hnow & Hrun)%run_bind.
  pose proof (polling_run _ _ _ _ _ _ _ _ Hp (closed_now _) Hnow) as Hp1. injection Hnow as _ <-.
  destruct (sleep_poll _ _); [by eapply begin_lookup_writes|].
  eapply (quiet_weaken _ noone); [done|]. transitivity (set_reads (S (w_reads w)) w); [apply Hp1|].
  apply run_bind in Hrun as (u & w2 & Hu & Hrun). injection Hrun as _ <-.
  by eapply quiet_set_delay; [| |exact Hu].
Qed.

(** A poll writes the answer it got, if the entry still waits for it; a lookup
    that is over writes nothing. *)
Lemma fetch_poll_writes f pf answer alive w p w' :
  allocated (w_next w) w → w_fetches w !! f = Some pf →
  fetch_poll f answer alive w = Some (p, w') →
  quiet (w_next w) (written f pf answer w w') (λ g, g = f ∧ ∀ r, pf_phase pf ≠ FetchPhase.Done r) w w'.
Proof.
  intros Ha Hf Hrun. assert (f < w_next w)%positive as Hlt by (apply Ha; by exists pf).
  assert (Hp : polling (w_next w) f pf w w) by by split.
  apply run_bind in Hrun as (pf0 & w1 & Hpf & Hrun). unfold expect in Hpf. rewrite Hf in Hpf.
  injection Hpf as <- <-.
  assert (Hlive : (∀ r, pf_phase pf ≠ FetchPhase.Done r) →
    quiet (w_next w) (written f pf answer w w') (eq f) w w' →
    quiet (w_next w) (written f pf answer w w') (λ g, g = f ∧ ∀ r, pf_phase pf ≠ FetchPhase.Done r) w w').
  { intros Hnd Hq Hal. destruct (Hq Hal) as [H1 H2 H3 H4 H5]. split; try done.
    intros g pfg r Hng. apply H4. intros <-. by apply Hng. }
  assert (Hab : (_ ← fetch_set_phase f (FetchPhase.Done (Err tt)); mret (Poll.Ready (Err tt))) w
    = Some (p, w') → quiet (w_next w) (written f pf answer w w') (eq f) w w').
  { intros (u & w1 & Hu & Hrun1)%run_bind. injection Hrun1 as _ <-.
    eapply (quiet_weaken _ noone); [done|]. by eapply quiet_set_phase; [|exact Hu]. }
  destruct (pf_phase pf) as [|d|first d|r] eqn:Hph; [..|by injection Hrun as _ <-].
  all: apply Hlive; [done|]; destruct (pf_aborted pf); [by eapply Hab|].
  - destruct (pf_delay pf) as [delay|] eqn:Hdel; [|by eapply begin_lookup_writes].
    apply run_bind in Hrun as (now & w1 & Hnow & Hrun).
    eapply poll_delay_writes; [| | |exact Hrun].
    + exact (polling_run _ _ _ _ _ _ _ _ Hp (closed_now _) Hnow).
    + by injection Hnow as _ <-.
    + intros Hpr. apply undelayed_first; [done|]. rewrite Hdel. by left.
  - eapply poll_delay_writes; [exact Hp|done| |exact Hrun].
    intros Hpr. apply undelayed_first; [done|]. right. by exists d.
  - by eapply poll_lookup_writes.
Qed.
End lookups.

(** ** The admission loop *)

Section admission_quiet.
Context {T P C : Type} `{Countable T, !LruCache T SubjectSlot C, TimeDriver}.
Abbreviation G := (M (World T P C)).
Implicit Types (w : World T P C) (e f : positive) (s : T) (n : positive) (st : AdmitState).
Implicit Types (ok : positive → EntrySnapshot P → Prop) (busy : positive → Prop).
Abbreviation quietly n ok busy m := (always (quiet n ok busy) (m : G _)).

Lemma quiet_admit_insert n ok busy s st : quietly n ok busy (admit_insert s st).
Proof. unfold admit_insert. quiet. Qed.
Lemma quiet_admit_settle n ok busy s e r st : quietly n ok busy (admit_settle s e r st).
Proof. unfold admit_settle. quiet. Qed.
Lemma quiet_admit_access n ok busy b e f q t env st : quietly n ok busy (admit_access (P:=P) b e f q t env st).
Proof. unfold admit_access. quiet. Qed.
Lemma quiet_admit_cancel n ok busy st : quietly n ok busy (admit_cancel st).
Proof. unfold admit_cancel, access_cancel. quiet. Qed.
Hint Resolve quiet_admit_insert quiet_admit_settle quiet_admit_access : quiet.

(** The lookup an admission waits for. *)
Definition waits_for st (f : positive) : Prop :=
  match ad_pc st with AdmitPc.Wait _ _ g => g = f | _ => False end.

Lemma admit_step_quiet n ok busy s env st :
  (∀ f, ¬ waits_for st f) → quietly n ok busy (admit_step s env st).
Proof.
  intros Hw. unfold admit_step, waits_for in *.
  destruct (ad_pc st) as [?| |? ? ? ? ?|b e f|? ?|? ?|?]; [quiet..| |quiet|quiet|quiet]. by destruct (Hw f).
Qed.

(** While it waits, it may poll the lookup, which writes what it writes. *)
Lemma admit_wait_writes b s e f env st pf w st' w' :
  allocated (w_next w) w → w_fetches w !! f = Some pf →
  admit_wait b s e f env st w = Some (st', w') →
  quiet (w_next w) (written f pf (env_answer env f) w w')
    (λ g, g = f ∧ ∀ r, pf_phase pf ≠ FetchPhase.Done r) w w'.
Proof.
  intros Ha Hf (r & w2 & Hr & Hrun)%run_bind.
  set (busy := λ g, g = f ∧ _). set (n := w_next w) in *.
  assert (Hrest : quiet n noone busy w2 w' ∧ (match r with Poll.Ready (Err _) => True | _ => w' = w2 end)).
  { destruct r as [[[[r|]|]|]|]; try by injection Hrun as _ <-.
    split; [|done]. refine ((_ : always (quiet n noone busy) _) _ _ _ Hrun). quiet. }
  destruct Hrest as [Hq2 Hsame].
  apply run_bind in Hr as (now & w1 & Hnow & Hr). injection Hnow as <- <-.
  set (w1 := set_reads _ w) in Hr. assert (quiet n noone busy w w1) as Hq1 by by apply quiet_same.
  assert (Hskip : quiet n noone busy w w2 → quiet n (written f pf (env_answer env f) w w') busy w w').
  { intros Hq. eapply (quiet_weaken _ noone); [done|]. by transitivity w2. }
  destruct (timeout_at_poll _ _ _ _) as [[[]|]|]; [|injection Hr as <- <-; by apply Hskip..].
  apply run_bind in Hr as (x & w3 & Hsel & Hr). injection Hr as <- <-. unfold select_fetch in Hsel.
  destruct (_ && _); [injection Hsel as <- <-; by apply Hskip|].
  apply run_bind in Hsel as (p & w4 & Hpoll & Hsel). injection Hsel as <- <-.
  assert (allocated (w_next w1) w1) as Ha1 by by destruct Ha.
  pose proof (fetch_poll_writes f pf _ _ _ _ _ Ha1 Hf Hpoll) as Hq.
  assert (w' = w4) as ->.
  { destruct p as [[[|]|]|]; simpl in Hsame; try done; by destruct (env_changed env). }
  exact (transitivity (R:=quiet n _ busy) (quiet_weaken _ _ _ _ _ _ (λ _ _, False_ind _) Hq1) Hq).
Qed.
End admission_quiet.
