(* ===== verification/Claims.v ===== *)
(** * Claims: every lookup under way is the one its entry waits for

    An entry names at most one lookup in its [pending] slot.  [booked F N] says
    what a method does to these claims: a lookup that is neither aborted nor over
    stays the one its entry waits for, unless it is a refresh that nobody polled
    yet; a claim of a refresh appears only where [N] allows it, and never outlives
    its lookup.  [F] are the lookups the method itself polls.  As in [Frame], the
    proofs follow the structure of the methods. *)

From S2P Require Export Authorship.

Section claims.
Context {T P C : Type} `{Countable T, !LruCache T SubjectSlot C, TimeDriver}.
Implicit Types (w : World T P C) (e f g : positive) (s : T) (pf : PendingFetch T P).
Implicit Types (F : positive → Prop) (N : positive → positive → Prop).

(** ** What is said of one lookup *)

Definition finished pf : Prop := ∃ r, pf_phase pf = FetchPhase.Done r.

(** A refresh that nobody has polled. *)
Definition unsent pf : Prop := is_Some (pf_refresh_from pf) ∧ pf_phase pf = FetchPhase.Start.

Definition unsent_at w f : Prop := ∃ pf, w_fetches w !! f = Some pf ∧ unsent pf.

Definition refresh_at w f : Prop :=
  ∃ pf, w_fetches w !! f = Some pf ∧ is_Some (pf_refresh_from pf).

(** Aborted, over, or the lookup its entry waits for. *)
Definition accounted w f : Prop :=
  ∃ pf, w_fetches w !! f = Some pf ∧
    (pf_aborted pf = true ∨ finished pf ∨ owns w (pf_entry pf) f).

Definition tidy_at w f : Prop :=
  ∀ pf, w_fetches w !! f = Some pf → unsent pf ∨ accounted w f.

(** The entry [e] waits for the refresh [f]. *)
Definition refresh_claim w e f : Prop := owns w e f ∧ refresh_at w f.

(** A claimed refresh is still to be answered. *)
Definition clean_at w f : Prop :=
  ∀ e pf, refresh_claim w e f → w_fetches w !! f = Some pf →
    pf_aborted pf = false ∧ ¬ finished pf.

(** Identities below [w_next] are taken, and a claim is of a lookup of the entry. *)
Record taken w : Prop := {
  tk_fetch f : is_Some (w_fetches w !! f) → (f < w_next w)%positive;
  tk_entry e : is_Some (w_entries w !! e) → (e < w_next w)%positive;
  tk_owns e f : owns w e f → ∃ pf, w_fetches w !! f = Some pf ∧ pf_entry pf = e;
}.

Lemma wf_taken w : wf w → taken w.
Proof.
  intros Hwf. split.
  - intros f [pf Hf]. apply (fo_alloc _ _ _ (wf_fetch _ Hwf _ _ Hf)).
  - intros e [en He]. apply (eo_alloc _ _ _ (wf_entry _ Hwf _ _ He)).
  - intros e f (en & He & Hp). by apply (eo_pending _ _ _ (wf_entry _ Hwf _ _ He)).
Qed.

(** ** What a method does to the claims *)

Record books F N w w' : Prop := {
  bk_taken : taken w';
  bk_queue : w_refresh_queue w' = w_refresh_queue w;
  bk_fetch f pf : w_fetches w !! f = Some pf →
    ∃ pf', w_fetches w' !! f = Some pf' ∧ fetch_evolves pf pf' ∧
      (F f ∨ pf_phase pf' = pf_phase pf);
  bk_tidy f : F f ∨ (tidy_at w f → tidy_at w' f);
  bk_clean f : F f ∨ (clean_at w f → clean_at w' f);
  bk_accounted f : F f ∨ (∃ e, N e f) ∨ (accounted w f → accounted w' f);
  bk_claims e f : refresh_claim w' e f → N e f ∨ refresh_claim w e f;
}.

Definition booked F N w w' : Prop := taken w → books F N w w'.

Lemma books_trans F N w1 w2 w3 : books F N w1 w2 → books F N w2 w3 → books F N w1 w3.
Proof.
  intros [T2 Q2 F2 Y2 L2 A2 C2] [T3 Q3 F3 Y3 L3 A3 C3]. split; [done|congruence|..].
  - intros f pf Hf. destruct (F2 _ _ Hf) as (pf2 & Hf2 & E2 & P2).
    destruct (F3 _ _ Hf2) as (pf3 & Hf3 & E3 & P3). exists pf3. split; [done|].
    split; [by transitivity pf2|]. destruct P2, P3; auto. right. congruence.
  - intros f. destruct (Y2 f), (Y3 f); auto.
  - intros f. destruct (L2 f), (L3 f); auto.
  - intros f. destruct (A2 f) as [|[|]], (A3 f) as [|[|]]; auto.
  - intros e f [|[|]%C2]%C3; auto.
Qed.

#[export] Instance booked_preorder F N : PreOrder (booked F N).
Proof.
  split.
  - intros w Ht. split; auto. intros f pf Hf. exists pf. split; [done|]. split; [done|by right].
  - intros w1 w2 w3 B12 B23 Ht. pose proof (B12 Ht) as B2.
    eapply books_trans; [exact B2|]. apply B23, B2.
Qed.

Definition nothing_polled (_ : positive) : Prop := False.
Definition no_claim (_ _ : positive) : Prop := False.

Lemma books_weaken F N F' N' w w' :
  (∀ f, F f → F' f) → (∀ e f, N e f → N' e f) → books F N w w' → books F' N' w w'.
Proof.
  intros HF HN [T2 Q2 F2 Y2 L2 A2 C2]. split; try done.
  - intros f pf Hf. destruct (F2 _ _ Hf) as (pf2 & Hf2 & E2 & [|]); eauto 6.
  - intros f. destruct (Y2 f); auto.
  - intros f. destruct (L2 f); auto.
  - intros f. destruct (A2 f) as [|[[e ?]|]]; eauto.
  - intros e f [|]%C2; auto.
Qed.

Lemma booked_weaken F N F' N' w w' :
  (∀ f, F f → F' f) → (∀ e f, N e f → N' e f) → booked F N w w' → booked F' N' w w'.
Proof. intros HF HN Hb Ht. eapply books_weaken; [done|done|]. by apply Hb. Qed.

(** ** Changes of the state *)

(** Nothing but fields of no interest. *)
Lemma booked_same F N w w' :
  w_entries w' = w_entries w → w_fetches w' = w_fetches w →
  w_refresh_queue w' = w_refresh_queue w → (w_next w ≤ w_next w')%positive → booked F N w w'.
Proof.
  intros He Hf Hq Hn [T1 T2 T3].
  assert (Ho : ∀ e f, owns w' e f ↔ owns w e f) by (intros e f; unfold owns; by rewrite He).
  assert (Hr : ∀ e f, refresh_claim w' e f ↔ refresh_claim w e f).
  { intros. unfold refresh_claim, refresh_at. by rewrite Ho, Hf. }
  assert (Ha : ∀ f, accounted w f → accounted w' f).
  { intros f (pf & Hpf & Hc). exists pf. rewrite Hf, Ho. by split. }
  split; [split|done|..].
  - intros f Hx. rewrite Hf in Hx. specialize (T1 _ Hx). lia.
  - intros e Hx. rewrite He in Hx. specialize (T2 _ Hx). lia.
  - intros e f Hx. rewrite Hf. by apply T3, Ho.
  - intros f pf Hpf. exists pf. rewrite Hf. split; [done|]. split; [done|by right].
  - intros f. right. intros Hty pf Hpf. rewrite Hf in Hpf. destruct (Hty pf Hpf); auto.
  - intros f. right. intros Hcl e pf Hc%Hr Hpf. rewrite Hf in Hpf. by apply (Hcl e).
  - intros f. auto.
  - intros e f Hc%Hr. by right.
Qed.

(** The claim of one entry changes: given up by the method that polls its lookup
    or never sent it, or taken for a lookup of this entry that is to be answered. *)
Lemma booked_pending F N w e en en' :
  w_entries w !! e = Some en →
  (∀ g, pending en = Some g → pending en' = Some g ∨ F g ∨
     (N e g ∧ ∀ pf, w_fetches w !! g = Some pf → unsent pf)) →
  (∀ f, pending en' = Some f → pending en = Some f ∨
     ∃ pf, w_fetches w !! f = Some pf ∧ pf_entry pf = e ∧
       (pf_refresh_from pf = None ∨ N e f ∧ pf_aborted pf = false ∧ ¬ finished pf)) →
  booked F N w (set_entries (<[e := en']> (w_entries w)) w).
Proof.
  intros He Hlost Hnew [T1 T2 T3]. set (w' := set_entries _ w).
  assert (Hkeep : ∀ g, F g ∨ (N e g ∧ ∀ pf, w_fetches w !! g = Some pf → unsent pf) ∨
    ∀ x, owns w x g → owns w' x g).
  { intros g. assert (Hother : (pending en = Some g → pending en' = Some g) →
      ∀ x, owns w x g → owns w' x g).
    { intros Hsame x (en0 & He0 & Hp). destruct (decide (x = e)) as [->|Hne].
      - simplify_eq. exists en'. simpl. rewrite lookup_insert_eq. auto.
      - exists en0. simpl. by rewrite lookup_insert_ne. }
    destruct (decide (pending en = Some g)) as [Hp|Hp]; [|by right; right; apply Hother].
    destruct (Hlost _ Hp) as [?|[?|?]]; auto. }
  assert (Hback : ∀ x g, owns w' x g → owns w x g ∨ (x = e ∧ ∃ pf, w_fetches w !! g = Some pf ∧
    pf_entry pf = e ∧ (pf_refresh_from pf = None ∨ N e g ∧ pf_aborted pf = false ∧ ¬ finished pf))).
  { intros x g (en0 & He0 & Hp). simpl in He0.
    apply lookup_insert_Some in He0 as [[<- <-]|[Hne He0]]; [|left; by exists en0].
    destruct (Hnew _ Hp) as [?|?]; [left; by exists en|by right]. }
  split; [split|done|..].
  - done.
  - intros x. simpl. rewrite lookup_insert_is_Some. intros [<-|[_ ?]]; [apply T2; eauto|by apply T2].
  - intros x g [?|[-> (pf & ? & ? & _)]]%Hback; [by apply T3|by exists pf].
  - intros f pf Hf. exists pf. split; [done|]. split; [done|by right].
  - intros f. destruct (Hkeep f) as [?|[[_ Hun]|Ho]]; [by left|right..]; intros Hty pf Hf.
    + left. by apply Hun.
    + destruct (Hty pf Hf) as [?|(pf0 & Hf0 & Hc)]; [by left|right]. exists pf0. split; [done|].
      destruct Hc as [?|[?|?]]; auto.
  - intros f. right. intros Hcl x pf [Ho (pf0 & Hf0 & Hr)] Hf.
    destruct (Hback _ _ Ho) as [Ho'|(-> & pf1 & Hf1 & _ & [Hn|(_ & Ha & Hnf)])].
    + apply (Hcl x); [|done]. split; [done|by exists pf0].
    + change (w_fetches w !! f = Some pf0) in Hf0. simplify_eq. rewrite Hn in Hr. by destruct Hr.
    + change (w_fetches w !! f = Some pf) in Hf. by simplify_eq.
  - intros f. destruct (Hkeep f) as [?|[[? _]|Ho]]; [by left|right; left; by exists e|right; right].
    intros (pf & Hf & Hc). exists pf. split; [done|]. destruct Hc as [?|[?|?]]; auto.
  - intros x f [Ho (pf0 & Hf0 & Hr)].
    destruct (Hback _ _ Ho) as [Ho'|(-> & pf1 & Hf1 & _ & [Hn|(? & _)])].
    + right. split; [done|by exists pf0].
    + change (w_fetches w !! f = Some pf0) in Hf0. simplify_eq. rewrite Hn in Hr. by destruct Hr.
    + by left.
Qed.

Lemma booked_with_entry {A} F N e (op : Entry P → A * Entry P) :
  (∀ en, pending (op en).2 = pending en) → always (booked F N) (with_entry (T:=T) (C:=C) e op).
Proof.
  intros Hop w a w'. unfold with_entry. destruct (w_entries w !! e) as [en|] eqn:He; [|done].
  specialize (Hop en). destruct (op en) as [b en']. simpl in Hop. intros [= _ <-].
  apply (booked_pending _ _ _ _ en); [done|rewrite Hop; auto..].
Qed.

(** A polled lookup moves on. *)
Lemma booked_set_phase F N f ph :
  F f → always (booked F N) (fetch_set_phase (T:=T) (P:=P) (C:=C) f ph).
Proof.
  intros HF w u w'. unfold fetch_set_phase, with_fetch.
  destruct (w_fetches w !! f) as [pf|] eqn:Hf; [|done]. intros [= _ <-] [T1 T2 T3].
  assert (Hlk : ∀ g pf', <[f:=pf_set_phase ph pf]> (w_fetches w) !! g = Some pf' →
    (g = f ∧ pf' = pf_set_phase ph pf) ∨ (g ≠ f ∧ w_fetches w !! g = Some pf')).
  { intros g pf' [[<- <-]|[? ?]]%lookup_insert_Some; auto. }
  split; [split|done|..]; simpl.
  - intros g. rewrite lookup_insert_is_Some. intros [<-|[_ ?]]; [apply T1; eauto|by apply T1].
  - done.
  - intros e g Ho. destruct (decide (g = f)) as [->|Hne].
    + rewrite lookup_insert_eq. eexists. split; [done|]. destruct (T3 _ _ Ho) as (pf0 & ? & ?).
      by simplify_eq.
    + rewrite lookup_insert_ne by done. by apply T3.
  - intros g pf0 Hg. destruct (decide (g = f)) as [->|Hne].
    + rewrite lookup_insert_eq. simplify_eq. eexists. split; [done|]. split; [by split|by left].
    + rewrite lookup_insert_ne by done. exists pf0. split; [done|]. split; [done|by right].
  - intros g. destruct (decide (g = f)) as [->|Hne]; [by left|right]. intros Hty pf' Hg.
    simpl in Hg. rewrite lookup_insert_ne in Hg by done.
    destruct (Hty _ Hg) as [?|(pf0 & ? & ?)]; [by left|right]. exists pf0. simpl.
    by rewrite lookup_insert_ne.
  - intros g. destruct (decide (g = f)) as [->|Hne]; [by left|right].
    intros Hcl e pf' [Ho (pf0 & Hf0 & Hr)] Hg. simpl in Hf0, Hg.
    rewrite lookup_insert_ne in Hf0, Hg by done. apply (Hcl e); [|done]. split; [done|by exists pf0].
  - intros g. destruct (decide (g = f)) as [->|Hne]; [by left|right; right].
    intros (pf0 & ? & ?). exists pf0. simpl. by rewrite lookup_insert_ne.
  - intros e g [Ho (pf0 & Hg & Hr)]. right. split; [done|]. simpl in Hg.
    apply Hlk in Hg as [[-> ->]|[_ ?]]; [by exists pf|by exists pf0].
Qed.

(** A claim is dropped together with its lookup. *)
Lemma booked_abort F N e : always (booked F N) (entry_abort_pending (T:=T) (P:=P) (C:=C) e).
Proof.
  intros w u w' Hrun. unfold entry_abort_pending, pending_fetch_abort, with_entry, with_fetch,
    mbind, M_bind in Hrun. destruct (w_entries w !! e) as [en|] eqn:He; [|done]. simpl in Hrun.
  destruct (pending en) as [f|] eqn:Hp.
  2:{ injection Hrun as _ <-. apply (booked_pending _ _ _ _ en); [done|rewrite Hp; by auto..]. }
  simpl in Hrun. destruct (w_fetches w !! f) as [pf|] eqn:Hf; [|done]. injection Hrun as _ <-.
  intros [T1 T2 T3]. set (w' := set_fetches _ _).
  assert (owns w e f) as Hof by by exists en.
  assert (Hback : ∀ x g, owns w' x g → owns w x g ∧ g ≠ f).
  { intros x g (en0 & He0 & Hg). simpl in He0.
    apply lookup_insert_Some in He0 as [[<- <-]|[Hne He0]]; [done|].
    assert (owns w x g) as Ho by by exists en0. split; [done|]. intros ->.
    destruct (T3 _ _ Ho) as (pf1 & ? & ?), (T3 _ _ Hof) as (pf2 & ? & ?). congruence. }
  assert (Hkeep : ∀ x g, g ≠ f → owns w x g → owns w' x g).
  { intros x g Hne (en0 & He0 & Hg). exists en0. simpl. rewrite lookup_insert_ne; [done|].
    intros ->. congruence. }
  assert (Hlk : ∀ g, g ≠ f → w_fetches w' !! g = w_fetches w !! g).
  { intros g Hne. simpl. by rewrite lookup_insert_ne. }
  assert (w_fetches w' !! f = Some (pf_abort pf)) as Hff by (simpl; by rewrite lookup_insert_eq).
  assert (Hacc' : ∀ g, g ≠ f → accounted w g → accounted w' g).
  { intros g Hne (pf0 & Hg & Hc). exists pf0. rewrite Hlk by done. split; [done|].
    destruct Hc as [?|[?|?]]; auto. }
  split; [split|done|..].
  - intros g. simpl. rewrite lookup_insert_is_Some. intros [<-|[_ ?]]; [apply T1; eauto|by apply T1].
  - intros x. simpl. rewrite lookup_insert_is_Some. intros [<-|[_ ?]]; [apply T2; eauto|by apply T2].
  - intros x g [Ho Hne]%Hback. rewrite Hlk by done. by apply T3.
  - intros g pf0 Hg. destruct (decide (g = f)) as [->|Hne].
    + rewrite Hff. simplify_eq. eexists. split; [done|]. split; [by split|by right].
    + rewrite Hlk by done. exists pf0. split; [done|]. split; [done|by right].
  - intros g. right. intros Hty pf0 Hg. destruct (decide (g = f)) as [->|Hne].
    + right. exists (pf_abort pf). split; [done|by left].
    + rewrite Hlk in Hg by done. destruct (Hty _ Hg) as [?|Hacc]; [by left|right; by apply Hacc'].
  - intros g. right. intros Hcl x pf0 [[Ho Hne]%Hback (pf1 & Hf1 & Hr)] Hg.
    rewrite Hlk in Hf1, Hg by done. apply (Hcl x); [|done]. split; [done|by exists pf1].
  - intros g. right. right. intros Hacc. destruct (decide (g = f)) as [->|Hne]; [|by apply Hacc'].
    exists (pf_abort pf). split; [done|by left].
  - intros x g [[Ho Hne]%Hback (pf1 & Hf1 & Hr)]. right. split; [done|]. rewrite Hlk in Hf1 by done.
    by exists pf1.
Qed.

#[export] Instance booked_routine F N : Routine (booked F N).
Proof.
  split; [apply _|..].
  - intros w w' []. by apply booked_same.
  - intros e now. unfold entry_current_at. apply always_bind; [apply _| |].
    + intros w a w' [= _ <-]. apply booked_same; simpl; try done. lia.
    + intros fresh. apply booked_with_entry. intros en.
      destruct (is_expired_at en (sn_word (current en)) now) eqn:Hx.
      * by destruct (current_at_expired en now fresh Hx) as (sn & -> & _).
      * by rewrite current_at_fresh.
  - intros e. unfold entry_invalidate. apply always_bind; [apply _| |].
    + intros w a w' [= _ <-]. apply booked_same; simpl; try done. lia.
    + intros fresh. apply always_bind; [apply _| |intros _; apply booked_abort].
      by apply booked_with_entry.
Qed.

(** ** New lookups *)

(** A refresh is allocated before it is claimed. *)
Lemma booked_new_refresh F N e s delay cur :
  always (booked F N) (new_fetch_after (T:=T) (P:=P) (C:=C) e s delay (Some cur)).
Proof.
  intros w f w' Hrun. injection Hrun as <- <-. intros [T1 T2 T3].
  set (f := w_next w). set (pf := mkFetch e s delay (Some cur) false FetchPhase.Start).
  assert (Hnone : w_fetches w !! f = None).
  { destruct (w_fetches w !! f) eqn:Hf; [|done]. specialize (T1 f ltac:(eauto)). subst f. lia. }
  assert (Hno : ∀ x, ¬ owns w x f).
  { intros x Ho. destruct (T3 _ _ Ho) as (? & ? & _). congruence. }
  set (w' := set_fetches _ _).
  assert (Hlk : ∀ g, g ≠ f → w_fetches w' !! g = w_fetches w !! g).
  { intros g Hne. simpl. by rewrite lookup_insert_ne. }
  assert (Hold : ∀ x g, owns w' x g → g ≠ f) by (intros x g Ho ->; by apply (Hno x)).
  assert (Hacc : ∀ g, accounted w g → accounted w' g).
  { intros g (pf0 & Hg & Hc). exists pf0. rewrite Hlk; [done|congruence]. }
  split; [split|done|..].
  - intros g. simpl. rewrite lookup_insert_is_Some.
    intros [<-|[_ Hg%T1]]; [subst f; lia|lia].
  - intros x Hx%T2. simpl. lia.
  - intros x g Ho. rewrite Hlk; [by apply T3|by eapply Hold].
  - intros g pf0 Hg. exists pf0. rewrite Hlk by congruence. split; [done|]. split; [done|by right].
  - intros g. right. intros Hty pf0 Hg. destruct (decide (g = f)) as [->|Hne].
    + simpl in Hg. rewrite lookup_insert_eq in Hg. injection Hg as <-. left. by split.
    + rewrite Hlk in Hg by done. destruct (Hty _ Hg); auto.
  - intros g. right. intros Hcl x pf0 [Ho (pf1 & Hf1 & Hr)] Hg.
    rewrite Hlk in Hf1, Hg by by eapply Hold. apply (Hcl x); [|done]. split; [done|by exists pf1].
  - auto.
  - intros x g [Ho (pf1 & Hf1 & Hr)]. right. split; [done|]. rewrite Hlk in Hf1 by by eapply Hold.
    by exists pf1.
Qed.

#[export] Instance owns_dec w e f : Decision (owns w e f).
Proof.
  destruct (w_entries w !! e) as [en|] eqn:He.
  - destruct (decide (pending en = Some f)) as [Hp|Hp]; [left; by exists en|right].
    intros (en' & He' & Hp'). congruence.
  - right. intros (en' & He' & _). congruence.
Defined.

(** A first lookup, or its delayed retry, becomes the one its entry waits for. *)
Lemma booked_first F N w w' e f s delay en :
  w_entries w' = <[e := en]> (w_entries w) → pending en = Some f →
  w_fetches w' = <[f := mkFetch e s delay None false FetchPhase.Start]> (w_fetches w) →
  w_refresh_queue w' = w_refresh_queue w →
  (w_next w ≤ f < w_next w')%positive →
  (taken w → (e < w_next w')%positive ∧ ∀ g, owns w e g → F g) → booked F N w w'.
Proof.
  intros He Hp Hf Hq Hn Hown Ht. destruct (Hown Ht) as [Hne Hown']. destruct Ht as [T1 T2 T3].
  assert (Hnone : w_fetches w !! f = None).
  { destruct (w_fetches w !! f) eqn:Hx; [|done]. specialize (T1 f ltac:(eauto)). lia. }
  assert (Hno : ∀ x, ¬ owns w x f).
  { intros x Ho. destruct (T3 _ _ Ho) as (? & ? & _). congruence. }
  assert (Hlk : ∀ g, g ≠ f → w_fetches w' !! g = w_fetches w !! g).
  { intros g Hgf. by rewrite Hf, lookup_insert_ne. }
  assert (Hback : ∀ x g, owns w' x g → (x = e ∧ g = f) ∨ (owns w x g ∧ g ≠ f)).
  { intros x g (en0 & Hx & Hg). rewrite He in Hx.
    apply lookup_insert_Some in Hx as [[<- <-]|[Hx Hx']]; [left; by simplify_eq|right].
    assert (owns w x g) as Ho by by exists en0. split; [done|]. intros ->. by apply (Hno x). }
  assert (Hkeep : ∀ g, F g ∨ ∀ x, owns w x g → owns w' x g).
  { intros g. destruct (decide (owns w e g)) as [Ho|Ho]; [left; by apply Hown'|right].
    intros x (en0 & Hx & Hg). exists en0. rewrite He, lookup_insert_ne; [done|].
    intros ->. apply Ho. by exists en0. }
  assert (Hacc : accounted w' f).
  { eexists. rewrite Hf, lookup_insert_eq. split; [done|]. right. right. exists en.
    by rewrite He, lookup_insert_eq. }
  assert (Hacc' : ∀ g, g ≠ f → (∀ x, owns w x g → owns w' x g) → accounted w g → accounted w' g).
  { intros g Hgf Ho (pf & Hg & Hc). exists pf. rewrite Hlk by done. split; [done|].
    destruct Hc as [?|[?|?]]; auto. }
  assert (Hclaim : ∀ x g, refresh_claim w' x g → refresh_claim w x g ∧ g ≠ f).
  { intros x g [Ho (pf & Hg & Hr)]. destruct (Hback _ _ Ho) as [[-> ->]|[Ho' Hgf]].
    - rewrite Hf, lookup_insert_eq in Hg. injection Hg as <-. by destruct Hr.
    - rewrite Hlk in Hg by done. split; [|done]. split; [done|by exists pf]. }
  split; [split|done|..].
  - intros g. rewrite Hf, lookup_insert_is_Some. intros [<-|[_ Hg%T1]]; lia.
  - intros x. rewrite He, lookup_insert_is_Some. intros [<-|[_ Hx%T2]]; lia.
  - intros x g [[-> ->]|[Ho Hgf]]%Hback; [|rewrite Hlk by done; by apply T3].
    eexists. by rewrite Hf, lookup_insert_eq.
  - intros g pf Hg. exists pf. rewrite Hlk by congruence. split; [done|]. split; [done|by right].
  - intros g. destruct (Hkeep g) as [?|Ho]; [by left|right]. intros Hty pf Hg.
    destruct (decide (g = f)) as [->|Hgf]; [by right|]. rewrite Hlk in Hg by done.
    destruct (Hty _ Hg); auto.
  - intros g. right. intros Hcl x pf [Hc Hgf]%Hclaim Hg. rewrite Hlk in Hg by done. by apply (Hcl x).
  - intros g. destruct (Hkeep g) as [?|Ho]; [by left|right; right]. intros Hg.
    apply Hacc'; [|done|done]. intros ->. destruct Hg as (pf & ? & _). congruence.
  - intros x g [Hc _]%Hclaim. by right.
Qed.

Lemma booked_create F N s now :
  always (booked F N) (create_pending_entry (T:=T) (P:=P) (C:=C) s now).
Proof.
  intros w e w' Hrun. injection Hrun as <- <-.
  eapply (booked_first _ _ _ _ (w_next w) (Pos.succ (w_next w)) s None); try done; simpl; try lia.
  intros [_ T2 _]. split; [lia|]. intros g (en & He & _).
  specialize (T2 (w_next w) ltac:(eauto)). lia.
Qed.

(** *** Claims of the method's own lookup *)

Lemma replace_pending_run w e f p r w' :
  entry_replace_pending e f p w = Some (r, w') →
  ∃ en, w_entries w !! e = Some en ∧
    w' = (if decide (pending en = Some f)
          then set_entries (<[e := set_pending p en]> (w_entries w)) w else w).
Proof.
  intros (g & w1 & Hg & Hrun)%run_bind. apply run_bind in Hg as (q & w2 & Hq & Hg).
  injection Hg as <- <-. apply run_bind in Hq as (en & w3 & Hen & Hq). injection Hq as <- <-.
  unfold load_entry, expect in Hen. destruct (w_entries w !! e) as [en0|] eqn:He; [|done].
  injection Hen as <- <-. exists en0. split; [done|]. destruct (pending en0) as [g|] eqn:Hp.
  - case_bool_decide as Hgf.
    + subst g. unfold with_entry in Hrun. rewrite He, Hp, bool_decide_eq_true_2 in Hrun by done.
      injection Hrun as _ <-. by rewrite decide_True.
    + injection Hrun as _ <-. rewrite decide_False; [done|]. congruence.
  - injection Hrun as _ <-. by rewrite decide_False.
Qed.

(** The lookup being polled is not the one the entry waits for any more. *)
Lemma booked_drop_claim F N e f :
  F f → always (booked F N) (entry_replace_pending (T:=T) (P:=P) (C:=C) e f None).
Proof.
  intros HF w r w' (en & He & ->)%replace_pending_run. case_decide as Hp; [|reflexivity].
  apply (booked_pending _ _ _ _ en); [done| |done]. intros g Hg. right. left. congruence.
Qed.

(** A refresh that was not sent is given up. *)
Lemma release_booked F N w e f u w' :
  N e f → unsent_at w f → release_claim e f w = Some (u, w') → booked F N w w'.
Proof.
  intros HN (pf & Hf & Hun) (r & w1 & Hr & Hrun)%run_bind. injection Hrun as _ <-.
  apply replace_pending_run in Hr as (en & He & ->). case_decide as Hp; [|reflexivity].
  apply (booked_pending _ _ _ _ en); [done| |done]. intros g Hg. right. right.
  assert (g = f) as -> by congruence. split; [done|]. intros. by simplify_eq.
Qed.

Lemma release_disowns w e f u w' x :
  taken w → release_claim e f w = Some (u, w') → (∀ pf, w_fetches w !! f = Some pf → pf_entry pf = e) →
  ¬ owns w' x f.
Proof.
  intros Ht (r & w1 & Hr & Hrun)%run_bind. injection Hrun as _ <-.
  apply replace_pending_run in Hr as (en & He & ->). intros Hpf.
  assert (Hne : x ≠ e → ¬ owns w x f).
  { intros Hx Ho. destruct (tk_owns _ Ht _ _ Ho) as (pf & Hf & Hpe). by rewrite (Hpf _ Hf) in Hpe. }
  case_decide as Hp.
  - intros (en0 & He0 & Hp0). simpl in He0.
    apply lookup_insert_Some in He0 as [[_ <-]|[Hx He0]]; [done|]. apply Hne; [done|by exists en0].
  - intros Ho. destruct (decide (x = e)) as [->|Hx]; [|by apply Hne].
    destruct Ho as (en0 & He0 & Hp0). congruence.
Qed.
End claims.

Create HintDb books discriminated.
#[export] Hint Resolve booked_abort booked_new_refresh booked_create : books.

(** Follow the structure of the method. *)
Ltac booked :=
  intros; cbv zeta;
  repeat first
    [ progress intros
    | solve [eauto with books closed nocore]
    | apply always_bind; [apply _|..]
    | progress cbn iota beta zeta
    | case_match ].

Section methods.
Context {T P C : Type} `{Countable T, !LruCache T SubjectSlot C, TimeDriver}.
Abbreviation G := (M (World T P C)).
Implicit Types (w : World T P C) (e f g : positive) (s : T) (pf : PendingFetch T P).
Implicit Types (F : positive → Prop) (N : positive → positive → Prop).
Abbreviation booking F N m := (always (booked F N) (m : G _)).

(** ** Methods that take no claim of a refresh *)

Lemma booked_compare_exchange F N e st sn : booking F N (entry_compare_exchange e st sn).
Proof.
  apply booked_with_entry. intros en. rewrite compare_exchange_eq'. simpl. by case_bool_decide.
Qed.
Lemma booked_swap_current F N e old next : booking F N (entry_swap_current e old next).
Proof.
  apply booked_with_entry. intros en. rewrite swap_current_eq'. simpl. by case_bool_decide.
Qed.
Hint Resolve booked_compare_exchange booked_swap_current : books.

Lemma booked_change_loop F N fuel e d : booking F N (apply_change_loop fuel e d).
Proof. induction fuel as [|fuel IH]; simpl; booked. Qed.
Hint Resolve booked_change_loop : books.
Lemma booked_apply_change F N (c : DecisionChange T) : booking F N (apply_change c).
Proof. unfold apply_change. booked. Qed.
Lemma booked_modify F N (h : World T P C → World T P C) :
  (∀ w, w_entries (h w) = w_entries w ∧ w_fetches (h w) = w_fetches w ∧
    w_refresh_queue (h w) = w_refresh_queue w ∧ w_next (h w) = w_next w) →
  booking F N (modify h).
Proof.
  intros Hh w u w' [= _ <-]. destruct (Hh w) as (? & ? & ? & Hn).
  apply booked_same; try done. rewrite Hn. lia.
Qed.
Lemma booked_publish_empty F N m : booking F N m → booking F N (publish_empty m).
Proof. intros Hm. unfold publish_empty. booked. by apply booked_modify. Qed.
Lemma booked_mark_disconnected F N : booking F N mark_disconnected.
Proof. unfold mark_disconnected. booked; by apply booked_modify. Qed.
Hint Resolve booked_publish_empty booked_mark_disconnected : books.
Lemma booked_watch_connected F N : booking F N watch_connected.
Proof. unfold watch_connected. booked. by apply booked_modify. Qed.
Lemma booked_watch_stable F N : booking F N watch_stable.
Proof. by apply booked_modify. Qed.
Lemma booked_watch_disconnected F N : booking F N watch_disconnected.
Proof.
  unfold watch_disconnected. apply always_bind; [apply _| |booked].
  apply booked_publish_empty. booked. by apply booked_modify.
Qed.

(** ** One poll of a lookup *)

Lemma booked_take_stale F N e f c : booking F N (take_stale e f c).
Proof. unfold take_stale. booked. Qed.
Hint Resolve booked_take_stale : books.
Lemma booked_transient F N s e f : booking F N (apply_transient_failure s e f).
Proof. unfold apply_transient_failure. booked. Qed.

Lemma booked_apply_refresh F N e f now cur r :
  F f → booking F N (apply_refresh_result e f now cur r).
Proof.
  intros HF. pose proof (booked_drop_claim (T:=T) (P:=P) (C:=C) F N e f HF). unfold apply_refresh_result. booked.
  by apply booked_with_entry.
Qed.

(** Every entry waits for what it waited for. *)
Definition still_owned w w' : Prop := ∀ e f, owns w e f → owns w' e f.

#[local] Instance still_owned_preorder : PreOrder still_owned.
Proof. split; [by intros w e f|]. intros w1 w2 w3 H12 H23 e f Ho. by apply H23, H12. Qed.

Lemma still_owned_state_at e now : always still_owned (entry_state_at e now : G _).
Proof.
  unfold entry_state_at, entry_current_at. apply always_bind; [apply _| |intros; by apply always_ret, _].
  apply always_bind; [apply _|by intros w a w' [= _ <-] x g|]. intros fresh w a w'. unfold with_entry.
  destruct (w_entries w !! e) as [en|] eqn:He; [|done].
  assert (pending (current_at en now fresh).2 = pending en) as Hp.
  { destruct (is_expired_at en (sn_word (current en)) now) eqn:Hx.
    - by destruct (current_at_expired en now fresh Hx) as (sn & -> & _).
    - by rewrite current_at_fresh. }
  destruct (current_at en now fresh) as [b en']. simpl in Hp. intros [= _ <-] x g (en0 & Hx & Hg).
  destruct (decide (x = e)) as [->|Hne].
  - exists en'. simpl. rewrite lookup_insert_eq. split; [done|]. congruence.
  - exists en0. simpl. by rewrite lookup_insert_ne.
Qed.

Lemma permanent_booked F N s e f w u w' :
  F f → owns w e f → apply_permanent_failure s e f w = Some (u, w') → booked F N w w'.
Proof.
  intros HF Ho (now & w1 & Hnow & Hrun)%run_bind.
  apply run_bind in Hrun as (st & w2 & Hst & Hrun).
  transitivity w2.
  { transitivity w1; [by eapply (closed_now (booked F N))|by eapply (closed_state_at (booked F N))]. }
  assert (owns w2 e f) as (en & He & Hp).
  { eapply still_owned_state_at; [exact Hst|]. by injection Hnow as _ <-. }
  case_bool_decide; [|by injection Hrun as _ <-].
  apply run_bind in Hrun as (c & w2' & Hc & Hrun). injection Hc as <- <-.
  apply run_bind in Hrun as (f' & w3 & Hf & Hrun). injection Hf as <- <-.
  apply run_bind in Hrun as (r & w4 & Hr & Hrun). injection Hrun as _ <-.
  apply replace_pending_run in Hr as (en0 & He0 & ->). simpl in He0. simplify_eq.
  rewrite decide_True by done.
  eapply (booked_first _ _ _ _ e (w_next w2) s (Some _)); try done; simpl; [lia|].
  intros [_ T2 _]. specialize (T2 e ltac:(eauto)). split; [lia|].
  intros g (en1 & He1 & Hg). by simplify_eq.
Qed.

Lemma prepare_booked F N e r : booking F N (prepare e r).
Proof. unfold prepare. booked. Qed.

Lemma apply_fetch_booked F N s e f from r w x w' :
  F f → apply_fetch_result s e f from r w = Some (x, w') → booked F N w w'.
Proof.
  intros HF. rewrite apply_fetch_parts. intros (g & w1 & Hg & Hrun)%run_bind.
  apply pending_generation_run in Hg as [-> Hg]. destruct g as [g|]; [|by injection Hrun as _ <-].
  specialize (Hg ltac:(by eexists)).
  apply run_bind in Hrun as (rs & w1 & Hrs & Hrun).
  apply run_bind in Hrun as (now & w2 & Hnow & Hrun).
  apply run_bind in Hrun as (en & w3 & Hen & Hrun).
  assert (w_entries w1 = w_entries w) as He1.
  { destruct r as [d|]; [|by injection Hrs as _ <-].
    apply run_bind in Hrs as (sn & w4 & Hsn & Hrs). injection Hrs as _ <-.
    unfold decision_snapshot in Hsn. apply run_bind in Hsn as (n & w5 & Hn & Hsn).
    injection Hn as _ <-. apply run_bind in Hsn as (en' & w5 & He & Hsn).
    unfold load_entry, expect in He. destruct (_ !! e); [|done]. injection He as _ <-.
    by injection Hsn as _ <-. }
  assert (Hpre : booked F N w w3).
  { transitivity w1; [by eapply prepare_booked|].
    transitivity w2; [by eapply (closed_now (booked F N))|by eapply (closed_load (booked F N))]. }
  assert (owns w3 e f) as Ho.
  { unfold load_entry, expect in Hen. destruct (_ !! e); [|done]. injection Hen as _ <-.
    injection Hnow as _ <-. unfold owns. simpl. by rewrite He1. }
  transitivity w3; [done|]. unfold publish in Hrun. destruct from as [cur|].
  { by eapply booked_apply_refresh. }
  destruct (still_valid en now rs) as [sn|err].
  - refine ((_ : booking F N _) _ _ _ Hrun).
    pose proof (booked_drop_claim (T:=T) (P:=P) (C:=C) F N e f HF). booked.
  - apply run_bind in Hrun as (u & w4 & Hu & Hrun). injection Hrun as _ <-.
    destruct (is_permanent_status err); [by eapply permanent_booked|by eapply booked_transient].
Qed.

Lemma booked_finish F N f pf alive r : F f → booking F N (fetch_finish f pf alive r).
Proof.
  intros HF. pose proof (λ ph, booked_set_phase (T:=T) (P:=P) (C:=C) F N f ph HF).
  unfold fetch_finish. apply always_bind; [apply _| |booked].
  destruct alive; [|booked]. intros w x w'. by apply apply_fetch_booked.
Qed.

Lemma booked_fetch_poll F N f answer alive : F f → booking F N (fetch_poll f answer alive).
Proof.
  intros HF. pose proof (λ ph, booked_set_phase (T:=T) (P:=P) (C:=C) F N f ph HF) as Hph.
  pose proof (λ pf r, booked_finish F N f pf alive r HF) as Hfin.
  assert (Hlook : ∀ pf first d, booking F N (fetch_poll_lookup f pf first d answer alive)).
  { unfold fetch_poll_lookup. booked. }
  assert (Hbegin : ∀ pf, booking F N (fetch_begin_lookup f pf answer alive)).
  { unfold fetch_begin_lookup. booked. }
  assert (Hdelay : ∀ pf d, booking F N (fetch_poll_delay f pf d answer alive)).
  { unfold fetch_poll_delay. booked. }
  unfold fetch_poll. booked.
Qed.
End methods.

#[export] Hint Resolve booked_compare_exchange booked_swap_current booked_apply_change
  booked_watch_connected booked_watch_stable booked_watch_disconnected : books.

(** ** What a poll leaves of the lookup itself *)

Section polled.
Context {T P C : Type} `{Countable T, !LruCache T SubjectSlot C, !LruCacheOk T SubjectSlot C, TimeDriver}.
Implicit Types (w : World T P C) (e f g : positive) (s : T) (pf : PendingFetch T P).

(** An answered refresh has no claim left; one that is not answered yet was only
    moved on. *)
Definition polled_post w f (r : Poll.t (result FetchResult unit)) w' : Prop :=
  match r with
  | Poll.Ready x => phase_is w' f (FetchPhase.Done x) ∧ (refresh_at w f → ∀ e, ¬ refresh_claim w' e f)
  | Poll.Pending => w_entries w' = w_entries w ∧
      ∃ pf ph, w_fetches w !! f = Some pf ∧ w_fetches w' !! f = Some (pf_set_phase ph pf) ∧
        ∀ x, ph ≠ FetchPhase.Done x
  end.

Lemma polled_post_core w w1 f r w' : same_core w w1 → polled_post w1 f r w' → polled_post w f r w'.
Proof.
  intros Hc. unfold polled_post, refresh_at. destruct r; by rewrite ?(sc_entries _ _ Hc), (sc_fetches _ _ Hc).
Qed.

Lemma set_phase_post w f ph u w' pf :
  w_fetches w !! f = Some pf → fetch_set_phase f ph w = Some (u, w') →
  w_entries w' = w_entries w ∧ w_fetches w' !! f = Some (pf_set_phase ph pf).
Proof.
  intros Hf. unfold fetch_set_phase, with_fetch. rewrite Hf. intros [= _ <-]. simpl.
  by rewrite lookup_insert_eq.
Qed.

Lemma finish_post w f pf r x w' :
  wf w → w_fetches w !! f = Some pf → fetch_finish f pf true r w = Some (x, w') →
  polled_post w f x w'.
Proof.
  intros Hwf Hf Hrun. pose proof (resumable_now _ _ _ Hwf Hf) as Hres.
  destruct (run_from_run _ _ _ _ _ _ (fetch_finish_from w w f pf true r Hwf (reflexivity w) Hres) Hrun)
    as (Hwf' & Ev & _ & Hkept).
  apply run_bind in Hrun as (final & w1 & Hfin & Hrun). destruct Hres as (_ & Ht & Hr).
  destruct (run_from_run _ _ _ _ _ _ (apply_fetch_result_from w w (pf_subject pf) (pf_entry pf) f
    (pf_refresh_from pf) r Hwf (reflexivity w) Ht Hr) Hfin) as (_ & _ & _ & Hlost & Hown).
  apply run_bind in Hrun as (u1 & w2 & Hm1 & Hrun). apply run_bind in Hrun as (u2 & w3 & Hm2 & Hrun).
  apply run_bind in Hrun as (u3 & w4 & Hph & Hrun). injection Hrun as <- <-.
  split; [exact Hkept|]. intros (pf0 & Hf0 & [cur Hcur]) e [Ho _]. simplify_eq. rewrite Hcur in Hown.
  assert (e = pf_entry pf) as ->.
  { destruct (tk_owns _ (wf_taken _ Hwf') _ _ Ho) as (pf' & Hf' & <-).
    destruct (ev_fetches _ _ Ev _ _ Hf) as (pf'' & Hf'' & []). congruence. }
  assert (w_entries w4 = w_entries w1) as He.
  { assert (w_entries w2 = w_entries w1) as <-.
    { destruct final as [|err]; [by injection Hm1 as _ <-|].
      destruct (is_wire err); by injection Hm1 as _ <-. }
    assert (w_entries w3 = w_entries w2) as <- by (destruct (is_ok final); by injection Hm2 as _ <-).
    unfold fetch_set_phase, with_fetch in Hph. destruct (w_fetches w3 !! f); [|done]. by injection Hph as _ <-. }
  assert (owns w1 (pf_entry pf) f) as (en & He1 & Hp) by (unfold owns in *; by rewrite <-He).
  destruct (decide (owns w (pf_entry pf) f)) as [Ho'|Ho'].
  - destruct Ho' as (en0 & He0 & Hp0).
    destruct (Hown ltac:(by exists en0) en0 He0) as (en' & He' & Hp' & _). congruence.
  - destruct (Hlost Ho') as [-> _]. apply Ho'. by exists en.
Qed.

Lemma poll_lookup_post w f pf first d answer x w' :
  wf w → w_fetches w !! f = Some pf → fetch_poll_lookup f pf first d answer true w = Some (x, w') →
  polled_post w f x w'.
Proof.
  intros Hwf Hf (now & w1 & Hnow & Hrun)%run_bind. injection Hnow as <- <-.
  set (w1 := set_reads _ w) in Hrun.
  assert (same_core w w1) as Hc by (split; simpl; try done; lia).
  apply (polled_post_core w w1); [done|]. pose proof (wf_same_core _ _ Hc Hwf) as Hwf1.
  destruct (timeout_poll _ _ _ _) as [r|].
  - apply run_bind in Hrun as (r' & w2 & Hr & Hrun).
    destruct (run_from_run _ _ _ _ _ _ (lookup_result_from w1 w1 r Hwf1 (reflexivity w1)) Hr)
      as (Hwf2 & _ & Hc2 & _).
    apply (polled_post_core w1 w2); [done|]. apply (finish_post w2 f pf r'); [done| |done].
    by rewrite (sc_fetches _ _ Hc2).
  - apply run_bind in Hrun as (u & w2 & Hu & Hrun). injection Hrun as <- <-.
    destruct (set_phase_post w1 f _ _ _ pf Hf Hu) as [He Hf2]. split; [done|]. by eexists _, _.
Qed.

Lemma begin_lookup_post w f pf answer x w' :
  wf w → w_fetches w !! f = Some pf → fetch_begin_lookup f pf answer true w = Some (x, w') →
  polled_post w f x w'.
Proof.
  intros Hwf Hf (u & w1 & Hu & Hrun)%run_bind. injection Hu as _ <-.
  apply run_bind in Hrun as (now & w2 & Hnow & Hrun). injection Hnow as <- <-.
  apply run_bind in Hrun as (limit & w3 & Hl & Hrun). injection Hl as <- <-.
  set (w2 := set_reads _ _) in Hrun. assert (same_core w w2) as Hc by (split; simpl; try done; lia).
  apply (polled_post_core w w2); [done|].
  eapply poll_lookup_post; [by apply (wf_same_core w)|done|exact Hrun].
Qed.

Lemma poll_delay_post w f pf d answer x w' :
  wf w → w_fetches w !! f = Some pf → fetch_poll_delay f pf d answer true w = Some (x, w') →
  polled_post w f x w'.
Proof.
  intros Hwf Hf (now & w1 & Hnow & Hrun)%run_bind. injection Hnow as <- <-.
  set (w1 := set_reads _ w) in Hrun.
  assert (same_core w w1) as Hc by (split; simpl; try done; lia).
  apply (polled_post_core w w1); [done|]. pose proof (wf_same_core _ _ Hc Hwf) as Hwf1.
  destruct (sleep_poll _ _); [by eapply begin_lookup_post|].
  apply run_bind in Hrun as (u & w2 & Hu & Hrun). injection Hrun as <- <-.
  destruct (set_phase_post w1 f _ _ _ pf Hf Hu) as [He Hf2]. split; [done|]. by eexists _, _.
Qed.

Lemma fetch_poll_post w f answer x w' :
  wf w → clean_at w f → fetch_poll f answer true w = Some (x, w') → polled_post w f x w'.
Proof.
  intros Hwf Hcl (pf & w1 & Hpf & Hrun)%run_bind. unfold expect in Hpf.
  destruct (w_fetches w !! f) as [pf0|] eqn:Hf; [|done]. injection Hpf as -> <-.
  destruct (pf_phase pf) as [|d|first d|r] eqn:Hph.
  4:{ injection Hrun as <- <-. split; [by exists pf|]. intros _ e Hc.
      destruct (Hcl _ _ Hc Hf) as [_ Hnf]. apply Hnf. by exists r. }
  all: destruct (pf_aborted pf) eqn:Hab.
  1,3,5: apply run_bind in Hrun as (u & w2 & Hu & Hrun); injection Hrun as <- <-;
    destruct (set_phase_post w f _ _ _ pf Hf Hu) as [He Hf2]; split; [by eexists|];
    intros _ e [Ho (pf' & Hf' & Hr)]; rewrite Hf2 in Hf'; injection Hf' as <-;
    destruct (Hcl e pf) as [? _]; [|done|congruence];
    split; [unfold owns in *; by rewrite <-He|by exists pf].
  - destruct (pf_delay pf) as [delay|]; [|by eapply begin_lookup_post].
    apply run_bind in Hrun as (now & w2 & Hnow & Hrun). injection Hnow as <- <-.
    set (w2 := set_reads _ w) in Hrun.
    assert (same_core w w2) as Hc by (split; simpl; try done; lia).
    apply (polled_post_core w w2); [done|].
    eapply poll_delay_post; [by apply (wf_same_core w)|done|exact Hrun].
  - by eapply poll_delay_post.
  - by eapply poll_lookup_post.
Qed.

(** So the lookup stays accounted for, and its claim lives no longer than it. *)
Lemma fetch_poll_keeps w f answer x w' :
  wf w → accounted w f → clean_at w f → fetch_poll f answer true w = Some (x, w') →
  accounted w' f ∧ clean_at w' f ∧
  (∀ r, x = Poll.Ready r → refresh_at w f → ∀ e, ¬ refresh_claim w' e f).
Proof.
  intros Hwf (pf & Hf & Hacc) Hcl Hrun. pose proof (fetch_poll_post _ _ _ _ _ Hwf Hcl Hrun) as Hp.
  destruct (run_from_run _ _ _ _ _ _ (fetch_poll_from w w f answer true Hwf (reflexivity w)
    ltac:(by exists pf)) Hrun) as (_ & Ev & _).
  destruct x as [r|]; simpl in Hp.
  - destruct Hp as [(pf' & Hf' & Hph) Hno]. split_and!.
    + exists pf'. split; [done|]. right. left. by exists r.
    + intros e pf0 Hc Hf0. exfalso. apply (Hno) with e; [|done].
      destruct Hc as [_ (pf1 & Hf1 & Hr1)], (ev_fetches _ _ Ev _ _ Hf) as (pf2 & Hf2 & Hfe).
      exists pf. split; [done|]. rewrite <-(fe_refresh _ _ Hfe). congruence.
    + by intros r' [= <-].
  - destruct Hp as (He & pf0 & ph & Hf0 & Hf' & Hnd). simplify_eq.
    assert (Ho : ∀ e, owns w' e f ↔ owns w e f) by (intros e; unfold owns; by rewrite He).
    assert (Hun : ∀ r, pf_phase pf ≠ FetchPhase.Done r) .
    { intros r Hd. revert Hrun. unfold fetch_poll, mbind, M_bind, expect. rewrite Hf, Hd. by intros [= ]. }
    split_and!; [|..|done].
    + exists (pf_set_phase ph pf). split; [done|]. simpl.
      destruct Hacc as [?|[[r Hd]|?]]; [by left|by destruct (Hun r)|right; right; by apply Ho].
    + intros e pf1 [Ho'%Ho (pf2 & Hf2 & Hr2)] Hf1. rewrite Hf' in Hf1, Hf2. simplify_eq. simpl.
      split; [|by intros [r Hd]; apply (Hnd r)].
      apply (Hcl e); [|done]. split; [done|by exists pf].
Qed.
End polled.
