(* ===== verification/Guards.v ===== *)
(** * Guards: who holds the claim of a refresh

    [admission_on_access] claims a refresh and suspends with a guard until the
    refresh queue takes it.  [moves] says what a step of the program does to the
    lookups under way, whoever makes it: the ledger stays in order, and the only
    claim a step adds is the one of the guard it returns. *)

From S2P Require Export Claims.

Section guards.
Context {T P C : Type} `{Countable T, !LruCache T SubjectSlot C, TimeDriver}.
Abbreviation G := (M (World T P C)).
Implicit Types (w : World T P C) (e f g : positive) (s : T) (pf : PendingFetch T P).
Implicit Types (F : positive → Prop) (N : positive → positive → Prop) (st : AdmitState).

(** Every lookup under way is claimed, and every claimed refresh is under way. *)
Definition ledger w : Prop := ∀ f, tidy_at w f ∧ clean_at w f.

Record moves F N w w' : Prop := {
  mv_ledger : ledger w';
  mv_queue : w_refresh_queue w' = w_refresh_queue w;
  mv_fetch f pf : w_fetches w !! f = Some pf →
    ∃ pf', w_fetches w' !! f = Some pf' ∧ fetch_evolves pf pf' ∧
      (F f ∨ pf_phase pf' = pf_phase pf);
  mv_accounted f : accounted w f → (∃ e, N e f) ∨ accounted w' f;
  mv_claims e f : refresh_claim w' e f → N e f ∨ refresh_claim w e f;
}.

Lemma moves_refl F N w : ledger w → moves F N w w.
Proof.
  intros Hl. split; auto. intros f pf Hf. exists pf. split; [done|]. split; [done|by right].
Qed.

Lemma moves_trans F N w1 w2 w3 : moves F N w1 w2 → moves F N w2 w3 → moves F N w1 w3.
Proof.
  intros [L2 Q2 F2 A2 C2] [L3 Q3 F3 A3 C3]. split; [done|congruence|..].
  - intros f pf Hf. destruct (F2 _ _ Hf) as (pf2 & Hf2 & E2 & P2).
    destruct (F3 _ _ Hf2) as (pf3 & Hf3 & E3 & P3). exists pf3. split; [done|].
    split; [by transitivity pf2|]. destruct P2, P3; auto. right. congruence.
  - intros f [?|?%A3]%A2; auto.
  - intros e f [?|?%C2]%C3; auto.
Qed.

Lemma moves_weaken F N F' N' w w' :
  (∀ f, F f → F' f) → (∀ e f, N e f → N' e f) → moves F N w w' → moves F' N' w w'.
Proof.
  intros HF HN [L2 Q2 F2 A2 C2]. split; try done.
  - intros f pf Hf. destruct (F2 _ _ Hf) as (pf2 & Hf2 & E2 & [|]); eauto 6.
  - intros f [[e ?]|?]%A2; eauto.
  - intros e f [?|?]%C2; auto.
Qed.

(** The lookups a method polls stay accounted for. *)
Lemma books_moves F N w w' :
  ledger w → books F N w w' → (∀ f, F f → accounted w' f ∧ clean_at w' f) → moves F N w w'.
Proof.
  intros Hl [T2 Q2 F2 Y2 L2 A2 C2] HF. split; try done.
  - intros f. destruct (Hl f) as [Hty Hcl]. split.
    + destruct (Y2 f) as [?|?]; [|auto]. intros pf Hf. right. by apply HF.
    + destruct (L2 f) as [?|?]; [|auto]. by apply HF.
  - intros f Hf. destruct (A2 f) as [?|[?|?]]; auto. right. by apply HF.
Qed.

Lemma quiet_moves {A} N (m : G A) w a w' :
  always (booked nothing_polled N) m → m w = Some (a, w') → ledger w → taken w →
  moves nothing_polled N w w'.
Proof. intros Hm Hr Hl Ht. apply books_moves; [done| |done]. by eapply Hm. Qed.

(** ** Claiming a refresh *)

Definition fresh_guard (r : Access.t) (e f : positive) : Prop :=
  match r with Access.Enqueue e' f' _ => e = e' ∧ f = f' | Access.Done _ => False end.

(** A guard outlives what the others do; whether the claim is still there does
    not matter to it. *)
Definition holding w e f : Prop :=
  ∃ pf, w_fetches w !! f = Some pf ∧ pf_entry pf = e ∧ unsent pf.

(** The guard as it is made: the entry waits for its refresh. *)
Definition guarded w e f : Prop := holding w e f ∧ owns w e f.

Definition issued w (r : Access.t) w' : Prop :=
  books nothing_polled (fresh_guard r) w w' ∧
  match r with
  | Access.Enqueue e f _ => w_fetches w !! f = None ∧ guarded w' e f
  | Access.Done _ => True
  end.

Lemma issued_done w a b w' : issued w (Access.Done a) w' → issued w (Access.Done b) w'.
Proof. by intros [? _]. Qed.

Lemma issued_plain {A} (m : G A) w a w' b :
  always (booked nothing_polled no_claim) m → m w = Some (a, w') → taken w →
  issued w (Access.Done b) w'.
Proof.
  intros Hm Hr Ht. split; [|done]. apply (books_weaken nothing_polled no_claim); [done..|].
  by eapply Hm.
Qed.

Lemma issued_then w w1 r w' :
  books nothing_polled no_claim w w1 → issued w1 r w' → issued w r w'.
Proof.
  intros B1 [B2 Hr]. split.
  - eapply books_trans; [|exact B2]. by apply (books_weaken nothing_polled no_claim).
  - destruct r as [|e f q]; [done|]. destruct Hr as [Hf Hg]. split; [|done].
    destruct (w_fetches w !! f) as [pf|] eqn:Hx; [|done].
    destruct (bk_fetch _ _ _ _ B1 _ _ Hx) as (pf' & Hf' & _). congruence.
Qed.

Lemma claim_pending_run w e f b w' :
  entry_claim_pending e f w = Some (b, w') →
  ∃ en, w_entries w !! e = Some en ∧
    if b then pending en = None ∧
      w' = set_entries (<[e := set_pending (Some f) en]> (w_entries w)) w
    else w' = w.
Proof.
  unfold entry_claim_pending, with_entry. destruct (w_entries w !! e) as [en|] eqn:He; [|done].
  intros Hrun. exists en. split; [done|]. destruct (pending en) eqn:Hp; injection Hrun as <- <-.
  - rewrite insert_id by done. by destruct w.
  - done.
Qed.

(** The refresh of [e] is claimed, and nobody else has seen it. *)
Lemma guarded_stable w w' e f :
  same_core w w' ∨ w_entries w' = w_entries w ∧ w_fetches w' = w_fetches w →
  guarded w e f → guarded w' e f.
Proof.
  intros Hs [(pf & Hf & He & Hun) Ho]. assert (w_entries w' = w_entries w ∧ w_fetches w' = w_fetches w)
    as [Hen Hfe] by by destruct Hs as [[]|].
  split; [|unfold owns in *; by rewrite Hen]. exists pf. by rewrite Hfe.
Qed.

Lemma run_books {A} F N (m : G A) w a w' :
  always (booked F N) m → m w = Some (a, w') → taken w → books F N w w'.
Proof. intros Hm Hr Ht. by eapply Hm. Qed.

(** The claim is given up again: as if it had never been taken. *)
Lemma reclaimed w e f w' :
  taken w → w_fetches w !! f = None →
  books nothing_polled (λ x g, x = e ∧ g = f) w w' → (∀ x, ¬ owns w' x f) →
  books nothing_polled no_claim w w'.
Proof.
  intros Ht Hf [T2 Q2 F2 Y2 L2 A2 C2] Hno. split; try done.
  - intros g. destruct (A2 g) as [?|[[x [-> ->]]|?]]; auto. right. right.
    intros (pf & Hpf & _). congruence.
  - intros x g Hc. destruct (C2 _ _ Hc) as [[-> ->]|?]; [|by right]. by destruct (Hno e), Hc.
Qed.

Lemma claim_issued s e cur q granted w r w' :
  taken w →
  (refresh ← new_fetch_after e s None (Some cur);
   claimed ← entry_claim_pending e refresh;
   if claimed : bool then
     en ← load_entry e;
     valid ← (if bool_decide (sn_ptr (current en) = sn_ptr cur) then
                now ← D_now; mret (refresh_eligible_at en cur now)
              else mret false);
     if valid : bool then mret (Access.Enqueue e refresh q)
     else
       r ← entry_admission e;
       _ ← release_claim e refresh;
       mret (Access.Done r)
   else mret (Access.Done granted)) w = Some (r, w') →
  issued w r w'.
Proof.
  intros Ht (f & w1 & Hf & Hrun)%run_bind.
  pose proof (run_books nothing_polled no_claim _ _ _ _ (booked_new_refresh _ _ _ _ _ _) Hf Ht) as B1.
  injection Hf as <- <-. set (f := w_next w) in *. set (w1 := set_fetches _ _) in *.
  assert (w_fetches w !! f = None) as Hnone.
  { destruct (w_fetches w !! f) eqn:Hf; [|done]. pose proof (tk_fetch _ Ht f ltac:(eauto)). subst f. lia. }
  assert (w_fetches w1 !! f = Some (mkFetch e s None (Some cur) false FetchPhase.Start)) as Hf1
    by (simpl; by rewrite lookup_insert_eq).
  apply run_bind in Hrun as (c & w2 & Hc & Hrun).
  destruct (claim_pending_run _ _ _ _ _ Hc) as (en & He & Hw2). destruct c.
  2:{ injection Hrun as <- <-. subst w2. split; [|done].
      by apply (books_weaken nothing_polled no_claim). }
  destruct Hw2 as [Hp ->]. set (w2 := set_entries _ w1) in *.
  set (N := λ x g, x = e ∧ g = f).
  assert (books nothing_polled N w w2) as B2.
  { eapply books_trans; [by apply (books_weaken nothing_polled no_claim); [..|exact B1]|].
    eapply (booked_pending _ _ _ _ en); [done|by rewrite Hp| |apply B1].
    intros g [= <-]. right. eexists. split; [exact Hf1|]. split; [done|]. right. split; [done|].
    split; [done|]. by intros [? ?]. }
  assert (guarded w2 e f) as Hg2.
  { split; [eexists; split; [exact Hf1|]; split; [done|by split]|].
    exists (set_pending (Some f) en). simpl. by rewrite lookup_insert_eq. }
  apply run_bind in Hrun as (en2 & w3 & Hen & Hrun).
  unfold load_entry, expect in Hen. destruct (w_entries w2 !! e) as [en3|]; [|done].
  injection Hen as -> <-. apply run_bind in Hrun as (valid & w3 & Hv & Hrun).
  assert (books nothing_polled N w2 w3 ∧ guarded w3 e f) as [B3 Hg3].
  { case_bool_decide.
    - apply run_bind in Hv as (now & w4 & Hnow & Hv). injection Hv as _ <-. injection Hnow as _ <-.
      split; [|by apply (guarded_stable w2); [right|]]. apply booked_same; try done. apply B2.
    - injection Hv as _ <-. split; [|done]. apply booked_same; try done. apply B2. }
  pose proof (books_trans _ _ _ _ _ B2 B3) as B.
  destruct valid; [injection Hrun as <- <-; by split|].
  apply run_bind in Hrun as (a & w4 & Ha & Hrun). apply run_bind in Hrun as (u & w5 & Hu & Hrun).
  injection Hrun as <- <-. split; [|done]. apply (books_weaken nothing_polled no_claim); [done..|].
  pose proof (run_books nothing_polled N _ _ _ _ (closed_admission _ _) Ha (bk_taken _ _ _ _ B)) as B4.
  pose proof (books_trans _ _ _ _ _ B B4) as B'. destruct Hg3 as [(pf & Hf3 & Hpe & Hr & Hst) _].
  destruct (bk_fetch _ _ _ _ B4 _ _ Hf3) as (pf4 & Hf4 & Hfe & [[]|Hph]).
  apply (reclaimed w e f); [done|done| |].
  - eapply books_trans; [exact B'|]. eapply (release_booked _ N w4 e f); [done| |exact Hu|apply B'].
    exists pf4. split; [done|]. split; [by rewrite (fe_refresh _ _ Hfe)|congruence].
  - intros x. eapply release_disowns; [apply B'|exact Hu|]. intros pf5 Hf5. simplify_eq. by rewrite (fe_entry _ _ Hfe).
Qed.

Lemma access_begin_issued s e limit w r w' :
  taken w → access_begin s e limit w = Some (r, w') → issued w r w'.
Proof.
  intros Ht (a & w1 & Ha & Hrun)%run_bind.
  pose proof (run_books nothing_polled no_claim _ _ _ _ (closed_admission _ _) Ha Ht) as B1.
  apply (issued_then w w1); [done|]. clear Ha. apply bk_taken in B1 as Ht1. clear B1 Ht.
  assert (Hdone : ∀ w2 b, w_entries w2 = w_entries w1 → w_fetches w2 = w_fetches w1 →
    w_refresh_queue w2 = w_refresh_queue w1 → w_next w2 = w_next w1 → issued w1 (Access.Done b) w2).
  { intros w2 b ? ? ? Hn. split; [|done]. apply booked_same; try done. rewrite Hn. lia. }
  destruct a as [a|]; [|injection Hrun as <- <-; by apply Hdone].
  apply run_bind in Hrun as (cfg & w2 & Hcfg & Hrun). injection Hcfg as <- <-.
  destruct (Duration.is_zero _); [injection Hrun as <- <-; by apply Hdone|].
  apply run_bind in Hrun as (en & w2 & Hen & Hrun). unfold load_entry, expect in Hen.
  destruct (w_entries w1 !! e) as [en1|] eqn:He; [|done]. injection Hen as -> <-.
  apply run_bind in Hrun as (now & w2 & Hnow & Hrun). injection Hnow as _ <-.
  apply run_bind in Hrun as (en' & w3 & Hen' & Hrun). unfold load_entry, expect in Hen'. simpl in Hen'.
  rewrite He in Hen'. injection Hen' as <- <-.
  destruct (refresh_due_at _ _ _); [|injection Hrun as <- <-; by apply Hdone].
  destruct (match Instant.checked_add _ _ with Some _ => _ | None => _ end) as [q|];
    [|injection Hrun as <- <-; by apply Hdone].
  eapply issued_then; [|eapply claim_issued; [|exact Hrun]].
  - by apply booked_same.
  - by apply (booked_same nothing_polled no_claim w1).
Qed.

(** *** Methods that may end with a guard *)

(** [acc] reads the guard off the result of the method. *)
Definition issuing {A} (acc : A → Access.t) (m : G A) : Prop :=
  ∀ w a w', taken w → m w = Some (a, w') → issued w (acc a) w'.

Lemma issuing_bind {A B} (acc : B → Access.t) (m : G A) (k : A → G B) :
  always (booked nothing_polled no_claim) m → (∀ a, issuing acc (k a)) → issuing acc (m ≫= k).
Proof.
  intros Hm Hk w b w' Ht (a & w1 & Ha & Hrun)%run_bind.
  pose proof (run_books _ _ _ _ _ _ Hm Ha Ht) as B1.
  apply (issued_then w w1); [done|]. apply (Hk a); [apply B1|done].
Qed.

Lemma issuing_plain {A} (acc : A → Access.t) (m : G A) :
  always (booked nothing_polled no_claim) m →
  (∀ w a w', m w = Some (a, w') → ∃ b, acc a = Access.Done b) → issuing acc m.
Proof.
  intros Hm Hacc w a w' Ht Hrun. destruct (Hacc _ _ _ Hrun) as [b ->].
  by eapply issued_plain.
Qed.

Lemma issuing_ret {A} (acc : A → Access.t) a b : acc a = Access.Done b → issuing acc (mret a : G A).
Proof. intros Hacc. apply issuing_plain; [booked|]. intros w a' w' [= <- _]. by exists b. Qed.

Lemma issuing_access s e limit : issuing id (access_begin s e limit).
Proof. intros w r w'. apply access_begin_issued. Qed.

Lemma issuing_check_begin s : issuing id (check_begin s).
Proof.
  unfold check_begin. apply issuing_bind; [booked|]. intros snapshot.
  destruct (snapshot !! s) as [e|]; [|by eapply issuing_ret].
  apply issuing_bind; [booked|]. intros now. apply issuing_bind; [booked|]. intros v.
  destruct v; [|by eapply issuing_ret]. do 2 (apply issuing_bind; [booked|]; intros ?).
  apply issuing_access.
Qed.

Lemma issuing_refresh_entry s e : issuing id (refresh_entry_begin s e).
Proof.
  unfold refresh_entry_begin. do 2 (apply issuing_bind; [booked|]; intros ?).
  case_match; [apply issuing_access|by eapply issuing_ret].
Qed.

(** *** The admission loop *)

(** The guard an admission is suspended with. *)
Definition pc_access st : Access.t :=
  match ad_pc st with
  | AdmitPc.Access _ e f q _ => Access.Enqueue e f q
  | _ => Access.Done None
  end.

Lemma issuing_timed_out st : issuing pc_access (admission_timed_out st).
Proof. apply issuing_plain; [booked|]. intros w a w' [= <- _]. by eexists. Qed.

Lemma issuing_goto pc st :
  (∀ b e f q t, pc ≠ AdmitPc.Access b e f q t) → issuing pc_access (mret (goto pc st) : G _).
Proof.
  intros Hpc. eapply issuing_ret. unfold pc_access. simpl.
  destruct pc; try reflexivity. by destruct (Hpc first_poll entry fetch queue_deadline timed_out).
Qed.

Lemma issuing_access_then s e limit t st :
  issuing pc_access (r ← access_begin s e limit; after_access t r st).
Proof.
  intros w st' w' Ht (r & w1 & Hr & Hrun)%run_bind.
  pose proof (access_begin_issued _ _ _ _ _ _ Ht Hr) as Hi.
  destruct r as [[a|]|e' f q]; simpl in Hrun.
  - injection Hrun as <- <-. by eapply issued_done.
  - apply (issued_then w w1); [|].
    + apply (books_weaken nothing_polled (fresh_guard (Access.Done None))); [done..|apply Hi].
    + destruct t; [by eapply issuing_timed_out; [apply Hi|]|].
      injection Hrun as <- <-. split; [|done]. apply booked_same; try done. apply Hi.
  - injection Hrun as <- <-. exact Hi.
Qed.

Lemma issuing_admit_insert s st : issuing pc_access (admit_insert s st).
Proof.
  unfold admit_insert. do 2 (apply issuing_bind; [booked|]; intros ?).
  case_match; [apply issuing_timed_out|]. apply issuing_bind; [booked|]. intros connected.
  destruct connected; simpl.
  2:{ apply issuing_bind; [booked|]. intros _. by apply issuing_goto. }
  do 2 (apply issuing_bind; [booked|]; intros ?). case_match.
  - apply issuing_bind; [booked|]. intros j. apply issuing_goto. by destruct j.
  - apply issuing_bind; [booked|]. intros _. apply issuing_access_then.
  - apply issuing_bind; [booked|]. intros _. apply issuing_access_then.
  - apply issuing_bind; [booked|]. intros _. by apply issuing_goto.
Qed.

Lemma issuing_admit_settle s e r st : issuing pc_access (admit_settle s e r st).
Proof.
  unfold admit_settle. apply issuing_bind; [booked|]. intros connected.
  destruct connected; simpl; [|by apply issuing_goto].
  apply issuing_bind; [booked|]. intros now. apply issuing_bind; [booked|]. intros x.
  assert (Hagain : issuing pc_access
    (if is_ok r then mret (goto (AdmitPc.Connect true) st) else admit_failed r st)).
  { destruct (is_ok r); [by apply issuing_goto|]. unfold admit_failed.
    case_match; [by apply issuing_goto|].
    do 2 (apply issuing_bind; [booked|]; intros ?). by apply issuing_goto. }
  destruct x; [exact Hagain|apply issuing_access_then..|exact Hagain].
Qed.

Lemma issuing_admit_connect b st : issuing pc_access (admit_connect b st).
Proof.
  unfold admit_connect. apply issuing_bind; [unfold connected_or_closed; booked|]. intros r.
  repeat case_match; by (apply issuing_goto || apply issuing_timed_out).
Qed.

Lemma issuing_admit_backoff b wake st : issuing pc_access (admit_backoff b wake st).
Proof.
  unfold admit_backoff. apply issuing_bind; [booked|]. intros r.
  repeat case_match; try by (apply issuing_goto || apply issuing_timed_out).
  apply issuing_bind; [booked|]. intros m. by eapply issuing_ret.
Qed.

(** ** Waiting for the queue *)

(** The claim of [f] on [e] is given up, and nothing else. *)
Definition given_up w e f w' : Prop :=
  books nothing_polled (λ x g, x = e ∧ g = f) w w' ∧ ∀ x, ¬ owns w' x f.

Definition queued (f : positive) w : World T P C := set_refresh_queue (w_refresh_queue w ++ [f]) w.

Lemma holding_release w e f u w' :
  taken w → holding w e f → release_claim e f w = Some (u, w') → given_up w e f w'.
Proof.
  intros Ht (pf & Hf & Hpe & Hun) Hr. split.
  - eapply (release_booked _ _ w e f); [done|by exists pf|exact Hr|done].
  - intros x. eapply release_disowns; [exact Ht|exact Hr|]. intros. by simplify_eq.
Qed.

Lemma holding_kept F N w w' e f :
  moves F N w w' ∨ books F N w w' → ¬ F f → holding w e f → holding w' e f.
Proof.
  intros Hm HF (pf & Hf & <- & Hr & Hs).
  assert (∃ pf', w_fetches w' !! f = Some pf' ∧ fetch_evolves pf pf' ∧
    (F f ∨ pf_phase pf' = pf_phase pf)) as (pf' & Hf' & [] & [?|Hph]); [|done|].
  { destruct Hm as [Hm|Hm]; [by apply (mv_fetch _ _ _ _ Hm)|by apply (bk_fetch _ _ _ _ Hm)]. }
  exists pf'. split; [done|]. split; [done|]. split; congruence.
Qed.

Lemma given_up_then w w1 e f w' :
  books nothing_polled no_claim w w1 → given_up w1 e f w' → given_up w e f w'.
Proof.
  intros B1 [B2 Hno]. split; [|done]. eapply books_trans; [|exact B2].
  by apply (books_weaken nothing_polled no_claim).
Qed.

(** Reading the handle and giving the claim up. *)
Lemma admission_given_up w w1 e f a w2 u w' :
  taken w → holding w e f → books nothing_polled no_claim w w1 →
  entry_admission e w1 = Some (a, w2) → release_claim e f w2 = Some (u, w') → given_up w e f w'.
Proof.
  intros Ht Hh B1 Ha Hu.
  pose proof (run_books nothing_polled no_claim _ _ _ _ (closed_admission _ _) Ha (bk_taken _ _ _ _ B1)) as B2.
  pose proof (books_trans _ _ _ _ _ B1 B2) as B. apply (given_up_then w w2); [done|].
  eapply holding_release; [apply B| |exact Hu].
  apply (holding_kept nothing_polled no_claim w); [by right|by intros []|done].
Qed.

Lemma access_poll_outcome first e f q send w r w' :
  taken w → holding w e f → access_poll first e f q send w = Some (r, w') →
  match r with
  | Poll.Pending => books nothing_polled no_claim w w'
  | Poll.Ready _ => books nothing_polled no_claim (queued f w) w' ∨ given_up w e f w'
  end.
Proof.
  intros Ht Hh (now & w1 & Hnow & Hrun)%run_bind.
  pose proof (run_books nothing_polled no_claim _ _ _ _ (closed_now _) Hnow Ht) as B1.
  destruct (timeout_at_poll _ _ _ _) as [[[[]|[]]|[]]|].
  - apply run_bind in Hrun as (u & w2 & Hu & Hrun). injection Hu as _ <-.
    apply run_bind in Hrun as (a & w3 & Ha & Hrun). injection Hrun as <- <-. left.
    injection Hnow as _ <-.
    assert (taken (queued f w)) as Htq by by destruct Ht as [T1 T2 T3].
    eapply books_trans; [by apply (booked_same _ _ (queued f w) (queued f (set_reads (S (w_reads w)) w)))|].
    eapply run_books; [apply closed_admission, _|exact Ha|]. by destruct Ht as [T1 T2 T3].
  - apply run_bind in Hrun as (a & w3 & Ha & Hrun). apply run_bind in Hrun as (u & w4 & Hu & Hrun).
    injection Hrun as <- <-. right. by eapply admission_given_up.
  - apply run_bind in Hrun as (a & w3 & Ha & Hrun). apply run_bind in Hrun as (u & w4 & Hu & Hrun).
    injection Hrun as <- <-. right. by eapply admission_given_up.
  - by injection Hrun as <- <-.
Qed.

(** What an admission suspended with a guard does when it is polled. *)
Lemma admit_access_outcome b e f q t env st w st' w' :
  taken w → holding w e f → admit_access b e f q t env st w = Some (st', w') →
  (pc_access st' = Access.Enqueue e f q ∧ books nothing_polled no_claim w w') ∨
  (pc_access st' = Access.Done None ∧
    (books nothing_polled no_claim (queued f w) w' ∨ given_up w e f w')).
Proof.
  intros Ht Hh (r & w1 & Hr & Hrun)%run_bind.
  pose proof (access_poll_outcome _ _ _ _ _ _ _ _ Ht Hh Hr) as Ho. destruct r as [a|].
  - right. assert (pc_access st' = Access.Done None ∧ w_entries w' = w_entries w1 ∧
      w_fetches w' = w_fetches w1 ∧ w_refresh_queue w' = w_refresh_queue w1 ∧ w_next w' = w_next w1)
      as (Hpc & He & Hf & Hq & Hn).
    { destruct a as [a|], t; simpl in Hrun; injection Hrun as <- <-; done. }
    split; [done|]. destruct Ho as [Ho|[Ho Hno]]; [left|right; split].
    + eapply books_trans; [exact Ho|]. apply booked_same; try done; [rewrite Hn; lia|apply Ho].
    + eapply books_trans; [exact Ho|]. apply booked_same; try done; [rewrite Hn; lia|apply Ho].
    + intros x Hx. apply (Hno x). unfold owns in *. by rewrite <-He.
  - left. injection Hrun as <- <-. by split.
Qed.

(** ** Waiting for a lookup *)

(** A first lookup or its retry, not a refresh. *)
Definition first_at w f : Prop :=
  ∃ pf, w_fetches w !! f = Some pf ∧ pf_refresh_from pf = None.

Lemma first_kept F N w w' f : moves F N w w' ∨ books F N w w' → first_at w f → first_at w' f.
Proof.
  intros Hm (pf & Hf & Hr).
  assert (∃ pf', w_fetches w' !! f = Some pf' ∧ fetch_evolves pf pf' ∧
    (F f ∨ pf_phase pf' = pf_phase pf)) as (pf' & Hf' & [] & _).
  { destruct Hm as [Hm|Hm]; [by apply (mv_fetch _ _ _ _ Hm)|by apply (bk_fetch _ _ _ _ Hm)]. }
  exists pf'. split; [done|]. congruence.
Qed.

Lemma first_accounted w f : ledger w → first_at w f → accounted w f.
Proof.
  intros Hl (pf & Hf & Hr). destruct (proj1 (Hl f) _ Hf) as [[[? Hx] _]|?]; [|done]. congruence.
Qed.

(** A wait polls the lookup at most once. *)
Definition waited f answer w w' : Prop :=
  w' = w ∨ ∃ r, fetch_poll f answer true w = Some (r, w').

Lemma admit_wait_outcome b s e f env st w st' w' :
  taken w → admit_wait b s e f env st w = Some (st', w') →
  ∃ w0 w1, same_core w w0 ∧ books nothing_polled no_claim w w0 ∧
    waited f (env_answer env f) w0 w1 ∧ (taken w1 → issued w1 (pc_access st') w') ∧
    (∀ b' e' f', ad_pc st' = AdmitPc.Wait b' e' f' → f' = f).
Proof.
  intros Ht (r & w1 & Hr & Hrun)%run_bind.
  apply run_bind in Hr as (now & w0 & Hnow & Hr). injection Hnow as <- <-.
  set (w0 := set_reads _ w) in Hr. exists w0, w1.
  assert (same_core w w0) as Hc by (split; simpl; try done; lia). split; [done|].
  split; [by apply booked_same|]. split.
  { destruct (timeout_at_poll _ _ _ _) as [[[]|err]|]; [|by left; injection Hr..].
    apply run_bind in Hr as (x & w2 & Hsel & Hr). injection Hr as _ <-. unfold select_fetch in Hsel.
    destruct (_ && _); [left; by injection Hsel|right].
    apply run_bind in Hsel as (p & w3 & Hp & Hsel). injection Hsel as _ <-. eauto. }
  split.
  - intros Ht1. revert Ht1 Hrun.
    destruct r as [[[[r|]|]|[]]|]; [apply issuing_goto..|apply issuing_access_then|apply issuing_goto]; done.
  - intros b' e' f' Hpc. destruct r as [[[[r|]|]|[]]|]; try by injection Hrun as <- _.
    + apply run_bind in Hrun as (a & w2 & _ & Hrun).
      destruct a as [[a|]|]; simpl in Hrun; injection Hrun as <- _; done.
    + injection Hrun as <- _. by injection Hpc.
Qed.
End guards.

(** ** Whom an admission may wait for *)

Section joining.
Context {T P C : Type} `{Countable T, !LruCache T SubjectSlot C, !LruCacheOk T SubjectSlot C, TimeDriver}.
Implicit Types (w : World T P C) (e f : positive) (s : T) (st : AdmitState).

(** A pending entry never waits for a refresh. *)
Lemma pending_first w e f :
  wf w → state_is w e EntryState.Pending → owns w e f → first_at w f.
Proof.
  intros Hwf (en & He & Hst) (en' & He' & Hp). simplify_eq.
  destruct (own_pending _ _ _ _ Hwf He Hp) as (pf & Hf & Hpe). exists pf. split; [done|].
  destruct (pf_refresh_from pf) as [cur|] eqn:Hr; [|done].
  destruct (fo_refresh _ _ _ (wf_fetch _ Hwf _ _ Hf) _ Hr) as (_ & _ & (en1 & He1 & Hset) & _).
  rewrite Hpe in He1. by simplify_eq.
Qed.

Lemma admit_join_first w s e f w' :
  wf w → tracked w s e → admit_join e w = Some (Some f, w') → first_at w' f.
Proof.
  intros Hwf [[en He] _] Hrun. unfold admit_join in Hrun.
  apply run_bind in Hrun as (p & w1 & Hp & Hrun). apply run_bind in Hp as (en0 & w2 & Hen & Hp).
  injection Hp as <- <-. unfold load_entry, expect in Hen. rewrite He in Hen. injection Hen as <- <-.
  destruct (pending en) as [g|] eqn:Hp; [|done].
  apply run_bind in Hrun as (now & w1 & Hnow & Hrun). injection Hnow as <- <-.
  set (w1 := set_reads _ w) in Hrun. assert (same_core w w1) as Hc by (split; simpl; try done; lia).
  pose proof (wf_same_core _ _ Hc Hwf) as Hwf1.
  apply run_bind in Hrun as (x & w2 & Hx & Hrun).
  destruct (run_from_run _ _ _ _ _ _ (entry_state_at_from w1 w1 e en _ Hwf1 (reflexivity w1) He) Hx)
    as (Hwf2 & Ev2 & sx & (_ & Hf2 & en' & _ & Hcase) & ->).
  case_bool_decide as Hst; [|done].
  apply run_bind in Hrun as (same & w3 & Hs & Hrun).
  assert (w3 = w2) as -> by (apply run_bind in Hs as (? & ? & (? & ? & Hl & Hr)%run_bind & Hs);
    injection Hs as _ <-; injection Hr as _ <-; unfold load_entry, expect in Hl;
    destruct (w_entries w2 !! e); [by injection Hl|done]).
  destruct same; [|done]. injection Hrun as -> <-.
  assert (first_at w f) as (pf & Hf & Hr).
  { apply (pending_first w e); [done| |by exists en]. exists en. split; [done|].
    destruct Hcase as [(_ & -> & _)|(_ & Hx2 & _)]; unfold state_of in Hst; [done|].
    by rewrite Hx2 in Hst. }
  exists pf. by rewrite Hf2.
Qed.

Lemma admit_insert_first w s st st' w' b e f :
  wf w → admit_insert s st w = Some (st', w') → ad_pc st' = AdmitPc.Wait b e f → first_at w' f.
Proof.
  intros Hwf Hrun Hpc. unfold admit_insert in Hrun.
  apply run_bind in Hrun as (e0 & w1 & He & Hrun).
  destruct (run_from_run _ _ _ _ _ _ (admit_entry_from w w s Hwf (reflexivity w)) He)
    as (Hwf1 & _ & _ & Ht1).
  apply run_bind in Hrun as (now & w2 & Hnow & Hrun). injection Hnow as <- <-.
  set (w2 := set_reads _ w1) in Hrun. assert (same_core w1 w2) as Hc by (split; simpl; try done; lia).
  destruct (_ <=? _); [injection Hrun as <- _; done|].
  apply run_bind in Hrun as (c & w2' & Hcn & Hrun). injection Hcn as <- <-.
  destruct (w_connected w1); simpl in Hrun;
    [|apply run_bind in Hrun as (? & ? & _ & Hrun); injection Hrun as <- _; done].
  assert (Hacc : ∀ w4, (r ← access_begin s e0 (Some (ad_deadline st)); after_access false r st) w4
    = Some (st', w') → False).
  { intros w4 (r & w5 & _ & Ha)%run_bind. destruct r as [[]|]; simpl in Ha; injection Ha as <- _; done. }
  apply run_bind in Hrun as (now2 & w3 & Hnow2 & Hrun). apply run_bind in Hrun as (x & w4 & Hx & Hrun).
  destruct (state_then w2 w2 s e0 (λ _, mret tt) (λ _ w4, wf w4 ∧ tracked w4 s e0))
    as (u & w4' & Hrun' & _ & _ & Hwf4 & Ht4);
    [by apply (wf_same_core w1)|done|by apply (same_core_tracked w1)|intros; by apply run_from_ret|].
  rewrite (run_bind_step _ _ _ _ _ Hnow2), (run_bind_step _ _ _ _ _ Hx) in Hrun'.
  injection Hrun' as _ <-. destruct x.
  - apply run_bind in Hrun as (j & w5 & Hj & Hrun). injection Hrun as <- <-.
    destruct j as [g|]; [|done]. injection Hpc as _ _ ->. by eapply admit_join_first.
  - apply run_bind in Hrun as (u1 & w5 & _ & Hrun). by destruct (Hacc w5).
  - apply run_bind in Hrun as (u1 & w5 & _ & Hrun). by destruct (Hacc w5).
  - apply run_bind in Hrun as (u1 & w5 & _ & Hrun). by injection Hrun as <- _.
Qed.
End joining.
