(* ===== verification/Watcher.v ===== *)
(** * Watcher: the decision-source watch loop ([src/watcher.rs])

    [watch_source] is one async function that never returns.  Its control points
    are the constructors of [WatchPc.t]; [watch_step] runs from one to the next.
    The answers of the source, the order in which [select!] looks at its
    branches, the lookups that [FuturesUnordered] polls and the random number of
    the jitter are the argument [WatchEnv]. *)

From S2P Require Export AdmitMethods.

(** ** [DecisionSourceHealth] *)

Module DecisionSourceHealthStatus.
Inductive t : Set := Stable | NotYetStable | Failed.
#[global] Instance eq_dec : EqDecision t.
Proof. solve_decision. Defined.
End DecisionSourceHealthStatus.

(** The view shares the gate's [disconnected_since] cell, which is a field of the
    world, and copies the admission timeout when it is built. *)
Record DecisionSourceHealth : Type := mkHealth {
  health_admission_timeout : Z;
}.

(** ** Jitter *)

(** [random] is [rand::rng().next_u64()]; the sum is a plain [u64] addition. *)
Definition jitter (delay random : Z) : Z :=
  let millis := match u64_try_from (Duration.as_millis delay) with
                | Some millis => millis
                | None => u64_max
                end in
  let spread := millis / 2 in
  if spread =? 0 then delay
  else Duration.from_millis (u64_wrap (millis - spread / 2 + random mod spread)).

(** ** The loop *)

(** What one open watch keeps: the wake-up time of the stability timer until it
    fired ([Some None]: not representable), the lookups it drives, and the
    changes applied since it last yielded. *)
Record Connection : Type := mkConnection {
  stable_timer : option (option Z);
  refreshes : list positive;
  events_since_yield : Z;
}.

Module WatchPc.
Inductive t : Type :=
| Open (first_poll : bool) (deadline : option Z)
| Serve (c : Connection)
| Yield (c : Connection)
| Down
| Sleep (wake : option Z).
End WatchPc.

Record WatchState : Type := mkWatch {
  reconnect_delay : Z;
  ws_pc : WatchPc.t;
}.

(** [enum Work], with what the branch takes out of the connection. *)
Module Work.
Inductive t (T : Type) : Type :=
| Stable
| RefreshBatch (batch : list positive)
| RefreshDone (rest : list positive)
| Change (item : option (result (DecisionChange T) DecisionSourceError)).
Arguments Stable {T}.
Arguments RefreshBatch {T}.
Arguments RefreshDone {T}.
Arguments Change {T}.
End Work.

Module Branch.
Inductive t : Set := Timer | Batch | Refresh | Stream.
#[global] Instance eq_dec : EqDecision t.
Proof. solve_decision. Defined.
End Branch.

Record WatchEnv (T P : Type) : Type := mkWatchEnv {
  we_open : Poll.t (result unit DecisionSourceError);
  we_order : list Branch.t;
  we_polled : list (positive * Answer.t P);
  we_item : Poll.t (option (result (DecisionChange T) DecisionSourceError));
  we_yielded : bool;
  we_random : Z;
}.
Arguments mkWatchEnv {T P}.
Arguments we_open {T P}.
Arguments we_order {T P}.
Arguments we_polled {T P}.
Arguments we_item {T P}.
Arguments we_yielded {T P}.
Arguments we_random {T P}.

Section watcher.
Context {T P C : Type} `{Countable T, !LruCache T SubjectSlot C, TimeDriver}.
Abbreviation G := (M (World T P C)).
Implicit Types (st : WatchState) (c : Connection) (env : WatchEnv T P).

Definition watch_goto (pc : WatchPc.t) st : WatchState := mkWatch (reconnect_delay st) pc.

(** [DecisionSourceHealth::status] of the view [h]. *)
Definition health_status (h : DecisionSourceHealth) : G DecisionSourceHealthStatus.t :=
  since ← gets w_disconnected_since;
  match since with
  | None => mret DecisionSourceHealthStatus.Stable
  | Some since =>
      now ← D_now;
      mret (if health_admission_timeout h <=? Instant.saturating_duration_since now since
            then DecisionSourceHealthStatus.Failed
            else DecisionSourceHealthStatus.NotYetStable)
  end.

Definition emit_wire (e : DecisionSourceError) : G unit :=
  if is_wire e then emit Metric.wire_failure else mret tt.

(** *** The branches of [select!] *)

(** [Receiver::recv_many]: nothing, at once, for a zero limit or a closed empty
    channel; otherwise as many messages as there are, up to the limit. *)
Definition recv_many (limit : Z) : G (Poll.t (list positive)) :=
  queue ← gets w_refresh_queue;
  is_open ← gets w_refresh_open;
  if limit =? 0 then mret (Poll.Ready [])
  else
    match queue with
    | [] => mret (if is_open : bool then Poll.Pending else Poll.Ready [])
    | _ =>
        _ ← modify (set_refresh_queue (drop (Z.to_nat limit) queue));
        mret (Poll.Ready (take (Z.to_nat limit) queue))
    end.

(** [FuturesUnordered]: the futures are polled in the given order until one is
    ready, which leaves the set. *)
Fixpoint refreshes_poll (polled : list (positive * Answer.t P)) (l : list positive) :
    G (Poll.t (list positive)) :=
  match polled with
  | [] => mret Poll.Pending
  | (f, answer) :: polled =>
      match list_remove f l with
      | None => refreshes_poll polled l
      | Some rest =>
          r ← fetch_poll f answer true;
          match r with
          | Poll.Ready _ => mret (Poll.Ready rest)
          | Poll.Pending => refreshes_poll polled l
          end
      end
  end.

Definition branch_poll (b : Branch.t) c env : G (Poll.t (Work.t T)) :=
  match b with
  | Branch.Timer =>
      match stable_timer c with
      | None => mret Poll.Pending
      | Some wake =>
          now ← D_now;
          mret (Poll.map (λ _, Work.Stable) (sleep_poll wake now))
      end
  | Branch.Batch =>
      limit ← gets (λ w, refresh_queue_capacity (w_config w));
      batch ← recv_many limit;
      mret (Poll.map Work.RefreshBatch batch)
  | Branch.Refresh =>
      rest ← refreshes_poll (we_polled env) (refreshes c);
      mret (Poll.map Work.RefreshDone rest)
  | Branch.Stream => mret (Poll.map Work.Change (we_item env))
  end.

Fixpoint select_work (order : list Branch.t) c env : G (Poll.t (Work.t T)) :=
  match order with
  | [] => mret Poll.Pending
  | b :: order =>
      r ← branch_poll b c env;
      match r with
      | Poll.Ready work => mret (Poll.Ready work)
      | Poll.Pending => select_work order c env
      end
  end.

(** *** Control points *)

Definition open_begin st : G WatchState :=
  now ← D_now;
  limit ← gets (λ w, admission_timeout (w_config w));
  mret (watch_goto (WatchPc.Open true (Instant.checked_add now limit)) st).

Definition watch_begin : G WatchState :=
  initial ← gets (λ w, initial_reconnect_delay (w_config w));
  open_begin (mkWatch initial WatchPc.Down).

(** [DecisionWatcher::new]: the boxed future of the loop, which has not been polled,
    over the lease of the gate's state; and the health view of that state. *)
Definition watcher_new (state : World T P C) : G WatchState * DecisionSourceHealth :=
  (watch_begin, mkHealth (admission_timeout (w_config state))).

Definition watch_opened st : G WatchState :=
  _ ← watch_connected;
  limit ← gets (λ w, max_reconnect_delay (w_config w));
  now ← D_now;
  mret (watch_goto (WatchPc.Serve (mkConnection (Some (sleep_deadline now limit)) [] 0)) st).

Definition watch_open (first_poll : bool) (deadline : option Z) env st : G WatchState :=
  now ← D_now;
  match timeout_poll first_poll deadline now (we_open env) with
  | Poll.Pending => mret (watch_goto (WatchPc.Open false deadline) st)
  | Poll.Ready (Ok (Ok _)) => watch_opened st
  | Poll.Ready (Ok (Err e)) =>
      _ ← emit_wire e;
      _ ← emit Metric.watch_open_failure;
      mret (watch_goto WatchPc.Down st)
  | Poll.Ready (Err _) =>
      _ ← emit Metric.watch_open_failure;
      mret (watch_goto WatchPc.Down st)
  end.

(** The inner loop is left: its locals are dropped. *)
Definition watch_lost st : G WatchState :=
  _ ← emit Metric.watch_disconnect;
  mret (watch_goto WatchPc.Down st).

Definition watch_became_stable c st : G WatchState :=
  initial ← gets (λ w, initial_reconnect_delay (w_config w));
  _ ← watch_stable;
  mret (mkWatch initial (WatchPc.Serve (mkConnection None (refreshes c) (events_since_yield c)))).

Definition watch_change change c st : G WatchState :=
  _ ← apply_change change;
  _ ← emit Metric.watch_event;
  limit ← gets (λ w, watch_events_per_yield (w_config w));
  let events := events_since_yield c + 1 in
  let next n := mkConnection (stable_timer c) (refreshes c) n in
  mret (watch_goto (if events =? limit then WatchPc.Yield (next 0)
                    else WatchPc.Serve (next events)) st).

Definition watch_work c (work : Work.t T) st : G WatchState :=
  let keep l := mkConnection (stable_timer c) l (events_since_yield c) in
  match work with
  | Work.Stable => watch_became_stable c st
  | Work.RefreshBatch [] => watch_lost st
  | Work.RefreshBatch batch =>
      mret (watch_goto (WatchPc.Serve (keep (refreshes c ++ batch))) st)
  | Work.RefreshDone rest => mret (watch_goto (WatchPc.Serve (keep rest)) st)
  | Work.Change None => watch_lost st
  | Work.Change (Some (Err e)) => _ ← emit_wire e; watch_lost st
  | Work.Change (Some (Ok change)) => watch_change change c st
  end.

Definition watch_serve c env st : G WatchState :=
  r ← select_work (we_order env) c env;
  match r with
  | Poll.Pending => mret st
  | Poll.Ready work => watch_work c work st
  end.

Definition watch_down env st : G WatchState :=
  _ ← watch_disconnected;
  now ← D_now;
  mret (watch_goto
    (WatchPc.Sleep (sleep_deadline now (jitter (reconnect_delay st) (we_random env)))) st).

(** The end of the sleep, the doubling of the delay, and the next attempt. *)
Definition watch_sleep (wake : option Z) st : G WatchState :=
  now ← D_now;
  match sleep_poll wake now with
  | Poll.Pending => mret st
  | Poll.Ready _ =>
      limit ← gets (λ w, max_reconnect_delay (w_config w));
      open_begin (mkWatch (Z.min (Duration.saturating_mul (reconnect_delay st) 2) limit)
                    (ws_pc st))
  end.

Definition watch_step env st : G WatchState :=
  match ws_pc st with
  | WatchPc.Open first_poll deadline => watch_open first_poll deadline env st
  | WatchPc.Serve c => watch_serve c env st
  | WatchPc.Yield c =>
      mret (if we_yielded env then watch_goto (WatchPc.Serve c) st else st)
  | WatchPc.Down => watch_down env st
  | WatchPc.Sleep wake => watch_sleep wake st
  end.

(** The future is dropped, at any of its control points: the receiver goes with
    the messages it holds, then [WatchLease] and its sender. *)
Definition watcher_drop : G unit :=
  _ ← modify (λ w, set_refresh_open false (set_refresh_queue [] w));
  _ ← watch_disconnected;
  modify (set_sender_alive false).
End watcher.
