(* ===== verification/WatcherMethods.v ===== *)
(** * WatcherMethods: the steps of the watch loop

    Every step of [watch_step] runs to its end, keeps the invariant of the gate,
    keeps the connection state in agreement with the control point, and moves
    the reconnect delay only as the backoff prescribes. *)

From S2P Require Export Frame Watcher.

Section watcher_frame.
Context {T P C : Type} `{Countable T, !LruCache T SubjectSlot C, TimeDriver}.
Abbreviation G := (M (World T P C)).
Implicit Types (st : WatchState) (c : Connection) (env : WatchEnv T P) (F : positive → Prop).
Abbreviation framed F m := (always (frame F) (m : G _)).

Lemma frame_recv_many F limit : framed F (recv_many limit).
Proof.
  unfold recv_many. intros w r w'. unfold gets, mbind, M_bind.
  destruct (limit =? 0); [by intros [= <- <-]|].
  destruct (w_refresh_queue w) as [|f l] eqn:Hq; [by intros [= <- <-]|].
  intros [= <- <-]. split; try done. intros g Hg. left. rewrite Hq.
  rewrite <-(take_drop (Z.to_nat limit) (f :: l)). apply elem_of_app. by right.
Qed.

Lemma frame_refreshes_poll F polled l : framed F (refreshes_poll polled l).
Proof.
  revert l. induction polled as [|[f a] polled IH]; intros l; simpl; frame; apply IH.
Qed.

Lemma frame_emit_wire F e : framed F (emit_wire e).
Proof. unfold emit_wire. frame. Qed.
Hint Resolve frame_recv_many frame_refreshes_poll : frame.

Lemma frame_branch_poll F b c env : framed F (branch_poll b c env).
Proof. unfold branch_poll. frame. Qed.
Hint Resolve frame_branch_poll : frame.

Lemma frame_select_work F order c env : framed F (select_work order c env).
Proof. induction order as [|b order IH]; simpl; frame. Qed.
End watcher_frame.

Section watcher_methods.
Context {T P C : Type} `{Countable T, !LruCache T SubjectSlot C, !LruCacheOk T SubjectSlot C, TimeDriver}.
Implicit Types (w : World T P C) (st : WatchState) (c : Connection) (env : WatchEnv T P).

(** ** What a step starts from *)

Definition fetches_exist w (l : list positive) : Prop :=
  ∀ f, f ∈ l → is_Some (w_fetches w !! f).

Definition connection_of (pc : WatchPc.t) : option Connection :=
  match pc with WatchPc.Serve c | WatchPc.Yield c => Some c | _ => None end.

(** The lookups in the channel and in [FuturesUnordered] are allocated. *)
Definition watch_refs w st : Prop :=
  fetches_exist w (w_refresh_queue w) ∧
  ∀ c, connection_of (ws_pc st) = Some c → fetches_exist w (refreshes c).

Lemma fetches_exist_stable w w' l : evolves w w' → fetches_exist w l → fetches_exist w' l.
Proof.
  intros Ev Hl f [pf Hf]%Hl. destruct (ev_fetches _ _ Ev _ _ Hf) as (pf' & ? & _). by exists pf'.
Qed.

Lemma queue_stable F w w' :
  evolves w w' → frame F w w' → (∀ f, F f → is_Some (w_fetches w !! f)) →
  fetches_exist w (w_refresh_queue w) → fetches_exist w' (w_refresh_queue w').
Proof.
  intros Ev Fr HF Hq f Hin.
  destruct (fr_queue _ _ _ Fr f Hin) as [Hin'|HFf].
  - by apply (fetches_exist_stable w w' _ Ev Hq).
  - assert (fetches_exist w [f]) as Hf by (intros g ->%list_elem_of_singleton; auto).
    apply (fetches_exist_stable w w' _ Ev Hf). by apply list_elem_of_singleton.
Qed.

(** The gate is connected exactly while a watch is open, and the outage clock
    runs until the watch has been open for long enough. *)
Definition linked w st : Prop :=
  match ws_pc st with
  | WatchPc.Open _ _ | WatchPc.Sleep _ =>
      w_connected w = false ∧ is_Some (w_disconnected_since w)
  | WatchPc.Serve c | WatchPc.Yield c =>
      w_connected w = true ∧ (is_Some (stable_timer c) → is_Some (w_disconnected_since w))
  | WatchPc.Down => True
  end.

Lemma linked_frame F w w' st : frame F w w' → linked w st → linked w' st.
Proof.
  intros Fr. unfold linked. by rewrite (fr_connected _ _ _ Fr), (fr_since _ _ _ Fr).
Qed.

(** The changes counted since the last yield. *)
Definition counted (limit : Z) st : Prop :=
  ∀ c, connection_of (ws_pc st) = Some c → 0 ≤ events_since_yield c < limit.

(** ** Backoff *)

Definition woke st st' : bool :=
  match ws_pc st, ws_pc st' with WatchPc.Sleep _, WatchPc.Open _ _ => true | _, _ => false end.

Definition settled_down st st' : bool :=
  match ws_pc st, ws_pc st' with
  | WatchPc.Serve c, WatchPc.Serve c' =>
      bool_decide (is_Some (stable_timer c) ∧ stable_timer c' = None)
  | _, _ => false
  end.

(** How a step moves the delay. *)
Definition delay_after (cfg : PolicyGateConfig) st st' : Z :=
  if woke st st'
  then Z.min (Duration.saturating_mul (reconnect_delay st) 2) (max_reconnect_delay cfg)
  else if settled_down st st' then initial_reconnect_delay cfg
  else reconnect_delay st.

(** ** The outage clock *)

(** The watch was lost, or could not be opened, and the loop went to sleep. *)
Definition fell st st' : bool :=
  match ws_pc st, ws_pc st' with WatchPc.Down, WatchPc.Sleep _ => true | _, _ => false end.

(** How a step moves the start of the outage: becoming stable ends the outage, and a
    loss starts one, at the first reading of its step, unless one is running. *)
Definition since_after w st st' : option Z :=
  if settled_down st st' then None
  else if fell st st' then Some (default (w_clock w (w_reads w)) (w_disconnected_since w))
  else w_disconnected_since w.

(** ** How long the watch has been open *)

(** Between two readings since [n0] the stability threshold went by. *)
Definition held w (n0 : nat) : Prop :=
  ∃ n m, (n0 ≤ n ≤ m ∧ m < w_reads w)%nat ∧
    sleep_until (w_clock w n + max_reconnect_delay (w_config w)) (w_clock w m) = Poll.Ready tt.

(** [n0] is the number of clock readings when the watch was last opened. *)
Definition timed w st (n0 : nat) : Prop :=
  (w_disconnected_since w = None → held w n0) ∧
  ∀ c, connection_of (ws_pc st) = Some c →
    match stable_timer c with
    | None => held w n0
    | Some None => True
    | Some (Some wake) => ∃ n, (n0 ≤ n < w_reads w)%nat ∧
        wake = w_clock w n + max_reconnect_delay (w_config w)
    end.

Definition opened_at w st st' (n0 : nat) : nat :=
  match ws_pc st, ws_pc st' with
  | WatchPc.Open _ _, WatchPc.Serve _ => w_reads w
  | _, _ => n0
  end.

Lemma held_stable w w' n0 : evolves w w' → held w n0 → held w' n0.
Proof.
  intros Ev (n & m & Hn & Hs). exists n, m. pose proof (ev_reads _ _ Ev).
  split; [lia|]. by rewrite (ev_clock _ _ Ev), (ev_config _ _ Ev).
Qed.

Lemma timed_mono w w' st st' n0 :
  evolves w w' → (w_disconnected_since w' = None → w_disconnected_since w = None) →
  (∀ c', connection_of (ws_pc st') = Some c' →
     ∃ c, connection_of (ws_pc st) = Some c ∧ stable_timer c' = stable_timer c) →
  timed w st n0 → timed w' st' n0.
Proof.
  intros Ev Hs Hc [Hd Ht]. split.
  - intros Hn. apply (held_stable w w'); auto.
  - intros c' (c & Hco & ->)%Hc. specialize (Ht c Hco).
    destruct (stable_timer c) as [[wake|]|]; [|done|by apply (held_stable w w')].
    destruct Ht as (n & Hn & ->). pose proof (ev_reads _ _ Ev). exists n.
    split; [lia|]. by rewrite (ev_clock _ _ Ev), (ev_config _ _ Ev).
Qed.

Record watch_post w st st' w' : Prop := {
  wp_evolves : evolves w w';
  wp_refs : watch_refs w' st';
  wp_linked : linked w st → linked w' st';
  wp_counted limit : watch_events_per_yield (w_config w) = limit → 0 < limit →
    counted limit st → counted limit st';
  wp_timed n0 : linked w st → timed w st n0 → timed w' st' (opened_at w st st' n0);
  wp_delay : reconnect_delay st' = delay_after (w_config w) st st';
  wp_since : w_disconnected_since w' = since_after w st st';
}.

(** A frame fact on top of a total-correctness fact. *)
Lemma run_always {A} (R : World T P C → World T P C → Prop) w0 w
    (m : M (World T P C) A) Q :
  always R m → run_from w0 w m Q → run_from w0 w m (λ a w', Q a w' ∧ R w w').
Proof.
  intros HR (a & w' & Hrun & Hwf & Ev & HQ). exists a, w'. split_and!; eauto.
Qed.

Definition none_queued : positive → Prop := λ _, False.
Abbreviation still := (frame none_queued).

(** A step that changes nothing the watcher owns and stays on its connection or
    leaves it. *)
Lemma kept_refs w w' st st' :
  evolves w w' → still w w' → watch_refs w st →
  (∀ c', connection_of (ws_pc st') = Some c' → fetches_exist w' (refreshes c')) →
  watch_refs w' st'.
Proof. intros Ev Fr [Hq _] Hc. split; [|done]. by apply (queue_stable none_queued w w'). Qed.

(** ** The branches of [select!] *)

Lemma refreshes_poll_from w0 w polled l :
  wf w → evolves w0 w → fetches_exist w l →
  run_from w0 w (refreshes_poll polled l) (λ r w', evolves w w' ∧
    ∀ rest, r = Poll.Ready rest → fetches_exist w' rest).
Proof.
  revert w. induction polled as [|[f a] polled IH]; intros w Hwf Ev Hl; simpl.
  { by apply run_from_ret. }
  destruct (list_remove f l) as [rest|] eqn:Hrest; [|by apply IH].
  pose proof (list_remove_Permutation _ _ _ Hrest) as Hp.
  eapply run_from_bind.
  { apply (fetch_poll_from w0 w f a true); [done|done|]. apply Hl. rewrite Hp. left. }
  intros r w1 Hwf1 Ev1 [Evw _]. pose proof (fetches_exist_stable w w1 _ Evw Hl) as Hl1.
  destruct r as [r|].
  - apply run_from_ret; [done|done|]. split; [done|]. intros ? [= <-] g Hg.
    apply Hl1. rewrite Hp. by right.
  - eapply run_from_weaken; [by apply IH|]. intros r w2 _ _ [Ev2 Hr].
    split; [by transitivity w1|done].
Qed.

Lemma recv_many_from w0 w limit :
  wf w → evolves w0 w → fetches_exist w (w_refresh_queue w) →
  run_from w0 w (recv_many limit) (λ r w', evolves w w' ∧
    ∀ batch, r = Poll.Ready batch → fetches_exist w' batch).
Proof.
  intros Hwf Ev Hq. unfold recv_many. apply run_gets, run_gets.
  assert (fetches_exist w []) as Hnil by (intros f Hf; by apply elem_of_nil in Hf).
  destruct (limit =? 0).
  { apply run_from_ret; [done|done|]. split; [done|]. by intros ? [= <-]. }
  destruct (w_refresh_queue w) as [|f l] eqn:Heq.
  { destruct (w_refresh_open w); (apply run_from_ret; [done|done|]); split; try done;
      by intros ? [= <-]. }
  apply core_then; [done|done|by split|]. intros Hwf1 Ev1. apply run_from_ret; [done|done|].
  split; [by apply evolves_same_core|]. intros ? [= <-] g Hg. apply Hq.
  rewrite <-(take_drop (Z.to_nat limit) (f :: l)). apply elem_of_app. by left.
Qed.

Definition work_refs w (work : Work.t T) : Prop :=
  match work with
  | Work.RefreshBatch l | Work.RefreshDone l => fetches_exist w l
  | _ => True
  end.

Lemma branch_poll_from w0 w b c env :
  wf w → evolves w0 w → fetches_exist w (w_refresh_queue w) → fetches_exist w (refreshes c) →
  run_from w0 w (branch_poll b c env) (λ r w', evolves w w' ∧
    ∀ work, r = Poll.Ready work → work_refs w' work).
Proof.
  intros Hwf Ev Hq Hc. destruct b; simpl.
  - destruct (stable_timer c) as [wake|]; [|by apply run_from_ret].
    apply now_then; [done|done|]. intros w1 Hwf1 Ev1 Hs. apply run_from_ret; [done|done|].
    split; [by apply evolves_same_core|]. intros work Hw.
    destruct (sleep_poll _ _); simpl in Hw; by simplify_eq.
  - apply run_gets. eapply run_from_bind; [by apply recv_many_from|].
    intros r w1 Hwf1 Ev1 [Evw Hr]. apply run_from_ret; [done|done|]. split; [done|].
    intros work Hw. destruct r as [l|]; simpl in Hw; simplify_eq. by apply Hr.
  - eapply run_from_bind; [by apply refreshes_poll_from|].
    intros r w1 Hwf1 Ev1 [Evw Hr]. apply run_from_ret; [done|done|]. split; [done|].
    intros work Hw. destruct r as [l|]; simpl in Hw; simplify_eq. by apply Hr.
  - apply run_from_ret; [done|done|]. split; [done|]. intros work Hw.
    destruct (we_item env); simpl in Hw; by simplify_eq.
Qed.

Lemma select_work_from w0 w order c env :
  wf w → evolves w0 w → fetches_exist w (w_refresh_queue w) → fetches_exist w (refreshes c) →
  run_from w0 w (select_work order c env) (λ r w', evolves w w' ∧
    ∀ work, r = Poll.Ready work → work_refs w' work).
Proof.
  revert w. induction order as [|b order IH]; intros w Hwf Ev Hq Hc; simpl.
  { by apply run_from_ret. }
  eapply run_from_bind.
  { apply (run_always still); [apply frame_branch_poll|]. by apply branch_poll_from. }
  intros r w1 Hwf1 Ev1 [[Evw Hr] Fr]. destruct r as [work|].
  - apply run_from_ret; [done|done|]. split; [done|]. intros ? [= <-]. by apply Hr.
  - eapply run_from_weaken.
    { apply IH; [done|done| |by apply (fetches_exist_stable w w1)].
      by apply (queue_stable none_queued w w1). }
    intros r w2 _ _ [Ev2 Hr2]. split; [by transitivity w1|done].
Qed.

(** ** Control points *)

(** Connecting, disconnecting and settling leave the queue alone. *)
Definition same_queue w w' : Prop := w_refresh_queue w' ⊆ w_refresh_queue w.

#[export] Instance same_queue_preorder : PreOrder same_queue.
Proof. split; unfold same_queue; [by intros w|]. intros w1 w2 w3 H1 H2. by etransitivity. Qed.

Lemma same_queue_still {A} (m : M (World T P C) A) : always still m → always same_queue m.
Proof. intros Hm w a w' Hrun f Hf. by destruct (fr_queue _ _ _ (Hm _ _ _ Hrun) f Hf). Qed.

Lemma same_queue_modify (g : World T P C → World T P C) :
  (∀ w, w_refresh_queue (g w) = w_refresh_queue w) → always same_queue (modify g).
Proof. intros Hg w u w' [= <- <-]. unfold same_queue. by rewrite Hg. Qed.

Lemma same_queue_gets {A} (g : World T P C → A) : always same_queue (gets g).
Proof. by intros w a w' [= <- <-]. Qed.

Lemma same_queue_publish (k : M (World T P C) unit) :
  always same_queue k → always same_queue (publish_empty k).
Proof.
  intros Hk. unfold publish_empty.
  apply always_bind; [apply _|apply same_queue_gets|intros p].
  do 2 (apply always_bind; [apply _|by apply same_queue_modify|intros _]). exact Hk.
Qed.

Lemma same_queue_clear : always same_queue map_clear.
Proof. apply same_queue_still. frame. Qed.

Lemma same_queue_connected : always same_queue watch_connected.
Proof.
  unfold watch_connected. apply always_bind; [apply _| |intros _].
  { apply same_queue_publish. apply always_ret; apply _. }
  apply always_bind; [apply _|apply same_queue_clear|intros _].
  apply always_bind; [apply _|by apply same_queue_modify|intros _]. by apply same_queue_modify.
Qed.

Lemma same_queue_disconnected : always same_queue watch_disconnected.
Proof.
  unfold watch_disconnected. apply always_bind; [apply _| |intros _; apply same_queue_clear].
  apply same_queue_publish.
  do 2 (apply always_bind; [apply _|by apply same_queue_modify|intros _]).
  unfold mark_disconnected. apply always_bind; [apply _|apply same_queue_gets|intros since].
  destruct since; [apply always_ret; apply _|].
  apply always_bind; [apply _|apply same_queue_still; frame|intros now].
  by apply same_queue_modify.
Qed.

Lemma queue_exists w w' :
  evolves w w' → same_queue w w' → fetches_exist w (w_refresh_queue w) →
  fetches_exist w' (w_refresh_queue w').
Proof. intros Ev Hs Hq f Hf. by apply (fetches_exist_stable w w' _ Ev Hq), Hs. Qed.

(** A step to a control point without a connection. *)
Lemma post_plain w w' st st' :
  evolves w w' → same_queue w w' → watch_refs w st → connection_of (ws_pc st') = None →
  w_disconnected_since w' = since_after w st st' →
  (linked w st → linked w' st') → reconnect_delay st' = delay_after (w_config w) st st' →
  watch_post w st st' w'.
Proof.
  intros Ev Hs [Hq _] Hn Hsince Hl Hd. split; try done.
  - split; [by apply (queue_exists w w')|]. by rewrite Hn.
  - intros limit _ _ _ c. by rewrite Hn.
  - intros n0 _ Ht. assert (opened_at w st st' n0 = n0) as ->.
    { unfold opened_at. destruct (ws_pc st), (ws_pc st'); done. }
    apply (timed_mono w w' st); [done| | |done]; [|intros c'; by rewrite Hn].
    rewrite Hsince. unfold since_after. destruct (settled_down st st') eqn:Hst.
    + unfold settled_down in Hst. by destruct (ws_pc st), (ws_pc st').
    + by destruct (fell st st').
Qed.

Lemma open_begin_from w0 w st :
  wf w → evolves w0 w → run_from w0 w (open_begin st) (λ st' w', same_core w w' ∧
    same_queue w w' ∧ ∃ d, st' = watch_goto (WatchPc.Open true d) st).
Proof.
  intros Hwf Ev. eexists _, (set_reads (S (w_reads w)) w). split; [reflexivity|].
  assert (same_core w (set_reads (S (w_reads w)) w)) as Hc by (split; simpl; try done; lia).
  split; [by eapply wf_same_core|]. split; [by etransitivity; [|apply evolves_same_core]|].
  split_and!; [done|by intros f|by eexists].
Qed.

Lemma linked_core w w' st : same_core w w' → linked w st → linked w' st.
Proof.
  intros Hc. unfold linked. by rewrite (sc_connected _ _ Hc), (sc_since _ _ Hc).
Qed.

Lemma emit_then {A} w0 w m (k : M (World T P C) A) Q :
  wf w → evolves w0 w →
  (∀ w1, wf w1 → evolves w0 w1 → same_core w w1 → same_queue w w1 → run_from w0 w1 k Q) →
  run_from w0 w (_ ← emit m; k) Q.
Proof. intros Hwf Ev Hk. apply core_then; [done|done|by split|]. intros ? ?.
  apply Hk; [done|done|by split|by intros f].
Qed.

Lemma emit_wire_then {A} w0 w e (k : M (World T P C) A) Q :
  wf w → evolves w0 w →
  (∀ w1, wf w1 → evolves w0 w1 → same_core w w1 → same_queue w w1 → run_from w0 w1 k Q) →
  run_from w0 w (_ ← emit_wire e; k) Q.
Proof.
  intros Hwf Ev Hk. unfold emit_wire. destruct (is_wire e); [by apply emit_then|].
  apply run_pure. apply Hk; [done|done|by split|reflexivity].
Qed.

Lemma same_core_trans w1 w2 w3 : same_core w1 w2 → same_core w2 w3 → same_core w1 w3.
Proof. intros [] []. split; congruence || lia. Qed.

(** Leaving for [Down] after some bookkeeping. *)
Lemma down_from w0 w st w1 m :
  wf w1 → evolves w w1 → evolves w0 w1 → same_queue w w1 → watch_refs w st →
  w_disconnected_since w1 = w_disconnected_since w →
  (match ws_pc st with WatchPc.Sleep _ => False | _ => True end) →
  run_from w0 w1 (_ ← emit m; mret (watch_goto WatchPc.Down st)) (λ st' w', watch_post w st st' w').
Proof.
  intros Hwf Evw Ev Hs Hr Hd Hpc. apply emit_then; [done|done|].
  intros w2 Hwf2 Ev2 Hc Hs2. apply run_from_ret; [done|done|].
  apply post_plain; [by etransitivity; [|apply evolves_same_core]|by transitivity w1|done|done
    | |done|].
  - rewrite (sc_since _ _ Hc), Hd. unfold since_after, settled_down, fell. by destruct (ws_pc st).
  - unfold delay_after, woke, settled_down. by destruct (ws_pc st).
Qed.

Lemma tick_then {A} w0 w (k : Z → M (World T P C) A) Q :
  wf w → evolves w0 w →
  (∀ w1, wf w1 → evolves w0 w1 → same_core w w1 → same_queue w w1 →
     w_reads w1 = S (w_reads w) → run_from w0 w1 (k (w_clock w (w_reads w))) Q) →
  run_from w0 w (D_now ≫= k) Q.
Proof.
  intros Hwf Ev Hk. set (w1 := set_reads (S (w_reads w)) w).
  assert (same_core w w1) as Hc by (split; simpl; try done; lia).
  eapply run_step; [reflexivity|]. apply (Hk w1); [by eapply wf_same_core| |done|by intros f|done].
  etransitivity; [done|by apply evolves_same_core].
Qed.

Lemma watch_opened_from w0 w w1 first deadline st :
  ws_pc st = WatchPc.Open first deadline → watch_refs w st →
  wf w1 → evolves w0 w1 → same_core w w1 → same_queue w w1 →
  run_from w0 w1 (watch_opened st) (λ st' w', watch_post w st st' w').
Proof.
  intros Hpc Hr Hwf1 Ev1 Hc1 Hs1. unfold watch_opened. eapply then_from.
  { apply run_from_evolves; [exact Ev1|]. apply (run_always same_queue); [apply same_queue_connected|].
    by apply watch_connected_from. }
  simpl. intros u w2 Hwf2 Ev2 (Ev12 & (Hon & _ & _ & _ & Hd & _) & Hs2). apply run_gets.
  apply tick_then; [done|done|]. intros w3 Hwf3 Ev3 Hc3 Hs3 Hr3. apply run_from_ret; [done|done|].
  assert (evolves w w3) as Ev.
  { transitivity w1; [by apply evolves_same_core|]. transitivity w2; [done|by apply evolves_same_core]. }
  split; try done.
  - split.
    + apply (queue_exists w w3 Ev); [|apply Hr]. transitivity w1; [done|]. by transitivity w2.
    + intros c [= <-] f Hf. by apply elem_of_nil in Hf.
  - unfold linked at 1. rewrite Hpc. intros [_ Hsince]. apply (linked_core w2 w3 _ Hc3). split; [done|].
    intros _. by rewrite Hd, (sc_since _ _ Hc1).
  - intros limit _ Hpos _ c [= <-]. simpl. lia.
  - intros n0. unfold linked, opened_at. rewrite Hpc. intros [_ [since Hsince]] _.
    pose proof (ev_reads _ _ Ev12). pose proof (sc_reads _ _ Hc1). split.
    { rewrite (sc_since _ _ Hc3), Hd, (sc_since _ _ Hc1), Hsince. done. }
    intros c [= <-]. simpl. unfold sleep_deadline.
    destruct (Instant.checked_add _ _) as [wake|] eqn:Hw; [|done].
    apply Instant.checked_add_Some in Hw as [-> _]. exists (w_reads w2).
    rewrite (sc_clock _ _ Hc3), (sc_config _ _ Hc3). split; [lia|done].
  - unfold delay_after, woke, settled_down. by rewrite Hpc.
  - rewrite (sc_since _ _ Hc3), Hd, (sc_since _ _ Hc1).
    unfold since_after, settled_down, fell. by rewrite Hpc.
Qed.

Lemma watch_open_from w first deadline env st :
  wf w → ws_pc st = WatchPc.Open first deadline → watch_refs w st →
  run_ok w (watch_open first deadline env st) (λ st' w', watch_post w st st' w').
Proof.
  intros Hwf Hpc Hr. apply tick_then; [done|done|]. intros w1 Hwf1 Ev1 Hc1 Hs1 _.
  destruct (timeout_poll _ _ _ _) as [[[u|e]|e]|].
  - by apply (watch_opened_from w w w1 first deadline).
  - apply emit_wire_then; [done|done|]. intros w2 Hwf2 Ev2 Hc2 Hs2.
    apply down_from; [done|done|done|by transitivity w1|done| |by rewrite Hpc].
    by rewrite (sc_since _ _ Hc2), (sc_since _ _ Hc1).
  - apply down_from; [done|done|done|done|done|by rewrite (sc_since _ _ Hc1)|by rewrite Hpc].
  - apply run_from_ret; [done|done|]. apply post_plain; try done.
    + rewrite (sc_since _ _ Hc1). unfold since_after, settled_down, fell. by rewrite Hpc.
    + unfold linked at 1. rewrite Hpc. intros Hl. by apply (linked_core w).
    + unfold delay_after, woke, settled_down. by rewrite Hpc.
Qed.

(** A bookkeeping step seen by the watcher. *)
Lemma core_still w w' :
  same_core w w' → w_sender_alive w' = w_sender_alive w → w_refresh_open w' = w_refresh_open w →
  same_queue w w' → still w w'.
Proof.
  intros [] Ha Ho Hs. split; try done; [congruence|]. intros f Hf. left. by apply Hs.
Qed.

(** A step on an open connection that changes nothing the watcher owns. *)
Lemma post_serve w w' c c' st pc :
  evolves w w' → still w w' → ws_pc st = WatchPc.Serve c → watch_refs w st →
  (pc = WatchPc.Serve c' ∨ pc = WatchPc.Yield c') →
  stable_timer c' = stable_timer c → fetches_exist w' (refreshes c') →
  (∀ limit, watch_events_per_yield (w_config w) = limit → 0 ≤ events_since_yield c < limit →
     0 ≤ events_since_yield c' < limit) →
  watch_post w st (watch_goto pc st) w'.
Proof.
  intros Ev Fr Hpc Hr Hcase Ht Hf Hn.
  assert (connection_of pc = Some c') as Hco by by destruct Hcase as [->| ->].
  assert (settled_down st (watch_goto pc st) = false) as Hns.
  { unfold settled_down. rewrite Hpc. destruct Hcase as [->| ->]; simpl; [|done].
    rewrite Ht, bool_decide_eq_false_2; [done|]. intros [[? Hs] Hnone]. congruence. }
  split; try done.
  - apply (kept_refs w w' st); [done|done|done|]. intros c1. simpl. rewrite Hco. by intros [= <-].
  - intros Hl. unfold linked in Hl. rewrite Hpc in Hl. rewrite <-Ht in Hl.
    rewrite <-(fr_connected _ _ _ Fr), <-(fr_since _ _ _ Fr) in Hl.
    unfold linked. simpl. by destruct Hcase as [->| ->].
  - intros limit Hlim Hpos Hc c1. simpl. rewrite Hco. intros [= <-]. apply Hn; [done|].
    apply Hc. by rewrite Hpc.
  - intros n0 _ Ht1. assert (opened_at w st (watch_goto pc st) n0 = n0) as ->.
    { unfold opened_at. by rewrite Hpc. }
    apply (timed_mono w w' st); [done|by rewrite (fr_since _ _ _ Fr)| |done].
    intros c1. simpl. rewrite Hco, Hpc. intros [= <-]. by exists c.
  - unfold delay_after, woke. by rewrite Hns, Hpc.
  - unfold since_after, fell. rewrite Hns, Hpc. apply (fr_since _ _ _ Fr).
Qed.

Lemma watch_change_from w0 w w1 c change st :
  wf w1 → evolves w0 w1 → evolves w w1 → still w w1 → ws_pc st = WatchPc.Serve c →
  watch_refs w st →
  run_from w0 w1 (watch_change change c st) (λ st' w', watch_post w st st' w').
Proof.
  intros Hwf1 Ev1 Evw Fr Hpc Hr. unfold watch_change. eapply then_from.
  { apply run_from_evolves; [exact Ev1|]. apply (run_always still); [frame|].
    by apply apply_change_from. }
  simpl. intros u w2 Hwf2 Ev2 (Ev12 & _ & Fr2).
  apply core_then; [done|done|by split|]. intros Hwf3 Ev3. apply run_gets.
  apply run_from_ret; [done|done|]. simpl.
  assert (evolves w w2) as Evw2 by by transitivity w1.
  assert (w_config w2 = w_config w) as Hcfg by apply Evw2.
  set (n := if events_since_yield c + 1 =? watch_events_per_yield (w_config w2)
            then 0 else events_since_yield c + 1).
  apply (post_serve w _ c (mkConnection (stable_timer c) (refreshes c) n)); try done.
  - transitivity w2; [done|]. apply evolves_same_core. by split.
  - transitivity w1; [done|]. transitivity w2; [done|].
    apply core_still; [by split|done|done|by intros f].
  - unfold n. case_match; [right|left]; reflexivity.
  - apply (fetches_exist_stable w w2); [done|]. apply (proj2 Hr c). by rewrite Hpc.
  - intros limit <- Hn. simpl. unfold n. rewrite Hcfg.
    destruct (Z.eqb_spec (events_since_yield c + 1) (watch_events_per_yield (w_config w))); lia.
Qed.

Lemma lost_from w0 w w1 c st :
  wf w1 → evolves w0 w1 → evolves w w1 → same_queue w w1 → ws_pc st = WatchPc.Serve c →
  w_disconnected_since w1 = w_disconnected_since w →
  watch_refs w st → run_from w0 w1 (watch_lost st) (λ st' w', watch_post w st st' w').
Proof. intros Hwf1 Ev1 Evw Hs Hpc Hd Hr. apply down_from; try done. by rewrite Hpc. Qed.

(** The stability timer fired on a reading between [w] and [w1]. *)
Definition fired w c w1 : Prop :=
  ∃ wake m, stable_timer c = Some wake ∧ (w_reads w ≤ m < w_reads w1)%nat ∧
    sleep_poll wake (w_clock w m) = Poll.Ready tt.

Lemma became_stable_from w0 w w1 c st :
  wf w1 → evolves w0 w1 → evolves w w1 → still w w1 → ws_pc st = WatchPc.Serve c →
  fired w c w1 → watch_refs w st →
  run_from w0 w1 (watch_became_stable c st) (λ st' w', watch_post w st st' w').
Proof.
  intros Hwf1 Ev1 Evw Fr Hpc Ht Hr. unfold watch_became_stable. apply run_gets.
  eapply then_from; [by apply watch_stable_from|]. simpl.
  intros u w2 Hwf2 Ev2 ->. apply run_from_ret; [done|done|].
  destruct (wf_set_disconnected_since w1 None Hwf1) as [_ Ev12].
  assert (evolves w (set_disconnected_since None w1)) as Ev by by transitivity w1.
  assert (settled_down st (mkWatch (initial_reconnect_delay (w_config w1))
    (WatchPc.Serve (mkConnection None (refreshes c) (events_since_yield c)))) = true) as Hsd.
  { unfold settled_down. rewrite Hpc. simpl. rewrite bool_decide_eq_true_2; [done|].
    destruct Ht as (wake & ? & -> & _). split; [by exists wake|done]. }
  split; try done.
  - split.
    + apply (queue_exists w _ Ev); [|apply Hr]. intros f Hf. by destruct (fr_queue _ _ _ Fr f Hf).
    + intros c' [= <-]. apply (fetches_exist_stable w _ _ Ev). apply (proj2 Hr c). by rewrite Hpc.
  - unfold linked. rewrite Hpc. simpl. intros [Hon _].
    rewrite (fr_connected _ _ _ Fr). split; [done|]. by intros [? ?].
  - intros limit _ _ Hc c' [= <-]. simpl. apply Hc. by rewrite Hpc.
  - intros n0 _ [_ Htc]. specialize (Htc c). rewrite Hpc in Htc. specialize (Htc eq_refl).
    unfold opened_at. rewrite Hpc. destruct Ht as (wake & m & Ht & Hm & Hs). rewrite Ht in Htc.
    assert (held (set_disconnected_since None w1) n0) as Hheld.
    { destruct wake as [wake|]; [|done]. destruct Htc as (n & Hn & ->). exists n, m.
      split; [simpl; lia|]. simpl. by rewrite (ev_clock _ _ Evw), (ev_config _ _ Evw). }
    split; [done|]. by intros c' [= <-].
  - unfold delay_after, woke. rewrite Hsd, Hpc. simpl. by rewrite (ev_config _ _ Evw).
  - unfold since_after. by rewrite Hsd.
Qed.

Lemma fired_back w w1 c w' : evolves w w1 → fired w1 c w' → fired w c w'.
Proof.
  intros Ev (wake & m & Ht & Hm & Hs). pose proof (ev_reads _ _ Ev). exists wake, m.
  rewrite <-(ev_clock _ _ Ev). split_and!; [done|lia|lia|done].
Qed.

Lemma select_fired order c env w w' :
  select_work order c env w = Some (Poll.Ready Work.Stable, w') →
  wf w → fetches_exist w (w_refresh_queue w) → fetches_exist w (refreshes c) → fired w c w'.
Proof.
  revert w. induction order as [|b order IH]; intros w Hrun Hwf Hq Hc; [done|].
  apply run_bind in Hrun as (r & w1 & Hb & Hk).
  destruct (run_from_run _ _ _ _ _ _
    (run_always still _ _ _ _ (frame_branch_poll _ b c env)
      (branch_poll_from w w b c env Hwf (reflexivity w) Hq Hc)) Hb) as (Hwf1 & Ev1 & _ & Fr).
  destruct r as [work|].
  - injection Hk as -> ->. destruct b; simpl in Hb.
    + destruct (stable_timer c) as [wake|] eqn:Ht; [|by inversion Hb].
      unfold D_now, mbind, M_bind in Hb. injection Hb as Hs <-.
      destruct (sleep_poll wake _) as [[]|] eqn:Hsl; [|done].
      exists wake, (w_reads w). split_and!; [done|done|simpl; lia|done].
    + apply run_bind in Hb as (? & w2 & _ & Hb). apply run_bind in Hb as (l & w3 & _ & Hb).
      destruct l; by inversion Hb.
    + apply run_bind in Hb as (l & w3 & _ & Hb). destruct l; by inversion Hb.
    + inversion Hb as [[Hx _]]. by destruct (we_item env).
  - apply (fired_back w w1); [done|]. apply IH; [done|done| |].
    + by apply (queue_stable none_queued w w1).
    + by apply (fetches_exist_stable w w1).
Qed.

Lemma watch_serve_from w c env st :
  wf w → ws_pc st = WatchPc.Serve c → watch_refs w st →
  run_ok w (watch_serve c env st) (λ st' w', watch_post w st st' w').
Proof.
  intros Hwf Hpc [Hq Hc]. pose proof (Hc c ltac:(by rewrite Hpc)) as Hcr.
  destruct (select_work_from w w (we_order env) c env Hwf (reflexivity w) Hq Hcr)
    as (r & w1 & Hrun & Hwf1 & Ev1 & _ & Hw).
  pose proof (frame_select_work none_queued _ _ _ _ _ _ Hrun) as Fr.
  assert (same_queue w w1) as Hs by (intros f Hf; by destruct (fr_queue _ _ _ Fr f Hf)).
  eapply run_step; [exact Hrun|]. destruct r as [work|].
  2: { apply run_from_ret; [done|done|]. destruct st as [d pc]. simpl in Hpc. subst pc.
       eapply (post_serve w w1 c c (mkWatch d (WatchPc.Serve c))); try done; [by left|].
       by apply (fetches_exist_stable w w1). }
  specialize (Hw work eq_refl). assert (watch_refs w st) as Hr by done.
  destruct work as [|[|f l]|rest|[[change|e]|]]; simpl.
  - apply became_stable_from; try done. by eapply select_fired.
  - apply (lost_from w w w1 c); try done. apply (fr_since _ _ _ Fr).
  - apply run_from_ret; [done|done|].
    apply (post_serve w w1 c (mkConnection (stable_timer c) (refreshes c ++ f :: l)
      (events_since_yield c))); try done; [by left|]. simpl.
    intros g [Hg|Hg]%elem_of_app; [|by apply Hw]. by apply (fetches_exist_stable w w1 _ Ev1 Hcr).
  - apply run_from_ret; [done|done|].
    apply (post_serve w w1 c (mkConnection (stable_timer c) rest (events_since_yield c)));
      try done. by left.
  - by apply (watch_change_from w w w1 c).
  - apply emit_wire_then; [done|done|]. intros w2 Hwf2 Ev2 Hc2 Hs2.
    apply (lost_from w w w2 c); try done; [by transitivity w1|].
    by rewrite (sc_since _ _ Hc2), (fr_since _ _ _ Fr).
  - apply (lost_from w w w1 c); try done. apply (fr_since _ _ _ Fr).
Qed.

Lemma watch_down_from w env st :
  wf w → ws_pc st = WatchPc.Down → watch_refs w st →
  run_ok w (watch_down env st) (λ st' w', watch_post w st st' w').
Proof.
  intros Hwf Hpc Hr. unfold watch_down. eapply then_from.
  { apply run_from_evolves; [reflexivity|].
    apply (run_always same_queue); [apply same_queue_disconnected|]. by apply watch_disconnected_from. }
  simpl. intros u w1 Hwf1 Ev1 (_ & (Hoff & _ & _ & _ & Hd & _) & Hs).
  apply tick_then; [done|done|]. intros w2 Hwf2 Ev2 Hc2 Hs2 _. apply run_from_ret; [done|done|].
  apply post_plain; try done.
  - by transitivity w1.
  - rewrite (sc_since _ _ Hc2), Hd. unfold since_after, settled_down, fell. by rewrite Hpc.
  - intros _. apply (linked_core w1 w2 _ Hc2). split; [done|]. by rewrite Hd.
  - unfold delay_after, woke, settled_down. by rewrite Hpc.
Qed.

Lemma watch_sleep_from w wake st :
  wf w → ws_pc st = WatchPc.Sleep wake → watch_refs w st →
  run_ok w (watch_sleep wake st) (λ st' w', watch_post w st st' w').
Proof.
  intros Hwf Hpc Hr. apply tick_then; [done|done|]. intros w1 Hwf1 Ev1 Hc1 Hs1 _.
  destruct (sleep_poll _ _) as [u|].
  - apply run_gets. eapply run_from_weaken; [by apply open_begin_from|].
    intros st' w2 _ Ev2 (Hc2 & Hs2 & d & ->). apply post_plain; try done.
    + by transitivity w1.
    + rewrite (sc_since _ _ Hc2), (sc_since _ _ Hc1).
      unfold since_after, settled_down, fell. by rewrite Hpc.
    + unfold linked at 1. rewrite Hpc. intros Hl. apply (linked_core w1 w2 _ Hc2).
      by apply (linked_core w w1 (watch_goto (WatchPc.Open true d) st) Hc1).
    + unfold delay_after, woke, settled_down. rewrite Hpc. simpl. by rewrite (sc_config _ _ Hc1).
  - apply run_from_ret; [done|done|]. apply post_plain; try done.
    + by rewrite Hpc.
    + rewrite (sc_since _ _ Hc1). unfold since_after, settled_down, fell. by rewrite Hpc.
    + by apply linked_core.
    + unfold delay_after, woke, settled_down. by rewrite Hpc.
Qed.

Lemma watch_step_ok w env st :
  wf w → watch_refs w st → run_ok w (watch_step env st) (λ st' w', watch_post w st st' w').
Proof.
  intros Hwf Hr. unfold watch_step. destruct (ws_pc st) as [first d|c|c| |wake] eqn:Hpc.
  - by apply watch_open_from.
  - by apply watch_serve_from.
  - apply run_from_ret; [done|done|]. destruct (we_yielded env).
    + split; try done.
      * split; [apply Hr|]. intros c' [= <-]. apply Hr. by rewrite Hpc.
      * unfold linked. by rewrite Hpc.
      * intros limit _ _ Hc c' [= <-]. apply Hc. by rewrite Hpc.
      * intros n0 _ Ht. unfold opened_at. rewrite Hpc.
        apply (timed_mono w w st); [done|done| |done].
        intros c' [= <-]. exists c. by rewrite Hpc.
      * unfold delay_after, woke, settled_down. by rewrite Hpc.
      * unfold since_after, settled_down, fell. by rewrite Hpc.
    + split; try done; [|unfold delay_after, woke, settled_down; by rewrite Hpc
        |unfold since_after, settled_down, fell; by rewrite Hpc].
      intros n0 _ Ht. unfold opened_at. by rewrite Hpc.
  - by apply watch_down_from.
  - by apply watch_sleep_from.
Qed.
End watcher_methods.
