(* ===== verification/Accounts.v ===== *)
(** * Accounts: every refresh has one owner

    A claimed refresh passes from the caller that claimed it to the refresh queue
    and on to the watcher.  [accounts] says that it is with exactly one of them and
    that no claim is without an owner; every method and every step of the watch
    loop keeps it so. *)

From S2P Require Export Guards WatcherMethods.

Section accounts.
Context {T P C : Type} `{Countable T, !LruCache T SubjectSlot C, !LruCacheOk T SubjectSlot C, TimeDriver}.
Abbreviation G := (M (World T P C)).
Implicit Types (w : World T P C) (e f g : positive) (s : T) (pf : PendingFetch T P).
Implicit Types (F : positive → Prop) (held : list (positive * positive)) (rs : list positive).
Implicit Types (down : Prop).

(** ** The owners of refreshes

    A refresh is with the caller that claimed it ([held], with its entry), in the
    refresh queue, or with the watcher ([rs]). *)

Definition owners w held rs : list positive := held.*2 ++ w_refresh_queue w ++ rs.

(** Every refresh has one owner, and no claim of a refresh is without, except
    while the watcher is [down]: then the entries are about to be retired. *)
Record accounts w held rs down : Prop := {
  ac_ledger : ledger w;
  ac_nodup : NoDup (owners w held rs);
  ac_owner f : f ∈ owners w held rs → accounted w f ∧ refresh_at w f;
  ac_guard e f : (e, f) ∈ held → holding w e f;
  ac_claims e f : refresh_claim w e f → f ∈ owners w held rs ∨ down;
}.

Lemma accounts_perm w held held' rs down :
  held ≡ₚ held' → accounts w held rs down → accounts w held' rs down.
Proof.
  intros Hp [L N O Gd Cl]. assert (owners w held rs ≡ₚ owners w held' rs) as Ho.
  { unfold owners. by rewrite Hp. }
  split; [done|by rewrite <-Ho|..].
  - intros f. rewrite <-Ho. apply O.
  - intros e f. rewrite <-Hp. apply Gd.
  - intros e f Hc. rewrite <-Ho. by apply Cl with e.
Qed.

Lemma refresh_kept F N w w' f : moves F N w w' → refresh_at w f → refresh_at w' f.
Proof.
  intros Hm (pf & Hf & Hr). destruct (mv_fetch _ _ _ _ Hm _ _ Hf) as (pf' & Hf' & [_ _ Hx] & _).
  exists pf'. split; [done|]. by rewrite Hx.
Qed.

Lemma first_not_refresh w f : first_at w f → ¬ refresh_at w f.
Proof. intros (pf & Hf & Hr) (pf' & Hf' & Hr'). simplify_eq. rewrite Hr in Hr'. by destruct Hr'. Qed.

(** What others do, and the polls of a first lookup or of the watcher's own. *)
Lemma accounts_moves F w w' held rs down :
  moves F no_claim w w' → (∀ f, F f → first_at w f ∨ f ∈ rs) →
  accounts w held rs down → accounts w' held rs down.
Proof.
  intros Hm HF [L N O Gd Cl]. assert (owners w' held rs = owners w held rs) as Ho.
  { unfold owners. by rewrite (mv_queue _ _ _ _ Hm). }
  split; rewrite ?Ho; [apply Hm|done|..].
  - intros f Hf. destruct (O _ Hf) as [Ha Hr]. split; [|by eapply refresh_kept].
    by destruct (mv_accounted _ _ _ _ Hm _ Ha) as [[? []]|?].
  - intros e f Hin. apply (holding_kept F no_claim w); [by left| |by apply Gd].
    assert (f ∈ held.*2) as Hin2 by (apply list_elem_of_fmap; by exists (e, f)).
    intros [Hfirst|Hrs]%HF.
    + apply (first_not_refresh _ _ Hfirst), O. unfold owners. apply elem_of_app. by left.
    + unfold owners in N. apply NoDup_app in N as (_ & N & _). apply (N f Hin2), elem_of_app. by right.
  - intros e f [[]|Hc]%(mv_claims _ _ _ _ Hm). by apply Cl with e.
Qed.

Lemma accounts_quiet {A} (m : G A) w a w' held rs down :
  always (booked nothing_polled no_claim) m → m w = Some (a, w') → wf w →
  accounts w held rs down → accounts w' held rs down.
Proof.
  intros Hm Hr Hwf Ha. apply (accounts_moves nothing_polled w); [|by intros f []|done].
  eapply quiet_moves; [exact Hm|exact Hr|apply Ha|by apply wf_taken].
Qed.

Definition guard_of (r : Access.t) : list (positive * positive) :=
  match r with Access.Enqueue e f _ => [(e, f)] | Access.Done _ => [] end.

(** A caller suspends with the refresh it claimed. *)
Lemma accounts_issued w r w' held rs down :
  issued w r w' → accounts w held rs down → accounts w' (guard_of r ++ held) rs down.
Proof.
  intros [B Hr] Ha. pose proof Ha as [L N O Gd Cl].
  pose proof (books_moves _ _ _ _ L B (λ f, False_ind _)) as Hm. destruct r as [b|e f q]; simpl.
  { apply (accounts_moves nothing_polled w); [|by intros f []|done].
    by apply (moves_weaken nothing_polled (fresh_guard (Access.Done b))). }
  destruct Hr as [Hnone [Hh Ho]]. destruct Hh as (pf & Hf & Hpe & Hun).
  assert (Hnew : f ∉ owners w held rs).
  { intros (_ & (pf0 & ? & _))%O. congruence. }
  assert (owners w' ((e, f) :: held) rs = f :: owners w held rs) as How.
  { unfold owners. simpl. by rewrite (mv_queue _ _ _ _ Hm). }
  split; rewrite ?How; [apply Hm|by apply NoDup_cons|..].
  - intros g [->|Hg]%elem_of_cons.
    + split; [exists pf; by rewrite Hpe; auto|exists pf; by destruct Hun].
    + destruct (O _ Hg) as [Hacc Hrf]. split; [|by eapply refresh_kept].
      destruct (mv_accounted _ _ _ _ Hm _ Hacc) as [[x [_ ->]]|?]; [|done]. by destruct Hnew.
  - intros x g [[= -> ->]|Hin]%elem_of_cons; [by exists pf|].
    apply (holding_kept nothing_polled (fresh_guard (Access.Enqueue e f q)) w);
      [by left|by intros []|by apply Gd].
  - intros x g [[-> ->]|Hc]%(mv_claims _ _ _ _ Hm); [left; by left|].
    destruct (Cl _ _ Hc); [left; by right|by right].
Qed.

(** The worlds agree on entries and lookups. *)
Lemma accounts_same w w' held held' rs rs' (down down' : Prop) :
  w_entries w' = w_entries w → w_fetches w' = w_fetches w →
  owners w' held' rs' ≡ₚ owners w held rs → (∀ e f, (e, f) ∈ held' → (e, f) ∈ held) →
  (down → down') → accounts w held rs down → accounts w' held' rs' down'.
Proof.
  intros He Hf Ho Hin Hd [L N O Gd Cl].
  assert (Hown : ∀ e f, owns w' e f ↔ owns w e f) by (intros e f; unfold owns; by rewrite He).
  assert (Hacc : ∀ f, accounted w' f ↔ accounted w f).
  { intros f. unfold accounted. rewrite Hf. by setoid_rewrite Hown. }
  assert (Href : ∀ f, refresh_at w' f ↔ refresh_at w f) by (intros f; unfold refresh_at; by rewrite Hf).
  split.
  - intros f. destruct (L f) as [Hty Hcl]. split.
    + intros pf Hpf. rewrite Hf in Hpf. destruct (Hty pf Hpf); [by left|right; by apply Hacc].
    + intros e pf [Hx%Hown Hy%Href] Hpf. rewrite Hf in Hpf. by apply (Hcl e).
  - by rewrite Ho.
  - intros f. rewrite Ho. intros [? ?]%O. by rewrite Hacc, Href.
  - intros e f Hx%Hin%Gd. unfold holding in *. by rewrite Hf.
  - intros e f [Hx%Hown Hy%Href]. rewrite Ho. destruct (Cl e f); [done|by left|right; auto].
Qed.

(** The refresh queue took the refresh from its caller. *)
Lemma accounts_queued w e f held rs down :
  accounts w ((e, f) :: held) rs down → accounts (queued f w) held rs down.
Proof.
  apply accounts_same; try done.
  - unfold owners. simpl. rewrite <-(assoc_L (++) (w_refresh_queue w)). simpl.
    by rewrite <-!Permutation_middle.
  - intros x g Hin. by right.
Qed.

(** The caller gave the claim up. *)
Lemma accounts_given_up w e f w' held rs down :
  accounts w ((e, f) :: held) rs down → given_up w e f w' → accounts w' held rs down.
Proof.
  intros [L N O Gd Cl] [B Hno].
  pose proof (books_moves _ _ _ _ L B (λ f, False_ind _)) as Hm.
  assert (owners w ((e, f) :: held) rs = f :: owners w' held rs) as Ho.
  { unfold owners. simpl. by rewrite (mv_queue _ _ _ _ Hm). }
  rewrite Ho in N, O, Cl. apply NoDup_cons in N as [Hf N].
  split; [apply Hm|done|..].
  - intros g Hg. destruct (O g) as [Ha Hr]; [by right|]. split; [|by eapply refresh_kept].
    destruct (mv_accounted _ _ _ _ Hm _ Ha) as [[x [_ ->]]|?]; [by destruct Hf|done].
  - intros x g Hin. apply (holding_kept nothing_polled (λ x g, x = e ∧ g = f) w);
      [by left|by intros []|apply Gd; by right].
  - intros x g Hc. destruct (mv_claims _ _ _ _ Hm _ _ Hc) as [[-> ->]|Hc'].
    { by destruct (Hno e), Hc. }
    destruct (Cl _ _ Hc') as [[->|?]%elem_of_cons|?]; [|by left|by right].
    by destruct (Hno x), Hc.
Qed.

(** The watcher received a batch. *)
Lemma accounts_received w held rs batch rest down :
  w_refresh_queue w = batch ++ rest → accounts w held rs down →
  accounts (set_refresh_queue rest w) held (rs ++ batch) down.
Proof.
  intros Hq. apply accounts_same; try done. unfold owners. simpl. rewrite Hq.
  rewrite <-!(assoc_L (++)). apply Permutation_app_head.
  rewrite (Permutation_app_comm batch). rewrite <-!(assoc_L (++)). apply Permutation_app_head.
  by rewrite Permutation_app_comm.
Qed.

(** A refresh of the watcher was answered. *)
Lemma accounts_answered w held f rs rest down :
  rs ≡ₚ f :: rest → (∀ e, ¬ refresh_claim w e f) → accounts w held rs down →
  accounts w held rest down.
Proof.
  intros Hp Hno [L N O Gd Cl].
  assert (owners w held rs ≡ₚ f :: owners w held rest) as Ho.
  { unfold owners. rewrite Hp. by rewrite !(assoc_L (++)), <-Permutation_middle. }
  rewrite Ho in N. apply NoDup_cons in N as [_ N]. split; [done|done|..|done|].
  - intros g Hg. apply O. rewrite Ho. by right.
  - intros e g Hc. destruct (Cl _ _ Hc) as [Hg|?]; [|by right]. rewrite Ho in Hg.
    apply elem_of_cons in Hg as [->|?]; [by destruct (Hno e)|by left].
Qed.

(** The watcher lost its connection, and the refreshes it drove. *)
Lemma accounts_lost w held rs down : accounts w held rs down → accounts w held [] True.
Proof.
  intros [L N O Gd Cl]. assert (∀ f, f ∈ owners w held [] → f ∈ owners w held rs) as Hsub.
  { intros f. unfold owners. rewrite !elem_of_app. intros [?|[?|Hf]]; auto. by apply elem_of_nil in Hf. }
  split; [done|..|done|by right].
  - unfold owners in *. rewrite app_nil_r. rewrite (assoc_L (++)) in N. by apply NoDup_app in N as [? _].
  - intros f Hf. by apply O, Hsub.
Qed.

(** Nothing is listed any more. *)
Lemma accounts_cleared w held rs down down' :
  wf w → slots w = [] → accounts w held rs down → accounts w held rs down'.
Proof.
  intros Hwf Hs [L N O Gd Cl]. split; try done. intros e f [(en & He & Hp) _]. exfalso.
  pose proof (pending_listed _ _ _ _ Hwf He Hp) as Hl. unfold listed in Hl. rewrite Hs in Hl.
  by apply elem_of_nil in Hl.
Qed.
End accounts.

(** ** The watch loop *)

Section watch_accounts.
Context {T P C : Type} `{Countable T, !LruCache T SubjectSlot C, !LruCacheOk T SubjectSlot C, TimeDriver}.
Abbreviation G := (M (World T P C)).
Implicit Types (w : World T P C) (e f : positive) (held : list (positive * positive)).
Implicit Types (rs : list positive) (down : Prop) (c : Connection) (env : WatchEnv T P) (st : WatchState).

Lemma accounts_exist w held rs down f :
  accounts w held rs down → f ∈ owners w held rs → is_Some (w_fetches w !! f).
Proof. intros Ha (_ & (pf & Hf & _))%(ac_owner _ _ _ _ Ha). by exists pf. Qed.

(** One poll of a lookup that is accounted for. *)
Lemma fetch_poll_moves w f answer r w' :
  wf w → ledger w → accounted w f → fetch_poll f answer true w = Some (r, w') →
  moves (eq f) no_claim w w' ∧ wf w' ∧
  (∀ x, r = Poll.Ready x → refresh_at w f → ∀ e, ¬ refresh_claim w' e f).
Proof.
  intros Hwf Hl Hacc Hrun.
  destruct (fetch_poll_keeps _ _ _ _ _ Hwf Hacc (proj2 (Hl f)) Hrun) as (Ha & Hc & Hno).
  assert (is_Some (w_fetches w !! f)) as Hf by (destruct Hacc as (pf & ? & _); by exists pf).
  destruct (run_from_run _ _ _ _ _ _ (fetch_poll_from w w f answer true Hwf (reflexivity w) Hf) Hrun)
    as (Hwf' & _). split; [|by split].
  apply books_moves; [done| |by intros g <-].
  eapply run_books; [by apply booked_fetch_poll|exact Hrun|by apply wf_taken].
Qed.

(** The watcher polls its refreshes until one is answered. *)
Lemma refreshes_poll_accounts polled rs w r w' held down :
  wf w → accounts w held rs down → refreshes_poll polled rs w = Some (r, w') →
  wf w' ∧ accounts w' held (match r with Poll.Ready rest => rest | Poll.Pending => rs end) down.
Proof.
  revert w. induction polled as [|[f answer] polled IH]; intros w Hwf Ha Hrun; simpl in Hrun.
  { by injection Hrun as <- <-. }
  destruct (list_remove f rs) as [rest|] eqn:Hrest; [|by eapply IH].
  pose proof (list_remove_Permutation _ _ _ Hrest) as Hperm.
  apply run_bind in Hrun as (x & w1 & Hx & Hrun).
  assert (f ∈ rs) as Hin by (rewrite Hperm; by left).
  destruct (ac_owner _ _ _ _ Ha f) as [Hacc Href]; [unfold owners; rewrite !elem_of_app; auto|].
  destruct (fetch_poll_moves w f answer x w1 Hwf (ac_ledger _ _ _ _ Ha) Hacc Hx) as (Hm & Hwf1 & Hno).
  assert (accounts w1 held rs down) as Ha1.
  { apply (accounts_moves (eq f) w); [done|by intros g <-; right|done]. }
  destruct x as [y|]; [|by eapply IH]. injection Hrun as <- <-. split; [done|].
  eapply accounts_answered; [exact Hperm| |exact Ha1]. by eapply Hno.
Qed.

(** Where the refreshes are once a branch is ready. *)
Definition refreshes_after c (r : Poll.t (Work.t T)) : list positive :=
  match r with
  | Poll.Ready (Work.RefreshBatch batch) => refreshes c ++ batch
  | Poll.Ready (Work.RefreshDone rest) => rest
  | _ => refreshes c
  end.

Lemma branch_poll_accounts b c env w r w' held down :
  wf w → accounts w held (refreshes c) down → branch_poll b c env w = Some (r, w') →
  wf w' ∧ accounts w' held (refreshes_after c r) down.
Proof.
  intros Hwf Ha Hrun.
  assert (Hex : fetches_exist w (w_refresh_queue w) ∧ fetches_exist w (refreshes c)).
  { split; intros f Hf; eapply accounts_exist; try exact Ha; unfold owners; rewrite !elem_of_app; auto. }
  destruct (run_from_run _ _ _ _ _ _ (branch_poll_from w w b c env Hwf (reflexivity w) (proj1 Hex) (proj2 Hex)) Hrun)
    as (Hwf' & _). split; [done|]. destruct b; simpl in Hrun.
  - destruct (stable_timer c) as [wake|]; [|by injection Hrun as <- <-].
    apply run_bind in Hrun as (now & w1 & Hnow & Hrun). injection Hrun as <- <-.
    assert (accounts w1 held (refreshes c) down) as Ha1
      by (eapply accounts_quiet; [by apply closed_now, _|exact Hnow|done|done]).
    by destruct (sleep_poll wake now).
  - apply run_bind in Hrun as (limit & w1 & Hl & Hrun). injection Hl as _ <-.
    apply run_bind in Hrun as (batch & w1 & Hb & Hrun). injection Hrun as <- <-.
    unfold recv_many, gets, mbind, M_bind in Hb. destruct (limit =? 0).
    { injection Hb as <- <-. simpl. by rewrite app_nil_r. }
    destruct (w_refresh_queue w) as [|f l] eqn:Hq.
    { injection Hb as <- <-. destruct (w_refresh_open w); simpl; [done|by rewrite app_nil_r]. }
    injection Hb as <- <-. simpl. apply accounts_received; [|done].
    by rewrite Hq, (take_drop (Z.to_nat limit)).
  - apply run_bind in Hrun as (rest & w1 & Hr & Hrun). injection Hrun as <- <-.
    destruct (refreshes_poll_accounts _ _ _ _ _ _ _ Hwf Ha Hr) as [_ Ha1]. by destruct rest.
  - injection Hrun as <- <-. by destruct (we_item env).
Qed.

Lemma select_work_accounts order c env w r w' held down :
  wf w → accounts w held (refreshes c) down → select_work order c env w = Some (r, w') →
  wf w' ∧ accounts w' held (refreshes_after c r) down.
Proof.
  revert w. induction order as [|b order IH]; intros w Hwf Ha Hrun; simpl in Hrun.
  { by injection Hrun as <- <-. }
  apply run_bind in Hrun as (x & w1 & Hx & Hrun).
  destruct (branch_poll_accounts b c env w x w1 held down Hwf Ha Hx) as [Hwf1 Ha1].
  destruct x as [work|]; [by injection Hrun as <- <-|by apply IH with w1].
Qed.

Definition driven st : list positive :=
  match connection_of (ws_pc st) with Some c => refreshes c | None => [] end.

Definition going_down st : Prop := ws_pc st = WatchPc.Down.

Lemma accounts_weaken w held rs down down' :
  (down → down') → accounts w held rs down → accounts w held rs down'.
Proof. intros Hd. by apply accounts_same. Qed.

Lemma booked_emit_wire F N (e : DecisionSourceError) : always (booked F N) (emit_wire e : G unit).
Proof. unfold emit_wire. booked. Qed.
Lemma booked_open_begin F N st : always (booked F N) (open_begin st : G WatchState).
Proof. unfold open_begin. booked. Qed.
Hint Resolve booked_emit_wire booked_open_begin : books.
Lemma booked_watch_open F N first d env st : always (booked F N) (watch_open first d env st : G _).
Proof. unfold watch_open, watch_opened. booked. Qed.
Lemma booked_watch_sleep F N wake st : always (booked F N) (watch_sleep wake st : G _).
Proof. unfold watch_sleep. booked. Qed.

Lemma watch_open_driven first d env st w st' w' :
  watch_open first d env st w = Some (st', w') → driven st' = [].
Proof.
  intros (now & w1 & _ & Hrun)%run_bind. destruct (timeout_poll _ _ _ _) as [[[]|]|].
  - do 3 apply run_bind in Hrun as (? & ? & _ & Hrun). by injection Hrun as <- _.
  - do 2 apply run_bind in Hrun as (? & ? & _ & Hrun). by injection Hrun as <- _.
  - apply run_bind in Hrun as (? & ? & _ & Hrun). by injection Hrun as <- _.
  - by injection Hrun as <- _.
Qed.

Lemma watch_lost_accounts w held rs down st st' w' :
  wf w → accounts w held rs down → watch_lost st w = Some (st', w') →
  accounts w' held (driven st') (going_down st').
Proof.
  intros Hwf Ha (u & w1 & Hu & Hrun)%run_bind. injection Hrun as <- <-.
  apply (accounts_weaken _ _ _ True); [done|]. eapply accounts_lost.
  by eapply accounts_quiet; [apply closed_emit, _|exact Hu|..].
Qed.

Lemma watch_work_accounts c work st w st' w' held :
  ws_pc st = WatchPc.Serve c → wf w →
  accounts w held (refreshes_after c (Poll.Ready work)) (going_down st) →
  watch_work c work st w = Some (st', w') → accounts w' held (driven st') (going_down st').
Proof.
  intros Hpc Hwf Ha Hrun. assert (Hgo : ∀ d, going_down st → d) by (intros d; unfold going_down; by rewrite Hpc).
  destruct work as [|[|f l]|rest|[[change|e]|]]; simpl in Hrun, Ha.
  - apply run_bind in Hrun as (limit & w1 & Hl & Hrun). injection Hl as _ <-.
    apply run_bind in Hrun as (u & w1 & Hu & Hrun). injection Hrun as <- <-.
    eapply accounts_weaken; [apply Hgo|].
    by eapply accounts_quiet; [apply booked_watch_stable|exact Hu|..].
  - rewrite app_nil_r in Ha. by eapply watch_lost_accounts.
  - injection Hrun as <- <-. by eapply accounts_weaken; [apply Hgo|].
  - injection Hrun as <- <-. by eapply accounts_weaken; [apply Hgo|].
  - assert (always (booked nothing_polled no_claim) (watch_change change c st : G _)) as Hq.
    { unfold watch_change. booked. }
    assert (driven st' = refreshes c) as ->.
    { do 3 apply run_bind in Hrun as (? & ? & _ & Hrun). injection Hrun as <- _. by case_match. }
    eapply accounts_weaken; [apply Hgo|]. by eapply accounts_quiet; [exact Hq|exact Hrun|..].
  - apply run_bind in Hrun as (u & w1 & Hu & Hrun).
    eapply watch_lost_accounts; [| |exact Hrun].
    + apply (wf_same_core w); [|done]. unfold emit_wire in Hu.
      by destruct (is_wire e); injection Hu as _ <-.
    + by eapply accounts_quiet; [apply booked_emit_wire|exact Hu|..].
  - by eapply watch_lost_accounts.
Qed.

Lemma watch_step_accounts env st w st' w' held :
  wf w → accounts w held (driven st) (going_down st) → watch_step env st w = Some (st', w') →
  accounts w' held (driven st') (going_down st').
Proof.
  intros Hwf Ha Hrun. unfold watch_step in Hrun.
  destruct (ws_pc st) as [first d|c|c| |wake] eqn:Hpc.
  - rewrite (watch_open_driven _ _ _ _ _ _ _ Hrun).
    eapply accounts_quiet; [apply booked_watch_open|exact Hrun|done|].
    eapply accounts_weaken; [|by unfold driven in Ha; rewrite Hpc in Ha]. unfold going_down. by rewrite Hpc.
  - apply run_bind in Hrun as (r & w1 & Hr & Hrun).
    destruct (select_work_accounts (we_order env) c env w r w1 held (going_down st) Hwf) as [Hwf1 Ha1];
      [by unfold driven in Ha; rewrite Hpc in Ha|done|].
    destruct r as [work|]; [by eapply watch_work_accounts|]. injection Hrun as <- <-.
    unfold driven. by rewrite Hpc.
  - injection Hrun as <- <-. destruct (we_yielded env); [|done].
    unfold driven, going_down in *. rewrite Hpc in Ha. simpl in *.
    eapply accounts_weaken; [|exact Ha]. done.
  - unfold watch_down in Hrun. apply run_bind in Hrun as (u & w1 & Hu & Hrun).
    apply run_bind in Hrun as (now & w2 & Hnow & Hrun). injection Hrun as <- <-.
    destruct (run_from_run _ _ _ _ _ _ (watch_disconnected_from w w Hwf (reflexivity w)) Hu)
      as (Hwf1 & _ & _ & _ & Hs & _).
    eapply accounts_quiet; [apply closed_now, _|exact Hnow|done|].
    eapply (accounts_cleared _ _ _ (going_down st)); [done|done|].
    unfold driven in Ha. rewrite Hpc in Ha.
    by eapply accounts_quiet; [apply booked_watch_disconnected|exact Hu|..].
  - assert (driven st' = []) as ->.
    { apply run_bind in Hrun as (now & w1 & _ & Hrun). destruct (sleep_poll _ _).
      - do 3 apply run_bind in Hrun as (? & ? & _ & Hrun). by injection Hrun as <- _.
      - injection Hrun as <- _. unfold driven. by rewrite Hpc. }
    eapply accounts_quiet; [apply booked_watch_sleep|exact Hrun|done|].
    eapply accounts_weaken; [|by unfold driven in Ha; rewrite Hpc in Ha]. unfold going_down. by rewrite Hpc.
Qed.
End watch_accounts.
