(* ===== verification/System.v ===== *)
(** * System: every interleaving of the gate's methods

    [gate_step] is one method, or one segment of an async method between two
    awaits, run by anybody; [reachable] is any interleaving of them.  A step changes the
    connection only if it moves the generation of the snapshot on by one.  The
    invariant holds in every reachable world and every later world evolves the
    earlier ones, which gives the gate's contract below. *)

From S2P Require Export WatcherMethods.

Section system.
Context {T P C : Type} `{Countable T, !LruCache T SubjectSlot C, !LruCacheOk T SubjectSlot C, TimeDriver}.
Implicit Types (w : World T P C) (e f : positive) (s : T) (en : Entry P).

(** ** Handles *)

Lemma observe_from w0 w e :
  wf w → evolves w0 w → settled w e →
  run_from w0 w (admission_observe e) (λ o w', evolves w w' ∧
    (dead w e → o = Observed.Stale ∨ o = Observed.Expired)).
Proof.
  intros Hwf Ev (en & He & Hset). apply run_from_evolves; [done|].
  apply now_then; [done|done|]. intros w1 Hwf1 Ev1 Hc.
  assert (w_entries w1 !! e = Some en) as He1 by by rewrite (sc_entries _ _ Hc).
  eapply run_from_weaken; [by apply (entry_observed_at_from w w1 e en)|].
  intros o w2 _ _ (sx & (_ & _ & en' & _ & Hcase) & Ho) Hd.
  destruct (dead_stale _ _ Hwf Hd) as (en0 & He0 & Hst). simplify_eq.
  destruct Hcase as [(_ & -> & _)|(_ & Hx & _)]; unfold observed_of in Ho; simpl in Ho.
  - unfold entry_decode in Hst. rewrite Hst in Ho. left. congruence.
  - rewrite Hx in Ho. right. congruence.
Qed.

Lemma state_from w0 w e :
  wf w → evolves w0 w → settled w e →
  run_from w0 w (admission_state e) (λ x w', evolves w w' ∧
    (dead w e → x = AdmissionState.Stale)).
Proof.
  intros Hwf Ev Hs. eapply run_from_bind; [by apply (observe_from w0 w e)|].
  intros o w1 Hwf1 Ev1 [Ev01 Hd]. apply run_from_ret; [done|done|]. split; [done|].
  intros [-> | ->]%Hd; done.
Qed.

Lemma check_from w0 w e :
  wf w → evolves w0 w → settled w e →
  run_from w0 w (admission_check e) (λ x w', evolves w w' ∧
    (dead w e → x = (AdmissionState.Stale, false))).
Proof.
  intros Hwf Ev (en & He & Hset). apply run_from_evolves; [done|].
  apply now_then; [done|done|]. intros w1 Hwf1 Ev1 Hc.
  assert (w_entries w1 !! e = Some en) as He1 by by rewrite (sc_entries _ _ Hc).
  eapply run_from_bind; [by apply (entry_current_at_from w w1 e en)|].
  intros [cur x] w2 Hwf2 Ev2 (_ & _ & en' & He' & Hcase).
  destruct Hcase as [(_ & [= -> ->] & ->)|(_ & Hx & _)]; [|simpl in Hx; subst x; by apply run_from_ret].
  assert (w_entries w2 !! e = Some en) as He2 by by rewrite He', lookup_insert_eq.
  assert (Hgo : ∀ a, (dead w e → a = AdmissionState.Stale) → dead w e →
    (a, refresh_due_at en (current en) (w_clock w (w_reads w))) = (AdmissionState.Stale, false)).
  { intros a Ha Hd. rewrite (Ha Hd). f_equal.
    destruct (dead_stale _ _ Hwf Hd) as (en0 & He0 & Hst). simplify_eq.
    apply not_true_iff_false. intros [Hel _]%andb_true_iff.
    apply refresh_eligible_true in Hel as (_ & Hv & _). unfold entry_decode in Hst.
    by rewrite Hst in Hv. }
  assert (Hdec : ∀ x, entry_decode en = x → dead w e → x = EntryState.Stale).
  { intros x <- Hd. destruct (dead_stale _ _ Hwf Hd) as (en0 & He0 & Hst). by simplify_eq. }
  unfold entry_decode in Hset, Hdec.
  destruct (decode_entry_state (sn_word (current en))) eqn:Hd; [done|..].
  all: eapply run_step; [reflexivity|]; apply (load_then _ _ _ en); [done|].
  all: apply run_from_ret; [done|done|]; apply Hgo.
  all: intros Hx; by specialize (Hdec _ eq_refl Hx).
Qed.

Lemma payload_from w0 w e :
  wf w → evolves w0 w → is_Some (w_entries w !! e) →
  run_from w0 w (admission_payload e) (λ x w', evolves w w' ∧ (dead w e → x = None)).
Proof.
  intros Hwf Ev [en He]. apply run_from_evolves; [done|].
  apply now_then; [done|done|]. intros w1 Hwf1 Ev1 Hc.
  assert (w_entries w1 !! e = Some en) as He1 by by rewrite (sc_entries _ _ Hc).
  eapply run_from_bind; [by apply (entry_current_at_from w w1 e en)|].
  intros [cur x] w2 Hwf2 Ev2 (_ & _ & en' & He' & Hcase). apply run_from_ret; [done|done|].
  intros Hd. destruct (dead_stale _ _ Hwf Hd) as (en0 & He0 & Hst). simplify_eq.
  destruct Hcase as [(_ & [= -> ->] & _)|(_ & Hx & _)]; [|simpl in Hx; by subst x].
  unfold entry_decode in Hst. by rewrite Hst.
Qed.

(** ** Health *)

Lemma health_run v w r w' :
  health_status v w = Some (r, w') →
  (r = DecisionSourceHealthStatus.Stable ↔ w_disconnected_since w = None) ∧
  (r = DecisionSourceHealthStatus.Failed ↔ ∃ since, w_disconnected_since w = Some since ∧
     health_admission_timeout v ≤
       Instant.saturating_duration_since (w_clock w (w_reads w)) since) ∧
  same_core w w'.
Proof.
  unfold health_status, D_now, gets, mbind, M_bind. simpl.
  destruct (w_disconnected_since w) as [since|] eqn:Hs; simpl.
  - intros [= <- <-]. destruct (Z.leb_spec (health_admission_timeout v)
      (Instant.saturating_duration_since (w_clock w (w_reads w)) since)) as [Hle|Hlt].
    + split_and!; [done|split; [by eexists|done]|split; simpl; try done; lia].
    + split_and!; [done| |split; simpl; try done; lia].
      split; [done|]. intros (? & [= <-] & ?). lia.
  - intros [= <- <-]. split_and!; [done|split; [done|by intros (? & ? & _)]|done].
Qed.

Lemma health_from w0 w v :
  wf w → evolves w0 w → run_from w0 w (health_status v) (λ _ _, True).
Proof.
  intros Hwf Ev. unfold health_status. apply run_gets.
  destruct (w_disconnected_since w); [|by apply run_from_ret].
  apply now_then; [done|done|]. intros w1 Hwf1 Ev1 _. by apply run_from_ret.
Qed.

(** ** Steps *)

(** What a client of the gate can do without hearing from the source.  The
    references a caller of a method holds are part of its premises. *)
Inductive local_step w : World T P C → Prop :=
| step_mark_dirty u w' : mark_shape_dirty w = Some (u, w') → local_step w w'
| step_claim r w' : republish_claim w = Some (r, w') → local_step w w'
| step_copy m w' : republish_copy w = Some (m, w') → local_step w w'
| step_store g m u w' :
    (∀ s e, m !! s = Some e → tracked w s e) →
    republish_store g m w = Some (u, w') → local_step w w'
| step_check_begin s r w' : check_begin s w = Some (r, w') → local_step w w'
| step_check_without_refresh s r w' : check_without_refresh s w = Some (r, w') → local_step w w'
| step_refresh_entry s e r w' : refresh_entry_begin s e w = Some (r, w') → local_step w w'
| step_access_poll first s e f q send r w' :
    tracked w s e → is_Some (w_fetches w !! f) →
    access_poll first e f q send w = Some (r, w') → local_step w w'
| step_access_cancel e f u w' :
    is_Some (w_entries w !! e) → access_cancel e f w = Some (u, w') → local_step w w'
| step_admit_begin st' w' : admit_begin w = Some (st', w') → local_step w w'
| step_state e r w' : settled w e → admission_state e w = Some (r, w') → local_step w w'
| step_check e r w' : settled w e → admission_check e w = Some (r, w') → local_step w w'
| step_payload e r w' :
    is_Some (w_entries w !! e) → admission_payload e w = Some (r, w') → local_step w w'
| step_invalidate e u w' :
    is_Some (w_entries w !! e) → admission_invalidate e w = Some (u, w') → local_step w w'
| step_health v r w' : health_status v w = Some (r, w') → local_step w w'.

(** What a client can do: also drive the lookups that it waits for. *)
Inductive client_step w : World T P C → Prop :=
| step_local w' : local_step w w' → client_step w w'
| step_fetch_poll f answer alive r w' :
    is_Some (w_fetches w !! f) → fetch_poll f answer alive w = Some (r, w') → client_step w w'
| step_admit s env st st' w' :
    pc_ok w s st → admit_step s env st w = Some (st', w') → client_step w w'.

(** Clients, the methods that only the watcher calls, its loop and its end. *)
Inductive gate_step w : World T P C → Prop :=
| step_client w' : client_step w w' → gate_step w w'
| step_watch_connected u w' : watch_connected w = Some (u, w') → gate_step w w'
| step_watch_disconnected u w' : watch_disconnected w = Some (u, w') → gate_step w w'
| step_watch_stable u w' : watch_stable w = Some (u, w') → gate_step w w'
| step_apply_change c u w' : apply_change c w = Some (u, w') → gate_step w w'
| step_watch_begin st w' : watch_begin w = Some (st, w') → gate_step w w'
| step_watch env st st' w' :
    watch_refs w st → watch_step env st w = Some (st', w') → gate_step w w'
| step_watcher_drop u w' : watcher_drop w = Some (u, w') → gate_step w w'.

Lemma ok_step {A} w (m : M (World T P C) A) (Q : A → World T P C → Prop) a w' :
  run_ok w m Q → m w = Some (a, w') → wf w' ∧ evolves w w'.
Proof. intros Hok Hrun. by destruct (run_from_run _ _ _ _ _ _ Hok Hrun) as (? & ? & _). Qed.

Lemma core_ok {A} w (m : M (World T P C) A) a w' :
  wf w → m w = Some (a, w') → same_core w w' → run_ok w m (λ _ _, True).
Proof. intros Hwf Hrun Hc. by eapply run_core. Qed.

Lemma local_step_ok w w' : wf w → local_step w w' → wf w' ∧ evolves w w'.
Proof.
  intros Hwf Hstep. pose proof (reflexivity w : evolves w w) as Ev.
  destruct Hstep as
    [u w' Hr|r w' Hr|m w' Hr|g m u w' Hm Hr|s r w' Hr|s r w' Hr|s e r w' Hr
    |first s e f q send r w' Ht Hf Hr|e f u w' He Hr
    |st' w' Hr|e r w' Hs Hr|e r w' Hs Hr|e r w' He Hr|e u w' He Hr|v r w' Hr];
    (eapply ok_step; [|exact Hr]).
  - eapply core_ok; [done|exact Hr|]. injection Hr as <- <-. by split.
  - by apply republish_claim_from.
  - by apply republish_copy_from.
  - by apply republish_store_from.
  - by apply check_begin_from.
  - by apply check_without_refresh_from.
  - by apply refresh_entry_begin_from.
  - by apply (access_poll_from w w s).
  - by apply release_claim_from.
  - by apply admit_begin_from.
  - by apply state_from.
  - by apply check_from.
  - by apply payload_from.
  - by apply entry_invalidate_from.
  - by apply health_from.
Qed.

Lemma client_step_ok w w' : wf w → client_step w w' → wf w' ∧ evolves w w'.
Proof.
  intros Hwf Hstep. destruct Hstep as [w' Hl|f answer alive r w' Hf Hr|s env st st' w' Hpc Hr].
  - by apply local_step_ok.
  - eapply ok_step; [by apply fetch_poll_from|exact Hr].
  - eapply ok_step; [by apply admit_step_ok|exact Hr].
Qed.

(** ** What clients leave alone *)

Lemma client_frame w w' :
  client_step w w' → frame (λ f, is_Some (w_fetches w !! f)) w w'.
Proof.
  set (F := λ f, is_Some (w_fetches w !! f)).
  assert (Hm : ∀ A (m : M (World T P C) A) a w1,
    always (frame F) m → m w = Some (a, w1) → frame F w w1) by eauto.
  intros [w1 Hl|f answer alive r w1 _ Hr|s env st st' w1 Hpc Hr].
  { destruct Hl; (eapply Hm; [|eassumption]; by frame). }
  { eapply Hm; [|exact Hr]. by frame. }
  pose proof (frame_admit_step s env st _ _ _ Hr) as [A B D E Gn Q]. split; try done.
  intros f [Hin|Hf]%Q; [by left|]. right. unfold queueing in Hf. unfold pc_ok in Hpc.
  destruct (ad_pc st); try done. subst f. apply Hpc.
Qed.

(** ** The generation of the published snapshot

    Every change of the connection moves it on by one, in [u64]; nothing else does. *)

Definition same_generation w w' : Prop := generation (w_publish w') = generation (w_publish w).

Definition same_connection w w' : Prop :=
  same_generation w w' ∧ w_connected w' = w_connected w.

Definition reconnected w w' : Prop :=
  generation (w_publish w') = u64_wrap (generation (w_publish w) + 1).

#[export] Instance same_generation_preorder : PreOrder same_generation.
Proof. split; unfold same_generation; [by intros w|]. intros w1 w2 w3. congruence. Qed.

#[export] Instance same_connection_preorder : PreOrder same_connection.
Proof. split; [by intros w|]. intros w1 w2 w3 [] []. split; [by etransitivity|congruence]. Qed.

Lemma frame_connection F w w' : frame F w w' → same_connection w w'.
Proof. intros Fr. split; apply Fr. Qed.

Lemma framed_connection {A} (m : M (World T P C) A) :
  always (frame (λ _, False)) m → always same_connection m.
Proof. intros Hm w a w' Hrun. by eapply frame_connection, Hm. Qed.

Lemma framed_generation {A} (m : M (World T P C) A) :
  always (frame (λ _, False)) m → always same_generation m.
Proof. intros Hm w a w' Hrun. eapply frame_connection, Hm, Hrun. Qed.

Lemma modify_generation (g : World T P C → World T P C) :
  (∀ w, w_publish (g w) = w_publish w) → always same_generation (modify g).
Proof. intros Hg w u w' [= _ <-]. unfold same_generation. by rewrite Hg. Qed.

Lemma reconnected_then {A B} (m : M (World T P C) A) (k : A → M (World T P C) B) :
  always reconnected m → (∀ a, always same_generation (k a)) → always reconnected (m ≫= k).
Proof.
  intros Hm Hk w b w2 (a & w1 & H1 & H2)%run_bind.
  unfold reconnected. rewrite (Hk _ _ _ _ H2). by eapply Hm.
Qed.

Lemma publish_reconnects (k : M (World T P C) unit) :
  always same_generation k → always reconnected (publish_empty k).
Proof.
  intros Hk w u w' (p & w1 & [= <- <-] & Hrun)%run_bind.
  apply run_bind in Hrun as (u1 & w1 & [= _ <-] & Hrun).
  apply run_bind in Hrun as (u2 & w2 & [= _ <-] & Hrun). exact (Hk _ _ _ Hrun).
Qed.

Lemma connect_reconnects : always reconnected (watch_connected (T:=T) (P:=P) (C:=C)).
Proof.
  apply reconnected_then; [apply publish_reconnects, always_ret; apply _|intros _].
  apply always_bind; [apply _|apply framed_generation; frame|intros _].
  apply always_bind; [apply _|by apply modify_generation|intros _]. by apply modify_generation.
Qed.

Lemma disconnect_reconnects : always reconnected (watch_disconnected (T:=T) (P:=P) (C:=C)).
Proof.
  apply reconnected_then; [|intros _; apply framed_generation; frame]. apply publish_reconnects.
  apply always_bind; [apply _|by apply modify_generation|intros _].
  apply always_bind; [apply _|by apply modify_generation|intros _].
  apply always_bind; [apply _|apply always_gets; apply _|intros [since|]].
  { apply always_ret; apply _. }
  apply always_bind; [apply _|apply framed_generation; frame|intros now]. by apply modify_generation.
Qed.

Lemma watch_work_connection (c : Connection) (work : Work.t T) st :
  always same_connection (watch_work (P:=P) (C:=C) c work st).
Proof.
  destruct work as [|[|f l]|rest|[[change|e]|]]; simpl.
  - apply always_bind; [apply _|apply always_gets; apply _|intros initial].
    apply always_bind; [apply _|by intros w u w' [= _ <-]|intros _]. apply always_ret; apply _.
  - apply framed_connection. unfold watch_lost. frame.
  - apply always_ret; apply _.
  - apply always_ret; apply _.
  - apply framed_connection. unfold watch_change. frame.
  - apply framed_connection. unfold emit_wire, watch_lost. frame.
  - apply framed_connection. unfold watch_lost. frame.
Qed.

Lemma watch_step_connection env st w st' w' :
  watch_step env st w = Some (st', w') → same_connection w w' ∨ reconnected w w'.
Proof.
  assert (Hleave : ∀ A (m : M (World T P C) A), always (frame (λ _, False)) m →
    ∀ w a w', m w = Some (a, w') → same_connection w w' ∨ reconnected w w').
  { intros A m Hm w1 a w2 Hrun. left. by eapply framed_connection. }
  unfold watch_step. destruct (ws_pc st) as [first d|c|c| |wake].
  - intros (now & w1 & [= _ <-] & Hrun)%run_bind. destruct (timeout_poll _ _ _ _) as [[[u|e]|e]|].
    + right. revert Hrun. apply (reconnected_then watch_connected); [apply connect_reconnects|].
      intros _. apply framed_generation. frame.
    + refine (Hleave _ _ _ _ _ _ Hrun). unfold emit_wire. frame.
    + refine (Hleave _ _ _ _ _ _ Hrun). frame.
    + by injection Hrun as _ <-; left.
  - intros (r & w1 & Hs & Hrun)%run_bind.
    pose proof (frame_connection _ _ _ (frame_select_work (λ _, False) _ _ _ _ _ _ Hs)) as H1.
    left. transitivity w1; [exact H1|]. destruct r as [work|]; [|by injection Hrun as _ <-].
    by eapply watch_work_connection.
  - intros [= _ <-]. by left.
  - intros Hrun. right. revert Hrun. apply (reconnected_then watch_disconnected); [apply disconnect_reconnects|].
    intros _. apply framed_generation. frame.
  - apply Hleave. unfold watch_sleep, open_begin. frame.
Qed.

Lemma gate_step_connection w w' : gate_step w w' → same_connection w w' ∨ reconnected w w'.
Proof.
  destruct 1 as [w' Hc|u w' Hr|u w' Hr|u w' Hr|c u w' Hr|st w' Hr|env st st' w' _ Hr|u w' Hr].
  - left. by eapply frame_connection, client_frame.
  - right. by eapply connect_reconnects.
  - right. by eapply disconnect_reconnects.
  - left. by injection Hr as _ <-.
  - left. refine (framed_connection _ _ _ _ _ Hr). frame.
  - left. refine (framed_connection _ _ _ _ _ Hr). unfold watch_begin, open_begin. frame.
  - by eapply watch_step_connection.
  - right. apply run_bind in Hr as (u1 & w1 & [= _ <-] & Hr).
    apply run_bind in Hr as (u2 & w2 & Hd & [= _ <-]). exact (disconnect_reconnects _ _ _ Hd).
Qed.

Lemma watcher_drop_from w0 w :
  wf w → evolves w0 w → run_from w0 w watcher_drop (λ _ w', w_connected w' = false ∧
    w_sender_alive w' = false ∧ w_snapshot w' = ∅ ∧ w_refresh_queue w' = [] ∧
    slots w' = [] ∧ ∀ e, is_Some (w_entries w !! e) → dead w' e).
Proof.
  intros Hwf Ev. set (w1 := set_refresh_open false (set_refresh_queue [] w)).
  apply core_then; [done|done|by split|]. intros Hwf1 Ev1.
  eapply then_from.
  { apply (run_always same_queue); [apply same_queue_disconnected|].
    by apply (watch_disconnected_from w0 w1). }
  simpl. intros u w2 Hwf2 Ev2 ((Hoff & Hsn & Hsl & _ & _ & Hd) & Hs).
  apply core_last; [done|done|by split|]. split_and!; try done.
  simpl. apply list_nil_subseteq. exact Hs.
Qed.

Lemma gate_step_ok w w' : wf w → gate_step w w' → wf w' ∧ evolves w w'.
Proof.
  intros Hwf Hstep. pose proof (reflexivity w : evolves w w) as Ev.
  destruct Hstep as [w' Hc|u w' Hr|u w' Hr|u w' Hr|c u w' Hr|st w' Hr|env st st' w' Hrefs Hr|u w' Hr];
    [by apply client_step_ok|..]; (eapply ok_step; [|exact Hr]).
  - by apply watch_connected_from.
  - by apply watch_disconnected_from.
  - by apply watch_stable_from.
  - by apply apply_change_from.
  - by apply open_begin_from.
  - by apply watch_step_ok.
  - by apply watcher_drop_from.
Qed.

Definition gate_steps : World T P C → World T P C → Prop := rtc gate_step.

Lemma gate_steps_ok w w' : wf w → gate_steps w w' → wf w' ∧ evolves w w'.
Proof.
  intros Hwf Hsteps. revert Hwf. induction Hsteps as [w|w1 w2 w3 Hstep _ IH]; intros Hwf.
  { by split. }
  destruct (gate_step_ok _ _ Hwf Hstep) as [Hwf2 Ev2]. destruct (IH Hwf2) as [Hwf3 Ev3].
  split; [done|]. by transitivity w2.
Qed.

(** ** The initial world *)

Definition clock_fits (config : PolicyGateConfig) (clock : nat → Z) : Prop :=
  ∀ n, clock n + snapshot_republish_interval config ≤ Instant.MAX.

Lemma gate_new_wf config clock :
  config_typed config → 0 < max_subjects config → clock_fits config clock →
  wf (gate_new config clock : World T P C).
Proof.
  intros Hty Hcap Hclk. destruct (lru_new_ok (K:=T) (V:=SubjectSlot) (C:=C) _ Hcap) as (Hl & Hit & Hcp).
  split; try done; unfold slots; simpl; rewrite ?Hit; try done.
  - apply NoDup_nil_2.
  - intros e Hin. unfold listed, slots in Hin. simpl in Hin. rewrite Hit in Hin.
    by apply elem_of_nil in Hin.
Qed.

Definition reachable config clock w : Prop := gate_steps (gate_new config clock) w.

Record deployment config clock : Prop := {
  dep_typed : config_typed config;
  dep_capacity : 0 < max_subjects config;
  dep_clock : clock_fits config clock;
}.

Lemma reachable_wf config clock w :
  deployment config clock → reachable config clock w → wf w.
Proof.
  intros [] Hr. by eapply gate_steps_ok; [apply gate_new_wf|].
Qed.

Lemma reachable_evolves config clock w :
  deployment config clock → reachable config clock w → evolves (gate_new config clock) w.
Proof. intros [] Hr. by eapply gate_steps_ok; [apply gate_new_wf|]. Qed.

Lemma reachable_config config clock w :
  deployment config clock → reachable config clock w → w_config w = config.
Proof. intros Hdep Hr. apply (ev_config _ _ (reachable_evolves _ _ _ Hdep Hr)). Qed.

Lemma reachable_clock config clock w :
  deployment config clock → reachable config clock w → w_clock w = clock.
Proof. intros Hdep Hr. apply (ev_clock _ _ (reachable_evolves _ _ _ Hdep Hr)). Qed.
End system.
