(* ===== verification/Demo.v ===== *)
(** * Demo: a concrete deployment

    Two subjects' worth of capacity, a list-backed cache and a scripted clock: the
    runs on which the witnesses of the gate's theorems are evaluated. *)

From S2P Require Export System.

#[export] Instance demo_driver : TimeDriver := {
  sleep_until deadline now := if deadline <=? now then Poll.Ready tt else Poll.Pending;
}.

#[export] Instance demo_driver_ok : TimeDriverOk.
Proof.
  split. intros deadline now. simpl. destruct (Z.leb_spec deadline now).
  - by split.
  - split; [done|lia].
Qed.

Definition demo_config : PolicyGateConfig :=
  mkConfig 2 10 1 5 7 0 1 8 64 2 100 60 20 3 4.

Abbreviation DemoWorld := (World nat nat (ListLru nat SubjectSlot)).

(** The clock stands still while the demo is set up and then jumps into the
    refresh window of the decision that was admitted. *)
Definition demo_clock : nat → Z := λ n, if (n <? 16)%nat then 1000 else 1045.

Definition demo_init : DemoWorld := gate_new demo_config demo_clock.

Lemma demo_deployment : deployment demo_config demo_clock.
Proof.
  split.
  - split; repeat constructor; vm_compute; discriminate.
  - reflexivity.
  - intros n. unfold demo_clock. destruct (_ <? _)%nat; vm_compute; discriminate.
Qed.

Definition exec {A} (m : M DemoWorld A) (w : DemoWorld) : DemoWorld :=
  match m w with Some (_, w') => w' | None => w end.
Definition value {A} (m : M DemoWorld A) (w : DemoWorld) : option A :=
  match m w with Some (a, _) => Some a | None => None end.

(** [admit] driven to its end (or for [fuel] steps) by the same answers. *)
Fixpoint drive (fuel : nat) (s : nat) (env : AdmitEnv nat) (st : AdmitState) :
    M DemoWorld AdmitState :=
  match fuel with
  | O => mret st
  | S fuel =>
      match ad_pc st with
      | AdmitPc.Return _ => mret st
      | _ => st' ← admit_step s env st; drive fuel s env st'
      end
  end.

Definition answering (d : Decision.t) : AdmitEnv nat :=
  mkEnv (λ _, Answer.Ready (Ok (Some (mkDecisionResult d (Some 5%nat) None)))) false false
    (Poll.Ready (Ok tt)).

Definition admit_now (s : nat) (d : Decision.t) : M DemoWorld AdmitState :=
  st ← admit_begin; drive 8 s (answering d) st.

(** Connected, then subject 7 admitted and its snapshot published. *)
Definition demo_on : DemoWorld := exec watch_connected demo_init.
Definition demo_admitted : DemoWorld := exec (admit_now 7 Decision.Allowed) demo_on.

Lemma exec_step {A} (m : M DemoWorld A) w Q :
  run_ok w m Q → ∃ a, m w = Some (a, exec m w).
Proof. intros (a & w' & Hrun & _). exists a. unfold exec. by rewrite Hrun. Qed.

Lemma drive_steps fuel s env st w st' w' :
  wf w → pc_ok w s st → drive fuel s env st w = Some (st', w') → gate_steps w w'.
Proof.
  revert st w. induction fuel as [|fuel IH]; intros st w Hwf Hok Hrun; simpl in Hrun.
  { by injection Hrun as _ <-. }
  assert (Hstep : (x ← admit_step s env st; drive fuel s env x) w = Some (st', w') →
    gate_steps w w').
  { intros (st1 & w1 & Hs & Hd)%run_bind.
    destruct (admit_step_ok w s env st Hwf Hok) as (st2 & w2 & Hs2 & Hwf2 & _ & Hpost).
    rewrite Hs in Hs2. simplify_eq. eapply rtc_l; [by eapply step_client, step_admit|].
    destruct Hpost as [[_ Hpost]|(a & _ & -> & ->)].
    - eapply IH; [done| |exact Hd]. apply Hpost.
    - by eapply IH. }
  destruct (ad_pc st); try (by apply Hstep). by injection Hrun as _ <-.
Qed.

Lemma demo_init_wf : wf demo_init.
Proof. by apply gate_new_wf; apply demo_deployment. Qed.

Lemma demo_on_reachable : reachable demo_config demo_clock demo_on.
Proof.
  destruct (exec_step watch_connected demo_init _
    (watch_connected_from _ _ demo_init_wf (reflexivity _))) as [u Hu].
  apply rtc_once. by eapply step_watch_connected.
Qed.

Lemma demo_on_wf : wf demo_on.
Proof. apply (reachable_wf demo_config demo_clock), demo_on_reachable. apply demo_deployment. Qed.

(** Any admission of the demo is a sequence of steps. *)
Lemma driven_steps fuel s env w :
  wf w → is_Some ((st ← admit_begin; drive fuel s env st) w) →
  gate_steps w (exec (st ← admit_begin; drive fuel s env st) w).
Proof.
  intros Hwf [[st' w'] Hrun]. unfold exec. rewrite Hrun.
  apply run_bind in Hrun as (st & w1 & Hb & Hd).
  destruct (admit_begin_from w w Hwf (reflexivity w)) as (st1 & w1' & Hb' & Hwf1 & _ & _ & Hpc & _).
  rewrite Hb in Hb'. simplify_eq. eapply rtc_l; [by eapply step_client, step_local, step_admit_begin|].
  by eapply drive_steps.
Qed.

Lemma demo_admitted_steps : gate_steps demo_on demo_admitted.
Proof. apply driven_steps; [apply demo_on_wf|]. vm_compute. eauto. Qed.

Lemma demo_admitted_reachable : reachable demo_config demo_clock demo_admitted.
Proof.
  unfold reachable, gate_steps.
  transitivity demo_on; [exact demo_on_reachable|exact demo_admitted_steps].
Qed.

Lemma demo_admitted_wf : wf demo_admitted.
Proof.
  apply (reachable_wf demo_config demo_clock), demo_admitted_reachable. apply demo_deployment.
Qed.

(** The handle of subject 7. *)
Lemma demo_handle : settled demo_admitted 1.
Proof. eexists. split; [vm_compute; reflexivity|]. vm_compute. discriminate. Qed.

Lemma demo_listed : listed_as demo_admitted 7%nat 1.
Proof. eexists. split; [vm_compute; left|reflexivity]. Qed.

(** Subject 7 waits for its first lookup (fetch 2 of entry 1). *)
Definition admit_until_waiting : M DemoWorld AdmitState :=
  st ← admit_begin; drive 2 7%nat (answering Decision.Allowed) st.
Definition demo_waiting : DemoWorld := exec admit_until_waiting demo_on.

(** Subject 7's first lookup failed for good: fetch 7 waits for the cooldown. *)
Definition failing : AdmitEnv nat :=
  mkEnv (λ _, Answer.Ready (Err (mkSourceError DecisionSourceErrorKind.Permanent "denied"))) false
    false (Poll.Ready (Ok tt)).
Definition demo_cooling : DemoWorld :=
  exec (st ← admit_begin; drive 8 7%nat failing st) demo_on.

Lemma from_demo_on w : gate_steps demo_on w → reachable demo_config demo_clock w.
Proof.
  intros Hst. unfold reachable, gate_steps. transitivity demo_on; [exact demo_on_reachable|exact Hst].
Qed.

Lemma demo_waiting_reachable : reachable demo_config demo_clock demo_waiting.
Proof. apply from_demo_on, driven_steps; [apply demo_on_wf|]. vm_compute. eauto. Qed.

Lemma demo_cooling_reachable : reachable demo_config demo_clock demo_cooling.
Proof. apply from_demo_on, driven_steps; [apply demo_on_wf|]. vm_compute. eauto. Qed.

Lemma demo_waiting_tracked : tracked demo_waiting 7%nat 1.
Proof.
  apply listed_tracked.
  - apply (reachable_wf demo_config demo_clock), demo_waiting_reachable. apply demo_deployment.
  - eexists. split; [vm_compute; left|reflexivity].
Qed.

Lemma demo_is_waiting : waiting demo_waiting 1 2.
Proof. eexists. split_and!; vm_compute; reflexivity. Qed.
