(* ===== verification/Contract.v ===== *)
(** * Contract: what the gate promises its callers

    Theorems about every reachable world of [System], for any cache container,
    subject and payload type, clock and decision source. *)

From S2P Require Export Demo.

Section contract.
Context {T P C : Type} `{Countable T, !LruCache T SubjectSlot C, !LruCacheOk T SubjectSlot C, TimeDriver}.
Implicit Types (w : World T P C) (e f : positive) (s : T) (en : Entry P).

(** What a handle reports: state, refresh hint, payload. *)
Definition reports_stale w e : Prop :=
  (∃ w', admission_state e w = Some (AdmissionState.Stale, w')) ∧
  (∃ w', admission_check e w = Some ((AdmissionState.Stale, false), w')) ∧
  (∃ w', admission_payload e w = Some (None, w')).

Lemma dead_reports w e : wf w → dead w e → settled w e → reports_stale w e.
Proof.
  intros Hwf Hd Hs. split_and!.
  - destruct (state_from w w e Hwf (reflexivity w) Hs) as (x & w' & Hrun & _ & _ & _ & Hx).
    exists w'. by rewrite Hrun, (Hx Hd).
  - destruct (check_from w w e Hwf (reflexivity w) Hs) as (x & w' & Hrun & _ & _ & _ & Hx).
    exists w'. by rewrite Hrun, (Hx Hd).
  - destruct (payload_from w w e Hwf (reflexivity w) (proj1 Hd)) as (x & w' & Hrun & _ & _ & _ & Hx).
    exists w'. by rewrite Hrun, (Hx Hd).
Qed.

Lemma dead_settled w e : wf w → dead w e → settled w e.
Proof. intros Hwf Hd. destruct (dead_stale _ _ Hwf Hd) as (en & He & Hst). exists en. by rewrite Hst. Qed.

Lemma dead_forever w w' e : wf w → gate_steps w w' → dead w e → reports_stale w' e.
Proof.
  intros Hwf Hst Hd. destruct (gate_steps_ok _ _ Hwf Hst) as [Hwf' Ev].
  pose proof (dead_stable _ _ _ Ev Hd) as Hd'. apply dead_reports; [done|done|].
  by apply dead_settled.
Qed.

(** C4. Disconnection is terminal.  Once the watch is marked disconnected (or
    its lease is dropped), every handle handed out before reports a stale
    decision without payload and asks for no refresh, in every later world:
    after reconnecting, after new admissions of the same subject, after late
    lookups and refreshes. *)
Theorem disconnect_is_final config clock w u w1 w2 e :
  deployment config clock → reachable config clock w →
  watch_disconnected w = Some (u, w1) → gate_steps w1 w2 →
  is_Some (w_entries w !! e) → reports_stale w2 e.
Proof.
  intros Hdep Hr Hrun Hst He. pose proof (reachable_wf _ _ _ Hdep Hr) as Hwf.
  destruct (run_from_run _ _ _ _ _ _ (watch_disconnected_from w w Hwf (reflexivity w)) Hrun)
    as (Hwf1 & _ & _ & _ & _ & _ & _ & Hdead).
  by apply (dead_forever w1); [..|apply Hdead].
Qed.

(** C17. Leaving the cache is terminal.  A handle whose entry is not listed in
    the subject map any more (evicted, displaced, withdrawn, replaced, cleared)
    reports stale in this and every later world, and its entry is never listed
    again. *)
Theorem unlisted_is_final config clock w w' e :
  deployment config clock → reachable config clock w →
  is_Some (w_entries w !! e) → ¬ listed w e → gate_steps w w' →
  reports_stale w' e ∧ ¬ listed w' e.
Proof.
  intros Hdep Hr He Hl Hst. pose proof (reachable_wf _ _ _ Hdep Hr) as Hwf.
  split; [by apply (dead_forever w)|].
  destruct (gate_steps_ok _ _ Hwf Hst) as [_ Ev]. by apply (dead_stable w w').
Qed.

(** A withdrawal by the watch is terminal for the handle of its subject. *)
Theorem withdrawal_is_final config clock w s e u w1 w2 :
  deployment config clock → reachable config clock w → listed_as w s e →
  apply_change (mkDecisionChange s None) w = Some (u, w1) → gate_steps w1 w2 →
  reports_stale w2 e.
Proof.
  intros Hdep Hr Hl Hrun Hst. pose proof (reachable_wf _ _ _ Hdep Hr) as Hwf.
  destruct (run_from_run _ _ _ _ _ _ (apply_change_from w w (mkDecisionChange s None) Hwf
    (reflexivity w)) Hrun) as (Hwf1 & _ & _ & Hfate).
  destruct (Hfate e Hl) as [Hd|[]]. by apply (dead_forever w1).
Qed.

(** C5. A watch decision takes effect at once and cannot be overwritten by a
    lookup that was already running: the entry of the subject carries the new
    verdict (unless its TTL evicted it in the same step, which makes it stale for
    good), and the result of every lookup, first or refresh, that was in flight
    is discarded without changing anything. *)
Theorem watch_decision_wins config clock w s e d u w1 :
  deployment config clock → reachable config clock w → listed_as w s e →
  apply_change (mkDecisionChange s (Some d)) w = Some (u, w1) →
  dead w1 e ∨
  (state_is w1 e (EntryState.from d) ∧
   ∀ f from r, apply_fetch_result s e f from r w1 = Some (forget r, w1)).
Proof.
  intros Hdep Hr Hl Hrun. pose proof (reachable_wf _ _ _ Hdep Hr) as Hwf.
  destruct (run_from_run _ _ _ _ _ _ (apply_change_from w w (mkDecisionChange s (Some d)) Hwf
    (reflexivity w)) Hrun) as (Hwf1 & _ & _ & Hfate).
  destruct (Hfate e Hl) as [Hd|(en & He & Hst & _ & Hp)]; [by left|]. right.
  split; [by exists en|]. intros f from r. unfold apply_fetch_result.
  destruct (entry_pending_generation_from w1 w1 e en f Hwf1 (reflexivity w1) He)
    as (g & w2 & Hg & _ & _ & -> & ->).
  rewrite (run_bind_step _ _ _ _ _ Hg), Hp. by rewrite bool_decide_eq_false_2.
Qed.

(** Cached reads fail closed.  A handle returned without contacting the
    source is the one the published snapshot names for that subject, and during
    the call its entry was listed under the subject with an unexpired verdict. *)
Theorem cached_reads_sound config clock w s a w' :
  deployment config clock → reachable config clock w →
  check_without_refresh s w = Some (Some a, w') ∨
  check_begin s w = Some (Access.Done (Some a), w') →
  w_snapshot w !! s = Some a ∧ granted w s a w'.
Proof.
  intros Hdep Hr Hrun. pose proof (reachable_wf _ _ _ Hdep Hr) as Hwf.
  destruct Hrun as [Hrun|Hrun].
  - destruct (run_from_run _ _ _ _ _ _ (check_without_refresh_from w w s Hwf (reflexivity w)) Hrun)
      as (_ & _ & _ & Hg & _). by apply Hg.
  - destruct (run_from_run _ _ _ _ _ _ (check_begin_from w w s Hwf (reflexivity w)) Hrun)
      as (_ & _ & _ & Hb).
    destruct (w_snapshot w !! s) as [e|]; [|done]. by destruct Hb as [-> Hg].
Qed.

(** C6. [admit] fails closed.  Every step of the admission loop that returns a
    handle for the subject saw its entry listed under that subject with an
    unexpired verdict during that step; there is no other way to return one. *)
Theorem admit_sound config clock w s env st st' w' a :
  deployment config clock → reachable config clock w → pc_ok w s st →
  (∀ r, ad_pc st ≠ AdmitPc.Return r) →
  admit_step s env st w = Some (st', w') → ad_pc st' = AdmitPc.Return (Some a) →
  granted w s a w'.
Proof.
  intros Hdep Hr Hok Hnot Hrun Hpc. pose proof (reachable_wf _ _ _ Hdep Hr) as Hwf.
  destruct (run_from_run _ _ _ _ _ _ (admit_step_ok w s env st Hwf Hok) Hrun)
    as (_ & _ & [[_ Hpost]|(r & Hret & _)]); [|by apply Hnot in Hret].
  by apply (sp_grant _ _ _ _ _ Hpost).
Qed.

(** While the watch is down no cached read answers: both lookups miss
    without touching the cache. *)
Theorem offline_reads_miss config clock w s :
  deployment config clock → reachable config clock w → w_connected w = false →
  check_without_refresh s w = Some (None, w) ∧
  check_begin s w = Some (Access.Done None, w).
Proof.
  intros Hdep Hr Hoff. pose proof (wf_offline _ (reachable_wf _ _ _ Hdep Hr) Hoff) as Hsn.
  unfold check_without_refresh, check_begin, gets, mbind, M_bind.
  by rewrite Hsn, lookup_empty.
Qed.

(** C29. The bookkeeping invariant of every reachable world: the cache is within
    capacity and holds one slot per subject and per entry; the published
    snapshot names, for each subject, an entry that is listed under that subject
    or under none; it is empty while disconnected; every in-flight lookup
    referenced by an entry exists and belongs to that entry; an unlisted entry
    is stale. *)
Theorem reachable_invariant config clock w :
  deployment config clock → reachable config clock w →
  Z.of_nat (length (slots w)) ≤ max_subjects config ∧
  NoDup (slots w).*1 ∧ NoDup (slot_id <$> slots w) ∧
  (∀ s e s', w_snapshot w !! s = Some e → listed_as w s' e → s' = s) ∧
  (w_connected w = false → w_snapshot w = ∅) ∧
  (∀ e en f, w_entries w !! e = Some en → pending en = Some f →
     ∃ pf, w_fetches w !! f = Some pf ∧ pf_entry pf = e) ∧
  (∀ e en, w_entries w !! e = Some en → ¬ listed w e → entry_decode en = EntryState.Stale).
Proof.
  intros Hdep Hr. pose proof (reachable_wf _ _ _ Hdep Hr) as Hwf.
  pose proof (reachable_evolves _ _ _ Hdep Hr) as Ev.
  split_and!.
  - pose proof (lru_bounded _ (wf_lru _ Hwf)) as Hb. rewrite (wf_cap _ Hwf) in Hb.
    by rewrite (ev_config _ _ Ev) in Hb.
  - by apply slots_nodup_keys.
  - by apply wf_nodup.
  - intros s e s' Hs. by apply (wf_snapshot _ Hwf s e Hs).
  - by apply wf_offline.
  - intros e en f. by apply own_pending.
  - intros e en. by apply wf_unlisted.
Qed.

(** No panic.  In every reachable world every synchronous method and every
    segment of an async method runs to its end: the [unreachable!] arms, the
    [expect]s and the [Instant] addition of the publication window are never
    reached, and a handle never observes a pending entry. *)
Theorem methods_never_panic config clock w :
  deployment config clock → reachable config clock w →
  is_Some (watch_connected w) ∧ is_Some (watch_disconnected w) ∧
  (∀ c, is_Some (apply_change c w)) ∧ is_Some (republish_if_due w) ∧
  (∀ s, is_Some (check_begin s w) ∧ is_Some (check_without_refresh s w)) ∧
  (∀ s e, is_Some (refresh_entry_begin s e w)) ∧
  (∀ f answer alive, is_Some (w_fetches w !! f) → is_Some (fetch_poll f answer alive w)) ∧
  (∀ s env st, pc_ok w s st → is_Some (admit_step s env st w)) ∧
  (∀ e, settled w e → is_Some (admission_observe e w) ∧ is_Some (admission_state e w) ∧
     is_Some (admission_check e w) ∧ is_Some (admission_payload e w) ∧
     is_Some (admission_invalidate e w)).
Proof.
  intros Hdep Hr. pose proof (reachable_wf _ _ _ Hdep Hr) as Hwf.
  pose proof (reflexivity w : evolves w w) as Ev.
  assert (Hsome : ∀ A (m : M (World T P C) A) Q, run_ok w m Q → is_Some (m w)).
  { intros A m Q (a & w' & Hrun & _). by exists (a, w'). }
  split_and!.
  - by eapply Hsome, watch_connected_from.
  - by eapply Hsome, watch_disconnected_from.
  - intros c. by eapply Hsome, apply_change_from.
  - by eapply Hsome, republish_if_due_from.
  - intros s. split; [by eapply Hsome, check_begin_from|by eapply Hsome, check_without_refresh_from].
  - intros s e. by eapply Hsome, refresh_entry_begin_from.
  - intros f answer alive Hf. by eapply Hsome, fetch_poll_from.
  - intros s env st Hok. by eapply Hsome, admit_step_ok.
  - intros e Hs. assert (is_Some (w_entries w !! e)) as He by (destruct Hs as (en & ? & _); by exists en).
    split_and!; [by eapply Hsome, observe_from|by eapply Hsome, state_from
      |by eapply Hsome, check_from|by eapply Hsome, payload_from|by eapply Hsome, entry_invalidate_from].
Qed.


(** C26. A refresh replaces only the decision it started from.  When a refresh
    completes it gives up its claim, and the entry's snapshot is unchanged
    unless the refresh succeeded and the entry still held the very snapshot it
    started from; a completion whose claim was taken away changes nothing. *)
Theorem refresh_replaces_its_source config clock w s e f cur r r' w' :
  deployment config clock → reachable config clock w → tracked w s e →
  refresh_source w e cur →
  apply_fetch_result s e f (Some cur) r w = Some (r', w') →
  (owns w e f → refresh_outcome w e f cur r' w') ∧ (¬ owns w e f → w' = w).
Proof.
  intros Hdep Hr Ht Hsrc Hrun. pose proof (reachable_wf _ _ _ Hdep Hr) as Hwf.
  destruct (apply_fetch_result_from w w s e f (Some cur) r Hwf (reflexivity w) Ht) as
    (r2 & w2 & Hrun2 & _ & _ & _ & Hno & Hout); [by intros ? [= <-]|].
  rewrite Hrun in Hrun2. simplify_eq. split; [done|]. intros Hn. by apply Hno.
Qed.

(** Refreshes are single-flight.  A call that suspends to enqueue a refresh
    found the entry without a pending lookup and now owns its only one, a fetch
    nobody had before, started from the snapshot the entry holds; it waits no
    longer than the caller's deadline. *)
Theorem refresh_is_single_flight config clock w s e limit e' f q w' :
  deployment config clock → reachable config clock w → tracked w s e →
  access_begin s e limit w = Some (Access.Enqueue e' f q, w') →
  e' = e ∧ (∃ en, w_entries w !! e = Some en ∧ pending en = None) ∧
  w_fetches w !! f = None ∧ claimed w' s e f ∧ (∀ d, limit = Some d → q ≤ d).
Proof.
  intros Hdep Hr Ht Hrun. pose proof (reachable_wf _ _ _ Hdep Hr) as Hwf.
  destruct (run_from_run _ _ _ _ _ _ (access_begin_from w w s e limit Hwf (reflexivity w) Ht) Hrun)
    as (_ & _ & _ & -> & _ & Hnew & Hcl & Hfree & Hq).
  split_and!; try done. by apply fresh_fetch.
Qed.

(** A claim is never leaked.  When the wait for queue capacity ends, the
    refresh was accepted by the queue or its claim has been released; dropping
    the waiting future releases the claim as well. *)
Theorem refresh_claim_released config clock w s e f first q send r w' :
  deployment config clock → reachable config clock w → tracked w s e →
  (access_poll first e f q send w = Some (Poll.Ready r, w') →
     timeout_at_poll first q (w_clock w (w_reads w)) send = Poll.Ready (Ok (Ok tt)) ∨
     ∃ en, w_entries w' !! e = Some en ∧ pending en ≠ Some f) ∧
  (∀ u w2, access_cancel e f w = Some (u, w2) →
     ∃ en, w_entries w2 !! e = Some en ∧ pending en ≠ Some f).
Proof.
  intros Hdep Hr Ht. pose proof (reachable_wf _ _ _ Hdep Hr) as Hwf. split.
  - intros Hrun. destruct (run_from_run _ _ _ _ _ _ (access_poll_from w w s e f first q send Hwf
      (reflexivity w) Ht) Hrun) as (_ & _ & _ & _ & Hq). exact Hq.
  - intros u w2 Hrun. destruct (proj1 Ht) as [en He].
    destruct (run_from_run _ _ _ _ _ _ (release_claim_from w w e f Hwf (reflexivity w) (proj1 Ht))
      Hrun) as (_ & _ & _ & _ & _ & Hent).
    rewrite (Hent _ He), lookup_insert_eq. eexists. split; [done|]. by case_bool_decide.
Qed.

(** C28. Publication is faithful.  A republish changes no entry, no listing and
    no connection state; if it publishes at all, the connection is up and the
    published snapshot names exactly the listed subjects with their entries. *)
Theorem republish_publishes_listing config clock w u w' :
  deployment config clock → reachable config clock w →
  republish_if_due w = Some (u, w') →
  w_entries w' = w_entries w ∧ w_subjects w' = w_subjects w ∧
  w_connected w' = w_connected w ∧
  (w_snapshot w' = w_snapshot w ∨
   w_connected w = true ∧ ∀ s e, w_snapshot w' !! s = Some e ↔ listed_as w s e).
Proof.
  intros Hdep Hr Hrun. pose proof (reachable_wf _ _ _ Hdep Hr) as Hwf.
  by destruct (run_from_run _ _ _ _ _ _ (republish_if_due_from w w Hwf (reflexivity w)) Hrun)
    as (_ & _ & _ & He & _ & Hs & Hc & _ & _ & _ & Hsn).
Qed.

(** A step of anybody that changes the connection, or that marks it (again). *)
Definition connection_changed w w' : Prop :=
  gate_step w w' ∧
  (w_connected w' ≠ w_connected w ∨ (∃ u, watch_connected w = Some (u, w')) ∨
   ∃ u, watch_disconnected w = Some (u, w')).

Lemma connection_changed_reconnected w w' : connection_changed w w' → reconnected w w'.
Proof.
  intros [Hs [Hne|[[u Hr]|[u Hr]]]].
  - by destruct (gate_step_connection _ _ Hs) as [[_ ?]|?].
  - by eapply connect_reconnects.
  - by eapply disconnect_reconnects.
Qed.

(** In [n] steps the generation moves on by at most [n]. *)
Lemma generation_after n w w' :
  nsteps gate_step n w w' → ∃ k, 0 ≤ k ≤ Z.of_nat n ∧
    (generation (w_publish w') = generation (w_publish w) ∨ 
     generation (w_publish w') = u64_wrap (generation (w_publish w) + k)).
Proof.
  induction 1 as [w|n w1 w2 w3 Hs _ (k & Hk & Hg)]; [exists 0; split; [lia|by left]|].
  destruct (gate_step_connection _ _ Hs) as [[He _]|He]; unfold same_generation, reconnected in He.
  - exists k. split; [lia|]. by rewrite <-He.
  - destruct Hg as [Hg|Hg]; rewrite Hg, He; [exists 1; split; [lia|by right]|].
    exists (k + 1). split; [lia|]. right. rewrite u64_wrap_add_l. f_equal. lia.
Qed.

(** C27. A rebuild that straddles a change of the connection is dropped.  Whatever
    anybody does between its claim and the change, and between the change and the
    store, and whatever map it copied, storing it changes nothing; provided fewer
    than [2 ^ 64] steps pass between the claim and the store, which is what the
    64-bit generation can tell apart. *)
Theorem straddling_rebuild_dropped config clock w g w1 n w2 w3 k w4 entries :
  deployment config clock → reachable config clock w →
  republish_claim w = Some (Some g, w1) →
  nsteps gate_step n w1 w2 → connection_changed w2 w3 → nsteps gate_step k w3 w4 →
  Z.of_nat n + Z.of_nat k < u64_max →
  republish_store g entries w4 = Some (tt, w4).
Proof.
  intros Hdep Hr Hclaim Hn Hch Hk Hb. pose proof (reachable_wf _ _ _ Hdep Hr) as Hwf.
  destruct (run_from_run _ _ _ _ _ _ (republish_claim_from w w Hwf (reflexivity w)) Hclaim)
    as (_ & _ & _ & _ & _ & _ & _ & _ & _ & _ & Hgen & Hgg).
  specialize (Hgg g eq_refl). rewrite <-Hgen in Hgg. subst g. clear Hgen.
  destruct (generation_after _ _ _ Hn) as (i & Hi & H2).
  pose proof (connection_changed_reconnected _ _ Hch) as H3. unfold reconnected in H3.
  destruct (generation_after _ _ _ Hk) as (j & Hj & H4).
  assert (∃ d, 0 < d ≤ u64_max ∧
    generation (w_publish w4) = u64_wrap (generation (w_publish w1) + d)) as (d & Hd & H14).
  { assert (∃ d, 0 < d ≤ Z.of_nat n + 1 ∧
      generation (w_publish w3) = u64_wrap (generation (w_publish w1) + d)) as (d & Hd & H13).
    { destruct H2 as [Heq|Heq]; rewrite Heq in H3; [exists 1; split; [lia|done]|].
      exists (i + 1). split; [lia|]. rewrite H3, u64_wrap_add_l. f_equal. lia. }
    destruct H4 as [Heq|Heq]; rewrite Heq; [exists d; split; [lia|done]|].
    exists (d + j). split; [lia|]. rewrite H13, u64_wrap_add_l. f_equal. lia. }
  unfold republish_store, gets, mbind, M_bind.
  destruct (Z.eqb_spec (generation (w_publish w4)) (generation (w_publish w1))) as [Heq|]; [|done].
  exfalso. rewrite Heq in H14. by apply (u64_wrap_moves (generation (w_publish w1)) d).
Qed.


(** A run of one admission: between two of its steps [others] act. *)
Inductive interleaved (others : World T P C → World T P C → Prop) s :
    nat → AdmitState → World T P C → AdmitState → World T P C → Prop :=
| interleaved_nil st w : interleaved others s 0 st w st w
| interleaved_step n st w w1 env st1 w2 st2 w3 :
    others w w1 → admit_step s env st w1 = Some (st1, w2) →
    interleaved others s n st1 w2 st2 w3 → interleaved others s (S n) st w st2 w3.

(** Anybody may act. *)
Definition admit_run : T → nat → AdmitState → World T P C → AdmitState → World T P C → Prop :=
  interleaved gate_steps.

Lemma admit_run_ok s n st w st' w' :
  wf w → pc_ok w s st → admit_run s n st w st' w' →
  wf w' ∧ evolves w w' ∧ pc_ok w' s st' ∧ ad_deadline st' = ad_deadline st ∧
  (bounded_delay w st → bounded_delay w' st').
Proof.
  intros Hwf Hok Hrun. revert Hwf Hok.
  induction Hrun as [st w|n st w w1 env st1 w2 st2 w3 Hst Hs _ IH]; intros Hwf Hok.
  { by split_and!. }
  destruct (gate_steps_ok _ _ Hwf Hst) as [Hwf1 Ev1].
  pose proof (pc_ok_stable _ _ _ _ Ev1 Hok) as Hok1.
  destruct (run_from_run _ _ _ _ _ _ (admit_step_ok w1 s env st Hwf1 Hok1) Hs)
    as (Hwf2 & Ev2 & Hpost).
  assert (Hb1 : bounded_delay w st → bounded_delay w1 st)
    by (unfold bounded_delay; by rewrite (ev_config _ _ Ev1)).
  destruct Hpost as [[_ [_ Hpc Hd _ Hb]]|(r & _ & -> & ->)].
  - destruct (IH Hwf2 Hpc) as (? & Ev3 & ? & Hd3 & Hb3). split_and!; try done.
    + transitivity w1; [done|]. by transitivity w2.
    + congruence.
    + auto.
  - destruct (IH Hwf1 Hok1) as (? & Ev3 & ? & Hd3 & Hb3). split_and!; try done.
    + by transitivity w1.
    + auto.
Qed.

(** C19. Admission ends within its budget.  Once the clock has passed the
    admission deadline, three more steps of the loop bring it to its result,
    whatever the source answers, whatever the queue does and whatever every
    other thread does in between. *)
Theorem admit_ends_at_deadline `{!TimeDriverOk} config clock w s n st st' w' :
  deployment config clock → reachable config clock w → pc_ok w s st →
  past (ad_deadline st) w → admit_run s n st w st' w' → (3 ≤ n)%nat →
  ∃ r, ad_pc st' = AdmitPc.Return r.
Proof.
  intros Hdep Hr Hok Hp Hrun Hn. pose proof (reachable_wf _ _ _ Hdep Hr) as Hwf.
  assert (Hle : (rank (ad_pc st) ≤ n)%nat) by (destruct (ad_pc st); simpl; lia).
  clear Hn Hr. revert Hwf Hok Hp Hle.
  induction Hrun as [st w|n st w w1 env st1 w2 st2 w3 Hst Hs _ IH]; intros Hwf Hok Hp Hle.
  { destruct (ad_pc st); simpl in Hle; try lia. by eexists. }
  destruct (gate_steps_ok _ _ Hwf Hst) as [Hwf1 Ev1].
  pose proof (pc_ok_stable _ _ _ _ Ev1 Hok) as Hok1.
  pose proof (past_stable _ _ _ Ev1 Hp) as Hp1.
  destruct (run_from_run _ _ _ _ _ _ (admit_step_ok w1 s env st Hwf1 Hok1) Hs)
    as (Hwf2 & Ev2 & [[_ [_ Hpc Hd _ _]]|(r & Hret & -> & ->)]).
  - apply IH; [done|done| |].
    + rewrite Hd. by apply (past_stable _ w1).
    + destruct (decide (rank (ad_pc st) = 0%nat)) as [Hz|Hz].
      * destruct (ad_pc st) as [| | | | | |a] eqn:Hret; simpl in Hz; try lia.
        unfold admit_step in Hs. rewrite Hret in Hs. injection Hs as <- <-. rewrite Hret. simpl. lia.
      * pose proof (admit_step_past w1 s env st st1 w2 Hwf1 Hok1 Hp1 ltac:(lia) Hs) as Hc.
        unfold closer in Hc. lia.
  - apply IH; [done|done|done|]. rewrite Hret. simpl. lia.
Qed.

(** The retry backoff of an admission stays between zero and the configured
    maximum, and its deadline never moves, along every run. *)
Theorem admit_backoff_bounded config clock w s n st st' w' :
  deployment config clock → reachable config clock w → pc_ok w s st →
  admit_run s n st w st' w' →
  0 ≤ ad_retry_delay st ≤ max_admission_retry_delay config →
  ad_deadline st' = ad_deadline st ∧
  0 ≤ ad_retry_delay st' ≤ max_admission_retry_delay config.
Proof.
  intros Hdep Hr Hok Hrun Hb. pose proof (reachable_wf _ _ _ Hdep Hr) as Hwf.
  pose proof (reachable_evolves _ _ _ Hdep Hr) as Ev0.
  destruct (admit_run_ok _ _ _ _ _ _ Hwf Hok Hrun) as (_ & Ev & _ & Hd & Hb').
  unfold bounded_delay in Hb'. rewrite (ev_config _ _ Ev), (ev_config _ _ Ev0) in Hb'.
  split; [done|]. by apply Hb'.
Qed.

(** The permanent-failure cooldown is honoured.  While a delayed lookup is
    polled before its wake-up time it stays pending: it makes no call to the
    source, changes no entry and keeps the same wake-up time. *)
Theorem cooldown_honoured `{!TimeDriverOk} w f pf wake answer alive :
  w_fetches w !! f = Some pf → pf_aborted pf = false →
  (pf_phase pf = FetchPhase.Delay (Some wake) ∧ w_clock w (w_reads w) < wake ∨
   pf_phase pf = FetchPhase.Start ∧
   (∃ d, pf_delay pf = Some d ∧ wake = w_clock w (w_reads w) + d) ∧ wake ≤ Instant.MAX ∧
   w_clock w (S (w_reads w)) < wake) →
  ∃ w', fetch_poll f answer alive w = Some (Poll.Pending, w') ∧
    w_metrics w' = w_metrics w ∧ w_entries w' = w_entries w ∧
    w_fetches w' !! f = Some (pf_set_phase (FetchPhase.Delay (Some wake)) pf).
Proof.
  intros Hf Hab Hcase.
  assert (Hwait : ∀ w1, w_fetches w1 = w_fetches w → w_metrics w1 = w_metrics w →
    w_entries w1 = w_entries w → w_clock w1 (w_reads w1) < wake →
    ∃ w', fetch_poll_delay f pf (Some wake) answer alive w1 = Some (Poll.Pending, w') ∧
      w_metrics w' = w_metrics w ∧ w_entries w' = w_entries w ∧
      w_fetches w' !! f = Some (pf_set_phase (FetchPhase.Delay (Some wake)) pf)).
  { intros w1 Hf1 Hm1 He1 Hlt. eexists. split.
    - unfold fetch_poll_delay, D_now, mbind, M_bind. simpl.
      rewrite sleep_until_pending by done. unfold fetch_set_phase, with_fetch. simpl.
      rewrite Hf1, Hf. reflexivity.
    - simpl. by rewrite lookup_insert_eq. }
  unfold fetch_poll, expect, mbind, M_bind. rewrite Hf.
  destruct Hcase as [[Hph Hlt]|(Hph & (d & Hd & ->) & Hmax & Hlt)]; rewrite Hph, Hab.
  - by apply Hwait.
  - rewrite Hd. unfold D_now. unfold sleep_deadline, Instant.checked_add.
    rewrite (proj2 (Z.leb_le _ _) Hmax). by apply Hwait.
Qed.

End contract.

(** Until when a decision taken at [now] may be used, in instants: for less than the
    configured TTL, unless that is unlimited, and before the source's own cap. *)
Definition lives {P} (ttl now : Z) (r : DecisionResult P) (t : Z) : Prop :=
  (ttl = Duration.MAX ∨ t < now + ttl) ∧ ∀ cap, valid_until r = Some cap → t < cap.

Section window.
Context {P : Type}.
Implicit Types (en : Entry P) (r : DecisionResult P) (ttl now t : Z).

Lemma snapshot_deadline ttl ptr en now r :
  0 ≤ ttl →
  deadline_of (sn_word (decision_snapshot_at ttl ptr en now r)) =
    match valid_until r with
    | Some cap => Z.min (deadline_after en now ttl) (tick en cap)
    | None => deadline_after en now ttl
    end.
Proof. intros Httl. apply (decision_deadline_range ttl en now r Httl). Qed.

Lemma snapshot_usable ttl ptr en now r t :
  0 ≤ ttl → epoch en ≤ now →
  is_expired_at en (sn_word (decision_snapshot_at ttl ptr en now r)) t = false →
  lives ttl now r t.
Proof.
  intros Httl Hep. rewrite is_expired_at_false, snapshot_deadline by done.
  pose proof (deadline_after_finite en now ttl Httl) as Hfin.
  pose proof (deadline_after_eq en now ttl Httl) as Hd.
  pose proof no_expiry_val. pose proof max_finite_val. rewrite (tick_eq en now) in Hd.
  intros Hx. split.
  - destruct (Z.eqb_spec ttl Duration.MAX) as [|Hne]; [by left|right]. specialize (Hfin Hne).
    destruct (Z.ltb_spec (Z.min (Z.max 0 (now - epoch en)) MAX_FINITE_DEADLINE + ttl) NO_EXPIRY);
      destruct (valid_until r) as [cap|]; rewrite ?(tick_eq en) in Hx; lia.
  - intros cap Hcap. rewrite Hcap, !(tick_eq en) in Hx. lia.
Qed.

Lemma snapshot_lasts ttl ptr en now r t :
  0 ≤ ttl → epoch en ≤ now ≤ t → t - epoch en < MAX_FINITE_DEADLINE →
  (ttl ≠ Duration.MAX → now - epoch en + ttl < NO_EXPIRY) → lives ttl now r t →
  is_expired_at en (sn_word (decision_snapshot_at ttl ptr en now r)) t = false.
Proof.
  intros Httl Hep Ht Hfit [Hlt Hcap]. rewrite is_expired_at_false, snapshot_deadline by done.
  pose proof (deadline_after_eq en now ttl Httl) as Hd. rewrite (tick_eq en now) in Hd.
  pose proof no_expiry_val. pose proof max_finite_val.
  assert (tick en t < deadline_after en now ttl) as Hda.
  { rewrite Hd, (tick_eq en). destruct (Z.eqb_spec ttl Duration.MAX) as [|Hne]; [lia|].
    specialize (Hfit Hne). destruct Hlt as [?|Hlt]; [done|].
    destruct (Z.ltb_spec (Z.min (Z.max 0 (now - epoch en)) MAX_FINITE_DEADLINE + ttl) NO_EXPIRY); lia. }
  right. destruct (valid_until r) as [cap|]; [|done]. specialize (Hcap cap eq_refl).
  apply Z.min_glb_lt; [done|]. rewrite !(tick_eq en). lia.
Qed.

Lemma snapshot_half_life ttl ptr en now r t :
  0 ≤ ttl →
  let sn := decision_snapshot_at ttl ptr en now r in
  let deadline := deadline_of (sn_word sn) in
  deadline - tick en now ≤ refresh_before en → tick en now ≤ deadline →
  refresh_eligible_at en sn t = true → deadline - tick en now ≤ 2 * (tick en t - tick en now).
Proof.
  intros Httl sn deadline Hshort Hle Hel.
  destruct (decision_deadline_range ttl en now r Httl) as [Hr Heq].
  change (deadline_of (sn_word (decision_snapshot_at ttl 1 en now r))) with deadline in Hr, Heq.
  apply refresh_eligible_true in Hel as (_ & _ & _ & Hafter & _).
  pose proof (tick_range en now) as Ht. pose proof no_expiry_val as Hne.
  unfold sn in Hafter. simpl in Hafter.
  rewrite <-Heq in Hafter. unfold u64_saturating_sub in Hafter.
  rewrite (proj2 (Z.leb_le _ _)) in Hafter by lia.
  pose proof (u64_div_ceil_two_bounds (Z.max 0 (deadline - tick en now)) ltac:(lia)).
  rewrite u64_wrap_small in Hafter; [lia|].
  unfold u64_range. rewrite u64_max_val. rewrite Hne in *. rewrite max_finite_val in Ht. lia.
Qed.

(** C33. A snapshot built for a decision can be used exactly as long as it may be:
    never once the freshness TTL has passed since [now] or the source's cap is
    reached, also where the deadline is not representable; and, while the ticks of
    the entry can represent the deadline and the reading, at every moment before.
    It carries a payload only when it allows, is never eligible for refresh in the
    first half of a life that is shorter than the refresh window, and its tick
    arithmetic never wraps. *)
Theorem decision_snapshot_window ttl ptr en now r t :
  0 ≤ ttl → epoch en ≤ now →
  let sn := decision_snapshot_at ttl ptr en now r in
  let deadline := deadline_of (sn_word sn) in
  (is_expired_at en (sn_word sn) t = false → lives ttl now r t) ∧
  (now ≤ t → t - epoch en < MAX_FINITE_DEADLINE →
   (ttl ≠ Duration.MAX → now - epoch en + ttl < NO_EXPIRY) → lives ttl now r t →
   is_expired_at en (sn_word sn) t = false) ∧
  decode_entry_state (sn_word sn) = EntryState.from (decision r) ∧
  (is_Some (sn_payload sn) → decision r = Decision.Allowed) ∧
  0 ≤ sn_refresh_after sn ≤ NO_EXPIRY ∧
  (deadline - tick en now ≤ refresh_before en → tick en now ≤ deadline →
   refresh_eligible_at en sn t = true →
   deadline - tick en now ≤ 2 * (tick en t - tick en now)).
Proof.
  intros Httl Hep sn deadline. split; [by apply snapshot_usable|].
  split; [by intros; apply snapshot_lasts|].
  destruct (decision_deadline_range ttl en now r Httl) as [Hr Heq].
  split; [simpl; rewrite word_decode; [done|by rewrite <-Heq]|].
  split; [simpl; case_bool_decide; [done|by intros [? ?]]|].
  split; [by apply refresh_after_range|]. by apply snapshot_half_life.
Qed.
End window.

(** ** The theorems on concrete runs *)

(** Disconnected after the admission, then connected again and readmitted. *)
Definition demo_off : DemoWorld := exec watch_disconnected demo_admitted.
Definition demo_back : DemoWorld := exec watch_connected demo_off.

Lemma demo_off_run : watch_disconnected demo_admitted = Some (tt, demo_off).
Proof. vm_compute. reflexivity. Qed.

Lemma demo_back_steps : gate_steps demo_off demo_back.
Proof. apply rtc_once. apply (step_watch_connected _ tt). vm_compute. reflexivity. Qed.

Lemma demo_off_steps : gate_steps demo_admitted demo_off.
Proof. apply rtc_once. apply (step_watch_disconnected _ tt), demo_off_run. Qed.

Lemma demo_off_reachable : reachable demo_config demo_clock demo_off.
Proof.
  apply from_demo_on. unfold gate_steps.
  transitivity demo_admitted; [exact demo_admitted_steps|exact demo_off_steps].
Qed.

Lemma disconnect_is_final_witness :
  is_Some (w_entries demo_admitted !! 1%positive) ∧ reports_stale demo_back 1.
Proof.
  split; [vm_compute; eauto|].
  apply (disconnect_is_final demo_config demo_clock demo_admitted tt demo_off).
  - apply demo_deployment.
  - apply demo_admitted_reachable.
  - apply demo_off_run.
  - apply demo_back_steps.
  - vm_compute. eauto.
Defined.

Lemma unlisted_is_final_witness : reports_stale demo_back 1 ∧ ¬ listed demo_back 1.
Proof.
  apply (unlisted_is_final demo_config demo_clock demo_off).
  - apply demo_deployment.
  - apply demo_off_reachable.
  - vm_compute. eauto.
  - vm_compute. apply not_elem_of_nil.
  - apply demo_back_steps.
Defined.

Definition withdrawal : DecisionChange nat := mkDecisionChange 7%nat None.

Lemma withdrawal_is_final_witness :
  listed_as demo_admitted 7%nat 1 ∧ reports_stale (exec (apply_change withdrawal) demo_admitted) 1.
Proof.
  split; [apply demo_listed|].
  apply (withdrawal_is_final demo_config demo_clock demo_admitted 7%nat 1 tt
    (exec (apply_change withdrawal) demo_admitted)).
  - apply demo_deployment.
  - apply demo_admitted_reachable.
  - apply demo_listed.
  - vm_compute. reflexivity.
  - constructor.
Defined.

Lemma watch_decision_wins_witness :
  let w1 := exec (apply_change (mkDecisionChange 7%nat (Some Decision.Denied))) demo_waiting in
  dead w1 1 ∨ (state_is w1 1 EntryState.Denied ∧
    ∀ f from r, apply_fetch_result 7%nat 1 f from r w1 = Some (forget r, w1)).
Proof.
  apply (watch_decision_wins demo_config demo_clock demo_waiting 7%nat 1 Decision.Denied tt).
  - apply demo_deployment.
  - apply demo_waiting_reachable.
  - eexists. split; [vm_compute; left|reflexivity].
  - vm_compute. reflexivity.
Defined.

Lemma cached_reads_sound_witness :
  check_without_refresh 7%nat demo_admitted
    = Some (Some 1%positive, exec (check_without_refresh 7%nat) demo_admitted) ∧
  granted demo_admitted 7%nat 1 (exec (check_without_refresh 7%nat) demo_admitted).
Proof.
  split; [vm_compute; reflexivity|].
  apply (cached_reads_sound demo_config demo_clock demo_admitted 7%nat 1).
  - apply demo_deployment.
  - apply demo_admitted_reachable.
  - left. vm_compute. reflexivity.
Defined.

(** A step that ends the wait for the refresh queue. *)
Lemma admit_sound_witness :
  granted demo_admitted 7%nat 1
    (exec (admit_step 7%nat (answering Decision.Allowed)
       (mkAdmit 2000 1 (AdmitPc.Access true 1 2 1044 true))) demo_admitted).
Proof.
  apply (admit_sound demo_config demo_clock demo_admitted 7%nat (answering Decision.Allowed)
    (mkAdmit 2000 1 (AdmitPc.Access true 1 2 1044 true))
    (mkAdmit 2000 1 (AdmitPc.Return (Some 1%positive)))).
  - apply demo_deployment.
  - apply demo_admitted_reachable.
  - split; [|split; [vm_compute; discriminate|vm_compute; eauto]].
    apply listed_tracked; [apply demo_admitted_wf|apply demo_listed].
  - discriminate.
  - vm_compute. reflexivity.
  - reflexivity.
Defined.

Lemma offline_reads_miss_witness :
  w_connected demo_off = false ∧ check_without_refresh 7%nat demo_off = Some (None, demo_off).
Proof.
  split; [vm_compute; reflexivity|].
  apply (offline_reads_miss demo_config demo_clock demo_off).
  - apply demo_deployment.
  - apply demo_off_reachable.
  - vm_compute. reflexivity.
Defined.

Lemma reachable_invariant_witness : Z.of_nat (length (slots demo_admitted)) ≤ 2.
Proof.
  apply (reachable_invariant demo_config demo_clock demo_admitted).
  - apply demo_deployment.
  - apply demo_admitted_reachable.
Defined.

Lemma methods_never_panic_witness : is_Some (admission_state 1 demo_admitted).
Proof.
  apply (methods_never_panic demo_config demo_clock demo_admitted).
  - apply demo_deployment.
  - apply demo_admitted_reachable.
  - apply demo_handle.
Defined.

(** The lookup of the waiting subject answers. *)
Definition allowing : result (DecisionResult nat) DecisionSourceError :=
  Ok (mkDecisionResult Decision.Allowed None None).


(** A read in the refresh window suspends with the claim of fetch 11. *)
Definition demo_claimed : DemoWorld := exec (check_begin 7%nat) demo_admitted.

Lemma demo_claimed_reachable : reachable demo_config demo_clock demo_claimed.
Proof.
  apply from_demo_on. unfold gate_steps. transitivity demo_admitted; [exact demo_admitted_steps|].
  apply rtc_once. apply step_client, step_local, (step_check_begin _ 7%nat (Access.Enqueue 1 11 1048)).
  vm_compute. reflexivity.
Qed.

Lemma demo_claimed_tracked : tracked demo_claimed 7%nat 1.
Proof.
  apply listed_tracked.
  - apply (reachable_wf demo_config demo_clock), demo_claimed_reachable. apply demo_deployment.
  - eexists. split; [vm_compute; left|reflexivity].
Qed.

Definition demo_current : EntrySnapshot nat := mkSnapshot 6 241 (Some 5%nat) 0.

Lemma refresh_replaces_its_source_witness :
  let m := apply_fetch_result 7%nat 1 11 (Some demo_current) allowing in
  owns demo_claimed 1 11 ∧
  refresh_outcome demo_claimed 1 11 demo_current (Ok tt) (exec m demo_claimed).
Proof.
  assert (owns demo_claimed 1 11) as Ho by (eexists; split; vm_compute; reflexivity).
  split; [exact Ho|].
  refine (proj1 (refresh_replaces_its_source demo_config demo_clock demo_claimed 7%nat 1 11
    demo_current allowing (Ok tt) _ _ _ _ _ _) Ho).
  - apply demo_deployment.
  - apply demo_claimed_reachable.
  - apply demo_claimed_tracked.
  - split; [vm_compute; reflexivity|]. split; [vm_compute; reflexivity|].
    split; [eexists; split; [vm_compute; reflexivity|vm_compute; discriminate]|].
    intros en He _. vm_compute in He. injection He as <-. reflexivity.
  - vm_compute. reflexivity.
Defined.

Lemma refresh_is_single_flight_witness :
  access_begin 7%nat 1 (Some 1046) demo_admitted
    = Some (Access.Enqueue 1 10 1046, exec (access_begin 7%nat 1 (Some 1046)) demo_admitted) ∧
  w_fetches demo_admitted !! 10%positive = None.
Proof.
  assert (access_begin 7%nat 1 (Some 1046) demo_admitted
    = Some (Access.Enqueue 1 10 1046, exec (access_begin 7%nat 1 (Some 1046)) demo_admitted))
    as Hrun by (vm_compute; reflexivity).
  split; [exact Hrun|].
  refine (proj1 (proj2 (proj2 (refresh_is_single_flight demo_config demo_clock demo_admitted
    7%nat 1 (Some 1046) 1 10 1046 _ _ _ _ Hrun)))).
  - apply demo_deployment.
  - apply demo_admitted_reachable.
  - apply listed_tracked; [apply demo_admitted_wf|apply demo_listed].
Defined.

Lemma refresh_claim_released_witness :
  ∃ en, w_entries (exec (access_cancel 1 11) demo_claimed) !! 1%positive = Some en ∧
    pending en ≠ Some 11%positive.
Proof.
  refine (proj2 (refresh_claim_released demo_config demo_clock demo_claimed 7%nat 1 11 true 1048
    Poll.Pending None demo_claimed _ _ _) tt _ _).
  - apply demo_deployment.
  - apply demo_claimed_reachable.
  - apply demo_claimed_tracked.
  - vm_compute. reflexivity.
Defined.

Lemma republish_publishes_listing_witness :
  w_entries (exec republish_if_due demo_waiting) = w_entries demo_waiting.
Proof.
  apply (republish_publishes_listing demo_config demo_clock demo_waiting tt).
  - apply demo_deployment.
  - apply demo_waiting_reachable.
  - vm_compute. reflexivity.
Defined.

(** A rebuild claimed just before an outage. *)
Definition demo_unpublished : DemoWorld := exec mark_shape_dirty demo_admitted.
Definition demo_rebuilding : DemoWorld := exec republish_claim demo_unpublished.
Definition demo_lost : DemoWorld := exec watch_disconnected demo_rebuilding.

Lemma demo_unpublished_reachable : reachable demo_config demo_clock demo_unpublished.
Proof.
  apply from_demo_on. unfold gate_steps. transitivity demo_admitted; [exact demo_admitted_steps|].
  apply rtc_once. apply step_client, step_local, (step_mark_dirty _ tt). vm_compute. reflexivity.
Qed.

Lemma straddling_rebuild_dropped_witness :
  republish_claim demo_unpublished = Some (Some 1, demo_rebuilding) ∧
  republish_store 1 {[7%nat := 1%positive]} (exec watch_connected demo_lost)
    = Some (tt, exec watch_connected demo_lost).
Proof.
  assert (republish_claim demo_unpublished = Some (Some 1, demo_rebuilding)) as Hclaim
    by (vm_compute; reflexivity).
  split; [exact Hclaim|].
  refine (straddling_rebuild_dropped demo_config demo_clock demo_unpublished 1 demo_rebuilding
    0 demo_rebuilding demo_lost 1 (exec watch_connected demo_lost) {[7%nat := 1%positive]}
    _ _ Hclaim _ _ _ _).
  - apply demo_deployment.
  - apply demo_unpublished_reachable.
  - constructor.
  - split; [apply (step_watch_disconnected _ tt); vm_compute; reflexivity|].
    left. vm_compute. discriminate.
  - eapply nsteps_l; [|constructor]. apply (step_watch_connected _ tt). vm_compute. reflexivity.
  - vm_compute. reflexivity.
Defined.


(** An admission of subject 9 whose deadline, 1010, has passed. *)
Definition late : AdmitState := mkAdmit 1010 1 (AdmitPc.Connect true).
Definition timed_out : AdmitState := mkAdmit 1010 1 (AdmitPc.Return None).
Definition demo_late : DemoWorld :=
  exec (admit_step 9%nat (answering Decision.Allowed) late) demo_admitted.

Lemma late_run : admit_run 9%nat 3 late demo_admitted timed_out demo_late.
Proof.
  apply (interleaved_step gate_steps 9%nat 2 late demo_admitted demo_admitted (answering Decision.Allowed)
    timed_out demo_late); [constructor|vm_compute; reflexivity|].
  do 2 (apply (interleaved_step gate_steps 9%nat _ timed_out demo_late demo_late (answering Decision.Allowed)
    timed_out demo_late); [constructor|vm_compute; reflexivity|]).
  constructor.
Qed.

Lemma admit_ends_at_deadline_witness :
  past 1010 demo_admitted ∧ ∃ r, ad_pc timed_out = AdmitPc.Return r.
Proof.
  assert (past 1010 demo_admitted) as Hp.
  { intros n Hn. change (16 ≤ n)%nat in Hn. change (1010 ≤ demo_clock n).
    unfold demo_clock. destruct (Nat.ltb_spec n 16); lia. }
  split; [exact Hp|].
  apply (admit_ends_at_deadline demo_config demo_clock demo_admitted 9%nat 3 late timed_out
    demo_late).
  - apply demo_deployment.
  - apply demo_admitted_reachable.
  - exact I.
  - exact Hp.
  - apply late_run.
  - lia.
Defined.

Lemma admit_backoff_bounded_witness : 0 ≤ ad_retry_delay timed_out ≤ 5.
Proof.
  apply (admit_backoff_bounded demo_config demo_clock demo_admitted 9%nat 3 late timed_out
    demo_late).
  - apply demo_deployment.
  - apply demo_admitted_reachable.
  - exact I.
  - apply late_run.
  - vm_compute. split; discriminate.
Defined.

Lemma cooldown_honoured_witness :
  ∃ w', fetch_poll 7 (Answer.Ready (Ok None)) true demo_cooling = Some (Poll.Pending, w') ∧
    w_metrics w' = w_metrics demo_cooling.
Proof.
  destruct (cooldown_honoured demo_cooling 7
    (mkFetch 1%positive 7%nat (Some 7) None false FetchPhase.Start) 1007
    (Answer.Ready (Ok None)) true) as (w' & Hrun & Hm & _).
  - vm_compute. reflexivity.
  - reflexivity.
  - right. split; [reflexivity|]. split; [exists 7; split; vm_compute; reflexivity|].
    split; vm_compute; [discriminate|reflexivity].
  - exists w'. split; [exact Hrun|exact Hm].
Defined.



Lemma decision_snapshot_window_witness :
  lives 60 100 (mkDecisionResult Decision.Allowed (Some tt) (Some 110)) 109.
Proof.
  refine (proj1 (decision_snapshot_window 60 1 entry_sample 100
    (mkDecisionResult Decision.Allowed (Some tt) (Some 110)) 109 _ _) _).
  - vm_compute. discriminate.
  - vm_compute. discriminate.
  - vm_compute. reflexivity.
Defined.
