(* ===== verification/Progress.v ===== *)
(** * Progress: an admission that runs undisturbed delivers the verdict

    The other theorems say what cannot go wrong and when the loop ends.  This file
    says that it works: in five steps, read off the loop's own definitions, an
    admission of a subject the cache does not hold connects, creates the entry,
    runs its lookup, publishes the answer and returns the handle. *)

From S2P Require Export Demo.

Section progress.
Context {T P C : Type} `{Countable T, !LruCache T SubjectSlot C, !LruCacheOk T SubjectSlot C,
  TimeDriver, !TimeDriverOk}.
Implicit Types (w : World T P C) (e f : positive) (s : T) (en : Entry P) (st : AdmitState)
  (d : DecisionResult P).

(** ** Clock readings inside a window *)

(** Every clock reading from [w] on falls into the window. *)
Definition prompt (from upto : Z) w : Prop :=
  ∀ n, (w_reads w ≤ n)%nat → from ≤ w_clock w n < upto.

Lemma prompt_stable a b w w' : evolves w w' → prompt a b w → prompt a b w'.
Proof.
  intros Ev Hp n Hn. rewrite (ev_clock _ _ Ev). apply Hp. pose proof (ev_reads _ _ Ev). lia.
Qed.

Lemma prompt_now a b w : prompt a b w → a ≤ w_clock w (w_reads w) < b.
Proof. intros Hp. by apply Hp. Qed.

(** The window fits every bound the configuration and the decision put on it. *)
Record in_time (cfg : PolicyGateConfig) (from upto : Z) d : Prop := {
  it_some : from < upto;
  it_budget : upto - from ≤ admission_timeout cfg;
  it_deadline : upto + admission_timeout cfg ≤ Instant.MAX;
  it_lookup : upto - from ≤ unary_timeout cfg;
  it_fresh : upto - from ≤ decision_freshness_ttl cfg;
  it_ticks : upto - from ≤ MAX_FINITE_DEADLINE;
  it_finite : decision_freshness_ttl cfg = Duration.MAX ∨
    upto - from + decision_freshness_ttl cfg < NO_EXPIRY;
  it_cap cap : valid_until d = Some cap → upto ≤ cap;
}.

(** A snapshot built inside the window is not expired inside the window. *)
Lemma snapshot_lives cfg from upto d ptr en now t :
  in_time cfg from upto d → 0 ≤ decision_freshness_ttl cfg →
  from ≤ epoch en < upto → from ≤ now < upto → t < upto →
  is_expired_at en (sn_word (decision_snapshot_at (decision_freshness_ttl cfg) ptr en now d)) t
    = false.
Proof.
  intros Hit Httl Hep Hnow Ht. apply is_expired_at_false.
  destruct (decision_deadline_range (decision_freshness_ttl cfg) en now d Httl) as [_ Heq].
  change (sn_word (decision_snapshot_at _ ptr en now d))
    with (sn_word (decision_snapshot_at (decision_freshness_ttl cfg) 1 en now d)).
  rewrite Heq. clear Heq. destruct Hit as [Hsome _ _ _ Hfresh Hticks Hfin Hcap].
  assert (Hmain : deadline_after en now (decision_freshness_ttl cfg) = NO_EXPIRY ∨
    tick en t < deadline_after en now (decision_freshness_ttl cfg)).
  { rewrite deadline_after_eq by done.
    rewrite !tick_eq, no_expiry_val, max_finite_val in *.
    destruct (Z.eqb_spec (decision_freshness_ttl cfg) Duration.MAX); [by left|]. right.
    destruct Hfin as [?|Hfin]; [done|].
    match goal with |- context [?a <? ?b] => destruct (Z.ltb_spec a b) end; lia. }
  destruct (valid_until d) as [cap|]; [|exact Hmain].
  specialize (Hcap cap eq_refl). right.
  set (D := deadline_after _ _ _) in *. clearbody D.
  rewrite !tick_eq, no_expiry_val, max_finite_val in *. lia.
Qed.

(** ** Steps that leave the entries and lookups alone *)

Record quiet w w' : Prop := {
  qu_evolves : evolves w w';
  qu_entries : w_entries w' = w_entries w;
  qu_fetches : w_fetches w' = w_fetches w;
  qu_connected : w_connected w' = w_connected w;
}.

#[local] Instance quiet_preorder : PreOrder quiet.
Proof.
  split; [by intros w; split|]. intros w1 w2 w3 [] []. split; [by transitivity w2|congruence..].
Qed.

Lemma quiet_core w w' : same_core w w' → quiet w w'.
Proof. intros Hc. split; [by apply evolves_same_core|apply Hc..]. Qed.

(** The entry shows [x] at every moment of the window. *)
Definition shows (upto : Z) w e (x : EntryState.t) : Prop :=
  ∃ en, w_entries w !! e = Some en ∧ entry_decode en = x ∧
    ∀ t, t < upto → is_expired_at en (sn_word (current en)) t = false.

Lemma shows_quiet b w w' e x : quiet w w' → shows b w e x → shows b w' e x.
Proof. intros Hq (en & ?). exists en. by rewrite (qu_entries _ _ Hq). Qed.

(** Only the pending slot of the entry moved. *)
Lemma shows_pending b w w' e en p x :
  w_entries w !! e = Some en → w_entries w' = <[e := set_pending p en]> (w_entries w) →
  shows b w e x → shows b w' e x.
Proof.
  intros He He' (en0 & He0 & Hx & Hl). simplify_eq. exists (set_pending p en).
  rewrite He', lookup_insert_eq. by split_and!.
Qed.

(** A read inside the window. *)
Lemma shows_read b w e en x now sx w' :
  evolves w w' → w_entries w !! e = Some en → shows b w e x → now < b →
  read_post w e en now sx w' → sx = (current en, false) ∧ entry_decode en = x ∧ quiet w w'.
Proof.
  intros Ev He (en0 & He0 & Hx & Hl) Hnow (Hs & Hf & en' & He' & Hcase). simplify_eq.
  destruct Hcase as [(_ & -> & ->)|(Hexp & _)]; [|by rewrite Hl in Hexp].
  split_and!; [done|done|]. split; [done| |done|apply Hs]. by rewrite He', insert_id.
Qed.

Lemma shows_state_then {A} a b w0 w e x (k : EntryState.t → M (World T P C) A) Q :
  wf w → evolves w0 w → prompt a b w → shows b w e x →
  (∀ w1, wf w1 → evolves w0 w1 → quiet w w1 → run_from w0 w1 (k x) Q) →
  run_from w0 w (now ← D_now; x ← entry_state_at e now; k x) Q.
Proof.
  intros Hwf Ev Hp Hsh Hk. apply now_then; [done|done|]. intros w1 Hwf1 Ev1 Hc.
  pose proof (quiet_core _ _ Hc) as Hq.
  pose proof (shows_quiet _ _ _ _ _ Hq Hsh) as Hsh1.
  pose proof Hsh1 as (en & He & _).
  destruct (entry_state_at_from w1 w1 e en (w_clock w (w_reads w)))
    as (v & w2 & Hrun & Hwf2 & Ev2 & sx & Hr & ->); [done|done|done|].
  destruct (shows_read b w1 e en x (w_clock w (w_reads w)) sx w2 Ev2 He Hsh1)
    as (-> & <- & Hq2); [by apply (prompt_now a b)|done|].
  apply (run_step _ _ w2 _ _ _ _ Hrun). apply Hk; [done|by transitivity w1|by transitivity w1].
Qed.

Lemma shows_admission_from a b w0 w e (v : Decision.t) :
  wf w → evolves w0 w → prompt a b w → shows b w e (EntryState.from v) →
  run_from w0 w (entry_admission e) (λ r w', r = Some e ∧ quiet w w').
Proof.
  intros Hwf Ev Hp Hsh. pose proof Hsh as (en & He & _).
  eapply run_ok_from; [by apply (entry_admission_from w w e en)|done|].
  intros r w' _ Ev' (sx & Hr & ->).
  destruct (shows_read b w e en _ (w_clock w (w_reads w)) sx w' Ev' He Hsh)
    as (-> & Hx & Hq); [by apply (prompt_now a b)|done|].
  split; [|done]. unfold verdict_of, entry_decode in *. simpl. rewrite Hx. by destruct v.
Qed.

(** ** Access to an entry that shows a verdict *)

(** The handle is in hand, at once or after the refresh queue has answered. *)
Definition in_hand b e (v : Decision.t) (r : Access.t) w' : Prop :=
  shows b w' e (EntryState.from v) ∧
  (r = Access.Done (Some e) ∨ ∃ f q, r = Access.Enqueue e f q).

Lemma shows_give_up {A} a b w0 w e f v (g : option positive → A) :
  wf w → evolves w0 w → prompt a b w → shows b w e (EntryState.from v) →
  run_from w0 w (r ← entry_admission e; _ ← release_claim e f; mret (g r))
    (λ r w', r = g (Some e) ∧ shows b w' e (EntryState.from v)).
Proof.
  intros Hwf Ev Hp Hsh. eapply run_from_bind; [by apply (shows_admission_from a b w0 w e v)|].
  intros r w1 Hwf1 Ev1 [-> Hq]. pose proof (shows_quiet _ _ _ _ _ Hq Hsh) as Hsh1.
  pose proof Hsh1 as (en & He & _).
  eapply then_from; [by apply (release_claim_from w0 w1 e f); [..|exists en]|].
  intros u w2 Hwf2 Ev2 (_ & _ & _ & He2). apply run_from_ret; [done|done|]. split; [done|].
  specialize (He2 _ He). case_bool_decide; [by eapply shows_pending|].
  destruct Hsh1 as (en1 & ? & ?). simplify_eq. exists en1. by rewrite He2, lookup_insert_eq.
Qed.

(** The claim is checked again before the caller suspends, and given up if the
    decision changed meanwhile. *)
Lemma shows_claimed_from a b w0 w s e f en cur q v :
  wf w → evolves w0 w → prompt a b w → tracked w s e → w_entries w !! e = Some en →
  shows b w e (EntryState.from v) →
  run_from w0 w
    (en ← load_entry e;
     valid ← (if bool_decide (sn_ptr (current en) = sn_ptr cur) then
                now ← D_now; mret (refresh_eligible_at en cur now)
              else mret false);
     if valid : bool then mret (Access.Enqueue e f q)
     else r ← entry_admission e; _ ← release_claim e f; mret (Access.Done r))
    (in_hand b e v).
Proof.
  intros Hwf Ev Hp Ht He Hsh. apply (load_then _ _ _ en); [done|].
  assert (Hout : ∀ w5, wf w5 → evolves w0 w5 → evolves w w5 → shows b w5 e (EntryState.from v) →
    run_from w0 w5 (r ← entry_admission e; _ ← release_claim e f; mret (Access.Done r))
      (in_hand b e v)).
  { intros w5 Hwf5 Ev5 Ev05 Hsh5. eapply run_from_weaken.
    { apply (shows_give_up a b w0 w5 e f v Access.Done); try done.
      by apply (prompt_stable _ _ w). }
    intros r w6 _ _ [-> Hsh6]. split; [done|by left]. }
  case_bool_decide as Hptr; [|by apply run_pure, Hout].
  eapply (run_from_bind _ _ _ _ (λ _ w', evolves w w' ∧ shows b w' e (EntryState.from v))).
  { apply now_then; [done|done|]. intros w5 Hwf5 Ev5 Hc5. apply run_from_ret; [done|done|].
    split; [by apply evolves_same_core|]. eapply shows_quiet; [by apply quiet_core|done]. }
  intros ok w5 Hwf5 Ev5 [Ev05 Hsh5]. destruct ok; [|by apply Hout].
  apply run_from_ret; [done|done|]. split; [done|]. right. eauto.
Qed.

Lemma shows_access_from a b w0 w s e v limit :
  wf w → evolves w0 w → prompt a b w → tracked w s e → shows b w e (EntryState.from v) →
  run_from w0 w (access_begin s e limit) (in_hand b e v).
Proof.
  intros Hwf Ev Hp Ht Hsh. eapply run_ok_from; [|exact Ev|by intros r w' _ _ HQ; exact HQ].
  unfold access_begin. eapply run_from_bind; [by apply (shows_admission_from a b w w e v)|].
  intros r w1 Hwf1 Ev1 [-> Hq1]. pose proof (shows_quiet _ _ _ _ _ Hq1 Hsh) as Hsh1.
  assert (Hdone : ∀ w2, wf w2 → evolves w w2 → quiet w1 w2 →
    run_from w w2 (mret (Access.Done (Some e))) (in_hand b e v)).
  { intros w2 Hwf2 Ev2 Hq2. apply run_from_ret; [done|done|].
    split; [by apply (shows_quiet _ w1)|by left]. }
  apply run_gets. destruct (Duration.is_zero _); [by apply Hdone|].
  pose proof Hsh1 as (en & He1 & _). apply (load_then _ _ _ en); [done|].
  apply now_then; [done|done|]. intros w2 Hwf2 Ev2 Hc2.
  pose proof (quiet_core _ _ Hc2) as Hq2.
  assert (w_entries w2 !! e = Some en) as He2 by by rewrite (qu_entries _ _ Hq2).
  apply (load_then _ _ _ en); [done|].
  destruct (refresh_due_at _ _ _) eqn:Hdue; [|by apply Hdone].
  destruct (due_source _ _ _ _ Hwf2 He2 Hdue) as (Hsrc & Hfree & Hl2).
  destruct (match Instant.checked_add _ _ with Some _ => _ | None => _ end) as [q|];
    [|by apply Hdone].
  eapply run_from_bind.
  { apply (new_fetch_after_from w w2 e s None (Some (current en))); [done|done| |by intros ? [= <-]].
    by apply (tracked_stable w). }
  intros f w3 Hwf3 Ev3 (Ev23 & Hs3 & He3 & -> & Hf3).
  assert (w_entries w3 !! e = Some en) as He3e by by rewrite He3.
  eapply run_from_bind.
  { apply (entry_claim_pending_from w w3 e en (w_next w2)
      (mkFetch e s None (Some (current en)) false FetchPhase.Start)); try done.
    - by rewrite Hf3, lookup_insert_eq.
    - by apply (env_same_listed w2 w3). }
  intros r w4 Hwf4 Ev4 [-> ->]. rewrite Hfree in *.
  assert (shows b w3 e (EntryState.from v)) as Hsh3.
  { destruct Hsh1 as (en1 & ? & ?). exists en1. by rewrite He3, (qu_entries _ _ Hq2). }
  match goal with |- run_from _ ?w4 _ _ => assert (shows b w4 e (EntryState.from v)) as Hsh4
    by by eapply (shows_pending b w3); [exact He3e|..] end.
  eapply (shows_claimed_from a b); [done|done|..|exact Hsh4].
  - by apply (prompt_stable _ _ w).
  - by apply (tracked_stable w).
  - simpl. by rewrite lookup_insert_eq.
Qed.

(** ** The lookup publishes its answer *)

(** The entry was created inside the window and its lookup has not been polled. *)
Definition looked_up a b w s e f : Prop :=
  ∃ ptr now rb, a ≤ now < b ∧
    w_entries w !! e = Some (pending_entry ptr now f rb) ∧
    w_fetches w !! f = Some (mkFetch e s None None false FetchPhase.Start).

Lemma looked_up_quiet a b w w' s e f : quiet w w' → looked_up a b w s e f → looked_up a b w' s e f.
Proof.
  intros Hq (ptr & now & rb & ?). exists ptr, now, rb.
  by rewrite (qu_entries _ _ Hq), (qu_fetches _ _ Hq).
Qed.

Lemma looked_up_shows a b w s e f : looked_up a b w s e f → shows b w e EntryState.Pending.
Proof.
  intros (ptr & now & rb & _ & He & _). eexists. split; [exact He|]. split; [by vm_compute|].
  intros t _. apply is_expired_at_false. by left.
Qed.

(** The verdict stands where the pending state was, and nothing else moved. *)
Definition delivered b w e (v : Decision.t) w' : Prop :=
  shows b w' e (EntryState.from v) ∧ w_connected w' = w_connected w.

Lemma delivered_quiet b w w' w'' e v : quiet w' w'' → delivered b w e v w' → delivered b w e v w''.
Proof.
  intros Hq [Hsh Hc]. split; [by apply (shows_quiet _ w')|]. by rewrite (qu_connected _ _ Hq).
Qed.

Lemma publish_delivers a b w0 w s e f d :
  wf w → evolves w0 w → prompt a b w → in_time (w_config w) a b d → looked_up a b w s e f →
  run_from w0 w (apply_fetch_result s e f None (Ok d))
    (λ r w', r = Ok tt ∧ delivered b w e (decision d) w').
Proof.
  intros Hwf Ev Hp Hit (ptr & t0 & rb & Ht0 & He & Hf).
  eapply run_ok_from; [|exact Ev|by intros r w' _ _ HQ; exact HQ].
  set (en := pending_entry ptr t0 f rb) in *.
  eapply run_from_bind; [by apply (entry_pending_generation_from w w e en f)|].
  intros g w1 Hwf1 Ev1 [-> ->]. rewrite bool_decide_eq_true_2 by done.
  destruct (decision_snapshot_from w w e en d)
    as (sn & w2 & Hrun & Hwf2 & Ev2 & Hc2 & Hnew & Hun & Hsn & Hok & Hst); [done|done|done|].
  apply (run_step _ _ w2 _ (Ok sn)); [by rewrite (run_bind_step _ _ _ _ _ Hrun)|].
  apply now_then; [done|done|]. intros w3 Hwf3 Ev3 Hc3.
  assert (w_entries w3 !! e = Some en) as He3
    by by rewrite (sc_entries _ _ Hc3), (sc_entries _ _ Hc2).
  apply (load_then _ _ _ en); [done|].
  assert (Hlive : ∀ t, t < b → is_expired_at en (sn_word sn) t = false).
  { intros t Ht. rewrite Hsn. unfold freshness_ttl.
    apply (snapshot_lives _ a b); [done| |done|by apply Hp|done].
    by apply (typed_nonneg _ (wf_config _ Hwf)). }
  rewrite Hlive.
  2:{ apply (prompt_now a), (prompt_stable _ _ w); [by apply evolves_same_core|done]. }
  eapply run_from_bind.
  { apply (entry_compare_exchange_from w w3 e en); [done|done|done|done| | | |by right].
    - by apply (unused_same_core w2).
    - by apply (snapshot_ok_config w2); [apply (sc_config _ _ Hc3)|].
    - rewrite Hst. apply verdict_settled. }
  assert (entry_decode en = EntryState.Pending) as Hpend by by vm_compute.
  intros x w4 Hwf4 Ev4 [-> ->]. rewrite bool_decide_eq_true_2 in * by done. simpl.
  eapply then_from.
  { apply (entry_replace_pending_from w _ e (set_current sn en) f None); [done|done| |done].
    simpl. by rewrite lookup_insert_eq. }
  intros u w5 Hwf5 Ev5 [-> _]. rewrite bool_decide_eq_true_2 in * by done.
  apply run_from_ret; [done|done|]. split; [done|]. split.
  - exists (set_pending None (set_current sn en)). simpl. rewrite lookup_insert_eq.
    split_and!; [done|exact Hst|exact Hlive].
  - simpl. by rewrite (sc_connected _ _ Hc3), (sc_connected _ _ Hc2).
Qed.

Lemma finish_delivers a b w0 w s e f d :
  wf w → evolves w0 w → prompt a b w → in_time (w_config w) a b d → looked_up a b w s e f →
  run_from w0 w (fetch_finish f (mkFetch e s None None false FetchPhase.Start) true (Ok d))
    (λ r w', r = Poll.Ready (Ok (Ok tt)) ∧ delivered b w e (decision d) w').
Proof.
  intros Hwf Ev Hp Hit Hl. unfold fetch_finish. simpl.
  eapply run_ok_from; [|exact Ev|by intros r w' _ _ HQ; exact HQ].
  eapply run_from_bind; [by apply (publish_delivers a b w w s e f d)|].
  intros r w1 Hwf1 Ev1 [-> Hd]. simpl. apply run_pure, run_pure.
  destruct Hl as (_ & _ & _ & _ & _ & Hf). destruct (ev_fetches _ _ Ev1 _ _ Hf) as (pf & Hf1 & _).
  eapply then_from.
  { eapply (run_from_weaken _ _ _ (λ _ w', ∃ m, w' = set_fetches m w1)); [|by intros ?? _ _ HQ; exact HQ].
    destruct (fetch_set_phase_from w w1 f (FetchPhase.Done (Ok (Ok tt))))
      as ([] & w2 & Hrun & Hwf2 & Ev2 & _); [done|done|by exists pf|].
    exists tt, w2. split_and!; [exact Hrun|done|done|].
    unfold fetch_set_phase, with_fetch in Hrun. rewrite Hf1 in Hrun. injection Hrun as <-. eauto. }
  intros u w2 Hwf2 Ev2 [m ->]. apply run_from_ret; [done|done|]. split; [done|exact Hd].
Qed.

(** A bounded wait whose inner future is ready before the deadline. *)
Lemma timeout_step_ready {A} w0 w first deadline (m : M (World T P C) (Poll.t A)) Q :
  wf w → evolves w0 w → w_clock w (w_reads w) < deadline →
  (∀ w1, wf w1 → evolves w0 w1 → quiet w w1 →
     run_from w0 w1 m (λ r w', ∃ x, r = Poll.Ready x ∧ Q (Poll.Ready (Ok x)) w')) →
  run_from w0 w (timeout_at_step first deadline m) Q.
Proof.
  intros Hwf Ev Hlt Hm. apply now_then; [done|done|]. intros w1 Hwf1 Ev1 Hc.
  rewrite timeout_at_poll_eq, (proj2 (Z.leb_gt _ _)) by done. simpl.
  eapply run_from_bind; [by apply Hm; [..|apply quiet_core]|].
  intros r w2 Hwf2 Ev2 (x & -> & HQ). by apply run_from_ret.
Qed.

Lemma poll_delivers a b w0 w s e f d :
  wf w → evolves w0 w → prompt a b w → in_time (w_config w) a b d → looked_up a b w s e f →
  run_from w0 w (fetch_poll f (Answer.Ready (Ok (Some d))) true)
    (λ r w', r = Poll.Ready (Ok (Ok tt)) ∧ delivered b w e (decision d) w').
Proof.
  intros Hwf Ev Hp Hit Hl. eapply run_ok_from; [|exact Ev|by intros r w' _ _ HQ; exact HQ].
  pose proof Hl as (_ & _ & _ & _ & _ & Hf).
  apply (run_step _ _ w _ (mkFetch e s None None false FetchPhase.Start));
    [unfold expect; by rewrite Hf|]. simpl.
  apply core_then; [done|done|by split|]. intros Hwf1 Ev1.
  apply now_then; [done|done|]. intros w2 Hwf2 Ev2 Hc2. apply run_gets.
  apply now_then; [done|done|]. intros w3 Hwf3 Ev3 Hc3.
  pose proof (prompt_stable _ _ _ _ Ev1 Hp) as Hp1. pose proof (prompt_stable _ _ _ _ Ev2 Hp) as Hp2.
  apply prompt_now in Hp1, Hp2.
  assert (timeout_poll true
    (Instant.checked_add (w_clock w (w_reads w)) (unary_timeout (w_config w2)))
    (w_clock w2 (w_reads w2)) (answer_poll (Answer.Ready (Ok (Some d))))
    = Poll.Ready (Ok (Some (Ok (Some d))))) as Htp.
  { unfold timeout_poll, Instant.checked_add. destruct (_ <=? _); [|done].
    rewrite timeout_at_poll_eq, (proj2 (Z.leb_gt _ _)); [done|].
    rewrite (ev_config _ _ Ev2). pose proof (it_lookup _ _ _ _ Hit). simpl in Hp1. lia. }
  change (w_clock (set_metrics _ w) (w_reads (set_metrics _ w))) with (w_clock w (w_reads w)).
  rewrite Htp. cbv beta iota.
  eapply (run_from_bind _ _ _ _ (λ r w', r = Ok d ∧ quiet w w')).
  { assert (quiet w w3) as Hq3.
    { transitivity w2; [|by apply quiet_core]. etransitivity; [|by apply quiet_core].
      by apply quiet_core; split. }
    unfold lookup_result. destruct (valid_until d) as [cap|] eqn:Hcap; [|by apply run_from_ret].
    apply now_then; [done|done|]. intros w4 Hwf4 Ev4 Hc4. apply run_from_ret; [done|done|].
    split; [|transitivity w3; [done|by apply quiet_core]].
    pose proof (it_cap _ _ _ _ Hit cap Hcap).
    pose proof (prompt_now _ _ _ (prompt_stable _ _ _ _ Ev3 Hp)).
    by rewrite (proj2 (Z.leb_gt _ _)) by lia. }
  intros r w4 Hwf4 Ev4 [-> Hq4]. eapply run_from_weaken.
  { apply (finish_delivers a b w w4 s e f d); [done|done| | |by apply (looked_up_quiet _ _ w)].
    - by apply (prompt_stable _ _ w).
    - by rewrite (ev_config _ _ Ev4). }
  intros r w5 _ _ [-> [Hsh Hc]]. split; [done|]. split; [done|]. by rewrite Hc, (qu_connected _ _ Hq4).
Qed.

(** ** The steps of the loop *)

Lemma begin_progress a b w d :
  wf w → prompt a b w → in_time (w_config w) a b d →
  run_ok w admit_begin (λ st w', quiet w w' ∧ b ≤ ad_deadline st ∧ ad_pc st = AdmitPc.Connect true).
Proof.
  intros Hwf Hp Hit. apply now_then; [done|done|]. intros w1 Hwf1 Ev1 Hc. apply run_gets.
  pose proof (prompt_now _ _ _ Hp). destruct Hit as [_ Hbudget Hdl _ _ _ _ _].
  rewrite (sc_config _ _ Hc). unfold Instant.checked_add.
  rewrite (proj2 (Z.leb_le _ _)) by lia. apply run_from_ret; [done|done|].
  split; [by apply quiet_core|]. split; [simpl; lia|done].
Qed.

Lemma connect_progress a b w st :
  wf w → prompt a b w → b ≤ ad_deadline st → w_connected w = true →
  run_ok w (admit_connect true st) (λ st' w', quiet w w' ∧ st' = goto AdmitPc.Insert st).
Proof.
  intros Hwf Hp Hb Hcn. pose proof (prompt_now _ _ _ Hp).
  eapply (run_from_bind _ _ _ _ (λ r w', quiet w w' ∧ r = Poll.Ready (Ok true))).
  { apply timeout_step_ready; [done|done|lia|]. intros w1 Hwf1 Ev1 Hq.
    unfold connected_or_closed. apply run_gets, run_gets.
    rewrite (qu_connected _ _ Hq), Hcn. apply run_from_ret; [done|done|]. by exists true. }
  intros r w1 Hwf1 Ev1 [Hq ->]. by apply run_from_ret.
Qed.

(** A subject that is not listed gets a new entry whose lookup is still to run. *)
Lemma entry_progress a b w s :
  wf w → prompt a b w → (∀ e, ¬ listed_as w s e) →
  run_ok w (admit_entry s) (λ e w', ∃ f,
    looked_up a b w' s e f ∧ w_entries w !! e = None ∧ w_connected w' = w_connected w).
Proof.
  intros Hwf Hp Hs. apply now_then; [done|done|]. intros w1 Hwf1 Ev1 Hc.
  eapply run_from_bind; [by apply (get_or_insert_with_from w w1 s)|].
  intros [e ins] w2 Hwf2 Ev2 (Hsame & Hl & Hins). simpl in *. destruct ins.
  2:{ by apply (same_core_listed_as _ _ _ _ Hc), Hs in Hins. }
  destruct Hins as (Hnew & (ptr & f & He & Hf) & _). apply run_gets.
  eapply then_from; [by apply mark_dirty_from|]. intros u w3 Hwf3 Ev3 Hc3.
  eapply then_from; [by apply republish_if_due_from|].
  intros u' w4 Hwf4 Ev4 (_ & He4 & Hf4 & _ & Hcn4 & _). apply run_from_ret; [done|done|].
  exists f. split; [|split].
  - eexists _, _, _. split; [by apply (prompt_now a b)|].
    by rewrite He4, Hf4, (sc_entries _ _ Hc3), (sc_fetches _ _ Hc3).
  - by rewrite <-(sc_entries _ _ Hc).
  - by rewrite Hcn4, (sc_connected _ _ Hc3), (ss_connected _ _ Hsame), (sc_connected _ _ Hc).
Qed.

(** The pending entry of a new subject is joined. *)
Lemma join_progress a b w0 w s e f :
  wf w → evolves w0 w → prompt a b w → looked_up a b w s e f →
  run_from w0 w (admit_join e) (λ r w', r = Some f ∧ quiet w w').
Proof.
  intros Hwf Ev Hp Hl. pose proof (looked_up_shows _ _ _ _ _ _ Hl) as Hsh.
  destruct Hl as (ptr & t0 & rb & Ht0 & He & Hf). unfold admit_join.
  assert (Hread : ∀ w1, quiet w w1 →
    entry_pending_operation e w1 = Some (Some f, w1)).
  { intros w1 Hq. unfold entry_pending_operation, load_entry, expect, mbind, M_bind.
    by rewrite (qu_entries _ _ Hq), He. }
  apply (run_step _ _ w _ (Some f)); [by apply Hread|].
  apply (shows_state_then a b w0 w e _ _ _ Hwf Ev Hp Hsh). intros w1 Hwf1 Ev1 Hq1. simpl.
  apply (run_step _ _ w1 _ true).
  { unfold entry_pending_is. rewrite (run_bind_step _ _ _ _ _ (Hread w1 Hq1)).
    by rewrite bool_decide_eq_true_2. }
  by apply run_from_ret.
Qed.

Lemma insert_progress a b w s st :
  wf w → prompt a b w → b ≤ ad_deadline st → w_connected w = true →
  (∀ e, ¬ listed_as w s e) →
  run_ok w (admit_insert s st) (λ st' w', ∃ e f, st' = goto (AdmitPc.Wait true e f) st ∧
    looked_up a b w' s e f ∧ w_entries w !! e = None ∧ w_connected w' = true).
Proof.
  intros Hwf Hp Hb Hcn Hs. eapply run_from_bind; [by apply (entry_progress a b w s)|].
  intros e w1 Hwf1 Ev1 (f & Hl & Hnew & Hcn1). rewrite Hcn in Hcn1.
  apply now_then; [done|done|]. intros w2 Hwf2 Ev2 Hc2. pose proof (quiet_core _ _ Hc2) as Hq2.
  pose proof (prompt_stable _ _ _ _ Ev1 Hp) as Hp1. pose proof (prompt_stable _ _ _ _ Ev2 Hp) as Hp2.
  pose proof (prompt_now _ _ _ Hp1). rewrite (proj2 (Z.leb_gt _ _)) by lia. apply run_gets.
  rewrite (qu_connected _ _ Hq2), Hcn1. simpl.
  pose proof (looked_up_quiet _ _ _ _ _ _ _ Hq2 Hl) as Hl2.
  apply (shows_state_then a b w w2 e _ _ _ Hwf2 Ev2 Hp2 (looked_up_shows _ _ _ _ _ _ Hl2)).
  intros w3 Hwf3 Ev3 Hq3. eapply run_from_bind.
  { apply (join_progress a b w w3 s e f); [done|done|by apply (prompt_stable _ _ w)|].
    by apply (looked_up_quiet _ _ w2). }
  intros r w4 Hwf4 Ev4 [-> Hq4]. apply run_from_ret; [done|done|]. exists e, f.
  assert (quiet w1 w4) as Hq by (transitivity w2; [done|by transitivity w3]).
  split_and!; [done|by apply (looked_up_quiet _ _ w1)|done|]. by rewrite (qu_connected _ _ Hq).
Qed.

(** What the outside world has to answer: the decision, at once, with no
    reconnect seen first; the refresh queue anything but silence. *)
Record answers env d : Prop := {
  an_lookup f : env_answer env f = Answer.Ready (Ok (Some d));
  an_watch : env_changed_first env = false;
  an_queue : ∃ x, env_send env = Poll.Ready x;
}.

Lemma wait_progress a b w s e f env d st :
  wf w → prompt a b w → in_time (w_config w) a b d → b ≤ ad_deadline st →
  answers env d → looked_up a b w s e f →
  run_ok w (admit_wait true s e f env st) (λ st' w', st' = goto (AdmitPc.Settle e (Ok tt)) st ∧
    delivered b w e (decision d) w').
Proof.
  intros Hwf Hp Hit Hb Hans Hl. pose proof (prompt_now _ _ _ Hp).
  eapply (run_from_bind _ _ _ _ (λ r w', delivered b w e (decision d) w' ∧
    r = Poll.Ready (Ok (Some (Ok (Ok tt)))))).
  { apply timeout_step_ready; [done|done|lia|]. intros w1 Hwf1 Ev1 Hq. unfold select_fetch.
    rewrite (an_watch _ _ Hans), andb_false_r, (an_lookup _ _ Hans).
    eapply run_from_bind.
    { apply (poll_delivers a b w w1 s e f d); [done|done|by apply (prompt_stable _ _ w)| |].
      - by rewrite (ev_config _ _ Ev1).
      - by apply (looked_up_quiet _ _ w). }
    intros r w2 Hwf2 Ev2 [-> [Hsh Hc]]. apply run_from_ret; [done|done|]. eexists. split; [done|].
    split; [|done]. split; [done|]. by rewrite Hc, (qu_connected _ _ Hq). }
  intros r w1 Hwf1 Ev1 [Hd ->]. by apply run_from_ret.
Qed.

(** Returned, or waiting for the refresh queue with the handle in hand. *)
Definition almost e st : Prop :=
  ad_pc st = AdmitPc.Return (Some e) ∨
  ∃ f q, ad_pc st = AdmitPc.Access true e f q false.

Lemma settle_progress a b w s e r v st :
  wf w → prompt a b w → tracked w s e → w_connected w = true → shows b w e (EntryState.from v) →
  run_ok w (admit_settle s e r st) (λ st' w', almost e st' ∧ shows b w' e (EntryState.from v)).
Proof.
  intros Hwf Hp Ht Hcn Hsh. apply run_gets. rewrite Hcn. simpl.
  assert (Hgo : ∀ w1, wf w1 → evolves w w1 → quiet w w1 →
    run_from w w1 (x ← access_begin s e (Some (ad_deadline st)); after_access false x st)
      (λ st' w', almost e st' ∧ shows b w' e (EntryState.from v))).
  { intros w1 Hwf1 Ev1 Hq. eapply run_from_bind.
    { apply (shows_access_from a b w w1 s e v); [done|done|by apply (prompt_stable _ _ w)| |].
      - by apply (tracked_stable w).
      - by apply (shows_quiet _ w). }
    intros x w2 Hwf2 Ev2 [Hsh2 [->|(f & q & ->)]]; (apply run_from_ret; [done|done|]);
      (split; [|done]); [by left|right; by exists f, q]. }
  apply (shows_state_then a b w w e _ _ _ Hwf (reflexivity _) Hp Hsh).
  intros w1 Hwf1 Ev1 Hq. destruct v; by apply Hgo.
Qed.

Lemma last_progress a b w s e v env st d :
  wf w → prompt a b w → answers env d → shows b w e (EntryState.from v) → almost e st →
  run_ok w (admit_step s env st) (λ st' w', ad_pc st' = AdmitPc.Return (Some e) ∧
    shows b w' e (EntryState.from v)).
Proof.
  intros Hwf Hp Hans Hsh [Hpc|(f & q & Hpc)]; unfold admit_step; rewrite Hpc.
  { by apply run_from_ret. }
  assert (Hend : ∀ w1 (r : Poll.t (option positive)), wf w1 → evolves w w1 →
    r = Poll.Ready (Some e) → shows b w1 e (EntryState.from v) →
    run_from w w1 (match r with
      | Poll.Pending => mret (goto (AdmitPc.Access false e f q false) st)
      | Poll.Ready x => after_access false (Access.Done x) st
      end) (λ st' w', ad_pc st' = AdmitPc.Return (Some e) ∧ shows b w' e (EntryState.from v))).
  { intros w1 r Hwf1 Ev1 -> Hsh1. by apply run_from_ret. }
  eapply (run_from_bind _ _ _ _ (λ r w', r = Poll.Ready (Some e) ∧ shows b w' e (EntryState.from v))).
  2:{ intros r w1 Hwf1 Ev1 [Hr Hsh1]. by apply Hend. }
  apply now_then; [done|done|]. intros w1 Hwf1 Ev1 Hc1. pose proof (quiet_core _ _ Hc1) as Hq1.
  pose proof (prompt_stable _ _ _ _ Ev1 Hp) as Hp1.
  pose proof (shows_quiet _ _ _ _ _ Hq1 Hsh) as Hsh1.
  assert (Hup : run_from w w1 (r ← entry_admission e; _ ← release_claim e f; mret (Poll.Ready r))
    (λ r w', r = Poll.Ready (Some e) ∧ shows b w' e (EntryState.from v)))
    by by apply (shows_give_up a b).
  destruct (an_queue _ _ Hans) as [x' ->].
  rewrite timeout_at_poll_eq. destruct (_ <=? _); [exact Hup|].
  destruct x' as [[]|[]]; [|exact Hup].
  apply core_then; [done|done|by split|]. intros Hwf2 Ev2.
  eapply run_from_bind.
  { apply (shows_admission_from a b w _ e v); [done|done|by apply (prompt_stable _ _ w)|].
    by eapply shows_quiet; [by apply quiet_core|]. }
  intros r w3 Hwf3 Ev3 [-> Hq3]. apply run_from_ret; [done|done|]. split; [done|].
  eapply shows_quiet; [exact Hq3|]. by eapply shows_quiet; [by apply quiet_core|].
Qed.

(** The handle observes the verdict. *)
Lemma shows_observed a b w0 w e v :
  wf w → evolves w0 w → prompt a b w → shows b w e (EntryState.from v) →
  run_from w0 w (admission_is_allowed e) (λ r w', r = bool_decide (v = Decision.Allowed)).
Proof.
  intros Hwf Ev Hp Hsh. pose proof (prompt_now _ _ _ Hp).
  eapply (run_from_bind _ _ _ _ (λ x w', x = match v with
    | Decision.Allowed => AdmissionState.Allowed | Decision.Denied => AdmissionState.Denied end)).
  2:{ intros x w1 Hwf1 Ev1 ->. apply run_from_ret; [done|done|]. by destruct v. }
  eapply (run_from_bind _ _ _ _ (λ o w', o = match v with
    | Decision.Allowed => Observed.Allowed | Decision.Denied => Observed.Denied end)).
  2:{ intros o w1 Hwf1 Ev1 ->. apply run_from_ret; [done|done|]. by destruct v. }
  apply now_then; [done|done|]. intros w1 Hwf1 Ev1 Hc.
  pose proof (shows_quiet _ _ _ _ _ (quiet_core _ _ Hc) Hsh) as Hsh1.
  pose proof Hsh1 as (en & He & Hd & _).
  eapply run_ok_from; [apply (entry_observed_at_from w1 w1 e en); [done|done|done|]|done|].
  { rewrite Hd. apply verdict_settled. }
  intros o w2 _ Ev2 (sx & Hr & Ho).
  destruct (shows_read b w1 e en _ (w_clock w (w_reads w)) sx w2 Ev2 He Hsh1)
    as (-> & _ & _); [lia|done|].
  unfold observed_of, entry_decode in *. simpl in Ho. rewrite Hd in Ho. destruct v; simpl in Ho; congruence.
Qed.

Lemma admit_step_at {A} w0 w s env st pc (k : AdmitState → M (World T P C) A) Q Q1 :
  wf w → evolves w0 w → ad_pc st = pc →
  run_ok w (match pc with
    | AdmitPc.Connect first_poll => admit_connect first_poll st
    | AdmitPc.Insert => admit_insert s st
    | AdmitPc.Access first_poll entry fetch q timed_out =>
        admit_access first_poll entry fetch q timed_out env st
    | AdmitPc.Wait first_poll entry fetch => admit_wait first_poll s entry fetch env st
    | AdmitPc.Settle entry r => admit_settle s entry r st
    | AdmitPc.Backoff first_poll wake => admit_backoff first_poll wake st
    | AdmitPc.Return _ => mret st
    end) Q1 →
  (∀ st' w', wf w' → evolves w0 w' → evolves w w' → Q1 st' w' → run_from w0 w' (k st') Q) →
  run_from w0 w (st' ← admit_step s env st; k st') Q.
Proof.
  intros Hwf Ev <- Hm Hk. eapply run_from_bind.
  { eapply run_ok_from; [exact Hm|done|]. intros st' w' _ Ev' HQ. exact (conj Ev' HQ). }
  intros st' w' Hwf' Ev' [Ev1 HQ]. by apply Hk.
Qed.

Lemma unlisted_quiet w w' s :
  wf w' → quiet w w' → (∀ e, ¬ listed_as w s e) → ∀ e, ¬ listed_as w' s e.
Proof.
  intros Hwf' Hq Hs e Hl. apply (Hs e), (ev_listed _ _ (qu_evolves _ _ Hq)); [|done].
  rewrite <-(qu_entries _ _ Hq). apply (wf_listed _ Hwf'), listed_iff. by exists s.
Qed.

Lemma looked_up_tracked a b w s e f : wf w → looked_up a b w s e f → tracked w s e.
Proof. intros Hwf (_ & _ & _ & _ & _ & Hf). apply (fo_tracked _ _ _ (wf_fetch _ Hwf _ _ Hf)). Qed.

Lemma admit_alone_delivers a b w s env d :
  wf w → prompt a b w → in_time (w_config w) a b d → answers env d →
  w_connected w = true → (∀ e, ¬ listed_as w s e) →
  run_ok w (admit_alone 5 s env) (λ st' w', ∃ e, ad_pc st' = AdmitPc.Return (Some e) ∧
    w_entries w !! e = None ∧ tracked w' s e ∧ shows b w' e (EntryState.from (decision d))).
Proof.
  intros Hwf Hp Hit Hans Hcn Hs. eapply run_from_bind; [by apply (begin_progress a b w d)|].
  intros st w1 Hwf1 Ev1 (Hq1 & Hb & Hpc). simpl.
  eapply (admit_step_at w w1 s env st); [done|done|exact Hpc|apply (connect_progress a b); try done|].
  { by apply (prompt_stable _ _ w). }
  { by rewrite (qu_connected _ _ Hq1). }
  intros st2 w2 Hwf2 Ev2 Ev12 [Hq2 ->].
  assert (quiet w w2) as Hq02 by by transitivity w1.
  eapply (admit_step_at w w2 s env); [done|done|done|apply (insert_progress a b); try done|].
  { by apply (prompt_stable _ _ w). }
  { by rewrite (qu_connected _ _ Hq02). }
  { by apply (unlisted_quiet w). }
  intros st3 w3 Hwf3 Ev3 Ev23 (e & f & -> & Hl & Hnew & Hcn3). rewrite (qu_entries _ _ Hq02) in Hnew.
  eapply (admit_step_at w w3 s env); [done|done|done|apply (wait_progress a b w3 s e f env d); try done|].
  { by apply (prompt_stable _ _ w). }
  { by rewrite (ev_config _ _ Ev3). }
  intros st4 w4 Hwf4 Ev4 Ev34 (-> & Hsh & Hcn4).
  pose proof (tracked_stable _ _ _ _ Ev34 (looked_up_tracked _ _ _ _ _ _ Hwf3 Hl)) as Ht.
  eapply (admit_step_at w w4 s env); [done|done|done|
    apply (settle_progress a b w4 s e _ (decision d)); try done|].
  { by apply (prompt_stable _ _ w). }
  { by rewrite Hcn4. }
  intros st5 w5 Hwf5 Ev5 Ev45 [Hal Hsh5]. eapply run_from_bind.
  { eapply run_ok_from; [apply (last_progress a b w5 s e (decision d) env st5 d); try done|done|].
    - by apply (prompt_stable _ _ w).
    - intros st' w' _ Ev' HQ. exact (conj Ev' HQ). }
  intros st6 w6 Hwf6 Ev6 (Ev56 & Hret & Hsh6). apply run_from_ret; [done|done|].
  exists e. split_and!; [done|done| |done].
  apply (tracked_stable w4); [by transitivity w5|done].
Qed.

(** The entry that shows a verdict is the one the map lists. *)
Lemma shows_listed b w s e v :
  wf w → tracked w s e → shows b w e (EntryState.from v) → listed_as w s e.
Proof.
  intros Hwf Ht (en & He & Hd & _). destruct (decide (listed w e)) as [Hl|Hn].
  - apply listed_iff in Hl as [s' Hs']. by rewrite <-(proj2 Ht s' Hs').
  - exfalso. pose proof (stale_unlisted _ _ _ Hwf He Hn) as Hst. rewrite Hd in Hst. by destruct v.
Qed.

(** C7. The gate answers.  On a connected gate, an admission of a subject the
    cache does not hold, to which the source answers [d] within the budgets and
    with which nothing interferes, returns after five steps of its loop: with a
    handle of a new entry, listed under the subject, that observes exactly the
    source's verdict. *)
Theorem admission_delivers config clock w s env d from upto :
  deployment config clock → reachable config clock w →
  w_connected w = true → (∀ e, ¬ listed_as w s e) →
  prompt from upto w → in_time config from upto d → answers env d →
  ∃ st w' e, admit_alone 5 s env w = Some (st, w') ∧
    ad_pc st = AdmitPc.Return (Some e) ∧ w_entries w !! e = None ∧ listed_as w' s e ∧
    ∃ w'', admission_is_allowed e w' = Some (bool_decide (decision d = Decision.Allowed), w'').
Proof.
  intros Hdep Hr Hcn Hs Hp Hit Hans. pose proof (reachable_wf _ _ _ Hdep Hr) as Hwf.
  pose proof (reachable_config _ _ _ Hdep Hr) as Hcfg.
  rewrite <-Hcfg in Hit.
  destruct (admit_alone_delivers from upto w s env d Hwf Hp Hit Hans Hcn Hs)
    as (st & w' & Hrun & Hwf' & Ev & e & Hret & Hnew & Ht & Hsh).
  exists st, w', e. split_and!; [done|done|done|by eapply shows_listed|].
  destruct (shows_observed from upto w' w' e (decision d) Hwf' (reflexivity _))
    as (r & w'' & Hobs & _ & _ & ->); [by apply (prompt_stable _ _ w)|done|]. by exists w''.
Qed.
End progress.

(** ** On a concrete run *)

Definition still_clock : nat → Z := λ _, 1000.
Definition calm : DemoWorld := exec watch_connected (gate_new demo_config still_clock).

Lemma still_deployment : deployment demo_config still_clock.
Proof.
  split; [apply demo_deployment|reflexivity|]. intros n. vm_compute. discriminate.
Qed.

Lemma calm_reachable : reachable demo_config still_clock calm.
Proof.
  assert (wf (gate_new demo_config still_clock : DemoWorld)) as Hwf
    by (apply gate_new_wf; apply still_deployment).
  destruct (exec_step watch_connected _ _ (watch_connected_from _ _ Hwf (reflexivity _))) as [u Hu].
  apply rtc_once. by eapply step_watch_connected.
Qed.

Lemma admission_delivers_witness :
  w_connected calm = true ∧
  ∃ st w' e, admit_alone 5 7%nat (answering Decision.Denied) calm = Some (st, w') ∧
    ad_pc st = AdmitPc.Return (Some e) ∧ listed_as w' 7%nat e ∧
    ∃ w'', admission_is_allowed e w' = Some (false, w'').
Proof.
  split; [reflexivity|].
  destruct (admission_delivers demo_config still_clock calm 7%nat (answering Decision.Denied)
    (mkDecisionResult Decision.Denied (Some 5%nat) None) 1000 1001)
    as (st & w' & e & Hrun & Hret & _ & Hl & Hobs).
  - apply still_deployment.
  - apply calm_reachable.
  - reflexivity.
  - intros e (slot & Hin & _). vm_compute in Hin. by apply elem_of_nil in Hin.
  - intros n _. unfold calm. vm_compute. split; [discriminate|reflexivity].
  - split; try (vm_compute; first [reflexivity|discriminate]). right. vm_compute. reflexivity.
  - split; [reflexivity|reflexivity|by eexists].
  - exists st, w', e. exact (conj Hrun (conj Hret (conj Hl Hobs))).
Defined.
