(* ===== verification/Program.v ===== *)
(** * Program: the gate's clients and its one watcher

    A running program is a world together with the state of the watch loop.  Any
    number of clients interleave with the steps of that one watcher, which alone
    owns the connection.  The theorems say what the watcher guarantees, from
    [PolicyGate::new] on, with no premise about references. *)

From S2P Require Export Contract.

(** Ghost state of a run, a function of the control points it went through: how many
    reconnect delays have ended since the watch was last stable, how often the clock
    had been read when it last opened, and which reading of the clock began the
    outage, if the watch is not stable. *)
Record Ghost : Type := mkGhost {
  failures : nat;
  last_open : nat;
  outage : option nat;
}.

(** A gate is constructed in an outage that begins with the first reading. *)
Definition first_ghost : Ghost := mkGhost 0 0 (Some O).

Section program.
Context {T P C : Type} `{Countable T, !LruCache T SubjectSlot C, !LruCacheOk T SubjectSlot C, TimeDriver}.
Implicit Types (w : World T P C) (e f : positive) (s : T) (st : WatchState) (g : Ghost).

Definition next_ghost w st st' g : Ghost :=
  mkGhost
    (if woke st st' then S (failures g)
     else if settled_down st st' then O else failures g)
    (opened_at w st st' (last_open g))
    (if settled_down st st' then None
     else if fell st st' then Some (default (w_reads w) (outage g))
     else outage g).

(** The first argument is what clients do. *)
Inductive program_run (clients : World T P C → World T P C → Prop) w0 st0 :
    Ghost → World T P C → WatchState → Prop :=
| run_begin : program_run clients w0 st0 first_ghost w0 st0
| run_client g w st w' :
    program_run clients w0 st0 g w st → clients w w' → program_run clients w0 st0 g w' st
| run_watch g w st env st' w' :
    program_run clients w0 st0 g w st → watch_step env st w = Some (st', w') →
    program_run clients w0 st0 (next_ghost w st st' g) w' st'.

(** From the gate as it is constructed. *)
Definition program config clock g w st : Prop :=
  ∃ w0 st0, watch_begin (gate_new config clock) = Some (st0, w0) ∧
    program_run client_step w0 st0 g w st.

(** ** The invariant of the program *)

(** The delay after [k] failures in a row. *)
Definition backoff (config : PolicyGateConfig) (k : nat) : Z :=
  Z.min (initial_reconnect_delay config * 2 ^ Z.of_nat k) (max_reconnect_delay config).

Record program_ok config g w st : Prop := {
  po_wf : wf w;
  po_config : w_config w = config;
  po_refs : watch_refs w st;
  po_linked : linked w st;
  po_counted : counted (watch_events_per_yield config) st;
  po_timed : timed w st (last_open g);
  po_delay : reconnect_delay st = backoff config (failures g);
  po_outage : w_disconnected_since w = w_clock w <$> outage g;
}.

Lemma backoff_step config k :
  config_typed config → 0 < initial_reconnect_delay config ≤ max_reconnect_delay config →
  Z.min (Duration.saturating_mul (backoff config k) 2) (max_reconnect_delay config) =
  backoff config (S k).
Proof.
  intros [Hty _] Hi. unfold backoff, Duration.saturating_mul.
  repeat (apply Forall_cons in Hty as [?Hd Hty]). unfold Duration.range in *.
  rewrite Nat2Z.inj_succ, Z.pow_succ_r by lia.
  pose proof (Z.pow_pos_nonneg 2 (Z.of_nat k)). nia.
Qed.

Lemma backoff_zero config :
  initial_reconnect_delay config ≤ max_reconnect_delay config →
  backoff config 0 = initial_reconnect_delay config.
Proof. unfold backoff. simpl. lia. Qed.

Lemma program_begin config clock st0 w0 :
  deployment config clock → initial_reconnect_delay config ≤ max_reconnect_delay config →
  watch_begin (gate_new config clock) = Some (st0, w0) →
  program_ok config first_ghost w0 st0.
Proof.
  intros [Hty Hcap Hck] Hi Hrun.
  pose proof (gate_new_wf (P:=P) _ _ Hty Hcap Hck) as Hwf. injection Hrun as <- <-.
  split; try done.
  - eapply wf_same_core; [|exact Hwf]. split; simpl; try done; lia.
  - split; [|done]. intros f Hf. by apply elem_of_nil in Hf.
  - symmetry. by apply backoff_zero.
Qed.

Lemma program_client config g w st w' :
  program_ok config g w st → client_step w w' → program_ok config g w' st.
Proof.
  intros [Hwf Hcfg [Hq Hc] Hl Hn Ht Hd Ho] Hstep.
  destruct (client_step_ok _ _ Hwf Hstep) as [Hwf' Ev].
  pose proof (client_frame _ _ Hstep) as Fr. split; try done.
  - by rewrite (ev_config _ _ Ev).
  - split; [by eapply queue_stable|]. intros c Hco. by eapply fetches_exist_stable; [|apply Hc].
  - by eapply linked_frame.
  - apply (timed_mono w w' st); [done|by rewrite (fr_since _ _ _ Fr)|eauto|done].
  - by rewrite (fr_since _ _ _ Fr), (ev_clock _ _ Ev).
Qed.

Lemma program_watch config g w st env st' w' :
  config_typed config → 0 < initial_reconnect_delay config ≤ max_reconnect_delay config →
  0 < watch_events_per_yield config →
  program_ok config g w st → watch_step env st w = Some (st', w') →
  program_ok config (next_ghost w st st' g) w' st'.
Proof.
  intros Hty Hi Hy [Hwf Hcfg Hrefs Hl Hn Ht Hd Ho] Hrun.
  destruct (run_from_run _ _ _ _ _ _ (watch_step_ok w env st Hwf Hrefs) Hrun)
    as (Hwf' & Ev & [_ Hrefs' Hl' Hn' Ht' Hd' Hs']).
  split; [done| |done|auto|by apply Hn'; [rewrite Hcfg|..]|by apply Ht'| |].
  - by rewrite (ev_config _ _ Ev).
  - rewrite Hd'. unfold delay_after, next_ghost. simpl. rewrite Hcfg, Hd.
    destruct (woke st st'); [by apply backoff_step|].
    destruct (settled_down st st'); [|done]. by rewrite backoff_zero by lia.
  - rewrite Hs', (ev_clock _ _ Ev). unfold since_after, next_ghost. simpl.
    destruct (settled_down st st'); [done|]. destruct (fell st st'); [|exact Ho].
    rewrite Ho. by destruct (outage g).
Qed.

Lemma program_invariant config clock now g w st :
  deployment config clock → config_valid now config → program config clock g w st →
  program_ok config g w st.
Proof.
  intros Hdep Hv (w0 & st0 & Hb & Hrun). pose proof (cv_reconnect _ _ Hv) as Hi.
  induction Hrun as [|g w st w' _ IH Hc|g w st env st' w' _ IH Hs].
  - by eapply program_begin; [|lia|].
  - by eapply program_client.
  - by eapply program_watch; [apply Hdep|lia|apply Hv|..].
Qed.

(** Every world of a program is reachable by the gate's methods, so the contract
    holds for it. *)
Lemma program_reachable config clock now g w st :
  deployment config clock → config_valid now config → program config clock g w st →
  reachable config clock w.
Proof.
  intros Hdep Hv Hprog. pose proof Hprog as (w0 & st0 & Hb & Hrun).
  unfold reachable, gate_steps.
  assert (Hinv : ∀ g w st, program_run client_step w0 st0 g w st → watch_refs w st).
  { intros g1 w1 st1 Hr1. eapply po_refs, program_invariant; [done|done|]. by exists w0, st0. }
  induction Hrun as [|g w st w' Hr IH Hc|g w st env st' w' Hr IH Hs].
  - apply rtc_once. by eapply step_watch_begin.
  - eapply rtc_r; [apply IH; by exists w0, st0|]. by apply step_client.
  - eapply rtc_r; [apply IH; by exists w0, st0|]. eapply step_watch; [|done]. by eapply Hinv.
Qed.

Lemma program_clock config clock now g w st :
  deployment config clock → config_valid now config → program config clock g w st →
  w_clock w = clock.
Proof.
  intros Hdep Hv Hp.
  eapply reachable_clock; [done|by eapply program_reachable].
Qed.

(** ** What the watcher guarantees *)

(** C15. The gate is online exactly while a watch is open.  While the watcher is
    opening a watch or sleeping before the next attempt, the gate is marked
    disconnected, nothing is published and the outage clock runs; while a watch
    is open the gate is connected. *)
Theorem connection_follows_watch config clock now g w st :
  deployment config clock → config_valid now config → program config clock g w st →
  match ws_pc st with
  | WatchPc.Open _ _ | WatchPc.Sleep _ =>
      w_connected w = false ∧ w_snapshot w = ∅ ∧ is_Some (w_disconnected_since w)
  | WatchPc.Serve _ | WatchPc.Yield _ => w_connected w = true
  | WatchPc.Down => True
  end.
Proof.
  intros Hdep Hv Hp. destruct (program_invariant _ _ _ _ _ _ Hdep Hv Hp) as [Hwf _ _ Hl _ _ _ _].
  unfold linked in Hl. destruct (ws_pc st); try done.
  - split_and!; [apply Hl|by apply wf_offline, Hl|apply Hl].
  - apply Hl.
  - apply Hl.
  - split_and!; [apply Hl|by apply wf_offline, Hl|apply Hl].
Qed.

(** C37. Health is honest.  An outage begins when the gate is constructed or, after
    a stable watch was lost, at the first clock reading of the step that marks the
    loss, and it lasts, through every attempt that opens and is lost again, until a
    watch is stable.  [Stable] is reported exactly when there is no outage, and then
    a watch is open (or was until this moment) and the clock has advanced by the
    stability threshold since it opened; [Failed] is reported exactly when the
    outage has lasted for the admission timeout. *)
Theorem health_honest `{!TimeDriverOk} config clock now g w st r w' :
  deployment config clock → config_valid now config → program config clock g w st →
  health_status (watcher_new (gate_new (P:=P) (C:=C) config clock)).2 w = Some (r, w') →
  (r = DecisionSourceHealthStatus.Stable ↔ outage g = None) ∧
  (r = DecisionSourceHealthStatus.Stable →
     (connection_of (ws_pc st) ≠ None ∨ ws_pc st = WatchPc.Down) ∧
     ∃ n m, (last_open g ≤ n ≤ m ∧ m < w_reads w)%nat ∧
       clock n + max_reconnect_delay config ≤ clock m) ∧
  (r = DecisionSourceHealthStatus.Failed ↔ ∃ k, outage g = Some k ∧
     admission_timeout config ≤ Z.max 0 (clock (w_reads w) - clock k)).
Proof.
  intros Hdep Hv Hp Hrun.
  destruct (program_invariant _ _ _ _ _ _ Hdep Hv Hp) as [Hwf Hcfg _ Hl _ [Hheld _] _ Ho].
  destruct (health_run _ _ _ _ Hrun) as (Hst & Hf & _).
  pose proof (program_clock _ _ _ _ _ _ Hdep Hv Hp) as Hclk. rewrite Hclk in Ho. split_and!.
  - rewrite Hst, Ho. by destruct (outage g).
  - intros Hs%Hst. split.
    + unfold linked in Hl. destruct (ws_pc st); try (by left); [|by right|];
        destruct Hl as [_ [since Hsince]]; congruence.
    + destruct (Hheld Hs) as (n & m & Hn & Hw). exists n, m. split; [done|].
      apply sleep_until_ready in Hw. rewrite Hclk, Hcfg in Hw. exact Hw.
  - rewrite Hf, Ho, Hclk. unfold Instant.saturating_duration_since. simpl.
    destruct (outage g) as [k|]; simpl; [|by split; [intros (? & ? & _)|intros (? & ? & _)]].
    split; [intros (? & [= <-] & ?); by exists k|intros (? & [= <-] & ?); by eexists].
Qed.

(** Reconnect backoff.  The delay before the next attempt is the initial delay
    doubled once per attempt that failed since the watch was last stable, capped
    at the configured maximum; it never vanishes. *)
Theorem reconnect_backoff config clock now g w st :
  deployment config clock → config_valid now config → program config clock g w st →
  reconnect_delay st = Z.min (initial_reconnect_delay config * 2 ^ Z.of_nat (failures g))
    (max_reconnect_delay config) ∧
  initial_reconnect_delay config ≤ reconnect_delay st ≤ max_reconnect_delay config.
Proof.
  intros Hdep Hv Hp. destruct (program_invariant _ _ _ _ _ _ Hdep Hv Hp) as [_ _ _ _ _ _ -> _].
  unfold backoff. split; [done|]. pose proof (cv_reconnect _ _ Hv).
  pose proof (Z.pow_pos_nonneg 2 (Z.of_nat (failures g))). nia.
Qed.

(** What an open watch does with the work that [select!] found: it becomes stable,
    takes refreshes over, lets go of a finished one, counts a change and yields when
    it is due; a closed queue, the end of the stream and an error of the stream end
    the watch. *)
Definition takes config c (work : Work.t T) st st' : Prop :=
  match work with
  | Work.Stable => st' = mkWatch (initial_reconnect_delay config)
      (WatchPc.Serve (mkConnection None (refreshes c) (events_since_yield c)))
  | Work.RefreshBatch [] | Work.Change None | Work.Change (Some (Err _)) =>
      st' = mkWatch (reconnect_delay st) WatchPc.Down
  | Work.RefreshBatch batch => st' = mkWatch (reconnect_delay st)
      (WatchPc.Serve (mkConnection (stable_timer c) (refreshes c ++ batch) (events_since_yield c)))
  | Work.RefreshDone rest => st' = mkWatch (reconnect_delay st)
      (WatchPc.Serve (mkConnection (stable_timer c) rest (events_since_yield c)))
  | Work.Change (Some (Ok _)) => st' = mkWatch (reconnect_delay st)
      (if events_since_yield c + 1 =? watch_events_per_yield config
       then WatchPc.Yield (mkConnection (stable_timer c) (refreshes c) 0)
       else WatchPc.Serve (mkConnection (stable_timer c) (refreshes c) (events_since_yield c + 1)))
  end.

Lemma watch_work_takes c work st w st' w' :
  wf w → watch_work c work st w = Some (st', w') → takes (w_config w) c work st st'.
Proof.
  intros Hwf. destruct work as [|[|f l]|rest|[[change|e]|]]; simpl.
  - intros (initial & w1 & [= <- <-] & Hrun)%run_bind. by apply run_bind in Hrun as (u & w2 & _ & [= <- _]).
  - by intros (u & w1 & _ & [= <- _])%run_bind.
  - by intros [= <- _].
  - by intros [= <- _].
  - intros (u & w1 & Ha & Hrun)%run_bind.
    destruct (run_from_run _ _ _ _ _ _ (apply_change_from w w change Hwf (reflexivity w)) Ha)
      as (_ & Ev & _).
    apply run_bind in Hrun as (u2 & w2 & [= _ <-] & Hrun).
    apply run_bind in Hrun as (limit & w3 & [= <- _] & [= <- _]). simpl.
    by rewrite (ev_config _ _ Ev).
  - intros (u & w1 & _ & Hrun)%run_bind. by apply run_bind in Hrun as (u2 & w2 & _ & [= <- _]).
  - by intros (u & w1 & _ & [= <- _])%run_bind.
Qed.

(** An item of the stream never leaves the loop waiting, if the stream is polled. *)
Lemma select_stream order c env item w r w' :
  we_item env = Poll.Ready item → Branch.Stream ∈ order →
  select_work order c env w = Some (r, w') → r ≠ Poll.Pending.
Proof.
  intros Hitem. revert w. induction order as [|b order IH]; intros w Hin; [by apply elem_of_nil in Hin|].
  intros (r1 & w1 & Hb & Hrun)%run_bind. destruct r1 as [work|]; [by injection Hrun as <- _|].
  apply elem_of_cons in Hin as [<-|Hin]; [|by eapply IH].
  simpl in Hb. rewrite Hitem in Hb. by injection Hb.
Qed.

Lemma select_stream_first order c env item w r w' :
  we_item env = Poll.Ready item → select_work (Branch.Stream :: order) c env w = Some (r, w') →
  r = Poll.Ready (Work.Change item).
Proof.
  intros Hitem (r1 & w1 & Hb & Hrun)%run_bind. simpl in Hb. rewrite Hitem in Hb.
  injection Hb as <- _. by injection Hrun as <- _.
Qed.

Lemma serve_takes c env st w st' w' :
  wf w → ws_pc st = WatchPc.Serve c → watch_refs w st → watch_step env st w = Some (st', w') →
  ∃ r w1, select_work (we_order env) c env w = Some (r, w1) ∧
    match r with Poll.Pending => st' = st | Poll.Ready work => takes (w_config w) c work st st' end.
Proof.
  intros Hwf Hpc [Hq Hc]. unfold watch_step. rewrite Hpc.
  intros (r & w1 & Hs & Hrun)%run_bind. exists r, w1. split; [done|].
  destruct (run_from_run _ _ _ _ _ _ (select_work_from w w (we_order env) c env Hwf (reflexivity w) Hq
    (Hc c ltac:(by rewrite Hpc))) Hs) as (Hwf1 & Ev1 & _).
  destruct r as [work|]; [|by injection Hrun as <- _].
  rewrite <-(ev_config _ _ Ev1). by eapply watch_work_takes.
Qed.

(** The attempt to open the watch. *)
Lemma open_moves `{!TimeDriverOk} first deadline env st w st' w' :
  ws_pc st = WatchPc.Open first deadline → watch_step env st w = Some (st', w') →
  (∀ d, deadline = Some d → d ≤ w_clock w (w_reads w) → ws_pc st' = WatchPc.Down) ∧
  (∀ err, we_open env = Poll.Ready (Err err) → ws_pc st' = WatchPc.Down) ∧
  (we_open env = Poll.Ready (Ok tt) → (∀ d, deadline = Some d → w_clock w (w_reads w) < d) →
     ∃ wake, ws_pc st' = WatchPc.Serve (mkConnection (Some wake) [] 0)).
Proof.
  intros Hpc. unfold watch_step. rewrite Hpc.
  intros (now & w1 & [= <- <-] & Hrun)%run_bind.
  assert (Hto : timeout_poll first deadline (w_clock w (w_reads w)) (we_open env) =
    if match deadline with Some d => d <=? w_clock w (w_reads w) | None => false end
    then Poll.Ready (Err TimeoutElapsed.TimeoutElapsed) else Poll.map Ok (we_open env)).
  { destruct deadline; [apply timeout_at_poll_eq|done]. }
  rewrite Hto in Hrun. clear Hto.
  destruct (match deadline with Some d => _ | None => _ end) eqn:Hd.
  { apply run_bind in Hrun as (u & w2 & _ & [= <- _]). split_and!; try done. intros _ Hlt.
    destruct deadline as [d|]; [|done]. apply Z.leb_le in Hd. specialize (Hlt d eq_refl). lia. }
  split_and!.
  - intros d -> Hle. apply Z.leb_gt in Hd. lia.
  - intros err He. rewrite He in Hrun. simpl in Hrun. apply run_bind in Hrun as (u & w2 & _ & Hrun).
    by apply run_bind in Hrun as (u2 & w3 & _ & [= <- _]).
  - intros Ho _. rewrite Ho in Hrun. simpl in Hrun. apply run_bind in Hrun as (u & w2 & _ & Hrun).
    apply run_bind in Hrun as (limit & w3 & _ & Hrun).
    apply run_bind in Hrun as (now & w4 & _ & [= <- _]). by eexists.
Qed.

(** C20. The watcher never stops.  Every step runs to its end whatever the source,
    the queue and the clients do, and every control point moves on once what it
    waits for is over.  An attempt to open the watch ends with its deadline, with the
    source's refusal, or with an open watch.  An open watch handles whatever work it
    finds; it does not wait on while the stream it polls has an item, takes the item
    if it looks at the stream first, and is left for good when that is the end of the
    stream or an error.  A yield ends when the runtime says so, the sleep ends with a
    new attempt, and a lost watch leads to a sleep of the jittered backoff. *)
Theorem watcher_progress `{!TimeDriverOk} config clock now g w st env :
  deployment config clock → config_valid now config → program config clock g w st →
  ∃ st' w', watch_step env st w = Some (st', w') ∧
    match ws_pc st with
    | WatchPc.Open _ deadline =>
        (∀ d, deadline = Some d → d ≤ clock (w_reads w) → ws_pc st' = WatchPc.Down) ∧
        (∀ err, we_open env = Poll.Ready (Err err) → ws_pc st' = WatchPc.Down) ∧
        (we_open env = Poll.Ready (Ok tt) → (∀ d, deadline = Some d → clock (w_reads w) < d) →
           ∃ wake, ws_pc st' = WatchPc.Serve (mkConnection (Some wake) [] 0))
    | WatchPc.Serve c => ∃ r w1, select_work (we_order env) c env w = Some (r, w1) ∧
        match r with Poll.Pending => st' = st | Poll.Ready work => takes config c work st st' end ∧
        (∀ item, we_item env = Poll.Ready item →
           (Branch.Stream ∈ we_order env → r ≠ Poll.Pending) ∧
           (head (we_order env) = Some Branch.Stream → r = Poll.Ready (Work.Change item)))
    | WatchPc.Yield c => ws_pc st' = if we_yielded env then WatchPc.Serve c else WatchPc.Yield c
    | WatchPc.Sleep (Some wake) => wake ≤ clock (w_reads w) → ∃ d, ws_pc st' = WatchPc.Open true d
    | WatchPc.Sleep None => st' = st
    | WatchPc.Down => ∃ at_, ws_pc st' =
        WatchPc.Sleep (sleep_deadline at_ (jitter (backoff config (failures g)) (we_random env)))
    end.
Proof.
  intros Hdep Hv Hp.
  destruct (program_invariant _ _ _ _ _ _ Hdep Hv Hp) as [Hwf Hcfg Hrefs _ _ _ Hd _].
  rewrite <-(program_clock _ _ _ _ _ _ Hdep Hv Hp).
  destruct (watch_step_ok w env st Hwf Hrefs) as (st' & w' & Hrun & _). exists st', w'.
  split; [done|]. destruct (ws_pc st) as [first deadline|c|c| |wake] eqn:Hpc.
  - by eapply open_moves.
  - destruct (serve_takes _ _ _ _ _ _ Hwf Hpc Hrefs Hrun) as (r & w1 & Hs & Hr).
    exists r, w1. rewrite <-Hcfg. split_and!; [done|done|]. intros item Hitem.
    split; [intros Hin; by eapply select_stream|].
    destruct (we_order env) as [|b order]; [done|]. intros [= ->]. by eapply select_stream_first.
  - unfold watch_step in Hrun. rewrite Hpc in Hrun. injection Hrun as <- _. by destruct (we_yielded env).
  - unfold watch_step in Hrun. rewrite Hpc in Hrun. apply run_bind in Hrun as (u & w1 & _ & Hrun).
    apply run_bind in Hrun as (now' & w2 & _ & [= <- _]). exists now'. by rewrite Hd.
  - unfold watch_step in Hrun. rewrite Hpc in Hrun.
    apply run_bind in Hrun as (now' & w1 & [= <- <-] & Hrun).
    destruct wake as [wake|]; [|by injection Hrun as <- _]. intros Hle. simpl in Hrun.
    rewrite (proj2 (sleep_until_ready _ _) Hle) in Hrun.
    apply run_bind in Hrun as (limit & w2 & _ & Hrun).
    apply run_bind in Hrun as (now' & w3 & _ & Hrun).
    apply run_bind in Hrun as (l & w4 & _ & [= <- _]). by eexists.
Qed.

(** The watch does not starve its runtime.  A change applied from the watch
    stream takes the loop to a yield exactly when it is the configured number
    since the last one, and never more are applied without yielding. *)
Theorem watch_yields config clock now g w st c change st' w' :
  deployment config clock → config_valid now config → program config clock g w st →
  ws_pc st = WatchPc.Serve c → watch_change change c st w = Some (st', w') →
  events_since_yield c + 1 ≤ watch_events_per_yield config ∧
  (if events_since_yield c + 1 =? watch_events_per_yield config
   then ws_pc st' = WatchPc.Yield (mkConnection (stable_timer c) (refreshes c) 0)
   else ws_pc st' = WatchPc.Serve
     (mkConnection (stable_timer c) (refreshes c) (events_since_yield c + 1))).
Proof.
  intros Hdep Hv Hp Hpc Hrun.
  destruct (program_invariant _ _ _ _ _ _ Hdep Hv Hp) as [Hwf Hcfg _ _ Hn _ _ _]. split.
  - assert (connection_of (ws_pc st) = Some c) as Hc by by rewrite Hpc.
    specialize (Hn c Hc). lia.
  - unfold watch_change in Hrun. apply run_bind in Hrun as (u & w1 & Ha & Hrun).
    destruct (run_from_run _ _ _ _ _ _ (apply_change_from w w change Hwf (reflexivity w)) Ha)
      as (_ & Ev & _).
    apply run_bind in Hrun as (u2 & w2 & He & Hrun). injection He as _ <-.
    apply run_bind in Hrun as (limit & w3 & Hl & Hrun). injection Hl as <- <-.
    injection Hrun as <- _. simpl. rewrite (ev_config _ _ Ev), Hcfg. by case_match.
Qed.

(** C16. Dropping the watcher is final.  Afterwards, whatever clients do, every
    handle handed out before reports stale, every cached read that is begun, the
    public one of [try_cached] and the internal one that starts no refresh, misses
    at once and changes nothing, and every new admission is refused at its first wait for the connection without
    touching the cache. *)
Theorem dropped_watcher_refuses config clock now g w st u w1 w2 :
  deployment config clock → config_valid now config → program config clock g w st →
  watcher_drop w = Some (u, w1) → rtc client_step w1 w2 →
  (∀ e, is_Some (w_entries w !! e) → reports_stale w2 e) ∧
  (∀ s, check_begin s w2 = Some (Access.Done None, w2) ∧
     check_without_refresh s w2 = Some (None, w2)) ∧
  (∀ s env first ad ad' w3, ad_pc ad = AdmitPc.Connect first →
     admit_step s env ad w2 = Some (ad', w3) →
     ad_pc ad' = AdmitPc.Return None ∧ w_entries w3 = w_entries w2 ∧
     w_subjects w3 = w_subjects w2).
Proof.
  intros Hdep Hv Hp Hdrop Hsteps.
  pose proof (po_wf _ _ _ _ (program_invariant _ _ _ _ _ _ Hdep Hv Hp)) as Hwf.
  destruct (run_from_run _ _ _ _ _ _ (watcher_drop_from w w Hwf (reflexivity w)) Hdrop)
    as (Hwf1 & Ev1 & Hoff & Hdead & _ & _ & Hall).
  assert (gate_steps w1 w2) as Hg by (eapply rtc_subrel; [|exact Hsteps]; by apply step_client).
  destruct (gate_steps_ok _ _ Hwf1 Hg) as [Hwf2 _].
  assert (w_connected w2 = false ∧ w_sender_alive w2 = false) as [Hoff2 Hdead2].
  { clear -Hsteps Hoff Hdead. induction Hsteps as [|x y z Hxy _ IH]; [done|].
    pose proof (client_frame _ _ Hxy) as Fr.
    apply IH; [by rewrite (fr_connected _ _ _ Fr)|by rewrite (fr_sender _ _ _ Fr)]. }
  split_and!.
  - intros e He. eapply dead_forever; [exact Hwf1|exact Hg|by apply Hall].
  - intros s. unfold check_begin, check_without_refresh, gets, mbind, M_bind.
    by rewrite (wf_offline _ Hwf2 Hoff2), lookup_empty.
  - intros s env first ad ad' w3 Hpc Hrun. unfold admit_step in Hrun. rewrite Hpc in Hrun.
    unfold admit_connect in Hrun. apply run_bind in Hrun as (r & w4 & Ht & Hrun).
    unfold timeout_at_step in Ht. apply run_bind in Ht as (now' & w5 & Hnow & Ht).
    injection Hnow as <- <-.
    destruct (timeout_at_poll _ _ _ _) as [[[]|[]]|] eqn:Hto.
    + unfold connected_or_closed, gets, mbind, M_bind in Ht. simpl in Ht.
      rewrite Hoff2, Hdead2 in Ht. injection Ht as <- <-. by injection Hrun as <- <-.
    + injection Ht as <- <-. by injection Hrun as <- <-.
    + exfalso. unfold timeout_at_poll in Hto.
      destruct (first && _); [done|]. by destruct (sleep_until _ _).
Qed.
End program.

(** Jitter.  The random part keeps the sleep within a quarter of the delay
    around it (to the millisecond), and a positive delay never becomes zero, for
    every delay up to four fifths of what [u64] milliseconds can count. *)
Theorem jitter_bounds delay random :
  0 ≤ delay → 5 * Duration.as_millis delay ≤ 4 * u64_max → u64_range random →
  3 * (delay - 999999) ≤ 4 * jitter delay random ≤ 5 * delay ∧
  (0 < delay → 0 < jitter delay random).
Proof.
  intros Hd Hmax Hr. unfold jitter, Duration.from_millis.
  unfold Duration.as_millis in *. set (m := delay / Duration.NANOS_PER_MILLI) in *.
  pose proof u64_max_val as Hu.
  assert (Duration.NANOS_PER_MILLI = 1000000) as Hn by done.
  pose proof (Z.div_mod delay Duration.NANOS_PER_MILLI ltac:(lia)) as Hdm.
  pose proof (Z.mod_pos_bound delay Duration.NANOS_PER_MILLI ltac:(lia)) as Hmb.
  fold m in Hdm. assert (0 ≤ m) as Hm by (apply Z.div_pos; lia).
  rewrite (proj2 (u64_try_from_Some m m)) by (split; [done|unfold u64_range; lia]).
  pose proof (Z.div_mod m 2 ltac:(lia)). pose proof (Z.mod_pos_bound m 2 ltac:(lia)).
  destruct (Z.eqb_spec (m / 2) 0); [lia|].
  pose proof (Z.div_mod (m / 2) 2 ltac:(lia)). pose proof (Z.mod_pos_bound (m / 2) 2 ltac:(lia)).
  pose proof (Z.mod_pos_bound random (m / 2) ltac:(lia)).
  rewrite u64_wrap_small by (unfold u64_range; lia). lia.
Qed.

(** Above that bound the [u64] sum wraps: a configuration that [build] accepts can
    sleep for no time at all between two attempts. *)
Definition eternal_builder : PolicyGateConfigBuilder :=
  Builder.initial_reconnect_delay (Duration.from_millis 18000000000000000000)
    (Builder.max_reconnect_delay (Duration.from_millis 18000000000000000000) builder).

Lemma jitter_overflow :
  build uptime_sample eternal_builder = Ok (candidate eternal_builder) ∧
  jitter (initial_reconnect_delay (candidate eternal_builder)) 4946744073709551616 = 0.
Proof. split; vm_compute; reflexivity. Qed.

(** ** The theorems on concrete runs *)

Lemma demo_valid : config_valid 1000 demo_config.
Proof. split; repeat constructor; vm_compute; done. Qed.

(** The watcher of the demo, driven by a list of environments. *)
Fixpoint watch_drive (envs : list (WatchEnv nat nat)) (g : Ghost) (st : WatchState) :
    M DemoWorld (Ghost * WatchState) :=
  match envs with
  | [] => mret (g, st)
  | env :: envs => λ w,
      match watch_step env st w with
      | Some (st', w') => watch_drive envs (next_ghost w st st' g) st' w'
      | None => None
      end
  end.

Definition watch_start (envs : list (WatchEnv nat nat)) : M DemoWorld (Ghost * WatchState) :=
  st ← watch_begin; watch_drive envs first_ghost st.

Lemma watch_drive_run envs g st w0 st0 w g' st' w' :
  program_run client_step w0 st0 g w st → watch_drive envs g st w = Some ((g', st'), w') →
  program_run client_step w0 st0 g' w' st'.
Proof.
  revert g st w. induction envs as [|env envs IH]; intros g st w Hrun Hd; simpl in Hd.
  { by injection Hd as <- <- <-. }
  destruct (watch_step env st w) as [[st1 w1]|] eqn:Hs; [|done].
  eapply IH; [|exact Hd]. by eapply run_watch.
Qed.

Lemma demo_program envs g st w :
  watch_start envs demo_init = Some ((g, st), w) → program demo_config demo_clock g w st.
Proof.
  intros (st0 & w0 & Hb & Hd)%run_bind. exists w0, st0. split; [exact Hb|].
  eapply watch_drive_run; [|exact Hd]. apply run_begin.
Qed.

Definition every_branch : list Branch.t :=
  [Branch.Timer; Branch.Batch; Branch.Refresh; Branch.Stream].

Definition quiet : WatchEnv nat nat :=
  mkWatchEnv (Poll.Ready (Ok tt)) every_branch [] Poll.Pending true 0.
Definition refusing : WatchEnv nat nat :=
  mkWatchEnv (Poll.Ready (Err (transient "refused"))) every_branch [] Poll.Pending true 7.
Definition changing : WatchEnv nat nat :=
  mkWatchEnv (Poll.Ready (Ok tt)) every_branch []
    (Poll.Ready (Some (Ok withdrawal))) true 0.

(** Refused, and refused again once the first delay is over. *)
Definition demo_refused : list (WatchEnv nat nat) := repeat refusing 17.
(** The watch is open and stays quiet until it counts as stable. *)
Definition demo_settled : list (WatchEnv nat nat) := repeat quiet 14.

Definition p_ghost (envs : list (WatchEnv nat nat)) : Ghost :=
  match watch_start envs demo_init with Some ((g, _), _) => g | None => first_ghost end.
Definition p_state (envs : list (WatchEnv nat nat)) : WatchState :=
  match watch_start envs demo_init with Some ((_, st), _) => st | None => mkWatch 0 WatchPc.Down end.
Definition p_world (envs : list (WatchEnv nat nat)) : DemoWorld := exec (watch_start envs) demo_init.

Lemma demo_refused_program :
  program demo_config demo_clock (p_ghost demo_refused) (p_world demo_refused) (p_state demo_refused).
Proof. apply (demo_program demo_refused). vm_compute. reflexivity. Qed.

Lemma demo_settled_program :
  program demo_config demo_clock (p_ghost demo_settled) (p_world demo_settled) (p_state demo_settled).
Proof. apply (demo_program demo_settled). vm_compute. reflexivity. Qed.

Lemma connection_follows_watch_witness :
  ws_pc (p_state demo_refused) = WatchPc.Sleep (Some 1047) ∧ w_connected (p_world demo_refused) = false.
Proof.
  split; [vm_compute; reflexivity|].
  refine (proj1 (connection_follows_watch demo_config demo_clock 1000 (p_ghost demo_refused)
    (p_world demo_refused) (p_state demo_refused) _ _ _)).
  - apply demo_deployment.
  - apply demo_valid.
  - apply demo_refused_program.
Defined.

Lemma health_honest_witness :
  ∃ n m, (last_open (p_ghost demo_settled) ≤ n ≤ m ∧ m < w_reads (p_world demo_settled))%nat ∧
    demo_clock n + 8 ≤ demo_clock m.
Proof.
  refine (proj2 (proj1 (proj2 (health_honest demo_config demo_clock 1000 (p_ghost demo_settled)
    (p_world demo_settled) (p_state demo_settled) DecisionSourceHealthStatus.Stable
    (p_world demo_settled) _ _ _ _)) eq_refl)).
  - apply demo_deployment.
  - apply demo_valid.
  - apply demo_settled_program.
  - vm_compute. reflexivity.
Defined.

Lemma reconnect_backoff_witness : reconnect_delay (p_state demo_refused) = Z.min (1 * 2 ^ 1) 8.
Proof.
  refine (proj1 (reconnect_backoff demo_config demo_clock 1000 (p_ghost demo_refused)
    (p_world demo_refused) (p_state demo_refused) _ _ _)).
  - apply demo_deployment.
  - apply demo_valid.
  - apply demo_refused_program.
Defined.

(** The stream of an open watch ends. *)
Definition ending : WatchEnv nat nat :=
  mkWatchEnv (Poll.Ready (Ok tt)) [Branch.Stream] [] (Poll.Ready None) true 0.

Lemma watcher_progress_witness :
  ∃ st' w', watch_step ending (p_state demo_settled) (p_world demo_settled) = Some (st', w') ∧
    ∃ r w1, select_work [Branch.Stream] (mkConnection None [] 0) ending (p_world demo_settled)
        = Some (r, w1) ∧
      match r with
      | Poll.Pending => st' = p_state demo_settled
      | Poll.Ready work => takes demo_config (mkConnection None [] 0) work (p_state demo_settled) st'
      end ∧
      ∀ item, Poll.Ready None = Poll.Ready item →
        (Branch.Stream ∈ [Branch.Stream] → r ≠ Poll.Pending) ∧
        (Some Branch.Stream = Some Branch.Stream → r = Poll.Ready (Work.Change item)).
Proof.
  refine (watcher_progress demo_config demo_clock 1000 (p_ghost demo_settled)
    (p_world demo_settled) (p_state demo_settled) ending _ _ _).
  - apply demo_deployment.
  - apply demo_valid.
  - apply demo_settled_program.
Defined.

Definition demo_connection : Connection := mkConnection None [] 0.

Lemma watch_yields_witness :
  ws_pc (p_state demo_settled) = WatchPc.Serve demo_connection ∧
  events_since_yield demo_connection + 1 ≤ 64.
Proof.
  split; [vm_compute; reflexivity|].
  refine (proj1 (watch_yields demo_config demo_clock 1000 (p_ghost demo_settled)
    (p_world demo_settled) (p_state demo_settled) demo_connection withdrawal
    (mkWatch 1 (WatchPc.Serve (mkConnection None [] 1)))
    (exec (watch_change withdrawal demo_connection (p_state demo_settled)) (p_world demo_settled))
    _ _ _ _ _)).
  - apply demo_deployment.
  - apply demo_valid.
  - apply demo_settled_program.
  - vm_compute. reflexivity.
  - vm_compute. reflexivity.
Defined.

Definition demo_dropped : DemoWorld := exec watcher_drop (p_world demo_settled).

Lemma dropped_watcher_refuses_witness :
  check_begin 7%nat demo_dropped = Some (Access.Done None, demo_dropped).
Proof.
  refine (proj1 (proj1 (proj2 (dropped_watcher_refuses demo_config demo_clock 1000 (p_ghost demo_settled)
    (p_world demo_settled) (p_state demo_settled) tt demo_dropped demo_dropped _ _ _ _ _)) 7%nat)).
  - apply demo_deployment.
  - apply demo_valid.
  - apply demo_settled_program.
  - vm_compute. reflexivity.
  - constructor.
Defined.

Lemma jitter_bounds_witness : 0 < jitter DEFAULT_INITIAL_RECONNECT_DELAY 12345678901.
Proof.
  refine (proj2 (jitter_bounds DEFAULT_INITIAL_RECONNECT_DELAY 12345678901 _ _ _) _).
  - vm_compute. discriminate.
  - vm_compute. discriminate.
  - vm_compute. split; discriminate.
  - vm_compute. reflexivity.
Defined.
