(* ===== verification/Tasks.v ===== *)
(** * Tasks: the running program, client by client

    A system is a world, the watch loop, the unfinished calls of the clients and
    the handles they were given.  Nothing is assumed of a step but that the call
    is there or the handle was handed out: that its references are good is an
    invariant.  Every run of a system is a run of [Program]; nothing in it panics,
    no claim of a refresh is lost, and the calls to the source are bounded. *)

From S2P Require Export Accounts Program.

(** A call of a client that is suspended, or a [republish_if_due] that is between
    two of its critical sections. *)
Module Task.
Inductive t (T : Type) `{Countable T} : Type :=
| Admitting (subject : T) (state : AdmitState)
| Accessing (subject : T) (first_poll : bool) (entry fetch : positive) (queue_deadline : Z)
| Claimed (generation : Z)
| Copied (generation : Z) (entries : gmap T positive).
Arguments Admitting {T _ _}.
Arguments Accessing {T _ _}.
Arguments Claimed {T _ _}.
Arguments Copied {T _ _}.
End Task.

Record System (T P C : Type) `{Countable T} : Type := mkSystem {
  sy_world : World T P C;
  sy_watch : WatchState;
  sy_tasks : list (Task.t T);
  sy_handles : list positive;
}.
Arguments mkSystem {T P C _ _}.
Arguments sy_world {T P C _ _}.
Arguments sy_watch {T P C _ _}.
Arguments sy_tasks {T P C _ _}.
Arguments sy_handles {T P C _ _}.

Section system.
Context {T P C : Type} `{Countable T, !LruCache T SubjectSlot C, !LruCacheOk T SubjectSlot C, TimeDriver}.
Implicit Types (w : World T P C) (e f : positive) (s : T) (ad : AdmitState) (st : WatchState).
Implicit Types (t : Task.t T) (l k : list (Task.t T)) (h : list positive) (y : System T P C).

(** What is left of a call, and the handle it returned. *)
Definition admit_task s ad : list (Task.t T) :=
  match ad_pc ad with AdmitPc.Return _ => [] | _ => [Task.Admitting s ad] end.
Definition admit_handle ad : list positive :=
  match ad_pc ad with AdmitPc.Return (Some a) => [a] | _ => [] end.
Definition access_task s (r : Access.t) : list (Task.t T) :=
  match r with Access.Enqueue e f q => [Task.Accessing s true e f q] | Access.Done _ => [] end.
Definition access_handle (r : Access.t) : list positive :=
  match r with Access.Done (Some a) => [a] | _ => [] end.
Definition poll_task s e f q (r : Poll.t (option positive)) : list (Task.t T) :=
  match r with Poll.Pending => [Task.Accessing s false e f q] | Poll.Ready _ => [] end.
Definition poll_handle (r : Poll.t (option positive)) : list positive :=
  match r with Poll.Ready (Some a) => [a] | _ => [] end.
Definition claim_task (r : option Z) : list (Task.t T) :=
  match r with Some g => [Task.Claimed g] | None => [] end.

(** One step of the program. *)
Inductive sys_step : System T P C → System T P C → Prop :=
| sys_admit w st l h s ad w' :
    admit_begin w = Some (ad, w') →
    sys_step (mkSystem w st l h) (mkSystem w' st (admit_task s ad ++ l) (admit_handle ad ++ h))
| sys_admit_poll w st l k h s ad env ad' w' :
    admit_step s env ad w = Some (ad', w') →
    sys_step (mkSystem w st (l ++ Task.Admitting s ad :: k) h)
      (mkSystem w' st (l ++ admit_task s ad' ++ k) (admit_handle ad' ++ h))
| sys_admit_drop w st l k h s ad u w' :
    admit_cancel ad w = Some (u, w') →
    sys_step (mkSystem w st (l ++ Task.Admitting s ad :: k) h) (mkSystem w' st (l ++ k) h)
| sys_try_cached w st l h s r w' :
    check_begin s w = Some (r, w') →
    sys_step (mkSystem w st l h) (mkSystem w' st (access_task s r ++ l) (access_handle r ++ h))
| sys_refresh w st l h s e r w' :
    e ∈ h → refresh_entry_begin s e w = Some (r, w') →
    sys_step (mkSystem w st l h) (mkSystem w' st (access_task s r ++ l) (access_handle r ++ h))
| sys_access_poll w st l k h s first e f q send r w' :
    access_poll first e f q send w = Some (r, w') →
    sys_step (mkSystem w st (l ++ Task.Accessing s first e f q :: k) h)
      (mkSystem w' st (l ++ poll_task s e f q r ++ k) (poll_handle r ++ h))
| sys_access_drop w st l k h s first e f q u w' :
    access_cancel e f w = Some (u, w') →
    sys_step (mkSystem w st (l ++ Task.Accessing s first e f q :: k) h) (mkSystem w' st (l ++ k) h)
| sys_cached w st l h s r w' :
    check_without_refresh s w = Some (r, w') →
    sys_step (mkSystem w st l h) (mkSystem w' st l (poll_handle (Poll.Ready r) ++ h))
| sys_state w st l h e r w' :
    e ∈ h → admission_state e w = Some (r, w') →
    sys_step (mkSystem w st l h) (mkSystem w' st l h)
| sys_check w st l h e r w' :
    e ∈ h → admission_check e w = Some (r, w') →
    sys_step (mkSystem w st l h) (mkSystem w' st l h)
| sys_payload w st l h e r w' :
    e ∈ h → admission_payload e w = Some (r, w') →
    sys_step (mkSystem w st l h) (mkSystem w' st l h)
| sys_invalidate w st l h e u w' :
    e ∈ h → admission_invalidate e w = Some (u, w') →
    sys_step (mkSystem w st l h) (mkSystem w' st l h)
| sys_health w st l h v r w' :
    health_status v w = Some (r, w') → sys_step (mkSystem w st l h) (mkSystem w' st l h)
| sys_claim w st l h r w' :
    republish_claim w = Some (r, w') →
    sys_step (mkSystem w st l h) (mkSystem w' st (claim_task r ++ l) h)
| sys_copy w st l k h g m w' :
    republish_copy w = Some (m, w') →
    sys_step (mkSystem w st (l ++ Task.Claimed g :: k) h) (mkSystem w' st (l ++ Task.Copied g m :: k) h)
| sys_store w st l k h g m u w' :
    republish_store g m w = Some (u, w') →
    sys_step (mkSystem w st (l ++ Task.Copied g m :: k) h) (mkSystem w' st (l ++ k) h)
| sys_watch w st l h env st' w' :
    watch_step env st w = Some (st', w') →
    sys_step (mkSystem w st l h) (mkSystem w' st' l h).

(** From [PolicyGate::new] on. *)
Definition system config clock y : Prop :=
  ∃ st0 w0, watch_begin (gate_new config clock) = Some (st0, w0) ∧
    rtc sys_step (mkSystem w0 st0 [] []) y.

(** ** References *)

Definition task_ok w t : Prop :=
  match t with
  | Task.Admitting s ad =>
      pc_ok w s ad ∧ (∀ a, ad_pc ad ≠ AdmitPc.Return a) ∧
      ∀ b e f, ad_pc ad = AdmitPc.Wait b e f → first_at w f
  | Task.Accessing s _ e f _ => tracked w s e ∧ is_Some (w_fetches w !! f)
  | Task.Claimed _ => True
  | Task.Copied _ m => ∀ s e, m !! s = Some e → tracked w s e
  end.

Lemma first_stable w w' f : evolves w w' → first_at w f → first_at w' f.
Proof.
  intros Ev (pf & Hf & Hr). destruct (ev_fetches _ _ Ev _ _ Hf) as (pf' & Hf' & []).
  exists pf'. split; [done|]. congruence.
Qed.

Lemma task_ok_stable w w' t : evolves w w' → task_ok w t → task_ok w' t.
Proof.
  intros Ev. destruct t as [s ad|s b e f q|g|g m]; simpl; [..|done|].
  - intros (Hpc & Hret & Hf). split; [by apply (pc_ok_stable w)|]. split; [done|].
    intros b e f Hw. by eapply first_stable, Hf.
  - intros [Ht [pf Hf]]. split; [by apply (tracked_stable w)|].
    destruct (ev_fetches _ _ Ev _ _ Hf) as (pf' & ? & _). by exists pf'.
  - intros Hm s e He. by eapply tracked_stable, Hm.
Qed.

(** The claim a call holds. *)
Definition task_guard t : list (positive * positive) :=
  match t with
  | Task.Admitting _ ad => guard_of (pc_access ad)
  | Task.Accessing _ _ e f _ => [(e, f)]
  | _ => []
  end.

Definition held (l : list (Task.t T)) : list (positive * positive) := l ≫= task_guard.

Record sys_ok y : Prop := {
  so_wf : wf (sy_world y);
  so_accounts : accounts (sy_world y) (held (sy_tasks y)) (driven (sy_watch y)) (going_down (sy_watch y));
  so_tasks : Forall (task_ok (sy_world y)) (sy_tasks y);
  so_handles : Forall (settled (sy_world y)) (sy_handles y);
}.

(** ** One step of an admission *)

Lemma accounts_books w w' hs rs down :
  books nothing_polled no_claim w w' → accounts w hs rs down → accounts w' hs rs down.
Proof.
  intros B Ha. apply (accounts_moves nothing_polled w); [|by intros f []|done].
  by apply books_moves; [apply Ha|done|].
Qed.

Lemma accounts_holding w e f hs rs down : accounts w ((e, f) :: hs) rs down → holding w e f.
Proof. intros Ha. apply (ac_guard _ _ _ _ Ha). by left. Qed.

(** A call that is done waiting for the queue. *)
Lemma accounts_sent w e f w' hs rs down :
  accounts w ((e, f) :: hs) rs down →
  books nothing_polled no_claim (queued f w) w' ∨ given_up w e f w' → accounts w' hs rs down.
Proof.
  intros Ha [B|Hg]; [|by eapply accounts_given_up].
  eapply accounts_books; [exact B|]. by eapply accounts_queued.
Qed.

Lemma admit_step_accounts s env ad w ad' w' hs rs down :
  wf w → task_ok w (Task.Admitting s ad) → accounts w (guard_of (pc_access ad) ++ hs) rs down →
  admit_step s env ad w = Some (ad', w') → accounts w' (guard_of (pc_access ad') ++ hs) rs down.
Proof.
  intros Hwf (Hpc & _ & Hfirst) Ha Hrun. pose proof (wf_taken _ Hwf) as Ht. unfold admit_step in Hrun.
  assert (Hissue : pc_access ad = Access.Done None → issued w (pc_access ad') w' →
    accounts w' (guard_of (pc_access ad') ++ hs) rs down).
  { intros Hd Hi. rewrite Hd in Ha. by apply (accounts_issued w). }
  unfold pc_access in Ha, Hissue.
  destruct (ad_pc ad) as [b| |b e f q t|b e f|e r|b wake|a] eqn:Had; simpl in Ha.
  - apply Hissue; [done|]. by eapply issuing_admit_connect.
  - apply Hissue; [done|]. by eapply issuing_admit_insert.
  - destruct (admit_access_outcome _ _ _ _ _ _ _ _ _ _ Ht (accounts_holding _ _ _ _ _ _ Ha) Hrun)
      as [[-> B]|[-> Hs]]; simpl; [by eapply accounts_books|by eapply accounts_sent].
  - destruct (admit_wait_outcome _ _ _ _ _ _ _ _ _ Ht Hrun) as (w0 & w1 & Hc & B0 & Hw & Hi & _).
    pose proof (wf_same_core _ _ Hc Hwf) as Hwf0. pose proof (accounts_books _ _ _ _ _ B0 Ha) as Ha0.
    assert (first_at w0 f) as Hf0.
    { eapply first_stable; [by apply evolves_same_core|by eapply Hfirst]. }
    assert (wf w1 ∧ accounts w1 hs rs down) as [Hwf1 Ha1].
    { destruct Hw as [->|[r Hp]]; [done|].
      destruct (fetch_poll_moves _ _ _ _ _ Hwf0 (ac_ledger _ _ _ _ Ha0)
        (first_accounted _ _ (ac_ledger _ _ _ _ Ha0) Hf0) Hp) as (Hm & Hwf1 & _). split; [done|].
      apply (accounts_moves (eq f) w0); [done|by intros g <-; left|done]. }
    apply (accounts_issued w1); [|done]. by apply Hi, wf_taken.
  - apply Hissue; [done|]. by eapply issuing_admit_settle.
  - apply Hissue; [done|]. by eapply issuing_admit_backoff.
  - injection Hrun as <- <-. unfold pc_access. by rewrite Had.
Qed.

(** No branch of the method ends at a wait. *)
Ltac no_wait Hrun Hw :=
  repeat first
    [ apply run_bind in Hrun as (? & ? & _ & Hrun)
    | injection Hrun as <- _; discriminate Hw
    | case_match ].

(** An admission waits for a lookup only after it joined it. *)
Lemma admit_step_first s env ad w ad' w' b e f :
  wf w → task_ok w (Task.Admitting s ad) → admit_step s env ad w = Some (ad', w') →
  ad_pc ad' = AdmitPc.Wait b e f → first_at w' f.
Proof.
  intros Hwf (Hpc & _ & Hfirst) Hrun Hw.
  assert (evolves w w') as Ev.
  { by destruct (run_from_run _ _ _ _ _ _ (admit_step_ok w s env ad Hwf Hpc) Hrun) as (_ & ? & _). }
  unfold admit_step in Hrun. destruct (ad_pc ad) as [b0| |b0 e0 f0 q t|b0 e0 f0|e0 r|b0 wake|a] eqn:Had.
  - exfalso. unfold admit_connect in Hrun. by no_wait Hrun Hw.
  - by eapply admit_insert_first.
  - exfalso. unfold admit_access, after_access in Hrun. by no_wait Hrun Hw.
  - destruct (admit_wait_outcome _ _ _ _ _ _ _ _ _ (wf_taken _ Hwf) Hrun) as (_ & _ & _ & _ & _ & _ & Hsame).
    rewrite (Hsame _ _ _ Hw). by eapply first_stable, Hfirst.
  - exfalso. unfold admit_settle, after_access, admit_failed in Hrun. by no_wait Hrun Hw.
  - exfalso. unfold admit_backoff in Hrun. by no_wait Hrun Hw.
  - injection Hrun as <- <-. congruence.
Qed.

(** ** The invariant *)

Lemma held_app l k : held (l ++ k) = held l ++ held k.
Proof. apply bind_app. Qed.

Lemma held_middle l k t : held (l ++ t :: k) ≡ₚ task_guard t ++ held (l ++ k).
Proof. unfold held. rewrite !bind_app. simpl. by rewrite (Permutation_app_swap_app (l ≫= _)). Qed.

Lemma elem_of_middle l k t t' : t' ∈ l ++ k → t' ∈ l ++ t :: k.
Proof. rewrite !elem_of_app, elem_of_cons. tauto. Qed.

Lemma held_replace l k l' : held (l ++ l' ++ k) ≡ₚ held l' ++ held (l ++ k).
Proof. rewrite !held_app. by rewrite (Permutation_app_swap_app (held l)). Qed.

Lemma held_admit s ad : held (admit_task s ad) = guard_of (pc_access ad).
Proof.
  unfold admit_task, pc_access. destruct (ad_pc ad) eqn:Hpc; simpl; unfold pc_access;
    rewrite ?Hpc; done.
Qed.

Lemma held_access s r : held (access_task s r) = guard_of r.
Proof. by destruct r. Qed.

Lemma sys_ok_step w st l h w' st' l' h' :
  sys_ok (mkSystem w st l h) → wf w' ∧ evolves w w' →
  accounts w' (held l') (driven st') (going_down st') →
  (∀ t, t ∈ l' → t ∈ l ∨ task_ok w' t) → (∀ e, e ∈ h' → e ∈ h ∨ settled w' e) →
  sys_ok (mkSystem w' st' l' h').
Proof.
  intros [Hwf Ha Ht Hh] [Hwf' Ev] Ha' Hl Hh'. simpl in *. split; simpl; [done|done|..].
  - apply Forall_forall. intros t [Hin|?]%Hl; [|done]. eapply task_ok_stable; [exact Ev|].
    by eapply Forall_forall in Ht.
  - apply Forall_forall. intros e [Hin|?]%Hh'; [|done]. apply (settled_stable w); [done|].
    by eapply Forall_forall in Hh.
Qed.

(** A step that leaves the calls alone. *)
Lemma sys_ok_quiet {A} (m : M (World T P C) A) w st l h a w' h' :
  sys_ok (mkSystem w st l h) → run_ok w m (λ _ _, True) → m w = Some (a, w') →
  always (booked nothing_polled no_claim) m → (∀ e, e ∈ h' → e ∈ h ∨ settled w' e) →
  sys_ok (mkSystem w' st l h').
Proof.
  intros Hok Hm Hr Hq Hh. destruct (run_from_run _ _ _ _ _ _ Hm Hr) as (Hwf' & Ev & _).
  eapply sys_ok_step; [exact Hok|done| |by left|done].
  eapply accounts_quiet; [exact Hq|exact Hr|apply Hok|apply Hok].
Qed.

Lemma sys_ok_sub w st l k h t : sys_ok (mkSystem w st (l ++ t :: k) h) → task_ok w t.
Proof.
  intros [_ _ Ht _]. simpl in Ht. eapply Forall_forall in Ht; [exact Ht|]. set_solver.
Qed.

Lemma sys_ok_drop w st l k h t e f u w' :
  sys_ok (mkSystem w st (l ++ t :: k) h) → task_guard t = [(e, f)] → is_Some (w_entries w !! e) →
  release_claim e f w = Some (u, w') → sys_ok (mkSystem w' st (l ++ k) h).
Proof.
  intros Hok Hg He Hr. pose proof Hok as [Hwf Ha _ _]. simpl in *.
  pose proof (accounts_perm _ _ _ _ _ (held_middle l k t) Ha) as Ha'. rewrite Hg in Ha'.
  destruct (run_from_run _ _ _ _ _ _ (release_claim_from w w e f Hwf (reflexivity w) He) Hr)
    as (Hwf' & Ev & _).
  eapply sys_ok_step; [exact Hok|done| |intros t' ?; left; by apply elem_of_middle|by left].
  eapply accounts_given_up; [exact Ha'|].
  eapply holding_release; [by apply wf_taken|by eapply accounts_holding|exact Hr].
Qed.

Lemma pc_access_guard s ad w e f q :
  pc_access ad = Access.Enqueue e f q → pc_ok w s ad → tracked w s e ∧ is_Some (w_fetches w !! f).
Proof.
  unfold pc_access, pc_ok. destruct (ad_pc ad); try done. intros [= -> -> ->]. by intros (? & _ & ?).
Qed.

Lemma admit_poll_ok w st l k h s ad env ad' w' :
  sys_ok (mkSystem w st (l ++ Task.Admitting s ad :: k) h) → admit_step s env ad w = Some (ad', w') →
  sys_ok (mkSystem w' st (l ++ admit_task s ad' ++ k) (admit_handle ad' ++ h)).
Proof.
  intros Hok Hrun. pose proof (sys_ok_sub _ _ _ _ _ _ Hok) as Htask. pose proof Hok as [Hwf Ha _ _].
  simpl in Ha, Hwf.
  destruct (run_from_run _ _ _ _ _ _ (admit_step_ok w s env ad Hwf (proj1 Htask)) Hrun)
    as (Hwf' & Ev & Hpost).
  destruct Hpost as [[_ Hp]|(a & Hpc & _)]; [|by destruct (proj1 (proj2 Htask) a)].
  eapply sys_ok_step; [exact Hok|done| | |].
  - eapply accounts_perm; [symmetry; apply held_replace|]. rewrite held_admit.
    eapply (admit_step_accounts s env ad w); [done|exact Htask| |exact Hrun].
    exact (accounts_perm _ _ _ _ _ (held_middle l k (Task.Admitting s ad)) Ha).
  - intros t. rewrite !elem_of_app, elem_of_cons. intros [?|[Hin|?]]; [auto| |auto]. right.
    unfold admit_task in Hin. assert (t = Task.Admitting s ad' ∧ ∀ a, ad_pc ad' ≠ AdmitPc.Return a)
      as [-> Hret].
    { destruct (ad_pc ad'); by first [apply elem_of_nil in Hin|apply list_elem_of_singleton in Hin]. }
    split; [apply Hp|]. split; [done|]. intros b e f Hw. by eapply (admit_step_first s env ad w).
  - intros e [Hin|?]%elem_of_app; [right|by left]. unfold admit_handle in Hin.
    destruct (ad_pc ad') as [| | | | | |[a|]] eqn:Hpc; try by apply elem_of_nil in Hin.
    apply list_elem_of_singleton in Hin as ->. by destruct (sp_grant _ _ _ _ _ Hp a Hpc) as [[_ ?] _].
Qed.

(** A call that may have to wait for the queue begins. *)
Lemma access_ok (m : M (World T P C) Access.t) s w st l h r w' :
  sys_ok (mkSystem w st l h) → issuing id m → m w = Some (r, w') → wf w' ∧ evolves w w' →
  (∀ a, r = Access.Done (Some a) → settled w' a) →
  (∀ e f q, r = Access.Enqueue e f q → tracked w' s e ∧ is_Some (w_fetches w' !! f)) →
  sys_ok (mkSystem w' st (access_task s r ++ l) (access_handle r ++ h)).
Proof.
  intros Hok Hm Hrun Hev Hdone Hen. pose proof Hok as [Hwf Ha _ _]. simpl in Ha, Hwf.
  eapply sys_ok_step; [exact Hok|done| | |].
  - rewrite held_app, held_access. eapply accounts_issued; [|exact Ha].
    by eapply Hm; [apply wf_taken|].
  - intros t [Hin|?]%elem_of_app; [right|by left]. destruct r as [a|e f q]; simpl in Hin.
    { by apply elem_of_nil in Hin. }
    apply list_elem_of_singleton in Hin as ->. by eapply Hen.
  - intros e [Hin|?]%elem_of_app; [right|by left]. destruct r as [[a|]|e' f q]; simpl in Hin;
      try by apply elem_of_nil in Hin.
    apply list_elem_of_singleton in Hin as ->. by apply Hdone.
Qed.

Lemma begin_post_done w s e r w' :
  begin_post w s e r w' →
  (∀ a, r = Access.Done (Some a) → settled w' a) ∧
  (∀ e' f q, r = Access.Enqueue e' f q → tracked w' s e' ∧ is_Some (w_fetches w' !! f)).
Proof.
  intros Hb. destruct r as [[a|]|e' f q]; split; try done.
  - intros a' [= <-]. destruct Hb as [-> [[_ ?] _]]. done.
  - intros e0 f0 q0 [= <- <- <-]. destruct Hb as (-> & [? _] & en & _ & _ & Hf). split; [done|by eexists].
Qed.

Lemma access_poll_ok w st l k h s first e f q send r w' :
  sys_ok (mkSystem w st (l ++ Task.Accessing s first e f q :: k) h) →
  access_poll first e f q send w = Some (r, w') →
  sys_ok (mkSystem w' st (l ++ poll_task s e f q r ++ k) (poll_handle r ++ h)).
Proof.
  intros Hok Hrun. pose proof (sys_ok_sub _ _ _ _ _ _ Hok) as [Ht [pf Hf]].
  pose proof Hok as [Hwf Ha _ _]. simpl in Ha, Hwf.
  pose proof (accounts_perm _ _ _ _ _ (held_middle l k _) Ha) as Ha'. simpl in Ha'.
  destruct (run_from_run _ _ _ _ _ _ (access_poll_from w w s e f first q send Hwf (reflexivity w) Ht) Hrun)
    as (Hwf' & Ev & _ & Hr).
  pose proof (access_poll_outcome _ _ _ _ _ _ _ _ (wf_taken _ Hwf)
    (accounts_holding _ _ _ _ _ _ Ha') Hrun) as Ho.
  eapply sys_ok_step; [exact Hok|done| | |].
  - eapply accounts_perm; [symmetry; apply held_replace|].
    destruct r as [a|]; simpl; [by eapply accounts_sent|by eapply accounts_books].
  - intros t. rewrite !elem_of_app, elem_of_cons. intros [?|[Hin|?]]; [auto| |auto]. right.
    destruct r as [a|]; simpl in Hin; [by apply elem_of_nil in Hin|].
    apply list_elem_of_singleton in Hin as ->. split; [by apply (tracked_stable w)|].
    destruct (ev_fetches _ _ Ev _ _ Hf) as (pf' & ? & _). by exists pf'.
  - intros e' [Hin|?]%elem_of_app; [right|by left]. destruct r as [[a|]|]; simpl in Hin;
      try by apply elem_of_nil in Hin.
    apply list_elem_of_singleton in Hin as ->. destruct Hr as [Hg _].
    destruct (Hg a eq_refl) as [-> [[_ ?] _]]. done.
Qed.

Lemma admit_drop_ok w st l k h s ad u w' :
  sys_ok (mkSystem w st (l ++ Task.Admitting s ad :: k) h) → admit_cancel ad w = Some (u, w') →
  sys_ok (mkSystem w' st (l ++ k) h).
Proof.
  intros Hok Hrun. pose proof (sys_ok_sub _ _ _ _ _ _ Hok) as (Hpc & _).
  destruct (pc_access ad) as [b|e f q] eqn:Hacc.
  - assert (w' = w) as ->.
    { unfold admit_cancel in Hrun. unfold pc_access in Hacc.
      destruct (ad_pc ad); try done; by injection Hrun as _ <-. }
    pose proof Hok as [Hwf Ha _ _]. simpl in *.
    eapply sys_ok_step; [exact Hok|done| |intros t ?; left; by apply elem_of_middle|by left].
    eapply accounts_perm; [|exact Ha]. rewrite held_middle. simpl. by rewrite Hacc.
  - destruct (pc_access_guard _ _ _ _ _ _ Hacc Hpc) as [[He _] _].
    eapply sys_ok_drop; [exact Hok|simpl; by rewrite Hacc|exact He|].
    unfold admit_cancel in Hrun. unfold pc_access in Hacc. destruct (ad_pc ad); try done.
    by injection Hacc as -> -> ->.
Qed.

(** The lookups of the refresh channel and of the watcher exist. *)
Lemma accounts_refs w st hs down : accounts w hs (driven st) down → watch_refs w st.
Proof.
  intros Ha. split.
  - intros f Hf. eapply accounts_exist; [exact Ha|]. unfold owners. rewrite !elem_of_app. auto.
  - intros c Hc f Hf. eapply accounts_exist; [exact Ha|]. unfold owners, driven.
    rewrite Hc, !elem_of_app. auto.
Qed.

Lemma elem_of_handles w h e : Forall (settled w) h → e ∈ h → settled w e.
Proof. intros Hh He. by eapply Forall_forall in Hh. Qed.

Lemma run_ok_True {A} w0 w (m : M (World T P C) A) Q : run_from w0 w m Q → run_from w0 w m (λ _ _, True).
Proof. intros Hm. by eapply run_from_weaken. Qed.

Lemma settled_exists w e : settled w e → is_Some (w_entries w !! e).
Proof. intros (en & He & _). by exists en. Qed.

Lemma admit_begin_ok w st l h s ad w' :
  sys_ok (mkSystem w st l h) → admit_begin w = Some (ad, w') →
  sys_ok (mkSystem w' st (admit_task s ad ++ l) (admit_handle ad ++ h)).
Proof.
  intros Hok Hr. pose proof Hok as [Hwf Ha _ _]. simpl in Hwf, Ha.
  destruct (run_from_run _ _ _ _ _ _ (admit_begin_from w w Hwf (reflexivity w)) Hr)
    as (Hwf' & Ev & _ & Hpc & Hcase).
  assert (Ha' : accounts w' (held l) (driven st) (going_down st))
    by (eapply accounts_quiet; [apply closed_admit_begin, _|exact Hr|done|done]).
  assert (pc_access ad = Access.Done None ∧ admit_handle ad = []) as [Hacc Hhd].
  { unfold pc_access, admit_handle. by destruct Hcase as [->| ->]. }
  eapply sys_ok_step; [exact Hok|done| | |rewrite Hhd; by left].
  - by rewrite held_app, held_admit, Hacc.
  - intros t [Hin|?]%elem_of_app; [right|by left]. unfold admit_task in Hin.
    destruct Hcase as [Hc|Hc]; rewrite Hc in Hin; [|by apply elem_of_nil in Hin].
    apply list_elem_of_singleton in Hin as ->. split; [done|]. rewrite Hc. by split.
Qed.

Lemma check_begin_ok w st l h s r w' :
  sys_ok (mkSystem w st l h) → check_begin s w = Some (r, w') →
  sys_ok (mkSystem w' st (access_task s r ++ l) (access_handle r ++ h)).
Proof.
  intros Hok Hr. pose proof Hok as [Hwf _ _ _]. simpl in Hwf.
  destruct (run_from_run _ _ _ _ _ _ (check_begin_from w w s Hwf (reflexivity w)) Hr) as (Hwf' & Ev & _ & Hb).
  assert ((∀ a, r = Access.Done (Some a) → settled w' a) ∧
    ∀ e f q, r = Access.Enqueue e f q → tracked w' s e ∧ is_Some (w_fetches w' !! f)) as [Hd He].
  { destruct (w_snapshot w !! s) as [e|]; [by eapply begin_post_done|by subst r]. }
  by eapply (access_ok (check_begin s)); [exact Hok|apply issuing_check_begin|..].
Qed.

Lemma refresh_begin_ok w st l h s e r w' :
  sys_ok (mkSystem w st l h) → refresh_entry_begin s e w = Some (r, w') →
  sys_ok (mkSystem w' st (access_task s r ++ l) (access_handle r ++ h)).
Proof.
  intros Hok Hr. pose proof Hok as [Hwf _ _ _]. simpl in Hwf.
  destruct (run_from_run _ _ _ _ _ _ (refresh_entry_begin_from w w s e Hwf (reflexivity w)) Hr)
    as (Hwf' & Ev & _ & Hb).
  destruct (begin_post_done _ _ _ _ _ Hb) as [Hd Hen].
  by eapply (access_ok (refresh_entry_begin s e)); [exact Hok|apply issuing_refresh_entry|..].
Qed.

Lemma cached_ok w st l h s r w' :
  sys_ok (mkSystem w st l h) → check_without_refresh s w = Some (r, w') →
  sys_ok (mkSystem w' st l (poll_handle (Poll.Ready r) ++ h)).
Proof.
  intros Hok Hr. pose proof Hok as [Hwf _ _ _]. simpl in Hwf.
  pose proof (check_without_refresh_from w w s Hwf (reflexivity w)) as Hrun.
  destruct (run_from_run _ _ _ _ _ _ Hrun Hr) as (_ & _ & _ & Hg & _).
  eapply sys_ok_quiet; [exact Hok|by eapply run_ok_True|exact Hr
    |apply closed_check_without_refresh, _|].
  intros e [Hin|?]%elem_of_app; [right|by left]. destruct r as [a|]; simpl in Hin;
    [|by apply elem_of_nil in Hin].
  apply list_elem_of_singleton in Hin as ->. by destruct (Hg a eq_refl) as [_ [[_ ?] _]].
Qed.

Lemma claim_ok w st l h r w' :
  sys_ok (mkSystem w st l h) → republish_claim w = Some (r, w') →
  sys_ok (mkSystem w' st (claim_task r ++ l) h).
Proof.
  intros Hok Hr. pose proof Hok as [Hwf Ha _ _]. simpl in Hwf, Ha.
  destruct (run_from_run _ _ _ _ _ _ (republish_claim_from w w Hwf (reflexivity w)) Hr) as (Hwf' & Ev & _).
  eapply sys_ok_step; [exact Hok|done| |intros t; destruct r as [g|]; simpl|by left].
  - assert (held (claim_task r ++ l) = held l) as -> by by destruct r.
    by eapply accounts_quiet; [apply closed_republish_claim, _|exact Hr|..].
  - rewrite elem_of_cons. intros [->|?]; [by right|by left].
  - by left.
Qed.

Lemma copy_ok w st l k h g m w' :
  sys_ok (mkSystem w st (l ++ Task.Claimed g :: k) h) → republish_copy w = Some (m, w') →
  sys_ok (mkSystem w' st (l ++ Task.Copied g m :: k) h).
Proof.
  intros Hok Hr. pose proof Hok as [Hwf Ha _ _]. simpl in Hwf, Ha.
  destruct (run_from_run _ _ _ _ _ _ (republish_copy_from w w Hwf (reflexivity w)) Hr)
    as (Hwf' & Ev & Hc & Hm).
  eapply sys_ok_step; [exact Hok|done| | |by left].
  - eapply accounts_perm; [symmetry; apply held_middle|]. simpl.
    eapply accounts_quiet; [apply closed_republish_copy, _|exact Hr|done|].
    exact (accounts_perm _ _ _ _ _ (held_middle l k (Task.Claimed g)) Ha).
  - intros t. rewrite elem_of_app, elem_of_cons. intros [?|[->|?]].
    + left. apply elem_of_app. by left.
    + right. intros s e Hs. apply (tracked_stable w); [done|]. apply listed_tracked; [done|].
      by apply Hm.
    + left. apply elem_of_app. right. by right.
Qed.

Lemma store_ok w st l k h g m u w' :
  sys_ok (mkSystem w st (l ++ Task.Copied g m :: k) h) → republish_store g m w = Some (u, w') →
  sys_ok (mkSystem w' st (l ++ k) h).
Proof.
  intros Hok Hr. pose proof Hok as [Hwf Ha _ _]. simpl in Hwf, Ha.
  pose proof (sys_ok_sub _ _ _ _ _ _ Hok) as Hm. simpl in Hm.
  destruct (run_from_run _ _ _ _ _ _ (republish_store_from w w g m Hwf (reflexivity w) Hm) Hr)
    as (Hwf' & Ev & _).
  eapply sys_ok_step; [exact Hok|done| |intros t ?; left; by apply elem_of_middle|by left].
  eapply accounts_quiet; [apply closed_republish_store, _|exact Hr|done|].
  exact (accounts_perm _ _ _ _ _ (held_middle l k (Task.Copied g m)) Ha).
Qed.

Lemma watch_ok w st l h env st' w' :
  sys_ok (mkSystem w st l h) → watch_step env st w = Some (st', w') →
  sys_ok (mkSystem w' st' l h).
Proof.
  intros Hok Hr. pose proof Hok as [Hwf Ha _ _]. simpl in Hwf, Ha.
  pose proof (accounts_refs _ _ _ _ Ha) as Hrefs.
  destruct (run_from_run _ _ _ _ _ _ (watch_step_ok w env st Hwf Hrefs) Hr) as (Hwf' & Ev & _).
  eapply sys_ok_step; [exact Hok|done| |by left|by left]. by eapply (watch_step_accounts env st w).
Qed.

(** A handle is used, or the health is read. *)
Lemma observe_ok {A} (m : M (World T P C) A) w st l h a w' :
  sys_ok (mkSystem w st l h) → run_ok w m (λ _ _, True) →
  always (booked nothing_polled no_claim) m → m w = Some (a, w') → sys_ok (mkSystem w' st l h).
Proof. intros Hok Hm Hq Hr. eapply sys_ok_quiet; [exact Hok|exact Hm|exact Hr|exact Hq|by left]. Qed.

Lemma health_booked F N v : always (booked F N) (health_status v : M (World T P C) _).
Proof. unfold health_status. booked. Qed.

Lemma sys_step_ok y y' : sys_ok y → sys_step y y' → sys_ok y'.
Proof.
  intros Hok Hstep. destruct Hstep as
    [w st l h s ad w' Hr|w st l k h s ad env ad' w' Hr|w st l k h s ad u w' Hr|w st l h s r w' Hr
    |w st l h s e r w' He Hr|w st l k h s first e f q send r w' Hr|w st l k h s first e f q u w' Hr
    |w st l h s r w' Hr|w st l h e r w' He Hr|w st l h e r w' He Hr|w st l h e r w' He Hr
    |w st l h e u w' He Hr|w st l h v r w' Hr|w st l h r w' Hr|w st l k h g m w' Hr
    |w st l k h g m u w' Hr|w st l h env st' w' Hr];
    pose proof Hok as [Hwf _ _ Hh]; simpl in Hwf, Hh; pose proof (reflexivity w : evolves w w) as Ev0;
    try (assert (settled w e) as Hse by by eapply elem_of_handles);
    [by eapply admit_begin_ok|by eapply admit_poll_ok|by eapply admit_drop_ok|by eapply check_begin_ok
    |by eapply refresh_begin_ok|by eapply access_poll_ok| |by eapply cached_ok| | | | |
    |by eapply claim_ok|by eapply copy_ok|by eapply store_ok|by eapply watch_ok].
  - pose proof (sys_ok_sub _ _ _ _ _ _ Hok) as [[Hex _] _].
    by eapply sys_ok_drop; [exact Hok| |exact Hex|exact Hr].
  - eapply observe_ok; [exact Hok| |apply closed_admission_state, _|exact Hr].
    by eapply run_ok_True, state_from.
  - eapply observe_ok; [exact Hok| |apply closed_admission_check, _|exact Hr].
    by eapply run_ok_True, check_from.
  - eapply observe_ok; [exact Hok| |apply closed_payload, _|exact Hr].
    by eapply run_ok_True, payload_from, settled_exists.
  - eapply observe_ok; [exact Hok| |apply ro_invalidate|exact Hr].
    by eapply run_ok_True, entry_invalidate_from, settled_exists.
  - eapply observe_ok; [exact Hok| |apply health_booked|exact Hr].
    by eapply run_ok_True, health_from.
Qed.

Lemma sys_begin_ok config clock st0 w0 :
  deployment config clock → watch_begin (gate_new config clock) = Some (st0, w0) →
  sys_ok (mkSystem w0 st0 [] []).
Proof.
  intros [Hty Hcap Hck] Hrun. pose proof (gate_new_wf (P:=P) _ _ Hty Hcap Hck) as Hwf.
  injection Hrun as <- <-. split; simpl; [|split|done|done].
  - eapply wf_same_core; [|exact Hwf]. split; simpl; try done; lia.
  - intros f. split; [intros pf Hf|intros e pf _ Hf]; simpl in Hf; by rewrite lookup_empty in Hf.
  - constructor.
  - intros f Hf. by apply elem_of_nil in Hf.
  - intros e f Hf. by apply elem_of_nil in Hf.
  - intros e f [(en & He & _) _]. simpl in He. by rewrite lookup_empty in He.
Qed.

Lemma system_ok config clock y : deployment config clock → system config clock y → sys_ok y.
Proof.
  intros Hdep (st0 & w0 & Hb & Hsteps). pose proof (sys_begin_ok _ _ _ _ Hdep Hb) as Hok.
  clear Hb. induction Hsteps as [|y1 y2 y3 Hstep _ IH]; [done|]. by apply IH, (sys_step_ok y1).
Qed.

(** ** A system is a program *)

(** What a step of a system is to [Program]. *)
Lemma sys_step_program y y' :
  sys_ok y → sys_step y y' →
  (sy_watch y' = sy_watch y ∧
    (client_step (sy_world y) (sy_world y') ∨ sy_world y' = sy_world y)) ∨
  ∃ env, watch_step env (sy_watch y) (sy_world y) = Some (sy_watch y', sy_world y').
Proof.
  intros Hok Hstep. destruct Hstep as
    [w st l h s ad w' Hr|w st l k h s ad env ad' w' Hr|w st l k h s ad u w' Hr|w st l h s r w' Hr
    |w st l h s e r w' He Hr|w st l k h s first e f q send r w' Hr|w st l k h s first e f q u w' Hr
    |w st l h s r w' Hr|w st l h e r w' He Hr|w st l h e r w' He Hr|w st l h e r w' He Hr
    |w st l h e u w' He Hr|w st l h v r w' Hr|w st l h r w' Hr|w st l k h g m w' Hr
    |w st l k h g m u w' Hr|w st l h env st' w' Hr]; simpl;
    try (right; by exists env); left; (split; [done|]);
    pose proof Hok as [Hwf _ _ Hh]; simpl in Hwf, Hh;
    try (assert (settled w e) as Hse by by eapply elem_of_handles).
  - left. by eapply step_local, step_admit_begin.
  - left. pose proof (sys_ok_sub _ _ _ _ _ _ Hok) as (Hpc & _). by eapply step_admit.
  - pose proof (sys_ok_sub _ _ _ _ _ _ Hok) as (Hpc & _). unfold admit_cancel in Hr. unfold pc_ok in Hpc.
    destruct (ad_pc ad); try (right; by injection Hr as _ <-). left.
    destruct Hpc as ([? _] & _). by eapply step_local, step_access_cancel.
  - left. by eapply step_local, step_check_begin.
  - left. by eapply step_local, step_refresh_entry.
  - left. pose proof (sys_ok_sub _ _ _ _ _ _ Hok) as [Ht Hf].
    by eapply step_local, (step_access_poll _ first s).
  - left. pose proof (sys_ok_sub _ _ _ _ _ _ Hok) as [[? _] _].
    by eapply step_local, step_access_cancel.
  - left. by eapply step_local, step_check_without_refresh.
  - left. by eapply step_local, step_state.
  - left. by eapply step_local, step_check.
  - left. eapply step_local, step_payload; [by apply settled_exists|done].
  - left. eapply step_local, step_invalidate; [by apply settled_exists|done].
  - left. by eapply step_local, step_health.
  - left. by eapply step_local, step_claim.
  - left. by eapply step_local, step_copy.
  - left. pose proof (sys_ok_sub _ _ _ _ _ _ Hok) as Hm. by eapply step_local, step_store.
Qed.

Lemma sys_step_evolves y y' : sys_ok y → sys_step y y' → evolves (sy_world y) (sy_world y').
Proof.
  intros Hok Hstep. pose proof Hok as [Hwf Ha _ _].
  destruct (sys_step_program _ _ Hok Hstep) as [[_ [Hc| ->]]|[env Hs]]; [|done|].
  - by eapply client_step_ok.
  - by destruct (run_from_run _ _ _ _ _ _
      (watch_step_ok _ env (sy_watch y) Hwf (accounts_refs _ _ _ _ Ha)) Hs) as (_ & ? & _).
Qed.

Lemma system_config config clock y :
  deployment config clock → system config clock y → w_config (sy_world y) = config.
Proof.
  intros Hdep (st0 & w0 & Hb & Hsteps). pose proof (sys_begin_ok _ _ _ _ Hdep Hb) as Hok.
  assert (w_config w0 = config) as Hc by by injection Hb as _ <-.
  set (y0 := mkSystem w0 st0 [] []) in *. change (w_config (sy_world y0) = config) in Hc.
  clear Hb. induction Hsteps as [|y1 y2 y3 Hstep _ IH]; [done|]. apply IH.
  - by eapply sys_step_ok.
  - by rewrite (ev_config _ _ (sys_step_evolves _ _ Hok Hstep)).
Qed.

(** Clients keep their references.  Every run of the system, in which a client
    can only poll, drop or use what an earlier call gave it, is a run of
    [Program], whose clients may use any references that are good: what is proved
    of all programs holds of the system with no premise about references. *)
Theorem system_is_program config clock y :
  deployment config clock → system config clock y →
  ∃ g, program config clock g (sy_world y) (sy_watch y).
Proof.
  intros Hdep (st0 & w0 & Hb & Hsteps). pose proof (sys_begin_ok _ _ _ _ Hdep Hb) as Hok0.
  set (y0 := mkSystem w0 st0 [] []) in *.
  assert (Hgen : ∀ y1 g, sys_ok y1 → program_run client_step w0 st0 g (sy_world y1) (sy_watch y1) →
    ∀ y2, rtc sys_step y1 y2 →
    ∃ g', program_run client_step w0 st0 g' (sy_world y2) (sy_watch y2)).
  { intros y1 g Hok1 Hrun1 y2 Hrtc. revert g Hok1 Hrun1.
    induction Hrtc as [y1|y1 y2 y3 Hstep _ IH]; intros g Hok1 Hrun1; [by exists g|].
    pose proof (sys_step_ok _ _ Hok1 Hstep) as Hok2.
    destruct (sys_step_program _ _ Hok1 Hstep) as [[Hw [Hc|Hc]]|[env Hs]].
    - eapply IH; [done|]. rewrite Hw. by eapply run_client.
    - eapply IH; [done|]. by rewrite Hw, Hc.
    - eapply IH; [done|]. by eapply run_watch. }
  destruct (Hgen y0 first_ghost Hok0 (run_begin _ _ _) y Hsteps) as [g Hg].
  exists g, w0, st0. by split.
Qed.

(** Its worlds are reachable by the gate's methods. *)
Lemma system_reachable config clock y :
  deployment config clock → system config clock y → reachable config clock (sy_world y).
Proof.
  intros Hdep (st0 & w0 & Hb & Hsteps). pose proof (sys_begin_ok _ _ _ _ Hdep Hb) as Hok.
  assert (reachable config clock w0) as Hr0.
  { apply rtc_once. by eapply step_watch_begin. }
  set (y0 := mkSystem w0 st0 [] []) in *. change (reachable config clock (sy_world y0)) in Hr0.
  clear Hb. induction Hsteps as [|y1 y2 y3 Hstep _ IH]; [done|]. apply IH; [by eapply sys_step_ok|].
  destruct (sys_step_program _ _ Hok Hstep) as [[_ [Hc|Hc]]|[env Hs]].
  - eapply rtc_r; [exact Hr0|]. by apply step_client.
  - by rewrite Hc.
  - eapply rtc_r; [exact Hr0|]. eapply step_watch; [|exact Hs]. eapply accounts_refs, so_accounts, Hok.
Qed.

(** ** Nothing panics *)

Lemma run_total {A} w0 w (m : M (World T P C) A) Q : run_from w0 w m Q → is_Some (m w).
Proof. intros (a & w' & Hr & _). by exists (a, w'). Qed.

(** Every call of a client, every use of a handle and the watch loop can run on. *)
Record never_stuck y : Prop := {
  ns_admit : is_Some (admit_begin (sy_world y));
  ns_admit_poll s ad env : Task.Admitting s ad ∈ sy_tasks y →
    is_Some (admit_step s env ad (sy_world y)) ∧ is_Some (admit_cancel ad (sy_world y));
  ns_try_cached s : is_Some (check_begin s (sy_world y)) ∧
    is_Some (check_without_refresh s (sy_world y));
  ns_refresh s e : is_Some (refresh_entry_begin s e (sy_world y));
  ns_access s first e f q send : Task.Accessing s first e f q ∈ sy_tasks y →
    is_Some (access_poll first e f q send (sy_world y)) ∧ is_Some (access_cancel e f (sy_world y));
  ns_handle e : e ∈ sy_handles y →
    is_Some (admission_state e (sy_world y)) ∧ is_Some (admission_check e (sy_world y)) ∧
    is_Some (admission_payload e (sy_world y)) ∧ is_Some (admission_invalidate e (sy_world y));
  ns_health v : is_Some (health_status v (sy_world y));
  ns_republish : is_Some (republish_claim (sy_world y)) ∧ is_Some (republish_copy (sy_world y));
  ns_store g m : Task.Copied g m ∈ sy_tasks y → is_Some (republish_store g m (sy_world y));
  ns_watch env : is_Some (watch_step env (sy_watch y) (sy_world y));
}.

(** C8. Nothing panics.  At any point of any run of the system, whatever the source,
    the queue and the clock answer, every suspended call can be polled and can be
    dropped, every handle that was handed out can be used, every other call can
    be started, and the watch loop can make its next step: no [unreachable!],
    [expect] or dangling reference is ever hit. *)
Theorem system_never_panics config clock y :
  deployment config clock → system config clock y → never_stuck y.
Proof.
  intros Hdep Hsys. destruct (system_ok _ _ _ Hdep Hsys) as [Hwf Ha Ht Hh].
  set (w := sy_world y) in *. pose proof (reflexivity w : evolves w w) as Ev.
  assert (Htask : ∀ t, t ∈ sy_tasks y → task_ok w t) by (intros t Hin; by eapply Forall_forall in Ht).
  split.
  - by eapply run_total, admit_begin_from.
  - intros s ad env (Hpc & _)%Htask. split; [by eapply run_total, admit_step_ok|].
    unfold admit_cancel. unfold pc_ok in Hpc.
    destruct (ad_pc ad) as [b| |b e f q t|b e f|e r|b wake|a]; try by eexists.
    destruct Hpc as ([? _] & _). by eapply run_total, release_claim_from.
  - intros s. split; eapply run_total; [by apply check_begin_from|by apply check_without_refresh_from].
  - intros s e. by eapply run_total, refresh_entry_begin_from.
  - intros s first e f q send [Htr Hf]%Htask. split; [by eapply run_total, (access_poll_from w w s)|].
    destruct Htr as [? _]. by eapply run_total, release_claim_from.
  - intros e He. pose proof (elem_of_handles _ _ _ Hh He) as Hs. pose proof (settled_exists _ _ Hs).
    split_and!; eapply run_total;
      [by apply state_from|by apply check_from|by apply payload_from|by apply entry_invalidate_from].
  - intros v. by eapply run_total, health_from.
  - split; eapply run_total; [by apply republish_claim_from|by apply republish_copy_from].
  - intros g m Hm%Htask. by eapply run_total, republish_store_from.
  - intros env. eapply run_total, watch_step_ok; [done|]. by eapply accounts_refs.
Qed.

(** ** Calls to the source *)

(** The lookup has called the source and is not aborted. *)
Definition calling w f : Prop :=
  ∃ pf first deadline, w_fetches w !! f = Some pf ∧ pf_aborted pf = false ∧
    pf_phase pf = FetchPhase.Lookup first deadline.

(** Such a lookup is the one its entry waits for, and the entry is listed. *)
Lemma calling_listed w f :
  wf w → ledger w → calling w f →
  ∃ pf, w_fetches w !! f = Some pf ∧ owns w (pf_entry pf) f ∧ listed_as w (pf_subject pf) (pf_entry pf).
Proof.
  intros Hwf Hl (pf & first & d & Hf & Hab & Hph). exists pf. split; [done|].
  assert (owns w (pf_entry pf) f) as Ho.
  { destruct (proj1 (Hl f) _ Hf) as [[_ Hs]|(pf' & Hf' & Hc)]; [congruence|]. simplify_eq.
    destruct Hc as [?|[[r Hr]|?]]; [congruence|congruence|done]. }
  split; [done|]. destruct Ho as (en & He & Hp).
  pose proof (pending_listed _ _ _ _ Hwf He Hp) as (s & Hs)%listed_iff.
  by rewrite <-(proj2 (fo_tracked _ _ _ (wf_fetch _ Hwf _ _ Hf)) s Hs).
Qed.

Lemma calling_unique w f f' pf pf' :
  wf w → ledger w → calling w f → calling w f' →
  w_fetches w !! f = Some pf → w_fetches w !! f' = Some pf' →
  pf_entry pf = pf_entry pf' → f = f'.
Proof.
  intros Hwf Hl (pf0 & Hf0 & (en & He & Hp) & _)%calling_listed (pf1 & Hf1 & (en' & He' & Hp') & _)%calling_listed
    Hf Hf' Heq; try done. simplify_eq. congruence.
Qed.

(** C11. The source is not flooded.  At any point of a run of the system at most one
    lookup per subject has called the source and is neither answered nor aborted,
    and there are at most [max_subjects] such lookups in all. *)
Theorem source_calls_bounded config clock y :
  deployment config clock → system config clock y →
  (∀ f f' pf pf', calling (sy_world y) f → calling (sy_world y) f' →
     w_fetches (sy_world y) !! f = Some pf → w_fetches (sy_world y) !! f' = Some pf' →
     pf_subject pf = pf_subject pf' → f = f') ∧
  (∀ fs, NoDup fs → Forall (calling (sy_world y)) fs →
     Z.of_nat (length fs) ≤ max_subjects config).
Proof.
  intros Hdep Hsys. destruct (system_ok _ _ _ Hdep Hsys) as [Hwf Ha _ _].
  pose proof (ac_ledger _ _ _ _ Ha) as Hl. set (w := sy_world y) in *. split.
  - intros f f' pf pf' Hc Hc' Hf Hf' Hs.
    destruct (calling_listed w f Hwf Hl Hc) as (pf0 & Hf0 & _ & Hls).
    destruct (calling_listed w f' Hwf Hl Hc') as (pf1 & Hf1 & _ & Hls').
    simplify_eq. eapply calling_unique; try done.
    rewrite Hs in Hls. destruct Hls as (sl & Hin & <-), Hls' as (sl' & Hin' & <-).
    apply assoc_elem_Some in Hin, Hin'; try by apply slots_nodup_keys. congruence.
  - intros fs Hnd Hall.
    assert (w_config w = config) as Hcfg by by eapply system_config.
    set (entry_of f := match w_fetches w !! f with Some pf => pf_entry pf | None => f end).
    assert (NoDup (entry_of <$> fs)) as Hnd'.
    { apply NoDup_fmap_2_strong; [|done]. intros f f' Hf Hf' Heq.
      rewrite Forall_forall in Hall. pose proof (Hall _ Hf) as Hc. pose proof (Hall _ Hf') as Hc'.
      destruct (calling_listed w f Hwf Hl Hc) as (pf & Hpf & _).
      destruct (calling_listed w f' Hwf Hl Hc') as (pf' & Hpf' & _).
      unfold entry_of in Heq. rewrite Hpf, Hpf' in Heq. by eapply calling_unique. }
    assert (entry_of <$> fs ⊆ slot_id <$> slots w) as Hsub.
    { intros e (f & -> & Hf)%list_elem_of_fmap. rewrite Forall_forall in Hall.
      destruct (calling_listed w f Hwf Hl (Hall _ Hf)) as (pf & Hpf & _ & Hls).
      unfold entry_of. rewrite Hpf. apply listed_iff. by exists (pf_subject pf). }
    pose proof (submseteq_length _ _ (NoDup_submseteq _ _ Hnd' Hsub)) as Hlen.
    rewrite !length_fmap in Hlen. pose proof (wf_cap _ Hwf) as Hcap. rewrite Hcfg in Hcap.
    pose proof (lru_bounded _ (wf_lru _ Hwf)). unfold slots in Hlen. lia.
Qed.

(** ** No refresh is lost *)

(** C9. No refresh is lost.  At any point of a run of the system every claim of a
    refresh is one of a lookup that can still be answered, and that lookup is with
    exactly one owner who will drive it or give it up: the suspended call that
    claimed it, the refresh queue, or the watcher; only while the watcher is about
    to retire every entry may the claims it drove be without one. *)
Theorem refresh_has_owner config clock y e en f pf :
  deployment config clock → system config clock y →
  w_entries (sy_world y) !! e = Some en → pending en = Some f →
  w_fetches (sy_world y) !! f = Some pf → is_Some (pf_refresh_from pf) →
  pf_aborted pf = false ∧ ¬ finished pf ∧
  let places := (held (sy_tasks y)).*2 ++ w_refresh_queue (sy_world y) ++ driven (sy_watch y) in
  NoDup places ∧ (f ∈ places ∨ ws_pc (sy_watch y) = WatchPc.Down).
Proof.
  intros Hdep Hsys He Hp Hf Hr. destruct (system_ok _ _ _ Hdep Hsys) as [_ Ha _ _].
  assert (refresh_claim (sy_world y) e f) as Hc by (split; [by exists en|by exists pf]).
  destruct (proj2 (ac_ledger _ _ _ _ Ha f) e pf Hc Hf) as [Hab Hfin].
  split; [done|]. split; [done|]. split; [apply Ha|]. by apply (ac_claims _ _ _ _ Ha e).
Qed.
End system.

(** ** A scheduler, and the theorems on concrete runs *)

Module Action.
Inductive t : Type :=
| Watch (env : WatchEnv nat nat)
| Admit (subject : nat)
| TryCached (subject : nat)
| Resume (i : nat) (env : AdmitEnv nat)
| Drop (i : nat).
End Action.

Abbreviation DemoSystem := (System nat nat (ListLru nat SubjectSlot)).

Definition after {A} (r : option (A * DemoWorld)) (k : A → DemoWorld → DemoSystem) :
    option DemoSystem :=
  match r with Some (a, w) => Some (k a w) | None => None end.

(** One action; a call is named by its place in the list of calls. *)
Definition perform (a : Action.t) (y : DemoSystem) : option DemoSystem :=
  let '(mkSystem w st l h) := y in
  match a with
  | Action.Watch env => after (watch_step env st w) (λ st' w', mkSystem w' st' l h)
  | Action.Admit s => after (admit_begin w) (λ ad w',
      mkSystem w' st (admit_task s ad ++ l) (admit_handle ad ++ h))
  | Action.TryCached s => after (check_begin s w) (λ r w',
      mkSystem w' st (access_task s r ++ l) (access_handle r ++ h))
  | Action.Resume i env =>
      match l !! i with
      | Some (Task.Admitting s ad) => after (admit_step s env ad w) (λ ad' w',
          mkSystem w' st (take i l ++ admit_task s ad' ++ drop (S i) l) (admit_handle ad' ++ h))
      | Some (Task.Accessing s first e f q) => after (access_poll first e f q (env_send env) w)
          (λ r w', mkSystem w' st (take i l ++ poll_task s e f q r ++ drop (S i) l) (poll_handle r ++ h))
      | _ => None
      end
  | Action.Drop i =>
      match l !! i with
      | Some (Task.Admitting s ad) =>
          after (admit_cancel ad w) (λ _ w', mkSystem w' st (take i l ++ drop (S i) l) h)
      | Some (Task.Accessing s first e f q) =>
          after (access_cancel e f w) (λ _ w', mkSystem w' st (take i l ++ drop (S i) l) h)
      | _ => None
      end
  end.

Fixpoint schedule (l : list Action.t) (y : DemoSystem) : option DemoSystem :=
  match l with
  | [] => Some y
  | a :: l => match perform a y with Some y' => schedule l y' | None => None end
  end.

Lemma after_Some {A} (r : option (A * DemoWorld)) k y :
  after r k = Some y → ∃ a w, r = Some (a, w) ∧ y = k a w.
Proof. destruct r as [[a w]|]; [|done]. intros [= <-]. eauto. Qed.

Lemma perform_step a y y' : perform a y = Some y' → sys_step y y'.
Proof.
  destruct y as [w st l h], a as [env|s|s|i env|i]; simpl.
  - intros (st' & w' & Hr & ->)%after_Some. by eapply sys_watch.
  - intros (ad & w' & Hr & ->)%after_Some. by apply sys_admit.
  - intros (r & w' & Hr & ->)%after_Some. by apply sys_try_cached.
  - destruct (l !! i) as [[s ad|s first e f q|g|g m]|] eqn:Hi; [..|done|done|done];
      intros (r & w' & Hr & ->)%after_Some; rewrite <-(take_drop_middle l i _ Hi) at 1;
      [by eapply sys_admit_poll|by eapply sys_access_poll].
  - destruct (l !! i) as [[s ad|s first e f q|g|g m]|] eqn:Hi; [..|done|done|done];
      intros (r & w' & Hr & ->)%after_Some; rewrite <-(take_drop_middle l i _ Hi) at 1;
      [by eapply sys_admit_drop|by eapply sys_access_drop].
Qed.

Lemma schedule_steps l y y' : schedule l y = Some y' → rtc sys_step y y'.
Proof.
  revert y. induction l as [|a l IH]; intros y Hs; simpl in Hs; [by injection Hs as <-|].
  destruct (perform a y) as [y1|] eqn:Ha; [|done].
  eapply rtc_l; [by eapply perform_step|by apply IH].
Qed.

Definition sys_start : option DemoSystem :=
  after (watch_begin demo_init) (λ st w, mkSystem w st [] []).

Definition sys_run (l : list Action.t) : option DemoSystem :=
  match sys_start with Some y => schedule l y | None => None end.

Lemma sys_run_system l y : sys_run l = Some y → system demo_config demo_clock y.
Proof.
  unfold sys_run, sys_start. intros Hs. destruct (watch_begin demo_init) as [[st w]|] eqn:Hb; [|done].
  exists st, w. split; [done|]. by apply (schedule_steps l).
Qed.

(** Subject 7's lookup has called the source; then, answered and past its soft TTL,
    a cached read has claimed a refresh and waits for room in the queue. *)
Definition waiting : AdmitEnv nat := mkEnv (λ _, Answer.Waiting) false false Poll.Pending.
Definition calling_run : list Action.t :=
  [Action.Watch quiet; Action.Admit 7] ++ repeat (Action.Resume 0 waiting) 3.
Definition claimed_run : list Action.t :=
  [Action.Watch quiet; Action.Admit 7] ++
  repeat (Action.Resume 0 (answering Decision.Allowed)) 5 ++ [Action.TryCached 7].

Definition reached (l : list Action.t) : DemoSystem :=
  match sys_run l with Some y => y | None => mkSystem demo_init (mkWatch 0 WatchPc.Down) [] [] end.

Lemma calling_system : system demo_config demo_clock (reached calling_run).
Proof. apply (sys_run_system calling_run). by vm_compute. Qed.

Lemma claimed_system : system demo_config demo_clock (reached claimed_run).
Proof. apply (sys_run_system claimed_run). by vm_compute. Qed.

Lemma system_is_program_witness :
  sy_tasks (reached claimed_run) = [Task.Accessing 7%nat true 1 13 1048] ∧
  ∃ g, program demo_config demo_clock g (sy_world (reached claimed_run))
         (sy_watch (reached claimed_run)).
Proof.
  split; [by vm_compute|]. exact (system_is_program _ _ _ demo_deployment claimed_system).
Defined.

Lemma system_never_panics_witness :
  sy_handles (reached claimed_run) = [1%positive] ∧ never_stuck (reached claimed_run).
Proof.
  split; [by vm_compute|]. exact (system_never_panics _ _ _ demo_deployment claimed_system).
Defined.

Lemma source_calls_bounded_witness :
  calling (sy_world (reached calling_run)) 2 ∧
  ∀ fs, NoDup fs → Forall (calling (sy_world (reached calling_run))) fs → Z.of_nat (length fs) ≤ 2.
Proof.
  split; [by do 3 eexists; split_and!; vm_compute|].
  exact (proj2 (source_calls_bounded _ _ _ demo_deployment calling_system)).
Defined.

Lemma refresh_has_owner_witness :
  ∃ en pf, w_entries (sy_world (reached claimed_run)) !! 1%positive = Some en ∧
    w_fetches (sy_world (reached claimed_run)) !! 13%positive = Some pf ∧
    pf_aborted pf = false ∧ ¬ finished pf ∧
    let places := (held (sy_tasks (reached claimed_run))).*2 ++
      w_refresh_queue (sy_world (reached claimed_run)) ++ driven (sy_watch (reached claimed_run)) in
    NoDup places ∧ (13%positive ∈ places ∨ ws_pc (sy_watch (reached claimed_run)) = WatchPc.Down).
Proof.
  eexists _, _. split; [vm_compute; reflexivity|]. split; [vm_compute; reflexivity|].
  eapply (refresh_has_owner _ _ _ 1%positive _ 13%positive _ demo_deployment claimed_system);
    [vm_compute; reflexivity|vm_compute; reflexivity|vm_compute; reflexivity|by eexists].
Defined.
