(* ===== verification/Provenance.v ===== *)
(** * Provenance: every verdict in force was stated by the authority

    A [History] is what the authority has said: the last change of each subject
    and, as [horizon], the first lookup identity that is younger than it.
    [told] runs the gate beside its history.  The invariant [sourced] gives every
    listed verdict a statement of the authority made since: a change of the
    watch, or the answer to a lookup that started after the last change and after
    the last time the watch opened or closed. *)

From S2P Require Export Program Authorship.

Record History (T : Type) : Type := mkHistory {
  horizon : T → positive;
  said : T → option Decision.t;
}.
Arguments mkHistory {T}.
Arguments horizon {T}.
Arguments said {T}.

Section provenance.
Context {T P C : Type} `{Countable T, !LruCache T SubjectSlot C, !LruCacheOk T SubjectSlot C, TimeDriver}.
(** What the source answers to each lookup; a lookup calls the source once. *)
Context (reply : positive → result (option (DecisionResult P)) DecisionSourceError).
Implicit Types (w : World T P C) (h : History T) (e f n : positive) (s : T).

(** ** Histories *)

(** Nothing said so far counts; lookups below [n] are old. *)
Definition silence n : History T := mkHistory (λ _, n) (λ _, None).

Definition hear n (c : DecisionChange T) h : History T :=
  mkHistory (λ s, if decide (s = change_subject c) then n else horizon h s)
    (λ s, if decide (s = change_subject c) then change_decision c else said h s).

(** The authority states [r] of [s]: as the last change of the watch, or as the
    answer to a lookup of [s] that is younger than that change. *)
Definition stated h w s (r : DecisionResult P) : Prop :=
  (∃ d, said h s = Some d ∧ r = mkDecisionResult d None None) ∨
  (∃ f pf, w_fetches w !! f = Some pf ∧ pf_subject pf = s ∧ (horizon h s ≤ f)%positive ∧
     reply f = Ok (Some r) ∧ pf_phase pf = FetchPhase.Done (Ok (Ok tt))).

(** What the source is seen to answer is its reply; it may also keep the lookup
    waiting or panic. *)
Definition faithful f (answer : Answer.t P) : Prop :=
  match answer with Answer.Ready r => reply f = r | _ => True end.

(** ** Runs *)

(** One step of the gate and what is heard in it.  The last three are the watch
    loop's own reading of its queue, of the clock, and its counting. *)
Inductive told h w : History T → World T P C → Prop :=
| told_local w' : local_step w w' → told h w h w'
| told_lookup f answer alive r w' :
    is_Some (w_fetches w !! f) → faithful f answer →
    fetch_poll f answer alive w = Some (r, w') → told h w h w'
| told_admit s env st st' w' :
    pc_ok w s st → (∀ f, waits_for st f → faithful f (env_answer env f)) →
    admit_step s env st w = Some (st', w') → told h w h w'
| told_change n c u w' :
    (n ≤ w_next w)%positive → apply_change c w = Some (u, w') → told h w (hear n c h) w'
| told_connected n u w' :
    (n ≤ w_next w)%positive → watch_connected w = Some (u, w') → told h w (silence n) w'
| told_disconnected n u w' :
    (n ≤ w_next w)%positive → watch_disconnected w = Some (u, w') → told h w (silence n) w'
| told_stable u w' : watch_stable w = Some (u, w') → told h w h w'
| told_dropped n u w' :
    (n ≤ w_next w)%positive → watcher_drop w = Some (u, w') → told h w (silence n) w'
| told_queue limit r w' : recv_many limit w = Some (r, w') → told h w h w'
| told_clock now w' : D_now w = Some (now, w') → told h w h w'
| told_count m u w' : emit m w = Some (u, w') → told h w h w'.

Definition told_runs : History T * World T P C → History T * World T P C → Prop :=
  rtc (λ x y, told x.1 x.2 y.1 y.2).

(** From [PolicyGate::new] on. *)
Definition told_from config clock h w : Prop :=
  told_runs (silence 1, gate_new config clock) (h, w).

(** ** The invariant *)

Record sourced h w : Prop := {
  so_verdict s e en : listed_as w s e → w_entries w !! e = Some en →
    holds_verdict (current en) = true → ∃ r, stated h w s r ∧ states r (current en);
  so_pending s e en f : listed_as w s e → w_entries w !! e = Some en → pending en = Some f →
    (horizon h s ≤ f)%positive;
  so_horizon s : (horizon h s ≤ w_next w)%positive;
}.

Lemma wf_allocated w : wf w → allocated (w_next w) w.
Proof.
  intros Hwf. split; [done| |apply Hwf]. intros f [pf Hf]. by apply (fo_alloc _ _ _ (wf_fetch _ Hwf _ _ Hf)).
Qed.

(** No finished lookup is touched. *)
Definition unfinished w (busy : positive → Prop) : Prop :=
  ∀ f pf r, busy f → w_fetches w !! f = Some pf → pf_phase pf ≠ FetchPhase.Done r.

Lemma stated_later h w ok busy w' s r :
  wf w → evolves w w' → quiet (w_next w) ok busy w w' → unfinished w busy →
  stated h w s r → stated h w' s r.
Proof.
  intros Hwf Ev Hq Hb [Hs|(f & pf & Hf & Hsub & Hh & Hr & Hd)]; [by left|right].
  destruct (ev_fetches _ _ Ev _ _ Hf) as (pf' & Hf' & Hfe).
  assert (¬ busy f) as Hnb by (intros Hbf; by apply (Hb f pf (Ok (Ok tt)) Hbf Hf)).
  destruct (qc_done _ _ _ _ _ (Hq (wf_allocated _ Hwf)) _ _ _ Hnb Hf Hd) as (pf2 & Hf2 & Hd2).
  simplify_eq. exists f, pf'. split_and!; try done. by rewrite (fe_subject _ _ Hfe).
Qed.

(** A step in which nothing new is heard. *)
Lemma sourced_quiet h w ok busy w' :
  wf w → evolves w w' → quiet (w_next w) ok busy w w' → unfinished w busy →
  (∀ s e sn, listed_as w' s e → ok e sn → ∃ r, stated h w' s r ∧ states r sn) →
  sourced h w → sourced h w'.
Proof.
  intros Hwf Ev Hq Hb Hok [Hv Hp Hh].
  destruct (Hq (wf_allocated _ Hwf)) as [_ Qc Qp _ _]. split.
  - intros s e en' Hl He Hver. destruct (Qc _ _ He Hver) as [(en & He0 & Heq)|Ho]; [|by eapply Hok].
    assert (listed_as w s e) as Hl0 by (eapply ev_listed; [exact Ev|by exists en|done]).
    rewrite <-Heq in Hver |- *. destruct (Hv s e en Hl0 He0 Hver) as (r & Hst & Hrs). exists r.
    split; [|done]. by eapply stated_later.
  - intros s e en' f Hl He Hpe. destruct (Qp _ _ _ He Hpe) as [(en & He0 & Hp0)|Hn].
    + eapply Hp; [|exact He0|exact Hp0]. eapply ev_listed; [exact Ev|by exists en|done].
    + specialize (Hh s). lia.
  - intros s. specialize (Hh s). pose proof (ev_next _ _ Ev). lia.
Qed.

Definition nothing (_ : positive) : Prop := False.

Lemma sourced_silent h w w' :
  wf w → evolves w w' → quiet (w_next w) noone nothing w w' → sourced h w → sourced h w'.
Proof.
  intros Hwf Ev Hq. eapply sourced_quiet; [done|done|exact Hq|by intros ? ? ? []|].
  by intros s e sn _ [].
Qed.

(** A lookup writes what the source replied to it. *)
Lemma sourced_written h w f pf answer w' :
  wf w → evolves w w' → w_fetches w !! f = Some pf → faithful f answer → sourced h w →
  quiet (w_next w) (written f pf answer w w') (λ g, g = f ∧ ∀ r, pf_phase pf ≠ FetchPhase.Done r) w w' →
  sourced h w'.
Proof.
  intros Hwf Ev Hf Hfa Hs Hq. eapply sourced_quiet; [done|done|exact Hq| | |done].
  - intros g pfg r [-> Hnd] Hg. simplify_eq. apply Hnd.
  - intros s e sn Hl (-> & (en & He & Hp) & d & Hans & Hst & (pf' & Hf' & Hd)).
    assert (listed_as w s (pf_entry pf)) as Hl0 by (eapply ev_listed; [exact Ev|by exists en|done]).
    exists d. split; [|done]. right. exists f, pf'. split; [done|].
    destruct (ev_fetches _ _ Ev _ _ Hf) as (pf2 & Hf2 & Hfe). simplify_eq.
    split; [rewrite (fe_subject _ _ Hfe); symmetry; by apply (fo_tracked _ _ _ (wf_fetch _ Hwf _ _ Hf))|].
    split; [by eapply (so_pending _ _ Hs)|]. split; [|done].
    unfold answer_of in Hans. by subst answer.
Qed.

(** *** Silence: nothing is listed *)

Lemma unlisted_sourced n w : slots w = [] → (n ≤ w_next w)%positive → sourced (silence n) w.
Proof.
  intros Hsl Hn. assert (∀ s e, ¬ listed_as w s e) as Hno.
  { intros s e (slot & Hin & _). rewrite Hsl in Hin. by apply elem_of_nil in Hin. }
  split; [intros s e en Hl; by apply Hno in Hl|intros s e en f Hl; by apply Hno in Hl|done].
Qed.

(** *** A change of the watch *)

(** It writes only into the entry of its subject. *)
Lemma apply_change_writes c w u w' :
  wf w → apply_change c w = Some (u, w') →
  quiet (w_next w) (λ e _, listed_as w (change_subject c) e) nothing w w'.
Proof.
  intros Hwf Hrun. set (ok := λ (e : positive) (_ : EntrySnapshot P), listed_as w (change_subject c) e).
  unfold apply_change in Hrun. destruct (change_decision c) as [d|].
  2:{ refine ((_ : always (quiet (w_next w) ok nothing) _) _ _ _ Hrun). quiet. }
  apply run_bind in Hrun as (now & w1 & Hnow & Hrun). apply run_bind in Hrun as ([] & w3 & Hup & Hrun).
  injection Hnow as <- <-. set (w1 := set_reads _ w) in Hup. set (now := w_clock w (w_reads w)) in Hup.
  assert (same_core w w1) as Hc by (split; simpl; try done; lia).
  transitivity w1; [by apply quiet_same|]. transitivity w3.
  2:{ refine ((_ : always (quiet (w_next w) ok nothing) _) _ _ _ Hrun). quiet. }
  apply run_bind in Hup as (t & w1' & Ht & Hup). injection Ht as <- <-.
  apply run_bind in Hup as ([] & w2 & Hev & Hup). apply run_bind in Hup as (entries & w2' & He & Hup).
  injection He as <- <-. transitivity w2; [by eapply closed_evict; [apply _|]|].
  destruct (run_from_run _ _ _ _ _ _ (evict_from w1 w1 _ (wf_same_core _ _ Hc Hwf) (reflexivity w1)) Hev)
    as (Hwf2 & Ev2 & Hpost).
  destruct (lru_peek _ _) as [slot|] eqn:Hpk; [|by injection Hup as <-].
  apply peek_listed in Hpk; [|done].
  assert (listed_as w2 (change_subject c) (slot_entry slot)) as Hl2 by by exists slot.
  assert (listed_as w (change_subject c) (slot_entry slot)) as Hl.
  { apply (proj1 (same_core_listed_as w w1 _ _ Hc)). exists slot. split; [|done].
    eapply evict_subset; [exact Hpost|]. exact Hpk. }
  eapply quiet_change_loop; [|exact Hup]. by intros sn _.
Qed.

Lemma sourced_change h n c w u w' :
  wf w → (n ≤ w_next w)%positive → apply_change c w = Some (u, w') → sourced h w →
  sourced (hear n c h) w'.
Proof.
  intros Hwf Hn Hrun Hs. pose proof (apply_change_writes _ _ _ _ Hwf Hrun) as Hq.
  destruct (run_from_run _ _ _ _ _ _ (apply_change_from w w c Hwf (reflexivity w)) Hrun)
    as (Hwf' & Ev & _ & Hfate).
  destruct (Hq (wf_allocated _ Hwf)) as [_ Qc Qp _ _].
  assert (Hold : ∀ s e, is_Some (w_entries w !! e) → listed_as w' s e → listed_as w s e)
    by (intros s e; by apply ev_listed).
  (* what the subject of the change names afterwards *)
  assert (Hnew : ∀ e en', listed_as w (change_subject c) e → listed_as w' (change_subject c) e →
    w_entries w' !! e = Some en' → ∃ d, change_decision c = Some d ∧
      entry_decode en' = EntryState.from d ∧ sn_payload (current en') = None ∧ pending en' = None).
  { intros e en' Hl Hl' He. destruct (Hfate e Hl) as [[_ Hd]|Hp].
    - destruct Hd. apply listed_iff. by exists (change_subject c).
    - destruct (change_decision c) as [d|]; [|done]. destruct Hp as (en2 & He2 & ? & ? & ?).
      simplify_eq. by exists d. }
  split; unfold stated; simpl.
  - intros s e en' Hl He Hv.
    assert (listed_as w s e ∧ (s = change_subject c ∨ ∃ en, w_entries w !! e = Some en ∧
      current en = current en')) as [Hl0 Hcase].
    { destruct (Qc _ _ He Hv) as [(en & He0 & Heq)|Hc].
      2: simpl in Hc.
      - split; [apply Hold; [by exists en|done]|]. right. by exists en.
      - assert (listed_as w s e) as Hl0.
        { apply Hold; [apply (wf_listed _ Hwf), listed_iff; by exists (change_subject c)|done]. }
        split; [done|]. left. by eapply (listed_as_unique w). }
    case_decide as Hsub; subst.
    + destruct (Hnew e en' Hl0 Hl He) as (d & Hd & Hst & Hpay & _).
      exists (mkDecisionResult d None None). split; [left; by exists d|].
      split; [done|]. simpl. by case_bool_decide.
    + destruct Hcase as [?|(en & He0 & Heq)]; [done|]. rewrite <-Heq in Hv |- *.
      destruct (so_verdict _ _ Hs s e en Hl0 He0 Hv) as (r & Hr & Hst). exists r. split; [|done].
      assert (unfinished w nothing) as Hnb by (by intros g pf x []).
      pose proof (stated_later h w _ _ w' s r Hwf Ev Hq Hnb Hr) as Hlater. exact Hlater.
  - intros s e en' f Hl He Hp. destruct (Qp _ _ _ He Hp) as [(en & He0 & Hp0)|Hnf].
    + assert (listed_as w s e) as Hl0 by (apply Hold; [by exists en|done]).
      case_decide as Hsub; subst.
      * destruct (Hnew e en' Hl0 Hl He) as (d & _ & _ & _ & Hnone). congruence.
      * by eapply (so_pending _ _ Hs).
    + case_decide; [lia|]. pose proof (so_horizon _ _ Hs s). lia.
  - intros s. pose proof (ev_next _ _ Ev). pose proof (so_horizon _ _ Hs s). case_decide; lia.
Qed.

(** *** Every step *)

Lemma local_quiet w w' : local_step w w' → quiet (w_next w) noone nothing w w'.
Proof.
  assert (Hm : ∀ A (m : M (World T P C) A) a w1, always (quiet (w_next w) noone nothing) m →
    m w = Some (a, w1) → quiet (w_next w) noone nothing w w1) by eauto.
  destruct 1; (eapply Hm; [|eassumption]);
    unfold access_cancel, admission_invalidate, health_status; quiet.
Qed.

(** Steps that write no verdict, and those that change nothing of the gate. *)
Lemma told_plain {A} h w (m : M (World T P C) A) a w' :
  wf w → sourced h w → always (quiet (w_next w) noone nothing) m → m w = Some (a, w') →
  wf w' ∧ evolves w w' → wf w' ∧ evolves w w' ∧ sourced h w'.
Proof.
  intros Hwf Hs Hm Hrun [Hwf' Ev]. split; [done|]. split; [done|].
  eapply (sourced_silent h w w'); [done|done|exact (Hm _ _ _ Hrun)|done].
Qed.

Lemma told_core h w w' :
  wf w → sourced h w → same_core w w' → wf w' ∧ evolves w w' ∧ sourced h w'.
Proof.
  intros Hwf Hs Hc. assert (wf w' ∧ evolves w w') as [Hwf' Ev]
    by (split; [by eapply wf_same_core|by apply evolves_same_core]).
  split; [done|]. split; [done|]. eapply (sourced_silent h w w'); [done|done| |done].
  apply quiet_same; try apply Hc. by rewrite (sc_publish _ _ Hc).
Qed.

(** The watch opens or closes: whatever was listed is gone. *)
Lemma told_cleared {A} n w (m : M (World T P C) A) Q a w' :
  (n ≤ w_next w)%positive → run_from w w m Q → m w = Some (a, w') → (Q a w' → slots w' = []) →
  wf w' ∧ evolves w w' ∧ sourced (silence n) w'.
Proof.
  intros Hn Hm Hrun Hsl. destruct (run_from_run _ _ _ _ _ _ Hm Hrun) as (Hwf' & Ev & HQ).
  split; [done|]. split; [done|]. apply unlisted_sourced; [by apply Hsl|]. pose proof (ev_next _ _ Ev). lia.
Qed.

Lemma recv_many_core limit w r w' : recv_many limit w = Some (r, w') → same_core w w'.
Proof.
  unfold recv_many. unfold gets, mbind, M_bind.
  destruct (limit =? 0), (w_refresh_queue w), (w_refresh_open w); intros [= <- <-]; by split.
Qed.

Lemma told_waits h w s env st st' w' :
  wf w → sourced h w → pc_ok w s st → (∀ f, waits_for st f → faithful f (env_answer env f)) →
  admit_step s env st w = Some (st', w') → wf w' ∧ evolves w w' ∧ sourced h w'.
Proof.
  intros Hwf Hs Hpc Hfa Hr.
  pose proof (ok_step _ _ _ _ _ (admit_step_ok w s env st Hwf Hpc) Hr) as Hok.
  destruct (ad_pc st) as [?| |? ? ? ? ?|b e f|? ?|? ?|?] eqn:Hst;
    try (eapply told_plain; [done|done| |exact Hr|exact Hok];
         apply admit_step_quiet; intros f Hf; unfold waits_for in Hf; by rewrite Hst in Hf).
  destruct Hok as [Hwf' Ev]. split; [done|]. split; [done|].
  unfold pc_ok in Hpc. rewrite Hst in Hpc. destruct Hpc as [_ [pf Hf]].
  unfold admit_step in Hr. rewrite Hst in Hr.
  apply (sourced_written h w f pf (env_answer env f) w'); try done.
  - apply Hfa. unfold waits_for. by rewrite Hst.
  - eapply admit_wait_writes; [by apply wf_allocated|done|exact Hr].
Qed.

Lemma told_step h w h' w' :
  wf w → sourced h w → told h w h' w' → wf w' ∧ evolves w w' ∧ sourced h' w'.
Proof.
  intros Hwf Hs Htold. pose proof (reflexivity w : evolves w w) as Ev0.
  destruct Htold as [w' Hl|f answer alive r w' [pf Hf] Hfa Hr|s env st st' w' Hpc Hfa Hr
    |n c u w' Hn Hr|n u w' Hn Hr|n u w' Hn Hr|u w' Hr|n u w' Hn Hr|limit r w' Hr|now w' Hr|m u w' Hr].
  - destruct (local_step_ok _ _ Hwf Hl) as [Hwf' Ev]. split; [done|]. split; [done|].
    eapply (sourced_silent h w w'); [done|done|by apply local_quiet|done].
  - destruct (run_from_run _ _ _ _ _ _ (fetch_poll_from w w f answer alive Hwf Ev0 (mk_is_Some _ _ Hf)) Hr)
      as (Hwf' & Ev & _).
    split; [done|]. split; [done|]. apply (sourced_written h w f pf answer w'); try done.
    eapply fetch_poll_writes; [by apply wf_allocated|done|exact Hr].
  - by eapply told_waits.
  - destruct (run_from_run _ _ _ _ _ _ (apply_change_from w w c Hwf Ev0) Hr) as (Hwf' & Ev & _).
    split; [done|]. split; [done|]. exact (sourced_change _ _ _ _ _ _ Hwf Hn Hr Hs).
  - apply (told_cleared n w _ _ _ _ Hn (watch_connected_from w w Hwf Ev0) Hr). by intros (_ & _ & ? & _).
  - apply (told_cleared n w _ _ _ _ Hn (watch_disconnected_from w w Hwf Ev0) Hr). by intros (_ & _ & ? & _).
  - eapply told_plain; [done|done|apply quiet_watch_stable|exact Hr|].
    eapply ok_step; [by apply watch_stable_from|exact Hr].
  - apply (told_cleared n w _ _ _ _ Hn (watcher_drop_from w w Hwf Ev0) Hr). by intros (_ & _ & _ & _ & ? & _).
  - by eapply told_core, recv_many_core.
  - injection Hr as <- <-. apply told_core; [done|done|]. split; simpl; try done. lia.
  - injection Hr as <- <-. by apply told_core.
Qed.

Lemma told_runs_ok h w h' w' :
  wf w → sourced h w → told_runs (h, w) (h', w') → wf w' ∧ evolves w w' ∧ sourced h' w'.
Proof.
  intros Hwf Hs Hruns. remember (h, w) as x eqn:Hx. remember (h', w') as y eqn:Hy.
  revert h w Hx Hwf Hs. induction Hruns as [x|x [h1 w1] z Hstep _ IH]; intros h w -> Hwf Hs.
  { by simplify_eq. }
  destruct (told_step _ _ _ _ Hwf Hs Hstep) as (Hwf1 & Ev1 & Hs1).
  destruct (IH Hy h1 w1 eq_refl Hwf1 Hs1) as (Hwf' & Ev & Hs'). split; [done|].
  split; [by transitivity w1|done].
Qed.
End provenance.
