(* ===== verification/Authority.v ===== *)
(** * Authority: a program beside what the decision source says

    [broadcast] is a run of the program, its clients and its watcher, next to the
    history of the changes the watch delivered; the lookups are answered by the
    source.  Every such run is a run of [told], so every handle and every payload
    a client sees comes from the authority. *)

From S2P Require Export Provenance.

Section authority.
Context {T P C : Type} `{Countable T, !LruCache T SubjectSlot C, !LruCacheOk T SubjectSlot C, TimeDriver}.
Context (reply : positive → result (option (DecisionResult P)) DecisionSourceError).
Implicit Types (w : World T P C) (h : History T) (e f n : positive) (s : T).
Implicit Types (st : WatchState) (c : Connection) (env : WatchEnv T P).

(** ** The history of the watch *)

(** A change was applied: it was counted, or counted up to the yield. *)
Definition took_change st st' : bool :=
  match ws_pc st, ws_pc st' with
  | WatchPc.Serve c, WatchPc.Serve c' => negb (events_since_yield c' =? events_since_yield c)
  | WatchPc.Serve _, WatchPc.Yield _ => true
  | _, _ => false
  end.

(** When a watch opens, and after one was lost, nothing said before counts. *)
Definition next_history env st st' w h : History T :=
  match ws_pc st, ws_pc st' with
  | WatchPc.Down, _ | WatchPc.Open _ _, WatchPc.Serve _ => silence (w_next w)
  | _, _ =>
      match took_change st st', we_item env with
      | true, Poll.Ready (Some (Ok change)) => hear (w_next w) change h
      | _, _ => h
      end
  end.

(** The source answers the lookups that the watch loop drives. *)
Definition answers_faithful env : Prop :=
  ∀ f answer, (f, answer) ∈ we_polled env → faithful reply f answer.

(** What a client can do while the source answers it. *)
Inductive faithful_client w : World T P C → Prop :=
| faithful_local w' : local_step w w' → faithful_client w w'
| faithful_lookup f answer alive r w' :
    is_Some (w_fetches w !! f) → faithful reply f answer →
    fetch_poll f answer alive w = Some (r, w') → faithful_client w w'
| faithful_admit s (env : AdmitEnv P) (st st' : AdmitState) w' :
    pc_ok w s st → (∀ f, waits_for st f → faithful reply f (env_answer env f)) →
    admit_step s env st w = Some (st', w') → faithful_client w w'.

Inductive broadcast config clock : History T → World T P C → WatchState → Prop :=
| broadcast_begin st w :
    watch_begin (gate_new config clock) = Some (st, w) → broadcast config clock (silence 1) w st
| broadcast_client h w st w' :
    broadcast config clock h w st → faithful_client w w' → broadcast config clock h w' st
| broadcast_watch h w st env st' w' :
    broadcast config clock h w st → answers_faithful env →
    watch_step env st w = Some (st', w') →
    broadcast config clock (next_history env st st' w h) w' st'.

(** ** Steps that hear nothing *)

Definition heeds h w w' : Prop := told_runs reply (h, w) (h, w').

#[local] Instance heeds_preorder h : PreOrder (heeds h).
Proof. split; [intros w; apply rtc_refl|intros w1 w2 w3; unfold heeds; by etrans]. Qed.

Abbreviation heeding h m := (always (heeds h) (m : M (World T P C) _)).

Lemma heeding_now h : heeding h D_now.
Proof. intros w a w' Hr. apply rtc_once. by eapply told_clock. Qed.
Lemma heeding_emit h m : heeding h (emit m).
Proof. intros w a w' Hr. apply rtc_once. by eapply told_count. Qed.
Lemma heeding_stable h : heeding h watch_stable.
Proof. intros w a w' Hr. apply rtc_once. by eapply told_stable. Qed.
Lemma heeding_recv h limit : heeding h (recv_many limit).
Proof. intros w a w' Hr. apply rtc_once. by eapply told_queue. Qed.

Ltac heed :=
  repeat first
    [ progress intros
    | apply always_ret; apply _
    | apply always_gets; apply _
    | apply heeding_now | apply heeding_emit | apply heeding_stable | apply heeding_recv
    | apply always_bind; [apply _|..]
    | progress cbn iota beta zeta
    | case_match ].

Lemma heeding_wire h (err : DecisionSourceError) : heeding h (emit_wire err).
Proof. unfold emit_wire. heed. Qed.
Lemma heeding_open h st : heeding h (open_begin st).
Proof. unfold open_begin. heed. Qed.
Lemma heeding_sleep h wake st : heeding h (watch_sleep wake st).
Proof. unfold watch_sleep. pose proof heeding_open. heed. all: eauto. Qed.

(** ** The branches of [select!] *)

(** A lookup that was polled exists. *)
Lemma polled_exists f answer alive w r w' :
  fetch_poll f answer alive w = Some (r, w') → is_Some (w_fetches w !! f).
Proof.
  intros (pf & w1 & Hl & _)%run_bind. unfold expect in Hl. destruct (w_fetches w !! f); [by eexists|done].
Qed.

Lemma refreshes_told h polled l w r w' :
  wf w → sourced reply h w →
  (∀ f answer, (f, answer) ∈ polled → faithful reply f answer) →
  refreshes_poll polled l w = Some (r, w') → heeds h w w'.
Proof.
  revert w. induction polled as [|[f answer] polled IH]; intros w Hwf Hs Hfa Hrun; simpl in Hrun.
  { injection Hrun as _ <-. reflexivity. }
  assert (∀ g a, (g, a) ∈ polled → faithful reply g a) as Hfa'
    by (intros g a Hin; apply Hfa; by right).
  destruct (list_remove f l) as [rest|] eqn:Hf; [|by eapply IH].
  apply run_bind in Hrun as (p & w1 & Hp & Hrun).
  assert (told reply h w h w1) as Ht
    by (eapply told_lookup; [by eapply polled_exists|apply Hfa; by left|exact Hp]).
  destruct (told_step reply _ _ _ _ Hwf Hs Ht) as (Hwf1 & Ev1 & Hs1).
  transitivity w1; [by apply rtc_once|]. destruct p.
  - injection Hrun as _ <-. reflexivity.
  - by eapply IH.
Qed.

Lemma branch_told h b c env w r w' :
  wf w → sourced reply h w → answers_faithful env →
  branch_poll b c env w = Some (r, w') →
  heeds h w w' ∧ ∀ item, r = Poll.Ready (Work.Change item) → we_item env = Poll.Ready item.
Proof.
  intros Hwf Hs Hfa Hrun. destruct b; simpl in Hrun.
  - destruct (stable_timer c) as [wake|]; [|by injection Hrun as <- <-].
    apply run_bind in Hrun as (now & w1 & Hn & Hrun). injection Hrun as <- <-.
    split; [by apply (heeding_now h) in Hn|]. by destruct (sleep_poll wake now).
  - apply run_bind in Hrun as (limit & w1 & Hg & Hrun). injection Hg as <- <-.
    apply run_bind in Hrun as (batch & w1 & Hn & Hrun). injection Hrun as <- <-.
    split; [by apply (heeding_recv h) in Hn|]. by destruct batch.
  - apply run_bind in Hrun as (rest & w1 & Hn & Hrun). injection Hrun as <- <-.
    split; [by eapply refreshes_told|]. by destruct rest.
  - injection Hrun as <- <-. split; [reflexivity|]. intros item. destruct (we_item env); [|done].
    by intros [= ->].
Qed.

Lemma select_told h order c env w r w' :
  wf w → sourced reply h w → answers_faithful env →
  select_work order c env w = Some (r, w') →
  heeds h w w' ∧ ∀ item, r = Poll.Ready (Work.Change item) → we_item env = Poll.Ready item.
Proof.
  revert w. induction order as [|b order IH]; intros w Hwf Hs Hfa Hrun; simpl in Hrun.
  { by injection Hrun as <- <-. }
  apply run_bind in Hrun as (p & w1 & Hp & Hrun).
  destruct (branch_told h _ _ _ _ _ _ Hwf Hs Hfa Hp) as [Hb Hitem].
  destruct p as [work|]; [by injection Hrun as <- <-|].
  destruct (told_runs_ok reply _ _ _ _ Hwf Hs Hb) as (Hwf1 & Ev1 & Hs1).
  destruct (IH w1) as [Hr Hi]; try done.
  split; [by transitivity w1|done].
Qed.

(** ** One step of the watch loop *)

Lemma told_then h w h1 w1 w' :
  told reply h w h1 w1 → heeds h1 w1 w' → told_runs reply (h, w) (h1, w').
Proof. intros Ht Hr. apply (rtc_l _ _ (h1, w1)); [exact Ht|exact Hr]. Qed.

Lemma opened_told h n st w st' w' :
  (n ≤ w_next w)%positive → watch_opened st w = Some (st', w') →
  told_runs reply (h, w) (silence n, w') ∧ ∃ c, ws_pc st' = WatchPc.Serve c.
Proof.
  intros Hn Hrun. apply run_bind in Hrun as (u & w1 & Hc & Hrun).
  apply run_bind in Hrun as (limit & w2 & Hg & Hrun). injection Hg as <- <-.
  apply run_bind in Hrun as (now & w2 & Hnow & Hrun). injection Hrun as <- <-.
  split; [|by eexists]. eapply told_then; [by eapply told_connected|].
  by apply (heeding_now (silence n)) in Hnow.
Qed.

Lemma open_told h first deadline env st w st' w' :
  ws_pc st = WatchPc.Open first deadline → watch_open first deadline env st w = Some (st', w') →
  told_runs reply (h, w) (next_history env st st' w h, w').
Proof.
  intros Hpc Hrun. apply run_bind in Hrun as (now & w1 & Hn & Hrun).
  assert (heeds h w w1) as Hw1 by by apply (heeding_now h) in Hn.
  assert ((w_next w ≤ w_next w1)%positive) as Hle by by injection Hn as _ <-.
  unfold next_history, took_change. rewrite Hpc.
  destruct (timeout_poll _ _ _ _) as [[[[]|e]|[]]|].
  - destruct (opened_told h _ _ _ _ _ Hle Hrun) as [Ht [c ->]].
    etrans; [exact Hw1|exact Ht].
  - assert (heeds h w1 w' ∧ ws_pc st' = WatchPc.Down) as [Hr ->].
    { apply run_bind in Hrun as (u & w2 & He & Hrun). apply run_bind in Hrun as (u' & w3 & Hm & Hrun).
      injection Hrun as <- <-. split; [|done]. apply (heeding_wire h) in He. apply (heeding_emit h) in Hm.
      by transitivity w2. }
    etrans; [exact Hw1|exact Hr].
  - apply run_bind in Hrun as (u' & w3 & Hm & Hrun). injection Hrun as <- <-. simpl.
    apply (heeding_emit h) in Hm. etrans; [exact Hw1|exact Hm].
  - by injection Hrun as <- <-.
Qed.

Lemma served_told h c (work : Work.t T) env st w0 w st' w' :
  ws_pc st = WatchPc.Serve c → (w_next w0 ≤ w_next w)%positive →
  (∀ item, work = Work.Change item → we_item env = Poll.Ready item) →
  watch_work c work st w = Some (st', w') →
  told_runs reply (h, w) (next_history env st st' w0 h, w').
Proof.
  intros Hpc Hle Hitem Hrun. unfold next_history, took_change. rewrite Hpc.
  destruct work as [|batch|rest|item]; simpl in Hrun.
  - apply run_bind in Hrun as (i & w1 & Hi & Hrun). injection Hi as <- <-.
    apply run_bind in Hrun as (u & w1 & Hst & Hrun). injection Hrun as <- <-. simpl.
    rewrite Z.eqb_refl. by apply (heeding_stable h) in Hst.
  - destruct batch as [|f batch].
    + apply run_bind in Hrun as (u & w1 & Hm & Hrun). injection Hrun as <- <-.
      by apply (heeding_emit h) in Hm.
    + injection Hrun as <- <-. simpl. by rewrite Z.eqb_refl.
  - injection Hrun as <- <-. simpl. by rewrite Z.eqb_refl.
  - rewrite (Hitem item eq_refl). destruct item as [[change|err]|].
    + unfold watch_change in Hrun. apply run_bind in Hrun as (u & w1 & Ha & Hrun).
      apply run_bind in Hrun as (u' & w2 & Hm & Hrun).
      apply run_bind in Hrun as (limit & w3 & Hl & Hrun). injection Hl as <- <-.
      assert (told_runs reply (h, w) (hear (w_next w0) change h, w2)) as Ht.
      { eapply told_then; [by eapply told_change|]. by apply (heeding_emit (hear (w_next w0) change h)) in Hm. }
      injection Hrun as <- <-. destruct (_ =? _); simpl; [exact Ht|].
      by replace (events_since_yield c + 1 =? events_since_yield c) with false by lia.
    + apply run_bind in Hrun as (u & w1 & He & Hrun). apply run_bind in Hrun as (u' & w2 & Hm & Hrun).
      injection Hrun as <- <-. simpl. apply (heeding_wire h) in He. apply (heeding_emit h) in Hm.
      etrans; [exact He|exact Hm].
    + apply run_bind in Hrun as (u & w1 & Hm & Hrun). injection Hrun as <- <-.
      by apply (heeding_emit h) in Hm.
Qed.

Lemma watch_told h env st w st' w' :
  wf w → sourced reply h w → answers_faithful env →
  watch_step env st w = Some (st', w') → told_runs reply (h, w) (next_history env st st' w h, w').
Proof.
  intros Hwf Hs Hfa Hrun. unfold watch_step in Hrun.
  destruct (ws_pc st) as [first deadline|c|c| |wake] eqn:Hpc.
  - by eapply open_told.
  - apply run_bind in Hrun as (r & w1 & Hsel & Hrun).
    destruct (select_told h _ _ _ _ _ _ Hwf Hs Hfa Hsel) as [Hw1 Hitem].
    destruct (told_runs_ok reply _ _ _ _ Hwf Hs Hw1) as (_ & Ev & _). pose proof (ev_next _ _ Ev).
    etrans; [exact Hw1|]. destruct r as [work|].
    + eapply served_told; [exact Hpc|done| |exact Hrun]. intros item ->. by apply Hitem.
    + injection Hrun as <- <-. unfold next_history, took_change. rewrite Hpc. by rewrite Z.eqb_refl.
  - injection Hrun as <- <-. unfold next_history, took_change. rewrite Hpc.
    destruct (we_yielded env); simpl; rewrite ?Hpc; done.
  - unfold next_history. rewrite Hpc. apply run_bind in Hrun as (u & w1 & Hd & Hrun).
    apply run_bind in Hrun as (now & w2 & Hn & Hrun). injection Hrun as <- <-.
    eapply told_then; [by eapply told_disconnected|]. by apply (heeding_now (silence (w_next w))) in Hn.
  - apply (heeding_sleep h) in Hrun as Hh. unfold next_history, took_change. rewrite Hpc. exact Hh.
Qed.

(** ** The program *)

Lemma faithful_told h w w' : faithful_client w w' → told reply h w h w'.
Proof.
  destruct 1; [by eapply told_local|by eapply told_lookup|by eapply told_admit].
Qed.

Lemma faithful_is_client w w' : faithful_client w w' → client_step w w'.
Proof.
  destruct 1; [by apply step_local|by eapply step_fetch_poll|by eapply step_admit].
Qed.

Lemma broadcast_program config clock h w st :
  broadcast config clock h w st → ∃ g, program config clock g w st.
Proof.
  induction 1 as [st w Hb|h w st w' _ (g & w0 & st0 & Hb & Hrun) Hc
    |h w st env st' w' _ (g & w0 & st0 & Hb & Hrun) _ Hstep].
  - eexists _, w, st. split; [done|]. apply run_begin.
  - exists g, w0, st0. split; [done|]. by eapply run_client, faithful_is_client.
  - eexists _, w0, st0. split; [done|]. by eapply run_watch.
Qed.

Lemma told_from_ok config clock h w :
  deployment config clock → told_from reply config clock h w → wf w ∧ sourced reply h w.
Proof.
  intros [Hty Hcap Hck] Hgo. eapply told_runs_ok in Hgo as (? & _ & ?); [done|by apply gate_new_wf|].
  apply unlisted_sourced; [|done]. unfold slots. simpl. by apply lru_new_ok.
Qed.

Lemma broadcast_told config clock h w st :
  deployment config clock → broadcast config clock h w st →
  told_from reply config clock h w.
Proof.
  intros Hdep Hb. unfold told_from, told_runs in *.
  induction Hb as [st w Hb|h w st w' _ IH Hc|h w st env st' w' Hb IH Hfa Hstep].
  - by apply (heeding_open (silence 1)) in Hb.
  - eapply rtc_r; [exact IH|]. by apply faithful_told.
  - destruct (told_from_ok _ _ _ _ Hdep IH) as [Hwf Hs].
    etrans; [exact IH|]. by apply watch_told.
Qed.

(** A verdict in an entry is listed, and stated. *)
Lemma in_force h w e en :
  wf w → sourced reply h w → w_entries w !! e = Some en → holds_verdict (current en) = true →
  ∃ s r, listed_as w s e ∧ stated reply h w s r ∧ states r (current en).
Proof.
  intros Hwf Hs He Hv. destruct (decide (listed w e)) as [(s & Hl)%listed_iff|Hno].
  - destruct (so_verdict _ _ _ Hs s e en Hl He Hv) as (r & Hr & Hst). by exists s, r.
  - destruct (wf_unlisted _ Hwf e en He Hno) as [Hst _]. unfold entry_decode in Hst.
    unfold holds_verdict in Hv. by rewrite Hst in Hv.
Qed.

(** What a handle reports is the snapshot of its entry. *)
Lemma current_reads w e en w' sx :
  wf w → w_entries w !! e = Some en → (now ← D_now; entry_current_at e now) w = Some (sx, w') →
  sx = (current en, false) ∨ sx.2 = true.
Proof.
  intros Hwf He (now & w1 & Hn & Hrun)%run_bind. injection Hn as <- <-.
  set (w1 := set_reads _ w) in Hrun.
  assert (same_core w w1) as Hc by (split; simpl; try done; lia).
  pose proof (wf_same_core _ _ Hc Hwf) as Hwf1.
  destruct (run_from_run _ _ _ _ _ _ (entry_current_at_from w1 w1 e en _ Hwf1 (reflexivity w1) He) Hrun)
    as (_ & _ & _ & _ & en' & _ & [(_ & -> & _)|(_ & Hx & _)]); [by left|by right].
Qed.

Lemma state_reads w e x w' :
  wf w → is_Some (w_entries w !! e) → admission_state e w = Some (x, w') →
  x = AdmissionState.Stale ∨ ∃ en, w_entries w !! e = Some en ∧
    ((x = AdmissionState.Allowed ∧ decode_entry_state (sn_word (current en)) = EntryState.Allowed) ∨
     (x = AdmissionState.Denied ∧ decode_entry_state (sn_word (current en)) = EntryState.Denied)).
Proof.
  intros Hwf [en He] (o & w2 & Ho & Hrun)%run_bind. injection Hrun as <- <-.
  apply run_bind in Ho as (now & w1 & Hn & Ho). apply run_bind in Ho as (sx & w3 & Hsx & Ho).
  assert ((now ← D_now; entry_current_at e now) w = Some (sx, w3)) as Hcur
    by (unfold mbind, M_bind; by rewrite Hn).
  unfold expect in Ho. destruct (observed_of sx) as [o'|] eqn:Hob; [|done]. injection Ho as <- <-.
  destruct (current_reads _ _ _ _ _ Hwf He Hcur) as [->|Hx]; unfold observed_of in Hob.
  - simpl in Hob. destruct (decode_entry_state _) eqn:Hd; simplify_eq; eauto 10.
  - rewrite Hx in Hob. injection Hob as <-. by left.
Qed.

Lemma payload_reads w e p w' :
  wf w → is_Some (w_entries w !! e) → admission_payload e w = Some (Some p, w') →
  ∃ en, w_entries w !! e = Some en ∧
    decode_entry_state (sn_word (current en)) = EntryState.Allowed ∧ sn_payload (current en) = Some p.
Proof.
  intros Hwf [en He] Hrun. apply run_bind in Hrun as (now & w1 & Hn & Hrun).
  apply run_bind in Hrun as (sx & w3 & Hsx & Hrun).
  assert ((now ← D_now; entry_current_at e now) w = Some (sx, w3)) as Hcur
    by (unfold mbind, M_bind; by rewrite Hn).
  destruct (current_reads _ _ _ _ _ Hwf He Hcur) as [->|Hx].
  - exists en. split; [done|]. simpl in Hrun. case_bool_decide; simplify_eq/=. injection Hrun. by intros _ ->.
  - destruct sx as [cur x]. simpl in Hx. subst x. simpl in Hrun. by injection Hrun.
Qed.

(** C3. Nothing is admitted or denied but on the authority's word.  Whatever the
    clients, the watcher and the source do, in whatever order: when a handle
    reports allowed or denied, its entry is the one listed for some subject, and
    the source stated that decision of that subject, either as the last change
    the watch delivered, or as the answer to a lookup of that subject that
    started after that change and after the last time the watch opened or
    closed.  A payload it hands out comes with an allowing answer of that kind. *)
Theorem handles_speak_for_the_source config clock h w st e :
  deployment config clock → broadcast config clock h w st →
  is_Some (w_entries w !! e) →
  (∀ x w', admission_state e w = Some (x, w') → x ≠ AdmissionState.Stale →
     ∃ s r, listed_as w s e ∧ stated reply h w s r ∧
       (x = AdmissionState.Allowed ↔ decision r = Decision.Allowed)) ∧
  (∀ p w', admission_payload e w = Some (Some p, w') →
     ∃ s r, listed_as w s e ∧ stated reply h w s r ∧
       decision r = Decision.Allowed ∧ payload r = Some p).
Proof.
  intros Hdep Hb He.
  destruct (told_from_ok _ _ _ _ Hdep (broadcast_told _ _ _ _ _ Hdep Hb)) as [Hwf Hs]. split.
  - intros x w' Hrun Hx. destruct (state_reads _ _ _ _ Hwf He Hrun) as [->|(en & Hen & Hcase)]; [done|].
    destruct (in_force h w e en Hwf Hs Hen) as (s & r & Hl & Hr & Hst & _).
    { unfold holds_verdict. by destruct Hcase as [[_ ->]|[_ ->]]. }
    exists s, r. split; [done|]. split; [done|].
    destruct Hcase as [[-> Hd]|[-> Hd]]; rewrite Hd in Hst; by destruct (decision r).
  - intros p w' Hrun. destruct (payload_reads _ _ _ _ Hwf He Hrun) as (en & Hen & Hd & Hp).
    destruct (in_force h w e en Hwf Hs Hen) as (s & r & Hl & Hr & Hst & Hpay).
    { unfold holds_verdict. by rewrite Hd. }
    exists s, r. rewrite Hd in Hst. destruct (decision r) eqn:Hdr; [|done].
    rewrite bool_decide_true in Hpay by done. by rewrite <-Hpay.
Qed.

(** C13. The program follows the authority: every step of the watch loop, with
    the changes it delivers, and every step of a client is a step of [told], and
    the invariant [sourced] holds throughout. *)
Theorem program_follows_authority config clock h w st :
  deployment config clock → broadcast config clock h w st →
  told_from reply config clock h w ∧ sourced reply h w ∧
  ∀ env st' w', answers_faithful env → watch_step env st w = Some (st', w') →
    told_runs reply (h, w) (next_history env st st' w h, w').
Proof.
  intros Hdep Hb. pose proof (broadcast_told _ _ _ _ _ Hdep Hb) as Ht.
  destruct (told_from_ok _ _ _ _ Hdep Ht) as [Hwf Hs]. split; [done|]. split; [done|].
  intros env st' w' Hfa Hstep. by eapply watch_told.
Qed.
End authority.

(** ** Witnesses: the demo, with a source that allows everyone *)

Definition allowing : positive → result (option (DecisionResult nat)) DecisionSourceError :=
  λ _, Ok (Some (mkDecisionResult Decision.Allowed (Some 5%nat) None)).

Abbreviation demo_broadcast := (broadcast allowing demo_config demo_clock).

Lemma drive_broadcast fuel s h w wst st st' w' :
  demo_broadcast h w wst → wf w → pc_ok w s st →
  drive fuel s (answering Decision.Allowed) st w = Some (st', w') → demo_broadcast h w' wst.
Proof.
  revert st w. induction fuel as [|fuel IH]; intros st w Hb Hwf Hok Hrun; simpl in Hrun.
  { by injection Hrun as _ <-. }
  assert (Hstep : (x ← admit_step s (answering Decision.Allowed) st;
    drive fuel s (answering Decision.Allowed) x) w = Some (st', w') → demo_broadcast h w' wst).
  { intros (st1 & w1 & Hs & Hd)%run_bind.
    destruct (admit_step_ok w s (answering Decision.Allowed) st Hwf Hok)
      as (st2 & w2 & Hs2 & Hwf2 & _ & Hpost).
    rewrite Hs in Hs2. simplify_eq.
    assert (demo_broadcast h w2 wst) as Hb2
      by (eapply broadcast_client; [exact Hb|]; by apply (faithful_admit allowing w s (answering Decision.Allowed) st st2)).
    destruct Hpost as [[_ Hpost]|(a & _ & -> & ->)].
    - eapply IH; [exact Hb2|done| |exact Hd]. apply Hpost.
    - by eapply IH. }
  destruct (ad_pc st); try (by apply Hstep). by injection Hrun as _ <-.
Qed.

(** The watch opens and subject 7 is admitted. *)
Definition open_state : WatchState := p_state [Program.quiet].
Definition open_world : DemoWorld := p_world [Program.quiet].
Definition heard_world : DemoWorld := exec (admit_now 7 Decision.Allowed) open_world.

Definition first_state : WatchState := default open_state (value watch_begin demo_init).
Definition first_world : DemoWorld := exec watch_begin demo_init.

Lemma open_broadcast : demo_broadcast (silence 1) open_world open_state.
Proof.
  assert (Hb : demo_broadcast (silence 1) first_world first_state)
    by (apply broadcast_begin; vm_compute; reflexivity).
  assert (Hf : answers_faithful allowing Program.quiet)
    by (intros f answer Hin; by apply elem_of_nil in Hin).
  assert (Hs : watch_step Program.quiet first_state first_world = Some (open_state, open_world))
    by (vm_compute; reflexivity).
  exact (broadcast_watch _ _ _ _ _ _ _ _ _ Hb Hf Hs).
Qed.

Lemma heard_broadcast : demo_broadcast (silence 1) heard_world open_state.
Proof.
  destruct (told_from_ok allowing demo_config demo_clock (silence 1) open_world demo_deployment) as [Hwf _].
  { eapply broadcast_told; [apply demo_deployment|apply open_broadcast]. }
  destruct (admit_begin_from open_world open_world Hwf (reflexivity _)) as (st1 & w1 & Hb & Hwf1 & _ & _ & Hpc & _).
  assert (demo_broadcast (silence 1) w1 open_state) as Hb1.
  { eapply broadcast_client; [apply open_broadcast|]. apply faithful_local. by eapply step_admit_begin. }
  destruct (drive 8 7%nat (answering Decision.Allowed) st1 w1) as [[st2 w2]|] eqn:Hd.
  - replace heard_world with w2; [eapply (drive_broadcast 8 7%nat (silence 1) w1 open_state st1 st2 w2 Hb1 Hwf1); [apply Hpc|exact Hd]|].
    unfold heard_world, exec, admit_now, mbind, M_bind. by rewrite Hb, Hd.
  - exfalso. assert (is_Some (admit_now 7 Decision.Allowed open_world)) as [x Hx] by (vm_compute; eauto).
    unfold admit_now, mbind, M_bind in Hx. rewrite Hb, Hd in Hx. done.
Qed.

Lemma handles_speak_for_the_source_witness :
  value (admission_payload 1) heard_world = Some (Some 5%nat) ∧
  ∃ s r, listed_as heard_world s 1 ∧ stated allowing (silence 1) heard_world s r ∧
    decision r = Decision.Allowed ∧ payload r = Some 5%nat.
Proof.
  split; [vm_compute; reflexivity|].
  refine (proj2 (handles_speak_for_the_source allowing demo_config demo_clock (silence 1)
    heard_world open_state 1 _ _ _) 5%nat (exec (admission_payload 1) heard_world) _).
  - apply demo_deployment.
  - apply heard_broadcast.
  - vm_compute. eauto.
  - vm_compute. reflexivity.
Defined.

Lemma program_follows_authority_witness :
  told_from allowing demo_config demo_clock (silence 1) heard_world.
Proof.
  refine (proj1 (program_follows_authority allowing demo_config demo_clock (silence 1)
    heard_world open_state _ _)).
  - apply demo_deployment.
  - apply heard_broadcast.
Defined.
