(* ===== verification/Typed.v ===== *)
(** * Typed: what the stored fields may hold, in every reachable world

    The state in the packed word of an entry says what its other fields may hold
    ([well_typed]), and whatever the gate stores in a field of a machine type fits it
    ([in_range]).  [stored_ok] (the publication generation and the refresh times,
    [u64], and that a refresh has no cooldown) is part of what [quiet] preserves; here
    it is carried through the watch loop and to every reachable world, where the
    invariant [wf] adds the snapshots. *)

From S2P Require Export Authority.

Section typed.
Context {T P C : Type} `{Countable T, !LruCache T SubjectSlot C, !LruCacheOk T SubjectSlot C, TimeDriver}.
Implicit Types (w : World T P C) (e f n : positive) (s : T).
Implicit Types (st : WatchState) (c : Connection) (env : WatchEnv T P).

(** [quiet] without a word on who writes what. *)
Definition anyone (_ : positive) (_ : EntrySnapshot P) : Prop := True.
Definition anything (_ : positive) : Prop := True.
Abbreviation keeps := (quiet 1 anyone anything).
Abbreviation keeping m := (always keeps (m : M (World T P C) _)).

Lemma allocated_self w : allocated 1 w → allocated (w_next w) w.
Proof. intros []. by split. Qed.

Lemma keeps_quiet n ok busy w w' : (allocated 1 w → allocated n w) → quiet n ok busy w w' → keeps w w'.
Proof.
  intros Hal Hq Ha. destruct (Hq (Hal Ha)) as [[A1 A2 A3] Qc Qp _ Qk]. split.
  - split; [lia|done|done].
  - intros e en' _ _. by right.
  - intros e en' f _ _. right. lia.
  - intros f pf r Hb. by destruct Hb.
  - done.
Qed.

Lemma keeping_fetch_poll f answer alive : keeping (fetch_poll f answer alive).
Proof.
  intros w p w' Hrun Ha. destruct (w_fetches w !! f) as [pf|] eqn:Hf.
  - refine (keeps_quiet _ _ _ _ _ (allocated_self w) _ Ha).
    by eapply fetch_poll_writes; [apply allocated_self| |].
  - apply run_bind in Hrun as (pf & w1 & Hpf & _). unfold expect in Hpf. by rewrite Hf in Hpf.
Qed.
Hint Resolve keeping_fetch_poll : quiet.

Lemma keeping_refreshes polled l : keeping (refreshes_poll polled l).
Proof. revert l. induction polled as [|[f answer] polled IH]; intros l; simpl; quiet. Qed.
Hint Resolve keeping_refreshes : quiet.

Lemma keeping_recv limit : keeping (recv_many limit).
Proof. unfold recv_many. quiet. Qed.
Hint Resolve keeping_recv : quiet.
Lemma keeping_branch b c env : keeping (branch_poll b c env).
Proof. unfold branch_poll. quiet. Qed.
Hint Resolve keeping_branch : quiet.
Lemma keeping_select order c env : keeping (select_work order c env).
Proof. induction order as [|b order IH]; simpl; quiet. Qed.
Lemma keeping_open st : keeping (open_begin st).
Proof. unfold open_begin. quiet. Qed.
Lemma keeping_wire (err : DecisionSourceError) : keeping (emit_wire err).
Proof. unfold emit_wire. quiet. Qed.
Lemma keeping_change (c : DecisionChange T) : keeping (apply_change c).
Proof. by apply quiet_apply_change. Qed.
Hint Resolve keeping_select keeping_open keeping_wire keeping_change : quiet.

Lemma keeping_watch env st : keeping (watch_step env st).
Proof.
  unfold watch_step, watch_open, watch_opened, watch_serve, watch_work, watch_became_stable,
    watch_change, watch_lost, watch_down, watch_sleep. quiet.
Qed.

Lemma keeping_admit s (env : AdmitEnv P) (st : AdmitState) : keeping (admit_step s env st).
Proof.
  destruct (ad_pc st) as [?| |? ? ? ? ?|b e f|? ?|? ?|?] eqn:Hst;
    try (apply admit_step_quiet; intros g Hg; unfold waits_for in Hg; by rewrite Hst in Hg).
  unfold admit_step. rewrite Hst. unfold admit_wait, select_fetch. quiet.
Qed.

Lemma step_keeps w w' : gate_step w w' → keeps w w'.
Proof.
  assert (Hm : ∀ A (m : M (World T P C) A) a w1, keeping m → m w = Some (a, w1) → keeps w w1) by eauto.
  destruct 1 as [w' Hc|u w' Hr|u w' Hr|u w' Hr|c u w' Hr|st w' Hr|env st st' w' _ Hr|u w' Hr];
    [|eapply Hm; [|exact Hr]..].
  - destruct Hc as [w' Hl|f answer alive r w' _ Hr|s env st st' w' _ Hr].
    + by eapply keeps_quiet, local_quiet; [apply allocated_self|].
    + eapply Hm; [|exact Hr]. quiet.
    + eapply Hm; [|exact Hr]. apply keeping_admit.
  - quiet.
  - quiet.
  - quiet.
  - quiet.
  - unfold watch_begin. quiet.
  - apply keeping_watch.
  - unfold watcher_drop. quiet.
Qed.

Lemma steps_keep w w' : gate_steps w w' → keeps w w'.
Proof.
  induction 1 as [w|w1 w2 w3 Hs _ IH]; [reflexivity|].
  transitivity w2; [by apply step_keeps|exact IH].
Qed.

Lemma reachable_stored config clock w :
  deployment config clock → reachable config clock w → stored_ok w.
Proof.
  intros [Hty Hcap Hck] Hr.
  assert (allocated 1 (gate_new config clock : World T P C)) as Ha.
  { split; [done| |done]. intros f [pf Hf]. simpl in Hf. by rewrite lookup_empty in Hf. }
  apply (qc_stored _ _ _ _ _ (steps_keep _ _ Hr Ha)). split; [by vm_compute|..].
  - intros e en He. simpl in He. by rewrite lookup_empty in He.
  - intros f pf Hf. simpl in Hf. by rewrite lookup_empty in Hf.
Qed.

(** Every stored value of a machine type fits it. *)
Record in_range w : Prop := {
  ir_config : config_typed (w_config w);
  ir_generation : u64_range (generation (w_publish w));
  ir_word e en : w_entries w !! e = Some en → u64_range (sn_word (current en));
  ir_refresh_after e en : w_entries w !! e = Some en → u64_range (sn_refresh_after (current en));
  ir_not_before e en : w_entries w !! e = Some en → u64_range (refresh_not_before en);
}.

Lemma reachable_in_range config clock w :
  deployment config clock → reachable config clock w → in_range w.
Proof.
  intros Hdep Hr. pose proof (reachable_wf _ _ _ Hdep Hr) as Hwf.
  destruct (reachable_stored _ _ _ Hdep Hr) as [Hgen Hnb _].
  split; [apply Hwf|done|..|exact Hnb]; intros e en He;
    destruct (eo_snapshot _ _ _ (wf_entry _ Hwf _ _ He)) as (Hw & Hra & _); [done|].
  unfold u64_range, NO_EXPIRY in *. rewrite u64_max_val. lia.
Qed.


End typed.

