(* ===== verification/Settlement.v ===== *)
(** * Settlement: every claimed refresh is settled at last

    A refresh goes from the call that claimed it to the refresh queue and on to the
    watcher, never back and never to the end of the queue again ([flow]).  The
    claim is gone when its holder is dropped or polled past its queue deadline, when
    the watcher is given an answer or polls past the lookup's deadline, or when the
    connection is lost.  In a fair run one of these comes to every claim. *)

From S2P Require Export Typed Tasks.

Section flow.
Context {T P C : Type} `{Countable T, !LruCache T SubjectSlot C, !LruCacheOk T SubjectSlot C, TimeDriver}.
Abbreviation G := (M (World T P C)).
Implicit Types (w : World T P C) (e f g : positive) (s : T) (ad : AdmitState) (st : WatchState).
Implicit Types (hs : list (positive * positive)) (rs : list positive) (c : Connection).
Implicit Types (t : Task.t T) (y : System T P C).

(** ** One way

    How the lookup [f], which exists, may move between the calls that hold a claim
    ([hs]), the refresh queue and the watcher ([rs]). *)

Record flow f w hs rs w' hs' rs' : Prop := {
  fl_claim e : refresh_claim w' e f → refresh_claim w e f;
  fl_held : f ∈ hs'.*2 → f ∈ hs.*2;
  fl_queue i : w_refresh_queue w' !! i = Some f →
    f ∈ hs.*2 ∨ ∃ j, (i ≤ j)%nat ∧ w_refresh_queue w !! j = Some f;
  fl_driven : f ∈ rs' → f ∈ hs.*2 ∨ f ∈ w_refresh_queue w ∨ f ∈ rs;
}.

Lemma flow_refl f w hs rs : flow f w hs rs w hs rs.
Proof. split; auto. intros i Hi. right. by exists i. Qed.

Lemma flow_trans f w1 hs1 rs1 w2 hs2 rs2 w3 hs3 rs3 :
  flow f w1 hs1 rs1 w2 hs2 rs2 → flow f w2 hs2 rs2 w3 hs3 rs3 → flow f w1 hs1 rs1 w3 hs3 rs3.
Proof.
  intros [C1 H1 Q1 D1] [C2 H2 Q2 D2].
  assert (f ∈ w_refresh_queue w2 → f ∈ hs1.*2 ∨ f ∈ w_refresh_queue w1) as Hq.
  { intros [i Hi]%list_elem_of_lookup. destruct (Q1 _ Hi) as [?|(j & _ & Hj)]; [by left|right].
    by eapply list_elem_of_lookup_2. }
  split; [by auto|by auto|..].
  - intros i Hi. destruct (Q2 _ Hi) as [?|(j & Hij & Hj)]; [by auto|].
    destruct (Q1 _ Hj) as [?|(k & Hjk & Hk)]; [by left|right]. exists k. split; [lia|done].
  - intros [?|[?%Hq|?]]%D2; [by auto|tauto|by auto].
Qed.

(** What is done elsewhere, and what loses refreshes. *)
Lemma flow_books F N f w w' hs hs' rs rs' :
  books F N w w' → (∀ e, ¬ N e f) → (f ∈ hs'.*2 → f ∈ hs.*2) → (f ∈ rs' → f ∈ rs) →
  flow f w hs rs w' hs' rs'.
Proof.
  intros [_ Q _ _ _ _ Cl] HN Hh Hr. split; [|done|..|by auto].
  - intros e [Hn|?]%Cl; [by destruct (HN e)|done].
  - intros i Hi. rewrite Q in Hi. right. by exists i.
Qed.

Lemma flow_always {A} F (m : G A) f w a w' hs rs rs' :
  always (booked F no_claim) m → m w = Some (a, w') → taken w → (f ∈ rs' → f ∈ rs) →
  flow f w hs rs w' hs rs'.
Proof.
  intros Hm Hr Ht Hrs. apply (flow_books F no_claim); [by eapply run_books|by intros e []|done|done].
Qed.

Lemma flow_issued f w r w' hs rs :
  issued w r w' → is_Some (w_fetches w !! f) → flow f w hs rs w' (guard_of r ++ hs) rs.
Proof.
  intros [B Hr] [pf Hf]. assert (∀ e, ¬ fresh_guard r e f) as Hn.
  { intros e Hg. destruct r as [b|e' g q]; [done|]. destruct Hg as [-> ->], Hr. congruence. }
  eapply flow_books; [exact B|exact Hn| |done]. destruct r as [b|e g q]; [done|]. simpl.
  intros [->|?]%elem_of_cons; [|done]. by destruct (Hn e).
Qed.

Lemma flow_sent f w e g w' hs rs :
  books nothing_polled no_claim (queued g w) w' ∨ given_up w e g w' →
  flow f w ((e, g) :: hs) rs w' hs rs.
Proof.
  intros [B|[B Hno]].
  - eapply flow_trans; [|by apply (flow_books nothing_polled no_claim f (queued g w) w' hs); [|by intros x []|..]].
    split; [done|by right| |by auto]. intros i Hi. simpl in Hi.
    apply lookup_app_Some in Hi as [Hi|[Hlen Hi]]; [right; by exists i|left].
    apply list_lookup_singleton_Some in Hi as [_ ->]. by left.
  - destruct B as [_ Q _ _ _ _ Cl]. split; [|by right| |by auto].
    + intros x Hc. destruct (Cl _ _ Hc) as [[-> ->]|?]; [|done]. by destruct (Hno e), Hc.
    + intros i Hi. rewrite Q in Hi. right. by exists i.
Qed.

(** ** The admission loop *)

Lemma admit_step_flow f s env ad w ad' w' hs rs :
  wf w → task_ok w (Task.Admitting s ad) → (∀ e g, guard_of (pc_access ad) = [(e, g)] → holding w e g) →
  is_Some (w_fetches w !! f) → admit_step s env ad w = Some (ad', w') →
  flow f w (guard_of (pc_access ad) ++ hs) rs w' (guard_of (pc_access ad') ++ hs) rs.
Proof.
  intros Hwf (_ & _ & Hfirst) Hg Hf Hrun. pose proof (wf_taken _ Hwf) as Ht. unfold admit_step in Hrun.
  assert (Hissue : pc_access ad = Access.Done None → issued w (pc_access ad') w' →
    flow f w (guard_of (pc_access ad) ++ hs) rs w' (guard_of (pc_access ad') ++ hs) rs).
  { intros Hd Hi. rewrite Hd. by apply flow_issued. }
  unfold pc_access in Hg, Hissue |- * at 1.
  destruct (ad_pc ad) as [b| |b e g q t|b e g|e r|b wake|a] eqn:Had; simpl in Hg.
  - apply Hissue; [done|]. by eapply issuing_admit_connect.
  - apply Hissue; [done|]. by eapply issuing_admit_insert.
  - destruct (admit_access_outcome _ _ _ _ _ _ _ _ _ _ Ht (Hg _ _ eq_refl) Hrun) as [[-> B]|[-> Hs]]; simpl.
    + by apply (flow_books nothing_polled no_claim); [|by intros x []|..].
    + by apply flow_sent.
  - destruct (admit_wait_outcome _ _ _ _ _ _ _ _ _ Ht Hrun) as (w0 & w1 & Hc & B0 & Hw & Hi & _).
    assert (books (λ _, True) no_claim w w1) as B1.
    { assert (books (λ _, True) no_claim w w0) as B0' by by apply (books_weaken nothing_polled no_claim).
      destruct Hw as [->|[r Hp]]; [done|]. eapply books_trans; [exact B0'|].
      by eapply run_books; [by apply booked_fetch_poll|exact Hp|apply B0]. }
    eapply flow_trans; [by apply (flow_books _ _ f _ _ hs hs rs rs B1); [by intros x []|..]|].
    apply flow_issued; [apply Hi, B1|]. destruct Hf as [pf Hf].
    destruct (bk_fetch _ _ _ _ B1 _ _ Hf) as (pf' & ? & _). by exists pf'.
  - apply Hissue; [done|]. by eapply issuing_admit_settle.
  - apply Hissue; [done|]. by eapply issuing_admit_backoff.
  - injection Hrun as <- <-. unfold pc_access. rewrite Had. apply flow_refl.
Qed.
End flow.

Section watch_flow.
Context {T P C : Type} `{Countable T, !LruCache T SubjectSlot C, !LruCacheOk T SubjectSlot C, TimeDriver}.
Abbreviation G := (M (World T P C)).
Implicit Types (w : World T P C) (e f g : positive) (s : T) (st : WatchState).
Implicit Types (hs : list (positive * positive)) (rs : list positive) (c : Connection).
Implicit Types (env : WatchEnv T P) (y : System T P C) (t : Task.t T) (l k : list (Task.t T)).

(** ** The watch loop *)

Lemma booked_refreshes_poll polled rs : always (booked anything no_claim) (refreshes_poll polled rs : G _).
Proof.
  induction polled as [|[f answer] polled IH]; simpl; [booked|].
  destruct (list_remove f rs); [|done]. apply always_bind; [apply _|by apply booked_fetch_poll|].
  intros [x|]; [booked|done].
Qed.

Lemma refreshes_poll_sub polled rs w rest w' :
  refreshes_poll polled rs w = Some (Poll.Ready rest, w') → rest ⊆ rs.
Proof.
  revert w. induction polled as [|[f answer] polled IH]; intros w Hrun; simpl in Hrun; [done|].
  destruct (list_remove f rs) as [l|] eqn:Hl; [|by eapply IH].
  apply run_bind in Hrun as ([x|] & w1 & _ & Hrun); [|by eapply IH]. injection Hrun as <- _.
  apply list_remove_Permutation in Hl. intros g Hg. rewrite Hl. by right.
Qed.

Lemma flow_received f w hs rs n :
  flow f w hs rs (set_refresh_queue (drop n (w_refresh_queue w)) w) hs (rs ++ take n (w_refresh_queue w)).
Proof.
  split; [done|done|..].
  - intros i Hi. simpl in Hi. rewrite lookup_drop in Hi. right. exists (n + i)%nat. split; [lia|done].
  - intros [?|Hf]%elem_of_app; [by auto|]. right. left. by eapply elem_of_take in Hf as (? & ? & ?); eauto using list_elem_of_lookup_2.
Qed.

Lemma branch_poll_flow f b c env w r w' hs :
  taken w → branch_poll b c env w = Some (r, w') →
  flow f w hs (refreshes c) w' hs (refreshes_after c r) ∧ taken w'.
Proof.
  intros Ht Hrun.
  assert (Hquiet : always (booked anything no_claim) (branch_poll b c env : G _) →
    (f ∈ refreshes_after c r → f ∈ refreshes c) →
    flow f w hs (refreshes c) w' hs (refreshes_after c r) ∧ taken w').
  { intros Hm Hrs. split; [by eapply flow_always|]. by eapply Hm. }
  destruct b; simpl in Hrun.
  - apply Hquiet; [simpl; booked|]. destruct (stable_timer c); [|by injection Hrun as <- _].
    apply run_bind in Hrun as (now & w1 & _ & Hrun). injection Hrun as <- _. by destruct (sleep_poll _ _).
  - apply run_bind in Hrun as (limit & w1 & Hl & Hrun). injection Hl as _ <-.
    apply run_bind in Hrun as (batch & w1 & Hb & Hrun). injection Hrun as <- <-.
    unfold recv_many, gets, mbind, M_bind in Hb. destruct (limit =? 0).
    { injection Hb as <- <-. simpl. rewrite app_nil_r. split; [apply flow_refl|done]. }
    destruct (w_refresh_queue w) as [|g q] eqn:Hq.
    { injection Hb as <- <-. destruct (w_refresh_open w); simpl; rewrite ?app_nil_r;
        (split; [apply flow_refl|done]). }
    injection Hb as <- <-. simpl. rewrite <-Hq. split; [apply flow_received|by destruct Ht].
  - apply Hquiet; [simpl; apply always_bind; [apply _|apply booked_refreshes_poll|booked]|].
    apply run_bind in Hrun as (rest & w1 & Hr & Hrun). injection Hrun as <- _.
    destruct rest as [rest|]; [|done]. simpl. by apply (refreshes_poll_sub _ _ _ _ _ Hr).
  - apply Hquiet; [simpl; booked|]. injection Hrun as <- _. by destruct (we_item env).
Qed.

Lemma select_work_flow f order c env w r w' hs :
  taken w → select_work order c env w = Some (r, w') →
  flow f w hs (refreshes c) w' hs (refreshes_after c r) ∧ taken w'.
Proof.
  revert w. induction order as [|b order IH]; intros w Ht Hrun; simpl in Hrun.
  { injection Hrun as <- <-. split; [apply flow_refl|done]. }
  apply run_bind in Hrun as (x & w1 & Hx & Hrun).
  destruct (branch_poll_flow f b c env w x w1 hs Ht Hx) as [Hfl Ht1].
  destruct x as [work|]; [by injection Hrun as <- <-|].
  destruct (IH w1 Ht1 Hrun) as [Hfl' Ht']. split; [|done]. by eapply flow_trans.
Qed.

Lemma booked_watch_work c work st : always (booked anything no_claim) (watch_work c work st : G _).
Proof.
  pose proof (booked_emit_wire (T:=T) (P:=P) (C:=C) anything no_claim).
  destruct work as [|[|g batch]|rest|[[change|err]|]]; simpl;
    unfold watch_became_stable, watch_lost, watch_change; booked.
Qed.

Lemma watch_lost_driven st w st' w' : watch_lost st w = Some (st', w') → driven st' = [].
Proof. intros (u & w1 & _ & Hrun)%run_bind. by injection Hrun as <- _. Qed.

(** The work keeps the refreshes of the branch, or drops them all. *)
Lemma watch_work_driven c work st w st' w' :
  watch_work c work st w = Some (st', w') →
  driven st' = refreshes_after c (Poll.Ready work) ∨ driven st' = [].
Proof.
  intros Hrun. destruct work as [|[|g batch]|rest|[[change|err]|]]; simpl in Hrun |- *.
  - left. do 2 apply run_bind in Hrun as (? & ? & _ & Hrun). by injection Hrun as <- _.
  - right. by eapply watch_lost_driven.
  - left. by injection Hrun as <- _.
  - left. by injection Hrun as <- _.
  - left. do 3 apply run_bind in Hrun as (? & ? & _ & Hrun). injection Hrun as <- _. by case_match.
  - right. apply run_bind in Hrun as (? & ? & _ & Hrun). by eapply watch_lost_driven.
  - right. by eapply watch_lost_driven.
Qed.

Lemma watch_step_flow f env st w st' w' hs :
  taken w → watch_step env st w = Some (st', w') → flow f w hs (driven st) w' hs (driven st').
Proof.
  intros Ht Hrun. unfold watch_step in Hrun. destruct (ws_pc st) as [first d|c|c| |wake] eqn:Hpc.
  - eapply (flow_always anything); [apply booked_watch_open|exact Hrun|done|].
    rewrite (watch_open_driven _ _ _ _ _ _ _ Hrun). by intros Hf%elem_of_nil.
  - assert (driven st = refreshes c) as -> by (unfold driven; by rewrite Hpc).
    apply run_bind in Hrun as (r & w1 & Hr & Hrun).
    destruct (select_work_flow f (we_order env) c env w r w1 hs Ht Hr) as [Hfl Ht1].
    eapply flow_trans; [exact Hfl|]. destruct r as [work|].
    + eapply flow_always; [apply booked_watch_work|exact Hrun|done|].
      destruct (watch_work_driven _ _ _ _ _ _ Hrun) as [->| ->]; [done|by intros Hf%elem_of_nil].
    + injection Hrun as <- <-. unfold driven. rewrite Hpc. apply flow_refl.
  - assert (w' = w ∧ driven st' = driven st) as [-> ->].
    { injection Hrun as <- <-. split; [done|]. destruct (we_yielded env); [|done].
      unfold driven. by rewrite Hpc. }
    apply flow_refl.
  - eapply (flow_always anything); [|exact Hrun|done|].
    + unfold watch_down. booked.
    + do 2 apply run_bind in Hrun as (? & ? & _ & Hrun). injection Hrun as <- _. by intros Hf%elem_of_nil.
  - eapply (flow_always anything); [apply booked_watch_sleep|exact Hrun|done|].
    apply run_bind in Hrun as (now & w1 & _ & Hrun). destruct (sleep_poll _ _).
    + do 3 apply run_bind in Hrun as (? & ? & _ & Hrun). injection Hrun as <- _.
      by intros Hf%elem_of_nil.
    + by injection Hrun as <- _.
Qed.
End watch_flow.

(** ** One step of the system *)

Section settlement.
Context {T P C : Type} `{Countable T, !LruCache T SubjectSlot C, !LruCacheOk T SubjectSlot C,
  TimeDriver, !TimeDriverOk}.
Abbreviation G := (M (World T P C)).
Implicit Types (w : World T P C) (e f g : positive) (s : T) (ad : AdmitState) (st : WatchState).
Implicit Types (t : Task.t T) (l k : list (Task.t T)) (h : list positive) (y : System T P C).
Implicit Types (hs : list (positive * positive)) (rs : list positive).

Definition flows f y y' : Prop :=
  flow f (sy_world y) (held (sy_tasks y)) (driven (sy_watch y))
    (sy_world y') (held (sy_tasks y')) (driven (sy_watch y')).

Lemma flow_perm f w hs hs0 rs w' hs' hs0' rs' :
  hs ≡ₚ hs0 → hs' ≡ₚ hs0' → flow f w hs0 rs w' hs0' rs' → flow f w hs rs w' hs' rs'.
Proof. intros Hp Hp' [Cl Hh Q D]. split; [done|..]; intros *; rewrite ?Hp, ?Hp'; auto. Qed.

(** A call is replaced by what is left of it. *)
Lemma flow_replace f w st st' l k t l' w' h h' :
  (∀ hs, flow f w (task_guard t ++ hs) (driven st) w' (held l' ++ hs) (driven st')) →
  flows f (mkSystem w st (l ++ t :: k) h) (mkSystem w' st' (l ++ l' ++ k) h').
Proof. intros Hf. eapply flow_perm; [apply held_middle|apply held_replace|]. apply Hf. Qed.

(** What leaves the calls alone, or replaces one without a claim by another. *)
Lemma flow_quiet {A} (m : G A) f w st l l' h h' a w' :
  always (booked nothing_polled no_claim) m → m w = Some (a, w') → wf w → held l' ≡ₚ held l →
  flows f (mkSystem w st l h) (mkSystem w' st l' h').
Proof.
  intros Hm Hr Hwf Hp. eapply flow_perm; [reflexivity|exact Hp|].
  by eapply flow_always; [exact Hm|exact Hr|by apply wf_taken|].
Qed.

(** A call begins. *)
Lemma flow_begin f (m : G Access.t) s w st l h h' r w' :
  issuing id m → m w = Some (r, w') → wf w → is_Some (w_fetches w !! f) →
  flows f (mkSystem w st l h) (mkSystem w' st (access_task s r ++ l) h').
Proof.
  intros Hm Hr Hwf Hf. unfold flows. simpl. rewrite held_app, held_access.
  apply flow_issued; [|done]. by eapply Hm; [apply wf_taken|].
Qed.

(** The claim a suspended call holds. *)
Lemma sys_holding w st l k h t e f :
  sys_ok (mkSystem w st (l ++ t :: k) h) → task_guard t = [(e, f)] → holding w e f.
Proof.
  intros Hok Hg. pose proof (accounts_perm _ _ _ _ _ (held_middle l k t) (so_accounts _ Hok)) as Ha.
  rewrite Hg in Ha. by eapply accounts_holding.
Qed.

Lemma flow_drop f w st l k h t e g u w' :
  sys_ok (mkSystem w st (l ++ t :: k) h) → task_guard t = [(e, g)] →
  release_claim e g w = Some (u, w') →
  flows f (mkSystem w st (l ++ t :: k) h) (mkSystem w' st (l ++ k) h).
Proof.
  intros Hok Hg Hr. apply (flow_replace f w st st l k t []). intros hs. rewrite Hg.
  apply flow_sent. right. eapply holding_release; [apply wf_taken, Hok| |exact Hr].
  by eapply sys_holding.
Qed.

Lemma admit_poll_flow f w st l k h s ad env ad' w' :
  sys_ok (mkSystem w st (l ++ Task.Admitting s ad :: k) h) → is_Some (w_fetches w !! f) →
  admit_step s env ad w = Some (ad', w') →
  flows f (mkSystem w st (l ++ Task.Admitting s ad :: k) h)
    (mkSystem w' st (l ++ admit_task s ad' ++ k) (admit_handle ad' ++ h)).
Proof.
  intros Hok Hf Hr. apply flow_replace. intros hs. rewrite held_admit.
  eapply (admit_step_flow f s env ad); [apply Hok|by eapply sys_ok_sub| |done|exact Hr].
  intros e g Hg. by eapply sys_holding.
Qed.

Lemma admit_drop_flow f w st l k h s ad u w' :
  sys_ok (mkSystem w st (l ++ Task.Admitting s ad :: k) h) → admit_cancel ad w = Some (u, w') →
  flows f (mkSystem w st (l ++ Task.Admitting s ad :: k) h) (mkSystem w' st (l ++ k) h).
Proof.
  intros Hok Hr. destruct (pc_access ad) as [b|e g q] eqn:Hacc.
  - assert (w' = w) as -> by (unfold admit_cancel in Hr; unfold pc_access in Hacc;
      destruct (ad_pc ad); try done; by injection Hr as _ <-).
    apply (flow_replace f w st st l k _ []). intros hs. simpl. rewrite Hacc. apply flow_refl.
  - eapply flow_drop; [exact Hok|simpl; by rewrite Hacc|].
    unfold admit_cancel in Hr. unfold pc_access in Hacc. destruct (ad_pc ad); try done.
    by injection Hacc as -> -> ->.
Qed.

Lemma access_poll_flow f w st l k h s first e g q send r w' :
  sys_ok (mkSystem w st (l ++ Task.Accessing s first e g q :: k) h) →
  access_poll first e g q send w = Some (r, w') →
  flows f (mkSystem w st (l ++ Task.Accessing s first e g q :: k) h)
    (mkSystem w' st (l ++ poll_task s e g q r ++ k) (poll_handle r ++ h)).
Proof.
  intros Hok Hr. apply flow_replace. intros hs. simpl.
  pose proof (access_poll_outcome _ _ _ _ _ _ _ _ (wf_taken _ (so_wf _ Hok))
    (sys_holding _ _ _ _ _ _ _ _ Hok eq_refl) Hr) as Ho.
  destruct r as [a|]; simpl; [by apply flow_sent|].
  by apply (flow_books nothing_polled no_claim); [|by intros x []|..].
Qed.

Lemma sys_step_flow f y y' :
  sys_ok y → is_Some (w_fetches (sy_world y) !! f) → sys_step y y' → flows f y y'.
Proof.
  intros Hok Hf Hstep. destruct Hstep as
    [w st l h s ad w' Hr|w st l k h s ad env ad' w' Hr|w st l k h s ad u w' Hr|w st l h s r w' Hr
    |w st l h s e r w' He Hr|w st l k h s first e g q send r w' Hr|w st l k h s first e g q u w' Hr
    |w st l h s r w' Hr|w st l h e r w' He Hr|w st l h e r w' He Hr|w st l h e r w' He Hr
    |w st l h e u w' He Hr|w st l h v r w' Hr|w st l h r w' Hr|w st l k h g m w' Hr
    |w st l k h g m u w' Hr|w st l h env st' w' Hr]; simpl in Hf; pose proof (so_wf _ Hok) as Hwf;
    simpl in Hwf;
    [|by eapply admit_poll_flow|by eapply admit_drop_flow
     |by eapply flow_begin; [apply issuing_check_begin|..]
     |by eapply flow_begin; [apply issuing_refresh_entry|..]
     |by eapply access_poll_flow|by eapply flow_drop
     |eapply flow_quiet; [|exact Hr|exact Hwf|]..|by eapply watch_step_flow; [apply wf_taken|]].
  - eapply flow_quiet; [apply closed_admit_begin, _|exact Hr|done|].
    destruct (run_from_run _ _ _ _ _ _ (admit_begin_from w w Hwf (reflexivity w)) Hr)
      as (_ & _ & _ & _ & Hc).
    rewrite held_app, held_admit. unfold pc_access. by destruct Hc as [->| ->].
  - apply closed_check_without_refresh, _.
  - done.
  - apply closed_admission_state, _.
  - done.
  - apply closed_admission_check, _.
  - done.
  - apply closed_payload, _.
  - done.
  - apply ro_invalidate.
  - done.
  - apply health_booked.
  - done.
  - apply closed_republish_claim, _.
  - by destruct r.
  - apply closed_republish_copy, _.
  - by rewrite !held_middle.
  - apply closed_republish_store, _.
  - by rewrite held_middle.
Qed.

(** ** The owner attends to the refresh

    The call that holds the claim is dropped, or polled past its queue deadline;
    the watcher receives from the queue the refresh is in; it polls the refresh
    with an answer of the source or past the lookup's deadline; or it retires what
    the lost connection left. *)

Definition due w f (answer : Answer.t P) : Prop :=
  answer ≠ Answer.Waiting ∨
  ∃ pf first d, w_fetches w !! f = Some pf ∧ pf_phase pf = FetchPhase.Lookup first (Some d) ∧
    d ≤ w_clock w (w_reads w).

Inductive attends f : System T P C → System T P C → Prop :=
| att_access_poll w st l k h s first e q send r w' :
    q ≤ w_clock w (w_reads w) → access_poll first e f q send w = Some (r, w') →
    attends f (mkSystem w st (l ++ Task.Accessing s first e f q :: k) h)
      (mkSystem w' st (l ++ poll_task s e f q r ++ k) (poll_handle r ++ h))
| att_access_drop w st l k h s first e q u w' :
    access_cancel e f w = Some (u, w') →
    attends f (mkSystem w st (l ++ Task.Accessing s first e f q :: k) h)
      (mkSystem w' st (l ++ k) h)
| att_admit_poll w st l k h s ad first e q timed env ad' w' :
    ad_pc ad = AdmitPc.Access first e f q timed → q ≤ w_clock w (w_reads w) →
    admit_step s env ad w = Some (ad', w') →
    attends f (mkSystem w st (l ++ Task.Admitting s ad :: k) h)
      (mkSystem w' st (l ++ admit_task s ad' ++ k) (admit_handle ad' ++ h))
| att_admit_drop w st l k h s ad first e q timed u w' :
    ad_pc ad = AdmitPc.Access first e f q timed → admit_cancel ad w = Some (u, w') →
    attends f (mkSystem w st (l ++ Task.Admitting s ad :: k) h) (mkSystem w' st (l ++ k) h)
| att_batch w st l h c env order st' w' :
    ws_pc st = WatchPc.Serve c → f ∈ w_refresh_queue w → we_order env = Branch.Batch :: order →
    watch_step env st w = Some (st', w') →
    attends f (mkSystem w st l h) (mkSystem w' st' l h)
| att_answer w st l h c env order answer polled st' w' :
    ws_pc st = WatchPc.Serve c → f ∈ refreshes c → we_order env = Branch.Refresh :: order →
    we_polled env = (f, answer) :: polled → due w f answer →
    watch_step env st w = Some (st', w') →
    attends f (mkSystem w st l h) (mkSystem w' st' l h)
| att_lost w st l h env st' w' :
    ws_pc st = WatchPc.Down → watch_step env st w = Some (st', w') →
    attends f (mkSystem w st l h) (mkSystem w' st' l h).

Lemma attends_step f y y' : attends f y y' → sys_step y y'.
Proof.
  destruct 1; [by eapply sys_access_poll|by eapply sys_access_drop|by eapply sys_admit_poll
    |by eapply sys_admit_drop|by eapply sys_watch..].
Qed.

(** *** What comes of it *)

Definition claimed y f : Prop := ∃ e, refresh_claim (sy_world y) e f.

Lemma given_up_unclaimed w e f w' : given_up w e f w' → ∀ x, ¬ refresh_claim w' x f.
Proof. intros [_ Hno] x [Ho _]. by apply (Hno x). Qed.

Lemma access_poll_late first e f q send w r w' :
  taken w → holding w e f → q ≤ w_clock w (w_reads w) →
  access_poll first e f q send w = Some (r, w') → given_up w e f w' ∧ ∃ a, r = Poll.Ready a.
Proof.
  intros Ht Hh Hq (now & w1 & Hnow & Hrun)%run_bind.
  pose proof (run_books nothing_polled no_claim _ _ _ _ (closed_now _) Hnow Ht) as B1.
  injection Hnow as <- <-. rewrite timeout_at_poll_eq, (proj2 (Z.leb_le _ _) Hq) in Hrun.
  apply run_bind in Hrun as (a & w2 & Ha & Hrun). apply run_bind in Hrun as (u & w3 & Hu & Hrun).
  injection Hrun as <- <-. split; [by eapply admission_given_up|by exists a].
Qed.

(** A poll that is due ends the lookup. *)
Lemma fetch_finish_ready f pf alive r w p w' :
  fetch_finish (T:=T) (P:=P) (C:=C) f pf alive r w = Some (p, w') → ∃ x, p = Poll.Ready x.
Proof.
  unfold fetch_finish. intros Hrun. do 4 apply run_bind in Hrun as (? & ? & _ & Hrun).
  injection Hrun as <- _. by eexists.
Qed.

Lemma poll_lookup_due f pf first d answer alive w p w' :
  answer ≠ Answer.Waiting ∨ (∃ d', d = Some d' ∧ d' ≤ w_clock w (w_reads w)) →
  fetch_poll_lookup f pf first d answer alive w = Some (p, w') → ∃ x, p = Poll.Ready x.
Proof.
  intros Hd (now & w1 & Hnow & Hrun)%run_bind. injection Hnow as <- <-.
  assert (∃ x, timeout_poll first d (w_clock w (w_reads w)) (answer_poll answer) = Poll.Ready x) as [x Hx].
  { destruct Hd as [Ha|(d' & -> & Hd)].
    - assert (∃ r, answer_poll answer = Poll.Ready r) as [r ->] by (destruct answer; simpl; eauto; done).
      destruct d as [d|]; simpl; [|eauto]. rewrite timeout_at_poll_eq. destruct (_ <=? _); simpl; eauto.
    - simpl. rewrite timeout_at_poll_eq, (proj2 (Z.leb_le _ _) Hd). eauto. }
  rewrite Hx in Hrun. apply run_bind in Hrun as (r & w2 & _ & Hrun). by eapply fetch_finish_ready.
Qed.

Lemma fetch_poll_due f pf answer alive w p w' :
  w_fetches w !! f = Some pf → is_Some (pf_refresh_from pf) → undelayed pf → due w f answer →
  fetch_poll f answer alive w = Some (p, w') → ∃ x, p = Poll.Ready x.
Proof.
  intros Hf Hr Hp Hd Hrun. destruct (Hp Hr) as [Hdel Hph].
  apply run_bind in Hrun as (pf0 & w1 & Hpf & Hrun). unfold expect in Hpf. rewrite Hf in Hpf.
  injection Hpf as <- <-.
  assert (Hab : (_ ← fetch_set_phase f (FetchPhase.Done (Err tt)); mret (Poll.Ready (Err tt))) w
    = Some (p, w') → ∃ x, p = Poll.Ready x).
  { intros (u & w1 & _ & Hrun1)%run_bind. injection Hrun1 as <- _. by eexists. }
  destruct (pf_phase pf) as [|d|first d|r] eqn:Hphase;
    [..|injection Hrun as <- _; by eexists]; (destruct (pf_aborted pf); [by apply Hab|]).
  - rewrite Hdel in Hrun. do 3 apply run_bind in Hrun as (? & ? & _ & Hrun).
    eapply poll_lookup_due; [|exact Hrun]. left.
    destruct Hd as [?|(pf1 & first & d & Hf1 & Hl & _)]; [done|]. congruence.
  - by destruct (Hph d).
  - eapply poll_lookup_due; [|exact Hrun].
    destruct Hd as [?|(pf1 & first1 & d1 & Hf1 & Hl & Hc)]; [by left|right]. simplify_eq.
    rewrite Hphase in Hl. injection Hl as _ ->. by exists d1.
Qed.

Lemma select_first b order c env w r w' work :
  we_order env = b :: order → branch_poll b c env w = Some (Poll.Ready work, w') →
  select_work (we_order env) c env w = Some (r, w') → r = Poll.Ready work.
Proof.
  intros -> Hb Hs. simpl in Hs. rewrite (run_bind_step _ _ _ _ _ Hb) in Hs. by injection Hs as <-.
Qed.

Lemma watch_answer_settles f y w st l h c env order answer polled st' w' :
  y = mkSystem w st l h → sys_ok y → stored_ok w → ws_pc st = WatchPc.Serve c → f ∈ refreshes c →
  we_order env = Branch.Refresh :: order → we_polled env = (f, answer) :: polled →
  due w f answer → watch_step env st w = Some (st', w') → ∀ e, ¬ refresh_claim w' e f.
Proof.
  intros -> Hok Hst Hpc Hf Hord Hpol Hdue Hrun. pose proof Hok as [Hwf Ha _ _]. simpl in Hwf, Ha.
  assert (f ∈ owners w (held l) (driven st)) as Hown.
  { unfold owners, driven. rewrite Hpc, !elem_of_app. by auto. }
  destruct (ac_owner _ _ _ _ Ha f Hown) as [Hacc (pf & Hpf & Hr)].
  unfold watch_step in Hrun. rewrite Hpc in Hrun. unfold watch_serve in Hrun.
  apply run_bind in Hrun as (r & w1 & Hsel & Hrun). rewrite Hord in Hsel.
  apply run_bind in Hsel as (x & w2 & Hbr & Hsel). apply run_bind in Hbr as (y & w3 & Hy & Hbr).
  injection Hbr as <- <-. rewrite Hpol in Hy. simpl in Hy.
  destruct (list_remove_elem_of f (refreshes c) Hf) as [rest Hrest]. rewrite Hrest in Hy.
  apply run_bind in Hy as (p & w4 & Hp & Hy).
  destruct (fetch_poll_due f pf answer true w p w4) as [z ->]; [done|done| |done|done|].
  { by eapply st_undelayed. }
  injection Hy as <- <-. injection Hsel as <- <-. injection Hrun as _ <-.
  destruct (fetch_poll_moves w f answer _ w4 Hwf (ac_ledger _ _ _ _ Ha) Hacc Hp) as (_ & _ & Hno).
  eapply Hno; [done|]. by exists pf.
Qed.

Lemma watch_down_unclaimed env st w st' w' f :
  wf w → watch_down env st w = Some (st', w') → ∀ e, ¬ refresh_claim w' e f.
Proof.
  intros Hwf (u & w1 & Hu & Hrun)%run_bind e [(en & He & Hp) _].
  apply run_bind in Hrun as (now & w2 & Hnow & Hrun). injection Hnow as _ <-. injection Hrun as _ <-.
  destruct (run_from_run _ _ _ _ _ _ (watch_disconnected_from w w Hwf (reflexivity w)) Hu)
    as (Hwf1 & _ & _ & _ & Hs & _).
  pose proof (pending_listed _ _ _ _ Hwf1 He Hp) as Hl. unfold listed in Hl. rewrite Hs in Hl.
  by apply elem_of_nil in Hl.
Qed.

(** Received from the queue: every place in it moves up. *)
Lemma watch_batch_moves_up f env order c st w st' w' :
  ws_pc st = WatchPc.Serve c → f ∈ w_refresh_queue w → 0 < refresh_queue_capacity (w_config w) →
  we_order env = Branch.Batch :: order → watch_step env st w = Some (st', w') →
  ∀ j, w_refresh_queue w' !! j = Some f → ∃ i, (j < i)%nat ∧ w_refresh_queue w !! i = Some f.
Proof.
  intros Hpc Hf Hcap Hord Hrun j Hj. unfold watch_step in Hrun. rewrite Hpc in Hrun.
  apply run_bind in Hrun as (r & w1 & Hsel & Hrun). rewrite Hord in Hsel.
  apply run_bind in Hsel as (x & w2 & Hbr & Hsel). apply run_bind in Hbr as (n & w3 & Hn & Hbr).
  injection Hn as <- <-. apply run_bind in Hbr as (b & w4 & Hb & Hbr). injection Hbr as <- <-.
  unfold recv_many, gets, mbind, M_bind in Hb.
  rewrite (proj2 (Z.eqb_neq _ _) (Z.neq_sym _ _ (Z.lt_neq _ _ Hcap))) in Hb.
  destruct (w_refresh_queue w) as [|g q] eqn:Hq; [by apply elem_of_nil in Hf|].
  injection Hb as <- <-. injection Hsel as <- <-.
  assert (w_refresh_queue w' = drop (Z.to_nat (refresh_queue_capacity (w_config w))) (g :: q)) as Hw'.
  { rewrite <-Hq in *. clear Hq. destruct (take _ _) as [|g' b]; simpl in Hrun.
    - apply run_bind in Hrun as (u & w5 & Hu & Hrun). injection Hu as _ <-. by injection Hrun as _ <-.
    - by injection Hrun as _ <-. }
  rewrite Hw', lookup_drop in Hj. eexists. split; [|exact Hj]. lia.
Qed.

Lemma attends_settles f y y' :
  sys_ok y → stored_ok (sy_world y) → 0 < refresh_queue_capacity (w_config (sy_world y)) →
  attends f y y' →
  ¬ claimed y' f ∨
  f ∈ w_refresh_queue (sy_world y) ∧
  ∀ j, w_refresh_queue (sy_world y') !! j = Some f →
    ∃ i, (j < i)%nat ∧ w_refresh_queue (sy_world y) !! i = Some f.
Proof.
  intros Hok Hst Hcap Hatt.
  assert (∀ w', sy_world y' = w' → (∀ e, ¬ refresh_claim w' e f) → ¬ claimed y' f) as Hun.
  { intros w' <- Hno [e He]. by apply (Hno e). }
  assert (∀ w st l k h t e, y = mkSystem w st (l ++ t :: k) h → task_guard t = [(e, f)] →
    taken w ∧ holding w e f) as Hhold.
  { intros w st l k h t e -> Hg. split; [apply wf_taken, Hok|by eapply sys_holding]. }
  destruct Hatt as [w st l k h s first e q send r w' Hq Hr|w st l k h s first e q u w' Hr
    |w st l k h s ad first e q timed env ad' w' Had Hq Hr|w st l k h s ad first e q timed u w' Had Hr
    |w st l h c env order st' w' Hpc Hf Hord Hr
    |w st l h c env order answer polled st' w' Hpc Hf Hord Hpol Hdue Hr|w st l h env st' w' Hpc Hr];
    simpl in *; [left; apply (Hun w'); [done|]..|right|left; apply (Hun w'); [done|]
      |left; apply (Hun w'); [done|]].
  - destruct (Hhold w st l k h _ e eq_refl eq_refl) as [Ht Hh].
    by eapply given_up_unclaimed, access_poll_late.
  - destruct (Hhold w st l k h _ e eq_refl eq_refl) as [Ht Hh].
    by eapply given_up_unclaimed, holding_release.
  - destruct (Hhold w st l k h (Task.Admitting s ad) e eq_refl) as [Ht Hh].
    { simpl. unfold pc_access. by rewrite Had. }
    unfold admit_step in Hr. rewrite Had in Hr. apply run_bind in Hr as (x & w1 & Hx & Hr).
    destruct (access_poll_late _ _ _ _ _ _ _ _ Ht Hh Hq Hx) as [Hg [a ->]].
    intros x [Ho _]. apply (proj2 Hg x).
    assert (w_entries w' = w_entries w1) as He by by destruct a as [a|], timed; injection Hr as _ <-.
    unfold owns in *. by rewrite <-He.
  - destruct (Hhold w st l k h (Task.Admitting s ad) e eq_refl) as [Ht Hh].
    { simpl. unfold pc_access. by rewrite Had. }
    unfold admit_cancel in Hr. rewrite Had in Hr. by eapply given_up_unclaimed, holding_release.
  - split; [done|]. by eapply watch_batch_moves_up.
  - by eapply watch_answer_settles.
  - unfold watch_step in Hr. rewrite Hpc in Hr. eapply watch_down_unclaimed; [apply Hok|exact Hr].
Qed.
End settlement.

(** ** Fair runs *)

Section fairness.
Context {T P C : Type} `{Countable T, !LruCache T SubjectSlot C, !LruCacheOk T SubjectSlot C,
  TimeDriver, !TimeDriverOk}.
Implicit Types (run : nat → System T P C) (y : System T P C) (f : positive) (n m k b : nat).

(** An infinite run, which may idle.  It is fair if, as long as a refresh is
    claimed, whoever owns it will attend to it again. *)
Record fair_run config clock run : Prop := {
  fr_start : system config clock (run O);
  fr_step n : run (S n) = run n ∨ sys_step (run n) (run (S n));
  fr_fair n f : ∃ m, (n ≤ m)%nat ∧ (¬ claimed (run m) f ∨ attends f (run m) (run (S m)));
}.

Lemma fair_run_system config clock run n :
  fair_run config clock run → system config clock (run n).
Proof.
  intros [Hstart Hstep _]. induction n as [|n (st0 & w0 & Hb & Hn)]; [done|].
  exists st0, w0. split; [done|]. destruct (Hstep n) as [->|Hs]; [done|].
  by eapply rtc_r.
Qed.

(** Where [f] is once it left its caller: before the place [b] of the queue. *)
Definition queue_below b f y : Prop :=
  (f ∉ (held (sy_tasks y)).*2) ∧ ∀ j, w_refresh_queue (sy_world y) !! j = Some f → (j < b)%nat.

Definition known f y : Prop := is_Some (w_fetches (sy_world y) !! f).

Section fair.
Context config clock now run (Hdep : deployment config clock) (Hvalid : config_valid now config)
  (Hfair : fair_run config clock run).

Lemma fair_ok n : sys_ok (run n).
Proof. by eapply system_ok, fair_run_system. Qed.

Lemma fair_flows n f : known f (run n) → flows f (run n) (run (S n)).
Proof.
  intros Hf. destruct (fr_step _ _ _ Hfair n) as [->|Hs]; [apply flow_refl|].
  by apply sys_step_flow; [apply fair_ok|..].
Qed.

Lemma fair_known n m f : (n ≤ m)%nat → known f (run n) → known f (run m).
Proof.
  induction 1 as [|m _ IH]; [done|]. intros Hf. specialize (IH Hf).
  destruct (fr_step _ _ _ Hfair m) as [Heq|Hs]; [unfold known in *; by rewrite Heq|].
  destruct IH as [pf Hpf].
  destruct (ev_fetches _ _ (sys_step_evolves _ _ (fair_ok m) Hs) _ _ Hpf) as (pf' & ? & _).
  by exists pf'.
Qed.

Lemma fair_unclaimed n m f :
  (n ≤ m)%nat → known f (run n) → ¬ claimed (run n) f → ¬ claimed (run m) f.
Proof.
  intros Hnm Hf Hno. induction Hnm as [|m Hnm IH]; [done|]. intros [e He]. apply IH. exists e.
  eapply fl_claim; [|exact He]. by apply fair_flows, (fair_known n).
Qed.

Lemma fair_below b n m f :
  (n ≤ m)%nat → known f (run n) → queue_below b f (run n) → queue_below b f (run m).
Proof.
  intros Hnm Hf Hq. induction Hnm as [|m Hnm IH]; [done|]. destruct IH as [Hh Hj].
  destruct (fair_flows m f (fair_known _ _ _ Hnm Hf)) as [_ Fh Fq _].
  split; [by intros ?%Fh|]. intros j [?|(i & Hji & Hi)]%Fq; [done|]. specialize (Hj _ Hi). lia.
Qed.

Lemma queued_not_held n f :
  f ∈ w_refresh_queue (sy_world (run n)) → f ∉ (held (sy_tasks (run n))).*2.
Proof.
  intros Hq Hh. pose proof (ac_nodup _ _ _ _ (so_accounts _ (fair_ok n))) as Hnd.
  unfold owners in Hnd. apply NoDup_app in Hnd as (_ & Hnd & _). apply (Hnd f Hh), elem_of_app.
  by left.
Qed.

(** What the owner does when it attends. *)
Lemma fair_attended m f :
  attends f (run m) (run (S m)) →
  ¬ claimed (run (S m)) f ∨
  f ∈ w_refresh_queue (sy_world (run m)) ∧
  ∀ j, w_refresh_queue (sy_world (run (S m))) !! j = Some f →
    ∃ i, (j < i)%nat ∧ w_refresh_queue (sy_world (run m)) !! i = Some f.
Proof.
  pose proof (fair_run_system _ _ _ m Hfair) as Hsys. apply attends_settles; [apply fair_ok|..].
  - by eapply reachable_stored, system_reachable.
  - rewrite (system_config _ _ _ Hdep Hsys). apply (cv_queue _ _ Hvalid).
Qed.

Lemma fair_queue b : ∀ n f,
  known f (run n) → queue_below b f (run n) → ∃ m, (n ≤ m)%nat ∧ ¬ claimed (run m) f.
Proof.
  induction b as [|b IH]; intros n f Hf Hq;
    (destruct (fr_fair _ _ _ Hfair n f) as (m & Hnm & [Hno|Hatt]); [by exists m|]);
    pose proof (fair_below _ _ _ _ Hnm Hf Hq) as [Hh Hb];
    (destruct (fair_attended m f Hatt) as [Hno|[Hin Hmove]]; [exists (S m); split; [lia|done]|]).
  - apply list_elem_of_lookup in Hin as [i Hi]. specialize (Hb _ Hi). lia.
  - destruct (IH (S m) f) as (k & Hk & Hno); [apply (fair_known n); [lia|done]|split|exists k; split; [lia|done]].
    + apply (fair_below (S b) n (S m) f); [lia|done..].
    + intros j (i & Hji & Hi)%Hmove. specialize (Hb _ Hi). lia.
Qed.

Lemma fair_settles n f : known f (run n) → ∃ m, (n ≤ m)%nat ∧ ¬ claimed (run m) f.
Proof.
  intros Hf. destruct (fr_fair _ _ _ Hfair n f) as (m & Hnm & [Hno|Hatt]); [by exists m|].
  destruct (fair_attended m f Hatt) as [Hno|[Hin _]]; [exists (S m); split; [lia|done]|].
  destruct (fair_queue (length (w_refresh_queue (sy_world (run m)))) m f) as (k & Hk & Hno).
  - by apply (fair_known n).
  - split; [by apply queued_not_held|]. intros j Hj. by eapply lookup_lt_Some.
  - exists k. split; [lia|done].
Qed.
End fair.

(** C10. Every refresh is settled.  In every fair run of the system a claimed refresh
    is, from some point on, claimed no more, and stays so: it was answered, given
    up by its caller, or retired with its connection.  So no entry waits forever
    for a refresh, and each may be refreshed again. *)
Theorem refresh_settles config clock now run n f :
  deployment config clock → config_valid now config → fair_run config clock run →
  claimed (run n) f → ∃ m, (n ≤ m)%nat ∧ ∀ k, (m ≤ k)%nat → ¬ claimed (run k) f.
Proof.
  intros Hdep Hval Hfair (e & _ & pf & Hf & _). assert (known f (run n)) as Hk by by exists pf.
  destruct (fair_settles config clock now run Hdep Hval Hfair n f Hk) as (m & Hnm & Hno).
  exists m. split; [done|]. intros k Hmk. eapply fair_unclaimed; [done|done|exact Hmk| |done].
  by eapply fair_known.
Qed.
End fairness.

(** ** A fair run

    The claimed refresh of subject 7 is queued, received and answered; then the
    system idles. *)

Definition receiving : WatchEnv nat nat :=
  mkWatchEnv (Poll.Ready (Ok tt)) [Branch.Batch] [] Poll.Pending true 0.
Definition replying (f : positive) : WatchEnv nat nat :=
  mkWatchEnv (Poll.Ready (Ok tt)) [Branch.Refresh]
    [(f, Answer.Ready (Ok (Some (mkDecisionResult Decision.Allowed None None))))] Poll.Pending true 0.

Definition settled_run : list Action.t :=
  claimed_run ++ [Action.Resume 0 (answering Decision.Allowed); Action.Watch receiving;
    Action.Watch (replying 13)].

Definition replay (n : nat) : DemoSystem := reached (take n settled_run).

Lemma schedule_app l k y : schedule (l ++ k) y = y' ← schedule l y; schedule k y'.
Proof. revert y. induction l as [|a l IH]; intros y; simpl; [done|]. destruct (perform a y); [|done]. apply IH. Qed.

Lemma sys_run_snoc l a y : sys_run (l ++ [a]) = Some y → ∃ y0, sys_run l = Some y0 ∧ sys_step y0 y.
Proof.
  unfold sys_run. destruct sys_start as [y1|]; [|done]. rewrite schedule_app. simpl.
  destruct (schedule l y1) as [y0|]; [|done]. simpl. destruct (perform a y0) as [y2|] eqn:Hp; [|done].
  intros [= <-]. exists y0. split; [done|]. by eapply perform_step.
Qed.

Lemma sys_run_take l n : is_Some (sys_run l) → is_Some (sys_run (take n l)).
Proof.
  induction l as [|a l IH] using rev_ind; [by rewrite take_nil|]. intros [y Hy].
  destruct (sys_run_snoc _ _ _ Hy) as (y0 & Hy0 & _).
  destruct (decide (n ≤ length l)%nat) as [Hn|Hn].
  - rewrite take_app_le by lia. apply IH. by exists y0.
  - rewrite take_ge by (rewrite length_app; simpl; lia). by exists y.
Qed.

Lemma replay_step n : replay (S n) = replay n ∨ sys_step (replay n) (replay (S n)).
Proof.
  destruct (settled_run !! n) as [a|] eqn:Ha.
  - right. assert (is_Some (sys_run (take (S n) settled_run))) as [y Hy].
    { apply sys_run_take. vm_compute. by eexists. }
    unfold replay, reached. rewrite Hy. rewrite (take_S_r _ _ a Ha) in Hy.
    destruct (sys_run_snoc _ _ _ Hy) as (y0 & -> & Hs). exact Hs.
  - left. apply lookup_ge_None in Ha. unfold replay. by rewrite !take_ge by lia.
Qed.

Lemma replay_idle n : (length settled_run ≤ n)%nat → replay n = replay (length settled_run).
Proof. intros Hn. unfold replay. by rewrite !take_ge by lia. Qed.

Lemma all_settled y f :
  bool_decide (map_Forall (λ _ en, pending en = None) (w_entries (sy_world y))) = true →
  ¬ claimed (y : DemoSystem) f.
Proof. intros Hall%bool_decide_eq_true (e & (en & He & Hp) & _). specialize (Hall _ _ He). simpl in Hall. congruence. Qed.

Lemma replay_fair : fair_run demo_config demo_clock replay.
Proof.
  split.
  - apply (sys_run_system []). by vm_compute.
  - apply replay_step.
  - intros n f. exists (n `max` length settled_run)%nat. split; [lia|left].
    rewrite replay_idle by lia. apply all_settled. by vm_compute.
Qed.

(** What the watcher does in it is what a fair run asks for. *)
Lemma perform_batch f env order c y y' :
  perform (Action.Watch env) y = Some y' → ws_pc (sy_watch y) = WatchPc.Serve c →
  f ∈ w_refresh_queue (sy_world y) → we_order env = Branch.Batch :: order → attends f y y'.
Proof.
  destruct y as [w st l h]. intros (st' & w' & Hr & ->)%after_Some Hpc Hf Ho. by eapply att_batch.
Qed.

Lemma perform_answer f env order c answer polled y y' :
  perform (Action.Watch env) y = Some y' → ws_pc (sy_watch y) = WatchPc.Serve c →
  f ∈ refreshes c → we_order env = Branch.Refresh :: order → we_polled env = (f, answer) :: polled →
  answer ≠ Answer.Waiting → attends f y y'.
Proof.
  destruct y as [w st l h]. intros (st' & w' & Hr & ->)%after_Some Hpc Hf Ho Hp Ha.
  eapply att_answer; try done. by left.
Qed.

Lemma replay_received : attends 13 (replay 9) (replay 10).
Proof.
  eapply (perform_batch 13 receiving); [by vm_compute|by vm_compute| |done].
  apply list_elem_of_lookup. exists O. by vm_compute.
Qed.

Lemma replay_answered : attends 13 (replay 10) (replay 11).
Proof.
  eapply (perform_answer 13 (replying 13) _ (mkConnection _ [13%positive] _));
    [by vm_compute|vm_compute; reflexivity|by left|done|done|done].
Qed.

Lemma refresh_settles_witness :
  claimed (replay 8) 13 ∧ attends 13 (replay 9) (replay 10) ∧ attends 13 (replay 10) (replay 11) ∧
  ∃ m, (8 ≤ m)%nat ∧ ∀ k, (m ≤ k)%nat → ¬ claimed (replay k) 13.
Proof.
  assert (claimed (replay 8) 13) as Hc.
  { exists 1%positive. split; eexists; (split; [vm_compute; reflexivity|]); [by vm_compute|by eexists]. }
  split; [exact Hc|]. split; [exact replay_received|]. split; [exact replay_answered|].
  exact (refresh_settles demo_config demo_clock 1000 replay 8 13 demo_deployment demo_valid replay_fair Hc).
Defined.
