(* ===== verification/Stream.v ===== *)
(** * Stream: enforcing the policy on an active body ([src/stream.rs])

    [EnforcedBody::poll_frame] with the readmission future it drives.  The inner
    body, its frames and the rejection of the transport are interfaces; what the
    outside world does during a poll is given as one list of admission
    environments per iteration of the loop. *)

From S2P Require Export Program.

(** ** Interfaces ([http_body::Body], [src/layer.rs]) *)

(** One poll of a body; errors are already converted with [Into::into]. *)
Class HttpBody (B : Type) : Type := {
  Frame : Type;
  Headers : Type;
  BodyError : Type;
  body_poll_frame : B → Poll.t (option (result Frame BodyError)) * B;
  body_is_end_stream : B → bool;
  frame_trailers : Headers → Frame;
  frame_is_trailers : Frame → bool;
}.

Class HttpBodyOk B `{HttpBody B} : Prop := {
  trailers_are_trailers h : frame_is_trailers (frame_trailers h) = true;
}.

Module BodySide.
Inductive t : Set := Request | Response.
#[global] Instance eq_dec : EqDecision t.
Proof. solve_decision. Defined.
End BodySide.

Module StreamRejection.
Inductive t (E H : Type) : Type := Error (error : E) | Trailers (trailers : H).
Arguments Error {E H}.
Arguments Trailers {E H}.
End StreamRejection.

Class StreamRejectionResponse (B R : Type) `{HttpBody B} : Type := {
  stream_denied : R → BodySide.t → string → StreamRejection.t BodyError Headers;
}.

(** [SizeHint]: lower bound and, when known, upper bound. *)
Definition SizeHint : Type := Z * option Z.

(** ** State *)

(** The boxed future [readmission]: [PolicyGate::admit], possibly after the sleep
    of [PolicyGate::admit_after].  A finished future panics when polled again. *)
Module Readmission.
Inductive t : Type :=
| Begin
| Admitting (st : AdmitState)
| Delay (duration : Z)
| Sleeping (wake : option Z)
| Finished.
End Readmission.

Record EnforcedBody (B T R : Type) : Type := mkBody {
  inner : B;
  subject : T;
  admission : positive;
  rejection_message : string;
  response : R;
  readmission : option Readmission.t;
  side : BodySide.t;
  ended : bool;
}.
Arguments mkBody {B T R}.
Arguments inner {B T R}.
Arguments subject {B T R}.
Arguments admission {B T R}.
Arguments rejection_message {B T R}.
Arguments response {B T R}.
Arguments readmission {B T R}.
Arguments side {B T R}.
Arguments ended {B T R}.

(** The environments of the two futures an iteration may poll. *)
Record RoundEnv (P : Type) : Type := mkRoundEnv {
  re_readmission : list (AdmitEnv P);
  re_retry : list (AdmitEnv P);
}.
Arguments mkRoundEnv {P}.
Arguments re_readmission {P}.
Arguments re_retry {P}.

(** Where one iteration of the loop leads.  [woken]: the task was woken through
    [cx.waker().wake_by_ref()]. *)
Module Round.
Inductive t : Set := Again | Deliver (woken : bool) | Cut.
#[global] Instance eq_dec : EqDecision t.
Proof. solve_decision. Defined.
End Round.

Section body_state.
Context {B T R : Type}.
Implicit Types (b : EnforcedBody B T R).

Definition body_new (inner_ : B) (subject_ : T) (admission_ : positive) (message : string)
    (response_ : R) (side_ : BodySide.t) : EnforcedBody B T R :=
  mkBody inner_ subject_ admission_ message response_ None side_ false.

Definition set_readmission (r : option Readmission.t) b : EnforcedBody B T R :=
  mkBody (inner b) (subject b) (admission b) (rejection_message b) (response b) r (side b) (ended b).
Definition set_admission (a : positive) b : EnforcedBody B T R :=
  mkBody (inner b) (subject b) a (rejection_message b) (response b) (readmission b) (side b) (ended b).
Definition set_inner (i : B) b : EnforcedBody B T R :=
  mkBody i (subject b) (admission b) (rejection_message b) (response b) (readmission b) (side b) (ended b).

Definition end_body b : EnforcedBody B T R :=
  mkBody (inner b) (subject b) (admission b) (rejection_message b) (response b) None (side b) true.
End body_state.

Section stream.
Context {T P C : Type} `{Countable T, !LruCache T SubjectSlot C, TimeDriver}.
Abbreviation G := (M (World T P C)).

(** ** The readmission future *)

Section readmission.
Implicit Types (s : T) (envs : list (AdmitEnv P)).

(** One poll of [PolicyGate::admit]: steps until it waits or returns. *)
Fixpoint poll_admission envs s (st : AdmitState) : G (Poll.t (option positive) * Readmission.t) :=
  match ad_pc st with
  | AdmitPc.Return a => mret (Poll.Ready a, Readmission.Finished)
  | _ =>
      match envs with
      | [] => mret (Poll.Pending, Readmission.Admitting st)
      | env :: envs =>
          st' ← admit_step s env st;
          if suspended (ad_pc st') then mret (Poll.Pending, Readmission.Admitting st')
          else poll_admission envs s st'
      end
  end.

Definition poll_begin envs s : G (Poll.t (option positive) * Readmission.t) :=
  st ← admit_begin;
  poll_admission envs s st.

Definition poll_sleep envs s (wake : option Z) : G (Poll.t (option positive) * Readmission.t) :=
  now ← D_now;
  match sleep_poll wake now with
  | Poll.Pending => mret (Poll.Pending, Readmission.Sleeping wake)
  | Poll.Ready _ => poll_begin envs s
  end.

Definition readmission_poll envs s (r : Readmission.t) :
    G (Poll.t (option positive) * Readmission.t) :=
  match r with
  | Readmission.Begin => poll_begin envs s
  | Readmission.Admitting st => poll_admission envs s st
  | Readmission.Delay duration =>
      now ← D_now;
      poll_sleep envs s (sleep_deadline now duration)
  | Readmission.Sleeping wake => poll_sleep envs s wake
  | Readmission.Finished => panic
  end.
End readmission.

(** ** [poll_frame] *)

Section poll.
Context {B R : Type} `{HttpBody B, !StreamRejectionResponse B R}.
Implicit Types (b : EnforcedBody B T R) (env : RoundEnv P).

(** A readmission that is given up is dropped, which releases the refresh claim
    it may hold. *)
Definition abandon (r : option Readmission.t) : G unit :=
  match r with
  | Some (Readmission.Admitting st) => admit_cancel st
  | _ => mret tt
  end.

(** [*readmission = None]. *)
Definition drop_readmission b : G (EnforcedBody B T R) :=
  _ ← abandon (readmission b);
  mret (set_readmission None b).

(** [*ended = true; *readmission = None]. *)
Definition finish b : G (EnforcedBody B T R) :=
  _ ← abandon (readmission b);
  mret (end_body b).

(** A failed readmission is retried after the admission timeout; the new future
    is polled once, to arm its timer. *)
Definition retry_readmission env b : G (Round.t * EnforcedBody B T R) :=
  delay ← gets (λ w, admission_timeout (w_config w));
  x ← readmission_poll (re_retry env) (subject b) (Readmission.Delay delay);
  let (r, replacement) := x : Poll.t (option positive) * Readmission.t in
  let armed := match r with Poll.Pending => true | Poll.Ready _ => false end in
  mret (Round.Deliver (negb armed), set_readmission (Some replacement) b).

(** The readmission is polled once per frame and never makes the body pending. *)
Definition drive_readmission env b : G (Round.t * EnforcedBody B T R) :=
  let future := default Readmission.Begin (readmission b) in
  x ← readmission_poll (re_readmission env) (subject b) future;
  match x : Poll.t (option positive) * Readmission.t with
  | (Poll.Pending, future) => mret (Round.Deliver false, set_readmission (Some future) b)
  | (Poll.Ready (Some a), _) =>
      let b := set_readmission None b in
      allowed ← admission_is_allowed a;
      if allowed : bool then mret (Round.Again, set_admission a b)
      else
        st ← admission_state a;
        mret (if bool_decide (st = AdmissionState.Denied) then Round.Cut else Round.Again, b)
  | (Poll.Ready None, _) => retry_readmission env (set_readmission None b)
  end.

(** The arm [Observed::Stale]. *)
Definition stale_round env b : G (Round.t * EnforcedBody B T R) :=
  cached ← check_without_refresh (subject b);
  match cached with
  | None => drive_readmission env b
  | Some a =>
      allowed ← admission_is_allowed a;
      if allowed : bool then
        limit ← gets (λ w, refresh_before_expiry (w_config w));
        if Duration.is_zero limit then
          b ← drop_readmission b;
          mret (Round.Again, set_admission a b)
        else drive_readmission env b
      else
        st ← admission_state a;
        if bool_decide (st = AdmissionState.Denied) then
          b ← drop_readmission b;
          mret (Round.Cut, b)
        else drive_readmission env b
  end.

Definition enforce_round env b : G (Round.t * EnforcedBody B T R) :=
  o ← admission_observe (admission b);
  match o with
  | Observed.Allowed => mret (Round.Deliver false, b)
  | Observed.Denied | Observed.Expired => mret (Round.Cut, b)
  | Observed.Stale => stale_round env b
  end.

(** The [loop].  [rounds] lists the environments of its iterations; a run for
    which they are too few has no result. *)
Fixpoint enforce (rounds : list (RoundEnv P)) b : G (Round.t * EnforcedBody B T R) :=
  match rounds with
  | [] => panic
  | env :: rounds =>
      x ← enforce_round env b;
      match x : Round.t * EnforcedBody B T R with
      | (Round.Again, b) => enforce rounds b
      | (r, b) => mret (r, b)
      end
  end.

Definition poll_inner_terminal b :
    G (Poll.t (option (result Frame BodyError)) * EnforcedBody B T R) :=
  match body_poll_frame (inner b) with
  | (Poll.Ready None, i) =>
      b ← finish (set_inner i b);
      mret (Poll.Ready None, b)
  | (Poll.Ready (Some (Ok frame)), i) =>
      let b := set_inner i b in
      b ← (if frame_is_trailers frame then finish b else mret b);
      mret (Poll.Ready (Some (Ok frame)), b)
  | (Poll.Ready (Some (Err error)), i) => mret (Poll.Ready (Some (Err error)), set_inner i b)
  | (Poll.Pending, i) => mret (Poll.Pending, set_inner i b)
  end.

(** What takes the place of the next frame of a denied body. *)
Definition rejection b : Poll.t (option (result Frame BodyError)) :=
  match stream_denied (response b) (side b) (rejection_message b) with
  | StreamRejection.Trailers trailers => Poll.Ready (Some (Ok (frame_trailers trailers)))
  | StreamRejection.Error error => Poll.Ready (Some (Err error))
  end.

Definition cut b : G (Poll.t (option (result Frame BodyError)) * EnforcedBody B T R) :=
  b ← finish b;
  _ ← emit Metric.stream_cutoff;
  mret (rejection b, b).

(** The outcome, whether the task was woken, and the new state. *)
Definition poll_frame (rounds : list (RoundEnv P)) b :
    G (Poll.t (option (result Frame BodyError)) * bool * EnforcedBody B T R) :=
  if ended b || body_is_end_stream (inner b) then
    b ← finish b;
    mret (Poll.Ready None, false, b)
  else
    x ← enforce rounds b;
    match x : Round.t * EnforcedBody B T R with
    | (Round.Deliver woken, b) =>
        x ← poll_inner_terminal b;
        let (r, b) := x : Poll.t (option (result Frame BodyError)) * EnforcedBody B T R in
        mret (r, woken, b)
    | (_, b) =>
        x ← cut b;
        let (r, b) := x : Poll.t (option (result Frame BodyError)) * EnforcedBody B T R in
        mret (r, false, b)
    end.

Definition is_end_stream b : bool := ended b || body_is_end_stream (inner b).

Definition size_hint b : SizeHint := if ended b then (0, Some 0) else (0, None).
End poll.
End stream.
