(* ===== verification/StreamMethods.v ===== *)
(** * StreamMethods: what an enforced body lets through

    The readmission future and the rounds of [poll_frame] run to their end and
    keep the gate's invariant; a body passes inner frames only under an allowed
    handle or while it is being readmitted, and nothing follows its end. *)

From S2P Require Export Stream.

Section stream_methods.
Context {T P C : Type} `{Countable T, !LruCache T SubjectSlot C, !LruCacheOk T SubjectSlot C, TimeDriver}.
Context {B R : Type} `{HttpBody B, !StreamRejectionResponse B R}.
Implicit Types (w : World T P C) (e : positive) (s : T) (b : EnforcedBody B T R) (env : RoundEnv P).

(** ** The readmission future *)

Definition future_ok w s (f : Readmission.t) : Prop :=
  match f with
  | Readmission.Admitting st => pc_ok w s st ∧ ∀ r, ad_pc st ≠ AdmitPc.Return r
  | _ => True
  end.

Definition future_post w0 s (x : Poll.t (option positive) * Readmission.t) w' : Prop :=
  future_ok w' s x.2 ∧ (x.1 = Poll.Pending → x.2 ≠ Readmission.Finished) ∧
  (∀ a, x.1 = Poll.Ready (Some a) → granted w0 s a w').

Lemma future_ok_stable w w' s f : evolves w w' → future_ok w s f → future_ok w' s f.
Proof. intros Ev. destruct f; try done. intros [? ?]. split; [by eapply pc_ok_stable|done]. Qed.

Lemma post_pending w0 w s f :
  future_ok w s f → f ≠ Readmission.Finished → future_post w0 s (Poll.Pending, f) w.
Proof. by intros. Qed.

Lemma post_ready w0 w s r :
  (∀ a, r = Some a → granted w0 s a w) → future_post w0 s (Poll.Ready r, Readmission.Finished) w.
Proof. intros Hg. split; [done|]. split; [done|]. intros a [= ->]. by apply Hg. Qed.

Lemma poll_admission_from w0 w envs s st :
  wf w → evolves w0 w → pc_ok w s st →
  (∀ a, ad_pc st = AdmitPc.Return (Some a) → granted w0 s a w) →
  run_from w0 w (poll_admission envs s st) (future_post w0 s).
Proof.
  assert (Hdone : ∀ w st r, wf w → evolves w0 w → ad_pc st = AdmitPc.Return r →
    (∀ a, ad_pc st = AdmitPc.Return (Some a) → granted w0 s a w) →
    run_from w0 w (mret (Poll.Ready r, Readmission.Finished)) (future_post w0 s)).
  { intros w1 st1 r Hwf Ev Hpc Hg. apply run_from_ret; [done|done|]. apply post_ready.
    intros a ->. by apply Hg. }
  revert w st. induction envs as [|env envs IH]; intros w st Hwf Ev Hok Hg; simpl.
  - destruct (ad_pc st) eqn:Hpc; [..|by apply (Hdone w st); rewrite ?Hpc].
    all: apply run_from_ret; [done|done|]; apply post_pending; [|done]; split; [done|].
    all: intros ret; by rewrite Hpc.
  - assert (Hstep : run_from w0 w (st' ← admit_step s env st;
      if suspended (ad_pc st') then mret (Poll.Pending, Readmission.Admitting st')
      else poll_admission envs s st') (future_post w0 s)).
    { destruct (admit_step_ok w s env st Hwf Hok) as (st' & w1 & Hrun & Hwf1 & Ev1 & Hpost).
      eapply run_step; [exact Hrun|].
      assert (evolves w0 w1) as Ev01 by by transitivity w.
      assert (pc_ok w1 s st' ∧ ∀ a, ad_pc st' = AdmitPc.Return (Some a) → granted w0 s a w1)
        as [Hok' Hg'].
      { destruct Hpost as [[_ Hsp]|(r & Hret & -> & ->)]; [|done]. split; [apply Hsp|].
        intros a Ha. eapply granted_weaken; [exact Ev|by apply (sp_grant _ _ _ _ _ Hsp)|done]. }
      destruct (suspended (ad_pc st')) eqn:Hs; [|by apply IH].
      apply run_from_ret; [done|done|]. apply post_pending; [|done]. split; [done|].
      intros r Hr. by rewrite Hr in Hs. }
    destruct (ad_pc st) eqn:Hpc; [exact Hstep..|]. by apply (Hdone w st); rewrite ?Hpc.
Qed.

Lemma poll_begin_from w0 w envs s :
  wf w → evolves w0 w → run_from w0 w (poll_begin envs s) (future_post w0 s).
Proof.
  intros Hwf Ev. eapply run_from_bind; [by apply admit_begin_from|].
  intros st w1 Hwf1 Ev1 (_ & Hok & Hpc). apply poll_admission_from; [done|done|done|].
  intros a Ha. destruct Hpc; congruence.
Qed.

Lemma poll_sleep_from w0 w envs s wake :
  wf w → evolves w0 w → run_from w0 w (poll_sleep envs s wake) (future_post w0 s).
Proof.
  intros Hwf Ev. apply now_then; [done|done|]. intros w1 Hwf1 Ev1 _.
  destruct (sleep_poll _ _); [by apply poll_begin_from|].
  apply run_from_ret; [done|done|]. by apply post_pending.
Qed.

Lemma readmission_poll_from w0 w envs s f :
  wf w → evolves w0 w → future_ok w s f → f ≠ Readmission.Finished →
  run_from w0 w (readmission_poll envs s f) (future_post w0 s).
Proof.
  intros Hwf Ev Hok Hne. destruct f as [|st|d|wake|]; simpl; try done.
  - by apply poll_begin_from.
  - destruct Hok as [Hok Hret]. apply poll_admission_from; [done|done|done|].
    intros a Ha. by destruct (Hret (Some a)).
  - apply now_then; [done|done|]. intros w1 Hwf1 Ev1 _. by apply poll_sleep_from.
  - by apply poll_sleep_from.
Qed.

(** A sleep of [d] was over on the reading after the one it was computed from. *)
Definition leapt w0 (d : Z) w' : Prop :=
  ∃ n, (w_reads w0 ≤ n ∧ S n < w_reads w')%nat ∧
    sleep_until (w_clock w0 n + d) (w_clock w0 (S n)) = Poll.Ready tt.

(** The retry is armed unless its sleep is over within the poll that starts it. *)
Lemma retry_finished envs s d w r w' :
  wf w → readmission_poll envs s (Readmission.Delay d) w = Some ((r, Readmission.Finished), w') →
  leapt w d w'.
Proof.
  intros Hwf Hrun. simpl in Hrun. apply run_bind in Hrun as (now & w1 & Hnow & Hrun).
  injection Hnow as <- <-. unfold poll_sleep in Hrun.
  apply run_bind in Hrun as (now & w2 & Hnow & Hrun). injection Hnow as <- <-.
  unfold sleep_deadline, Instant.checked_add in Hrun. simpl in Hrun.
  destruct (_ <=? Instant.MAX); simpl in Hrun; [|by injection Hrun].
  destruct (sleep_until _ _) as [[]|] eqn:Hs; [|by injection Hrun].
  set (w2 := set_reads _ _) in Hrun. assert (same_core w w2) as Hc by (split; simpl; try done; lia).
  destruct (run_from_run _ _ _ _ _ _ (poll_begin_from w2 w2 envs s (wf_same_core _ _ Hc Hwf)
    (reflexivity w2)) Hrun) as (_ & Ev & _).
  pose proof (ev_reads _ _ Ev) as Hr. simpl in Hr. exists (w_reads w). split; [lia|done].
Qed.

(** ** Rounds *)

(** The body holds a handle of its own subject and a future that may go on. *)
Definition body_ok w b : Prop :=
  handle w (subject b) (admission b) ∧
  ∀ f, readmission b = Some f → future_ok w (subject b) f.

(** Only the handle and the readmission may have changed. *)
Record same_stream b b' : Prop := {
  ss_inner : inner b' = inner b;
  ss_subject : subject b' = subject b;
  ss_message : rejection_message b' = rejection_message b;
  ss_response : response b' = response b;
  ss_side : side b' = side b;
  ss_ended : ended b' = ended b;
}.

#[export] Instance same_stream_preorder : PreOrder same_stream.
Proof. split; [by intros b|]. intros b1 b2 b3 [] []. split; congruence. Qed.

Lemma body_ok_stable w w' b : evolves w w' → body_ok w b → body_ok w' b.
Proof.
  intros Ev [Hh Hf]. split; [by apply (handle_stable w)|].
  intros f Hr. by apply (future_ok_stable w w' _ _ Ev), Hf.
Qed.

(** The handle is the old one or was granted for the subject since [w0]. *)
Definition rebound w0 b b' w' : Prop :=
  admission b' = admission b ∨ granted w0 (subject b) (admission b') w'.

(** The next iteration comes to a decision, whatever happens in it. *)
Definition decides w b : Prop :=
  ∀ env, ∃ r b' w', enforce_round env b w = Some ((r, b'), w') ∧ r ≠ Round.Again.

Record round_post w0 b (x : Round.t * EnforcedBody B T R) w' : Prop := {
  rp_same : same_stream b x.2;
  rp_ok : body_ok w' x.2;
  rp_rebound : rebound w0 b x.2 w';
  rp_again : x.1 = Round.Again → readmission x.2 = None ∧
    (decides w' x.2 ∨ admission x.2 = admission b);
  rp_finished : readmission x.2 = Some Readmission.Finished →
    readmission b = Some Readmission.Finished ∨ leapt w0 (admission_timeout (w_config w0)) w';
}.

Lemma leapt_mono w0 w d w1 w' :
  evolves w0 w → evolves w1 w' → leapt w d w1 → leapt w0 d w'.
Proof.
  intros Ev Ev' (n & Hn & Hs). pose proof (ev_reads _ _ Ev). pose proof (ev_reads _ _ Ev').
  exists n. rewrite <-(ev_clock _ _ Ev). split; [lia|done].
Qed.

Lemma granted_handle w0 s a w' : granted w0 s a w' → handle w' s a.
Proof. by intros [? _]. Qed.

Lemma handle_settled w s e : handle w s e → settled w e.
Proof. by intros [_ ?]. Qed.

(** A handle that is observed allowed is allowed at that moment. *)
Lemma observe_allowed w0 w e :
  wf w → evolves w0 w → settled w e →
  run_from w0 w (admission_observe e) (λ o w', evolves w w' ∧
    (o = Observed.Allowed → state_is w' e EntryState.Allowed)).
Proof.
  intros Hwf Ev (en & He & Hset). apply run_from_evolves; [done|].
  apply now_then; [done|done|]. intros w1 Hwf1 Ev1 Hc.
  assert (w_entries w1 !! e = Some en) as He1 by by rewrite (sc_entries _ _ Hc).
  eapply run_from_weaken; [by apply (entry_observed_at_from w w1 e en)|].
  intros o w2 _ _ (sx & (_ & _ & en' & He' & Hcase) & Ho) ->. unfold observed_of in Ho.
  destruct Hcase as [(_ & -> & ->)|(_ & Hx2 & _)]; [|by rewrite Hx2 in Ho].
  exists en. rewrite He', lookup_insert_eq. split; [done|]. unfold entry_decode. simpl in Ho.
  by destruct (decode_entry_state _).
Qed.

Lemma allowed_from w0 w e :
  wf w → evolves w0 w → settled w e →
  run_from w0 w (admission_is_allowed e) (λ x w', evolves w w' ∧
    (x = true → state_is w' e EntryState.Allowed)).
Proof.
  intros Hwf Ev Hs. unfold admission_is_allowed, admission_state.
  eapply (run_from_bind _ _ _ _ (λ x w', evolves w w' ∧
    (x = AdmissionState.Allowed → state_is w' e EntryState.Allowed))).
  - eapply run_from_bind; [by apply observe_allowed|]. intros o w1 Hwf1 Ev1 [Ev01 Ho].
    apply run_from_ret; [done|done|]. split; [done|]. intros Hx. apply Ho. by destruct o.
  - intros x w1 Hwf1 Ev1 [Ev01 Hx]. apply run_from_ret; [done|done|]. split; [done|].
    intros Ha%bool_decide_eq_true. auto.
Qed.

(** Once the entry is allowed, the next observation decides. *)
Lemma allowed_decides w b :
  wf w → state_is w (admission b) EntryState.Allowed → decides w b.
Proof.
  intros Hwf (en & He & Hd) env. unfold enforce_round, admission_observe.
  destruct (now_then w w (entry_observed_at (admission b)) (λ o _, o ≠ Observed.Stale))
    as (o & w' & Hrun & _ & _ & Ho); [done|done| |].
  { intros w1 Hwf1 Ev1 Hc.
    assert (w_entries w1 !! admission b = Some en) as He1 by by rewrite (sc_entries _ _ Hc).
    eapply run_from_weaken; [apply (entry_observed_at_from w w1 _ en); [done|done|done|by rewrite Hd]|].
    intros o w2 _ _ (sx & (_ & _ & en' & _ & Hcase) & Ho) ->. unfold observed_of in Ho.
    destruct Hcase as [(_ & -> & _)|(_ & Hx2 & _)]; [|by rewrite Hx2 in Ho].
    unfold entry_decode in Hd. simpl in Ho. by rewrite Hd in Ho. }
  rewrite (run_bind_step _ _ _ _ _ Hrun).
  destruct o; [by exists (Round.Deliver false), b, w'|by exists Round.Cut, b, w'|
    by exists Round.Cut, b, w'|done].
Qed.

(** *** The arms of a round *)

Lemma post_kept w0 w b r f :
  handle w (subject b) (admission b) → future_ok w (subject b) f → r ≠ Round.Again →
  (f = Readmission.Finished → leapt w0 (admission_timeout (w_config w0)) w) →
  round_post w0 b (r, set_readmission (Some f) b) w.
Proof.
  intros Hh Hf Hr Hl. split; [by split| |by left|done|].
  - split; [done|]. by intros ? [= <-].
  - intros [= ->]. right. by apply Hl.
Qed.

Lemma post_cut w0 w b : handle w (subject b) (admission b) →
  round_post w0 b (Round.Cut, set_readmission None b) w.
Proof. intros Hh. split; [by split|by split|by left|done|done]. Qed.

(** Rebinding to a handle that was just seen allowed. *)
Lemma post_rebound w0 w b a :
  wf w → granted w0 (subject b) a w → state_is w a EntryState.Allowed →
  round_post w0 b (Round.Again, set_admission a (set_readmission None b)) w.
Proof.
  intros Hwf Hg Ha. split; [by split| |by right| |done].
  - split; [by eapply granted_handle|done].
  - intros _. split; [done|]. left. by apply allowed_decides.
Qed.

Lemma retry_from w0 w env b :
  wf w → evolves w0 w → handle w (subject b) (admission b) →
  run_from w0 w (retry_readmission env (set_readmission None b)) (round_post w0 b).
Proof.
  intros Hwf Ev Hh. unfold retry_readmission. apply run_gets. simpl.
  destruct (readmission_poll_from w w (re_retry env) (subject b)
    (Readmission.Delay (admission_timeout (w_config w))) Hwf (reflexivity w))
    as ([r f] & w1 & Hrun & Hwf1 & Ev1 & Hf & _); [done|done|].
  eapply run_step; [exact Hrun|]. apply run_from_ret; [done|by transitivity w|].
  apply (post_kept w0 w1 b); [by apply (handle_stable w)|done|done|]. intros ->.
  rewrite <-(ev_config _ _ Ev).
  apply (leapt_mono w0 w _ w1); [done|reflexivity|]. by eapply retry_finished.
Qed.

Lemma drive_from w0 w env b :
  wf w → evolves w0 w → body_ok w b → readmission b ≠ Some Readmission.Finished →
  run_from w0 w (drive_readmission env b) (round_post w0 b).
Proof.
  intros Hwf Ev [Hh Hf] Hne. unfold drive_readmission. eapply run_from_bind.
  { apply run_from_evolves; [exact Ev|]. apply readmission_poll_from; [done|done| |].
    - destruct (readmission b) as [f|]; [by apply Hf|done].
    - destruct (readmission b) as [f|]; simpl; [|done]. intros ->. done. }
  intros [r f] w1 Hwf1 Ev1 [Evw (Hfo & Hp & Hg)].
  assert (handle w1 (subject b) (admission b)) as Hh1 by by apply (handle_stable w).
  destruct r as [[a|]|].
  - specialize (Hg a eq_refl). assert (granted w0 (subject b) a w1) as Hg0.
    { by apply (granted_weaken w0 w w1). }
    eapply run_from_bind; [apply (allowed_from w0 w1 a); [done|done|by eapply handle_settled, granted_handle]|].
    intros allowed w2 Hwf2 Ev2 [Ev12 Ha].
    assert (granted w0 (subject b) a w2) as Hg2 by by apply (granted_weaken w0 w0 w1).
    assert (handle w2 (subject b) (admission b)) as Hh2 by by apply (handle_stable w1).
    destruct allowed; [by apply run_from_ret; [..|apply post_rebound; auto]|].
    eapply run_from_bind; [apply (state_from w0 w2 a); [done|done|by eapply handle_settled, granted_handle]|].
    intros st w3 Hwf3 Ev3 [Ev23 _]. apply run_from_ret; [done|done|].
    assert (handle w3 (subject b) (admission b)) as Hh3 by by apply (handle_stable w2).
    case_bool_decide; [by apply post_cut|].
    split; [by split|by split|by left| |done]. intros _. split; [done|]. by right.
  - by apply retry_from.
  - apply run_from_ret; [done|done|]. apply post_kept; try done. intros ->. by destruct (Hp eq_refl).
Qed.

Lemma body_ok_drop w b : body_ok w b → body_ok w (set_readmission None b).
Proof. intros [Hh _]. by split. Qed.

Lemma check_granted w0 w s r w' : evolves w0 w → check_post w s r w' →
  ∀ a, r = Some a → granted w0 s a w'.
Proof.
  intros Ev (_ & Hg & _) a ->. destruct (Hg a eq_refl) as [_ Hgr].
  eapply granted_weaken; [exact Ev|exact Hgr|reflexivity].
Qed.

(** *** Giving the readmission up *)

(** No entry changes its state. *)
Definition states_kept w w' : Prop :=
  evolves w w' ∧ ∀ a st, state_is w a st → state_is w' a st.

Lemma access_cancel_from w0 w e f :
  wf w → evolves w0 w → is_Some (w_entries w !! e) →
  run_from w0 w (access_cancel e f) (λ _, states_kept w).
Proof.
  intros Hwf Ev [en He].
  eapply run_from_weaken; [apply (release_claim_from w0 w e f); [done|done|by exists en]|].
  intros u w1 _ _ (Ev1 & _ & _ & Hen). split; [done|]. intros a st' (en' & Ha & Hd).
  unfold state_is. rewrite (Hen en He). destruct (decide (a = e)) as [->|Hne].
  - simplify_eq. rewrite lookup_insert_eq. eexists. split; [done|]. by case_bool_decide.
  - rewrite lookup_insert_ne by done. by exists en'.
Qed.

Lemma admit_cancel_from w0 w s st :
  wf w → evolves w0 w → pc_ok w s st →
  run_from w0 w (admit_cancel st) (λ _, states_kept w).
Proof.
  intros Hwf Ev Hok. unfold admit_cancel, pc_ok in *.
  destruct (ad_pc st) as [?| |? e f ? ?|? ? ?|? ?|? ?|?]; try by apply run_from_ret.
  apply access_cancel_from; [done|done|apply Hok].
Qed.

Lemma abandon_from w0 w b :
  wf w → evolves w0 w → body_ok w b →
  run_from w0 w (abandon (readmission b)) (λ _, states_kept w).
Proof.
  intros Hwf Ev [_ Hf]. unfold abandon.
  destruct (readmission b) as [[|st| | |]|]; try by apply run_from_ret.
  by eapply admit_cancel_from, (Hf _ eq_refl).
Qed.

Lemma drop_from w0 w b :
  wf w → evolves w0 w → body_ok w b →
  run_from w0 w (drop_readmission b)
    (λ b' w', states_kept w w' ∧ b' = set_readmission None b).
Proof.
  intros Hwf Ev Hok. eapply run_from_bind; [by apply abandon_from|]. intros u w1 Hwf1 Ev1 Hk.
  by apply run_from_ret.
Qed.

Lemma finish_from w0 w b :
  wf w → evolves w0 w → body_ok w b →
  run_from w0 w (finish b) (λ b' w', states_kept w w' ∧ b' = end_body b).
Proof.
  intros Hwf Ev Hok. eapply run_from_bind; [by apply abandon_from|]. intros u w1 Hwf1 Ev1 Hk.
  by apply run_from_ret.
Qed.

Lemma enforce_round_from w env b :
  wf w → body_ok w b → readmission b ≠ Some Readmission.Finished →
  run_ok w (enforce_round env b) (round_post w b).
Proof.
  intros Hwf Hok Hne. unfold enforce_round. eapply run_from_bind.
  { apply observe_from; [exact Hwf|reflexivity|apply (handle_settled _ _ _ (proj1 Hok))]. }
  intros o w1 Hwf1 Ev1 [Ev01 _].
  assert (body_ok w1 b) as Hok1 by by apply (body_ok_stable w).
  assert (Hself : ∀ r, r ≠ Round.Again → round_post w b (r, b) w1).
  { intros r Hr. split; [by split|done|by left|done|by left]. }
  destruct o; try (by apply run_from_ret; [..|apply Hself]).
  unfold stale_round. eapply run_from_bind; [by apply (check_without_refresh_from w w1)|].
  intros cached w2 Hwf2 Ev2 Hc. pose proof (check_granted w w1 _ _ _ Ev1 Hc) as Hg.
  assert (body_ok w2 b) as Hok2 by (apply (body_ok_stable w1); [apply Hc|done]).
  destruct cached as [a|]; [|by apply drive_from].
  specialize (Hg a eq_refl).
  eapply run_from_bind; [apply (allowed_from w w2 a); [done|done|by eapply handle_settled, granted_handle]|].
  intros allowed w3 Hwf3 Ev3 [Ev23 Ha].
  assert (granted w (subject b) a w3) as Hg3 by by apply (granted_weaken w w w2).
  assert (body_ok w3 b) as Hok3 by by apply (body_ok_stable w2).
  destruct allowed.
  - apply run_gets. case_match; [|by apply drive_from].
    eapply run_from_bind; [by apply drop_from|]. intros b' w4 Hwf4 Ev4 [[Ev34 Hk] ->].
    apply run_from_ret; [done|done|]. apply post_rebound; [done| |].
    + by apply (granted_weaken w w w3).
    + by apply Hk, Ha.
  - eapply run_from_bind; [apply (state_from w w3 a); [done|done|by eapply handle_settled, granted_handle]|].
    intros st w4 Hwf4 Ev4 [Ev34 _].
    assert (body_ok w4 b) as Hok4 by by apply (body_ok_stable w3).
    case_bool_decide; [|by apply drive_from].
    eapply run_from_bind; [by apply drop_from|]. intros b' w5 Hwf5 Ev5 [[Ev45 _] ->].
    apply run_from_ret; [done|done|]. apply post_cut, (handle_stable w4); [done|apply Hok4].
Qed.

(** *** After the loop *)

(** The same handle; the readmission is kept or given up. *)
Definition closes b b' : Prop :=
  subject b' = subject b ∧ admission b' = admission b ∧
  (readmission b' = readmission b ∨ readmission b' = None).

Lemma finish_then {A} w b (x : A) (i : B) :
  wf w → body_ok w b →
  run_ok w (b ← finish (set_inner i b); mret (x, b)) (λ y w',
    y.1 = x ∧ inner y.2 = i ∧ closes b y.2 ∧ states_kept w w').
Proof.
  intros Hwf Hok. eapply run_from_bind; [by apply (finish_from w w (set_inner i b))|].
  intros b' w1 Hwf1 Ev1 [Hk ->]. apply run_from_ret; [done|done|]. split_and!; try done. split_and!; try done. by right.
Qed.

Lemma keep_then {A} w b (x : A) (i : B) :
  wf w → run_ok w (mret (x, set_inner i b)) (λ y w',
    y.1 = x ∧ inner y.2 = i ∧ closes b y.2 ∧ states_kept w w').
Proof.
  intros Hwf. apply run_from_ret; [done|done|]. split_and!; try done. split_and!; try done. by left.
Qed.

Lemma inner_terminal_from w b :
  wf w → body_ok w b →
  run_ok w (poll_inner_terminal b) (λ x w',
    (x.1, inner x.2) = body_poll_frame (inner b) ∧ closes b x.2 ∧ states_kept w w').
Proof.
  intros Hwf Hok. unfold poll_inner_terminal.
  destruct (body_poll_frame (inner b)) as [out i] eqn:Ho.
  eapply (run_from_weaken _ _ _ (λ y w', y.1 = out ∧ inner y.2 = i ∧ closes b y.2 ∧ states_kept w w')).
  - destruct out as [[[frame|error]|]|]; [|by apply keep_then|by apply finish_then|by apply keep_then].
    destruct (frame_is_trailers frame); [by apply finish_then|by apply keep_then].
  - by intros [x y] w1 _ _ (<- & <- & Hc).
Qed.

Lemma cut_from w b :
  wf w → body_ok w b →
  run_ok w (cut b) (λ x w', x = (rejection b, end_body b) ∧
    ∃ w1, evolves w w1 ∧ w' = set_metrics (w_metrics w1 ++ [Metric.stream_cutoff]) w1).
Proof.
  intros Hwf Hok. eapply run_from_bind; [by apply finish_from|]. intros b' w1 Hwf1 Ev1 [_ ->].
  apply core_then; [done|done|by split|]. intros Hwf2 Ev2. apply run_from_ret; [done|done|].
  split; [done|]. by exists w1.
Qed.
End stream_methods.
