(* ===== verification/StreamContract.v ===== *)
(** * StreamContract: what an enforced body promises

    Theorems about [EnforcedBody::poll_frame] in every reachable world, for any
    inner body and any transport's rejection. *)

From S2P Require Export StreamMethods.

Section stream_contract.
Context {T P C : Type} `{Countable T, !LruCache T SubjectSlot C, !LruCacheOk T SubjectSlot C, TimeDriver}.
Context {B R : Type} `{HttpBody B, !StreamRejectionResponse B R}.
Implicit Types (w : World T P C) (e : positive) (s : T) (b : EnforcedBody B T R) (env : RoundEnv P).

(** The readmission future may be polled. *)
Definition resumable b : Prop := readmission b ≠ Some Readmission.Finished.

(** The last iteration of the loop, in the world and the body it started from. *)
Lemma enforce_last rounds b w r b' w' :
  wf w → body_ok w b → resumable b → enforce rounds b w = Some ((r, b'), w') →
  ∃ w1 b1 env, wf w1 ∧ evolves w w1 ∧ body_ok w1 b1 ∧ resumable b1 ∧ same_stream b b1 ∧
    rebound w b b1 w1 ∧ enforce_round env b1 w1 = Some ((r, b'), w') ∧ r ≠ Round.Again ∧
    (b1 = b ∧ w1 = w ∨ ∃ w2 b2 env', enforce_round env' b w = Some ((Round.Again, b2), w2)).
Proof.
  revert b w. induction rounds as [|env rounds IH]; intros b w Hwf Hok Hres Hrun; [done|].
  simpl in Hrun. apply run_bind in Hrun as ([r1 b1] & w1 & Hround & Hrun).
  destruct (decide (r1 = Round.Again)) as [->|Hne].
  2:{ exists w, b, env. assert (r1 = r ∧ b1 = b' ∧ w1 = w') as (-> & -> & ->).
      { destruct r1; [done|by injection Hrun..]. }
      split_and!; try done; by left. }
  destruct (run_from_run _ _ _ _ _ _ (enforce_round_from w env b Hwf Hok Hres) Hround)
    as (Hwf1 & Ev1 & [Hsame Hok1 Hreb Hag _]). simpl in *.
  destruct (Hag eq_refl) as [Hnone _].
  destruct (IH b1 w1 Hwf1 Hok1 ltac:(unfold resumable; by rewrite Hnone) Hrun)
    as (w2 & b2 & env2 & Hwf2 & Ev2 & Hok2 & Hres2 & Hs2 & Hr2 & Hrun2 & Hne2 & _).
  exists w2, b2, env2. split_and!; try done.
  - by transitivity w1.
  - by transitivity b1.
  - destruct Hr2 as [Heq|Hg]; [|right].
    + unfold rebound. rewrite Heq. destruct Hreb as [?|Hg]; [by left|right].
      by apply (granted_weaken w w w1).
    + rewrite (ss_subject _ _ Hsame) in Hg. by apply (granted_weaken w w1 w2).
  - right. by exists w1, b1, env.
Qed.

(** Inner frames are let through only from a body whose handle is observed
    allowed, or is stale while a readmission is under way. *)
Definition admits_frames w b w' b' : Prop :=
  (admission_observe (admission b') w = Some (Observed.Allowed, w') ∧ b' = b) ∨
  ((∃ w1, admission_observe (admission b) w = Some (Observed.Stale, w1)) ∧
   is_Some (readmission b')).

Lemma drive_deliver env b w woken b' w' :
  drive_readmission env b w = Some ((Round.Deliver woken, b'), w') → is_Some (readmission b').
Proof.
  unfold drive_readmission. intros ([[[a|]|] f] & w1 & _ & Hrun)%run_bind.
  - apply run_bind in Hrun as (allowed & w2 & _ & Hrun). destruct allowed; [by injection Hrun|].
    apply run_bind in Hrun as (st & w3 & _ & Hrun). injection Hrun as Hr _ _. by case_bool_decide.
  - apply run_bind in Hrun as (d & w2 & _ & Hrun).
    apply run_bind in Hrun as ([x g] & w3 & _ & Hrun). injection Hrun as _ <- _. by eexists.
  - injection Hrun as _ <- _. by eexists.
Qed.

Lemma stale_deliver env b w woken b' w' :
  stale_round env b w = Some ((Round.Deliver woken, b'), w') → is_Some (readmission b').
Proof.
  unfold stale_round. intros (cached & w1 & _ & Hrun)%run_bind.
  destruct cached as [a|]; [|by eapply drive_deliver].
  apply run_bind in Hrun as (allowed & w2 & _ & Hrun). destruct allowed.
  - apply run_bind in Hrun as (d & w3 & _ & Hrun).
    destruct (Duration.is_zero d); [|by eapply drive_deliver].
    by apply run_bind in Hrun as (b1 & w4 & _ & [=]).
  - apply run_bind in Hrun as (st & w3 & _ & Hrun).
    case_bool_decide; [|by eapply drive_deliver]. by apply run_bind in Hrun as (b1 & w4 & _ & [=]).
Qed.

Lemma round_deliver env b w woken b' w' :
  enforce_round env b w = Some ((Round.Deliver woken, b'), w') → admits_frames w b w' b'.
Proof.
  unfold enforce_round. intros (o & w1 & Ho & Hrun)%run_bind. destruct o; try by injection Hrun.
  - injection Hrun as _ <- <-. by left.
  - right. split; [by exists w1|by eapply stale_deliver].
Qed.

(** The outcome of a cut. *)
Definition cut_off b out b' w w' : Prop :=
  out = rejection b ∧ ended b' = true ∧ inner b' = inner b ∧
  ∃ w1, evolves w w1 ∧ w' = set_metrics (w_metrics w1 ++ [Metric.stream_cutoff]) w1.

(** The inner body was polled once, from a body that [admits_frames]. *)
Definition passed_on b out b' w w' : Prop :=
  (out, inner b') = body_poll_frame (inner b) ∧
  ∃ w1 b1 w2 b2, wf w1 ∧ evolves w w1 ∧ evolves w1 w' ∧ body_ok w1 b1 ∧ subject b1 = subject b ∧
    rebound w b b1 w1 ∧ admits_frames w1 b1 w2 b2 ∧ poll_inner_terminal b2 w2 = Some ((out, b'), w').

Lemma poll_enforced w b rounds out woken b' w' :
  wf w → body_ok w b → resumable b →
  is_end_stream b = false → poll_frame rounds b w = Some ((out, woken, b'), w') →
  (cut_off b out b' w w' ∨ passed_on b out b' w w') ∧
  (∀ o w1, admission_observe (admission b) w = Some (o, w1) →
     o = Observed.Denied ∨ o = Observed.Expired → cut_off b out b' w w').
Proof.
  intros Hwf Hok Hres Hlive Hrun.
  unfold poll_frame in Hrun. unfold is_end_stream in Hlive. rewrite Hlive in Hrun.
  apply run_bind in Hrun as ([r b2] & w2 & He & Hrun).
  destruct (enforce_last _ _ _ _ _ _ Hwf Hok Hres He)
    as (w1 & b1 & env & Hwf1 & Ev1 & Hok1 & Hres1 & Hs1 & Hreb & Hround & Hne & Hfirst).
  destruct (run_from_run _ _ _ _ _ _ (enforce_round_from w1 env b1 Hwf1 Hok1 Hres1) Hround)
    as (Hwf2 & Ev2 & [Hs2 Hok2 _ _ _]). simpl in Hs2, Hok2.
  assert (same_stream b b2) as Hs by by transitivity b1.
  assert (Hcut : r = Round.Cut → cut_off b out b' w w').
  { intros ->. apply run_bind in Hrun as ([x y] & w3 & Hc & Hrun).
    destruct (run_from_run _ _ _ _ _ _ (cut_from w2 b2 Hwf2 Hok2) Hc)
      as (_ & _ & [= -> ->] & w4 & Ev4 & ->). injection Hrun as <- <- <- <-. split_and!; try done.
    - unfold rejection. by rewrite (ss_response _ _ Hs), (ss_side _ _ Hs), (ss_message _ _ Hs).
    - simpl. apply Hs.
    - exists w4. split; [|done]. transitivity w1; [done|]. by transitivity w2. }
  split.
  - destruct r as [|woken2|]; [done| |left; by apply Hcut]. right.
    apply run_bind in Hrun as ([x y] & w3 & Hpt & Hrun). injection Hrun as <- <- <- <-.
    destruct (run_from_run _ _ _ _ _ _ (inner_terminal_from w2 b2 Hwf2 Hok2) Hpt)
      as (_ & Ev3 & Hout & _). simpl in Hout. rewrite (ss_inner _ _ Hs) in Hout. split; [done|].
    exists w1, b1, w2, b2. split_and!; try done; [by transitivity w2|apply Hs1|]. by eapply round_deliver.
  - intros o w3 Ho Hcase. apply Hcut. destruct Hfirst as [[-> ->]|(w4 & b4 & env' & Hag)].
    + unfold enforce_round in Hround. rewrite (run_bind_step _ _ _ _ _ Ho) in Hround.
      destruct Hcase as [-> | ->]; by injection Hround.
    + exfalso. unfold enforce_round in Hag. rewrite (run_bind_step _ _ _ _ _ Ho) in Hag.
      destruct Hcase as [-> | ->]; by injection Hag.
Qed.

(** C14. Enforcement.  A poll of a live body either cuts it (the rejection takes
    the place of the frame, the body is ended, the inner body is not polled and
    one cutoff is counted) or passes on exactly what one poll of the inner body
    gives, and then only under a handle of its subject that was observed allowed
    or, while stale, with a readmission under way.  A handle observed denied or
    expired is always cut. *)
Theorem stream_enforced config clock w b rounds out woken b' w' :
  deployment config clock → reachable config clock w → body_ok w b → resumable b →
  is_end_stream b = false → poll_frame rounds b w = Some ((out, woken, b'), w') →
  (cut_off b out b' w w' ∨ passed_on b out b' w w') ∧
  (∀ o w1, admission_observe (admission b) w = Some (o, w1) →
     o = Observed.Denied ∨ o = Observed.Expired → cut_off b out b' w w').
Proof.
  intros Hdep Hr. by apply poll_enforced, (reachable_wf _ _ _ Hdep Hr).
Qed.

(** The body after the loop, and after what follows it. *)
Record kept_post w b b' w' : Prop := {
  kp_ok : body_ok w' b';
  kp_subject : subject b' = subject b;
  kp_rebound : rebound w b b' w';
  kp_finished : readmission b' = Some Readmission.Finished →
    leapt w (admission_timeout (w_config w)) w';
}.

Lemma kept_closed w b b1 w1 b2 w2 :
  evolves w w1 → evolves w1 w2 → kept_post w b b1 w1 → closes b1 b2 → kept_post w b b2 w2.
Proof.
  intros Ev1 Ev2 [[Hh Hf] Hs Hr Hl] (Hs2 & Ha2 & Hr2).
  assert (∀ f, readmission b2 = Some f → readmission b1 = Some f) as Hre
    by (intros f Hb; destruct Hr2 as [<-|Hn]; congruence).
  split.
  - split; rewrite Hs2, ?Ha2; [by apply (handle_stable w1)|].
    intros f Hb. by eapply future_ok_stable, Hf, Hre.
  - congruence.
  - unfold rebound in *. rewrite Ha2. destruct Hr as [?|Hg]; [by left|right].
    by apply (granted_weaken w w w1).
  - intros Hb. by apply (leapt_mono w w _ w1), Hl, Hre.
Qed.

Lemma enforce_kept rounds w b r b' w' :
  wf w → body_ok w b → resumable b → enforce rounds b w = Some ((r, b'), w') →
  wf w' ∧ evolves w w' ∧ kept_post w b b' w' ∧ r ≠ Round.Again.
Proof.
  intros Hwf Hok Hres He.
  destruct (enforce_last _ _ _ _ _ _ Hwf Hok Hres He)
    as (w1 & b1 & env & Hwf1 & Ev1 & Hok1 & Hres1 & Hs1 & Hreb1 & Hround & Hne & _).
  destruct (run_from_run _ _ _ _ _ _ (enforce_round_from w1 env b1 Hwf1 Hok1 Hres1) Hround)
    as (Hwf2 & Ev2 & [Hs2 Hok2 Hreb2 _ Hfin]). simpl in *.
  split; [done|]. split; [by transitivity w1|]. split; [|done]. split.
  - done.
  - rewrite (ss_subject _ _ Hs2). apply Hs1.
  - destruct Hreb2 as [Heq|Hg]; [|right].
    + unfold rebound. rewrite Heq. destruct Hreb1 as [?|Hg]; [by left|right].
      by apply (granted_weaken w w w1).
    + rewrite (ss_subject _ _ Hs1) in Hg. by apply (granted_weaken w w1 w').
  - intros [?|Hl]%Hfin; [done|]. rewrite <-(ev_config _ _ Ev1).
    by apply (leapt_mono w w1 _ w').
Qed.

(** The body after a poll. *)
Lemma poll_kept w b rounds out woken b' w' :
  wf w → body_ok w b → resumable b → poll_frame rounds b w = Some ((out, woken, b'), w') →
  kept_post w b b' w'.
Proof.
  intros Hwf Hok Hres Hrun. unfold poll_frame in Hrun.
  assert (Hclose : ∀ b1 w1, evolves w w1 → evolves w1 w' → kept_post w b b1 w1 →
    closes b1 b' → kept_post w b b' w') by (intros b1 w1; apply kept_closed).
  destruct (ended b || _).
  { apply run_bind in Hrun as (b1 & w1 & Hfi & Hrun). injection Hrun as _ _ <- <-.
    destruct (run_from_run _ _ _ _ _ _ (finish_from w w b Hwf (reflexivity w) Hok) Hfi)
      as (_ & Ev1 & _ & ->).
    apply (Hclose b w); [done|done| |by split_and!; try done; right].
    split; [done|done|by left|]. intros Hf. by destruct Hres. }
  apply run_bind in Hrun as ([r b2] & w2 & He & Hrun).
  destruct (enforce_kept _ _ _ _ _ _ Hwf Hok Hres He) as (Hwf2 & Ev2 & Hk & Hne).
  destruct r as [|woken2|]; [done| |]; apply run_bind in Hrun as ([x y] & w3 & Hc & Hrun);
    injection Hrun as _ _ <- <-.
  - destruct (run_from_run _ _ _ _ _ _ (inner_terminal_from w2 b2 Hwf2 (kp_ok _ _ _ _ Hk)) Hc)
      as (_ & Ev3 & _ & Hcl & _). by apply (Hclose b2 w2).
  - destruct (run_from_run _ _ _ _ _ _ (cut_from w2 b2 Hwf2 (kp_ok _ _ _ _ Hk)) Hc)
      as (_ & Ev3 & [= -> ->] & _). apply (Hclose b2 w2); [done|done|done|].
    split_and!; try done. by right.
Qed.

(** C22. A body is never rebound to a stranger.  After a poll the body holds the
    handle it held or one that was granted for its own subject during that poll
    (listed under the subject with an unexpired verdict), and it can be polled
    again unless the clock advanced by a whole admission timeout between two
    consecutive readings of that poll. *)
Theorem stream_handle_sound config clock w b rounds out woken b' w' :
  deployment config clock → reachable config clock w → body_ok w b → resumable b →
  poll_frame rounds b w = Some ((out, woken, b'), w') →
  subject b' = subject b ∧ body_ok w' b' ∧
  (admission b' = admission b ∨ granted w (subject b) (admission b') w') ∧
  (¬ leapt w (admission_timeout config) w' → resumable b').
Proof.
  intros Hdep Hr Hok Hres Hrun. pose proof (reachable_wf _ _ _ Hdep Hr) as Hwf.
  destruct (poll_kept _ _ _ _ _ _ _ Hwf Hok Hres Hrun) as [Hok' Hs Hreb Hfin].
  pose proof (reachable_evolves _ _ _ Hdep Hr) as Ev0.
  rewrite (ev_config _ _ Ev0) in Hfin. split_and!; try done. intros Hno Hf. by apply Hno, Hfin.
Qed.

(** A poll returns.  Two iterations of the loop are enough for every poll of a
    resumable body, whatever the source answers, unless the first one read a
    handle from its readmission that was already stale again. *)
Theorem stream_poll_returns config clock w b env1 env2 :
  deployment config clock → reachable config clock w → body_ok w b → resumable b →
  is_Some (poll_frame [env1; env2] b w) ∨
  ∃ b1 w1, enforce_round env1 b w = Some ((Round.Again, b1), w1) ∧ admission b1 = admission b.
Proof.
  intros Hdep Hr Hok Hres. pose proof (reachable_wf _ _ _ Hdep Hr) as Hwf.
  assert (Hend : ∀ r b2 w2, r ≠ Round.Again → enforce [env1; env2] b w = Some ((r, b2), w2) →
    is_Some (poll_frame [env1; env2] b w)).
  { intros r b2 w2 Hne He. unfold poll_frame. destruct (ended b || _).
    { destruct (finish_from w w b Hwf (reflexivity w) Hok) as (b3 & w3 & Hfi & _).
      rewrite (run_bind_step _ _ _ _ _ Hfi). by eexists. }
    destruct (enforce_kept _ _ _ _ _ _ Hwf Hok Hres He) as (Hwf2 & _ & [Hok2 _ _ _] & _).
    rewrite (run_bind_step _ _ _ _ _ He). destruct r as [|woken|]; [done| |].
    - destruct (inner_terminal_from w2 b2 Hwf2 Hok2) as ([x y] & w3 & Hc & _).
      rewrite (run_bind_step _ _ _ _ _ Hc). by eexists.
    - destruct (cut_from w2 b2 Hwf2 Hok2) as ([x y] & w3 & Hc & _).
      rewrite (run_bind_step _ _ _ _ _ Hc). by eexists. }
  destruct (enforce_round_from w env1 b Hwf Hok Hres) as ([r b1] & w1 & Hround & _ & _ & Hpost).
  destruct (decide (r = Round.Again)) as [->|Hne].
  - destruct (rp_again _ _ _ _ Hpost eq_refl) as [_ [Hdec|Heq]]; [left|right; by exists b1, w1].
    destruct (Hdec env2) as (r2 & b2 & w2 & Hround2 & Hne2). simpl in Hround2.
    apply (Hend r2 b2 w2 Hne2). unfold enforce. rewrite (run_bind_step _ _ _ _ _ Hround).
    rewrite (run_bind_step _ _ _ _ _ Hround2). by destruct r2.
  - left. apply (Hend r b1 w1 Hne). unfold enforce. rewrite (run_bind_step _ _ _ _ _ Hround).
    by destruct r.
Qed.

(** ** The end of a stream *)

(** What the loop of a poll decided: nothing when the body, or the body inside, had
    ended before. *)
Definition loop_decision (rounds : list (RoundEnv P)) b w : option Round.t :=
  if is_end_stream b then None
  else match enforce rounds b w with Some ((r, _), _) => Some r | None => None end.

(** One poll: the body before and after it, its outcome, and what decided it. *)
Record PollEvent : Type := mkPoll {
  pe_before : EnforcedBody B T R;
  pe_decision : option Round.t;
  pe_out : Poll.t (option (result Frame BodyError));
  pe_after : EnforcedBody B T R;
}.

(** Successive polls of one body, [others] acting in between. *)
Inductive body_run (others : World T P C → World T P C → Prop) :
    list PollEvent → EnforcedBody B T R → World T P C → EnforcedBody B T R → World T P C → Prop :=
| body_run_nil b w : body_run others [] b w b w
| body_run_cons events b w w1 rounds out woken b1 w2 b' w' :
    others w w1 → poll_frame rounds b w1 = Some ((out, woken, b1), w2) →
    body_run others events b1 w2 b' w' →
    body_run others (mkPoll b (loop_decision rounds b w1) out b1 :: events) b w b' w'.

(** The end of the body, or trailers. *)
Definition final_outcome (out : Poll.t (option (result Frame BodyError))) : Prop :=
  out = Poll.Ready None ∨ ∃ frame, out = Poll.Ready (Some (Ok frame)) ∧ frame_is_trailers frame = true.

Lemma finish_ends b w b' w' : finish b w = Some (b', w') → b' = end_body b.
Proof. by intros (u & w1 & _ & [= <- _])%run_bind. Qed.

Lemma cut_ends b w x w' : cut b w = Some (x, w') → x = (rejection (end_body b), end_body b).
Proof.
  intros (b1 & w1 & ->%finish_ends & Hrun)%run_bind. by apply run_bind in Hrun as (u & w2 & _ & [= <- _]).
Qed.

Lemma drop_same b w b' w' : drop_readmission b w = Some (b', w') → same_stream b b'.
Proof. by intros (u & w1 & _ & [= <- _])%run_bind. Qed.

Lemma retry_same env b w r b' w' :
  retry_readmission env b w = Some ((r, b'), w') → same_stream b b'.
Proof.
  intros (delay & w1 & _ & Hrun)%run_bind. apply run_bind in Hrun as ([x f] & w2 & _ & [= _ <- _]).
  by split.
Qed.

Lemma drive_same env b w r b' w' :
  drive_readmission env b w = Some ((r, b'), w') → same_stream b b'.
Proof.
  intros ([[[a|]|] f] & w1 & _ & Hrun)%run_bind.
  - apply run_bind in Hrun as (allowed & w2 & _ & Hrun). destruct allowed; [by injection Hrun as _ <- _|].
    by apply run_bind in Hrun as (st & w3 & _ & [= _ <- _]).
  - apply retry_same in Hrun. transitivity (set_readmission None b); [by split|done].
  - by injection Hrun as _ <- _.
Qed.

(** An iteration changes neither the inner body nor whether this one has ended. *)
Lemma round_same env b w r b' w' : enforce_round env b w = Some ((r, b'), w') → same_stream b b'.
Proof.
  intros (o & w1 & _ & Hrun)%run_bind. destruct o; try by injection Hrun as _ <- _.
  apply run_bind in Hrun as (cached & w2 & _ & Hrun). destruct cached as [a|]; [|by eapply drive_same].
  apply run_bind in Hrun as (allowed & w3 & _ & Hrun). destruct allowed.
  - apply run_bind in Hrun as (d & w4 & _ & Hrun). destruct (Duration.is_zero d); [|by eapply drive_same].
    apply run_bind in Hrun as (b1 & w5 & Hd%drop_same & [= _ <- _]). transitivity b1; [done|by split].
  - apply run_bind in Hrun as (st & w4 & _ & Hrun). case_bool_decide; [|by eapply drive_same].
    by apply run_bind in Hrun as (b1 & w5 & Hd%drop_same & [= _ <- _]).
Qed.

Lemma enforce_same rounds b w r b' w' :
  enforce rounds b w = Some ((r, b'), w') → same_stream b b' ∧ r ≠ Round.Again.
Proof.
  revert b w. induction rounds as [|env rounds IH]; intros b w; [done|].
  intros ([r1 b1] & w1 & Hround%round_same & Hrun)%run_bind.
  destruct r1; try by injection Hrun as <- <- _. apply IH in Hrun as [Hs Hr].
  split; [by transitivity b1|done].
Qed.

Lemma inner_terminal_ends b w out b' w' :
  ended b = false → poll_inner_terminal b w = Some ((out, b'), w') →
  (out, inner b') = body_poll_frame (inner b) ∧ (ended b' = true ↔ final_outcome out).
Proof.
  intros He. unfold poll_inner_terminal, final_outcome. intros Hrun.
  destruct (body_poll_frame (inner b)) as [[[[frame|error]|]|] i].
  - apply run_bind in Hrun as (b1 & w1 & Hb & [= <- <- _]).
    destruct (frame_is_trailers frame) eqn:Ht; [apply finish_ends in Hb as ->|injection Hb as <- _]; simpl.
    + split; [done|]. split; [intros _; right; by exists frame|done].
    + split; [done|]. rewrite He. split; [done|]. intros [?|(f & [= <-] & ?)]; congruence.
  - injection Hrun as <- <- _. simpl. rewrite He. split; [done|].
    split; [done|]. by intros [?|(f & ? & _)].
  - apply run_bind in Hrun as (b1 & w1 & ->%finish_ends & [= <- <- _]). simpl.
    split; [done|]. by split; [left|].
  - injection Hrun as <- <- _. simpl. rewrite He. split; [done|].
    split; [done|]. by intros [?|(f & ? & _)].
Qed.

(** What a poll did, by what decided it. *)
Definition poll_did (ev : PollEvent) : Prop :=
  match pe_decision ev with
  | None =>
      pe_out ev = Poll.Ready None ∧ ended (pe_after ev) = true ∧
      inner (pe_after ev) = inner (pe_before ev)
  | Some Round.Cut =>
      pe_out ev = rejection (pe_before ev) ∧ ended (pe_after ev) = true ∧
      inner (pe_after ev) = inner (pe_before ev)
  | Some (Round.Deliver _) =>
      (pe_out ev, inner (pe_after ev)) = body_poll_frame (inner (pe_before ev)) ∧
      (ended (pe_after ev) = true ↔ final_outcome (pe_out ev))
  | Some Round.Again => False
  end.

Lemma poll_frame_did rounds b w out woken b' w' :
  poll_frame rounds b w = Some ((out, woken, b'), w') →
  poll_did (mkPoll b (loop_decision rounds b w) out b').
Proof.
  unfold poll_frame, poll_did, loop_decision. fold (is_end_stream b).
  destruct (is_end_stream b) eqn:He; simpl.
  { by intros (b1 & w1 & ->%finish_ends & [= <- _ <- _])%run_bind. }
  intros ([r b1] & w1 & Hrun & Hk)%run_bind. rewrite Hrun.
  destruct (enforce_same _ _ _ _ _ _ Hrun) as [Hs Hr].
  destruct r as [|woken1|]; [done| |].
  - apply run_bind in Hk as ([x y] & w2 & Hk & [= <- _ <- _]). rewrite <-(ss_inner _ _ Hs).
    eapply inner_terminal_ends; [|exact Hk]. rewrite (ss_ended _ _ Hs).
    unfold is_end_stream in He. by apply orb_false_iff in He as [? _].
  - apply run_bind in Hk as ([x y] & w2 & [= -> ->]%cut_ends & [= <- _ <- _]).
    split_and!; [|done|apply Hs]. unfold rejection. simpl.
    by rewrite (ss_response _ _ Hs), (ss_side _ _ Hs), (ss_message _ _ Hs).
Qed.

Lemma ended_run others events b w b' w' :
  ended b = true → body_run others events b w b' w' →
  Forall (λ ev, pe_decision ev = None ∧ pe_out ev = Poll.Ready None ∧
    ended (pe_after ev) = true ∧ inner (pe_after ev) = inner b) events.
Proof.
  intros He Hrun. revert He.
  induction Hrun as [|events b w w1 rounds out woken b1 w2 b' w' _ Hp _ IH]; intros He; [constructor|].
  pose proof (poll_frame_did _ _ _ _ _ _ _ Hp) as Hd. unfold poll_did, loop_decision, is_end_stream in *.
  rewrite He in *. simpl in Hd. destruct Hd as (-> & He' & Hi). constructor; [by split_and!|].
  rewrite <-Hi. by apply IH.
Qed.

(** C21. Nothing follows the end of a body.  Every poll of a live body either passes on
    exactly what one poll of the inner body gives, and then ends the body just when
    that is its end or trailers, or cuts it: the rejection, an error or trailers,
    takes the place of the frame, the inner body is not polled and the body has
    ended.  From the first poll that ended the body on, every poll returns the end
    and leaves the inner body alone, so a body is cut at most once and nothing
    follows its rejection. *)
Theorem stream_ends_once others events b w b' w' :
  body_run others events b w b' w' →
  Forall poll_did events ∧
  (∀ i j ev ev', (i < j)%nat → events !! i = Some ev → events !! j = Some ev' →
     ended (pe_after ev) = true →
     pe_decision ev' = None ∧ pe_out ev' = Poll.Ready None ∧ ended (pe_after ev') = true ∧
     inner (pe_after ev') = inner (pe_after ev)).
Proof.
  intros Hrun. induction Hrun as [|events b w w1 rounds out woken b1 w2 b' w' _ Hp Hrun [IH1 IH2]].
  { split; [constructor|]. intros i j. by rewrite lookup_nil. }
  split; [constructor; [by eapply poll_frame_did|done]|].
  intros [|i] [|j] ev ev' Hlt; simpl; [lia| |lia|apply IH2; lia].
  intros [= <-] Hj He. pose proof (ended_run _ _ _ _ _ _ He Hrun) as Hall.
  rewrite Forall_lookup in Hall. exact (Hall _ _ Hj).
Qed.
End stream_contract.

(** ** The theorems on concrete polls *)

(** A body of numbers that may end in trailers. *)
Inductive DemoFrame : Set := Data (n : nat) | Trailer.

#[export] Instance demo_http_body : HttpBody (list DemoFrame) := {
  Frame := DemoFrame;
  Headers := unit;
  BodyError := string;
  body_poll_frame l :=
    match l with [] => (Poll.Ready None, []) | x :: l => (Poll.Ready (Some (Ok x)), l) end;
  body_is_end_stream l := match l with [] => true | _ => false end;
  frame_trailers _ := Trailer;
  frame_is_trailers f := match f with Trailer => true | Data _ => false end;
}.

#[export] Instance demo_rejection : StreamRejectionResponse (list DemoFrame) unit := {
  stream_denied _ side_ message :=
    match side_ with
    | BodySide.Response => StreamRejection.Trailers tt
    | BodySide.Request => StreamRejection.Error message
    end;
}.

Abbreviation DemoStream := (EnforcedBody (list DemoFrame) nat unit).

(** A response of subject 7, admitted under entry 1. *)
Definition demo_stream : DemoStream :=
  body_new [Data 1; Data 2; Trailer] 7%nat 1 "denied" tt BodySide.Response.

Definition idle : RoundEnv nat := mkRoundEnv [] [].

Lemma demo_stream_ok (w : DemoWorld) :
  wf w → listed_as w 7%nat 1 → settled w 1 → body_ok w demo_stream.
Proof. intros Hwf Hl Hs. split; [|done]. split; [by apply listed_tracked|done]. Qed.

(** The subject was denied by the watch. *)
Definition demo_denied : DemoWorld :=
  exec (apply_change (mkDecisionChange 7%nat (Some Decision.Denied))) demo_admitted.

Lemma demo_denied_reachable : reachable demo_config demo_clock demo_denied.
Proof.
  apply from_demo_on. unfold gate_steps. transitivity demo_admitted; [exact demo_admitted_steps|].
  apply rtc_once.
  apply (step_apply_change _ (mkDecisionChange 7%nat (Some Decision.Denied)) tt).
  vm_compute. reflexivity.
Qed.

Lemma demo_denied_ok : body_ok demo_denied demo_stream.
Proof.
  apply demo_stream_ok.
  - apply (reachable_wf demo_config demo_clock), demo_denied_reachable. apply demo_deployment.
  - eexists. split; [vm_compute; left|reflexivity].
  - eexists. split; [vm_compute; reflexivity|]. vm_compute. discriminate.
Qed.

Lemma stream_enforced_witness :
  cut_off demo_stream (Poll.Ready (Some (Ok Trailer))) (end_body demo_stream) demo_denied
    (exec (poll_frame [idle] demo_stream) demo_denied).
Proof.
  refine (proj2 (stream_enforced demo_config demo_clock demo_denied demo_stream [idle]
    (Poll.Ready (Some (Ok Trailer))) false (end_body demo_stream)
    (exec (poll_frame [idle] demo_stream) demo_denied) _ _ _ _ _ _)
    Observed.Denied (exec (admission_observe 1) demo_denied) _ _).
  - apply demo_deployment.
  - apply demo_denied_reachable.
  - apply demo_denied_ok.
  - discriminate.
  - reflexivity.
  - vm_compute. reflexivity.
  - vm_compute. reflexivity.
  - left. reflexivity.
Defined.

Lemma demo_admitted_ok : body_ok demo_admitted demo_stream.
Proof. apply demo_stream_ok; [apply demo_admitted_wf|apply demo_listed|apply demo_handle]. Qed.

Lemma stream_handle_sound_witness :
  resumable (set_inner [Data 2; Trailer] demo_stream).
Proof.
  refine (proj2 (proj2 (proj2 (stream_handle_sound demo_config demo_clock demo_admitted demo_stream
    [idle] (Poll.Ready (Some (Ok (Data 1)))) false (set_inner [Data 2; Trailer] demo_stream)
    (exec (poll_frame [idle] demo_stream) demo_admitted) _ _ _ _ _))) _).
  - apply demo_deployment.
  - apply demo_admitted_reachable.
  - apply demo_admitted_ok.
  - discriminate.
  - vm_compute. reflexivity.
  - intros (n & [Hn Hm] & _). vm_compute in Hn, Hm. lia.
Defined.

Lemma stream_poll_returns_witness :
  is_Some (poll_frame [idle; idle] demo_stream demo_admitted) ∨
  ∃ b1 w1, enforce_round idle demo_stream demo_admitted = Some ((Round.Again, b1), w1) ∧
    admission b1 = admission demo_stream.
Proof.
  apply (stream_poll_returns demo_config demo_clock demo_admitted demo_stream idle idle).
  - apply demo_deployment.
  - apply demo_admitted_reachable.
  - apply demo_admitted_ok.
  - discriminate.
Defined.

Definition DemoOutcome : Type :=
  Poll.t (option (result (Frame (B:=list DemoFrame)) (BodyError (B:=list DemoFrame)))).
Definition trailers_out : DemoOutcome := Poll.Ready (Some (Ok Trailer)).
Definition end_out : DemoOutcome := Poll.Ready None.
Definition demo_cut : DemoWorld := exec (poll_frame [idle] demo_stream) demo_denied.

Definition cut_poll : PollEvent :=
  mkPoll demo_stream (Some Round.Cut) trailers_out (end_body demo_stream).
Definition ended_poll : PollEvent :=
  mkPoll (end_body demo_stream) None end_out (end_body demo_stream).

Lemma demo_run :
  body_run eq [cut_poll; ended_poll] demo_stream demo_denied (end_body demo_stream) demo_cut.
Proof.
  apply (body_run_cons eq [ended_poll] demo_stream demo_denied demo_denied [idle] trailers_out false
    (end_body demo_stream) demo_cut); [reflexivity|vm_compute; reflexivity|].
  apply (body_run_cons eq [] (end_body demo_stream) demo_cut demo_cut [idle] end_out false
    (end_body demo_stream) demo_cut); [reflexivity|vm_compute; reflexivity|].
  constructor.
Qed.

Lemma stream_ends_once_witness : pe_out ended_poll = Poll.Ready None.
Proof.
  refine (proj1 (proj2 (proj2 (stream_ends_once eq [cut_poll; ended_poll] demo_stream demo_denied
    (end_body demo_stream) demo_cut demo_run) 0%nat 1%nat cut_poll ended_poll _ _ _ _))).
  - lia.
  - reflexivity.
  - reflexivity.
  - reflexivity.
Defined.

(** ** A finished retry is stored and polled again

    The source stores the retry of a failed readmission even when its first poll
    has completed it, to be "picked up on the next poll".  The next poll of a
    completed future panics.  Here the watcher is gone and the clock passes the
    admission timeout between the two readings of the retry's sleep. *)

Definition leaping_clock : nat → Z := λ n, if (n <? 20)%nat then 1000 else 1045.
Definition leaping_init : DemoWorld := gate_new demo_config leaping_clock.
Definition leaping_admitted : DemoWorld :=
  exec (admit_now 7 Decision.Allowed) (exec watch_connected leaping_init).
Definition leaping_dropped : DemoWorld := exec watcher_drop leaping_admitted.
Definition one_try : RoundEnv nat :=
  mkRoundEnv [answering Decision.Allowed] [answering Decision.Allowed].

Definition finished_stream : DemoStream :=
  set_inner [Data 2; Trailer] (set_readmission (Some Readmission.Finished) demo_stream).
Definition leaping_polled : DemoWorld := exec (poll_frame [one_try] demo_stream) leaping_dropped.

Lemma finished_retry_panics :
  poll_frame [one_try] demo_stream leaping_dropped
    = Some ((Poll.Ready (Some (Ok (Data 1))), true, finished_stream), leaping_polled) ∧
  ∀ rounds, poll_frame rounds finished_stream leaping_polled = None.
Proof.
  split; [vm_compute; reflexivity|].
  assert (∀ env, enforce_round env finished_stream leaping_polled = None) as Hp
    by (intros env; vm_compute; reflexivity).
  intros [|env rounds]; [reflexivity|]. unfold poll_frame. cbn [ended finished_stream].
  change (ended finished_stream || body_is_end_stream (inner finished_stream)) with false.
  simpl. unfold mbind, M_bind. by rewrite Hp.
Qed.
