(* ===== verification/Layer.v ===== *)
(** * Layer: the Tower middleware ([src/layer.rs], [src/grpc.rs])

    [PolicyGateMiddleware::call] and the future it returns, as a control-point
    machine over the gate; the response future; the renderings of rejections; the
    throttle of the missing-subject log.  The host's policy, its bodies, the inner
    service and [tonic::Status] are parameters. *)

From S2P Require Export StreamContract.

(** ** HTTP messages ([http]) *)

Record Request (X Bd : Type) : Type := mkRequest {
  request_parts : X;
  request_body : Bd;
}.
Arguments mkRequest {X Bd}.
Arguments request_parts {X Bd}.
Arguments request_body {X Bd}.

Definition HeaderMap : Type := gmap string string.

Record Response (Bd : Type) : Type := mkHttpResponse {
  status : Z;
  headers : HeaderMap;
  response_body : Bd;
}.
Arguments mkHttpResponse {Bd}.
Arguments status {Bd}.
Arguments headers {Bd}.
Arguments response_body {Bd}.

(** [Response::new]. *)
Definition response_new {Bd} (body : Bd) : Response Bd := mkHttpResponse 200 ∅ body.

Module StatusCode.
Definition TOO_MANY_REQUESTS : Z := 429.
Definition BAD_REQUEST : Z := 400.
Definition SERVICE_UNAVAILABLE : Z := 503.
End StatusCode.

Definition CONTENT_LENGTH : string := "content-length".
Definition CONTENT_TYPE : string := "content-type".

(** ** Traits of the layer *)

Class RequestPolicy (T X Bd : Type) : Type := {
  policy_subject : Request X Bd → option T;
  enforce_request_body : Request X Bd → bool;
  enforce_response_body : Request X Bd → bool;
}.

Class BodyAdapter (A Bd : Type) : Type := {
  adapt {X : Type} : A → X → Bd;
  make_body : A → string → Bd;
}.

(** [AdmissionUnavailable] carries nothing. *)
Inductive AdmissionUnavailable : Set := AdmissionUnavailable_.

Class RejectionResponse (R A Bd : Type) : Type := {
  denied : R → A → string → Response Bd;
  missing_subject : R → A → string → Response Bd;
  unavailable : R → A → AdmissionUnavailable → string → Response Bd;
}.

Definition UNAVAILABLE_MESSAGE : string :=
  "Policy decision source is unavailable; retry the request.".

Record PolicyGateLayerConfig : Type := mkLayerConfig {
  denied_message : string;
  missing_subject_message : string;
}.

(** [AxumBodyAdapter]: [axum_new] and [axum_from] are [Body::new] and [Body::from]
    of [axum_core]. *)
Inductive AxumBodyAdapter : Set := AxumBody.

Definition axum_adapter {Bd : Type} (axum_new : ∀ B : Type, B → Bd) (axum_from : string → Bd) :
    BodyAdapter AxumBodyAdapter Bd := {|
  adapt _ _ body := axum_new _ body;
  make_body _ bytes := axum_from bytes;
|}.

(** ** Renderings *)

(** The gRPC codes of the rejections. *)
Module GrpcCode.
Inductive t : Set := FailedPrecondition | Unavailable.
End GrpcCode.

(** *** Plain HTTP *)

Section http.
Context {A Bd : Type} `{BodyAdapter A Bd}.

Definition http_response (body : A) (status_ : Z) (message : string) : Response Bd :=
  let response := response_new (make_body body message) in
  mkHttpResponse status_ (headers response) (response_body response).

Inductive HttpRejectionResponse : Set := HttpRejection.

#[export] Instance http_rejection : RejectionResponse HttpRejectionResponse A Bd := {
  denied _ body message := http_response body StatusCode.TOO_MANY_REQUESTS message;
  missing_subject _ body message := http_response body StatusCode.BAD_REQUEST message;
  unavailable _ body _ message := http_response body StatusCode.SERVICE_UNAVAILABLE message;
}.

(** [LimitExceededError] and its [Display]. *)
Record LimitExceededError : Type := mkLimitExceeded { limit_message : string }.
Definition limit_exceeded_fmt (e : LimitExceededError) : string := limit_message e.

(** [box_error] makes the [LimitExceededError] a boxed error of the body. *)
Definition http_stream_denied {E H} (box_error : LimitExceededError → E) (_ : BodySide.t)
    (message : string) : StreamRejection.t E H :=
  StreamRejection.Error (box_error (mkLimitExceeded message)).

(** [UnavailableResponseAdapter]: the wrapped policy and the callback. *)
Record UnavailableResponseAdapter (R : Type) : Type := mkUnavailable {
  wrapped : R;
  unavailable_response : AdmissionUnavailable → Response Bd;
}.

#[export] Instance unavailable_adapter {R} `{RejectionResponse R A Bd} :
    RejectionResponse (UnavailableResponseAdapter R) A Bd := {
  denied r body message := denied (wrapped _ r) body message;
  missing_subject r body message := missing_subject (wrapped _ r) body message;
  unavailable r _ error _ := unavailable_response _ r error;
}.

#[export] Instance unavailable_stream {R B} `{StreamRejectionResponse B R} :
    StreamRejectionResponse B (UnavailableResponseAdapter R) := {
  stream_denied r side_ message := stream_denied (wrapped _ r) side_ message;
}.

(** *** gRPC *)

(** [Status::new(code, message).add_header(headers)] of tonic; [None] is the
    error the source [expect]s not to happen. *)
Context (add_header : GrpcCode.t → string → HeaderMap → option HeaderMap).

Definition status_response (body : A) (code : GrpcCode.t) (message : string) :
    option (Response Bd) :=
  let response := response_new (make_body body "") in
  match add_header code message (headers response) with
  | Some h =>
      Some (mkHttpResponse (status response) (<[CONTENT_TYPE := "application/grpc"]> h)
              (response_body response))
  | None => None
  end.

Definition tonic_denied (body : A) (message : string) : option (Response Bd) :=
  status_response body GrpcCode.FailedPrecondition message.
Definition tonic_missing_subject (body : A) (message : string) : option (Response Bd) :=
  status_response body GrpcCode.FailedPrecondition message.
Definition tonic_unavailable (body : A) (message : string) : option (Response Bd) :=
  status_response body GrpcCode.Unavailable message.

Definition status_headers (code : GrpcCode.t) (message : string) : option HeaderMap :=
  add_header code message ∅.

(** [failed_precondition] is [tonic::Status::failed_precondition] as an error. *)
Definition tonic_stream_denied {E} (failed_precondition : string → E) (side_ : BodySide.t)
    (message : string) : option (StreamRejection.t E HeaderMap) :=
  match side_ with
  | BodySide.Response =>
      option_map StreamRejection.Trailers (status_headers GrpcCode.FailedPrecondition message)
  | BodySide.Request => Some (StreamRejection.Error (failed_precondition message))
  end.
End http.

(** ** The missing-subject log *)

Definition MISSING_SUBJECT_LOG_INTERVAL_SECS : Z := 60.

(** What one caller of [should_log_missing_subject] does after it has read the
    clock ([now]) and loaded [next]: the compare-and-exchange on the cell. *)
Definition should_log_missing_subject (now next cell : Z) : bool * Z :=
  if (next <=? now) && (cell =? next)
  then (true, u64_saturating_add now MISSING_SUBJECT_LOG_INTERVAL_SECS)
  else (false, cell).

(** ** The middleware *)

(** [EnforcedResponseFuture] without its inner future. *)
Record EnforcedResponseFuture (T : Type) : Type := mkResponseFuture {
  rf_subject : T;
  rf_admission : option positive;
  rf_enforce_response_body : bool;
}.
Arguments mkResponseFuture {T}.
Arguments rf_subject {T}.
Arguments rf_admission {T}.
Arguments rf_enforce_response_body {T}.

(** Where a call stands: answered, handed to the inner service, or suspended in
    one of the awaits of the boxed future. *)
Module CallPc.
Inductive t (T X Bd : Type) : Type :=
| Respond (r : Response Bd)
| Forward (request : Request X Bd) (future : EnforcedResponseFuture T)
| TryCached
| CachedAccess (first_poll : bool) (entry fetch : positive) (queue_deadline : Z)
| Admit
| Admitting (st : AdmitState).
Arguments Respond {T X Bd}.
Arguments Forward {T X Bd}.
Arguments TryCached {T X Bd}.
Arguments CachedAccess {T X Bd}.
Arguments Admit {T X Bd}.
Arguments Admitting {T X Bd}.
End CallPc.

Section layer.
Context {T P C : Type} `{Countable T, !LruCache T SubjectSlot C, TimeDriver}.
Context {X A Bd R : Type} `{!RequestPolicy T X Bd, !BodyAdapter A Bd, !RejectionResponse R A Bd}.
Context (config : PolicyGateLayerConfig) (body : A) (response_ : R).
Abbreviation G := (M (World T P C)).
Abbreviation Pc := (CallPc.t T X Bd).
Implicit Types (s : T) (request : Request X Bd) (a : positive).

Definition deny : G (Response Bd) :=
  _ ← emit Metric.denial;
  mret (denied response_ body (denied_message config)).

Definition pass_through request s a : Pc :=
  let enforced := enforce_request_body request in
  let request' :=
    if enforced then
      mkRequest (request_parts request)
        (adapt body (body_new (request_body request) s a (denied_message config) response_
                       BodySide.Request))
    else request in
  CallPc.Forward request' (mkResponseFuture s (Some a) (enforce_response_body request)).

(** The three uses of a handle: allowed, denied, or neither. *)
Definition use_admission request s a (otherwise : G Pc) : G Pc :=
  allowed ← admission_is_allowed a;
  if allowed : bool then mret (pass_through request s a)
  else
    st ← admission_state a;
    if bool_decide (st = AdmissionState.Denied) then
      r ← deny;
      mret (CallPc.Respond r)
    else otherwise.

Definition snapshot_missed : G Pc :=
  _ ← emit Metric.snapshot_miss;
  mret CallPc.Admit.

(** [call], up to the future it returns; the log is [should_log_missing_subject]. *)
Definition call request : G Pc :=
  match policy_subject request with
  | None =>
      _ ← emit Metric.missing_subject_rejection;
      mret (CallPc.Respond (missing_subject response_ body (missing_subject_message config)))
  | Some s =>
      limit ← gets (λ w, refresh_before_expiry (w_config w));
      if Duration.is_zero limit then
        cached ← check_without_refresh s;
        match cached with
        | Some a => use_admission request s a snapshot_missed
        | None => snapshot_missed
        end
      else mret CallPc.TryCached
  end.

(** Where [try_cached] leads. *)
Definition after_cached request s (r : Access.t) : G Pc :=
  match r with
  | Access.Done (Some a) => use_admission request s a snapshot_missed
  | Access.Done None => snapshot_missed
  | Access.Enqueue entry fetch queue_deadline =>
      mret (CallPc.CachedAccess true entry fetch queue_deadline)
  end.

(** Where [admit] leads: a handle that went stale meanwhile starts it again. *)
Definition after_admit request s (st : AdmitState) : G Pc :=
  match ad_pc st with
  | AdmitPc.Return (Some a) => use_admission request s a (mret CallPc.Admit)
  | AdmitPc.Return None =>
      _ ← emit Metric.unavailable_rejection;
      mret (CallPc.Respond (unavailable response_ body AdmissionUnavailable_ UNAVAILABLE_MESSAGE))
  | _ => mret (CallPc.Admitting st)
  end.

(** One step of the boxed future. *)
Definition call_step request s (env : AdmitEnv P) (pc : Pc) : G Pc :=
  match pc with
  | CallPc.Respond _ | CallPc.Forward _ _ => mret pc
  | CallPc.TryCached =>
      r ← check_begin s;
      after_cached request s r
  | CallPc.CachedAccess first_poll entry fetch queue_deadline =>
      r ← access_poll first_poll entry fetch queue_deadline (env_send env);
      match r with
      | Poll.Pending => mret (CallPc.CachedAccess false entry fetch queue_deadline)
      | Poll.Ready a => after_cached request s (Access.Done a)
      end
  | CallPc.Admit =>
      st ← admit_begin;
      after_admit request s st
  | CallPc.Admitting st =>
      st' ← admit_step s env st;
      after_admit request s st'
  end.

(** The boxed future is dropped. *)
Definition call_cancel (pc : Pc) : G unit :=
  match pc with
  | CallPc.CachedAccess _ entry fetch _ => access_cancel entry fetch
  | CallPc.Admitting st => admit_cancel st
  | _ => mret tt
  end.

(** One poll of [EnforcedResponseFuture]; [inner_] is the poll of the service's
    future.  Polled after its completion it panics. *)
Definition response_future_poll {Rb : Type} (inner_ : Poll.t (Response Rb))
    (f : EnforcedResponseFuture T) : option (Poll.t (Response Bd) * EnforcedResponseFuture T) :=
  match inner_ with
  | Poll.Pending => Some (Poll.Pending, f)
  | Poll.Ready r =>
      match rf_admission f with
      | None => None
      | Some a =>
          let response :=
            if rf_enforce_response_body f then
              mkHttpResponse (status r) (delete CONTENT_LENGTH (headers r))
                (adapt body (body_new (response_body r) (rf_subject f) a
                               (denied_message config) response_ BodySide.Response))
            else mkHttpResponse (status r) (headers r) (adapt body (response_body r)) in
          Some (Poll.Ready response,
                mkResponseFuture (rf_subject f) None (rf_enforce_response_body f))
      end
  end.
End layer.
