(* ===== verification/LayerContract.v ===== *)
(** * LayerContract: what the middleware promises

    A request reaches the inner service only under a handle of its subject that
    was just observed allowed; every other outcome is one rejection, rendered by
    the host's policy and counted once. *)

From S2P Require Export Layer.

Section layer_contract.
Context {T P C : Type} `{Countable T, !LruCache T SubjectSlot C, !LruCacheOk T SubjectSlot C, TimeDriver}.
Context {X A Bd R : Type} `{!RequestPolicy T X Bd, !BodyAdapter A Bd, !RejectionResponse R A Bd}.
Context (config : PolicyGateLayerConfig) (body : A) (response_ : R).
Abbreviation Pc := (CallPc.t T X Bd).
Implicit Types (w : World T P C) (s : T) (request : Request X Bd) (a : positive) (pc : Pc).

(** The references a suspended call holds. *)
Definition call_ok w s pc : Prop :=
  match pc with
  | CallPc.CachedAccess _ e f _ => tracked w s e ∧ is_Some (w_fetches w !! f)
  | CallPc.Admitting st => pc_ok w s st ∧ ∀ r, ad_pc st ≠ AdmitPc.Return r
  | _ => True
  end.

(** The handle was seen denied between [w] and [w']. *)
Definition seen_denied w a w' : Prop :=
  ∃ w1 w2, evolves w w1 ∧ evolves w2 w' ∧
    admission_state a w1 = Some (AdmissionState.Denied, w2).

(** [w'] has counted one more event of the kind [m], and it is the last. *)
Definition counted_last (m : Metric.t) w' : Prop := ∃ l, w_metrics w' = l ++ [m].

(** What a step of the call may lead to. *)
Definition call_post w request s pc w' : Prop :=
  call_ok w' s pc ∧
  match pc with
  | CallPc.Forward request' f => ∃ a,
      granted w s a w' ∧ state_is w' a EntryState.Allowed ∧
      pc = pass_through config body response_ request s a
  | CallPc.Respond r =>
      r = denied response_ body (denied_message config) ∧ counted_last Metric.denial w' ∧
        (∃ a, granted w s a w' ∧ seen_denied w a w') ∨
      r = unavailable response_ body AdmissionUnavailable_ UNAVAILABLE_MESSAGE ∧
        counted_last Metric.unavailable_rejection w'
  | _ => True
  end.

(** Handles seen denied keep their witness. *)
Lemma denied_from w0 w a :
  wf w → evolves w0 w → settled w a →
  run_from w0 w (admission_state a) (λ x w', evolves w w' ∧
    (x = AdmissionState.Denied → seen_denied w0 a w')).
Proof.
  intros Hwf Ev Hs. destruct (state_from w w a Hwf (reflexivity w) Hs)
    as (x & w' & Hrun & Hwf' & Ev' & _). exists x, w'. split; [done|]. split; [done|].
  split; [by transitivity w|]. split; [done|]. intros ->. by exists w, w'.
Qed.

Lemma emit_last w0 w m :
  wf w → evolves w0 w →
  run_from w0 w (emit m) (λ _ w', same_core w w' ∧ counted_last m w').
Proof. intros Hwf Ev. apply core_last; [done|done|by split|]. split; [by split|by eexists]. Qed.

Lemma deny_from w0 w :
  wf w → evolves w0 w → run_from w0 w (deny config body response_) (λ r w', same_core w w' ∧
    r = denied response_ body (denied_message config) ∧ counted_last Metric.denial w').
Proof.
  intros Hwf Ev. eapply then_from; [by apply emit_last|]. intros u w1 Hwf1 Ev1 [Hc Hl].
  by apply run_from_ret.
Qed.

Lemma seen_denied_later w0 w a w' : seen_denied w0 a w → evolves w w' → seen_denied w0 a w'.
Proof. intros (w1 & w2 & E1 & E2 & Hs) Ev. exists w1, w2. split_and!; [done|by transitivity w|done]. Qed.

Lemma use_admission_from w0 w request s a (otherwise : M (World T P C) Pc) :
  wf w → evolves w0 w → granted w0 s a w →
  (∀ w1, wf w1 → evolves w0 w1 → run_from w0 w1 otherwise (call_post w0 request s)) →
  run_from w0 w (use_admission config body response_ request s a otherwise)
    (call_post w0 request s).
Proof.
  intros Hwf Ev Hg Helse. unfold use_admission. eapply run_from_bind.
  { apply (allowed_from w0 w a); [done|done|by eapply handle_settled, granted_handle]. }
  intros allowed w1 Hwf1 Ev1 [Evw Ha].
  assert (granted w0 s a w1) as Hg1 by by apply (granted_weaken w0 w0 w).
  destruct allowed.
  { apply run_from_ret; [done|done|]. split; [done|]. exists a. split_and!; [done|by apply Ha|done]. }
  eapply run_from_bind.
  { apply (denied_from w0 w1 a); [done|done|by eapply handle_settled, granted_handle]. }
  intros st w2 Hwf2 Ev2 [Ev12 Hd].
  assert (granted w0 s a w2) as Hg2 by by apply (granted_weaken w0 w0 w1).
  case_bool_decide as Hst; [|by apply Helse]. specialize (Hd Hst).
  eapply run_from_bind; [by apply deny_from|]. intros r w3 Hwf3 Ev3 (Hc & -> & Hl).
  apply run_from_ret; [done|done|]. split; [done|]. left. split; [done|]. split; [done|].
  assert (evolves w2 w3) as Ev23 by by apply evolves_same_core.
  exists a. split; [by apply (granted_weaken w0 w0 w2)|by apply (seen_denied_later w0 w2)].
Qed.

Lemma missed_from w0 w request s :
  wf w → evolves w0 w → run_from w0 w snapshot_missed (call_post w0 request s).
Proof.
  intros Hwf Ev. apply core_then; [done|done|by split|]. intros Hwf1 Ev1. by apply run_from_ret.
Qed.

(** Without a subject the gate is not consulted. *)
Lemma call_without_subject request w :
  policy_subject request = None →
  call config body response_ request w =
    Some (CallPc.Respond (missing_subject response_ body (missing_subject_message config)),
      set_metrics (w_metrics w ++ [Metric.missing_subject_rejection]) w).
Proof. intros Hs. unfold call. by rewrite Hs. Qed.

Lemma call_from w request s :
  wf w → policy_subject request = Some s →
  run_ok w (call config body response_ request) (call_post w request s).
Proof.
  intros Hwf Hs. unfold call. rewrite Hs. apply run_gets. case_match; [|by apply run_from_ret].
  eapply run_from_bind; [by apply check_without_refresh_from|].
  intros cached w1 Hwf1 Ev1 Hc. pose proof (check_granted w w s cached w1 (reflexivity w) Hc) as Hg.
  destruct cached as [a|]; [|by apply missed_from].
  apply use_admission_from; [done|done|by apply Hg|]. intros w2 Hwf2 Ev2. by apply missed_from.
Qed.

Lemma after_cached_from w0 w request s r :
  wf w → evolves w0 w →
  match r with
  | Access.Done (Some a) => granted w0 s a w
  | Access.Done None => True
  | Access.Enqueue e f _ => tracked w s e ∧ is_Some (w_fetches w !! f)
  end →
  run_from w0 w (after_cached config body response_ request s r) (call_post w0 request s).
Proof.
  intros Hwf Ev Hr. destruct r as [[a|]|e f q]; simpl.
  - apply use_admission_from; [done|done|done|]. intros w1 Hwf1 Ev1. by apply missed_from.
  - by apply missed_from.
  - by apply run_from_ret.
Qed.

Lemma after_admit_from w0 w request s st :
  wf w → evolves w0 w → pc_ok w s st →
  (∀ a, ad_pc st = AdmitPc.Return (Some a) → granted w0 s a w) →
  run_from w0 w (after_admit config body response_ request s st) (call_post w0 request s).
Proof.
  intros Hwf Ev Hok Hg. unfold after_admit.
  destruct (ad_pc st) as [| | | | | |[a|]] eqn:Hpc;
    try (apply run_from_ret; [done|done|]; split; [|done]; split; [exact Hok|intros ret; by rewrite Hpc]).
  - apply use_admission_from; [done|done|by apply Hg|]. intros w1 Hwf1 Ev1. by apply run_from_ret.
  - eapply then_from; [by apply emit_last|]. intros u w1 Hwf1 Ev1 [_ Hl].
    apply run_from_ret; [done|done|]. split; [done|]. by right.
Qed.

Lemma call_step_from w request s env pc :
  wf w → call_ok w s pc →
  match pc with CallPc.Respond _ | CallPc.Forward _ _ => False | _ => True end →
  run_ok w (call_step config body response_ request s env pc) (call_post w request s).
Proof.
  intros Hwf Hok Hlive. destruct pc as [r|request' f| |first e f q| |st]; try done; simpl.
  - eapply run_from_bind; [by apply check_begin_from|]. intros r w1 Hwf1 Ev1 [_ Hb].
    apply after_cached_from; [done|done|]. destruct (w_snapshot w !! s) as [e|]; [|by rewrite Hb].
    destruct r as [[a|]|e' f q]; simpl in Hb; [by destruct Hb as [-> Hg]|done|].
    destruct Hb as (-> & [Ht _] & en & _ & _ & Hf). split; [done|by eexists].
  - destruct Hok as [Ht Hf]. eapply run_from_bind; [by apply (access_poll_from w w s e f)|].
    intros r w1 Hwf1 Ev1 [_ Hr]. destruct r as [r|].
    + apply (after_cached_from w w1 request s (Access.Done r)); [done|done|].
      destruct r as [a|]; [|done]. by destruct (proj1 Hr a eq_refl) as [-> Hg].
    + apply run_from_ret; [done|done|]. split; [|done]. split; [by apply (tracked_stable w)|].
      destruct Hf as [pf Hf]. destruct (ev_fetches _ _ Ev1 _ _ Hf) as (pf' & ? & _). by exists pf'.
  - eapply run_from_bind; [by apply admit_begin_from|]. intros st w1 Hwf1 Ev1 (_ & Hpc & Hcase).
    apply after_admit_from; [done|done|done|]. intros a Ha. destruct Hcase; congruence.
  - destruct Hok as [Hok Hret].
    eapply run_from_bind; [by apply admit_step_ok|]. intros st' w1 Hwf1 Ev1 Hpost.
    destruct Hpost as [[_ Hsp]|(r & Hr & _)]; [|by destruct (Hret r)].
    apply after_admit_from; [done|done|apply Hsp|apply Hsp].
Qed.

Lemma call_cancel_from w s pc :
  wf w → call_ok w s pc → run_ok w (call_cancel pc) (λ _, states_kept w).
Proof.
  intros Hwf Hok. destruct pc as [?|? ?| |? e f ?| |st]; try by apply run_from_ret.
  - apply access_cancel_from; [done|done|apply Hok].
  - by eapply admit_cancel_from, Hok.
Qed.

(** ** The contract *)

(** The call is still undecided. *)
Definition undecided pc : Prop :=
  match pc with CallPc.Respond _ | CallPc.Forward _ _ => False | _ => True end.

(** C12. Only admitted requests reach the inner service.  Every step of a call, its
    synchronous part or a segment of its future, runs to its end; if it hands the
    request to the service, then with a handle of the request's subject that was
    granted and observed allowed during that step; and if it answers the request
    itself, then as denied (the handle was seen denied, one denial counted) or as
    unavailable (one unavailable rejection counted).  Dropping the future instead
    runs to its end and changes no verdict. *)
Theorem layer_forwards_admitted cfg clock w request s :
  deployment cfg clock → reachable cfg clock w → policy_subject request = Some s →
  (∃ pc w', call config body response_ request w = Some (pc, w') ∧ call_post w request s pc w') ∧
  (∀ env pc, undecided pc → call_ok w s pc →
     ∃ pc' w', call_step config body response_ request s env pc w = Some (pc', w') ∧
       call_post w request s pc' w') ∧
  (∀ pc, call_ok w s pc → ∃ w', call_cancel pc w = Some (tt, w') ∧ states_kept w w').
Proof.
  intros Hdep Hr Hs. pose proof (reachable_wf _ _ _ Hdep Hr) as Hwf. split_and!.
  - destruct (call_from w request s Hwf Hs) as (pc & w' & Hrun & _ & _ & Hp). by exists pc, w'.
  - intros env pc Hu Hok.
    destruct (call_step_from w request s env pc Hwf Hok Hu) as (pc' & w' & Hrun & _ & _ & Hp).
    by exists pc', w'.
  - intros pc Hok. destruct (call_cancel_from w s pc Hwf Hok) as ([] & w' & Hrun & _ & _ & Hk).
    by exists w'.
Qed.

(** A step that hands the request to the service. *)
Definition forwards w request s request' f w' : Prop :=
  call config body response_ request w = Some (CallPc.Forward request' f, w') ∨
  ∃ env pc, undecided pc ∧ call_ok w s pc ∧
    call_step config body response_ request s env pc w = Some (CallPc.Forward request' f, w').

(** C23. The wrapped bodies are enforced.  After a request was handed to the service,
    the response whose body is to be enforced loses its content length and gets a
    live body that holds the request's handle and meets the premises of the stream
    contract in every later world; any other response keeps its headers.  The
    request body, when it is to be enforced, is wrapped the same way. *)
Theorem layer_bodies_enforced cfg clock w request s w' w2 request' f {Rb : Type}
    (r : Response Rb) :
  deployment cfg clock → reachable cfg clock w → policy_subject request = Some s →
  forwards w request s request' f w' → gate_steps w' w2 →
  ∃ a, (∀ (i : Rb) side_, let b := body_new i s a (denied_message config) response_ side_ in
          body_ok w2 b ∧ resumable b ∧ ended b = false) ∧
    (enforce_request_body request = true → request_body request' =
       adapt body (body_new (request_body request) s a (denied_message config) response_
                     BodySide.Request)) ∧
    (enforce_request_body request = false → request' = request) ∧
    ∃ response f', response_future_poll config body response_ (Poll.Ready r) f =
        Some (Poll.Ready response, f') ∧
      rf_admission f' = None ∧ status response = status r ∧
      (enforce_response_body request = true →
         headers response = delete CONTENT_LENGTH (headers r) ∧
         response_body response = adapt body (body_new (response_body r) s a
           (denied_message config) response_ BodySide.Response)) ∧
      (enforce_response_body request = false → headers response = headers r).
Proof.
  intros Hdep Hr Hs Hfw Hst. pose proof (reachable_wf _ _ _ Hdep Hr) as Hwf.
  assert (wf w' ∧ call_post w request s (CallPc.Forward request' f) w')
    as (Hwf' & _ & a & Hg & _ & Hpc).
  { destruct Hfw as [Hrun|(env & pc & Hu & Hok & Hrun)].
    - by destruct (run_from_run _ _ _ _ _ _ (call_from w request s Hwf Hs) Hrun) as (? & _ & ?).
    - by destruct (run_from_run _ _ _ _ _ _ (call_step_from w request s env pc Hwf Hok Hu) Hrun)
        as (? & _ & ?). }
  destruct (gate_steps_ok _ _ Hwf' Hst) as [_ Ev]. unfold pass_through in Hpc.
  injection Hpc as -> ->. exists a. split_and!.
  - intros i side_. split; [|done]. split; [|done]. simpl.
    apply (handle_stable w'); [done|by eapply granted_handle].
  - intros ->. done.
  - intros ->. done.
  - unfold response_future_poll. simpl. eexists _, _. split; [reflexivity|].
    destruct (enforce_response_body request); by split_and!.
Qed.
End layer_contract.

(** ** The log throttle *)

(** The shared cell, and callers that load it, are delayed, and then run their
    compare-and-exchange, in any order.  [logs] are the times of the calls that
    logged, latest first. *)
Inductive log_run : Z → list Z → Prop :=
| log_start : log_run 0 []
| log_call cell logs now next logged cell' :
    log_run cell logs → 0 ≤ now → should_log_missing_subject now next cell = (logged, cell') →
    log_run cell' (if logged then now :: logs else logs).

Lemma log_cell cell logs :
  log_run cell logs →
  match logs with [] => cell = 0 | t :: _ => cell = Z.min u64_max (t + 60) end.
Proof.
  induction 1 as [|cell logs now next logged cell' _ IH Hnow Hlog]; [done|].
  unfold should_log_missing_subject in Hlog. destruct (_ && _); injection Hlog as <- <-; done.
Qed.

(** The missing-subject log is throttled.  However many callers race on the
    shared cell, two calls that log are at least sixty seconds apart. *)
Theorem missing_subject_log_throttled cell logs i t t' :
  log_run cell logs → logs !! S i = Some t → logs !! i = Some t' →
  Z.min u64_max (t + 60) ≤ t'.
Proof.
  intros Hrun. revert i t t'.
  induction Hrun as [|cell logs now next logged cell' Hrun IH Hnow Hlog]; intros i t t'.
  { by rewrite !lookup_nil. }
  unfold should_log_missing_subject in Hlog.
  destruct (Z.leb_spec next now) as [Hle|]; simpl in Hlog; [|injection Hlog as <- <-; apply IH].
  destruct (Z.eqb_spec cell next) as [->|]; injection Hlog as <- <-; [|apply IH].
  destruct i as [|i]; simpl; [|apply IH]. intros Ht [= <-].
  pose proof (log_cell _ _ Hrun) as Hcell. destruct logs as [|t1 logs]; [done|].
  injection Ht as <-. lia.
Qed.

(** ** The theorems on concrete calls *)

Inductive DemoBody : Set := Plain | Adapted.

#[export] Instance demo_policy : RequestPolicy nat (option nat) DemoBody := {
  policy_subject request := request_parts request;
  enforce_request_body _ := true;
  enforce_response_body _ := true;
}.

#[export] Instance demo_adapter : BodyAdapter unit DemoBody := {
  adapt _ _ _ := Adapted;
  make_body _ _ := Plain;
}.

Definition demo_messages : PolicyGateLayerConfig := mkLayerConfig "denied" "no subject".
Definition demo_request : Request (option nat) DemoBody := mkRequest (Some 7%nat) Plain.

(** The admission of the request waits for the refresh queue. *)
Definition demo_pc : CallPc.t nat (option nat) DemoBody :=
  CallPc.Admitting (mkAdmit 2000 1 (AdmitPc.Access true 1 2 1044 true)).

Lemma demo_call_ok : call_ok demo_admitted 7%nat demo_pc.
Proof.
  split; [|done]. split; [|split; [vm_compute; discriminate|vm_compute; eauto]].
  apply listed_tracked; [apply demo_admitted_wf|apply demo_listed].
Qed.

Lemma layer_forwards_admitted_witness :
  ∃ pc' w', call_step demo_messages tt HttpRejection demo_request 7%nat
      (answering Decision.Allowed) demo_pc demo_admitted = Some (pc', w') ∧
    call_post demo_messages tt HttpRejection demo_admitted demo_request 7%nat pc' w'.
Proof.
  refine (proj1 (proj2 (layer_forwards_admitted demo_messages tt HttpRejection demo_config demo_clock
    demo_admitted demo_request 7%nat _ _ _)) (answering Decision.Allowed) demo_pc _ _).
  - apply demo_deployment.
  - apply demo_admitted_reachable.
  - reflexivity.
  - exact I.
  - apply demo_call_ok.
Defined.

Definition demo_forwarded : Request (option nat) DemoBody := mkRequest (Some 7%nat) Adapted.
Definition demo_future : EnforcedResponseFuture nat :=
  mkResponseFuture 7%nat (Some 1%positive) true.

Lemma layer_bodies_enforced_witness :
  ∃ a : positive, enforce_request_body demo_request = true ∧
    body_ok (exec (call_step demo_messages tt HttpRejection demo_request 7%nat
        (answering Decision.Allowed) demo_pc) demo_admitted)
      (body_new (B:=nat) 0%nat 7%nat a "denied" HttpRejection BodySide.Response).
Proof.
  destruct (layer_bodies_enforced demo_messages tt HttpRejection demo_config demo_clock
    demo_admitted demo_request 7%nat
    (exec (call_step demo_messages tt HttpRejection demo_request 7%nat
      (answering Decision.Allowed) demo_pc) demo_admitted)
    (exec (call_step demo_messages tt HttpRejection demo_request 7%nat
      (answering Decision.Allowed) demo_pc) demo_admitted)
    demo_forwarded demo_future (response_new 0%nat)) as (a & Hb & _).
  - apply demo_deployment.
  - apply demo_admitted_reachable.
  - reflexivity.
  - right. exists (answering Decision.Allowed), demo_pc. split; [exact I|].
    split; [apply demo_call_ok|vm_compute; reflexivity].
  - constructor.
  - exists a. split; [reflexivity|]. apply (Hb 0%nat BodySide.Response).
Defined.

Lemma missing_subject_log_throttled_witness : Z.min u64_max (1000 + 60) ≤ 1075.
Proof.
  refine (missing_subject_log_throttled 1135 [1075; 1000] 0 1000 1075 _ _ _).
  - apply (log_call 1060 [1000] 1075 1060 true 1135); [|lia|vm_compute; reflexivity].
    apply (log_call 0 [] 1000 0 true 1060); [constructor|lia|vm_compute; reflexivity].
  - reflexivity.
  - reflexivity.
Defined.
