(* ===== verification/Heard.v ===== *)
(** * Heard: the middleware and the enforced bodies beside the history

    [hears h m]: from a sound world in which every verdict was stated ([sourced]),
    what [m] leaves behind was stated too, nothing new being heard of the watch.
    A call of the middleware, a poll of its future and a poll of an enforced body
    all do, when the source answers the lookups they poll. *)

From S2P Require Export Authority LayerContract.

Section heard.
Context {T P C : Type} `{Countable T, !LruCache T SubjectSlot C, !LruCacheOk T SubjectSlot C, TimeDriver}.
Context (reply : positive → result (option (DecisionResult P)) DecisionSourceError).
Implicit Types (w : World T P C) (h : History T) (e f : positive) (s : T) (st : AdmitState).

(** Whatever lookup the step polls, the source answers it. *)
Definition answers_truly (env : AdmitEnv P) : Prop := ∀ f, faithful reply f (env_answer env f).

Abbreviation silent m :=
  (∀ n, always (Authorship.quiet n noone nothing) (m : M (World T P C) _)).

Definition hears {A} h w (m : M (World T P C) A) : Prop :=
  ∀ a w', m w = Some (a, w') → sourced reply h w → sourced reply h w'.

Lemma hears_silent {A} h w (m : M (World T P C) A) Q :
  run_ok w m Q → wf w → silent m → hears h w m.
Proof.
  intros Hok Hwf Hm a w' Hrun Hs. destruct (run_from_run _ _ _ _ _ _ Hok Hrun) as (_ & Ev & _).
  by eapply (sourced_silent reply h w w'); [..|eapply Hm|].
Qed.

Lemma hears_ret {A} h w (a : A) : hears h w (mret a).
Proof. by intros b w' [= _ <-]. Qed.

Lemma hears_bind {A B} h w (m : M (World T P C) A) (k : A → M (World T P C) B) Q :
  run_ok w m Q → hears h w m →
  (∀ a w1, wf w1 → evolves w w1 → Q a w1 → hears h w1 (k a)) → hears h w (m ≫= k).
Proof.
  intros Hok Hm Hk b w' (a & w1 & Hr1 & Hr2)%run_bind Hs.
  destruct (run_from_run _ _ _ _ _ _ Hok Hr1) as (Hwf1 & Ev1 & HQ).
  eapply Hk; [done..|exact Hr2|]. by eapply Hm.
Qed.

(** The usual case: the first part writes no verdict. *)
Lemma hears_then {A B} h w (m : M (World T P C) A) (k : A → M (World T P C) B) Q :
  wf w → run_ok w m Q → silent m →
  (∀ a w1, wf w1 → evolves w w1 → Q a w1 → hears h w1 (k a)) → hears h w (m ≫= k).
Proof. intros Hwf Hok Hm. by eapply hears_bind, hears_silent. Qed.

Lemma hears_admit h w s env st :
  wf w → pc_ok w s st → answers_truly env → hears h w (admit_step s env st).
Proof. intros Hwf Hpc Henv st' w' Hrun Hs. by eapply told_waits. Qed.

(** An allowed handle of [s] was stated to be allowed. *)
Lemma allowed_stated h w s e :
  wf w → sourced reply h w → handle w s e → state_is w e EntryState.Allowed →
  ∃ r, stated reply h w s r ∧ decision r = Decision.Allowed.
Proof.
  intros Hwf Hs [[_ Ht] _] (en & He & Hd). unfold entry_decode in Hd.
  destruct (in_force reply h w e en Hwf Hs He) as (s' & r & Hl & Hr & Hst & _).
  { unfold holds_verdict. by rewrite Hd. }
  exists r. rewrite (Ht s' Hl) in Hr. split; [done|]. rewrite Hd in Hst. by destruct (decision r).
Qed.

(** ** The readmission of a body *)

Section stream.
Context {B R : Type} `{HttpBody B, !StreamRejectionResponse B R}.
Implicit Types (b : EnforcedBody B T R) (env : RoundEnv P).

Definition answers_all (envs : list (AdmitEnv P)) : Prop := Forall answers_truly envs.
Definition round_answers env : Prop := answers_all (re_readmission env) ∧ answers_all (re_retry env).

Lemma hears_poll_admission h envs s st w :
  wf w → pc_ok w s st → answers_all envs → hears h w (poll_admission envs s st).
Proof.
  intros Hwf Hpc Henvs. revert st w Hwf Hpc. induction Henvs as [|env envs Henv _ IH];
    intros st w Hwf Hpc; simpl; [by case_match; apply hears_ret|].
  assert (hears h w (st' ← admit_step s env st;
    if suspended (ad_pc st') then mret (Poll.Pending, Readmission.Admitting st')
    else poll_admission envs s st')) as Hstep.
  { eapply hears_bind; [by apply admit_step_ok|by apply hears_admit|].
    intros st' w1 Hwf1 Ev1 Hpost. destruct (suspended _); [by apply hears_ret|]. apply IH; [done|].
    destruct Hpost as [[_ Hsp]|(r & _ & -> & ->)]; [apply Hsp|done]. }
  destruct (ad_pc st); [exact Hstep..|by apply hears_ret].
Qed.

Lemma hears_poll_begin h envs s w : wf w → answers_all envs → hears h w (poll_begin envs s).
Proof.
  intros Hwf Henvs. eapply hears_then; [done|by apply admit_begin_from|quiet|].
  intros st w1 Hwf1 _ (_ & Hpc & _). by apply hears_poll_admission.
Qed.

Lemma now_ok w : wf w → run_ok w D_now (λ _ _, True).
Proof. intros Hwf. by eapply run_from_weaken; [apply D_now_ok|]. Qed.

Lemma hears_poll_sleep h envs s wake w : wf w → answers_all envs → hears h w (poll_sleep envs s wake).
Proof.
  intros Hwf Henvs. eapply hears_then; [done|by apply now_ok|quiet|].
  intros now w1 Hwf1 _ _. destruct (sleep_poll _ _); [by apply hears_poll_begin|apply hears_ret].
Qed.

Lemma hears_readmission h envs s (f : Readmission.t) w :
  wf w → future_ok w s f → answers_all envs → hears h w (readmission_poll envs s f).
Proof.
  intros Hwf Hf Henvs. destruct f as [|st|d|wake|]; simpl.
  - by apply hears_poll_begin.
  - by apply hears_poll_admission; [|apply Hf|].
  - eapply hears_then; [done|by apply now_ok|quiet|]. intros now w1 Hwf1 _ _. by apply hears_poll_sleep.
  - by apply hears_poll_sleep.
  - by intros x w'.
Qed.

(** *** A round *)

Lemma hears_retry h env b w : wf w → round_answers env → hears h w (retry_readmission env b).
Proof.
  intros Hwf [_ Henv]. unfold retry_readmission. intros x w' (d & w1 & Hd & Hrun)%run_bind.
  injection Hd as <- <-. revert x w' Hrun. eapply hears_bind.
  - by apply (readmission_poll_from w w _ _ (Readmission.Delay _)).
  - by apply hears_readmission.
  - intros [r f] w1 _ _ _. apply hears_ret.
Qed.

Lemma hears_drive h env b w :
  wf w → body_ok w b → resumable b → round_answers env → hears h w (drive_readmission env b).
Proof.
  intros Hwf [_ Hf] Hres Henv. unfold drive_readmission.
  assert (future_ok w (subject b) (default Readmission.Begin (readmission b)) ∧
    default Readmission.Begin (readmission b) ≠ Readmission.Finished) as [Hfo Hne].
  { unfold resumable in Hres. destruct (readmission b) as [f|]; [|done]. split; [by apply Hf|].
    simpl. congruence. }
  eapply hears_bind; [by apply (readmission_poll_from w w)|apply hears_readmission; [done..|apply Henv]|].
  intros [[[a|]|] f] w1 Hwf1 Ev1 (_ & _ & Hg); [|by apply hears_retry|by apply hears_ret].
  assert (settled w1 a) as Ha by (eapply handle_settled, granted_handle, Hg; done).
  eapply hears_then; [done|by apply (allowed_from w1 w1)|quiet|].
  intros allowed w2 Hwf2 Ev2 _. destruct allowed; [by apply hears_ret|].
  eapply hears_then; [done|apply (state_from w2 w2 a); [done|done|by eapply settled_stable]|quiet|].
  intros x w3 _ _ _. apply hears_ret.
Qed.

Lemma silent_gives_up r : silent (abandon r).
Proof. intros n. unfold abandon. quiet. apply quiet_admit_cancel. Qed.
Lemma silent_abandon {A} r (a : A) : silent (_ ← abandon r; mret a).
Proof. intros n. unfold abandon. quiet. apply quiet_admit_cancel. Qed.
Lemma silent_drop b : silent (drop_readmission b).
Proof. apply silent_abandon. Qed.
Lemma silent_finish b : silent (finish b).
Proof. apply silent_abandon. Qed.

Lemma hears_stale h env b w :
  wf w → body_ok w b → resumable b → round_answers env → hears h w (stale_round env b).
Proof.
  intros Hwf Hok Hres Henv. unfold stale_round.
  eapply hears_then; [done|by apply (check_without_refresh_from w w)|quiet|].
  intros cached w1 Hwf1 Ev1 Hc. assert (body_ok w1 b) as Hok1 by by apply (body_ok_stable w).
  destruct cached as [a|]; [|by apply hears_drive].
  assert (settled w1 a) as Ha
    by (eapply handle_settled, granted_handle, (check_granted w w); [done|exact Hc|done]).
  eapply hears_then; [done|by apply (allowed_from w1 w1)|quiet|].
  intros allowed w2 Hwf2 Ev2 _. assert (body_ok w2 b) as Hok2 by by apply (body_ok_stable w1).
  assert (∀ (r : Round.t) (g : EnforcedBody B T R → EnforcedBody B T R) w0, wf w0 → body_ok w0 b →
    hears h w0 (b ← drop_readmission b; mret (r, g b))) as Hdrop.
  { intros r g w0 Hwf0 Hok0. eapply hears_then; [done|by apply drop_from|apply silent_drop|].
    intros b' w3 _ _ _. apply hears_ret. }
  destruct allowed.
  - intros x w' (d & w3 & Hd & Hrun)%run_bind. injection Hd as <- <-. revert x w' Hrun.
    case_match; [by apply Hdrop|by apply hears_drive].
  - eapply hears_then; [done|apply (state_from w2 w2 a); [done|done|by eapply settled_stable]|quiet|].
    intros x w3 Hwf3 Ev3 _. assert (body_ok w3 b) as Hok3 by by apply (body_ok_stable w2).
    case_bool_decide; [by apply (Hdrop _ id)|by apply hears_drive].
Qed.

Lemma hears_round h env b w :
  wf w → body_ok w b → resumable b → round_answers env → hears h w (enforce_round env b).
Proof.
  intros Hwf Hok Hres Henv. unfold enforce_round.
  eapply hears_then; [done|apply (observe_from w w); [done|done|eapply handle_settled, Hok]|quiet|].
  intros o w1 Hwf1 Ev1 _. assert (body_ok w1 b) as Hok1 by by apply (body_ok_stable w).
  destruct o; try apply hears_ret. by apply hears_stale.
Qed.

Lemma hears_enforce h rounds b w :
  wf w → body_ok w b → resumable b → Forall round_answers rounds → hears h w (enforce rounds b).
Proof.
  intros Hwf Hok Hres Hrounds. revert b w Hwf Hok Hres.
  induction Hrounds as [|env rounds Henv _ IH]; intros b w Hwf Hok Hres; [by intros x w'|]. simpl.
  eapply hears_bind; [by apply enforce_round_from|by apply hears_round|].
  intros [r b'] w1 Hwf1 Ev1 [_ Hok' _ Hag _]. simpl in Hok', Hag.
  destruct r; try apply hears_ret. destruct (Hag eq_refl) as [Hno _].
  apply IH; [done|done|]. unfold resumable. by rewrite Hno.
Qed.

(** *** The poll *)

Lemma silent_terminal b : silent (poll_inner_terminal b).
Proof.
  intros n. unfold poll_inner_terminal. pose proof (λ b, silent_finish b n) as Hf.
  destruct (body_poll_frame (inner b)) as [out i]. quiet. all: apply Hf.
Qed.

Lemma silent_cut b : silent (cut b).
Proof. intros n. unfold cut. pose proof (λ b, silent_finish b n) as Hf. quiet. Qed.

Lemma hears_poll_frame h rounds b w :
  wf w → body_ok w b → resumable b → Forall round_answers rounds → hears h w (poll_frame rounds b).
Proof.
  intros Hwf Hok Hres Hrounds. unfold poll_frame. destruct (_ || _).
  { eapply hears_then; [done|by apply (finish_from w w)|apply silent_finish|].
    intros b' w1 _ _ _. apply hears_ret. }
  intros x w' Hrun Hs. apply run_bind in Hrun as ([r b1] & w1 & He & Hrun).
  destruct (enforce_kept _ _ _ _ _ _ Hwf Hok Hres He) as (Hwf1 & Ev1 & Hk & Hne).
  pose proof (hears_enforce h _ _ _ Hwf Hok Hres Hrounds _ _ He Hs) as Hs1.
  pose proof (kp_ok _ _ _ _ Hk) as Hok1.
  refine ((_ : hears h w1 _) _ _ Hrun Hs1). clear Hrun Hs1. destruct r as [|woken|]; [done| |].
  - eapply hears_then; [done|by apply inner_terminal_from|apply silent_terminal|].
    intros [out b'] w2 _ _ _. apply hears_ret.
  - eapply hears_then; [done|by apply cut_from|apply silent_cut|].
    intros [out b'] w2 _ _ _. apply hears_ret.
Qed.

(** *** A body whose readmission is spent

    A finished readmission makes the next poll that drives it panic; a poll that
    does not is the poll of the body without it. *)

Definition spent b b2 : Prop := readmission b = Some Readmission.Finished ∧ b2 = set_readmission None b.

(** The bodies are the same, or the first still has its spent readmission. *)
Definition alike b b2 : Prop := b = b2 ∨ spent b b2.

Lemma spent_round env b b2 w r b' w' :
  spent b b2 → enforce_round env b w = Some ((r, b'), w') →
  ∃ b2', enforce_round env b2 w = Some ((r, b2'), w') ∧ alike b' b2' ∧ (r = Round.Again → b' = b2').
Proof.
  intros [Hsp ->] (o & w1 & Ho & Hrun)%run_bind. unfold enforce_round. simpl.
  rewrite (run_bind_step _ _ _ _ _ Ho).
  assert (Hself : ∀ r0, r0 ≠ Round.Again → Some ((r0, b), w1) = Some ((r, b'), w') →
    ∃ b2', Some ((r0, set_readmission None b), w1) = Some ((r, b2'), w') ∧ alike b' b2' ∧
      (r = Round.Again → b' = b2')).
  { intros r0 Hr0 [= <- <- <-]. eexists. split; [reflexivity|]. split; [by right|done]. }
  destruct o; try (by apply Hself). unfold stale_round in *. simpl.
  apply run_bind in Hrun as (cached & w2 & Hc & Hrun). rewrite (run_bind_step _ _ _ _ _ Hc).
  assert (∀ x w0, ¬ drive_readmission env b w0 = Some x) as Hno
    by (intros x w0; unfold drive_readmission; by rewrite Hsp).
  destruct cached as [a|]; [|by apply Hno in Hrun].
  apply run_bind in Hrun as (allowed & w3 & Ha & Hrun). rewrite (run_bind_step _ _ _ _ _ Ha).
  destruct allowed.
  - apply run_bind in Hrun as (d & w4 & Hd & Hrun). rewrite (run_bind_step _ _ _ _ _ Hd).
    destruct (Duration.is_zero d); [|by apply Hno in Hrun].
    apply run_bind in Hrun as (b1 & w5 & Hdr & Hrun). unfold drop_readmission in *. rewrite Hsp in Hdr.
    injection Hdr as <- <-. injection Hrun as <- <- <-. eexists. split; [reflexivity|]. by split; [left|].
  - apply run_bind in Hrun as (x & w4 & Hx & Hrun). rewrite (run_bind_step _ _ _ _ _ Hx).
    case_bool_decide; [|by apply Hno in Hrun].
    apply run_bind in Hrun as (b1 & w5 & Hdr & Hrun). unfold drop_readmission in *. rewrite Hsp in Hdr.
    injection Hdr as <- <-. injection Hrun as <- <- <-. eexists. split; [reflexivity|]. by split; [left|].
Qed.

Lemma spent_enforce rounds b b2 w r b' w' :
  spent b b2 → enforce rounds b w = Some ((r, b'), w') →
  ∃ b2', enforce rounds b2 w = Some ((r, b2'), w') ∧ alike b' b2'.
Proof.
  intros Hsp. destruct rounds as [|env rounds]; [done|]. simpl.
  intros ([r1 b1] & w1 & Hr & Hrun)%run_bind.
  destruct (spent_round _ _ _ _ _ _ _ Hsp Hr) as (b2' & Hr2 & Hal & Hag).
  rewrite (run_bind_step _ _ _ _ _ Hr2). destruct r1.
  - rewrite <-(Hag eq_refl). exists b'. split; [done|by left].
  - injection Hrun as <- <- <-. by exists b2'.
  - injection Hrun as <- <- <-. by exists b2'.
Qed.

Lemma alike_finish b b2 w : alike b b2 → finish b w = finish b2 w.
Proof. intros [->|[Hsp ->]]; [done|]. unfold finish. by rewrite Hsp. Qed.

Lemma alike_inner i b b2 : alike b b2 → alike (set_inner i b) (set_inner i b2).
Proof. intros [->|[Hsp ->]]; [by left|]. by right. Qed.

Lemma alike_terminal b b2 w out b' w' :
  alike b b2 → poll_inner_terminal b w = Some ((out, b'), w') →
  ∃ b2', poll_inner_terminal b2 w = Some ((out, b2'), w') ∧ alike b' b2'.
Proof.
  intros Hal. unfold poll_inner_terminal.
  assert (inner b2 = inner b) as -> by (destruct Hal as [->|[_ ->]]; done).
  destruct (body_poll_frame (inner b)) as [o i]. pose proof (alike_inner i _ _ Hal) as Hi.
  assert (Hend : ∀ x : Poll.t (option (result Frame BodyError)),
    (b ← finish (set_inner i b); mret (x, b)) w = Some ((out, b'), w') →
    ∃ b2', (b ← finish (set_inner i b2); mret (x, b)) w = Some ((out, b2'), w') ∧ alike b' b2').
  { intros x. unfold mbind, M_bind. rewrite (alike_finish _ _ _ Hi). intros Hx. exists b'. split; [done|by left]. }
  assert (Hkeep : ∀ x : Poll.t (option (result Frame BodyError)),
    (mret (x, set_inner i b) : M (World T P C) _) w = Some ((out, b'), w') →
    ∃ b2', (mret (x, set_inner i b2) : M (World T P C) _) w = Some ((out, b2'), w') ∧ alike b' b2').
  { intros x [= <- <- <-]. by eexists. }
  destruct o as [[[frame|error]|]|]; [|by apply Hkeep|by apply Hend|by apply Hkeep].
  destruct (frame_is_trailers frame); [by apply Hend|by apply Hkeep].
Qed.

Lemma spent_poll rounds b b2 w out woken b' w' :
  spent b b2 → poll_frame rounds b w = Some ((out, woken, b'), w') →
  ∃ b2', poll_frame rounds b2 w = Some ((out, woken, b2'), w') ∧ alike b' b2'.
Proof.
  intros Hsp. assert (alike b b2) as Hal by by right. unfold poll_frame.
  assert (ended b2 = ended b ∧ inner b2 = inner b) as [-> ->] by by destruct Hsp as [_ ->].
  destruct (_ || _).
  { unfold mbind, M_bind. rewrite (alike_finish _ _ _ Hal). intros Hx. exists b'. split; [done|by left]. }
  intros ([r b1] & w1 & He & Hrun)%run_bind.
  destruct (spent_enforce _ _ _ _ _ _ _ Hsp He) as (b1' & He2 & Hal1).
  rewrite (run_bind_step _ _ _ _ _ He2).
  assert (Hcut : (x ← cut b1; let (r, b) := x : Poll.t (option (result Frame BodyError)) * EnforcedBody B T R in
      mret (r, false, b)) w1 = Some ((out, woken, b'), w') →
    ∃ b2', (x ← cut b1'; let (r, b) := x : Poll.t (option (result Frame BodyError)) * EnforcedBody B T R in
      mret (r, false, b)) w1 = Some ((out, woken, b2'), w') ∧ alike b' b2').
  { unfold cut, mbind, M_bind. rewrite (alike_finish _ _ _ Hal1). intros Hx. exists b'. split; [done|by left]. }
  destruct r as [|woken1|]; [by apply Hcut| |by apply Hcut].
  apply run_bind in Hrun as ([o b3] & w2 & Ht & Hrun). injection Hrun as <- <- <- <-.
  destruct (alike_terminal _ _ _ _ _ _ Hal1 Ht) as (b3' & Ht2 & Hal3).
  rewrite (run_bind_step _ _ _ _ _ Ht2). by exists b3'.
Qed.

Lemma alike_ok w b b2 : alike b b2 → body_ok w b2 → body_ok w b.
Proof.
  intros [->|[Hsp ->]]; [done|]. intros [Hh _]. split; [done|]. intros f Hf. by simplify_eq.
Qed.

(** *** What a poll lets through *)

(** The authority states that [s] is allowed. *)
Definition stated_allowed h w s : Prop :=
  ∃ r, stated reply h w s r ∧ decision r = Decision.Allowed.

(** The handle was stale during the poll, and the body is being readmitted. *)
Definition readmitting b b' w w' : Prop :=
  (∃ a w1 w2, evolves w w1 ∧ evolves w1 w' ∧
     (a = admission b ∨ granted w (subject b) a w1) ∧
     admission_observe a w1 = Some (Observed.Stale, w2)) ∧
  (is_Some (readmission b') ∨ ended b' = true).

(** A live body is cut, or its inner body is polled once. *)
Definition frame_ok h b out b' w w' : Prop :=
  cut_off b out b' w w' ∨
  (out, inner b') = body_poll_frame (inner b) ∧
    (stated_allowed h w' (subject b) ∨ readmitting b b' w w').

Lemma terminal_readmission b w out b' w' :
  poll_inner_terminal b w = Some ((out, b'), w') →
  readmission b' = readmission b ∨ ended b' = true.
Proof.
  unfold poll_inner_terminal. destruct (body_poll_frame (inner b)) as [o i].
  assert (Hend : ∀ x : Poll.t (option (result Frame BodyError)),
    (b ← finish (set_inner i b); mret (x, b)) w = Some ((out, b'), w') → ended b' = true).
  { intros x (b1 & w1 & Hfi & Hrun)%run_bind. injection Hrun as _ <- _.
    apply run_bind in Hfi as (u & w2 & _ & Hfi). by injection Hfi as <- _. }
  destruct o as [[[frame|error]|]|]; [|by intros [= _ <- _]; left|by intros ?%Hend; right|
    by intros [= _ <- _]; left].
  destruct (frame_is_trailers frame); [by intros ?%Hend; right|by intros [= _ <- _]; left].
Qed.

Lemma passed_frame_ok h b out b' w w' :
  sourced reply h w' → passed_on b out b' w w' → frame_ok h b out b' w w'.
Proof.
  intros Hs (Hout & w1 & b1 & w2 & b2 & Hwf1 & Ev1 & Ev1' & Hok1 & Hsub & Hreb & Had & Ht). right.
  split; [done|]. destruct Had as [[Ho ->]|[[w3 Ho] Hre]].
  - left. rewrite <-Hsub.
    destruct (run_from_run _ _ _ _ _ _ (observe_allowed w1 w1 _ Hwf1 (reflexivity w1)
      (handle_settled _ _ _ (proj1 Hok1))) Ho) as (Hwf2 & Ev2 & _ & Hst).
    assert (body_ok w2 b1) as Hok2 by by apply (body_ok_stable w1).
    destruct (run_from_run _ _ _ _ _ _ (inner_terminal_from w2 b1 Hwf2 Hok2) Ht)
      as (Hwf' & Ev' & _ & _ & _ & Hk).
    eapply allowed_stated; [done|done| |by apply Hk, Hst]. apply (handle_stable w2); [done|apply Hok2].
  - right. split; [by exists (admission b1), w1, w3|].
    destruct (terminal_readmission _ _ _ _ _ Ht) as [->|?]; [by left|by right].
Qed.

(** The poll of a body in any state: what it leaves, and what it let through. *)
Lemma poll_evolves w b rounds out woken b' w' :
  wf w → body_ok w b → resumable b → poll_frame rounds b w = Some ((out, woken, b'), w') →
  wf w' ∧ evolves w w'.
Proof.
  intros Hwf Hok Hres Hrun. unfold poll_frame in Hrun. destruct (_ || _).
  { apply run_bind in Hrun as (b1 & w1 & Hfi & Hrun). injection Hrun as _ _ _ <-.
    by destruct (run_from_run _ _ _ _ _ _ (finish_from w w b Hwf (reflexivity w) Hok) Hfi) as (? & ? & _). }
  apply run_bind in Hrun as ([r b1] & w1 & He & Hrun).
  destruct (enforce_kept _ _ _ _ _ _ Hwf Hok Hres He) as (Hwf1 & Ev1 & Hk & Hne).
  destruct r; [done| |]; apply run_bind in Hrun as ([x y] & w2 & Hc & Hrun); injection Hrun as _ _ _ <-.
  - destruct (run_from_run _ _ _ _ _ _ (inner_terminal_from w1 b1 Hwf1 (kp_ok _ _ _ _ Hk)) Hc) as (? & ? & _).
    split; [done|by transitivity w1].
  - destruct (run_from_run _ _ _ _ _ _ (cut_from w1 b1 Hwf1 (kp_ok _ _ _ _ Hk)) Hc) as (? & ? & _).
    split; [done|by transitivity w1].
Qed.

Lemma alike_frame_ok h b b2 out b' b2' w w' :
  spent b b2 → alike b' b2' → frame_ok h b2 out b2' w w' → frame_ok h b out b' w w'.
Proof.
  intros [_ ->] Hal Hf.
  assert (ended b' = ended b2' ∧ inner b' = inner b2' ∧
    (is_Some (readmission b2') → is_Some (readmission b'))) as (He & Hi & Hr).
  { destruct Hal as [->|[Hsp ->]]; [done|]. split_and!; [done..|]. by intros [? ?]. }
  destruct Hf as [(Hout & Hend & Hin & Hw)|(Hout & Hcase)]; [left|right].
  - unfold cut_off. by rewrite He, Hi.
  - rewrite Hi. split; [done|]. destruct Hcase as [?|[Ha Hb]]; [by left|right]. split; [done|].
    rewrite He. destruct Hb; auto.
Qed.

Lemma heard_poll h rounds b w out woken b' w' :
  wf w → sourced reply h w → body_ok w b → Forall round_answers rounds →
  poll_frame rounds b w = Some ((out, woken, b'), w') →
  wf w' ∧ evolves w w' ∧ sourced reply h w' ∧ body_ok w' b' ∧
  (is_end_stream b = false → frame_ok h b out b' w w').
Proof.
  assert (Hgo : ∀ b b', wf w → sourced reply h w → body_ok w b → resumable b → Forall round_answers rounds →
    poll_frame rounds b w = Some ((out, woken, b'), w') →
    wf w' ∧ evolves w w' ∧ sourced reply h w' ∧ body_ok w' b' ∧
    (is_end_stream b = false → frame_ok h b out b' w w')).
  { clear b b'. intros b b' Hwf Hs Hok Hres Henv Hrun.
    destruct (poll_evolves _ _ _ _ _ _ _ Hwf Hok Hres Hrun) as [Hwf' Ev].
    assert (sourced reply h w') as Hs' by exact (hears_poll_frame h _ _ _ Hwf Hok Hres Henv _ _ Hrun Hs).
    split; [done|]. split; [done|]. split; [done|].
    destruct (poll_kept _ _ _ _ _ _ _ Hwf Hok Hres Hrun) as [Hok' _ _ _]. split; [done|].
    intros Hlive. destruct (poll_enforced _ _ _ _ _ _ _ Hwf Hok Hres Hlive Hrun) as [[Hc|Hp] _];
      [by left|by apply passed_frame_ok]. }
  intros Hwf Hs Hok Henv Hrun.
  assert (readmission b = Some Readmission.Finished ∨ resumable b) as [Hf|Hres]
    by (unfold resumable; destruct (readmission b) as [[]|]; auto); [|by apply Hgo].
  assert (spent b (set_readmission None b)) as Hsp by done.
  destruct (spent_poll _ _ _ _ _ _ _ _ Hsp Hrun) as (b2' & Hrun2 & Hal).
  destruct (Hgo _ _ Hwf Hs (body_ok_drop _ _ Hok) ltac:(done) Henv Hrun2) as (? & ? & ? & Hok2 & Hfr).
  split; [done|]. split; [done|]. split; [done|]. split; [by eapply alike_ok|]. intros Hlive. eapply alike_frame_ok; [done|done|].
  by apply Hfr.
Qed.
End stream.

(** ** The middleware *)

Section layer.
Context {X A Bd R : Type} `{!RequestPolicy T X Bd, !BodyAdapter A Bd, !RejectionResponse R A Bd}.
Context (config : PolicyGateLayerConfig) (body : A) (response_ : R).
Abbreviation Pc := (CallPc.t T X Bd).
Implicit Types (request : Request X Bd) (a : positive) (pc : Pc).

Lemma silent_missed : silent (snapshot_missed (T:=T) (X:=X) (Bd:=Bd)).
Proof. intros n. unfold snapshot_missed. quiet. Qed.
Lemma silent_deny : silent (deny (Bd:=Bd) (R:=R) config body response_).
Proof. intros n. unfold deny. quiet. Qed.

(** The handle a call was given is read, and the denial counted. *)
Lemma silent_use request s a (otherwise : M (World T P C) Pc) :
  silent otherwise → silent (use_admission config body response_ request s a otherwise).
Proof.
  intros Ho n. specialize (Ho n). pose proof (silent_deny n). unfold use_admission, admission_is_allowed.
  quiet.
Qed.

Lemma hears_use h w request s a (otherwise : M (World T P C) Pc) :
  wf w → settled w a → (∀ w1, wf w1 → hears h w1 otherwise) →
  hears h w (use_admission config body response_ request s a otherwise).
Proof.
  intros Hwf Ha Helse. unfold use_admission.
  eapply hears_then; [done|by apply (allowed_from w w)|quiet|].
  intros allowed w1 Hwf1 Ev1 _. destruct allowed; [apply hears_ret|].
  assert (settled w1 a) as Ha1 by by eapply settled_stable.
  eapply hears_then; [done|by apply (state_from w1 w1 a)|quiet|].
  intros x w2 Hwf2 Ev2 _. case_bool_decide; [|by apply Helse].
  eapply hears_then; [done|by apply deny_from|apply silent_deny|]. intros r w3 _ _ _. apply hears_ret.
Qed.

Lemma hears_missed h w : wf w → hears h w (snapshot_missed (X:=X) (Bd:=Bd)).
Proof.
  intros Hwf. eapply hears_silent; [|done|apply silent_missed].
  apply core_then; [done|done|by split|]. intros Hwf1 Ev1. by apply (run_from_ret _ _ _ (λ _ _, True)).
Qed.

Lemma hears_call h w request s :
  wf w → policy_subject request = Some s → hears h w (call config body response_ request).
Proof.
  intros Hwf Hs. eapply hears_silent; [by apply call_from|done|]. intros n. unfold call.
  pose proof (λ s a, silent_use request s a _ silent_missed n). pose proof (silent_missed n). quiet.
Qed.

Lemma silent_cached request s r : silent (after_cached config body response_ request s r).
Proof.
  intros n. unfold after_cached. pose proof (λ a, silent_use request s a _ silent_missed n).
  pose proof (silent_missed n). quiet.
Qed.

Lemma hears_after_admit h w request s st :
  wf w → (∀ a, ad_pc st = AdmitPc.Return (Some a) → settled w a) →
  hears h w (after_admit config body response_ request s st).
Proof.
  intros Hwf Ha. unfold after_admit.
  destruct (ad_pc st) as [| | | | | |[a|]] eqn:Hpc; try apply hears_ret.
  - apply hears_use; [done|by apply Ha|]. intros w1 Hwf1. apply hears_ret.
  - eapply hears_then; [done|by apply emit_last|quiet|]. intros u w1 _ _ _. apply hears_ret.
Qed.

Lemma hears_call_step h w request s (env : AdmitEnv P) pc :
  wf w → call_ok w s pc → undecided pc → answers_truly env →
  hears h w (call_step config body response_ request s env pc).
Proof.
  intros Hwf Hok Hu Henv. pose proof (call_step_from config body response_ w request s env pc Hwf Hok Hu) as Hall.
  destruct pc as [?|? ?| |first e f q| |st]; [done..| | | |].
  - eapply hears_silent; [exact Hall|done|]. intros n.
    pose proof (λ r, silent_cached request s r n). simpl. quiet.
  - eapply hears_silent; [exact Hall|done|]. intros n.
    pose proof (λ r, silent_cached request s r n). simpl. quiet.
  - eapply hears_then; [done|by apply admit_begin_from|quiet|].
    intros st w1 Hwf1 _ (_ & _ & Hpc). apply hears_after_admit; [done|]. intros a Ha.
    destruct Hpc; congruence.
  - destruct Hok as [Hok Hret].
    eapply hears_bind; [by apply admit_step_ok|by apply hears_admit|].
    intros st' w1 Hwf1 Ev1 [[_ Hsp]|(r & Hr & _)]; [|by destruct (Hret r)].
    apply hears_after_admit; [done|]. intros a Ha.
    eapply handle_settled, granted_handle, (sp_grant _ _ _ _ _ Hsp); done.
Qed.

Lemma hears_cancel h w s pc : wf w → call_ok w s pc → hears h w (call_cancel pc).
Proof.
  intros Hwf Hok. eapply hears_silent; [by apply (call_cancel_from w s)|done|]. intros n.
  destruct pc; simpl; unfold access_cancel; quiet. apply quiet_admit_cancel.
Qed.
End layer.
End heard.
