(* ===== verification/Server.v ===== *)
(** * Server: requests and bodies in the running program

    A server keeps the calls of its middleware, the handles its requests were
    forwarded with and the bodies it streams, beside the gate, the watch loop and
    the history of what the authority said.  Its steps are those of the program in
    any order; [Outcome] records what a step lets out.  A request reaches the
    inner service, and a frame its peer, only on the authority's word. *)

From S2P Require Export Heard.

Record Call (T X Bd : Type) : Type := mkCall {
  call_request : Request X Bd;
  call_subject : T;
  call_pc : CallPc.t T X Bd;
}.
Arguments mkCall {T X Bd}.
Arguments call_request {T X Bd}.
Arguments call_subject {T X Bd}.
Arguments call_pc {T X Bd}.

Module Outcome.
Inductive t (T X Bd B R : Type) `{HttpBody B} : Type :=
| Internal
| Served (subject : option T) (request : Request X Bd)
| Refused (response : Response Bd)
| Polled (before after : EnforcedBody B T R) (out : Poll.t (option (result Frame BodyError))).
Arguments Internal {T X Bd B R _}.
Arguments Served {T X Bd B R _}.
Arguments Refused {T X Bd B R _}.
Arguments Polled {T X Bd B R _}.
End Outcome.

Record Server (T P C X Bd B R : Type) `{Countable T} : Type := mkServer {
  sv_history : History T;
  sv_world : World T P C;
  sv_watch : WatchState;
  sv_calls : list (Call T X Bd);
  sv_forwarded : list (T * positive);
  sv_bodies : list (EnforcedBody B T R);
}.
Arguments mkServer {T P C X Bd B R _ _}.
Arguments sv_history {T P C X Bd B R _ _}.
Arguments sv_world {T P C X Bd B R _ _}.
Arguments sv_watch {T P C X Bd B R _ _}.
Arguments sv_calls {T P C X Bd B R _ _}.
Arguments sv_forwarded {T P C X Bd B R _ _}.
Arguments sv_bodies {T P C X Bd B R _ _}.

Section server.
Context {T P C : Type} `{Countable T, !LruCache T SubjectSlot C, !LruCacheOk T SubjectSlot C, TimeDriver}.
Context {X A Bd R B : Type} `{!RequestPolicy T X Bd, !BodyAdapter A Bd, !RejectionResponse R A Bd}.
Context `{HttpBody B, !StreamRejectionResponse B R}.
Context (reply : positive → result (option (DecisionResult P)) DecisionSourceError).
Context (lcfg : PolicyGateLayerConfig) (adapter : A) (rejections : R).
Implicit Types (w : World T P C) (h : History T) (s : T) (st : WatchState) (a : positive).
Implicit Types (request : Request X Bd) (pc : CallPc.t T X Bd) (c : Call T X Bd) (l : list (Call T X Bd)).
Implicit Types (k : list (T * positive)) (b : EnforcedBody B T R) (bs : list (EnforcedBody B T R)).
Implicit Types (y : Server T P C X Bd B R) (o : Outcome.t T X Bd B R).

(** ** Steps *)

(** What is left of a call, the handle its request was forwarded with, and what
    it let out. *)
Definition call_left request s pc : list (Call T X Bd) :=
  match pc with
  | CallPc.Respond _ | CallPc.Forward _ _ => []
  | _ => [mkCall request s pc]
  end.
Definition call_forwarded s pc : list (T * positive) :=
  match pc with
  | CallPc.Forward _ f => match rf_admission f with Some a => [(s, a)] | None => [] end
  | _ => []
  end.
Definition call_outcome request pc : Outcome.t T X Bd B R :=
  match pc with
  | CallPc.Respond r => Outcome.Refused r
  | CallPc.Forward request' _ => Outcome.Served (policy_subject request) request'
  | _ => Outcome.Internal
  end.

(** The watch, any client of the gate, the calls of the middleware (one without a
    subject is over at once), and the bodies that wrap what was forwarded or answered. *)
Inductive serve : Server T P C X Bd B R → Outcome.t T X Bd B R → Server T P C X Bd B R → Prop :=
| serve_watch h w st l k bs env st' w' :
    answers_faithful reply env → watch_step env st w = Some (st', w') →
    serve (mkServer h w st l k bs) Outcome.Internal
      (mkServer (next_history env st st' w h) w' st' l k bs)
| serve_client h w st l k bs w' :
    faithful_client reply w w' →
    serve (mkServer h w st l k bs) Outcome.Internal (mkServer h w' st l k bs)
| serve_anonymous h w st l k bs request pc w' :
    policy_subject request = None →
    call lcfg adapter rejections request w = Some (pc, w') →
    serve (mkServer h w st l k bs) (call_outcome request pc) (mkServer h w' st l k bs)
| serve_call h w st l k bs request s pc w' :
    policy_subject request = Some s →
    call lcfg adapter rejections request w = Some (pc, w') →
    serve (mkServer h w st l k bs) (call_outcome request pc)
      (mkServer h w' st (call_left request s pc ++ l) (call_forwarded s pc ++ k) bs)
| serve_poll h w st l l' k bs request s pc env pc' w' :
    answers_truly reply env →
    call_step lcfg adapter rejections request s env pc w = Some (pc', w') →
    serve (mkServer h w st (l ++ mkCall request s pc :: l') k bs) (call_outcome request pc')
      (mkServer h w' st (l ++ call_left request s pc' ++ l') (call_forwarded s pc' ++ k) bs)
| serve_drop h w st l l' k bs request s pc u w' :
    call_cancel pc w = Some (u, w') →
    serve (mkServer h w st (l ++ mkCall request s pc :: l') k bs) Outcome.Internal
      (mkServer h w' st (l ++ l') k bs)
| serve_wrap h w st l k bs s a i side_ :
    (s, a) ∈ k →
    serve (mkServer h w st l k bs) Outcome.Internal
      (mkServer h w st l k (body_new i s a (denied_message lcfg) rejections side_ :: bs))
| serve_frame h w st l k bs bs' b rounds out woken b' w' :
    Forall (round_answers reply) rounds →
    poll_frame rounds b w = Some ((out, woken, b'), w') →
    serve (mkServer h w st l k (bs ++ b :: bs')) (Outcome.Polled b b' out)
      (mkServer h w' st l k (bs ++ b' :: bs'))
| serve_close h w st l k bs bs' b u w' :
    abandon (readmission b) w = Some (u, w') →
    serve (mkServer h w st l k (bs ++ b :: bs')) Outcome.Internal
      (mkServer h w' st l k (bs ++ bs')).

(** From the construction of the gate on. *)
Definition server config clock y : Prop :=
  ∃ st0 w0, watch_begin (gate_new config clock) = Some (st0, w0) ∧
    rtc (λ y y', ∃ o, serve y o y') (mkServer (silence 1) w0 st0 [] [] []) y.

(** ** The invariant *)

Record call_good w c : Prop := {
  cg_subject : policy_subject (call_request c) = Some (call_subject c);
  cg_refs : call_ok w (call_subject c) (call_pc c);
  cg_open : undecided (call_pc c);
}.

Record server_ok y : Prop := {
  sv_wf : wf (sv_world y);
  sv_sourced : sourced reply (sv_history y) (sv_world y);
  sv_good : Forall (call_good (sv_world y)) (sv_calls y);
  sv_held : Forall (λ x, handle (sv_world y) x.1 x.2) (sv_forwarded y);
  sv_live : Forall (body_ok (sv_world y)) (sv_bodies y);
}.

Lemma call_good_stable w w' c : evolves w w' → call_good w c → call_good w' c.
Proof.
  intros Ev [Hs Hok Hu]. split; [done| |done].
  destruct (call_pc c) as [?|? ?| |first e f q| |st]; try done.
  - destruct Hok as [Ht [pf Hf]]. split; [by eapply tracked_stable|].
    destruct (ev_fetches _ _ Ev _ _ Hf) as (pf' & ? & _). by exists pf'.
  - destruct Hok as [Hpc Hr]. split; [by eapply pc_ok_stable|done].
Qed.

(** What was there stays good when the gate moves on. *)
Lemma server_moved h h' w w' st st' l k bs :
  server_ok (mkServer h w st l k bs) → wf w' → evolves w w' → sourced reply h' w' →
  server_ok (mkServer h' w' st' l k bs).
Proof.
  intros [_ _ Hl Hk Hb] Hwf Ev Hs. simpl in *. split; simpl; [done|done|..].
  - eapply Forall_impl; [exact Hl|]. intros c. by apply call_good_stable.
  - eapply Forall_impl; [exact Hk|]. intros x. by apply handle_stable.
  - eapply Forall_impl; [exact Hb|]. intros b. by apply body_ok_stable.
Qed.

(** What a step of a call adds. *)
Lemma call_post_good w request s pc w' :
  policy_subject request = Some s → call_post lcfg adapter rejections w request s pc w' →
  Forall (call_good w') (call_left request s pc) ∧
  Forall (λ x, handle w' x.1 x.2) (call_forwarded s pc).
Proof.
  intros Hs [Hok Hp]. destruct pc as [r|request' f| |first e f q| |st]; simpl;
    try (split; [repeat constructor; simpl; by try apply Hok|constructor]).
  split; [constructor|]. destruct Hp as (a & Hg & _ & Hpc). unfold pass_through in Hpc.
  injection Hpc as -> ->. constructor; [by apply granted_handle in Hg|constructor].
Qed.

(** ** What a step lets out *)

Definition outcome_ok h w w' o : Prop :=
  match o with
  | Outcome.Served subject _ => ∃ s, subject = Some s ∧ stated_allowed reply h w' s
  | Outcome.Polled b b' out => is_end_stream b = false → frame_ok reply h b out b' w w'
  | _ => True
  end.

Lemma call_post_outcome h w request s pc w' :
  policy_subject request = Some s → wf w' → sourced reply h w' →
  call_post lcfg adapter rejections w request s pc w' → outcome_ok h w w' (call_outcome request pc).
Proof.
  intros Hs Hwf Hsrc [_ Hp]. destruct pc as [r|request' f| | | |]; try done. simpl.
  destruct Hp as (a & [Hh _] & Ha & _). exists s. split; [done|]. by eapply allowed_stated.
Qed.

(** *** Step by step *)

(** The first call of the list with the others, and the same for bodies. *)
Lemma server_split h w st l c l' k bs :
  server_ok (mkServer h w st (l ++ c :: l') k bs) →
  call_good w c ∧ server_ok (mkServer h w st (l ++ l') k bs).
Proof.
  intros [Hwf Hs [Hl [Hc Hl']%Forall_cons]%Forall_app Hk Hb]. split; [done|].
  split; try done. by apply Forall_app.
Qed.

Lemma server_body h w st l k bs b bs' :
  server_ok (mkServer h w st l k (bs ++ b :: bs')) →
  body_ok w b ∧ server_ok (mkServer h w st l k (bs ++ bs')).
Proof.
  intros [Hwf Hs Hl Hk [Hb [Hx Hb']%Forall_cons]%Forall_app]. split; [done|].
  split; try done. by apply Forall_app.
Qed.

Lemma server_joined h w st l l' l0 k k0 bs :
  server_ok (mkServer h w st (l ++ l') k bs) → Forall (call_good w) l0 →
  Forall (λ x, handle w x.1 x.2) k0 → server_ok (mkServer h w st (l ++ l0 ++ l') (k0 ++ k) bs).
Proof.
  intros [Hwf Hs [Hl Hl']%Forall_app Hk Hb] Hl0 Hk0. simpl in *.
  split; simpl; try done; repeat apply Forall_app_2; done.
Qed.

Lemma serve_call_ok h w st l k bs request s pc w' :
  server_ok (mkServer h w st l k bs) → policy_subject request = Some s →
  call lcfg adapter rejections request w = Some (pc, w') →
  server_ok (mkServer h w' st (call_left request s pc ++ l) (call_forwarded s pc ++ k) bs) ∧
  outcome_ok h w w' (call_outcome request pc).
Proof.
  intros Hok Hs Hrun. pose proof Hok as [Hwf Hsrc _ _ _]. simpl in Hwf, Hsrc.
  destruct (run_from_run _ _ _ _ _ _ (call_from lcfg adapter rejections w request s Hwf Hs) Hrun)
    as (Hwf' & Ev & Hpost).
  assert (sourced reply h w') as Hsrc' by exact (hears_call reply lcfg adapter rejections h w request s
    Hwf Hs _ _ Hrun Hsrc).
  split; [|by eapply call_post_outcome].
  destruct (call_post_good _ _ _ _ _ Hs Hpost) as [Hl Hk].
  apply (server_joined h w' st [] l); [|done|done]. by eapply server_moved.
Qed.

Lemma serve_poll_ok h w st l l' k bs request s pc env pc' w' :
  server_ok (mkServer h w st (l ++ mkCall request s pc :: l') k bs) → answers_truly reply env →
  call_step lcfg adapter rejections request s env pc w = Some (pc', w') →
  server_ok (mkServer h w' st (l ++ call_left request s pc' ++ l') (call_forwarded s pc' ++ k) bs) ∧
  outcome_ok h w w' (call_outcome request pc').
Proof.
  intros [[Hs Hc Hu] Hok]%server_split Henv Hrun. simpl in Hs, Hc, Hu.
  pose proof Hok as [Hwf Hsrc _ _ _]. simpl in Hwf, Hsrc.
  destruct (run_from_run _ _ _ _ _ _ (call_step_from lcfg adapter rejections w request s env pc Hwf Hc Hu)
    Hrun) as (Hwf' & Ev & Hpost).
  assert (sourced reply h w') as Hsrc' by exact (hears_call_step reply lcfg adapter rejections h w request s
    env pc Hwf Hc Hu Henv _ _ Hrun Hsrc).
  split; [|by eapply call_post_outcome].
  destruct (call_post_good _ _ _ _ _ Hs Hpost) as [Hl Hk].
  apply server_joined; [|done|done]. by eapply server_moved.
Qed.

Lemma serve_told h w h' w' st st' l k bs :
  server_ok (mkServer h w st l k bs) → told_runs reply (h, w) (h', w') →
  server_ok (mkServer h' w' st' l k bs).
Proof.
  intros Hok Ht. pose proof Hok as [Hwf Hs _ _ _].
  destruct (told_runs_ok reply _ _ _ _ Hwf Hs Ht) as (Hwf' & Ev & Hs'). by eapply server_moved.
Qed.

Lemma serve_ok y o y' :
  server_ok y → serve y o y' →
  server_ok y' ∧ outcome_ok (sv_history y') (sv_world y) (sv_world y') o.
Proof.
  intros Hok Hstep. destruct Hstep as [h w st l k bs env st' w' Hfa Hr|h w st l k bs w' Hc
    |h w st l k bs request pc w' Hno Hr|h w st l k bs request s pc w' Hs Hr
    |h w st l l' k bs request s pc env pc' w' Henv Hr|h w st l l' k bs request s pc u w' Hr
    |h w st l k bs s a i side_ Hin|h w st l k bs bs' b rounds out woken b' w' Hrs Hr
    |h w st l k bs bs' b u w' Hr]; simpl.
  - split; [|done]. eapply serve_told; [exact Hok|]. pose proof Hok as [Hwf Hs _ _ _]. by apply watch_told.
  - split; [|done]. eapply serve_told; [exact Hok|]. by apply rtc_once, faithful_told.
  - rewrite call_without_subject in Hr by done. injection Hr as <- <-. split; [|done].
    eapply serve_told; [exact Hok|]. apply rtc_once. by eapply (told_count _ _ _ Metric.missing_subject_rejection).
  - by apply serve_call_ok.
  - by eapply serve_poll_ok.
  - split; [|done]. apply server_split in Hok as [[_ Hc _] Hok]. pose proof Hok as [Hwf Hs _ _ _]. simpl in *.
    destruct (run_from_run _ _ _ _ _ _ (call_cancel_from w s pc Hwf Hc) Hr) as (Hwf' & Ev & _).
    eapply server_moved; [exact Hok|done|done|]. by eapply (hears_cancel reply h w s pc).
  - split; [|done]. destruct Hok as [Hwf Hs Hl Hk Hb]. split; try done. constructor; [|done].
    split; [|done]. simpl. eapply Forall_forall in Hk; [|exact Hin]. exact Hk.
  - apply server_body in Hok as [Hb Hok]. pose proof Hok as [Hwf Hs _ _ _]. simpl in *.
    destruct (heard_poll reply h rounds b w out woken b' w' Hwf Hs Hb Hrs Hr) as (Hwf' & Ev & Hs' & Hb' & Hf).
    split; [|done]. destruct (server_moved h h w w' st st l k (bs ++ bs') Hok Hwf' Ev Hs')
      as [_ _ Hl Hk [Hb1 Hb2]%Forall_app]. split; try done. apply Forall_app. split; [done|by constructor].
  - split; [|done]. apply server_body in Hok as [Hb Hok]. pose proof Hok as [Hwf Hs _ _ _]. simpl in *.
    destruct (run_from_run _ _ _ _ _ _ (abandon_from w w b Hwf (reflexivity w) Hb) Hr) as (Hwf' & Ev & _).
    eapply server_moved; [exact Hok|done|done|].
    eapply (hears_silent reply h w);
      [exact (abandon_from w w b Hwf (reflexivity w) Hb)|done|apply silent_gives_up|exact Hr|done].
Qed.

Lemma server_reached config clock y : deployment config clock → server config clock y → server_ok y.
Proof.
  intros Hdep (st0 & w0 & Hb & Hsteps).
  assert (server_ok (mkServer (silence 1) w0 st0 [] [] [])) as Hok.
  { destruct (told_from_ok reply config clock (silence 1) w0 Hdep) as [Hwf Hs]; [|by split].
    by apply (heeding_open reply (silence 1)) in Hb. }
  clear Hb. induction Hsteps as [y|y1 y2 y3 [o Hstep] _ IH]; [done|]. by apply IH, (serve_ok y1 o y2).
Qed.

(** C1. No request is served but on the authority's word.  In every run of the server,
    with requests, polls and drops of their futures, bodies, the watch and any
    other client in any order: when a request is handed to the inner service, it
    has a subject and the authority states that this subject is allowed, as the
    last change the watch delivered of it, or as the answer to a lookup of it that
    started after that change and after the watch last opened or closed. *)
Theorem requests_served_on_authority config clock y o y' subject request :
  deployment config clock → server config clock y → serve y o y' →
  o = Outcome.Served subject request →
  ∃ s, subject = Some s ∧ stated_allowed reply (sv_history y') (sv_world y') s.
Proof.
  intros Hdep Hsv Hstep ->.
  exact (proj2 (serve_ok _ _ _ (server_reached _ _ _ Hdep Hsv) Hstep)).
Qed.

(** C2. No frame is passed on but on the authority's word.  In every run of the
    server a poll of a live body either cuts it, without polling its inner body,
    or passes on one poll of the inner body; then the authority states that the
    body's subject is allowed, or the body's handle was stale during the poll and
    the body is being readmitted. *)
Theorem frames_passed_on_authority config clock y o y' b b' out :
  deployment config clock → server config clock y → serve y o y' →
  o = Outcome.Polled b b' out → is_end_stream b = false →
  cut_off b out b' (sv_world y) (sv_world y') ∨
  (out, inner b') = body_poll_frame (inner b) ∧
    (stated_allowed reply (sv_history y') (sv_world y') (subject b) ∨
     readmitting b b' (sv_world y) (sv_world y')).
Proof.
  intros Hdep Hsv Hstep ->.
  exact (proj2 (serve_ok _ _ _ (server_reached _ _ _ Hdep Hsv) Hstep)).
Qed.
End server.

(** ** The theorems on a concrete server: a request of subject 7 is admitted and
    forwarded, and a frame of its response passed on *)

#[local] Instance demo_stream_rejection :
    StreamRejectionResponse (list DemoFrame) HttpRejectionResponse := {
  stream_denied _ := http_stream_denied limit_message;
}.

Abbreviation DemoPc := (CallPc.t nat (option nat) DemoBody).
Abbreviation DemoBodyOf := (EnforcedBody (list DemoFrame) nat HttpRejectionResponse).
Abbreviation DemoServer := (Server nat nat (ListLru nat SubjectSlot) (option nat) DemoBody
  (list DemoFrame) HttpRejectionResponse).
Abbreviation demo_serves := (serve Authority.allowing demo_messages tt HttpRejection).

Definition demo_state (w : DemoWorld) (l : list (Call nat (option nat) DemoBody))
    (k : list (nat * positive)) (bs : list DemoBodyOf) : DemoServer :=
  mkServer (silence 1) w open_state l k bs.

Definition demo_poll (pc : DemoPc) : M DemoWorld DemoPc :=
  call_step demo_messages tt HttpRejection demo_request 7%nat (answering Decision.Allowed) pc.

Fixpoint demo_polls (n : nat) (pc : DemoPc) : M DemoWorld DemoPc :=
  match n with
  | O => mret pc
  | S n => pc' ← demo_poll pc; demo_polls n pc'
  end.

Lemma answering_truly : answers_truly Authority.allowing (answering Decision.Allowed).
Proof. by intros f. Qed.

Lemma demo_polls_undecided n pc w pc' w' :
  undecided pc' → demo_polls n pc w = Some (pc', w') → undecided pc.
Proof.
  intros Hu. revert pc w. induction n as [|n IH]; intros pc w Hrun; [by injection Hrun as -> _|].
  apply run_bind in Hrun as (pc1 & w1 & Hp & Hrun%IH). destruct pc; try done; by injection Hp as <- _.
Qed.

Lemma demo_poll_serves pc w pc' w' :
  demo_poll pc w = Some (pc', w') →
  demo_serves (demo_state w [mkCall demo_request 7%nat pc] [] []) (call_outcome demo_request pc')
    (demo_state w' (call_left demo_request 7%nat pc' ++ []) (call_forwarded 7%nat pc' ++ []) []).
Proof.
  exact (serve_poll Authority.allowing demo_messages tt HttpRejection (silence 1) w open_state [] [] []
    ([] : list DemoBodyOf) demo_request 7%nat pc (answering Decision.Allowed) pc' w' answering_truly).
Qed.

Lemma demo_wrap_serves w a i side_ :
  demo_serves (demo_state w [] [(7%nat, a)] []) Outcome.Internal
    (demo_state w [] [(7%nat, a)] [body_new i 7%nat a "denied" HttpRejection side_]).
Proof. apply (serve_wrap Authority.allowing demo_messages tt HttpRejection). by left. Qed.

(** While the call is undecided its polls are steps of the server. *)
Lemma demo_polls_serve n pc w pc' w' :
  undecided pc' → demo_polls n pc w = Some (pc', w') →
  rtc (λ y y', ∃ o, demo_serves y o y') (demo_state w [mkCall demo_request 7%nat pc] [] [])
    (demo_state w' [mkCall demo_request 7%nat pc'] [] []).
Proof.
  intros Hu. revert pc w. induction n as [|n IH]; intros pc w Hrun; simpl in Hrun.
  { by injection Hrun as -> ->. }
  apply run_bind in Hrun as (pc1 & w1 & Hp & Hrun).
  pose proof (demo_polls_undecided _ _ _ _ _ Hu Hrun) as Hu1.
  eapply rtc_l; [|by apply IH]. exists (call_outcome demo_request pc1).
  pose proof (demo_poll_serves _ _ _ _ Hp) as Hs.
  by destruct pc1.
Qed.

Definition demo_pending : DemoPc := CallPc.Admitting (mkAdmit 1010 1 (AdmitPc.Access true 1 9 1010 false)).
Definition pending_world : DemoWorld := exec (demo_polls 6 CallPc.TryCached) open_world.
Definition pending_server : DemoServer := demo_state pending_world [mkCall demo_request 7%nat demo_pending] [] [].

Lemma pending_reached : server Authority.allowing demo_messages tt HttpRejection demo_config demo_clock pending_server.
Proof.
  exists first_state, first_world. split; [vm_compute; reflexivity|].
  eapply rtc_l.
  { exists Outcome.Internal.
    apply (serve_watch Authority.allowing demo_messages tt HttpRejection (silence 1) first_world first_state [] [] [] Program.quiet
      open_state open_world); [|vm_compute; reflexivity]. intros f answer Hin. by apply elem_of_nil in Hin. }
  change (next_history _ _ _ _ _) with (silence (T:=nat) 1).
  eapply rtc_l.
  { exists Outcome.Internal.
    apply (serve_call Authority.allowing demo_messages tt HttpRejection (silence 1) open_world open_state [] [] [] demo_request 7%nat
      CallPc.TryCached open_world); [reflexivity|vm_compute; reflexivity]. }
  apply (demo_polls_serve 6); [exact I|]. vm_compute. reflexivity.
Qed.

(** Its last poll forwards the request; then the response is wrapped. *)
Definition served_world : DemoWorld := exec (demo_poll demo_pending) pending_world.
Definition served_body : DemoBodyOf :=
  body_new [Data 1; Data 2; Trailer] 7%nat 1 "denied" HttpRejection BodySide.Response.
Definition streaming_server : DemoServer := demo_state served_world [] [(7%nat, 1%positive)] [served_body].

Lemma pending_step :
  demo_serves pending_server (Outcome.Served (Some 7%nat) demo_forwarded)
    (demo_state served_world [] [(7%nat, 1%positive)] []).
Proof.
  assert (demo_poll demo_pending pending_world = Some (CallPc.Forward demo_forwarded demo_future, served_world))
    as Hp by (vm_compute; reflexivity).
  exact (demo_poll_serves _ _ _ _ Hp).
Qed.

Lemma streaming_reached :
  server Authority.allowing demo_messages tt HttpRejection demo_config demo_clock streaming_server.
Proof.
  destruct pending_reached as (st0 & w0 & Hb & Hsteps). exists st0, w0. split; [exact Hb|].
  eapply rtc_r; [eapply rtc_r; [exact Hsteps|eexists; exact pending_step]|].
  exists Outcome.Internal. exact (demo_wrap_serves served_world 1 [Data 1; Data 2; Trailer] BodySide.Response).
Qed.

Lemma requests_served_on_authority_witness :
  ∃ s, Some 7%nat = Some s ∧ stated_allowed Authority.allowing (silence 1) served_world s.
Proof.
  exact (requests_served_on_authority Authority.allowing demo_messages tt HttpRejection demo_config
    demo_clock pending_server _ (demo_state served_world [] [(7%nat, 1%positive)] []) (Some 7%nat)
    demo_forwarded demo_deployment pending_reached pending_step eq_refl).
Defined.

Definition data_out : DemoOutcome := Poll.Ready (Some (Ok (Data 1))).
Definition streamed_body : DemoBodyOf := set_inner [Data 2; Trailer] served_body.
Definition streamed_world : DemoWorld := exec (poll_frame [idle] served_body) served_world.

Lemma streaming_step :
  demo_serves streaming_server (Outcome.Polled served_body streamed_body data_out)
    (demo_state streamed_world [] [(7%nat, 1%positive)] [streamed_body]).
Proof.
  apply (serve_frame Authority.allowing demo_messages tt HttpRejection (silence 1) served_world open_state
    [] [(7%nat, 1%positive)] [] [] served_body [idle] data_out false streamed_body);
    [by repeat constructor|vm_compute; reflexivity].
Qed.

Lemma frames_passed_on_authority_witness :
  cut_off served_body data_out streamed_body served_world streamed_world ∨
  (data_out, inner streamed_body) = body_poll_frame (inner served_body) ∧
    (stated_allowed Authority.allowing (silence 1) streamed_world 7%nat ∨
     readmitting served_body streamed_body served_world streamed_world).
Proof.
  exact (frames_passed_on_authority Authority.allowing demo_messages tt HttpRejection demo_config
    demo_clock streaming_server _ (demo_state streamed_world [] [(7%nat, 1%positive)] [streamed_body])
    served_body streamed_body _ demo_deployment streaming_reached streaming_step eq_refl eq_refl).
Defined.
