(* ===== verification/Facade.v ===== *)
(** * Facade: the public handle [PolicyGate] ([src/gate.rs], [src/watcher.rs])
    and the construction of the layer ([src/layer.rs])

    What [PolicyGate::new] builds, the public async methods as the segments they
    consist of, and what their documentation promises: [refresh] touches nothing
    but the entry it is given, and the shortcut that the middleware takes when
    refreshing is disabled is the cached read it replaces. *)

From S2P Require Export LayerContract Metrics.

Section facade.
Context {T P C : Type} `{Countable T, !LruCache T SubjectSlot C, !LruCacheOk T SubjectSlot C, TimeDriver}.
Abbreviation G := (M (World T P C)).
Implicit Types (w : World T P C) (s : T) (e f : positive).

(** ** Construction *)

(** The gate's shared state and the caller's metrics handle. *)
Record PolicyGate (Me : Type) : Type := mkGate {
  gate_state : World T P C;
  gate_metrics : Me;
}.

(** [PolicyGateParts]: the gate, the future of the watcher, which nobody has polled
    yet, and the health view. *)
Record PolicyGateParts (Me : Type) : Type := mkParts {
  parts_gate : PolicyGate Me;
  parts_watcher : G WatchState;
  parts_health : DecisionSourceHealth;
}.

(** The channels are part of the state: the queue, the connectivity flag and the
    liveness of its sender.  [clock] is what [D::now] answers, reading by reading;
    [None] is a panic. *)
Definition new_with_metrics_and_time_driver {Me} (config : PolicyGateConfig) (metrics : Me)
    (clock : nat → Z) : option (PolicyGateParts Me) :=
  match gate_state_new config clock with
  | None => None
  | Some state =>
      let '(watcher, health) := watcher_new state in
      Some (mkParts _ (mkGate _ state metrics) watcher health)
  end.

Definition new_with_time_driver {St} (config : PolicyGateConfig) (clock : nat → Z) :
    option (PolicyGateParts (PolicyGateMetrics St)) :=
  new_with_metrics_and_time_driver config NoopPolicyGateMetrics clock.

(** The two constructors over [TokioTimeDriver]. *)
Definition new_with_metrics {Me I} (config : PolicyGateConfig) (metrics : Me) (tokio : Tokio I) :
    option (PolicyGateParts Me) :=
  new_with_metrics_and_time_driver config metrics (tokio_now tokio).
Definition gate_parts_new {St I} (config : PolicyGateConfig) (tokio : Tokio I) :
    option (PolicyGateParts (PolicyGateMetrics St)) :=
  new_with_metrics config NoopPolicyGateMetrics tokio.

Definition parts_of {Me} (config : PolicyGateConfig) (metrics : Me) (clock : nat → Z) :
    PolicyGateParts Me :=
  let state := gate_new config clock in
  mkParts _ (mkGate _ state metrics) (watcher_new state).1 (watcher_new state).2.

(** A configuration that was built constructs a gate, if its queue is one that a channel
    of tokio can have. *)
Lemma construction_total {Me} config now (metrics : Me) clock :
  config_valid now config → refresh_queue_capacity config ≤ MAX_PERMITS →
  new_with_metrics_and_time_driver config metrics clock = Some (parts_of config metrics clock).
Proof.
  intros [_ _ _ _ _ _ Hs Hq _ _ _ _ _] Hmax.
  unfold new_with_metrics_and_time_driver, gate_state_new, refresh_channel_new, subject_map_new, parts_of.
  destruct (Z.eqb_spec (refresh_queue_capacity config) 0); [lia|].
  rewrite (proj2 (Z.ltb_ge _ _) Hmax). simpl.
  destruct (Z.eqb_spec (max_subjects config) 0); [lia|done].
Qed.

Lemma construction_gate {Me} config (metrics : Me) clock parts :
  new_with_metrics_and_time_driver config metrics clock = Some parts →
  parts = parts_of config metrics clock.
Proof.
  unfold new_with_metrics_and_time_driver, gate_state_new. intros Hn.
  destruct (refresh_channel_new _); [|done]. destruct (subject_map_new _); [|done].
  by injection Hn as <-.
Qed.

(** That is a rule [build] does not check: it accepts a capacity with which the
    constructor panics. *)
Definition oversized_builder : PolicyGateConfigBuilder :=
  Builder.refresh_queue_capacity (MAX_PERMITS + 1) builder.

Lemma oversized_queue_panics {Me} (metrics : Me) clock :
  build uptime_sample oversized_builder = Ok (candidate oversized_builder) ∧
  new_with_metrics_and_time_driver (candidate oversized_builder) metrics clock = None.
Proof.
  split; [vm_compute; reflexivity|].
  unfold new_with_metrics_and_time_driver, gate_state_new.
  assert (refresh_channel_new (refresh_queue_capacity (candidate oversized_builder)) = None) as ->
    by (vm_compute; reflexivity).
  done.
Qed.

(** The methods [metrics] and [clone]: handles of one state. *)
Definition metrics_of {Me} (g : PolicyGate Me) : Me := gate_metrics _ g.
Definition gate_clone {Me} (clone_metrics : Me → Me) (g : PolicyGate Me) : PolicyGate Me :=
  mkGate _ (gate_state _ g) (clone_metrics (gate_metrics _ g)).

(** "Every process starts here": before its watcher is polled a gate is not stable,
    and it is failed only once the admission timeout has passed since it was built. *)
Lemma starts_not_yet_stable {Me} config (metrics : Me) clock parts r w' :
  new_with_metrics_and_time_driver config metrics clock = Some parts →
  health_status (parts_health _ parts) (gate_state _ (parts_gate _ parts)) = Some (r, w') →
  r ≠ DecisionSourceHealthStatus.Stable ∧
  (r = DecisionSourceHealthStatus.Failed ↔ admission_timeout config ≤ Z.max 0 (clock 1%nat - clock 0%nat)).
Proof.
  intros ->%construction_gate Hr. destruct (health_run _ _ _ _ Hr) as (Hs & Hf & _). simpl in Hs, Hf. split.
  - intros Hst. by apply Hs in Hst.
  - rewrite Hf. split; [intros (? & [= <-] & ?); done|intros ?; by eexists].
Qed.

(** ** Methods *)

(** The await of [admission_on_access]: one poll per answer of the queue; [None]
    while it is suspended. *)
Fixpoint await_send (first_poll : bool) entry fetch (queue_deadline : Z)
    (sends : list (Poll.t (result unit unit))) : G (option (option positive)) :=
  match sends with
  | [] => mret None
  | send :: sends =>
      r ← access_poll first_poll entry fetch queue_deadline send;
      match r with
      | Poll.Ready a => mret (Some a)
      | Poll.Pending => await_send false entry fetch queue_deadline sends
      end
  end.

Definition await_access (r : Access.t) (sends : list (Poll.t (result unit unit))) :
    G (option (option positive)) :=
  match r with
  | Access.Done a => mret (Some a)
  | Access.Enqueue entry fetch queue_deadline => await_send true entry fetch queue_deadline sends
  end.

Definition try_cached s sends : G (option (option positive)) :=
  r ← check_begin s;
  await_access r sends.

(** It discards the handle. *)
Definition refresh s e sends : G (option unit) :=
  r ← refresh_entry_begin s e;
  a ← await_access r sends;
  mret (option_map (λ _, tt) a).

(** [admit]: [ok_or(AdmissionUnavailable)]. *)
Definition admit_result (r : option positive) : result positive AdmissionUnavailable :=
  match r with Some a => Ok a | None => Err AdmissionUnavailable_ end.

Definition admission_unavailable_fmt (_ : AdmissionUnavailable) : string :=
  "policy decision source is unavailable".

(** ** Reading the cache *)

Lemma admission_config w e r w' :
  wf w → is_Some (w_entries w !! e) → entry_admission e w = Some (r, w') → w_config w' = w_config w.
Proof.
  intros Hwf [en He] Hrun.
  destruct (run_from_run _ _ _ _ _ _ (entry_admission_from w w e en Hwf (reflexivity w) He) Hrun)
    as (_ & Ev & _). apply Ev.
Qed.

(** With refreshing disabled, the access ends with the handle it began with. *)
Lemma access_disabled w s e limit :
  wf w → is_Some (w_entries w !! e) → refresh_before_expiry (w_config w) = 0 →
  access_begin s e limit w = (a ← entry_admission e; mret (Access.Done a)) w.
Proof.
  intros Hwf He Hz. unfold access_begin, mbind, M_bind.
  destruct (entry_admission e w) as [[[a|] w']|] eqn:Ha; [|reflexivity..].
  unfold gets. by rewrite (admission_config _ _ _ _ Hwf He Ha), Hz.
Qed.

Lemma now_run w0 w now w' :
  wf w → evolves w0 w → D_now w = Some (now, w') → wf w' ∧ evolves w0 w'.
Proof.
  intros Hwf Ev Hn. destruct (ok_step _ _ _ _ _ (D_now_ok w Hwf) Hn) as [Hwf' Ev'].
  split; [done|]. by transitivity w.
Qed.

Lemma cached_disabled w s :
  wf w → refresh_before_expiry (w_config w) = 0 →
  check_begin s w = (a ← check_without_refresh s; mret (Access.Done a)) w.
Proof.
  intros Hwf Hz. unfold check_begin, check_without_refresh, mbind, M_bind, gets.
  destruct (w_snapshot w !! s) as [e|] eqn:Hs; [|reflexivity].
  destruct (wf_snapshot _ Hwf _ _ Hs) as [He _].
  destruct (D_now w) as [[now w1]|] eqn:Hn; [|reflexivity].
  destruct (entry_verdict_at e now w1) as [[[d|] w2]|] eqn:Hv; [|reflexivity..].
  destruct (D_now w2) as [[now2 w3]|] eqn:Hn2; [|reflexivity].
  destruct (map_touch s e now2 w3) as [[b w4]|] eqn:Ht; [|reflexivity].
  destruct (now_run w w now w1 Hwf (reflexivity w) Hn) as [Hwf1 Ev1].
  destruct (ev_exists _ _ _ Ev1 He) as [en He1].
  destruct (run_from_run _ _ _ _ _ _ (entry_verdict_at_from w w1 e en now Hwf1 Ev1 He1) Hv)
    as (Hwf2 & Ev2 & _).
  destruct (now_run w w2 now2 w3 Hwf2 Ev2 Hn2) as [Hwf3 Ev3].
  destruct (run_from_run _ _ _ _ _ _ (map_touch_ok w w3 s e now2 Hwf3 Ev3) Ht) as (Hwf4 & Ev4 & _).
  rewrite (access_disabled w4 s e None); [|done|by eapply ev_exists|by rewrite (ev_config _ _ Ev4)].
  unfold mbind, M_bind. by destruct (entry_admission e w4) as [[a w5]|].
Qed.

(** *** What an access leaves alone *)

Definition same_subjects w w' : Prop := w_subjects w' = w_subjects w.

#[local] Instance same_subjects_preorder : PreOrder same_subjects.
Proof. split; [by intros w|]. intros w1 w2 w3 H12 H23. unfold same_subjects in *. congruence. Qed.

Lemma still_with_entry {A} e (op : Entry P → A * Entry P) :
  always same_subjects (with_entry (T:=T) (C:=C) e op).
Proof.
  intros w a w'. unfold with_entry. destruct (w_entries w !! e) as [en|]; [|done].
  destruct (op en). by intros [= _ <-].
Qed.
Lemma still_load e : always same_subjects (load_entry (T:=T) (P:=P) (C:=C) e).
Proof. intros w a w'. unfold load_entry, expect. destruct (_ !! e); [|done]. by intros [= _ <-]. Qed.
Lemma still_now : always same_subjects (D_now (T:=T) (P:=P) (C:=C)).
Proof. by intros w a w' [= _ <-]. Qed.
Lemma still_alloc : always same_subjects (alloc (T:=T) (P:=P) (C:=C)).
Proof. by intros w a w' [= _ <-]. Qed.
Lemma still_modify (g : World T P C → World T P C) :
  (∀ w, w_subjects (g w) = w_subjects w) → always same_subjects (modify g).
Proof. intros Hg w u w' [= _ <-]. apply Hg. Qed.

Ltac still :=
  repeat first
    [ progress intros
    | apply always_ret; apply _
    | apply always_gets; apply _
    | apply always_panic
    | apply still_with_entry | apply still_load | apply still_now | apply still_alloc
    | apply still_modify; intros ?; reflexivity
    | apply always_bind; [apply _|..]
    | progress cbn iota beta zeta
    | case_match ].

Lemma still_admission e : always same_subjects (entry_admission e : G _).
Proof. unfold entry_admission, entry_verdict_at, entry_current_at. still. Qed.

Lemma still_release e f : always same_subjects (release_claim e f : G _).
Proof.
  unfold release_claim, entry_replace_pending, entry_pending_generation, entry_pending_operation.
  still.
Qed.

Lemma still_begin s e limit : always same_subjects (access_begin s e limit).
Proof.
  pose proof still_admission. pose proof still_release.
  unfold access_begin, new_fetch_after, entry_claim_pending. still; eauto.
Qed.

Lemma still_poll first e f q send : always same_subjects (access_poll first e f q send).
Proof.
  pose proof still_admission. pose proof still_release. unfold access_poll. still; eauto.
Qed.

Lemma still_await (r : Access.t) sends : always same_subjects (await_access r sends).
Proof.
  assert (Hs : ∀ sends first e f q, always same_subjects (await_send first e f q sends)).
  { pose proof still_poll. clear sends. induction sends as [|send sends IH]; intros; simpl; still; eauto. }
  destruct r; simpl; [still|apply Hs].
Qed.

(** No verdict that is still good, so no refresh. *)
Definition spent w (en : Entry P) : Prop :=
  entry_decode en = EntryState.Stale ∨
  ∀ n, (w_reads w ≤ n)%nat → is_expired_at en (sn_word (current en)) (w_clock w n) = true.

Lemma spent_access w s e en limit r w' :
  wf w → w_entries w !! e = Some en → spent w en → access_begin s e limit w = Some (r, w') →
  r = Access.Done None ∧ ∃ en', w_entries w' !! e = Some en' ∧ pending en' = pending en.
Proof.
  intros Hwf He Hsp Hrun. apply run_bind in Hrun as (a & w1 & Ha & Hrun).
  destruct (run_from_run _ _ _ _ _ _ (entry_admission_from w w e en Hwf (reflexivity w) He) Ha)
    as (_ & _ & sx & (_ & _ & en' & Hen & Hcase) & ->).
  assert (verdict_of sx = None ∧ pending en' = pending en) as [Hv Hp].
  { destruct Hcase as [(Hx & -> & ->)|(_ & Hx & -> & _)].
    - split; [|done]. unfold verdict_of. simpl. destruct Hsp as [Hst|Hx'].
      + unfold entry_decode in Hst. by rewrite Hst.
      + rewrite Hx' in Hx; [done|lia].
    - unfold verdict_of. by rewrite Hx. }
  rewrite Hv in Hrun. injection Hrun as <- <-. split; [done|].
  exists en'. by rewrite Hen, lookup_insert_eq.
Qed.

Lemma await_done a sends w r w' :
  await_access (Access.Done a) sends w = Some (r, w') → r = Some a ∧ w' = w.
Proof. by intros [= <- <-]. Qed.

(** C30. [refresh] keeps its promises.  With a subject that does not match the
    handle, or a handle whose entry was replaced, it returns at once, queues
    nothing and changes no entry that stays listed.  With a match, the slot is as
    recently used as the call, whatever else happens.  A stale or expired
    decision is not refreshed: nothing is queued and no claim is taken. *)
Theorem refresh_contract config clock w s e sends r w' :
  deployment config clock → reachable config clock w → refresh s e sends w = Some (r, w') →
  (¬ listed_as w s e → r = Some tt ∧ (∀ f, f ∈ w_refresh_queue w' → f ∈ w_refresh_queue w) ∧
     ∀ e', listed w' e' → w_entries w' !! e' = w_entries w !! e') ∧
  (listed_as w s e → ∃ slot, (s, slot) ∈ slots w' ∧ slot_entry slot = e ∧
     map_tick_at (w_activity_epoch w) (w_clock w (w_reads w)) ≤ last_touched slot) ∧
  (∀ en, w_entries w !! e = Some en → spent w en →
     r = Some tt ∧ (∀ f, f ∈ w_refresh_queue w' → f ∈ w_refresh_queue w) ∧
     (listed_as w s e → ∃ en', w_entries w' !! e = Some en' ∧ pending en' = pending en)).
Proof.
  intros Hdep Hr Hrun. pose proof (reachable_wf _ _ _ Hdep Hr) as Hwf.
  apply run_bind in Hrun as (a & w1 & Hb & Hrun). apply run_bind in Hrun as (x & w2 & Haw & Hrun).
  injection Hrun as <- <-. assert (Hq := frame_refresh_entry (λ _, False) s e _ _ _ Hb).
  apply run_bind in Hb as (now & w3 & Hn & Hb). apply run_bind in Hb as (m & w4 & Ht & Hb).
  destruct (now_run w w now w3 Hwf (reflexivity w) Hn) as [Hwf3 Ev3].
  injection Hn as <- <-. set (w3 := set_reads _ w) in *.
  destruct (run_from_run _ _ _ _ _ _ (map_touch_full w w3 s e _ Hwf3 Ev3) Ht)
    as (Hwf4 & Ev4 & (_ & Hm & Hm') & Hslot & Hkept).
  assert (Hqueue : ∀ f, f ∈ w_refresh_queue w1 → f ∈ w_refresh_queue w)
    by (by intros f [?|[]]%(fr_queue _ _ _ Hq)).
  assert (Hl3 : listed_as w3 s e ↔ listed_as w s e) by reflexivity.
  split; [|split].
  - intros Hno. destruct m; [by destruct Hno; apply Hm|]. injection Hb as <- <-.
    apply await_done in Haw as [-> ->]. done.
  - intros Hl. assert (m = true) as -> by by apply Hm. destruct Hslot as (slot & Hin & He & Htick); [done|].
    exists slot. split; [|done]. unfold slots in *.
    rewrite (still_await a sends _ _ _ Haw), (still_begin s e None _ _ _ Hb). exact Hin.
  - intros en He Hsp. destruct m.
    2:{ injection Hb as <- <-. apply await_done in Haw as [-> ->]. split; [done|]. split; [done|].
        intros Hl%Hl3%Hm. done. }
    assert (w_entries w4 !! e = Some en) as He4.
    { rewrite Hkept; [exact He|]. apply listed_iff. exists s. by apply Hm'. }
    assert (spent w4 en) as Hsp4.
    { destruct Hsp as [?|Hx]; [by left|right]. intros n Hle. rewrite (ev_clock _ _ Ev4).
      apply Hx. pose proof (ev_reads _ _ Ev4). lia. }
    destruct (spent_access _ _ _ _ _ _ _ Hwf4 He4 Hsp4 Hb) as (-> & en' & He' & Hp).
    apply await_done in Haw as [-> ->]. split; [done|]. split; [done|]. intros _. by exists en'.
Qed.
End facade.

(** ** The middleware's shortcut *)

Section shortcut.
Context {T P C : Type} `{Countable T, !LruCache T SubjectSlot C, !LruCacheOk T SubjectSlot C, TimeDriver}.
Context {X A Bd R : Type} `{!RequestPolicy T X Bd, !BodyAdapter A Bd, !RejectionResponse R A Bd}.
Context (messages : PolicyGateLayerConfig) (body : A) (response_ : R).
Implicit Types (w : World T P C) (s : T) (request : Request X Bd).

(** C24. The shortcut is the path it replaces.  When refreshing is disabled, the
    middleware reads the cache synchronously instead of suspending in
    [try_cached]; from any world the two do exactly the same: the same answer,
    the same handle, the same state and metrics afterwards. *)
Theorem shortcut_is_try_cached config clock w request s env :
  deployment config clock → reachable config clock w → refresh_before_expiry config = 0 →
  policy_subject request = Some s →
  call messages body response_ request w =
  call_step messages body response_ request s env CallPc.TryCached w.
Proof.
  intros Hdep Hr Hz Hs. pose proof (reachable_wf _ _ _ Hdep Hr) as Hwf.
  pose proof (reachable_config _ _ _ Hdep Hr) as Hc.
  rewrite <-Hc in Hz. pose proof (cached_disabled w s Hwf Hz) as Hcached.
  unfold call, call_step. rewrite Hs. unfold mbind, M_bind, gets in *. rewrite Hz, Hcached. simpl.
  by destruct (check_without_refresh s w) as [[[a|] w']|].
Qed.
End shortcut.

(** ** Construction of the layer *)

Section construction.
Context {T P C : Type} `{Countable T}.
Abbreviation Gate Me := (PolicyGate (T:=T) (P:=P) (C:=C) Me).

Record GateContext (Me : Type) : Type := mkContext {
  gate : Gate Me;
  rejection_message : string;
  context_missing_subject_message : string;
  metrics : Me;
}.
Arguments mkContext {Me}.
Arguments gate {Me}.
Arguments rejection_message {Me}.
Arguments context_missing_subject_message {Me}.
Arguments metrics {Me}.

(** The texts as the methods of the middleware read them. *)
Definition context_messages {Me} (c : GateContext Me) : PolicyGateLayerConfig :=
  mkLayerConfig (rejection_message c) (context_missing_subject_message c).

Record PolicyGateLayer (Me Pol A R : Type) : Type := mkLayer {
  layer_context : GateContext Me;
  layer_policy : Pol;
  layer_body : A;
  layer_response : R;
}.
Arguments mkLayer {Me Pol A R}.
Arguments layer_context {Me Pol A R}.
Arguments layer_policy {Me Pol A R}.
Arguments layer_body {Me Pol A R}.
Arguments layer_response {Me Pol A R}.

Record PolicyGateMiddleware (S Me Pol A R : Type) : Type := mkMiddleware {
  mw_inner : S;
  mw_context : GateContext Me;
  mw_policy : Pol;
  mw_body : A;
  mw_response : R;
}.
Arguments mkMiddleware {S Me Pol A R}.
Arguments mw_inner {S Me Pol A R}.
Arguments mw_context {S Me Pol A R}.
Arguments mw_policy {S Me Pol A R}.
Arguments mw_body {S Me Pol A R}.
Arguments mw_response {S Me Pol A R}.

Definition new_with_response {Me Pol A R} (g : Gate Me) (config : PolicyGateLayerConfig)
    (policy : Pol) (body : A) (response_ : R) : PolicyGateLayer Me Pol A R :=
  let metrics := metrics_of g in
  mkLayer (mkContext g (denied_message config) (missing_subject_message config) metrics)
    policy body response_.

(** [PolicyGateLayer::new]. *)
Definition layer_new {Me Pol A} (g : Gate Me) (config : PolicyGateLayerConfig) (policy : Pol)
    (body : A) : PolicyGateLayer Me Pol A HttpRejectionResponse :=
  new_with_response g config policy body HttpRejection.

Definition with_unavailable_response {Me Pol A R Bd} (l : PolicyGateLayer Me Pol A R)
    (response_ : AdmissionUnavailable → Response Bd) :
    PolicyGateLayer Me Pol A (UnavailableResponseAdapter (Bd:=Bd) R) :=
  mkLayer (layer_context l) (layer_policy l) (layer_body l)
    (mkUnavailable _ (layer_response l) response_).

(** The context and the policy are shared, the body adapter and the response policy
    are copied. *)
Definition layer_clone {Me Pol A R} (l : PolicyGateLayer Me Pol A R) : PolicyGateLayer Me Pol A R :=
  mkLayer (layer_context l) (layer_policy l) (layer_body l) (layer_response l).

Definition layer {S Me Pol A R} (l : PolicyGateLayer Me Pol A R) (inner : S) :
    PolicyGateMiddleware S Me Pol A R :=
  mkMiddleware inner (layer_context l) (layer_policy l) (layer_body l) (layer_response l).

(** *** The inner service *)

Section inner.
Context {S Me Pol A R : Type} (clone_inner : S → S) {E : Type}
  (inner_ready : S → Poll.t (result unit E) * S).
Abbreviation Middleware := (PolicyGateMiddleware S Me Pol A R).
Implicit Types (m : Middleware).

Definition with_inner (inner : S) m : Middleware :=
  mkMiddleware inner (mw_context m) (mw_policy m) (mw_body m) (mw_response m).

Definition middleware_clone m : Middleware :=
  mkMiddleware (clone_inner (mw_inner m)) (mw_context m) (mw_policy m) (mw_body m) (mw_response m).

Definition poll_ready m : Poll.t (result unit E) * Middleware :=
  let (r, inner) := inner_ready (mw_inner m) in (r, with_inner inner m).

(** What a call moves into its future, and what it leaves behind. *)
Definition take_inner m : S * Middleware :=
  let clone := clone_inner (mw_inner m) in (mw_inner m, with_inner clone m).

(** "We must take the current [inner] and not the clone": the service a call uses is
    the one whose readiness was polled. *)
Lemma call_uses_ready_inner m r m' inner m'' :
  poll_ready m = (r, m') → take_inner m' = (inner, m'') →
  inner_ready (mw_inner m) = (r, inner) ∧ m'' = with_inner (clone_inner inner) m.
Proof.
  unfold poll_ready, take_inner. destruct (inner_ready (mw_inner m)) as [r0 s0].
  intros [= <- <-] [= <- <-]. done.
Qed.
End inner.

(** A custom unavailable response changes that response and no other. *)
Lemma with_unavailable_only {Me Pol A R Bd} `{!RejectionResponse R A Bd}
    (l : PolicyGateLayer Me Pol A R) custom (body : A) (error : AdmissionUnavailable) message :
  let r := layer_response (with_unavailable_response l custom) in
  unavailable (Bd:=Bd) r body error message = custom error ∧
  denied (Bd:=Bd) r body message = denied (layer_response l) body message ∧
  missing_subject (Bd:=Bd) r body message = missing_subject (layer_response l) body message.
Proof. done. Qed.

(** Every handle of a layer, clones included, reads the texts it was configured with. *)
Lemma layer_keeps_config {S Me Pol A R} (g : Gate Me) config (policy : Pol) (body : A) (response_ : R)
    (inner : S) :
  let m := layer (layer_clone (new_with_response g config policy body response_)) inner in
  context_messages (mw_context m) = config ∧ gate (mw_context m) = g ∧
  mw_body m = body ∧ mw_response m = response_.
Proof. by destruct config. Qed.
End construction.

(** ** The theorems on concrete runs *)

Lemma refresh_contract_witness :
  ∃ slot, (7%nat, slot) ∈ slots (exec (refresh 7%nat 1 []) demo_admitted) ∧ slot_entry slot = 1%positive ∧
    0 ≤ last_touched slot.
Proof.
  assert (Hrun : refresh 7%nat 1 [] demo_admitted = Some (default None (value (refresh 7%nat 1 [])
    demo_admitted), exec (refresh 7%nat 1 []) demo_admitted)) by (vm_compute; reflexivity).
  destruct (refresh_contract demo_config demo_clock _ _ _ _ _ _ demo_deployment
    demo_admitted_reachable Hrun) as (_ & Hl & _).
  destruct (Hl demo_listed) as (slot & Hin & He & Ht). exists slot.
  split; [exact Hin|]. split; [exact He|]. etransitivity; [|exact Ht]. vm_compute. discriminate.
Defined.

(** The demo without refreshing. *)
Definition plain_config : PolicyGateConfig := mkConfig 2 10 1 5 7 0 1 8 64 2 100 60 0 3 4.
Definition plain_init : DemoWorld := gate_new plain_config demo_clock.
Definition plain_world : DemoWorld := exec (admit_now 7 Decision.Allowed) (exec watch_connected plain_init).

Lemma plain_deployment : deployment plain_config demo_clock.
Proof.
  split.
  - split; repeat constructor; vm_compute; discriminate.
  - reflexivity.
  - intros n. unfold demo_clock. destruct (_ <? _)%nat; vm_compute; discriminate.
Qed.

Lemma plain_reachable : reachable plain_config demo_clock plain_world.
Proof.
  assert (Hwf : wf plain_init) by (by apply gate_new_wf; apply plain_deployment).
  destruct (exec_step watch_connected plain_init _ (watch_connected_from _ _ Hwf (reflexivity _))) as [u Hu].
  assert (reachable plain_config demo_clock (exec watch_connected plain_init)) as Hon
    by (apply rtc_once; by eapply step_watch_connected).
  unfold reachable, gate_steps. etrans; [exact Hon|].
  apply driven_steps; [|vm_compute; eauto]. by eapply reachable_wf; [apply plain_deployment|].
Qed.

Lemma shortcut_is_try_cached_witness :
  is_Some (value (check_without_refresh 7%nat) plain_world ≫= id) ∧
  call demo_messages tt HttpRejection demo_request plain_world =
  call_step demo_messages tt HttpRejection demo_request 7%nat (answering Decision.Denied)
    CallPc.TryCached plain_world.
Proof.
  split; [vm_compute; eauto|].
  apply (shortcut_is_try_cached demo_messages tt HttpRejection plain_config demo_clock).
  - apply plain_deployment.
  - apply plain_reachable.
  - reflexivity.
  - reflexivity.
Defined.
