(* ===== verification/HttpMiddleware.v ===== *)
(** * HttpMiddleware: the example service ([src/examples/http_middleware.rs])

    Authentication in front of the policy layer: [authenticate] validates a bearer
    token and inserts the subject into the request's extensions; the layer reads
    that extension and nothing else.  The inner service is reached only by a
    request with the example's token, under a handle of its subject.  [main] is
    modelled up to the router: its construction succeeds. *)

From S2P Require Export Facade.

(** ** Requests of the example

    [http::request::Parts]: the first value of each header, and the one
    extension the example uses. *)

Record AuthenticatedSubject : Type := mkAuthenticated {
  subject_name : string;
}.

Record Parts : Type := mkParts {
  parts_headers : HeaderMap;
  parts_extension : option AuthenticatedSubject;
}.

Definition AUTHORIZATION : string := "authorization".
Definition UNAUTHORIZED : Z := 401.

Fixpoint strip_prefix (p s : string) : option string :=
  match p, s with
  | EmptyString, _ => Some s
  | String a p, String b s => if bool_decide (a = b) then strip_prefix p s else None
  | String _ _, EmptyString => None
  end.

Section example.
(** [HeaderValue::to_str]: [None] for a value that is not visible ASCII. *)
Context (to_str : string → option string).
Context {Bd A : Type} `{!BodyAdapter A Bd}.

Definition validate_bearer (headers_ : HeaderMap) : option AuthenticatedSubject :=
  value ← headers_ !! AUTHORIZATION;
  value ← to_str value;
  token ← strip_prefix "Bearer " value;
  if bool_decide (token = "example-token") then Some (mkAuthenticated "user-123") else None.

#[export] Instance SubjectFromAuthentication : RequestPolicy string Parts Bd := {
  policy_subject request := option_map subject_name (parts_extension (request_parts request));
  enforce_request_body _ := false;
  enforce_response_body _ := true;
}.

Definition insert_subject (subject : AuthenticatedSubject) (request : Request Parts Bd) :
    Request Parts Bd :=
  mkRequest (mkParts (parts_headers (request_parts request)) (Some subject)) (request_body request).

(** [authenticate], up to the request it hands on. *)
Definition authenticate (request : Request Parts Bd) : result (Request Parts Bd) Z :=
  match validate_bearer (parts_headers (request_parts request)) with
  | Some subject => Ok (insert_subject subject request)
  | None => Err UNAUTHORIZED
  end.

(** [ExampleDecisionSource]; its watch never delivers a change. *)
Definition example_decision (subject : string) : result (option Decision.t) DecisionSourceError :=
  Ok (Some (if bool_decide (subject = "user-123") then Decision.Allowed else Decision.Denied)).
Definition example_changes : Poll.t (option (result (DecisionChange string) DecisionSourceError)) :=
  Poll.Pending.

(** ** The composition *)

Context {P C : Type} `{!LruCache string SubjectSlot C, !LruCacheOk string SubjectSlot C, TimeDriver}.
Context {R : Type} `{!RejectionResponse R A Bd}.
Context (messages : PolicyGateLayerConfig) (body : A) (response_ : R).
Implicit Types (w : World string P C).

(** The service: authentication, then the policy layer. *)
Definition serve (request : Request Parts Bd) :
    M (World string P C) (result (CallPc.t string Parts Bd) Z) :=
  match authenticate request with
  | Err status_ => mret (Err status_)
  | Ok request => pc ← call messages body response_ request; mret (Ok pc)
  end.

Lemma strip_prefix_Some p s rest : strip_prefix p s = Some rest ↔ s = p +:+ rest.
Proof.
  revert s. induction p as [|a p IH]; intros s; simpl; [split; [by intros [= ->]|by intros ->]|].
  destruct s as [|b s]; [done|]. case_bool_decide as Hab.
  - subst. rewrite IH. split; [by intros ->|by intros [= ->]].
  - split; [done|]. by intros [= -> _].
Qed.

Lemma validate_bearer_iff headers_ subject :
  validate_bearer headers_ = Some subject ↔
  subject = mkAuthenticated "user-123" ∧
  ∃ value, headers_ !! AUTHORIZATION = Some value ∧ to_str value = Some "Bearer example-token".
Proof.
  unfold validate_bearer. split.
  - intros (value & Hv & (text & Ht & (token & Hp & Hs)%bind_Some)%bind_Some)%bind_Some.
    apply strip_prefix_Some in Hp as ->. case_bool_decide as Htok; [|done]. injection Hs as <-. subst.
    split; [done|]. by exists value.
  - intros (-> & value & -> & Ht). simpl. rewrite Ht. reflexivity.
Qed.

(** Nobody reaches the example service without its token.  A request without
    the bearer token is answered with 401 and the gate is not consulted, whatever
    extensions it came with; a request with it is gated as the one subject that
    the token stands for, and is handed on only with an allowed handle of that
    subject. *)
Theorem example_needs_bearer config clock w request :
  deployment config clock → reachable config clock w →
  let bearer := ∃ value, parts_headers (request_parts request) !! AUTHORIZATION = Some value ∧
    to_str value = Some "Bearer example-token" in
  (¬ bearer → serve request w = Some (Err UNAUTHORIZED, w)) ∧
  (bearer → ∃ pc w', serve request w = Some (Ok pc, w') ∧
     call_post messages body response_ w (insert_subject (mkAuthenticated "user-123") request)
       "user-123" pc w').
Proof.
  intros Hdep Hr bearer. pose proof (reachable_wf _ _ _ Hdep Hr) as Hwf.
  unfold serve, authenticate. split.
  - intros Hno. destruct (validate_bearer _) as [subject|] eqn:Hv; [|done].
    apply validate_bearer_iff in Hv as [_ Hb]. by destruct Hno.
  - intros Hb. assert (validate_bearer (parts_headers (request_parts request)) =
      Some (mkAuthenticated "user-123")) as -> by by apply validate_bearer_iff.
    set (request' := insert_subject _ request).
    assert (policy_subject request' = Some "user-123") as Hs by reflexivity.
    destruct (call_from messages body response_ w request' "user-123" Hwf Hs)
      as (pc & w' & Hrun & _ & _ & Hp).
    exists pc, w'. split; [|done]. by rewrite (run_bind_step _ _ _ _ _ Hrun).
Qed.
End example.

(** ** [main], up to the router

    The configuration, the gate over tokio's clock, and the layer; [None] is a panic
    of an [expect].  [now] is the reading of the process clock by [build]. *)

Section example_main.
Context {C I St : Type} `{!LruCache string SubjectSlot C, TimeDriver}.
Abbreviation Metrics := (PolicyGateMetrics St).

(** The policy is a unit struct, its methods are [SubjectFromAuthentication]. *)
Inductive ExamplePolicy : Set := ExamplePolicy_.

Definition example_messages : PolicyGateLayerConfig :=
  mkLayerConfig "the authenticated subject is not allowed"
    "authentication did not provide a subject".

Definition example_main (now : Z) (tokio : Tokio I) :
    option (PolicyGateLayer (T:=string) (P:=unit) (C:=C) Metrics ExamplePolicy AxumBodyAdapter
              HttpRejectionResponse * M (World string unit C) WatchState) :=
  match build now builder with
  | Err _ => None
  | Ok config =>
      match gate_parts_new config tokio with
      | None => None
      | Some parts =>
          Some (layer_new (parts_gate _ parts) example_messages ExamplePolicy_ AxumBody,
                parts_watcher _ parts)
      end
  end.

(** The example starts: neither [expect] of the construction fails, and the layer
    reads the example's texts and a gate that knows nothing yet. *)
Lemma example_starts now (tokio : Tokio I) :
  now + DEFAULT_ADMISSION_TIMEOUT ≤ Instant.MAX →
  ∃ l watcher, example_main now tokio = Some (l, watcher) ∧
    context_messages (layer_context _ _ _ _ l) = example_messages ∧
    gate_state _ (gate _ (layer_context _ _ _ _ l)) = gate_new (candidate builder) (tokio_now tokio).
Proof.
  intros Hnow. pose proof (default_valid now Hnow) as Hv.
  unfold example_main. rewrite build_complete by done. unfold gate_parts_new, new_with_metrics.
  rewrite (construction_total _ now) by (done || by vm_compute). by do 2 eexists.
Qed.
End example_main.

(** ** The theorem on concrete requests *)

Definition example_world : World string nat (ListLru string SubjectSlot) := gate_new demo_config demo_clock.
Definition example_request (headers_ : HeaderMap) : Request Parts DemoBody :=
  mkRequest (mkParts headers_ (Some (mkAuthenticated "intruder"))) Plain.
Definition bearer_headers : HeaderMap := {[ AUTHORIZATION := "Bearer example-token" ]}.

Lemma example_needs_bearer_witness :
  serve Some demo_messages tt HttpRejection (example_request ∅) example_world =
    Some (Err 401, example_world) ∧
  ∃ pc w', serve Some demo_messages tt HttpRejection (example_request bearer_headers) example_world =
    Some (Ok pc, w').
Proof.
  assert (Hr : reachable demo_config demo_clock example_world) by apply rtc_refl.
  split.
  - refine (proj1 (example_needs_bearer Some demo_messages tt HttpRejection demo_config demo_clock
      example_world (example_request ∅) demo_deployment Hr) _).
    intros (value & Hv & _). vm_compute in Hv. discriminate.
  - destruct (proj2 (example_needs_bearer Some demo_messages tt HttpRejection demo_config demo_clock
      example_world (example_request bearer_headers) demo_deployment Hr)) as (pc & w' & Hrun & _).
    + exists "Bearer example-token". split; vm_compute; reflexivity.
    + exists pc, w'. exact Hrun.
Defined.
